(* ===== verification/_CoqProject ===== *)
-Q . S2P
Prelude.v
Messages.v
Syncer.v
Queue.v
GoFloat.v
Timeout.v
Ticker.v
GbnConn.v
GbnWindow.v
GbnSystem.v
GbnHandshake.v
GbnOptions.v
GbnSafety.v
GbnRecovery.v
Sha2.v
NoiseState.v
NoiseHandshake.v
NoiseTransport.v
Listener.v
Mailbox.v
EndToEnd.v
MailboxConn.v
Pairing.v
GoFmt.v
Lifecycle.v
CreateConn.v
Permissions.v
Addresses.v
Nums.v
Mobile.v
Wasm.v
