(* ===== verification/Prelude.v ===== *)
(** * Lightning Node Connect: a verification development

    Lightning Node Connect lets a client reach a node behind a firewall: both
    ends connect to a mailbox server that relays packets, run a Go-Back-N
    protocol through it to get a reliable message stream, and a Noise
    handshake on top to get an encrypted one.  Bindings for the browser and
    for mobile applications wrap the client.  This library models the Go
    packages [gbn] and [mailbox] and both bindings as executable Rocq
    definitions and proves what each layer promises the next.

    ** The layers and the files

    From the bottom up; a file requires only files listed before it.

    - [Prelude.v] (this file): Go values (results with errors and panics,
      machine integers, slices, big-endian numbers, buffers), the state monad
      [M], the tactics and the hint database [go].
    - [Messages.v], [gbn/messages.go]: the six packet types, [Serialize] and
      [Deserialize].
    - [Syncer.v], [gbn/syncer.go]: the wait after a resend.  Each method is a
      definition; the goroutines are the relation [syncer_step].
    - [Queue.v], [gbn/queue.go]: the circular send queue over sequence numbers
      modulo [s], and an abstract queue (a history and a base) it refines.
    - [GoFloat.v], [Timeout.v], [gbn/timeout_manager.go], [gbn/config.go],
      [gbn/backoff_wait.go]: round-trip samples, boosted timeouts, pong times,
      retry backoff, with single and double precision as in Go.
    - [Ticker.v], [gbn/ticker.go]: the pausable ticker and its goroutine.
    - [GbnConn.v], [gbn/gbn_conn.go], [gbn/options.go]: [GoBackNConn] with
      [Send], [Recv], [Close], [start]; [sendPacketsForever] and
      [receivePacketsForever] are the step functions [sendStep] and
      [recvStep], one step per blocking point.
    - [GbnWindow.v], [GbnSystem.v]: two endpoints, two wires that keep order
      and may lose packets, every interleaving; the window invariant and what
      follows from it.
    - [GbnHandshake.v], [gbn/gbn_client.go], [gbn/gbn_server.go]: the SYN
      handshake of both sides with its reader goroutine, as one interface
      ([HsRole], [HsCorrect]) with two instances, and connections from the
      first SYN to data transfer, in which the context of either side may be
      cancelled at any moment ([connects]; [connect] leaves out the runs in
      which this interrupts the server's handshake).
    - [GbnOptions.v], the constants and option lists of
      [mailbox/client_conn.go] and [mailbox/server_conn.go]: how the mailbox
      configures Go-Back-N.
    - [GbnSafety.v]: no panic from the first SYN to [Close], and the two
      handshakes of a server that go wrong.
    - [GbnRecovery.v]: from every state of two running endpoints everything
      submitted can still be delivered, on a clock that only goes forward.
    - [Sha2.v]: SHA-256, SHA-512 and HMAC, which session ids and keys use.
    - [NoiseState.v], [mailbox/noise.go], [mailbox/noise_patterns.go],
      [mailbox/conndata.go], [mailbox/crypto.go] (stretching): cipher,
      symmetric and handshake state, tokens, acts, [DoHandshake], [ConnData].
    - [NoiseHandshake.v]: a transcript specification of the handshake and the
      proof that both machines follow it.
    - [NoiseTransport.v], the rest of [mailbox/noise.go],
      [mailbox/tcp_noise_conn.go], [mailbox/grpc_noise_conn.go]: encrypted
      records, partial writes, the two connection types.
    - [Listener.v], [mailbox/tcp_noise_listner.go] and [Dial] of
      [mailbox/tcp_noise_conn.go]: the TCP listener with its accept loop and
      handshake goroutines.
    - [Mailbox.v], [mailbox/interface.go], [GetSID] of [mailbox/server.go]:
      [MsgData] frames, the byte stream [connKit], session ids.
    - [EndToEnd.v]: encrypted records through the byte stream through
      Go-Back-N.
    - [MailboxConn.v], [mailbox/client_conn.go],
      [mailbox/client_transport.go], [mailbox/server_conn.go]: streams to the
      mailbox server, retry loops, status, JSON unwrapping, closing.
    - [Pairing.v], [mailbox/crypto.go], [mailbox/create_conn.go] (the words of
      the phrase), [GetRequestMetadata] of [mailbox/grpc_noise_conn.go]: the
      pairing phrase as words and entropy, the header fields of the auth data.
    - [GoFmt.v]: [fmt.Errorf] of a text without operands, which the browser
      client uses on texts of the page.
    - [Lifecycle.v], [mailbox/client.go], [mailbox/server.go]: [Dial] and
      [Accept], one connection at a time, over the connections of
      [MailboxConn.v]; [server_life] and [client_life] are the states that
      any use can reach.
    - [CreateConn.v], [mailbox/create_conn.go]: a client from a typed phrase.
    - [Permissions.v], the code [mobile/mobile.go] and
      [cmd/wasm-client/main.go] share: hexadecimal strings, the URI of an RPC,
      macaroon operations and the permission check.
    - [Addresses.v], the [net.Addr] values of [mailbox/interface.go],
      [mailbox/grpc_noise_conn.go] and [mailbox/server.go].
    - [Nums.v], [mailbox/numsgen/main.go]: the generator of the constant N.
    - [Mobile.v], [mobile/mobile.go]: the globals, the clients by namespace in
      a heap that goroutines share, every exported function; [mobile_life] is
      what an application can reach.
    - [Wasm.v], [cmd/wasm-client/main.go], [cmd/wasm-client/config.go]: values
      of the page, the set-up of [main], every callback.

    ** How code becomes definitions

    A pure Go function is a function.  A method that mutates its receiver
    takes and returns the receiver's record; where errors and mutations mix it
    is a computation in [M], which keeps the mutations made before an error.
    Run-time panics (index out of range, division by zero, nil dereference,
    closing a closed channel, an exception of the page's JavaScript) are
    values of [result].  Integers keep their Go
    width: [u8], [u32], [i64] and [sint] write the wrap-around out.  Goroutines
    are program points with a step function; a [select] is a choice of the
    event that is ready.  A mutex makes the operation under it one step.  The
    clock, the network, the mailbox server's answers and the order of events
    are parameters or nondeterministic.  The curve, the AEAD, HKDF and scrypt
    are the class [Crypto]; what the handshake relies on (Diffie-Hellman
    commutes, decryption inverts encryption, keys parse back, masking can be
    undone) is [CryptoLaws], and a toy instance shows that the laws can hold.
    So are the word list ([Mnemonics]), macaroons and the permission manager
    ([Macaroons]), stored keys ([NativeKeys]) and points of the curve
    ([SecpLaws]), each with an instance.
    Conversions of out-of-range floats, which Go leaves to the platform, are
    the class [FloatToInt] with the [amd64] instance.

    ** What is proved

    - Delivery: [encrypted_end_to_end] (all layers),
      [connection_delivers_in_order] (handshake and transfer),
      [gbn_in_order_delivery], [gbn_messages_delivered],
      [mailbox_stream_in_order] (bytes written to bytes read), each for all
      interleavings and losses; [send_recv_roundtrip], [message_codec] and
      [msgdata_codec] for splitting and framing.
    - No panic from the first SYN to the end of [Close], whatever the
      interleaving: [connection_never_panics]; and no deadlock: whatever was
      lost, delivery of everything submitted stays possible through the
      resend tick and the timeout of [waitForSync], from any time on, with a
      clock that never goes back and timers that fire after waits as long as
      one likes: [connection_can_recover].
    - The send queue: [queue_refines_abstract] (resends included),
      [resend_window] (with the back-off); the syncer:
      [expected_nack_wakes_waiter].
    - Timing: [timeout_manager_invariant], [resent_packet_gives_no_sample],
      [ack_updates_resend_timeout], [pong_time_clamped],
      [boost_once_per_timeout], [default_boost_schedule], [backoff_schedule],
      [pause_silences_ticker]; with the mailbox's options [mailbox_keepalive].
    - Encryption: [noise_xx_agreement], [noise_reconnects_with_kk],
      [auth_payload_delivery], [sid_agreement], [transport_roundtrip],
      [flush_resumes], [noiseconn_write_roundtrip], [grpc_read_message],
      [key_rotation], [nums_constant]; over TCP [tcp_session],
      [listener_slots], [listener_winds_down].  The handshakes are proved for
      networks that deliver each handshake message as one segment, as the
      mailbox does; [tcp_session] also says how one that arrives in parts
      fails.
    - The mailbox: [session_boxes], [client_streams], [server_streams],
      [status_reports], [websocket_wrapper]; clients and servers:
      [dial_meets_accept], [accept_one_session], [closed_server_is_final];
      pairing: [pairing_phrase_roundtrip], [typed_phrase_pairs],
      [metadata_of_headers]; addresses: [addresses_identify].
    - The bindings: [permission_check], [permission_query],
      [browser_permission_query], [namespaces_independent],
      [stored_keys_come_back], [browser_callback], [namespace_object].
    - Where the code falls short of its intent, exactly when:
      [nack_above_s_panics], [server_accepts_window_255],
      [interrupted_server_keeps_default], [late_syn_closes_connection],
      [recv_timeout_loses_chunks],
      [early_nack_is_lost], [expectedACK_correct], [grpc_read_small_buffer],
      [clone_cannot_reconnect], [mobile_expiry_is_lost], [rpc_start],
      [disconnect_twice].

    ** Bounds and fuel

    The window theorems hold for every window from 1 to 254, the sizes a
    client accepts.  Loops that are not structural take fuel and return [None]
    when it runs out: [chunks] gets the length of the data, [resendLoop] the
    size of the sequence space, [writeLoop] the length of the data, and their
    theorems prove that this is enough; [retryLoop] and [payloadLoop], which
    the code repeats until the network answers or the connection stops, come
    with a theorem that they return once it stops.  The replacement loop of
    [stripJSONWrapper] consumes a byte per step, and so do [replaceCB] and
    [doPrintf], whose fuel is the length of the text.
    [generate] may run for ever; its theorem says at which counter it stops.

    ** Not modelled

    Generated code ([hashmailrpc]), test harnesses and logging; in
    [Lifecycle.v] the Go-Back-N handshake is any sequence of stream calls
    followed by success or an error; when tickers tick is up to the
    environment; [net.Conn], gRPC and websocket internals; flag parsing;
    memory use, and secrecy against an attacker (the laws of [Crypto] are
    functional).  Delivery is a safety statement and recovery a possibility:
    there is a run that delivers, for every clock and all waits; that every
    run of a fair scheduler does so within a bound is not proved. *)

From stdpp Require Import base numbers list gmap strings tactics relations.
From Stdlib Require Import ZArith Lia Ascii.

Declare Scope go_scope.
Delimit Scope go_scope with go.
Global Open Scope Z_scope.
Global Open Scope go_scope.

Create HintDb go.
Create Rewrite HintDb go.

(** ** Go values *)

Abbreviation byte := Z (only parsing).
Abbreviation bytes := (list Z) (only parsing).

(** [time.Duration]: a signed 64-bit count of nanoseconds. *)
Abbreviation Duration := Z (only parsing).

(** [time.Time]: nanoseconds since Go's zero time, so that the zero value
    [time.Time{}] is [0]. *)
Abbreviation Time := Z (only parsing).

(** The errors the code returns: [io.EOF], the errors of the module's own
    [errors.New] values, and [fmt.Errorf] wrapping another error. *)
Inductive error :=
| EOF
| ErrUnexpectedEOF
| ErrMsg (msg : string)
| ErrWrap (msg : string) (e : error).

(** Run-time panics. *)
Inductive panic :=
| IndexOutOfRange
| DivideByZero
| NilDereference
| CloseOfClosedChannel
| NonPositiveInterval
| JSValueError
| JSException.

(** The outcome of a Go call. *)
Inductive result (A : Type) :=
| Ok (a : A)
| Err (e : error)
| Panic (p : panic).
Arguments Ok {A} a.
Arguments Err {A} e.
Arguments Panic {A} p.

#[global] Instance error_eq_dec : EqDecision error.
Proof. solve_decision. Defined.

#[global] Instance panic_eq_dec : EqDecision panic.
Proof. solve_decision. Defined.

#[global] Instance result_eq_dec `{EqDecision A} : EqDecision (result A).
Proof. solve_decision. Defined.

#[global] Instance result_ret : MRet result := λ A a, Ok a.

#[global] Instance result_bind : MBind result := λ A B f r,
  match r with
  | Ok a => f a
  | Err e => Err e
  | Panic p => Panic p
  end.

Definition is_ok {A} (r : result A) : bool :=
  match r with Ok _ => true | _ => false end.

Definition is_panic {A} (r : result A) : bool :=
  match r with Panic _ => true | _ => false end.

(** ** Stateful code

    A Go method that mutates [S] and may return an error is a function from
    the state to an outcome and the state it leaves behind; the mutations made
    before an error return are kept. *)
Definition M (S A : Type) : Type := S → result A * S.

#[global] Instance M_ret {S} : MRet (M S) := λ A a s, (Ok a, s).

#[global] Instance M_bind {S} : MBind (M S) := λ A B f m s,
  match m s with
  | (Ok a, s') => f a s'
  | (Err e, s') => (Err e, s')
  | (Panic p, s') => (Panic p, s')
  end.

Definition getS {S} : M S S := λ s, (Ok s, s).
Definition gets {S A} (f : S → A) : M S A := λ s, (Ok (f s), s).
Definition modify {S} (f : S → S) : M S unit := λ s, (Ok tt, f s).
Definition liftR {S A} (r : result A) : M S A := λ s, (r, s).
Definition failM {S A} (e : error) : M S A := λ s, (Err e, s).

(** Run a computation on a component of the state. *)
Definition zoom {S T A} (get : S → T) (set : T → S → S) (m : M T A) : M S A :=
  λ s, let '(r, t) := m (get s) in (r, set t s).

(** ** Machine integers *)

Definition u8 (x : Z) : Z := x mod 256.
Definition u16 (x : Z) : Z := x mod 65536.
Definition u32 (x : Z) : Z := x mod 4294967296.
Definition u64 (x : Z) : Z := x mod 18446744073709551616.

(** Two's complement wrap-around of a signed [w]-bit integer. *)
Definition sint (w x : Z) : Z := (x + 2 ^ (w - 1)) mod 2 ^ w - 2 ^ (w - 1).

Definition i64 (x : Z) : Z := sint 64 x.

Definition MaxInt64 : Z := 9223372036854775807.
Definition MinInt64 : Z := -9223372036854775808.
Definition MaxUint8 : Z := 255.
Definition MaxUint16 : Z := 65535.
Definition MaxInt32 : Z := 2147483647.

Definition is_u8 (x : Z) : Prop := 0 ≤ x < 256.
Definition is_i64 (x : Z) : Prop := MinInt64 ≤ x ≤ MaxInt64.

(** [a % b] on unsigned operands: a run-time panic when [b] is zero. *)
Definition umod (a b : Z) : result Z :=
  if b =? 0 then Panic DivideByZero else Ok (a mod b).

(** [time.Time.Sub] saturates at the bounds of [time.Duration]. *)
Definition timeSub (t u : Time) : Duration :=
  Z.max MinInt64 (Z.min MaxInt64 (t - u)).

Definition Millisecond : Duration := 1000000.
Definition Second : Duration := 1000000000.

(** ** Slices *)

(** [b[i]]: a panic out of range. *)
Definition index {A} (l : list A) (i : Z) : result A :=
  if i <? 0 then Panic IndexOutOfRange
  else match l !! Z.to_nat i with
       | Some x => Ok x
       | None => Panic IndexOutOfRange
       end.

(** [l[i] = x]: a panic out of range. *)
Definition setIndex {A} (l : list A) (i : Z) (x : A) : result (list A) :=
  if (i <? 0) || (Z.of_nat (length l) <=? i) then Panic IndexOutOfRange
  else Ok (<[Z.to_nat i := x]> l).

Definition len {A} (l : list A) : Z := Z.of_nat (length l).

(** [b[lo:hi]] on a slice whose capacity is its length. *)
Definition slice {A} (l : list A) (lo hi : Z) : result (list A) :=
  if (lo <? 0) || (hi <? lo) || (len l <? hi) then Panic IndexOutOfRange
  else Ok (take (Z.to_nat (hi - lo)) (drop (Z.to_nat lo) l)).

(** [copy(dst, src)]: the new contents of [dst]. *)
Definition copy {A} (dst src : list A) : list A :=
  take (length dst) src ++ drop (length src) dst.

(** ** Big-endian encoding ([binary.BigEndian]) *)

Definition putUint16 (x : Z) : bytes := [u8 (x / 256); u8 x].
Definition putUint32 (x : Z) : bytes :=
  [u8 (x / 16777216); u8 (x / 65536); u8 (x / 256); u8 x].
Definition getUint16 (b : bytes) : result Z :=
  match b with
  | b0 :: b1 :: _ => Ok (b0 * 256 + b1)
  | _ => Panic IndexOutOfRange
  end.
Definition getUint32 (b : bytes) : result Z :=
  match b with
  | b0 :: b1 :: b2 :: b3 :: _ =>
      Ok (b0 * 16777216 + b1 * 65536 + b2 * 256 + b3)
  | _ => Panic IndexOutOfRange
  end.

(** ** Buffers and strings *)

(** [bytes.Buffer.Read] into a slice of [k] bytes: the bytes read and the
    bytes left. *)
Definition bufferRead (buf : bytes) (k : Z) : result bytes * bytes :=
  if (len buf =? 0) && (0 <? k) then (Err EOF, [])
  else (Ok (take (Z.to_nat k) buf), drop (Z.to_nat k) buf).

(** [[]byte(s)]. *)
Fixpoint bytesOfString (s : string) : bytes :=
  match s with
  | EmptyString => []
  | String c s => Z.of_N (N_of_ascii c) :: bytesOfString s
  end.

Fixpoint stringOfBytes (b : bytes) : string :=
  match b with
  | [] => EmptyString
  | x :: b => String (ascii_of_N (Z.to_N x)) (stringOfBytes b)
  end.

(** [err.Error()]. *)
Fixpoint errorText (e : error) : string :=
  match e with
  | EOF => "EOF"
  | ErrUnexpectedEOF => "unexpected EOF"
  | ErrMsg msg => msg
  | ErrWrap msg e => msg +:+ errorText e
  end.

(** ** Tactics *)

(** Split every conditional of the goal on a [Z] or [bool] test, keeping the
    arithmetic fact. *)
Ltac zbool :=
  repeat match goal with
  | H : (_ && _)%bool = true |- _ => apply andb_true_iff in H; destruct H
  | H : (_ || _)%bool = false |- _ => apply orb_false_iff in H; destruct H
  | H : negb _ = true |- _ => apply negb_true_iff in H
  | H : negb _ = false |- _ => apply negb_false_iff in H
  | H : (_ =? _) = true |- _ => apply Z.eqb_eq in H
  | H : (_ =? _) = false |- _ => apply Z.eqb_neq in H
  | H : (_ <? _) = true |- _ => apply Z.ltb_lt in H
  | H : (_ <? _) = false |- _ => apply Z.ltb_ge in H
  | H : (_ <=? _) = true |- _ => apply Z.leb_le in H
  | H : (_ <=? _) = false |- _ => apply Z.leb_gt in H
  end.

Ltac case_if :=
  match goal with
  | |- context [if ?b then _ else _] => destruct b eqn:?; zbool
  | |- context [match ?b with true => _ | false => _ end] =>
      destruct b eqn:?; zbool
  end.

Ltac case_if_in H :=
  match type of H with
  | context [if ?b then _ else _] => destruct b eqn:?; zbool
  end.

(** Unfold the monadic plumbing of a handler applied to a state. *)
Ltac mstep :=
  cbv beta iota zeta delta
    [mbind M_bind result_bind mret M_ret result_ret getS gets modify liftR
     failM zoom].

(** ** Lemmas on machine integers *)

Lemma u8_small x : is_u8 x → u8 x = x.
Proof. unfold is_u8, u8. intros. by apply Z.mod_small. Qed.

Lemma u8_range x : is_u8 (u8 x).
Proof. unfold is_u8, u8. apply Z.mod_pos_bound. lia. Qed.

Lemma u16_small x : 0 ≤ x < 65536 → u16 x = x.
Proof. unfold u16. intros. by apply Z.mod_small. Qed.

Lemma u32_small x : 0 ≤ x < 4294967296 → u32 x = x.
Proof. unfold u32. intros. by apply Z.mod_small. Qed.

Lemma i64_small x : is_i64 x → i64 x = x.
Proof.
  unfold is_i64, MinInt64, MaxInt64, i64, sint. intros.
  change (2 ^ (64 - 1)) with 9223372036854775808.
  change (2 ^ 64) with 18446744073709551616.
  rewrite Z.mod_small; lia.
Qed.

Lemma i64_range x : is_i64 (i64 x).
Proof.
  unfold is_i64, MinInt64, MaxInt64, i64, sint.
  change (2 ^ (64 - 1)) with 9223372036854775808.
  change (2 ^ 64) with 18446744073709551616.
  pose proof (Z.mod_pos_bound (x + 9223372036854775808)
                18446744073709551616 ltac:(lia)).
  lia.
Qed.

#[export] Hint Resolve u8_range i64_range : go.
#[export] Hint Rewrite u8_small u16_small u32_small i64_small
  using (unfold is_u8, is_i64, MinInt64, MaxInt64 in *; lia) : go.

Lemma umod_pos a b : 0 < b → umod a b = Ok (a mod b).
Proof. intros. unfold umod. destruct (Z.eqb_spec b 0); [lia|done]. Qed.

(** Two indices closer than [s] that agree modulo [s] are equal. *)
Lemma mod_inj (s a b : Z) :
  0 < s → a mod s = b mod s → Z.abs (a - b) < s → a = b.
Proof.
  intros Hs Heq Hlt.
  assert (Hz : (a - b) mod s = 0)
    by (rewrite Zminus_mod, Heq, Z.sub_diag; apply Z.mod_0_l; lia).
  apply Z.mod_divide in Hz as [k Hk]; [|lia].
  assert (k = 0) by nia. lia.
Qed.

Lemma mod_succ (s a : Z) : 0 < s → (a mod s + 1) mod s = (a + 1) mod s.
Proof. intros. by rewrite Zplus_mod_idemp_l. Qed.

(** ** Lemmas on slices *)

Lemma len_nonneg {A} (l : list A) : 0 ≤ len l.
Proof. unfold len. lia. Qed.

Lemma len_app {A} (l k : list A) : len (l ++ k) = len l + len k.
Proof. unfold len. rewrite length_app. lia. Qed.

Lemma index_lookup {A} (l : list A) (i : Z) x :
  0 ≤ i → l !! Z.to_nat i = Some x → index l i = Ok x.
Proof.
  intros Hi Hl. unfold index.
  destruct (Z.ltb_spec i 0); [lia|]. by rewrite Hl.
Qed.

Lemma index_panic {A} (l : list A) (i : Z) :
  len l ≤ i → index l i = Panic IndexOutOfRange.
Proof.
  unfold len, index. intros Hi. destruct (Z.ltb_spec i 0); [done|].
  rewrite (proj2 (lookup_ge_None l (Z.to_nat i))); [done|lia].
Qed.

Lemma setIndex_ok {A} (l : list A) (i : Z) x :
  0 ≤ i < len l → setIndex l i x = Ok (<[Z.to_nat i := x]> l).
Proof.
  unfold len, setIndex. intros Hi.
  destruct (Z.ltb_spec i 0); [lia|].
  destruct (Z.leb_spec (Z.of_nat (length l)) i); [lia|done].
Qed.

Lemma slice_ok {A} (l : list A) lo hi :
  0 ≤ lo ≤ hi → hi ≤ len l →
  slice l lo hi = Ok (take (Z.to_nat (hi - lo)) (drop (Z.to_nat lo) l)).
Proof.
  unfold slice. intros.
  destruct (Z.ltb_spec lo 0); [lia|]. destruct (Z.ltb_spec hi lo); [lia|].
  destruct (Z.ltb_spec (len l) hi); [lia|]. done.
Qed.

Lemma length_copy {A} (dst src : list A) : length (copy dst src) = length dst.
Proof. unfold copy. rewrite length_app, length_take, length_drop. lia. Qed.

(** ** Big-endian round trips *)

Lemma div_digit x : 0 ≤ x → x = x / 256 * 256 + x mod 256.
Proof. intros. pose proof (Z.div_mod x 256 ltac:(lia)). lia. Qed.

Lemma getUint16_put x rest :
  0 ≤ x < 65536 → getUint16 (putUint16 x ++ rest) = Ok x.
Proof.
  intros. unfold getUint16, putUint16, u8; simpl. f_equal.
  assert (x / 256 < 256) by (apply Z.div_lt_upper_bound; lia).
  assert (0 ≤ x / 256) by (apply Z.div_pos; lia).
  rewrite (Z.mod_small (x / 256)) by lia. rewrite <- div_digit; lia.
Qed.

Lemma getUint32_put x rest :
  0 ≤ x < 4294967296 → getUint32 (putUint32 x ++ rest) = Ok x.
Proof.
  intros. unfold getUint32, putUint32, u8; simpl. f_equal.
  replace (x / 16777216) with (x / 256 / 256 / 256)
    by (rewrite !Z.div_div by lia; done).
  replace (x / 65536) with (x / 256 / 256)
    by (rewrite !Z.div_div by lia; done).
  assert (x / 256 / 256 / 256 < 256)
    by (rewrite !Z.div_div by lia; apply Z.div_lt_upper_bound; lia).
  assert (0 ≤ x / 256 / 256 / 256)
    by (rewrite !Z.div_div by lia; apply Z.div_pos; lia).
  rewrite (Z.mod_small (x / 256 / 256 / 256)) by lia.
  pose proof (Z.div_mod x 256 ltac:(lia)).
  pose proof (Z.div_mod (x / 256) 256 ltac:(lia)).
  pose proof (Z.div_mod (x / 256 / 256) 256 ltac:(lia)). lia.
Qed.

Lemma length_putUint16 x : length (putUint16 x) = 2%nat.
Proof. done. Qed.

Lemma length_putUint32 x : length (putUint32 x) = 4%nat.
Proof. done. Qed.
