(* ===== verification/Messages.v ===== *)
(** * GBN wire messages ([gbn/messages.go])

    The six packet types, their serialisation and [Deserialize]. *)

From stdpp Require Import base numbers list strings tactics.
From S2P Require Import Prelude.

Definition SYN : byte := 1.
Definition DATA : byte := 2.
Definition ACK : byte := 3.
Definition NACK : byte := 4.
Definition FIN : byte := 5.
Definition SYNACK : byte := 6.
Definition FALSE : byte := 0.
Definition TRUE : byte := 1.

Record PacketData := mkPacketData {
  Seq : Z;
  FinalChunk : bool;
  IsPing : bool;
  Payload : bytes
}.

(** [packet.Seq = seq]. *)
Definition setSeq (seq : Z) (p : PacketData) : PacketData :=
  mkPacketData seq (FinalChunk p) (IsPing p) (Payload p).

(** The implementations of the [Message] interface. *)
Inductive Message :=
| MData (m : PacketData)
| MACK (seq : Z)
| MSYN (n : Z)
| MNACK (seq : Z)
| MFIN
| MSYNACK.

#[global] Instance PacketData_eq_dec : EqDecision PacketData.
Proof. solve_decision. Defined.

#[global] Instance Message_eq_dec : EqDecision Message.
Proof. solve_decision. Defined.

(** A packet field of type [uint8] holds a byte. *)
Definition wf_message (m : Message) : bool :=
  let u8b x := (0 <=? x) && (x <? 256) in
  match m with
  | MData p => u8b (Seq p) && forallb u8b (Payload p)
  | MACK s | MNACK s | MSYN s => u8b s
  | MFIN | MSYNACK => true
  end.

Definition boolByte (b : bool) : byte := if b then TRUE else FALSE.

Definition SerializeData (m : PacketData) : bytes :=
  [DATA] ++ [Seq m] ++ [boolByte (FinalChunk m)] ++ [boolByte (IsPing m)]
    ++ Payload m.

Definition SerializeACK (seq : Z) : bytes := [ACK] ++ [seq].

Definition SerializeSYN (n : Z) : bytes := [SYN] ++ [n].

Definition SerializeNACK (seq : Z) : bytes := [NACK] ++ [seq].

Definition SerializeFIN : bytes := [FIN].

Definition SerializeSYNACK : bytes := [SYNACK].

(** [Message.Serialize]: writes to a [bytes.Buffer] never fail. *)
Definition Serialize (m : Message) : bytes :=
  match m with
  | MData p => SerializeData p
  | MACK s => SerializeACK s
  | MSYN n => SerializeSYN n
  | MNACK s => SerializeNACK s
  | MFIN => SerializeFIN
  | MSYNACK => SerializeSYNACK
  end.

Definition Deserialize (b : bytes) : result Message :=
  if len b <? 1 then Err EOF else
  b0 ← index b 0;
  if b0 =? DATA then
    if len b <? 4 then Err EOF else
    b1 ← index b 1; b2 ← index b 2; b3 ← index b 3;
    payload ← slice b 4 (len b);
    Ok (MData (mkPacketData b1 (b2 =? TRUE) (b3 =? TRUE) payload))
  else if b0 =? ACK then
    if len b <? 2 then Err EOF else b1 ← index b 1; Ok (MACK b1)
  else if b0 =? NACK then
    if len b <? 2 then Err EOF else b1 ← index b 1; Ok (MNACK b1)
  else if b0 =? SYN then
    if len b <? 2 then Err EOF else b1 ← index b 1; Ok (MSYN b1)
  else if b0 =? FIN then
    if len b <? 1 then Err EOF else Ok MFIN
  else if b0 =? SYNACK then
    if len b <? 1 then Err EOF else Ok MSYNACK
  else Err EOF.

(** ** Properties *)

Lemma len_cons {A} (x : A) l : len (x :: l) = 1 + len l.
Proof. unfold len. simpl. lia. Qed.

Lemma boolByte_TRUE b : (boolByte b =? TRUE) = b.
Proof. by destruct b. Qed.

Lemma ltb_ge a b : b ≤ a → (a <? b) = false.
Proof. intros. by apply Z.ltb_ge. Qed.

Lemma Deserialize_data seq fin ping payload :
  Deserialize (DATA :: seq :: fin :: ping :: payload) =
  Ok (MData (mkPacketData seq (fin =? TRUE) (ping =? TRUE) payload)).
Proof.
  unfold Deserialize. rewrite !len_cons.
  pose proof (len_nonneg payload). rewrite !ltb_ge by lia.
  rewrite slice_ok by (rewrite ?len_cons; lia).
  change (drop (Z.to_nat 4) _) with payload.
  rewrite take_ge by (unfold len; lia). done.
Qed.

(** The generic round trip, used by the protocol files. *)
Lemma Deserialize_Serialize m : Deserialize (Serialize m) = Ok m.
Proof.
  destruct m as [p| | | | |]; try done.
  unfold Serialize, SerializeData. simpl. rewrite Deserialize_data.
  rewrite !boolByte_TRUE. by destruct p.
Qed.

Lemma Deserialize_cases b :
  (∃ m, Deserialize b = Ok m) ∨ Deserialize b = Err EOF.
Proof.
  destruct b as [|b0 [|b1 [|b2 [|b3 rest]]]].
  5: {
    destruct (Z.eqb_spec b0 DATA) as [->|Hne].
    { left. eexists. apply Deserialize_data. }
    unfold Deserialize. rewrite !len_cons. pose proof (len_nonneg rest).
    rewrite !ltb_ge by lia. simpl. apply Z.eqb_neq in Hne. rewrite Hne.
    repeat case_if; eauto. }
  all: unfold Deserialize; simpl; repeat case_if; eauto.
Qed.

Lemma Serialize_nonempty m : Serialize m ≠ [].
Proof. by destruct m. Qed.

(** C27: every message survives serialisation and deserialisation, so the
    encoding is injective, and [Deserialize] on arbitrary bytes returns a
    message or [io.EOF] and never panics. *)
Theorem message_codec :
  (∀ m, Deserialize (Serialize m) = Ok m)
  ∧ (∀ m m', Serialize m = Serialize m' → m = m')
  ∧ (∀ b, (∃ m, Deserialize b = Ok m) ∨ Deserialize b = Err EOF).
Proof.
  split; [|split].
  - apply Deserialize_Serialize.
  - intros m m' Heq. apply (f_equal Deserialize) in Heq.
    rewrite !Deserialize_Serialize in Heq. congruence.
  - apply Deserialize_cases.
Qed.
