(* ===== verification/Syncer.v ===== *)
(** * The resend synchroniser ([gbn/syncer.go])

    The [syncer] is shared by the goroutine that resends the queue (and then
    blocks in [waitForSync]), the goroutine that processes ACKs and NACKs, and
    the [proceedAfterTime] goroutines started by [processACK].  The mutex makes
    each method body atomic; what is left of the concurrency is who is blocked
    in a [select] that receives from the unbuffered [cancel] channel, so the
    record carries the program counter of [waitForSync] and counts the
    [proceedAfterTime] goroutines at each of theirs. *)

From stdpp Require Import base numbers list tactics relations.
From S2P Require Import Prelude.

(** [awaitingTimeoutMultiplier]. *)
Definition awaitingTimeoutMultiplier : Z := 3.

Inductive syncState := syncStateIdle | syncStateResending.

#[global] Instance syncState_eq_dec : EqDecision syncState.
Proof. solve_decision. Defined.

(** Where the goroutine that calls [waitForSync] stands: not in the call,
    blocked in its [select], or past it and about to call [reset]. *)
Inductive waitPC := WOut | WSelect | WReset.

#[global] Instance waitPC_eq_dec : EqDecision waitPC.
Proof. solve_decision. Defined.

Record syncer := mkSyncer {
  sy_s : Z;
  sy_state : syncState;
  expectedACK : Z;
  expectedNACK : Z;
  sy_waiter : waitPC;
  (** [proceedAfterTime] goroutines: started, blocked in the [select], and
      past a receive from [cancel] and about to call [reset]. *)
  p_spawned : nat;
  p_select : nat;
  p_reset : nat
}.

Definition newSyncer (s : Z) : syncer :=
  mkSyncer s syncStateIdle 0 0 WOut 0 0 0.

Definition set_state st c := mkSyncer (sy_s c) st (expectedACK c)
  (expectedNACK c) (sy_waiter c) (p_spawned c) (p_select c) (p_reset c).
Definition set_expected a n c := mkSyncer (sy_s c) (sy_state c) a n
  (sy_waiter c) (p_spawned c) (p_select c) (p_reset c).
Definition set_waiter w c := mkSyncer (sy_s c) (sy_state c) (expectedACK c)
  (expectedNACK c) w (p_spawned c) (p_select c) (p_reset c).
Definition set_procs a b d c := mkSyncer (sy_s c) (sy_state c) (expectedACK c)
  (expectedNACK c) (sy_waiter c) a b d.

(** The non-blocking send [select { case c.cancel <- struct{}{}: default: }]:
    it hands the value to one of the goroutines blocked in a receive on
    [cancel], and does nothing when there is none.  Which goroutine receives is
    the runtime's choice; [pick = true] prefers [waitForSync]. *)
Definition trySendCancel (pick : bool) (c : syncer) : syncer :=
  let toWaiter := set_waiter WReset c in
  let toProc := set_procs (p_spawned c) (pred (p_select c))
                  (S (p_reset c)) c in
  match sy_waiter c, p_select c with
  | WSelect, O => toWaiter
  | WSelect, S _ => if pick then toWaiter else toProc
  | _, S _ => toProc
  | _, O => c
  end.

Definition resetUnsafe (pick : bool) (c : syncer) : syncer :=
  trySendCancel pick (set_state syncStateIdle c).

Definition reset (pick : bool) (c : syncer) : syncer := resetUnsafe pick c.

(** The non-blocking receive that is meant to drain [cancel]: every send on
    [cancel] is itself non-blocking, so no sender is ever waiting and the
    receive takes its [default] branch. *)
Definition drainCancel (c : syncer) : syncer := c.

Definition initResendUpTo (top : Z) (c : syncer) : result syncer :=
  let c := drainCancel (set_state syncStateResending c) in
  ack ← umod (u8 (u8 (sy_s c + top) - 1)) (sy_s c);
  Ok (set_expected ack top c).

Definition getState (c : syncer) : syncState := sy_state c.

(** [waitForSync], cut at its [select]: entering it, and the three ways out. *)
Definition waitForSync_enter (c : syncer) : syncer := set_waiter WSelect c.
Definition waitForSync_quit (c : syncer) : syncer := set_waiter WOut c.
Definition waitForSync_timeout (c : syncer) : syncer := set_waiter WReset c.
(** After [cancel] or the timeout: [c.reset()] and return. *)
Definition waitForSync_reset (pick : bool) (c : syncer) : syncer :=
  reset pick (set_waiter WOut c).

Definition processACK (seq : Z) (c : syncer) : syncer :=
  if bool_decide (sy_state c ≠ syncStateResending) then c
  else if negb (seq =? expectedACK c) then c
  else (* go c.proceedAfterTime() *)
    set_procs (S (p_spawned c)) (p_select c) (p_reset c) c.

Definition processNACK (pick : bool) (seq : Z) (c : syncer) : syncer :=
  if bool_decide (sy_state c ≠ syncStateResending) then c
  else if negb (seq =? expectedNACK c) then c
  else resetUnsafe pick c.

(** [proceedAfterTime], cut at its [select]. *)
Definition proceed_enter (c : syncer) : syncer :=
  set_procs (pred (p_spawned c)) (S (p_select c)) (p_reset c) c.
Definition proceed_quit (c : syncer) : syncer :=
  set_procs (p_spawned c) (pred (p_select c)) (p_reset c) c.
(** After a receive from [cancel]: [c.reset()] and return. *)
Definition proceed_reset (pick : bool) (c : syncer) : syncer :=
  reset pick (set_procs (p_spawned c) (p_select c) (pred (p_reset c)) c).
(** After the resend timeout. *)
Definition proceed_timeout (pick : bool) (c : syncer) : syncer :=
  let c := set_procs (p_spawned c) (pred (p_select c)) (p_reset c) c in
  if bool_decide (sy_state c ≠ syncStateResending) then c
  else resetUnsafe pick c.

(** The steps of the goroutines that use one syncer, the entry of [waitForSync]
    and [initResendUpTo] excepted: those belong to the resending goroutine. *)
Inductive syncer_step : syncer → syncer → Prop :=
| st_ack c seq : syncer_step c (processACK seq c)
| st_nack c pick seq : syncer_step c (processNACK pick seq c)
| st_wait_timeout c :
    sy_waiter c = WSelect → syncer_step c (waitForSync_timeout c)
| st_wait_quit c :
    sy_waiter c = WSelect → syncer_step c (waitForSync_quit c)
| st_wait_reset c pick :
    sy_waiter c = WReset → syncer_step c (waitForSync_reset pick c)
| st_proc_enter c :
    (0 < p_spawned c)%nat → syncer_step c (proceed_enter c)
| st_proc_quit c :
    (0 < p_select c)%nat → syncer_step c (proceed_quit c)
| st_proc_reset c pick :
    (0 < p_reset c)%nat → syncer_step c (proceed_reset pick c)
| st_proc_timeout c pick :
    (0 < p_select c)%nat → syncer_step c (proceed_timeout pick c).

(** ** Lemmas *)

(** A wake-up is on its way to [waitForSync]: it is not blocked, or a
    [proceedAfterTime] goroutine has consumed the cancel value and will send
    it again. *)
Definition wakeup_pending (c : syncer) : Prop :=
  sy_waiter c ≠ WSelect ∨ (0 < p_reset c)%nat.

Ltac syncer_cases :=
  unfold processACK, processNACK, waitForSync_reset, proceed_enter,
    proceed_quit, proceed_reset, proceed_timeout, waitForSync_timeout,
    waitForSync_quit, reset, resetUnsafe, trySendCancel, wakeup_pending in *;
  simpl in *.

Lemma trySendCancel_wakes pick c : wakeup_pending (trySendCancel pick c).
Proof.
  unfold wakeup_pending, trySendCancel.
  destruct (sy_waiter c) eqn:?, (p_select c), pick; simpl; rewrite ?Heqw;
    auto with lia.
Qed.

Lemma wakeup_pending_step c c' :
  syncer_step c c' → wakeup_pending c → wakeup_pending c'.
Proof.
  intros Hstep Hw. destruct Hstep; try apply trySendCancel_wakes.
  - unfold processACK. by repeat case_match.
  - unfold processNACK. repeat case_match; try done.
    apply trySendCancel_wakes.
  - by left.
  - by left.
  - done.
  - unfold wakeup_pending in *. simpl. done.
  - unfold proceed_timeout. case_match; [done|]. apply trySendCancel_wakes.
Qed.

(** How often a consumed cancel value can still be passed on. *)
Definition passes (c : syncer) : nat :=
  (p_select c + p_reset c + match sy_waiter c with WOut => 0 | _ => 1 end)%nat.

Lemma trySendCancel_passes pick c : passes (trySendCancel pick c) = passes c.
Proof.
  unfold passes, trySendCancel.
  destruct (sy_waiter c) eqn:?, (p_select c) eqn:?, pick; simpl;
    rewrite ?Heqw, ?Heqn; lia.
Qed.

Lemma proceed_reset_passes pick c :
  (0 < p_reset c)%nat → passes (proceed_reset pick c) = pred (passes c).
Proof.
  intros Hp. unfold proceed_reset, reset, resetUnsafe.
  rewrite trySendCancel_passes. unfold passes. simpl. lia.
Qed.

Lemma initResendUpTo_expected s top c :
  sy_s c = s → 0 < s ≤ 255 → 0 ≤ top < s → s + top ≤ 256 →
  initResendUpTo top c =
  Ok (set_expected ((top - 1) mod s) top (set_state syncStateResending c)).
Proof.
  intros Hs Hpos Htop Hsum. unfold initResendUpTo, drainCancel.
  change (sy_s (set_state _ c)) with (sy_s c). rewrite Hs, umod_pos by lia.
  simpl. f_equal. f_equal. unfold u8.
  rewrite Zminus_mod_idemp_l, (Z.mod_small _ 256) by lia.
  rewrite <- (Z_mod_plus_full (top - 1) 1 s). f_equal. lia.
Qed.

Lemma initResendUpTo_not_panic top c :
  0 < sy_s c →
  ∃ a, initResendUpTo top c =
       Ok (set_expected a top (set_state syncStateResending c)).
Proof.
  intros Hs. unfold initResendUpTo, drainCancel. simpl.
  rewrite umod_pos by lia. simpl. eauto.
Qed.

(** ** Properties *)

(** A state in which [waitForSync] is blocked after a resend. *)
Definition waiting_syncer : syncer :=
  mkSyncer 21 syncStateResending 4 5 WSelect 0 1 0.

(** C35: when the expected NACK arrives while [waitForSync] is blocked, it is
    always woken: in every state reached afterwards (whichever goroutine the
    cancel value was handed to, and whatever else happens), [waitForSync] has
    left its [select] or a [proceedAfterTime] goroutine is about to pass the
    value on, and each such pass consumes one of finitely many listeners. *)
Theorem expected_nack_wakes_waiter pick c c' :
  sy_state c = syncStateResending →
  rtc syncer_step (processNACK pick (expectedNACK c) c) c' →
  sy_state (processNACK pick (expectedNACK c) c) = syncStateIdle
  ∧ (p_reset c' = 0%nat → sy_waiter c' ≠ WSelect)
  ∧ (∀ p, (0 < p_reset c')%nat →
       (passes (proceed_reset p c') < passes c')%nat).
Proof.
  intros Hst Hrun.
  assert (Hn : processNACK pick (expectedNACK c) c = resetUnsafe pick c).
  { unfold processNACK. rewrite bool_decide_false by (intros Hx; by apply Hx).
    by rewrite Z.eqb_refl. }
  assert (Hw : wakeup_pending c').
  { assert (Hw0 : wakeup_pending (processNACK pick (expectedNACK c) c))
      by (rewrite Hn; apply trySendCancel_wakes).
    clear Hn. induction Hrun as [|x y z Hxy _ IH]; [done|].
    by apply IH, (wakeup_pending_step x). }
  split; [|split].
  - rewrite Hn. unfold resetUnsafe, trySendCancel. by repeat case_match.
  - intros H0. destruct Hw as [?|?]; [done|lia].
  - intros p Hp. rewrite (proceed_reset_passes p c' Hp).
    unfold passes. lia.
Qed.

Lemma expected_nack_wakes_waiter_witness :
  sy_state (processNACK false 5 waiting_syncer) = syncStateIdle
  ∧ (p_reset (proceed_reset true (processNACK false 5 waiting_syncer)) = 0%nat
     → sy_waiter (proceed_reset true (processNACK false 5 waiting_syncer))
       ≠ WSelect).
Proof.
  destruct (expected_nack_wakes_waiter false waiting_syncer
    (proceed_reset true (processNACK false 5 waiting_syncer)))
    as (H1 & H2 & _).
  - reflexivity.
  - apply rtc_once. apply st_proc_reset. vm_compute. lia.
  - split; [exact H1|exact H2].
Defined.

(** The syncer is idle and a goroutine is blocked in [waitForSync]. *)
Definition stranded (c : syncer) : Prop :=
  sy_state c = syncStateIdle ∧ sy_waiter c = WSelect
  ∧ p_select c = 0%nat ∧ p_spawned c = 0%nat ∧ p_reset c = 0%nat.

(** A NACK that arrives after [initResendUpTo] but before [waitForSync]
    blocks is lost: the cancel value has no receiver, the state goes back to
    idle, and from then on no ACK and no NACK has any effect on the blocked
    [waitForSync]; only its own timeout (three resend timeouts) or quitting
    ends the wait. *)
Theorem early_nack_is_lost pick s top c :
  0 < s → p_select c = 0%nat → p_spawned c = 0%nat → p_reset c = 0%nat →
  sy_s c = s → sy_waiter c = WOut →
  ∃ c1, initResendUpTo top c = Ok c1
  ∧ let c2 := waitForSync_enter (processNACK pick top c1) in
    stranded c2
    ∧ (∀ seq, processACK seq c2 = c2)
    ∧ (∀ pick' seq, processNACK pick' seq c2 = c2)
    ∧ (∀ c3, syncer_step c2 c3 →
         c3 = c2 ∨ c3 = waitForSync_timeout c2 ∨ c3 = waitForSync_quit c2).
Proof.
  intros Hs Hp1 Hp2 Hp3 Hsc Hw.
  destruct (initResendUpTo_not_panic top c) as [a Ha]; [lia|].
  exists (set_expected a top (set_state syncStateResending c)).
  split; [done|]. cbv zeta. set (c1 := set_expected _ _ _).
  assert (Hn : processNACK pick top c1 = set_state syncStateIdle c1).
  { unfold processNACK. rewrite bool_decide_false by (intros Hx; by apply Hx).
    unfold c1 at 1. simpl. rewrite Z.eqb_refl. simpl.
    unfold resetUnsafe, trySendCancel. simpl. by rewrite Hw, Hp1. }
  rewrite Hn. set (c2 := waitForSync_enter _).
  assert (Hack : ∀ seq, processACK seq c2 = c2) by done.
  assert (Hnack : ∀ p seq, processNACK p seq c2 = c2) by done.
  split; [done|]. split; [done|]. split; [done|].
  intros c3 Hstep. inv Hstep; auto; simpl in *; lia || done.
Qed.

Lemma early_nack_is_lost_witness :
  ∃ c1, initResendUpTo 5 (newSyncer 21) = Ok c1
  ∧ stranded (waitForSync_enter (processNACK true 5 c1)).
Proof.
  destruct (early_nack_is_lost true 21 5 (newSyncer 21)) as (c1 & H1 & H2 & _).
  all: try reflexivity.
  exists c1. split; [exact H1|exact H2].
Defined.

(** [expectedACK] is the sequence number of the last packet of the resent
    window for every ring of at most 128 slots; from 129 slots on the 8-bit sum
    [s + top - 1] overflows for the highest values of [top] and the expected
    ACK is the number of another packet. *)
Theorem expectedACK_correct s top c :
  sy_s c = s → 0 < s ≤ 255 → 0 ≤ top < s →
  ∃ c', initResendUpTo top c = Ok c'
  ∧ expectedNACK c' = top
  ∧ (s ≤ 128 → expectedACK c' = (top - 1) mod s)
  ∧ (256 < s + top → expectedACK c' = top - 1 + s - 256
     ∧ expectedACK c' ≠ (top - 1) mod s).
Proof.
  intros Hs Hrange Htop.
  destruct (initResendUpTo_not_panic top c) as [a Ha]; [lia|].
  rewrite Ha. eexists. split; [done|]. split; [done|]. simpl. split.
  - intros H128. rewrite (initResendUpTo_expected s top c) in Ha by lia.
    injection Ha as Heq. by rewrite Heq.
  - intros Hbig. unfold initResendUpTo, drainCancel in Ha. simpl in Ha.
    rewrite Hs, umod_pos in Ha by lia. simpl in Ha.
    assert (a = (u8 (u8 (s + top) - 1)) mod s) as ->.
    { injection Ha as Heq. by rewrite Heq. }
    unfold u8. rewrite <- (Z_mod_plus_full (s + top) (-1) 256).
    rewrite (Z.mod_small (s + top + -1 * 256)) by lia.
    rewrite (Z.mod_small _ 256) by lia.
    rewrite (Z.mod_small (s + top + -1 * 256 - 1)) by lia.
    rewrite (Z.mod_small (top - 1)) by lia. lia.
Qed.

Lemma expectedACK_correct_witness :
  (∃ c', initResendUpTo 5 (newSyncer 21) = Ok c' ∧ expectedACK c' = 4)
  ∧ (∃ c', initResendUpTo 199 (newSyncer 200) = Ok c' ∧ expectedACK c' = 142).
Proof.
  destruct (expectedACK_correct 21 5 (newSyncer 21)) as (c1 & H1 & _ & H2 & _);
    [reflexivity|lia|lia|].
  destruct (expectedACK_correct 200 199 (newSyncer 200))
    as (c2 & H3 & _ & _ & H4); [reflexivity|lia|lia|].
  split; [exists c1|exists c2]; split; try assumption.
  - apply H2. lia.
  - apply H4. lia.
Defined.
