(* ===== verification/Queue.v ===== *)
(** * The send queue ([gbn/queue.go])

    A window of unacknowledged packets in a ring of [s] slots, with sequence
    numbers modulo [s] kept at the width of the source ([uint8]). *)

From stdpp Require Import base numbers list tactics.
From S2P Require Import Prelude Messages Syncer.

Record queue := mkQueue {
  q_s : Z;
  content : list (option PacketData);
  sequenceBase : Z;
  sequenceTop : Z;
  q_syncer : syncer;
  lastResend : Time;
  q_quit : bool
}.

Definition set_base b q := mkQueue (q_s q) (content q) b (sequenceTop q)
  (q_syncer q) (lastResend q) (q_quit q).
Definition set_top t q := mkQueue (q_s q) (content q) (sequenceBase q) t
  (q_syncer q) (lastResend q) (q_quit q).
Definition set_content l q := mkQueue (q_s q) l (sequenceBase q)
  (sequenceTop q) (q_syncer q) (lastResend q) (q_quit q).
Definition set_syncer c q := mkQueue (q_s q) (content q) (sequenceBase q)
  (sequenceTop q) c (lastResend q) (q_quit q).
Definition set_lastResend t q := mkQueue (q_s q) (content q) (sequenceBase q)
  (sequenceTop q) (q_syncer q) t (q_quit q).

Definition newQueue (s : Z) : queue :=
  mkQueue s (replicate (Z.to_nat s) None) 0 0 (newSyncer s) 0 false.

(** [close(q.quit)]. *)
Definition stop (q : queue) : result queue :=
  if q_quit q then Panic CloseOfClosedChannel
  else Ok (mkQueue (q_s q) (content q) (sequenceBase q) (sequenceTop q)
             (q_syncer q) (lastResend q) true).

Definition size (q : queue) : Z :=
  if sequenceBase q <=? sequenceTop q
  then u8 (sequenceTop q - sequenceBase q)
  else u8 (sequenceTop q + u8 (q_s q - sequenceBase q)).

(** The packet is mutated ([packet.Seq = q.sequenceTop]) and shared with the
    caller, so the updated packet is returned with the queue. *)
Definition addPacket (packet : PacketData) (q : queue) :
    result (PacketData * queue) :=
  let packet := setSeq (sequenceTop q) packet in
  c ← setIndex (content q) (sequenceTop q) (Some packet);
  t ← umod (u8 (sequenceTop q + 1)) (q_s q);
  Ok (packet, set_top t (set_content c q)).

Definition containsSequence (base top seq : Z) : bool :=
  if base =? top then false
  else if base <? top then
    if (base <=? seq) && (seq <? top) then true else false
  else if (seq <? top) || (base <=? seq) then true
  else false.

Definition processACK (seq : Z) (q : queue) : result (bool * queue) :=
  if size q =? 0 then Ok (false, q) else
  let q := set_syncer (Syncer.processACK seq (q_syncer q)) q in
  if seq =? sequenceBase q then
    b ← umod (u8 (sequenceBase q + 1)) (q_s q);
    Ok (true, set_base b q)
  else if containsSequence (sequenceBase q) (sequenceTop q) seq then
    b ← umod (u8 (seq + 1)) (q_s q);
    Ok (true, set_base b q)
  else Ok (false, q).

(** Returns [(shouldResend, bumped)]. *)
Definition processNACK (pick : bool) (seq : Z) (q : queue) :
    (bool * bool) * queue :=
  let q := set_syncer (Syncer.processNACK pick seq (q_syncer q)) q in
  if seq =? sequenceTop q then
    ((false, true), set_base (sequenceTop q) q)
  else if negb (containsSequence (sequenceBase q) (sequenceTop q) seq) then
    ((false, false), q)
  else
    let bumped := negb (sequenceBase q =? seq) in
    ((true, bumped), set_base seq q).

(** [resend] up to its send loop: the two early returns, the snapshot of the
    window and [initResendUpTo].  [now1] and [now2] are the two clock
    readings. *)
Definition resendBegin (handshakeTimeout : Duration) (now1 now2 : Time)
    (q : queue) : result (option (Z * Z) * queue) :=
  if timeSub now1 (lastResend q) <? handshakeTimeout then Ok (None, q)
  else if size q =? 0 then Ok (None, q)
  else
    let q := set_lastResend now2 q in
    let base := sequenceBase q in
    let top := sequenceTop q in
    if base =? top then Ok (None, q)
    else
      c ← initResendUpTo top (q_syncer q);
      Ok (Some (base, top), set_syncer c q).

(** One iteration of the send loop: the packet in the slot and the next value
    of [base].  A nil slot makes [sendPkt] dereference a nil pointer. *)
Definition resendNext (base : Z) (q : queue) : result (PacketData * Z) :=
  slot ← index (content q) base;
  match slot with
  | None => Panic NilDereference
  | Some packet => b ← umod (u8 (base + 1)) (q_s q); Ok (packet, b)
  end.

(** The send loop over a [sendPkt] that acts on a state [W]; [None] when the
    fuel runs out. *)
Fixpoint resendLoop {W} (sendPkt : PacketData → M W unit) (fuel : nat)
    (base top : Z) (q : queue) (w : W) : option (result unit * W) :=
  if base =? top then Some (Ok tt, w)
  else match fuel with
  | O => None
  | S fuel =>
      match resendNext base q with
      | Ok (packet, base') =>
          match sendPkt packet w with
          | (Ok _, w') => resendLoop sendPkt fuel base' top q w'
          | (r, w') => Some (r, w')
          end
      | Err e => Some (Err e, w)
      | Panic p => Some (Panic p, w)
      end
  end.

(** The whole of [resend], up to the [waitForSync] it ends with. *)
Definition resend {W} (sendPkt : PacketData → M W unit) (fuel : nat)
    (handshakeTimeout : Duration) (now1 now2 : Time) (q : queue) (w : W) :
    option (result unit * queue * W) :=
  match resendBegin handshakeTimeout now1 now2 q with
  | Ok (None, q') => Some (Ok tt, q', w)
  | Ok (Some (base, top), q') =>
      match resendLoop sendPkt fuel base top q' w with
      | Some (Ok _, w') =>
          Some (Ok tt, set_syncer (waitForSync_enter (q_syncer q')) q', w')
      | Some (r, w') => Some (r, q', w')
      | None => None
      end
  | Err e => Some (Err e, q, w)
  | Panic p => Some (Panic p, q, w)
  end.

(** ** The abstract queue

    [hist] is every packet ever added, in order, and [B] the number of packets
    at its front that are known to be received.  The window is
    [drop B hist]. *)
Record queue_rep (q : queue) (hist : list PacketData) (B : nat) : Prop := {
  qr_s : 1 < q_s q ≤ 255;
  qr_sync : sy_s (q_syncer q) = q_s q;
  qr_len : length (content q) = Z.to_nat (q_s q);
  qr_lo : (B ≤ length hist)%nat;
  qr_win : Z.of_nat (length hist) - Z.of_nat B ≤ q_s q - 1;
  qr_base : sequenceBase q = Z.of_nat B mod q_s q;
  qr_top : sequenceTop q = Z.of_nat (length hist) mod q_s q;
  qr_seq : ∀ j p, hist !! j = Some p → Seq p = Z.of_nat j mod q_s q;
  qr_content : ∀ j p, hist !! j = Some p →
    Z.of_nat (length hist) ≤ Z.of_nat j + q_s q →
    content q !! Z.to_nat (Z.of_nat j mod q_s q) = Some (Some p)
}.

(** The packets [hist[a..]] of a window, by index. *)
Definition window (hist : list PacketData) (B : nat) : list PacketData :=
  drop B hist.

Section Rep.
Context (q : queue) (hist : list PacketData) (B : nat).
Context (R : queue_rep q hist B).

Abbreviation T := (length hist).
Abbreviation s := (q_s q).

Lemma rep_base_range : 0 ≤ sequenceBase q < s.
Proof using R. rewrite (qr_base _ _ _ R). apply Z.mod_pos_bound. destruct R; lia. Qed.

Lemma rep_top_range : 0 ≤ sequenceTop q < s.
Proof using R. rewrite (qr_top _ _ _ R). apply Z.mod_pos_bound. destruct R; lia. Qed.

(** Top and base are one window apart in the ring. *)
Lemma rep_top_offset :
  (sequenceBase q ≤ sequenceTop q
     ∧ sequenceTop q = sequenceBase q + (Z.of_nat T - Z.of_nat B))
  ∨ (sequenceTop q < sequenceBase q
     ∧ sequenceTop q + s = sequenceBase q + (Z.of_nat T - Z.of_nat B)).
Proof using R.
  pose proof rep_base_range as Hb. pose proof rep_top_range as Ht.
  destruct R as [Hs _ _ Hlo Hwin Hbase Htop _ _].
  pose proof (Z.div_mod (Z.of_nat B) s ltac:(lia)) as HB.
  pose proof (Z.div_mod (Z.of_nat T) s ltac:(lia)) as HT.
  rewrite <- Hbase in HB. rewrite <- Htop in HT.
  set (kb := Z.of_nat B / s) in *. set (kt := Z.of_nat T / s) in *.
  assert (kt = kb ∨ kt = kb + 1) as [->| ->] by nia; [left|right]; nia.
Qed.

Lemma size_rep : size q = Z.of_nat T - Z.of_nat B.
Proof using R.
  pose proof rep_base_range. pose proof rep_top_range.
  pose proof rep_top_offset. destruct R. unfold size, u8.
  destruct (Z.leb_spec (sequenceBase q) (sequenceTop q)).
  - rewrite Z.mod_small; lia.
  - rewrite (Z.mod_small (s - _)) by lia. rewrite Z.mod_small; lia.
Qed.

(** A sequence number below [s] is in the window exactly when its distance
    from the base is below the size. *)
Lemma containsSequence_rep seq :
  0 ≤ seq < s →
  containsSequence (sequenceBase q) (sequenceTop q) seq =
  bool_decide ((seq - sequenceBase q) mod s < Z.of_nat T - Z.of_nat B).
Proof using R.
  intros Hseq. pose proof rep_base_range. pose proof rep_top_range.
  pose proof rep_top_offset. destruct R. unfold containsSequence.
  assert (Hd : (seq - sequenceBase q) mod s =
    if sequenceBase q <=? seq then seq - sequenceBase q
    else seq - sequenceBase q + s).
  { destruct (Z.leb_spec (sequenceBase q) seq); [apply Z.mod_small; lia|].
    rewrite <- (Z_mod_plus_full _ 1 s). rewrite Z.mod_small; lia. }
  rewrite Hd.
  destruct (Z.leb_spec (sequenceBase q) seq);
    case_bool_decide; repeat case_if; zbool; try done; try lia.
Qed.

(** The window offset of the [i]-th packet. *)
Lemma window_offset i :
  (B ≤ i)%nat → Z.of_nat i - Z.of_nat B < s →
  (Z.of_nat i mod s - sequenceBase q) mod s = Z.of_nat i - Z.of_nat B.
Proof using R.
  intros. destruct R as [Hs _ _ _ _ Hb _ _ _].
  rewrite Hb, <- Zminus_mod. rewrite Z.mod_small; lia.
Qed.

(** The packet index a sequence number in the window stands for. *)
Lemma window_index seq :
  0 ≤ seq < s →
  Z.of_nat (B + Z.to_nat ((seq - sequenceBase q) mod s)) mod s = seq.
Proof using R.
  intros. destruct R as [Hs _ _ _ _ Hb _ _ _].
  pose proof (Z.mod_pos_bound (seq - sequenceBase q) s ltac:(lia)).
  rewrite Nat2Z.inj_add, Z2Nat.id by lia.
  rewrite <- Zplus_mod_idemp_l, <- Hb, Zplus_mod_idemp_r.
  rewrite Zplus_minus. apply Z.mod_small. lia.
Qed.

Lemma rep_set_base B' b :
  (B ≤ B' ≤ T)%nat → b = Z.of_nat B' mod s →
  queue_rep (set_base b q) hist B'.
Proof using R. intros ? ->. destruct R. constructor; simpl; auto; lia. Qed.

Lemma rep_set_syncer c :
  sy_s c = s → queue_rep (set_syncer c q) hist B.
Proof using R. intros. destruct R. constructor; simpl; auto. Qed.

Lemma rep_set_lastResend t : queue_rep (set_lastResend t q) hist B.
Proof using R. destruct R. constructor; simpl; auto. Qed.

End Rep.

Lemma syncer_processACK_s seq c : sy_s (Syncer.processACK seq c) = sy_s c.
Proof. unfold Syncer.processACK. by repeat case_match. Qed.

Lemma trySendCancel_s pick c : sy_s (trySendCancel pick c) = sy_s c.
Proof. unfold trySendCancel. by repeat case_match. Qed.

Lemma syncer_processNACK_s pick seq c :
  sy_s (Syncer.processNACK pick seq c) = sy_s c.
Proof.
  unfold Syncer.processNACK, resetUnsafe.
  repeat case_match; try done. by rewrite trySendCancel_s.
Qed.

Lemma newQueue_rep s : 1 < s ≤ 255 → queue_rep (newQueue s) [] 0.
Proof.
  intros Hs. constructor; simpl; try lia; try done.
  by rewrite length_replicate.
Qed.

(** [addPacket] with room in the window appends to the history. *)
Lemma addPacket_rep q hist B p :
  queue_rep q hist B →
  Z.of_nat (length hist) - Z.of_nat B < q_s q - 1 →
  ∃ q', addPacket p q = Ok (setSeq (sequenceTop q) p, q')
    ∧ queue_rep q' (hist ++ [setSeq (sequenceTop q) p]) B.
Proof.
  intros R Hroom. pose proof (rep_top_range _ _ _ R) as Ht.
  destruct R as [Hs Hsy Hlen Hlo Hwin Hbase Htop Hseq Hcont].
  unfold addPacket. rewrite setIndex_ok by (unfold len; lia). simpl.
  rewrite u8_small by (unfold is_u8; lia). rewrite umod_pos by lia. simpl.
  eexists; split; [done|]. constructor; simpl.
  - done.
  - done.
  - by rewrite length_insert.
  - rewrite length_app. simpl. lia.
  - rewrite length_app. simpl. lia.
  - done.
  - rewrite length_app, Htop, mod_succ by lia. f_equal. simpl. lia.
  - intros j p' [Hj|[Hj Hp]]%lookup_app_Some; [by apply Hseq|].
    apply list_lookup_singleton_Some in Hp as [Hj0 <-]. simpl.
    rewrite Htop. f_equal. lia.
  - intros j p' Hj Hnear. rewrite length_app in Hnear. simpl in Hnear.
    apply lookup_app_Some in Hj as [Hj|[Hj Hp]].
    + assert (j < length hist)%nat by (apply lookup_lt_Some in Hj; lia).
      rewrite list_lookup_insert_ne; [apply Hcont; [done|lia]|].
      rewrite Htop. intros Heq.
      assert (Z.of_nat (length hist) mod q_s q = Z.of_nat j mod q_s q)
        by (apply Z2Nat.inj; try apply Z.mod_pos_bound; lia).
      assert (Z.of_nat (length hist) = Z.of_nat j)
        by (eapply (mod_inj (q_s q)); lia). lia.
    + apply list_lookup_singleton_Some in Hp as [Hj0 <-].
      replace j with (length hist) by lia. rewrite <- Htop.
      apply list_lookup_insert_eq. lia.
Qed.

(** [processACK] on a sequence number below [s]. *)
Lemma processACK_rep q hist B seq :
  queue_rep q hist B → 0 ≤ seq < q_s q →
  let d := Z.to_nat ((seq - sequenceBase q) mod q_s q) in
  ∃ q', if bool_decide (d < length hist - B)%nat
    then processACK seq q = Ok (true, q') ∧ queue_rep q' hist (B + d + 1)
    else processACK seq q = Ok (false, q') ∧ queue_rep q' hist B.
Proof.
  intros R Hseq d. pose proof (size_rep _ _ _ R) as Hsz.
  pose proof (qr_lo _ _ _ R). pose proof (qr_s _ _ _ R).
  pose proof (Z.mod_pos_bound (seq - sequenceBase q) (q_s q) ltac:(lia)).
  unfold processACK. rewrite Hsz.
  destruct (Z.eqb_spec (Z.of_nat (length hist) - Z.of_nat B) 0).
  { exists q. rewrite bool_decide_false by lia. done. }
  assert (R1 : queue_rep
    (set_syncer (Syncer.processACK seq (q_syncer q)) q) hist B)
    by (apply rep_set_syncer; [done|];
        rewrite syncer_processACK_s; apply R).
  set (q1 := set_syncer _ q) in *.
  change (sequenceBase q1) with (sequenceBase q) in *.
  change (sequenceTop q1) with (sequenceTop q) in *.
  change (q_s q1) with (q_s q) in *.
  rewrite (containsSequence_rep _ _ _ R seq Hseq).
  pose proof (rep_base_range _ _ _ R).
  assert (Hb : Z.of_nat (B + d + 1) mod q_s q = (seq + 1) mod q_s q).
  { rewrite Nat2Z.inj_add, <- Zplus_mod_idemp_l.
    unfold d. rewrite (window_index _ _ _ R seq Hseq). done. }
  destruct (Z.eqb_spec seq (sequenceBase q)) as [->|Hne].
  - assert (d = 0%nat) by (unfold d; by rewrite Z.sub_diag).
    rewrite u8_small by (unfold is_u8; lia). rewrite umod_pos by lia. simpl.
    eexists. rewrite bool_decide_true by lia. split; [done|].
    apply rep_set_base with (B := B); [done|lia|done].
  - case_bool_decide as Hin.
    + rewrite u8_small by (unfold is_u8; lia). rewrite umod_pos by lia.
      simpl. eexists. rewrite bool_decide_true by lia. split; [done|].
      apply rep_set_base with (B := B); [done|lia|done].
    + eexists. rewrite bool_decide_false by lia. done.
Qed.

(** [processNACK] on a sequence number below [s]. *)
Lemma processNACK_rep pick q hist B seq :
  queue_rep q hist B → 0 ≤ seq < q_s q →
  let d := Z.to_nat ((seq - sequenceBase q) mod q_s q) in
  ∃ q',
    (d < length hist - B)%nat
      ∧ processNACK pick seq q = ((true, bool_decide (d ≠ 0%nat)), q')
      ∧ queue_rep q' hist (B + d)
    ∨ d = (length hist - B)%nat
      ∧ processNACK pick seq q = ((false, true), q')
      ∧ queue_rep q' hist (length hist)
    ∨ (length hist - B < d)%nat
      ∧ processNACK pick seq q = ((false, false), q')
      ∧ queue_rep q' hist B.
Proof.
  intros R Hseq d. pose proof (qr_lo _ _ _ R). pose proof (qr_s _ _ _ R).
  pose proof (Z.mod_pos_bound (seq - sequenceBase q) (q_s q) ltac:(lia)).
  unfold processNACK.
  assert (R1 : queue_rep
    (set_syncer (Syncer.processNACK pick seq (q_syncer q)) q) hist B)
    by (apply rep_set_syncer; [done|];
        rewrite syncer_processNACK_s; apply R).
  set (q1 := set_syncer _ q) in *.
  change (sequenceBase q1) with (sequenceBase q) in *.
  change (sequenceTop q1) with (sequenceTop q) in *.
  rewrite (containsSequence_rep _ _ _ R seq Hseq).
  pose proof (rep_base_range _ _ _ R). pose proof (rep_top_range _ _ _ R).
  pose proof (rep_top_offset _ _ _ R).
  assert (Hd : (seq - sequenceBase q) mod q_s q =
    if sequenceBase q <=? seq then seq - sequenceBase q
    else seq - sequenceBase q + q_s q).
  { destruct (Z.leb_spec (sequenceBase q) seq); [apply Z.mod_small; lia|].
    rewrite <- (Z_mod_plus_full _ 1 (q_s q)). rewrite Z.mod_small; lia. }
  destruct (Z.eqb_spec seq (sequenceTop q)) as [->|Hne].
  - eexists. right; left. split; [|split; [done|]].
    + pose proof (qr_win _ _ _ R). unfold d. rewrite Hd.
      destruct (Z.leb_spec (sequenceBase q) (sequenceTop q)); lia.
    + apply rep_set_base with (B := B); [done|lia|]. apply R.
  - case_bool_decide as Hin; simpl.
    + eexists. left. split; [lia|]. split.
      * f_equal. f_equal. destruct (Z.eqb_spec (sequenceBase q) seq) as [He|He].
        -- rewrite bool_decide_false; [done|]. unfold d.
           rewrite He, Z.sub_diag. intros Hx. by apply Hx.
        -- rewrite bool_decide_true; [done|]. unfold d. rewrite Hd.
           destruct (Z.leb_spec (sequenceBase q) seq); lia.
      * apply rep_set_base with (B := B); [done|lia|].
        change (q_s q1) with (q_s q). unfold d.
        by rewrite (window_index _ _ _ R seq Hseq).
    + eexists. right; right. split; [|done].
      assert (d ≠ length hist - B)%nat; [|lia]. intros Heq.
      apply Hne. unfold d in Heq. rewrite Hd in Heq.
      destruct (Z.leb_spec (sequenceBase q) seq); lia.
Qed.

(** One slot of the resend loop. *)
Lemma resendNext_rep q hist B i p :
  queue_rep q hist B → hist !! i = Some p →
  Z.of_nat (length hist) ≤ Z.of_nat i + q_s q →
  resendNext (Z.of_nat i mod q_s q) q =
  Ok (p, Z.of_nat (S i) mod q_s q).
Proof.
  intros R Hi Hnear. pose proof (qr_s _ _ _ R).
  pose proof (Z.mod_pos_bound (Z.of_nat i) (q_s q) ltac:(lia)).
  unfold resendNext.
  rewrite (index_lookup _ _ (Some p)); [|lia|by eapply qr_content].
  simpl. rewrite u8_small by (unfold is_u8; lia). rewrite umod_pos by lia.
  simpl. rewrite mod_succ by lia. do 3 f_equal. lia.
Qed.

(** Writing the packets of the loop to a log. *)
Definition logPkt (p : PacketData) : M (list PacketData) unit :=
  λ w, (Ok tt, w ++ [p]).

Lemma resendLoop_rep q hist B i fuel w :
  queue_rep q hist B → (i ≤ length hist)%nat →
  Z.of_nat (length hist) - Z.of_nat i ≤ q_s q - 1 →
  (length hist - i ≤ fuel)%nat →
  resendLoop logPkt fuel (Z.of_nat i mod q_s q) (sequenceTop q) q w =
  Some (Ok tt, w ++ drop i hist).
Proof.
  intros R. revert i w. induction fuel as [|fuel IH]; intros i w Hi Hw Hf.
  - assert (i = length hist) by lia. subst i.
    rewrite (qr_top _ _ _ R). simpl. rewrite Z.eqb_refl.
    by rewrite drop_all, app_nil_r.
  - pose proof (qr_s _ _ _ R). simpl. rewrite (qr_top _ _ _ R).
    destruct (Z.eqb_spec (Z.of_nat i mod q_s q)
                (Z.of_nat (length hist) mod q_s q)) as [He|He].
    + apply mod_inj in He; [|lia..]. apply Nat2Z.inj in He. subst i.
      by rewrite drop_all, app_nil_r.
    + assert (i < length hist)%nat as Hlt
        by (destruct (decide (i = length hist)); [congruence|lia]).
      destruct (lookup_lt_is_Some_2 hist i Hlt) as [p Hp].
      rewrite (resendNext_rep _ _ _ _ _ R Hp) by lia. simpl.
      rewrite <- (qr_top _ _ _ R). rewrite IH by lia.
      rewrite (drop_S _ _ _ Hp), <- app_assoc. done.
Qed.

(** [resend] on a queue that represents a history: nothing within the
    back-off or with an empty window, and the whole window otherwise. *)
Lemma resend_rep q h B hs now1 now2 :
  queue_rep q h B →
  if (timeSub now1 (lastResend q) <? hs) || bool_decide (B = length h)
  then resend logPkt 256 hs now1 now2 q [] = Some (Ok tt, q, [])
  else ∃ q', resend logPkt 256 hs now1 now2 q [] = Some (Ok tt, q', window h B)
    ∧ queue_rep q' h B ∧ q_s q' = q_s q ∧ lastResend q' = now2
    ∧ sy_waiter (q_syncer q') = WSelect
    ∧ sy_state (q_syncer q') = syncStateResending
    ∧ expectedNACK (q_syncer q') = Z.of_nat (length h) mod q_s q.
Proof.
  intros R. pose proof (qr_s _ _ _ R) as Hs.
  pose proof (qr_win _ _ _ R). pose proof (qr_lo _ _ _ R).
  unfold resend, resendBegin. rewrite (size_rep _ _ _ R).
  destruct (timeSub now1 (lastResend q) <? hs); [done|]. cbn [orb].
  case_bool_decide as HB.
  { by destruct (Z.eqb_spec (Z.of_nat (length h) - Z.of_nat B) 0); [|lia]. }
  destruct (Z.eqb_spec (Z.of_nat (length h) - Z.of_nat B) 0); [lia|].
  pose proof (rep_set_lastResend _ _ _ R now2) as R2.
  set (q2 := set_lastResend now2 q) in *.
  assert (Hne : sequenceBase q2 ≠ sequenceTop q2).
  { rewrite (qr_base _ _ _ R2), (qr_top _ _ _ R2). intros He.
    change (q_s q2) with (q_s q) in He. apply mod_inj in He; lia. }
  destruct (Z.eqb_spec (sequenceBase q2) (sequenceTop q2)); [done|].
  destruct (initResendUpTo_not_panic (sequenceTop q2) (q_syncer q2)) as [a Ha].
  { change (q_syncer q2) with (q_syncer q).
    rewrite (qr_sync _ _ _ R). lia. }
  rewrite Ha. simpl.
  set (c := set_expected _ _ _).
  assert (R3 : queue_rep (set_syncer c q2) h B)
    by (apply rep_set_syncer; [done|apply (qr_sync _ _ _ R)]).
  pose proof (resendLoop_rep _ _ _ B 256 [] R3 (qr_lo _ _ _ R)
    ltac:(simpl; lia) ltac:(lia)) as Hl.
  simpl in Hl. rewrite (qr_base _ _ _ R). rewrite Hl.
  eexists. split; [done|]. split_and!; try done.
  - apply rep_set_syncer; [|apply (qr_sync _ _ _ R)]. done.
  - simpl. apply (qr_top _ _ _ R).
Qed.

(** ** The queue against the abstract queue *)

Inductive qop :=
| QAdd (p : PacketData)
| QAck (seq : Z)
| QNack (pick : bool) (seq : Z)
| QResend (handshakeTimeout : Duration) (now1 now2 : Time).

Inductive qout := OAdd (p : PacketData) | OAck (valid : bool)
| ONack (shouldResend bumped : bool) | OResend (ps : list PacketData).

(** The operation on the queue; the sending goroutine adds a packet only when
    the size is below [n = s - 1], and [resend] writes its packets to a log. *)
Definition q_step (op : qop) (q : queue) : result (option qout * queue) :=
  match op with
  | QAdd p =>
      if size q <? q_s q - 1
      then r ← addPacket p q; Ok (Some (OAdd r.1), r.2)
      else Ok (None, q)
  | QAck seq => r ← processACK seq q; Ok (Some (OAck r.1), r.2)
  | QNack pick seq =>
      let r := processNACK pick seq q in
      Ok (Some (ONack r.1.1 r.1.2), r.2)
  | QResend hs now1 now2 =>
      match resend logPkt 256 hs now1 now2 q [] with
      | Some (Ok _, q', ps) => Ok (Some (OResend ps), q')
      | Some (Err e, _, _) => Err e
      | Some (Panic p, _, _) => Panic p
      | None => Ok (None, q)
      end
  end.

(** The abstract queue: the history, the number of packets at its front known
    to be received, and the time of the last resend. *)
Record aqueue := mkAQueue {
  a_hist : list PacketData;
  a_base : nat;
  a_last : Time
}.

Definition a_new : aqueue := mkAQueue [] 0 0.

Definition a_step (s : Z) (op : qop) (a : aqueue) : option qout * aqueue :=
  let h := a_hist a in
  let B := a_base a in
  let T := length h in
  let offset seq := Z.to_nat ((seq - Z.of_nat B) mod s) in
  match op with
  | QAdd p =>
      if Z.of_nat T - Z.of_nat B <? s - 1
      then let p' := setSeq (Z.of_nat T mod s) p in
           (Some (OAdd p'), mkAQueue (h ++ [p']) B (a_last a))
      else (None, a)
  | QAck seq =>
      if bool_decide (offset seq < T - B)%nat
      then (Some (OAck true), mkAQueue h (B + offset seq + 1)%nat (a_last a))
      else (Some (OAck false), a)
  | QNack _ seq =>
      if bool_decide (offset seq < T - B)%nat
      then (Some (ONack true (bool_decide (offset seq ≠ 0%nat))),
            mkAQueue h (B + offset seq)%nat (a_last a))
      else if bool_decide (offset seq = T - B)%nat
      then (Some (ONack false true), mkAQueue h T (a_last a))
      else (Some (ONack false false), a)
  | QResend hs now1 now2 =>
      if (timeSub now1 (a_last a) <? hs) || bool_decide (B = T)
      then (Some (OResend []), a)
      else (Some (OResend (window h B)), mkAQueue h B now2)
  end.

(** Sequence numbers received from a peer that uses the agreed [s]. *)
Definition qop_ok (s : Z) (op : qop) : Prop :=
  match op with
  | QAck seq | QNack _ seq => 0 ≤ seq < s
  | _ => True
  end.

Fixpoint q_run (ops : list qop) (q : queue) : result (list (option qout) * queue) :=
  match ops with
  | [] => Ok ([], q)
  | op :: ops =>
      r ← q_step op q;
      r' ← q_run ops r.2;
      Ok (r.1 :: r'.1, r'.2)
  end.

Fixpoint a_run (s : Z) (ops : list qop) (a : aqueue) :
    list (option qout) * aqueue :=
  match ops with
  | [] => ([], a)
  | op :: ops =>
      let '(o, a') := a_step s op a in
      let '(os, a'') := a_run s ops a' in
      (o :: os, a'')
  end.

(** The ring holds the abstract queue. *)
Definition implements (q : queue) (a : aqueue) : Prop :=
  queue_rep q (a_hist a) (a_base a) ∧ lastResend q = a_last a.

Lemma base_offset q h B seq :
  queue_rep q h B →
  (seq - sequenceBase q) mod q_s q = (seq - Z.of_nat B) mod q_s q.
Proof. intros R. rewrite (qr_base _ _ _ R), Zminus_mod_idemp_r. done. Qed.

(** What the operations other than [resend] leave alone. *)
Definition kept (q q' : queue) : Prop :=
  q_s q' = q_s q ∧ lastResend q' = lastResend q.

Lemma addPacket_kept p q r : addPacket p q = Ok r → kept q r.2.
Proof.
  unfold addPacket. destruct (setIndex _ _ _); try done. simpl.
  destruct (umod _ _); try done. simpl. intros Hr. by inv Hr.
Qed.

Lemma processACK_kept seq q r : processACK seq q = Ok r → kept q r.2.
Proof.
  unfold processACK. repeat case_match; try done; simpl;
    try (destruct (umod _ _); simpl; try done); intros Hr; by inv Hr.
Qed.

Lemma processNACK_kept pick seq q : kept q (processNACK pick seq q).2.
Proof. unfold processNACK. by repeat case_match. Qed.

Lemma q_step_refines op q a :
  implements q a → qop_ok (q_s q) op →
  ∃ q', q_step op q = Ok ((a_step (q_s q) op a).1, q')
    ∧ implements q' (a_step (q_s q) op a).2 ∧ q_s q' = q_s q.
Proof.
  destruct a as [h B last]. unfold implements. simpl.
  intros [R Hlast] Hok. pose proof (qr_lo _ _ _ R).
  destruct op as [p|seq|pick seq|hs now1 now2]; simpl in *.
  - rewrite (size_rep _ _ _ R). case_if.
    + destruct (addPacket_rep q h B p R) as (q' & Hadd & R'); [done|].
      exists q'. destruct (addPacket_kept _ _ _ Hadd) as [? ?].
      rewrite Hadd, <- (qr_top _ _ _ R). simpl in *. split_and!; congruence || done.
    + by exists q.
  - destruct (processACK_rep q h B seq R Hok) as [q' Hq'].
    rewrite (base_offset _ _ _ _ R) in Hq'. exists q'.
    case_bool_decide; destruct Hq' as [Hq' R'];
      destruct (processACK_kept _ _ _ Hq') as [? ?]; rewrite Hq'; simpl in *;
      split_and!; congruence || done.
  - destruct (processNACK_rep pick q h B seq R Hok) as [q' Hq'].
    pose proof (processNACK_kept pick seq q) as [Hs Hl].
    rewrite (base_offset _ _ _ _ R) in Hq'. exists q'.
    destruct Hq' as [(Hd & Hq' & R')|[(Hd & Hq' & R')|(Hd & Hq' & R')]];
      rewrite Hq' in *; simpl in *.
    + rewrite (bool_decide_true (_ < _)%nat) by lia. simpl.
      split_and!; congruence || done.
    + rewrite (bool_decide_false (_ < _)%nat) by lia.
      rewrite (bool_decide_true (_ = _ - _)%nat) by lia. simpl.
      split_and!; congruence || done.
    + rewrite (bool_decide_false (_ < _)%nat) by lia.
      rewrite (bool_decide_false (_ = _ - _)%nat) by lia. simpl.
      split_and!; congruence || done.
  - pose proof (resend_rep q h B hs now1 now2 R) as Hr. rewrite Hlast in Hr.
    destruct ((timeSub now1 last <? hs) || _).
    + rewrite Hr. exists q. by split_and!.
    + destruct Hr as (q' & Hr & R' & Hs & Hl & _). rewrite Hr. exists q'.
      by split_and!.
Qed.

Lemma q_run_refines ops q a :
  implements q a → Forall (qop_ok (q_s q)) ops →
  ∃ q', q_run ops q = Ok ((a_run (q_s q) ops a).1, q')
    ∧ implements q' (a_run (q_s q) ops a).2.
Proof.
  intros R Hok. revert q a R Hok.
  induction ops as [|op ops IH]; intros q a R Hok; [by exists q|].
  inv Hok. rename H1 into Hop, H2 into Hops.
  destruct (q_step_refines op q a R Hop) as (q1 & Hs & R1 & Hq).
  cbn [q_run a_run].
  destruct (a_step (q_s q) op a) as [o a1]. rewrite Hs. simpl in *.
  destruct (IH q1 a1 R1) as (q2 & Hrun & R2); [by rewrite Hq|].
  rewrite Hq in Hrun, R2.
  destruct (a_run (q_s q) ops a1) as [os a2]. simpl in *.
  exists q2. rewrite Hrun. done.
Qed.

Lemma new_implements s : 1 < s ≤ 255 → implements (newQueue s) a_new.
Proof. intros. split; [by apply newQueue_rep|done]. Qed.

(** C7: from [newQueue s], any sequence of additions (made only when the size
    is below [s - 1], as the sending goroutine does), ACKs and NACKs with
    sequence numbers below [s], and resends at any times runs without a panic,
    returns what the abstract queue returns (a resend: nothing within the
    back-off, else the packets of the window in order), and leaves the ring
    holding exactly the abstract history and window. *)
Theorem queue_refines_abstract s ops :
  1 < s ≤ 255 → Forall (qop_ok s) ops →
  ∃ q', q_run ops (newQueue s) = Ok ((a_run s ops a_new).1, q')
    ∧ implements q' (a_run s ops a_new).2
    ∧ size q' = len (window (a_hist (a_run s ops a_new).2)
                            (a_base (a_run s ops a_new).2)).
Proof.
  intros Hs Hok.
  destruct (q_run_refines ops _ _ (new_implements s Hs) Hok) as (q' & Hr & R).
  exists q'. split_and!; [done|done|]. destruct R as [R _].
  rewrite (size_rep _ _ _ R). unfold window, len. rewrite length_drop.
  pose proof (qr_lo _ _ _ R). simpl in *. lia.
Qed.

Lemma queue_refines_abstract_witness :
  ∃ q', q_run [QAdd (mkPacketData 0 true false [7]); QAck 0; QNack true 1;
               QAdd (mkPacketData 0 true false [8]); QResend 5 10 11;
               QResend 5 12 13] (newQueue 3)
        = Ok ([Some (OAdd (mkPacketData 0 true false [7])); Some (OAck true);
               Some (ONack false true);
               Some (OAdd (mkPacketData 1 true false [8]));
               Some (OResend [mkPacketData 1 true false [8]]);
               Some (OResend [])], q').
Proof.
  destruct (queue_refines_abstract 3
    [QAdd (mkPacketData 0 true false [7]); QAck 0; QNack true 1;
     QAdd (mkPacketData 0 true false [8]); QResend 5 10 11; QResend 5 12 13])
    as (q' & Hq & _).
  - lia.
  - repeat first [apply List.Forall_nil | apply List.Forall_cons]; simpl;
      first [done | lia].
  - exists q'. exact Hq.
Defined.

(** C25: within the handshake back-off, and with an empty window, [resend]
    sends nothing and changes nothing.  Otherwise it writes exactly the packets
    of the window, oldest first, and 256 iterations of its loop are enough; it
    keeps the window, records the time, and waits for the peer with
    [expectedNACK] set to the next sequence number to be sent. *)
Theorem resend_window q h B hs now1 now2 :
  queue_rep q h B →
  (timeSub now1 (lastResend q) < hs →
   resend logPkt 256 hs now1 now2 q [] = Some (Ok tt, q, []))
  ∧ (B = length h → resend logPkt 256 hs now1 now2 q [] = Some (Ok tt, q, []))
  ∧ (hs ≤ timeSub now1 (lastResend q) → (B < length h)%nat →
     ∃ q', resend logPkt 256 hs now1 now2 q [] = Some (Ok tt, q', window h B)
     ∧ queue_rep q' h B
     ∧ lastResend q' = now2
     ∧ sy_waiter (q_syncer q') = WSelect
     ∧ sy_state (q_syncer q') = syncStateResending
     ∧ expectedNACK (q_syncer q') = Z.of_nat (length h) mod q_s q).
Proof.
  intros R. pose proof (resend_rep q h B hs now1 now2 R) as Hr. split_and!.
  - intros Hlt. destruct (Z.ltb_spec (timeSub now1 (lastResend q)) hs); [done|lia].
  - intros ->. by rewrite bool_decide_true, orb_true_r in Hr by done.
  - intros Hle Hlt.
    destruct (Z.ltb_spec (timeSub now1 (lastResend q)) hs); [lia|].
    rewrite bool_decide_false in Hr by lia. simpl in Hr.
    destruct Hr as (q' & ? & ? & _ & ?). by exists q'.
Qed.

(** A queue of ring size 3 whose window has wrapped around: packets 2 and 3
    (sequence numbers 2 and 0) are outstanding. *)
Definition wrappedQueue : queue :=
  match q_run [QAdd (mkPacketData 0 true false [1]);
               QAdd (mkPacketData 0 true false [2]); QAck 1;
               QAdd (mkPacketData 0 true false [3]);
               QAdd (mkPacketData 0 true false [4])] (newQueue 3) with
  | Ok (_, q) => q
  | _ => newQueue 3
  end.

Definition wrappedHist : list PacketData :=
  [mkPacketData 0 true false [1]; mkPacketData 1 true false [2];
   mkPacketData 2 true false [3]; mkPacketData 0 true false [4]].

Lemma wrappedQueue_rep : queue_rep wrappedQueue wrappedHist 2.
Proof.
  destruct (q_run_refines
    [QAdd (mkPacketData 0 true false [1]);
     QAdd (mkPacketData 0 true false [2]); QAck 1;
     QAdd (mkPacketData 0 true false [3]);
     QAdd (mkPacketData 0 true false [4])] (newQueue 3) a_new)
    as (q' & Hq & R & _).
  - apply new_implements. lia.
  - repeat first [apply List.Forall_nil | apply List.Forall_cons]; simpl;
      first [done | lia].
  - unfold wrappedQueue. rewrite Hq. exact R.
Qed.

Lemma resend_window_witness :
  (∃ q', resend logPkt 256 5 100 101 wrappedQueue []
         = Some (Ok tt, q', [mkPacketData 2 true false [3];
                             mkPacketData 0 true false [4]]))
  ∧ resend logPkt 256 500 100 101 wrappedQueue [] = Some (Ok tt, wrappedQueue, []).
Proof.
  destruct (resend_window wrappedQueue wrappedHist 2 5 100 101)
    as (_ & _ & Hlate); [exact wrappedQueue_rep|].
  destruct (resend_window wrappedQueue wrappedHist 2 500 100 101)
    as (Hearly & _ & _); [exact wrappedQueue_rep|].
  destruct Hlate as (q' & Hq & _).
  - vm_compute. discriminate.
  - simpl. lia.
  - split; [exists q'; exact Hq|]. apply Hearly. vm_compute. reflexivity.
Defined.

(** C36: [processNACK] does not check that the received sequence number is below
    [s].  When the window has wrapped around, a NACK with any number from [s]
    to 255 counts as being inside the window and becomes the base.  The
    [resend] that it asks for, once the back-off is over, reads the ring out
    of range and panics, except for the one number [s + sequenceTop], for which
    the size wraps to zero: then nothing is resent, although packets are
    outstanding. *)
Theorem nack_above_s_panics pick q h B seq hs now1 now2 :
  queue_rep q h B → sequenceTop q < sequenceBase q → q_s q ≤ seq ≤ 255 →
  ∃ q', processNACK pick seq q = ((true, true), q')
    ∧ sequenceBase q' = seq
    ∧ (hs ≤ timeSub now1 (lastResend q) → seq ≠ q_s q + sequenceTop q →
       ∃ q'', resend logPkt 256 hs now1 now2 q' []
              = Some (Panic IndexOutOfRange, q'', []))
    ∧ (seq = q_s q + sequenceTop q →
       resend logPkt 256 hs now1 now2 q' [] = Some (Ok tt, q', [])).
Proof.
  intros R Hwrap Hseq. pose proof (rep_base_range _ _ _ R).
  pose proof (rep_top_range _ _ _ R). pose proof (qr_s _ _ _ R).
  unfold processNACK, containsSequence. simpl.
  destruct (Z.eqb_spec seq (sequenceTop q)); [lia|].
  destruct (Z.eqb_spec (sequenceBase q) (sequenceTop q)); [lia|].
  destruct (Z.ltb_spec (sequenceBase q) (sequenceTop q)); [lia|].
  destruct (Z.leb_spec (sequenceBase q) seq); [|lia].
  destruct (Z.ltb_spec seq (sequenceTop q)); [lia|]. simpl.
  destruct (Z.eqb_spec (sequenceBase q) seq); [lia|]. simpl.
  eexists. split; [done|]. split; [done|].
  match goal with |- context [resend _ _ _ _ _ ?x _] => set (q' := x) end.
  assert (Hsize : size q' = (sequenceTop q + (q_s q - seq)) mod 256).
  { unfold size, u8. simpl. destruct (Z.leb_spec seq (sequenceTop q)); [lia|].
    by rewrite Zplus_mod_idemp_r. }
  split.
  - intros Hhs Hne. unfold resend, resendBegin. rewrite Hsize.
    destruct (Z.ltb_spec (timeSub now1 (lastResend q')) hs);
      [unfold q' in *; simpl in *; lia|].
    destruct (Z.eqb_spec ((sequenceTop q + (q_s q - seq)) mod 256) 0) as [E|_].
    { rewrite <- (Z.mod_0_l 256) in E by lia. apply mod_inj in E; lia. }
    simpl. destruct (Z.eqb_spec seq (sequenceTop q)); [lia|].
    match goal with |- context [initResendUpTo ?t ?c] =>
      destruct (initResendUpTo_not_panic t c) as [a Ha] end.
    { rewrite syncer_processNACK_s, (qr_sync _ _ _ R). lia. }
    rewrite Ha. simpl. destruct (Z.eqb_spec seq (sequenceTop q)); [lia|].
    unfold resendNext. rewrite index_panic; [by eexists|].
    unfold len. simpl. rewrite (qr_len _ _ _ R). lia.
  - intros ->. unfold resend, resendBegin. rewrite Hsize.
    replace (sequenceTop q + (q_s q - (q_s q + sequenceTop q))) with 0 by lia.
    rewrite Z.mod_0_l by lia. simpl. by case_if.
Qed.

Lemma nack_above_s_panics_witness :
  ∃ q' q'', processNACK true 200 wrappedQueue = ((true, true), q')
    ∧ resend logPkt 256 5 100 101 q' [] = Some (Panic IndexOutOfRange, q'', []).
Proof.
  destruct (nack_above_s_panics true wrappedQueue wrappedHist 2 200 5 100 101)
    as (q' & Hn & _ & Hp & _).
  - exact wrappedQueue_rep.
  - vm_compute. reflexivity.
  - vm_compute. split; discriminate.
  - destruct Hp as [q'' Hp]; [vm_compute; discriminate|vm_compute; discriminate|].
    exists q', q''. split; [exact Hn|exact Hp].
Defined.
