(* ===== verification/GoFloat.v ===== *)
(** * Go's [float32] and [float64] arithmetic

    IEEE-754 arithmetic as the Standard Library's [SpecFloat] specifies it, at
    the two precisions Go uses, with round-to-nearest-even. *)

From Stdlib Require Import ZArith Lia.
From Stdlib Require Import SpecFloat.
From stdpp Require Import base numbers tactics.
From S2P Require Import Prelude.

Definition prec32 : Z := 24.
Definition emax32 : Z := 128.
Definition prec64 : Z := 53.
Definition emax64 : Z := 1024.

(** [float32(x)] and [float64(x)] for an integer [x]. *)
Definition float32 (x : Z) : spec_float := binary_normalize prec32 emax32 x 0 false.
Definition float64 (x : Z) : spec_float := binary_normalize prec64 emax64 x 0 false.

Definition mul32 : spec_float → spec_float → spec_float := SFmul prec32 emax32.
Definition mul64 : spec_float → spec_float → spec_float := SFmul prec64 emax64.
Definition add64 : spec_float → spec_float → spec_float := SFadd prec64 emax64.

(** [f > 0]. *)
Definition isPositive (f : spec_float) : bool := SFltb (S754_zero false) f.

(** The integer part of a finite value. *)
Definition truncate (f : spec_float) : option Z :=
  match f with
  | S754_zero _ => Some 0
  | S754_finite s m e =>
      let a := if 0 <=? e then Zpos m * 2 ^ e else Zpos m / 2 ^ (- e) in
      Some (if s then - a else a)
  | _ => None
  end.

(** The language leaves the conversion of a value that [int64] cannot hold to
    the implementation. *)
Class FloatToInt := { f2i_undefined : spec_float → Z }.

(** [int64(f)], [time.Duration(f)]. *)
Definition int64OfFloat `{FloatToInt} (f : spec_float) : Z :=
  match truncate f with
  | Some z => if (MinInt64 <=? z) && (z <=? MaxInt64) then z
              else f2i_undefined f
  | None => f2i_undefined f
  end.

(** The constants of the source. *)
Definition half32 : spec_float := S754_finite false 8388608 (-24).
Definition quarter64 : spec_float := S754_finite false 4503599627370496 (-54).
Definition threeQuarters64 : spec_float :=
  S754_finite false 6755399441055744 (-53).

Example half32_value : mul32 half32 (float32 2) = float32 1.
Proof. reflexivity. Qed.

Example quarter64_value : mul64 quarter64 (float64 4) = float64 1.
Proof. reflexivity. Qed.

Example threeQuarters64_value : mul64 threeQuarters64 (float64 4) = float64 3.
Proof. reflexivity. Qed.

(** One such implementation: the conversion instruction of amd64 yields the
    smallest integer. *)
Definition amd64 : FloatToInt := {| f2i_undefined _ := MinInt64 |}.
