(* ===== verification/Timeout.v ===== *)
(** * Timeouts ([gbn/timeout_manager.go], [gbn/config.go], [gbn/backoff_wait.go])

    The [TimeoutBooster], the [TimeoutManager] that derives the resend,
    handshake, ping and pong timeouts from observed round trips, the functional
    options that configure it, and the [BackoffWaiter].  A method that reads
    the clock takes its successive readings as [clk 0], [clk 1], ... *)

From stdpp Require Import base numbers list gmap tactics.
From Stdlib Require Import SpecFloat.
From S2P Require Import Prelude Messages GoFloat.

(** ** Defaults *)

Definition defaultHandshakeTimeout : Duration := 1000 * Millisecond.
Definition defaultResendTimeout : Duration := 1000 * Millisecond.
Definition minimumResendTimeout : Duration := 1000 * Millisecond.
Definition defaultFinSendTimeout : Duration := 1000 * Millisecond.
Definition defaultResendMultiplier : Z := 5.
Definition defaultTimeoutUpdateFrequency : Z := 100.
Definition defaultBoostPercent : spec_float := half32.
Definition DefaultSendTimeout : Duration := MaxInt64.
Definition DefaultRecvTimeout : Duration := MaxInt64.
Definition defaultPongMultiplier : Z := 3.
Definition defaultMaxPongTime : Duration := 15 * Second.

(** ** The booster *)

Record TimeoutBooster := mkTimeoutBooster {
  boostPercent : spec_float;
  boostCount : Z;
  originalTimeout : Duration;
  withBoostFrequencyLimit : bool;
  lastBoost : Time
}.

Definition NewTimeoutBooster (orig : Duration) (percent : spec_float)
    (limit : bool) : TimeoutBooster :=
  mkTimeoutBooster percent 0 orig limit 0.

Definition Boost (clk : nat → Time) (b : TimeoutBooster) : TimeoutBooster :=
  if withBoostFrequencyLimit b &&
     (timeSub (clk 0%nat) (lastBoost b) <? originalTimeout b)
  then b
  else mkTimeoutBooster (boostPercent b) (i64 (boostCount b + 1))
         (originalTimeout b) (withBoostFrequencyLimit b) (clk 1%nat).

Definition ResetBooster (newTimeout : Duration) (now : Time)
    (b : TimeoutBooster) : TimeoutBooster :=
  mkTimeoutBooster (boostPercent b) 0 newTimeout (withBoostFrequencyLimit b)
    (if withBoostFrequencyLimit b then now else lastBoost b).

Definition GetCurrentTimeout `{FloatToInt} (b : TimeoutBooster) : Duration :=
  let increase := int64OfFloat
    (mul32 (mul32 (float32 (originalTimeout b)) (boostPercent b))
       (float32 (boostCount b))) in
  i64 (originalTimeout b + increase).

(** ** The manager *)

Record TimeoutManager := mkTimeoutManager {
  useStaticTimeout : bool;
  hasSetDynamicTimeout : bool;
  resendTimeout : Duration;
  resendMultiplier : Z;
  latestSentSYNTime : Time;
  resendBooster : TimeoutBooster;
  resendBoostPercent : spec_float;
  handshakeBooster : TimeoutBooster;
  handshakeBoostPercent : spec_float;
  handshakeTimeout : Duration;
  finSendTimeout : Duration;
  sendTimeout : Duration;
  recvTimeout : Duration;
  pingTime : Duration;
  pongTime : Duration;
  dynamicPongTime : bool;
  pongMultiplier : Z;
  maxPongTime : Duration;
  smoothedRTT : Duration;
  rttInitialized : bool;
  responseCounter : Z;
  timeoutUpdateFrequency : Z;
  sentTimes : gmap Z Time
}.

(** Field assignment [m.f = v]. *)
Definition set_useStaticTimeout (v : bool) (m : TimeoutManager) : TimeoutManager :=
  mkTimeoutManager v (hasSetDynamicTimeout m) (resendTimeout m)
    (resendMultiplier m) (latestSentSYNTime m) (resendBooster m)
    (resendBoostPercent m) (handshakeBooster m) (handshakeBoostPercent m)
    (handshakeTimeout m) (finSendTimeout m) (sendTimeout m) (recvTimeout m)
    (pingTime m) (pongTime m) (dynamicPongTime m) (pongMultiplier m)
    (maxPongTime m) (smoothedRTT m) (rttInitialized m) (responseCounter m)
    (timeoutUpdateFrequency m) (sentTimes m).
Definition set_hasSetDynamicTimeout (v : bool) (m : TimeoutManager) : TimeoutManager :=
  mkTimeoutManager (useStaticTimeout m) v (resendTimeout m)
    (resendMultiplier m) (latestSentSYNTime m) (resendBooster m)
    (resendBoostPercent m) (handshakeBooster m) (handshakeBoostPercent m)
    (handshakeTimeout m) (finSendTimeout m) (sendTimeout m) (recvTimeout m)
    (pingTime m) (pongTime m) (dynamicPongTime m) (pongMultiplier m)
    (maxPongTime m) (smoothedRTT m) (rttInitialized m) (responseCounter m)
    (timeoutUpdateFrequency m) (sentTimes m).
Definition set_resendTimeout (v : Duration) (m : TimeoutManager) : TimeoutManager :=
  mkTimeoutManager (useStaticTimeout m) (hasSetDynamicTimeout m) v
    (resendMultiplier m) (latestSentSYNTime m) (resendBooster m)
    (resendBoostPercent m) (handshakeBooster m) (handshakeBoostPercent m)
    (handshakeTimeout m) (finSendTimeout m) (sendTimeout m) (recvTimeout m)
    (pingTime m) (pongTime m) (dynamicPongTime m) (pongMultiplier m)
    (maxPongTime m) (smoothedRTT m) (rttInitialized m) (responseCounter m)
    (timeoutUpdateFrequency m) (sentTimes m).
Definition set_resendMultiplier (v : Z) (m : TimeoutManager) : TimeoutManager :=
  mkTimeoutManager (useStaticTimeout m) (hasSetDynamicTimeout m)
    (resendTimeout m) v (latestSentSYNTime m) (resendBooster m)
    (resendBoostPercent m) (handshakeBooster m) (handshakeBoostPercent m)
    (handshakeTimeout m) (finSendTimeout m) (sendTimeout m) (recvTimeout m)
    (pingTime m) (pongTime m) (dynamicPongTime m) (pongMultiplier m)
    (maxPongTime m) (smoothedRTT m) (rttInitialized m) (responseCounter m)
    (timeoutUpdateFrequency m) (sentTimes m).
Definition set_latestSentSYNTime (v : Time) (m : TimeoutManager) : TimeoutManager :=
  mkTimeoutManager (useStaticTimeout m) (hasSetDynamicTimeout m)
    (resendTimeout m) (resendMultiplier m) v (resendBooster m)
    (resendBoostPercent m) (handshakeBooster m) (handshakeBoostPercent m)
    (handshakeTimeout m) (finSendTimeout m) (sendTimeout m) (recvTimeout m)
    (pingTime m) (pongTime m) (dynamicPongTime m) (pongMultiplier m)
    (maxPongTime m) (smoothedRTT m) (rttInitialized m) (responseCounter m)
    (timeoutUpdateFrequency m) (sentTimes m).
Definition set_resendBooster (v : TimeoutBooster) (m : TimeoutManager) : TimeoutManager :=
  mkTimeoutManager (useStaticTimeout m) (hasSetDynamicTimeout m)
    (resendTimeout m) (resendMultiplier m) (latestSentSYNTime m) v
    (resendBoostPercent m) (handshakeBooster m) (handshakeBoostPercent m)
    (handshakeTimeout m) (finSendTimeout m) (sendTimeout m) (recvTimeout m)
    (pingTime m) (pongTime m) (dynamicPongTime m) (pongMultiplier m)
    (maxPongTime m) (smoothedRTT m) (rttInitialized m) (responseCounter m)
    (timeoutUpdateFrequency m) (sentTimes m).
Definition set_resendBoostPercent (v : spec_float) (m : TimeoutManager) : TimeoutManager :=
  mkTimeoutManager (useStaticTimeout m) (hasSetDynamicTimeout m)
    (resendTimeout m) (resendMultiplier m) (latestSentSYNTime m)
    (resendBooster m) v (handshakeBooster m) (handshakeBoostPercent m)
    (handshakeTimeout m) (finSendTimeout m) (sendTimeout m) (recvTimeout m)
    (pingTime m) (pongTime m) (dynamicPongTime m) (pongMultiplier m)
    (maxPongTime m) (smoothedRTT m) (rttInitialized m) (responseCounter m)
    (timeoutUpdateFrequency m) (sentTimes m).
Definition set_handshakeBooster (v : TimeoutBooster) (m : TimeoutManager) : TimeoutManager :=
  mkTimeoutManager (useStaticTimeout m) (hasSetDynamicTimeout m)
    (resendTimeout m) (resendMultiplier m) (latestSentSYNTime m)
    (resendBooster m) (resendBoostPercent m) v (handshakeBoostPercent m)
    (handshakeTimeout m) (finSendTimeout m) (sendTimeout m) (recvTimeout m)
    (pingTime m) (pongTime m) (dynamicPongTime m) (pongMultiplier m)
    (maxPongTime m) (smoothedRTT m) (rttInitialized m) (responseCounter m)
    (timeoutUpdateFrequency m) (sentTimes m).
Definition set_handshakeBoostPercent (v : spec_float) (m : TimeoutManager) : TimeoutManager :=
  mkTimeoutManager (useStaticTimeout m) (hasSetDynamicTimeout m)
    (resendTimeout m) (resendMultiplier m) (latestSentSYNTime m)
    (resendBooster m) (resendBoostPercent m) (handshakeBooster m) v
    (handshakeTimeout m) (finSendTimeout m) (sendTimeout m) (recvTimeout m)
    (pingTime m) (pongTime m) (dynamicPongTime m) (pongMultiplier m)
    (maxPongTime m) (smoothedRTT m) (rttInitialized m) (responseCounter m)
    (timeoutUpdateFrequency m) (sentTimes m).
Definition set_handshakeTimeout (v : Duration) (m : TimeoutManager) : TimeoutManager :=
  mkTimeoutManager (useStaticTimeout m) (hasSetDynamicTimeout m)
    (resendTimeout m) (resendMultiplier m) (latestSentSYNTime m)
    (resendBooster m) (resendBoostPercent m) (handshakeBooster m)
    (handshakeBoostPercent m) v (finSendTimeout m) (sendTimeout m)
    (recvTimeout m) (pingTime m) (pongTime m) (dynamicPongTime m)
    (pongMultiplier m) (maxPongTime m) (smoothedRTT m) (rttInitialized m)
    (responseCounter m) (timeoutUpdateFrequency m) (sentTimes m).
Definition set_finSendTimeout (v : Duration) (m : TimeoutManager) : TimeoutManager :=
  mkTimeoutManager (useStaticTimeout m) (hasSetDynamicTimeout m)
    (resendTimeout m) (resendMultiplier m) (latestSentSYNTime m)
    (resendBooster m) (resendBoostPercent m) (handshakeBooster m)
    (handshakeBoostPercent m) (handshakeTimeout m) v (sendTimeout m)
    (recvTimeout m) (pingTime m) (pongTime m) (dynamicPongTime m)
    (pongMultiplier m) (maxPongTime m) (smoothedRTT m) (rttInitialized m)
    (responseCounter m) (timeoutUpdateFrequency m) (sentTimes m).
Definition set_sendTimeout (v : Duration) (m : TimeoutManager) : TimeoutManager :=
  mkTimeoutManager (useStaticTimeout m) (hasSetDynamicTimeout m)
    (resendTimeout m) (resendMultiplier m) (latestSentSYNTime m)
    (resendBooster m) (resendBoostPercent m) (handshakeBooster m)
    (handshakeBoostPercent m) (handshakeTimeout m) (finSendTimeout m) v
    (recvTimeout m) (pingTime m) (pongTime m) (dynamicPongTime m)
    (pongMultiplier m) (maxPongTime m) (smoothedRTT m) (rttInitialized m)
    (responseCounter m) (timeoutUpdateFrequency m) (sentTimes m).
Definition set_recvTimeout (v : Duration) (m : TimeoutManager) : TimeoutManager :=
  mkTimeoutManager (useStaticTimeout m) (hasSetDynamicTimeout m)
    (resendTimeout m) (resendMultiplier m) (latestSentSYNTime m)
    (resendBooster m) (resendBoostPercent m) (handshakeBooster m)
    (handshakeBoostPercent m) (handshakeTimeout m) (finSendTimeout m)
    (sendTimeout m) v (pingTime m) (pongTime m) (dynamicPongTime m)
    (pongMultiplier m) (maxPongTime m) (smoothedRTT m) (rttInitialized m)
    (responseCounter m) (timeoutUpdateFrequency m) (sentTimes m).
Definition set_pingTime (v : Duration) (m : TimeoutManager) : TimeoutManager :=
  mkTimeoutManager (useStaticTimeout m) (hasSetDynamicTimeout m)
    (resendTimeout m) (resendMultiplier m) (latestSentSYNTime m)
    (resendBooster m) (resendBoostPercent m) (handshakeBooster m)
    (handshakeBoostPercent m) (handshakeTimeout m) (finSendTimeout m)
    (sendTimeout m) (recvTimeout m) v (pongTime m) (dynamicPongTime m)
    (pongMultiplier m) (maxPongTime m) (smoothedRTT m) (rttInitialized m)
    (responseCounter m) (timeoutUpdateFrequency m) (sentTimes m).
Definition set_pongTime (v : Duration) (m : TimeoutManager) : TimeoutManager :=
  mkTimeoutManager (useStaticTimeout m) (hasSetDynamicTimeout m)
    (resendTimeout m) (resendMultiplier m) (latestSentSYNTime m)
    (resendBooster m) (resendBoostPercent m) (handshakeBooster m)
    (handshakeBoostPercent m) (handshakeTimeout m) (finSendTimeout m)
    (sendTimeout m) (recvTimeout m) (pingTime m) v (dynamicPongTime m)
    (pongMultiplier m) (maxPongTime m) (smoothedRTT m) (rttInitialized m)
    (responseCounter m) (timeoutUpdateFrequency m) (sentTimes m).
Definition set_dynamicPongTime (v : bool) (m : TimeoutManager) : TimeoutManager :=
  mkTimeoutManager (useStaticTimeout m) (hasSetDynamicTimeout m)
    (resendTimeout m) (resendMultiplier m) (latestSentSYNTime m)
    (resendBooster m) (resendBoostPercent m) (handshakeBooster m)
    (handshakeBoostPercent m) (handshakeTimeout m) (finSendTimeout m)
    (sendTimeout m) (recvTimeout m) (pingTime m) (pongTime m) v
    (pongMultiplier m) (maxPongTime m) (smoothedRTT m) (rttInitialized m)
    (responseCounter m) (timeoutUpdateFrequency m) (sentTimes m).
Definition set_pongMultiplier (v : Z) (m : TimeoutManager) : TimeoutManager :=
  mkTimeoutManager (useStaticTimeout m) (hasSetDynamicTimeout m)
    (resendTimeout m) (resendMultiplier m) (latestSentSYNTime m)
    (resendBooster m) (resendBoostPercent m) (handshakeBooster m)
    (handshakeBoostPercent m) (handshakeTimeout m) (finSendTimeout m)
    (sendTimeout m) (recvTimeout m) (pingTime m) (pongTime m)
    (dynamicPongTime m) v (maxPongTime m) (smoothedRTT m) (rttInitialized m)
    (responseCounter m) (timeoutUpdateFrequency m) (sentTimes m).
Definition set_maxPongTime (v : Duration) (m : TimeoutManager) : TimeoutManager :=
  mkTimeoutManager (useStaticTimeout m) (hasSetDynamicTimeout m)
    (resendTimeout m) (resendMultiplier m) (latestSentSYNTime m)
    (resendBooster m) (resendBoostPercent m) (handshakeBooster m)
    (handshakeBoostPercent m) (handshakeTimeout m) (finSendTimeout m)
    (sendTimeout m) (recvTimeout m) (pingTime m) (pongTime m)
    (dynamicPongTime m) (pongMultiplier m) v (smoothedRTT m) (rttInitialized
    m) (responseCounter m) (timeoutUpdateFrequency m) (sentTimes m).
Definition set_smoothedRTT (v : Duration) (m : TimeoutManager) : TimeoutManager :=
  mkTimeoutManager (useStaticTimeout m) (hasSetDynamicTimeout m)
    (resendTimeout m) (resendMultiplier m) (latestSentSYNTime m)
    (resendBooster m) (resendBoostPercent m) (handshakeBooster m)
    (handshakeBoostPercent m) (handshakeTimeout m) (finSendTimeout m)
    (sendTimeout m) (recvTimeout m) (pingTime m) (pongTime m)
    (dynamicPongTime m) (pongMultiplier m) (maxPongTime m) v (rttInitialized
    m) (responseCounter m) (timeoutUpdateFrequency m) (sentTimes m).
Definition set_rttInitialized (v : bool) (m : TimeoutManager) : TimeoutManager :=
  mkTimeoutManager (useStaticTimeout m) (hasSetDynamicTimeout m)
    (resendTimeout m) (resendMultiplier m) (latestSentSYNTime m)
    (resendBooster m) (resendBoostPercent m) (handshakeBooster m)
    (handshakeBoostPercent m) (handshakeTimeout m) (finSendTimeout m)
    (sendTimeout m) (recvTimeout m) (pingTime m) (pongTime m)
    (dynamicPongTime m) (pongMultiplier m) (maxPongTime m) (smoothedRTT m) v
    (responseCounter m) (timeoutUpdateFrequency m) (sentTimes m).
Definition set_responseCounter (v : Z) (m : TimeoutManager) : TimeoutManager :=
  mkTimeoutManager (useStaticTimeout m) (hasSetDynamicTimeout m)
    (resendTimeout m) (resendMultiplier m) (latestSentSYNTime m)
    (resendBooster m) (resendBoostPercent m) (handshakeBooster m)
    (handshakeBoostPercent m) (handshakeTimeout m) (finSendTimeout m)
    (sendTimeout m) (recvTimeout m) (pingTime m) (pongTime m)
    (dynamicPongTime m) (pongMultiplier m) (maxPongTime m) (smoothedRTT m)
    (rttInitialized m) v (timeoutUpdateFrequency m) (sentTimes m).
Definition set_timeoutUpdateFrequency (v : Z) (m : TimeoutManager) : TimeoutManager :=
  mkTimeoutManager (useStaticTimeout m) (hasSetDynamicTimeout m)
    (resendTimeout m) (resendMultiplier m) (latestSentSYNTime m)
    (resendBooster m) (resendBoostPercent m) (handshakeBooster m)
    (handshakeBoostPercent m) (handshakeTimeout m) (finSendTimeout m)
    (sendTimeout m) (recvTimeout m) (pingTime m) (pongTime m)
    (dynamicPongTime m) (pongMultiplier m) (maxPongTime m) (smoothedRTT m)
    (rttInitialized m) (responseCounter m) v (sentTimes m).
Definition set_sentTimes (v : gmap Z Time) (m : TimeoutManager) : TimeoutManager :=
  mkTimeoutManager (useStaticTimeout m) (hasSetDynamicTimeout m)
    (resendTimeout m) (resendMultiplier m) (latestSentSYNTime m)
    (resendBooster m) (resendBoostPercent m) (handshakeBooster m)
    (handshakeBoostPercent m) (handshakeTimeout m) (finSendTimeout m)
    (sendTimeout m) (recvTimeout m) (pingTime m) (pongTime m)
    (dynamicPongTime m) (pongMultiplier m) (maxPongTime m) (smoothedRTT m)
    (rttInitialized m) (responseCounter m) (timeoutUpdateFrequency m) v.

(** ** Options ([gbn/config.go]) *)

Definition WithStaticResendTimeout (timeout : Duration) (m : TimeoutManager) :
    TimeoutManager :=
  set_resendTimeout timeout (set_useStaticTimeout true m).

Definition WithResendMultiplier (multiplier : Z) (m : TimeoutManager) :
    TimeoutManager :=
  if 0 <? multiplier then set_resendMultiplier multiplier m else m.

Definition WithTimeoutUpdateFrequency (frequency : Z) (m : TimeoutManager) :
    TimeoutManager :=
  if 0 <? frequency then set_timeoutUpdateFrequency frequency m else m.

Definition WithHandshakeTimeout (timeout : Duration) (m : TimeoutManager) :
    TimeoutManager :=
  set_handshakeTimeout timeout m.

Definition WithKeepalivePing (ping pong : Duration) (m : TimeoutManager) :
    TimeoutManager :=
  set_pongTime pong (set_pingTime ping m).

Definition WithBoostPercent (percent : spec_float) (m : TimeoutManager) :
    TimeoutManager :=
  if isPositive percent
  then set_handshakeBoostPercent percent (set_resendBoostPercent percent m)
  else m.

Definition WithDynamicPongTimeout (multiplier : Z) (maxPong : Duration)
    (m : TimeoutManager) : TimeoutManager :=
  let m := set_dynamicPongTime true m in
  let m := if 0 <? multiplier then set_pongMultiplier multiplier m else m in
  if 0 <? maxPong then set_maxPongTime maxPong m else m.

(** The boosters are nil until the options have been applied; no option reads
    them. *)
Definition NewTimeOutManager (opts : list (TimeoutManager → TimeoutManager)) :
    TimeoutManager :=
  let nilBooster := NewTimeoutBooster 0 (S754_zero false) false in
  let m := mkTimeoutManager false false defaultResendTimeout
    defaultResendMultiplier 0 nilBooster defaultBoostPercent nilBooster
    defaultBoostPercent defaultHandshakeTimeout defaultFinSendTimeout
    DefaultSendTimeout DefaultRecvTimeout 0 0 false defaultPongMultiplier
    defaultMaxPongTime 0 false 0 defaultTimeoutUpdateFrequency ∅ in
  let m := fold_left (λ m opt, opt m) opts m in
  let m := set_resendBooster
    (NewTimeoutBooster (resendTimeout m) (resendBoostPercent m) true) m in
  set_handshakeBooster
    (NewTimeoutBooster (handshakeTimeout m) (handshakeBoostPercent m) false) m.

Definition Sent (clk : nat → Time) (msg : Message) (resent : bool)
    (m : TimeoutManager) : TimeoutManager :=
  if useStaticTimeout m then m else
  let sentAt := clk 0%nat in
  let clk' k := clk (S k) in
  match msg with
  | MSYN _ =>
      if negb resent then set_latestSentSYNTime sentAt m
      else
        let m := set_latestSentSYNTime 0 m in
        set_handshakeBooster (Boost clk' (handshakeBooster m)) m
  | MData p =>
      if resent then
        let m := set_sentTimes (delete (Seq p) (sentTimes m)) m in
        set_resendBooster (Boost clk' (resendBooster m)) m
      else set_sentTimes (<[Seq p := sentAt]> (sentTimes m)) m
  | _ => m
  end.

Definition updateResendTimeoutUnsafe (responseTime : Duration) (now : Time)
    (m : TimeoutManager) : TimeoutManager :=
  let m := set_hasSetDynamicTimeout true m in
  let multiplied := i64 (resendMultiplier m * responseTime) in
  let multiplied :=
    if multiplied <? minimumResendTimeout then minimumResendTimeout
    else multiplied in
  let m := set_resendTimeout multiplied m in
  set_resendBooster (ResetBooster multiplied now (resendBooster m)) m.

Definition updateSmoothedRTT `{FloatToInt} (rtt : Duration)
    (m : TimeoutManager) : TimeoutManager :=
  if negb (rttInitialized m)
  then set_rttInitialized true (set_smoothedRTT rtt m)
  else set_smoothedRTT
         (int64OfFloat (add64 (mul64 quarter64 (float64 rtt))
            (mul64 threeQuarters64 (float64 (smoothedRTT m))))) m.

Definition Received `{FloatToInt} (clk : nat → Time) (msg : Message)
    (m : TimeoutManager) : result TimeoutManager :=
  if useStaticTimeout m then Ok m else
  let receivedAt := clk 0%nat in
  match msg with
  | MSYN _ | MSYNACK =>
      if latestSentSYNTime m =? 0 then Ok m
      else
        let responseTime := timeSub receivedAt (latestSentSYNTime m) in
        let m := set_latestSentSYNTime 0 m in
        let m := updateSmoothedRTT responseTime m in
        Ok (updateResendTimeoutUnsafe responseTime (clk 1%nat) m)
  | MACK seq =>
      match sentTimes m !! seq with
      | None => Ok m
      | Some sentTime =>
          let m := set_sentTimes (delete seq (sentTimes m)) m in
          let responseTime := timeSub receivedAt sentTime in
          let m := updateSmoothedRTT responseTime m in
          let m := set_responseCounter (i64 (responseCounter m + 1)) m in
          if timeoutUpdateFrequency m =? 0 then Panic DivideByZero
          else
            let reachedFrequency :=
              Z.rem (responseCounter m) (timeoutUpdateFrequency m) =? 0 in
            if negb (hasSetDynamicTimeout m) || reachedFrequency
            then Ok (updateResendTimeoutUnsafe responseTime (clk 1%nat)
                       (set_responseCounter 0 m))
            else Ok m
      end
  | _ => Ok m
  end.

Definition GetResendTimeout `{FloatToInt} (m : TimeoutManager) : Duration :=
  GetCurrentTimeout (resendBooster m).

Definition GetHandshakeTimeout `{FloatToInt} (m : TimeoutManager) : Duration :=
  GetCurrentTimeout (handshakeBooster m).

Definition GetFinSendTimeout (m : TimeoutManager) : Duration :=
  finSendTimeout m.

Definition GetSendTimeout (m : TimeoutManager) : Duration := sendTimeout m.

Definition GetRecvTimeout (m : TimeoutManager) : Duration := recvTimeout m.

Definition GetPingTime (m : TimeoutManager) : Duration :=
  if pingTime m =? 0 then MaxInt64 else pingTime m.

Definition GetPongTime (m : TimeoutManager) : Duration :=
  if pongTime m =? 0 then MaxInt64
  else if negb (dynamicPongTime m) || negb (rttInitialized m) then pongTime m
  else
    let dynamicPong := i64 (pongMultiplier m * smoothedRTT m) in
    let dynamicPong :=
      if dynamicPong <? pongTime m then pongTime m else dynamicPong in
    let dynamicPong :=
      if (0 <? maxPongTime m) && (maxPongTime m <? dynamicPong)
      then maxPongTime m else dynamicPong in
    if (0 <? pingTime m) && (pingTime m <? dynamicPong)
    then pingTime m else dynamicPong.

Definition GetSmoothedRTT (m : TimeoutManager) : Duration := smoothedRTT m.

Definition GetLatestRTT (m : TimeoutManager) : Duration := GetSmoothedRTT m.

Definition SetSendTimeout (timeout : Duration) (m : TimeoutManager) :
    TimeoutManager :=
  set_sendTimeout timeout m.

Definition SetRecvTimeout (timeout : Duration) (m : TimeoutManager) :
    TimeoutManager :=
  set_recvTimeout timeout m.

(** ** The backoff waiter *)

Record BackoffWaiter := mkBackoffWaiter {
  currentBackoff : Duration;
  minBackoff : Duration;
  maxBackoff : Duration
}.

Definition NewBackoffWaiter (initial min max : Duration) : BackoffWaiter :=
  mkBackoffWaiter initial min max.

(** [Wait]: the duration slept and the waiter afterwards. *)
Definition Wait (b : BackoffWaiter) : Duration * BackoffWaiter :=
  let set c := mkBackoffWaiter c (minBackoff b) (maxBackoff b) in
  (currentBackoff b,
   if currentBackoff b <? minBackoff b then set (minBackoff b)
   else if currentBackoff b <? maxBackoff b then
     let c := i64 (currentBackoff b * 2) in
     set (if maxBackoff b <? c then maxBackoff b else c)
   else b).

(** The sleeps of [k] consecutive calls. *)
Fixpoint waits (k : nat) (b : BackoffWaiter) : list Duration :=
  match k with
  | O => []
  | S k => let '(d, b') := Wait b in d :: waits k b'
  end.

(** ** Invariant *)

(** The options the package offers, applied to arguments of their Go type. *)
Inductive known_option : (TimeoutManager → TimeoutManager) → Prop :=
| ko_static d : known_option (WithStaticResendTimeout d)
| ko_mult k : known_option (WithResendMultiplier k)
| ko_freq k : k ≤ MaxInt64 → known_option (WithTimeoutUpdateFrequency k)
| ko_hs d : known_option (WithHandshakeTimeout d)
| ko_ping a b : known_option (WithKeepalivePing a b)
| ko_boost p : known_option (WithBoostPercent p)
| ko_pong k d : known_option (WithDynamicPongTimeout k d).

(** What the options keep. *)
Record tm_cfg_wf (m : TimeoutManager) : Prop := {
  tw_freq : 0 < timeoutUpdateFrequency m ≤ MaxInt64;
  tw_mult : 0 < resendMultiplier m;
  tw_pmult : 0 < pongMultiplier m;
  tw_maxpong : 0 < maxPongTime m;
  tw_count : 0 ≤ responseCounter m < timeoutUpdateFrequency m
}.

(** The well-formedness of a manager in use. *)
Record tm_wf (m : TimeoutManager) : Prop := {
  tw_cfg : tm_cfg_wf m;
  tw_rb : originalTimeout (resendBooster m) = resendTimeout m;
  tw_rl : withBoostFrequencyLimit (resendBooster m) = true;
  tw_hb : originalTimeout (handshakeBooster m) = handshakeTimeout m;
  tw_hl : withBoostFrequencyLimit (handshakeBooster m) = false
}.

Ltac unfold_options :=
  unfold WithStaticResendTimeout, WithResendMultiplier,
    WithTimeoutUpdateFrequency, WithHandshakeTimeout, WithKeepalivePing,
    WithBoostPercent, WithDynamicPongTimeout.

Lemma known_option_wf opt m :
  known_option opt → tm_cfg_wf m ∧ responseCounter m = 0 →
  tm_cfg_wf (opt m) ∧ responseCounter (opt m) = 0.
Proof.
  intros Hk [[? ? ? ? ?] Hrc]. destruct Hk; unfold_options;
    repeat case_if; (split; [constructor; simpl; lia|done]).
Qed.

Lemma NewTimeOutManager_wf opts :
  Forall known_option opts → tm_wf (NewTimeOutManager opts).
Proof.
  intros Hopts. unfold NewTimeOutManager.
  match goal with |- context [fold_left _ opts ?m0] =>
    assert (H : tm_cfg_wf m0 ∧ responseCounter m0 = 0)
      by (split; [constructor; vm_compute; intuition congruence|done]);
    revert H; generalize m0 end.
  induction Hopts as [|opt opts Hk _ IH]; intros m Hm.
  - simpl. destruct Hm as [[? ? ? ? ?] _]. constructor; simpl; try done.
  - simpl. apply IH, known_option_wf; done.
Qed.

(** The operations other code performs on a manager. *)
Inductive tm_op :=
| OpSent (clk : nat → Time) (msg : Message) (resent : bool)
| OpReceived (clk : nat → Time) (msg : Message)
| OpSetSend (d : Duration)
| OpSetRecv (d : Duration).

Definition tm_apply `{FloatToInt} (op : tm_op) (m : TimeoutManager) :
    result TimeoutManager :=
  match op with
  | OpSent clk msg r => Ok (Sent clk msg r m)
  | OpReceived clk msg => Received clk msg m
  | OpSetSend d => Ok (SetSendTimeout d m)
  | OpSetRecv d => Ok (SetRecvTimeout d m)
  end.

Fixpoint tm_run `{FloatToInt} (ops : list tm_op) (m : TimeoutManager) :
    result TimeoutManager :=
  match ops with
  | [] => Ok m
  | op :: ops => m' ← tm_apply op m; tm_run ops m'
  end.

(** Field by field preservation of [tm_wf]. *)
Ltac tm_split :=
  constructor; [constructor|..]; simpl; first [done | lia].

Section Manager.
Context `{FloatToInt}.

Lemma Boost_fields clk b :
  originalTimeout (Boost clk b) = originalTimeout b
  ∧ withBoostFrequencyLimit (Boost clk b) = withBoostFrequencyLimit b
  ∧ boostPercent (Boost clk b) = boostPercent b.
Proof using. unfold Boost. by case_if. Qed.

Lemma Sent_wf clk msg r m : tm_wf m → tm_wf (Sent clk msg r m).
Proof using.
  intros [[? ? ? ? ?] ? ? ? ?]. unfold Sent.
  destruct (useStaticTimeout m); [by constructor|].
  destruct msg, r; simpl; try by constructor.
  - destruct (Boost_fields (λ k, clk (S k)) (resendBooster m)) as (?&?&?).
    constructor; simpl; try done; try congruence.
  - destruct (Boost_fields (λ k, clk (S k)) (handshakeBooster m)) as (?&?&?).
    constructor; simpl; try done; try congruence.
Qed.

Lemma updateSmoothedRTT_wf rtt m : tm_wf m → tm_wf (updateSmoothedRTT rtt m).
Proof using.
  intros [[? ? ? ? ?] ? ? ? ?]. unfold updateSmoothedRTT.
  case_if; tm_split.
Qed.

Lemma updateResend_wf rt now m :
  tm_wf m → tm_wf (updateResendTimeoutUnsafe rt now m).
Proof using.
  intros [[? ? ? ? ?] ? Hl ? ?]. unfold updateResendTimeoutUnsafe.
  tm_split.
Qed.

Lemma updateSmoothedRTT_counter rtt m :
  responseCounter (updateSmoothedRTT rtt m) = responseCounter m
  ∧ timeoutUpdateFrequency (updateSmoothedRTT rtt m) = timeoutUpdateFrequency m
  ∧ hasSetDynamicTimeout (updateSmoothedRTT rtt m) = hasSetDynamicTimeout m
  ∧ sentTimes (updateSmoothedRTT rtt m) = sentTimes m.
Proof using. unfold updateSmoothedRTT. by case_if. Qed.

Lemma set_sentTimes_wf t m : tm_wf m → tm_wf (set_sentTimes t m).
Proof using. intros [[? ? ? ? ?] ? ? ? ?]. tm_split. Qed.

Lemma set_responseCounter_wf c m :
  tm_wf m → 0 ≤ c < timeoutUpdateFrequency m → tm_wf (set_responseCounter c m).
Proof using. intros [[? ? ? ? ?] ? ? ? ?] ?. tm_split. Qed.

Lemma set_latestSentSYNTime_wf t m :
  tm_wf m → tm_wf (set_latestSentSYNTime t m).
Proof using. intros [[? ? ? ? ?] ? ? ? ?]. tm_split. Qed.

Lemma Received_wf clk msg m :
  tm_wf m → ∃ m', Received clk msg m = Ok m' ∧ tm_wf m'.
Proof using.
  intros Hwf. unfold Received. destruct (useStaticTimeout m); [eauto|].
  assert (Hsyn : ∀ rt, ∃ m',
    Ok (updateResendTimeoutUnsafe rt (clk 1%nat)
         (updateSmoothedRTT rt (set_latestSentSYNTime 0 m))) = Ok m'
    ∧ tm_wf m').
  { intros. eexists; split; [done|].
    by apply updateResend_wf, updateSmoothedRTT_wf,
      set_latestSentSYNTime_wf. }
  destruct msg; eauto; try (case_if; eauto).
  destruct (sentTimes m !! seq) as [t|]; [|eauto].
  set (rt := timeSub _ t). set (m1 := set_sentTimes _ m).
  assert (Hwf2 : tm_wf (updateSmoothedRTT rt m1))
    by (by apply updateSmoothedRTT_wf, set_sentTimes_wf).
  destruct (updateSmoothedRTT_counter rt m1) as (Hc&Hf&_&_).
  set (m2 := updateSmoothedRTT rt m1) in *.
  destruct (tw_cfg _ Hwf) as [Hfr _ _ _ Hcn].
  change (timeoutUpdateFrequency m1) with (timeoutUpdateFrequency m) in Hf.
  change (responseCounter m1) with (responseCounter m) in Hc.
  simpl. rewrite Hc, Hf.
  rewrite i64_small by (unfold is_i64, MinInt64, MaxInt64 in *; lia).
  destruct (Z.eqb_spec (timeoutUpdateFrequency m) 0); [lia|].
  destruct (_ || _) eqn:Hb.
  - eexists; split; [done|]. apply updateResend_wf.
    change (set_responseCounter 0 (set_responseCounter (responseCounter m + 1) m2))
      with (set_responseCounter 0 m2).
    apply set_responseCounter_wf; [done|]. lia.
  - eexists; split; [done|]. zbool. apply set_responseCounter_wf; [done|].
    rewrite Hf. rewrite Z.rem_mod_nonneg in * by lia.
    assert (responseCounter m + 1 ≠ timeoutUpdateFrequency m); [|lia].
    intros Heq. rewrite Heq, Z_mod_same_full in *. done.
Qed.

Lemma tm_apply_wf op m : tm_wf m → ∃ m', tm_apply op m = Ok m' ∧ tm_wf m'.
Proof using.
  intros Hwf. destruct op; simpl.
  - eauto using Sent_wf.
  - by apply Received_wf.
  - eexists; split; [done|]. destruct Hwf as [[? ? ? ? ?] ? ? ? ?].
    tm_split.
  - eexists; split; [done|]. destruct Hwf as [[? ? ? ? ?] ? ? ? ?].
    tm_split.
Qed.

Lemma tm_run_wf ops m : tm_wf m → ∃ m', tm_run ops m = Ok m' ∧ tm_wf m'.
Proof using.
  revert m. induction ops as [|op ops IH]; intros m Hwf; [by eauto|].
  destruct (tm_apply_wf op m Hwf) as (m1 & Hm1 & Hwf1).
  destruct (IH _ Hwf1) as (m2 & Hm2 & Hwf2).
  exists m2. simpl. rewrite Hm1. done.
Qed.

(** What no operation changes, and the floor of a new resend timeout. *)
Lemma tm_apply_config op m m' :
  tm_apply op m = Ok m' →
  pingTime m' = pingTime m ∧ pongTime m' = pongTime m
  ∧ maxPongTime m' = maxPongTime m
  ∧ (resendTimeout m' = resendTimeout m ∨ minimumResendTimeout ≤ resendTimeout m').
Proof using.
  destruct op; simpl; try (intros [= <-]; simpl; by auto).
  - intros [= <-]. unfold Sent. destruct (useStaticTimeout m); [by auto|].
    destruct msg, resent; simpl; by auto.
  - assert (Hu : ∀ rt now m0, pingTime m0 = pingTime m → pongTime m0 = pongTime m →
      maxPongTime m0 = maxPongTime m →
      pingTime (updateResendTimeoutUnsafe rt now m0) = pingTime m
      ∧ pongTime (updateResendTimeoutUnsafe rt now m0) = pongTime m
      ∧ maxPongTime (updateResendTimeoutUnsafe rt now m0) = maxPongTime m
      ∧ minimumResendTimeout ≤ resendTimeout (updateResendTimeoutUnsafe rt now m0)).
    { intros. unfold updateResendTimeoutUnsafe. simpl. split_and!; try done.
      case_if; lia. }
    assert (Hr : ∀ rt m0, pingTime (updateSmoothedRTT rt m0) = pingTime m0
      ∧ pongTime (updateSmoothedRTT rt m0) = pongTime m0
      ∧ maxPongTime (updateSmoothedRTT rt m0) = maxPongTime m0
      ∧ resendTimeout (updateSmoothedRTT rt m0) = resendTimeout m0).
    { intros. unfold updateSmoothedRTT. by case_if. }
    unfold Received. destruct (useStaticTimeout m); [intros [= <-]; by auto|].
    destruct msg; simpl; repeat case_match; try done; intros [= <-]; auto;
      match goal with |- context [updateSmoothedRTT ?rt ?m0] =>
        destruct (Hr rt m0) as (R1 & R2 & R3 & R4) end;
      first [ match goal with
              | |- context [updateResendTimeoutUnsafe ?rt ?now ?m1] =>
                  destruct (Hu rt now m1) as (? & ? & ? & ?)
              end; [done|done|done|by auto]
            | split_and!; by auto ].
Qed.

Lemma tm_run_config ops m m' :
  tm_run ops m = Ok m' →
  pingTime m' = pingTime m ∧ pongTime m' = pongTime m
  ∧ maxPongTime m' = maxPongTime m
  ∧ (resendTimeout m' = resendTimeout m ∨ minimumResendTimeout ≤ resendTimeout m').
Proof using.
  revert m. induction ops as [|op ops IH]; intros m; simpl.
  { intros [= <-]. auto. }
  destruct (tm_apply op m) as [m1| |] eqn:Ha; simpl; try done. intros Hr.
  apply tm_apply_config in Ha as (A1 & A2 & A3 & A4).
  apply IH in Hr as (B1 & B2 & B3 & B4).
  split_and!; try congruence. destruct B4 as [->|?]; auto.
Qed.

(** *** Karn's rule: a resent packet gives no round-trip sample *)

(** The operation does not send packet [seq] afresh. *)
Definition not_fresh (seq : Z) (op : tm_op) : bool :=
  match op with
  | OpSent _ (MData p) false => negb (Seq p =? seq)
  | _ => true
  end.

Lemma tm_apply_absent op m m' seq :
  not_fresh seq op = true → sentTimes m !! seq = None →
  tm_apply op m = Ok m' → sentTimes m' !! seq = None.
Proof using.
  intros Hnf Hn Hop. destruct op as [clk msg r|clk msg|d|d]; simpl in *;
    try (by injection Hop as <-).
  - injection Hop as <-. unfold Sent. destruct (useStaticTimeout m); [done|].
    destruct msg as [p| | | | |], r; try done; simpl.
    + by rewrite lookup_delete_None; right.
    + zbool. by rewrite lookup_insert_ne.
  - unfold Received in Hop. destruct (useStaticTimeout m); [by injection Hop as <-|].
    destruct msg as [p|s| | | |]; try (by injection Hop as <-).
    2,3: case_if_in Hop; injection Hop as <-; [done|]; simpl;
      unfold updateSmoothedRTT; by case_if.
    destruct (sentTimes m !! s) as [t|] eqn:Hs; [|by injection Hop as <-].
    set (m2 := updateSmoothedRTT _ _) in *.
    assert (Hm2 : sentTimes m2 = delete s (sentTimes m))
      by (unfold m2, updateSmoothedRTT; by case_if).
    repeat case_if_in Hop; try done; injection Hop as <-; simpl;
      rewrite Hm2, lookup_delete_None; by right.
Qed.

Lemma tm_run_absent ops m m' seq :
  Forall (λ op, not_fresh seq op = true) ops → sentTimes m !! seq = None →
  tm_run ops m = Ok m' → sentTimes m' !! seq = None.
Proof using.
  intros Hops. revert m. induction Hops as [|op ops Hop _ IH]; intros m Hn Hr.
  - by injection Hr as <-.
  - simpl in Hr. destruct (tm_apply op m) as [m1| |] eqn:Hm1; try done.
    eapply IH; [|done]. eapply tm_apply_absent; done.
Qed.

Lemma Received_absent clk seq m :
  sentTimes m !! seq = None → Received clk (MACK seq) m = Ok m.
Proof using. intros Hn. unfold Received. rewrite Hn. by case_if. Qed.

(** *** Reading a timeout back *)

Definition is_finite (f : spec_float) : bool :=
  match f with S754_zero _ | S754_finite _ _ _ => true | _ => false end.

(** Without a boost the current timeout is the original one. *)
Lemma GetCurrentTimeout_unboosted b :
  boostCount b = 0 → is_i64 (originalTimeout b) →
  is_finite (mul32 (float32 (originalTimeout b)) (boostPercent b)) = true →
  GetCurrentTimeout b = originalTimeout b.
Proof using.
  intros Hc Hr Hf. unfold GetCurrentTimeout. rewrite Hc.
  set (f := mul32 _ (boostPercent b)) in *.
  assert (truncate (mul32 f (float32 0)) = Some 0) as Ht
    by (destruct f; try discriminate Hf; reflexivity).
  unfold int64OfFloat. rewrite Ht. simpl. rewrite Z.add_0_r.
  by apply i64_small.
Qed.

(** The branch of an ACK for a packet that was sent once. *)
Lemma Received_sample clk seq m t :
  useStaticTimeout m = false → sentTimes m !! seq = Some t →
  0 ≤ responseCounter m < timeoutUpdateFrequency m →
  timeoutUpdateFrequency m ≤ MaxInt64 →
  Received clk (MACK seq) m =
  let rt := timeSub (clk 0%nat) t in
  let m1 := updateSmoothedRTT rt (set_sentTimes (delete seq (sentTimes m)) m) in
  Ok (if negb (hasSetDynamicTimeout m) ||
         (responseCounter m + 1 =? timeoutUpdateFrequency m)
      then updateResendTimeoutUnsafe rt (clk 1%nat) (set_responseCounter 0 m1)
      else set_responseCounter (responseCounter m + 1) m1).
Proof using.
  intros Hst Hs Hc Hf. unfold Received. rewrite Hst, Hs. cbv zeta.
  set (rt := timeSub _ t).
  destruct (updateSmoothedRTT_counter rt
              (set_sentTimes (delete seq (sentTimes m)) m)) as (E1 & E2 & E3 & _).
  set (m1 := updateSmoothedRTT rt _) in *. simpl in *. rewrite E1, E2, E3.
  rewrite i64_small by (unfold is_i64, MinInt64 in *; lia).
  destruct (Z.eqb_spec (timeoutUpdateFrequency m) 0); [lia|].
  replace (Z.rem (responseCounter m + 1) (timeoutUpdateFrequency m) =? 0)
    with (responseCounter m + 1 =? timeoutUpdateFrequency m).
  { by destruct (negb (hasSetDynamicTimeout m) || _). }
  destruct (Z.eqb_spec (responseCounter m + 1) (timeoutUpdateFrequency m)) as [->|].
  - rewrite Z.rem_same by lia. done.
  - rewrite Z.rem_small by lia. symmetry. apply Z.eqb_neq. lia.
Qed.

End Manager.

(** ** Backoff *)

Definition backoff_wf (b : BackoffWaiter) : Prop :=
  0 ≤ currentBackoff b ∧ 0 < minBackoff b ≤ maxBackoff b
  ∧ maxBackoff b ≤ 2 ^ 62.

Lemma Wait_wf b :
  backoff_wf b →
  let b' := snd (Wait b) in
  backoff_wf b' ∧ minBackoff b' = minBackoff b ∧ maxBackoff b' = maxBackoff b
  ∧ currentBackoff b ≤ currentBackoff b'
  ∧ minBackoff b ≤ currentBackoff b'
  ∧ currentBackoff b' ≤ Z.max (currentBackoff b) (maxBackoff b)
  ∧ (currentBackoff b < maxBackoff b → minBackoff b ≤ currentBackoff b →
     currentBackoff b' = Z.min (2 * currentBackoff b) (maxBackoff b)).
Proof.
  unfold backoff_wf. intros (H0 & H1 & H2).
  change (2 ^ 62) with 4611686018427387904 in *.
  unfold Wait. simpl. destruct (Z.ltb_spec (currentBackoff b) (minBackoff b)).
  - simpl. repeat split; lia.
  - destruct (Z.ltb_spec (currentBackoff b) (maxBackoff b)).
    + simpl. rewrite i64_small by (unfold is_i64, MinInt64, MaxInt64; lia).
      destruct (Z.ltb_spec (maxBackoff b) (currentBackoff b * 2));
        repeat split; lia.
    + repeat split; lia.
Qed.

(** ** Properties *)

(** C22: a manager built with the package's options is well formed, and every
    sequence of [Sent], [Received] and timeout-setting calls, on any messages
    and clock readings, succeeds without a panic and keeps it so: the update
    frequency stays positive and above the response counter, the multipliers
    positive, and each booster keeps the timeout it boosts.  The configured
    ping, pong and maximal pong times never change, and the resend timeout is
    the configured one or at least the minimum. *)
Theorem timeout_manager_invariant `{FloatToInt} opts ops :
  Forall known_option opts →
  let m0 := NewTimeOutManager opts in
  ∃ m, tm_run ops m0 = Ok m ∧ tm_wf m
  ∧ pingTime m = pingTime m0 ∧ pongTime m = pongTime m0
  ∧ maxPongTime m = maxPongTime m0
  ∧ (resendTimeout m = resendTimeout m0
     ∨ minimumResendTimeout ≤ resendTimeout m).
Proof.
  intros Ho m0. destruct (tm_run_wf ops m0 (NewTimeOutManager_wf opts Ho))
    as (m & Hm & Hw).
  exists m. split; [done|]. split; [done|]. by apply (tm_run_config ops).
Qed.

Lemma timeout_manager_invariant_witness : let _ := amd64 in
  ∃ m, tm_run [OpSent (λ _, 5) (MACK 3) false; OpReceived (λ _, 9) (MACK 3)]
         (NewTimeOutManager [WithTimeoutUpdateFrequency 2]) = Ok m ∧ tm_wf m.
Proof.
  intros fl.
  destruct (@timeout_manager_invariant amd64 [WithTimeoutUpdateFrequency 2]
    [OpSent (λ _, 5) (MACK 3) false; OpReceived (λ _, 9) (MACK 3)])
    as (m & Hm & Hw & _).
  - apply List.Forall_cons; [apply ko_freq; vm_compute; discriminate|].
    apply List.Forall_nil.
  - exists m. split; [exact Hm|exact Hw].
Defined.

(** C34: Karn's rule.  Once a data packet has been resent, an ACK for its
    sequence number changes nothing in the manager, whatever happens in
    between, until a new packet with that number is sent for the first time:
    a resent packet never yields a round-trip sample. *)
Theorem resent_packet_gives_no_sample `{FloatToInt} clk clk' p m ops m2 :
  useStaticTimeout m = false →
  Forall (λ op, not_fresh (Seq p) op = true) ops →
  tm_run ops (Sent clk (MData p) true m) = Ok m2 →
  Received clk' (MACK (Seq p)) m2 = Ok m2.
Proof.
  intros Hst Hops Hrun. apply Received_absent.
  eapply tm_run_absent; [exact Hops| |exact Hrun].
  unfold Sent. rewrite Hst. simpl. by rewrite lookup_delete_None; left.
Qed.

Lemma resent_packet_gives_no_sample_witness : let _ := amd64 in
  let p := mkPacketData 4 true false [1] in
  let m := Sent (λ _, 10) (MData p) true
             (Sent (λ _, 3) (MData p) false (NewTimeOutManager [])) in
  Received (λ _, 20) (MACK 4) m = Ok m.
Proof.
  intros fl p m.
  apply (@resent_packet_gives_no_sample amd64 (λ _, 10) (λ _, 20) p
    (Sent (λ _, 3) (MData p) false (NewTimeOutManager [])) [] m).
  - reflexivity.
  - apply List.Forall_nil.
  - reflexivity.
Defined.

(** An ACK for a packet sent once.  The first sample ever, and afterwards
    every [timeoutUpdateFrequency]-th, sets the resend timeout to the
    multiplier times the response time, but to no less than one second, clears
    the boost and restarts the count; the value read back is exactly that
    timeout.  Any other sample leaves the resend timeout alone and counts
    one. *)
Theorem ack_updates_resend_timeout `{FloatToInt} clk seq t m :
  tm_wf m → useStaticTimeout m = false → sentTimes m !! seq = Some t →
  let rt := timeSub (clk 0%nat) t in
  let target := Z.max minimumResendTimeout (resendMultiplier m * rt) in
  is_i64 (resendMultiplier m * rt) →
  is_finite (mul32 (float32 target) (boostPercent (resendBooster m))) = true →
  ∃ m', Received clk (MACK seq) m = Ok m'
  ∧ if negb (hasSetDynamicTimeout m) ||
       (responseCounter m + 1 =? timeoutUpdateFrequency m)
    then GetResendTimeout m' = target ∧ resendTimeout m' = target
         ∧ responseCounter m' = 0 ∧ hasSetDynamicTimeout m' = true
    else GetResendTimeout m' = GetResendTimeout m
         ∧ responseCounter m' = responseCounter m + 1.
Proof.
  intros [[Hf _ _ _ Hc] _ _ _ _] Hst Hs rt target Hr Hfin.
  rewrite (Received_sample _ _ _ t) by (done || lia). cbv zeta. fold rt.
  set (m1 := updateSmoothedRTT rt (set_sentTimes (delete seq (sentTimes m)) m)).
  assert (Hb : resendBooster m1 = resendBooster m
    ∧ resendMultiplier m1 = resendMultiplier m)
    by (unfold m1, updateSmoothedRTT; by case_if).
  destruct Hb as (Hb & Hm).
  eexists. split; [reflexivity|]. case_if.
  - simpl. unfold updateResendTimeoutUnsafe. simpl. rewrite Hm, i64_small by done.
    replace (if resendMultiplier m * rt <? minimumResendTimeout then _ else _)
      with target by (unfold target; case_if; lia).
    split_and!; try done. unfold GetResendTimeout. simpl.
    apply GetCurrentTimeout_unboosted; [done| |]; simpl; rewrite ?Hb; try done.
    unfold target, is_i64 in *.
    change minimumResendTimeout with 1000000000. unfold MinInt64, MaxInt64 in *.
    lia.
  - unfold GetResendTimeout. simpl. by rewrite Hb.
Qed.

Lemma ack_updates_resend_timeout_witness : let _ := amd64 in
  let p := mkPacketData 4 true false [1] in
  let m := Sent (λ _, 0) (MData p) false (NewTimeOutManager []) in
  ∃ m', Received (λ _, 2 * Second) (MACK 4) m = Ok m'
  ∧ GetResendTimeout m' = 10 * Second.
Proof.
  intros fl p m.
  destruct (@ack_updates_resend_timeout amd64 (λ _, 2 * Second) 4 0 m)
    as (m' & H1 & H2).
  - apply Sent_wf, NewTimeOutManager_wf, List.Forall_nil.
  - reflexivity.
  - reflexivity.
  - vm_compute. split; discriminate.
  - reflexivity.
  - exists m'. split; [exact H1|]. exact (proj1 H2).
Defined.

(** With dynamic pong timeouts and at least one round-trip sample, the
    pong timeout is three times (the multiplier) the smoothed round trip
    clamped from below by the base pong time and from above by [maxPongTime]
    and the ping interval; without them it is the base pong time, even when
    that exceeds the ping interval. *)
Theorem pong_time_clamped m :
  0 < pongTime m → 0 < maxPongTime m → 0 < pingTime m →
  is_i64 (pongMultiplier m * smoothedRTT m) →
  GetPongTime m =
    (if dynamicPongTime m && rttInitialized m
     then Z.min (pingTime m) (Z.min (maxPongTime m)
            (Z.max (pongTime m) (pongMultiplier m * smoothedRTT m)))
     else pongTime m)
  ∧ 0 < GetPongTime m.
Proof.
  intros Hp Hm Hi Hr. unfold GetPongTime. rewrite i64_small by done.
  rewrite (proj2 (Z.eqb_neq _ _)) by lia.
  rewrite (proj2 (Z.ltb_lt 0 (maxPongTime m))) by lia.
  rewrite (proj2 (Z.ltb_lt 0 (pingTime m))) by lia.
  destruct (dynamicPongTime m), (rttInitialized m); simpl; try lia.
  set (d := pongMultiplier m * smoothedRTT m) in *.
  destruct (Z.ltb_spec d (pongTime m)).
  - destruct (Z.ltb_spec (maxPongTime m) (pongTime m)); case_if; lia.
  - destruct (Z.ltb_spec (maxPongTime m) d); case_if; lia.
Qed.

Lemma pong_time_clamped_witness :
  GetPongTime (set_rttInitialized true (set_smoothedRTT (10 * Second)
    (NewTimeOutManager [WithKeepalivePing (7 * Second) (3 * Second);
                        WithDynamicPongTimeout 3 (15 * Second)])))
  = 7 * Second.
Proof.
  match goal with |- GetPongTime ?m = _ =>
    destruct (pong_time_clamped m) as [Hp _] end.
  - vm_compute. reflexivity.
  - vm_compute. reflexivity.
  - vm_compute. reflexivity.
  - vm_compute. split; discriminate.
  - etransitivity; [exact Hp|vm_compute; reflexivity].
Defined.

(** Boosting at each of the given times. *)
Definition boostAt (ts : list Time) (b : TimeoutBooster) : TimeoutBooster :=
  fold_left (λ b t, Boost (λ _, t) b) ts b.

(** A rate-limited booster counts at most one boost in any stretch shorter
    than its original timeout, so resending a whole window boosts the timeout
    once. *)
Theorem boost_once_per_timeout t0 ts b :
  withBoostFrequencyLimit b = true → is_i64 (originalTimeout b) →
  Forall (λ t, t0 ≤ t < t0 + originalTimeout b) ts →
  boostCount (boostAt ts b) = boostCount b
  ∨ boostCount (boostAt ts b) = i64 (boostCount b + 1).
Proof.
  intros Hl Hr Hts.
  assert (Hstop : ∀ ts b', withBoostFrequencyLimit b' = true →
    originalTimeout b' = originalTimeout b →
    t0 ≤ lastBoost b' →
    Forall (λ t, t0 ≤ t < t0 + originalTimeout b) ts → boostAt ts b' = b').
  { clear Hts ts. intros ts b' Hl' Ho Hb Hts.
    induction Hts as [|t ts Ht _ IH]; [done|]. simpl. unfold Boost at 1.
    rewrite Hl', Ho. simpl.
    rewrite (proj2 (Z.ltb_lt _ _)); [done|].
    unfold timeSub, is_i64, MinInt64, MaxInt64 in *. lia. }
  induction Hts as [|t ts Ht Hts IH]; [by left|].
  simpl. unfold Boost. case_if; [done|]. right.
  rewrite Hstop; try done. simpl. lia.
Qed.

Lemma boost_once_per_timeout_witness :
  boostCount (boostAt [5; 6; 7] (NewTimeoutBooster (10 * Second) half32 true)) = 0
  ∨ boostCount (boostAt [5; 6; 7] (NewTimeoutBooster (10 * Second) half32 true))
    = i64 (0 + 1).
Proof.
  apply (boost_once_per_timeout 5 [5; 6; 7]
           (NewTimeoutBooster (10 * Second) half32 true)).
  - reflexivity.
  - vm_compute. split; discriminate.
  - repeat (apply List.Forall_cons; [vm_compute; split; [discriminate|reflexivity]|]).
    apply List.Forall_nil.
Defined.

(** The default boost in single-precision arithmetic.  After [k] boosts of
    a one-second timeout the current timeout is one second plus [k] half
    seconds, exactly for the first eight boosts and within a relative error of
    [2^-24] of the increase for the first 2000. *)
Theorem default_boost_schedule (k : nat) (limit : bool) (t : Time) :
  let _ := amd64 in
  (k <= 2000)%nat →
  let current := GetCurrentTimeout (mkTimeoutBooster defaultBoostPercent
                   (Z.of_nat k) defaultResendTimeout limit t) in
  let increase := Z.of_nat k * (500 * Millisecond) in
  Z.abs (current - (Second + increase)) * 2 ^ 24 <= increase
  ∧ ((k <= 8)%nat → current = Second + increase).
Proof.
  intros fl Hk current increase.
  assert (Hall : forallb (λ k,
    let current := GetCurrentTimeout (mkTimeoutBooster defaultBoostPercent
                     (Z.of_nat k) defaultResendTimeout true 0) in
    let increase := Z.of_nat k * (500 * Millisecond) in
    (Z.abs (current - (Second + increase)) * 2 ^ 24 <=? increase)
    && ((8 <? Z.of_nat k) || (current =? Second + increase))) (seq 0 2001) = true)
    by (vm_compute; reflexivity).
  rewrite forallb_forall in Hall. specialize (Hall k).
  rewrite in_seq in Hall. specialize (Hall ltac:(lia)). cbv zeta in Hall.
  change (GetCurrentTimeout _) with current in Hall. fold increase in Hall.
  apply andb_true_iff in Hall as [H1 H2]. split; [lia|].
  intros H8. apply orb_true_iff in H2 as [H2|H2]; lia.
Qed.

Lemma default_boost_schedule_witness : let _ := amd64 in
  GetCurrentTimeout (mkTimeoutBooster defaultBoostPercent (Z.of_nat 3)
    defaultResendTimeout true 0) = Second + Z.of_nat 3 * (500 * Millisecond).
Proof. apply default_boost_schedule; lia. Defined.

(** The backoff between retries.  The first wait is the initial one, the
    second the minimum, and each further one doubles until it stays at the
    maximum. *)
Theorem backoff_schedule k mn mx :
  0 < mn ≤ mx → mx ≤ 2 ^ 62 →
  waits (S k) (NewBackoffWaiter 0 mn mx) =
  0 :: ((λ j, Z.min mx (mn * 2 ^ Z.of_nat j)) <$> seq 0 k).
Proof.
  intros Hm Hx. simpl. destruct (Z.ltb_spec 0 mn); [|lia]. f_equal.
  assert (Hrun : ∀ j, waits k (mkBackoffWaiter (Z.min mx (mn * 2 ^ Z.of_nat j))
      mn mx) = (λ j, Z.min mx (mn * 2 ^ Z.of_nat j)) <$> seq j k).
  2: { specialize (Hrun 0%nat). rewrite Z.pow_0_r, Z.mul_1_r, Z.min_r in Hrun by lia.
       exact Hrun. }
  induction k as [|k IH]; intros j; [done|]. simpl. f_equal.
  rewrite <- IH. f_equal.
  assert (Hj : 0 < 2 ^ Z.of_nat j) by (apply Z.pow_pos_nonneg; lia).
  replace (2 ^ Z.of_nat (S j)) with (2 * 2 ^ Z.of_nat j)
    by (rewrite Nat2Z.inj_succ, Z.pow_succ_r; lia).
  set (c := mn * 2 ^ Z.of_nat j) in *.
  assert (mn ≤ c) by (unfold c; nia).
  replace (mn * (2 * 2 ^ Z.of_nat j)) with (2 * c) by (unfold c; ring).
  change (2 ^ 62) with 4611686018427387904 in *.
  unfold Wait. simpl. destruct (Z.ltb_spec (Z.min mx c) mn); [lia|].
  destruct (Z.ltb_spec (Z.min mx c) mx).
  - rewrite i64_small by (unfold is_i64, MinInt64, MaxInt64; lia).
    f_equal. case_if; lia.
  - f_equal. lia.
Qed.

Lemma backoff_schedule_witness :
  waits 4 (NewBackoffWaiter 0 (1 * Second) (3 * Second)) =
  [0; 1 * Second; 2 * Second; 3 * Second].
Proof.
  rewrite (backoff_schedule 3 (1 * Second) (3 * Second)).
  - vm_compute. reflexivity.
  - vm_compute. split; [reflexivity|discriminate].
  - vm_compute. discriminate.
Defined.
