(* ===== verification/Ticker.v ===== *)
(** * The ping and pong tickers ([gbn/ticker.go])

    [IntervalAwareForceTicker] runs one goroutine that forwards the ticks of a
    clock ticker to the unbuffered channel [Force] while the ticker is active.
    The record carries the program counter of that goroutine. *)

From stdpp Require Import base numbers list tactics relations.
From S2P Require Import Prelude.

(** The loop of [start]: waiting for a clock tick; a tick read and
    [lastTimedTick] updated; past the [IsActive] test; blocked in the inner
    [select]; returned. *)
Inductive loopPC :=
| LRun
| LCheck (tick : Time)
| LPass (tick : Time)
| LForce (tick : Time)
| LDone.

#[global] Instance loopPC_eq_dec : EqDecision loopPC.
Proof. solve_decision. Defined.

Record ticker := mkTicker {
  isActive : bool;
  interval : Duration;
  lastTimedTick : Time;
  loop : loopPC;
  quitClosed : bool
}.

Definition set_loop pc t :=
  mkTicker (isActive t) (interval t) (lastTimedTick t) pc (quitClosed t).
Definition set_active a t :=
  mkTicker a (interval t) (lastTimedTick t) (loop t) (quitClosed t).

(** [time.NewTicker] panics on a non-positive interval. *)
Definition NewIntervalAwareForceTicker (d : Duration) (now : Time) :
    result ticker :=
  if d <=? 0 then Panic NonPositiveInterval
  else Ok (mkTicker false d now LRun false).

Definition IsActive (t : ticker) : bool := isActive t.

(** The goroutine of [start], one program point at a time. *)
Definition loop_clock (tick now : Time) (t : ticker) : ticker :=
  mkTicker (isActive t) (interval t) now (LCheck tick) (quitClosed t).
Definition loop_check (tick : Time) (t : ticker) : ticker :=
  if negb (IsActive t) then set_loop LRun t else set_loop (LPass tick) t.
Definition loop_block (tick : Time) (t : ticker) : ticker :=
  set_loop (LForce tick) t.
Definition loop_quit (t : ticker) : ticker := set_loop LDone t.

(** A receive from [Ticks()] by another goroutine. *)
Definition takeTick (t : ticker) : option (Time * ticker) :=
  match loop t with
  | LForce tick => Some (tick, set_loop LRun t)
  | _ => None
  end.

Definition Resume (t : ticker) : ticker := set_active true t.

(** The non-blocking send on [skip] reaches the goroutine only when it is
    blocked in the inner [select]. *)
Definition Pause (t : ticker) : ticker :=
  let t := set_active false t in
  match loop t with
  | LForce _ => set_loop LRun t
  | _ => t
  end.

(** [close(t.quit); t.wg.Wait()]: the goroutine returns from either select. *)
Definition stopLoop (t : ticker) : result ticker :=
  if quitClosed t then Panic CloseOfClosedChannel
  else Ok (mkTicker (isActive t) (interval t) (lastTimedTick t) LDone true).

Definition Stop (t : ticker) : result ticker := stopLoop (Pause t).

Definition resetWithIntervalLocked (d : Duration) (now : Time) (t : ticker) :
    result ticker :=
  t ← stopLoop t;
  if d <=? 0 then Panic NonPositiveInterval
  else Ok (mkTicker (isActive t) d now LRun false).

Definition ResetWithInterval (d : Duration) (now : Time) (t : ticker) :
    result ticker :=
  resetWithIntervalLocked d now t.

Definition Reset (now : Time) (t : ticker) : result ticker :=
  resetWithIntervalLocked (interval t) now t.

(** [ForceTick]: reset, then hand a tick to the reader of [Force]. *)
Definition ForceTick (now1 now2 : Time) (t : ticker) :
    result (Time * ticker) :=
  t ← resetWithIntervalLocked (interval t) now1 t;
  Ok (now2, t).

Definition LastTimedTick (t : ticker) : Time := lastTimedTick t.

Definition NextTickIn (now : Time) (t : ticker) : Duration :=
  let nextTick := LastTimedTick t + interval t in
  let d := timeSub nextTick now in
  if d <? 0 then 0 else d.

(** The steps of the goroutine and of the readers of [Ticks()]. *)
Inductive ticker_step : ticker → ticker → Prop :=
| tk_clock t tick now : loop t = LRun → ticker_step t (loop_clock tick now t)
| tk_check t tick : loop t = LCheck tick → ticker_step t (loop_check tick t)
| tk_block t tick : loop t = LPass tick → ticker_step t (loop_block tick t)
| tk_take t t' tick : takeTick t = Some (tick, t') → ticker_step t t'
| tk_quit t : quitClosed t = true → ticker_step t (loop_quit t).

(** ** Lemmas *)

(** No tick is past the activity test. *)
Definition no_tick_pending (t : ticker) : bool :=
  match loop t with LPass _ | LForce _ => false | _ => true end.

Definition quiet (t : ticker) : Prop :=
  isActive t = false ∧ no_tick_pending t = true.

Lemma quiet_step t t' : ticker_step t t' → quiet t → quiet t'.
Proof.
  intros Hstep [Ha Hp]. unfold quiet, no_tick_pending in *.
  destruct Hstep as [t tick now H|t tick H|t tick H|t t' tick H|t H];
    simpl; auto.
  - unfold loop_check, IsActive. rewrite Ha. done.
  - by rewrite H in Hp.
  - unfold takeTick in H. destruct (loop t); done.
Qed.

Lemma quiet_no_tick t : quiet t → takeTick t = None.
Proof.
  intros [_ Hp]. unfold takeTick, no_tick_pending in *. by destruct (loop t).
Qed.

Lemma Reset_quiet_pending now t t' :
  Reset now t = Ok t' →
  no_tick_pending t' = true ∧ isActive t' = isActive t
  ∧ interval t' = interval t ∧ lastTimedTick t' = now.
Proof.
  unfold Reset, resetWithIntervalLocked, stopLoop.
  destruct (quitClosed t); [done|]. simpl. case_if; [done|].
  intros [= <-]. done.
Qed.

Lemma quiet_rtc t t' : rtc ticker_step t t' → quiet t → quiet t'.
Proof.
  induction 1 as [|x y z Hxy _ IH]; [done|]. intros Hq.
  by apply IH, (quiet_step x).
Qed.

(** After [Pause], no tick reaches [Ticks()] until the ticker is resumed,
    however the clock ticks, unless the goroutine was between its activity
    test and the inner [select] when [Pause] ran: in that window the tick is
    delivered although the ticker is paused. *)
Theorem pause_silences_ticker t :
  (∃ t' tick t'', rtc ticker_step (Pause t) t' ∧ takeTick t' = Some (tick, t''))
  ↔ ∃ tick, loop t = LPass tick.
Proof.
  split.
  - intros (t' & tick & t'' & Hrtc & Ht).
    assert (Hq : (∃ tk, loop t = LPass tk) ∨ quiet (Pause t)).
    { unfold quiet, no_tick_pending, Pause. simpl.
      destruct (loop t) eqn:Hl; simpl; rewrite ?Hl; eauto. }
    destruct Hq as [Hq|Hq]; [done|].
    by rewrite (quiet_no_tick _ (quiet_rtc _ _ Hrtc Hq)) in Ht.
  - intros [tick Hl].
    exists (loop_block tick (Pause t)), tick, (set_loop LRun (Pause t)). split.
    + apply rtc_once, tk_block. unfold Pause. simpl. by rewrite Hl.
    + done.
Qed.

(** [Reset] restarts the interval: the goroutine has no tick in hand, the
    activity and the interval are kept, and from then on [NextTickIn] counts
    down from the whole interval to zero and never below. *)
Theorem reset_restarts_interval now now' t t' :
  Reset now t = Ok t' → 0 ≤ interval t ≤ MaxInt64 → now ≤ now' →
  takeTick t' = None ∧ IsActive t' = IsActive t
  ∧ NextTickIn now' t' = Z.max 0 (interval t - (now' - now)).
Proof.
  intros Hr Hi Hn. apply Reset_quiet_pending in Hr as (Hq & Ha & Hiv & Hl).
  split_and!.
  - unfold takeTick, no_tick_pending in *. by destruct (loop t').
  - done.
  - unfold NextTickIn, LastTimedTick, timeSub. rewrite Hl, Hiv.
    unfold MaxInt64, MinInt64 in *. case_if; lia.
Qed.

Lemma reset_restarts_interval_witness :
  NextTickIn 13 (mkTicker true 10 5 LRun false) = Z.max 0 (10 - (13 - 5)).
Proof.
  apply (reset_restarts_interval 5 13 (mkTicker true 10 2 (LForce 2) false)
           (mkTicker true 10 5 LRun false)).
  - reflexivity.
  - vm_compute. split; discriminate.
  - discriminate.
Defined.
