(* ===== verification/GbnConn.v ===== *)
(** * A Go-Back-N connection ([gbn/gbn_conn.go], [gbn/options.go])

    [GoBackNConn] with the operations of its two goroutines.
    [sendPacketsForever] and [receivePacketsForever] are cut at the points
    where they block, so that every interleaving of the two is a sequence of
    the steps below; everything between two such points runs as in the
    source. *)

From stdpp Require Import base numbers list strings gmap tactics.
From S2P Require Import Prelude Messages GoFloat Timeout Ticker Syncer Queue.

Definition DefaultN : Z := 20.

Definition errTransportClosing : error := ErrMsg "gbn transport is closing".
Definition errKeepaliveTimeout : error := ErrMsg "no pong received".
Definition errSendTimeout : error := ErrMsg "send timeout".
Definition errRecvTimeout : error := ErrMsg "receive timeout".

(** ** Configuration ([gbn/config.go], [gbn/options.go]) *)

(** The two stream functions are the environment of the steps below; [onFIN] is
    kept as whether the callback is set. *)
Record config := mkConfig {
  cfg_n : Z;
  cfg_s : Z;
  maxChunkSize : Z;
  onFIN : bool;
  timeoutOptions : list (TimeoutManager → TimeoutManager)
}.

Definition newConfig (n : Z) : config := mkConfig n (u8 (n + 1)) 0 false [].

Definition WithMaxSendSize (size : Z) (c : config) : config :=
  mkConfig (cfg_n c) (cfg_s c) size (onFIN c) (timeoutOptions c).
Definition WithTimeoutOptions (opts : list (TimeoutManager → TimeoutManager))
    (c : config) : config :=
  mkConfig (cfg_n c) (cfg_s c) (maxChunkSize c) (onFIN c) opts.
Definition WithOnFIN (c : config) : config :=
  mkConfig (cfg_n c) (cfg_s c) (maxChunkSize c) true (timeoutOptions c).

(** ** State *)

(** The program points of [sendPacketsForever]: the outer [select]; a packet
    queued and about to be sent; the size test of the inner loop; the inner
    [select] with a full queue; inside [resend] with the loop variable [base]
    and the snapshot [top]; inside [waitForSync]; returned.  [back] is where a
    resend returns to: the outer [select] ([false]) or the size test. *)
Inductive sendPCs :=
| SSelect
| SSend (packet : PacketData)
| SCheck
| SFull
| SResend (base top : Z) (back : bool)
| SSync (back : bool)
| SDone (e : option error).

(** The program points of [receivePacketsForever]: the head of the loop, the
    blocking send to [recvDataChan], and returned. *)
Inductive recvPCs :=
| RLoop
| RPush (m : PacketData)
| RDone (e : option error).

Record GoBackNConn := mkGoBackNConn {
  g_cfg : config;
  sendQueue : queue;
  recvSeq : Z;
  recvDataChan : list PacketData;
  resendSignal : bool;
  pingTicker : option ticker;
  pongTicker : option ticker;
  ctxDone : bool;
  remoteClosed : bool;
  timeoutManager : TimeoutManager;
  g_quit : bool;
  closeOnce : bool;
  finCallbacks : nat;
  sendPC : sendPCs;
  recvPC : recvPCs;
  lastNackSeq : Z;
  lastNackTime : Time
}.

Definition set_g_cfg (v : config) (g : GoBackNConn) : GoBackNConn :=
  mkGoBackNConn v (sendQueue g) (recvSeq g) (recvDataChan g) (resendSignal
    g) (pingTicker g) (pongTicker g) (ctxDone g) (remoteClosed g)
    (timeoutManager g) (g_quit g) (closeOnce g) (finCallbacks g) (sendPC g)
    (recvPC g) (lastNackSeq g) (lastNackTime g).
Definition set_sendQueue (v : queue) (g : GoBackNConn) : GoBackNConn :=
  mkGoBackNConn (g_cfg g) v (recvSeq g) (recvDataChan g) (resendSignal g)
    (pingTicker g) (pongTicker g) (ctxDone g) (remoteClosed g)
    (timeoutManager g) (g_quit g) (closeOnce g) (finCallbacks g) (sendPC g)
    (recvPC g) (lastNackSeq g) (lastNackTime g).
Definition set_recvSeq (v : Z) (g : GoBackNConn) : GoBackNConn :=
  mkGoBackNConn (g_cfg g) (sendQueue g) v (recvDataChan g) (resendSignal g)
    (pingTicker g) (pongTicker g) (ctxDone g) (remoteClosed g)
    (timeoutManager g) (g_quit g) (closeOnce g) (finCallbacks g) (sendPC g)
    (recvPC g) (lastNackSeq g) (lastNackTime g).
Definition set_recvDataChan (v : list PacketData) (g : GoBackNConn) : GoBackNConn :=
  mkGoBackNConn (g_cfg g) (sendQueue g) (recvSeq g) v (resendSignal g)
    (pingTicker g) (pongTicker g) (ctxDone g) (remoteClosed g)
    (timeoutManager g) (g_quit g) (closeOnce g) (finCallbacks g) (sendPC g)
    (recvPC g) (lastNackSeq g) (lastNackTime g).
Definition set_resendSignal (v : bool) (g : GoBackNConn) : GoBackNConn :=
  mkGoBackNConn (g_cfg g) (sendQueue g) (recvSeq g) (recvDataChan g) v
    (pingTicker g) (pongTicker g) (ctxDone g) (remoteClosed g)
    (timeoutManager g) (g_quit g) (closeOnce g) (finCallbacks g) (sendPC g)
    (recvPC g) (lastNackSeq g) (lastNackTime g).
Definition set_pingTicker (v : option ticker) (g : GoBackNConn) : GoBackNConn :=
  mkGoBackNConn (g_cfg g) (sendQueue g) (recvSeq g) (recvDataChan g)
    (resendSignal g) v (pongTicker g) (ctxDone g) (remoteClosed g)
    (timeoutManager g) (g_quit g) (closeOnce g) (finCallbacks g) (sendPC g)
    (recvPC g) (lastNackSeq g) (lastNackTime g).
Definition set_pongTicker (v : option ticker) (g : GoBackNConn) : GoBackNConn :=
  mkGoBackNConn (g_cfg g) (sendQueue g) (recvSeq g) (recvDataChan g)
    (resendSignal g) (pingTicker g) v (ctxDone g) (remoteClosed g)
    (timeoutManager g) (g_quit g) (closeOnce g) (finCallbacks g) (sendPC g)
    (recvPC g) (lastNackSeq g) (lastNackTime g).
Definition set_ctxDone (v : bool) (g : GoBackNConn) : GoBackNConn :=
  mkGoBackNConn (g_cfg g) (sendQueue g) (recvSeq g) (recvDataChan g)
    (resendSignal g) (pingTicker g) (pongTicker g) v (remoteClosed g)
    (timeoutManager g) (g_quit g) (closeOnce g) (finCallbacks g) (sendPC g)
    (recvPC g) (lastNackSeq g) (lastNackTime g).
Definition set_remoteClosed (v : bool) (g : GoBackNConn) : GoBackNConn :=
  mkGoBackNConn (g_cfg g) (sendQueue g) (recvSeq g) (recvDataChan g)
    (resendSignal g) (pingTicker g) (pongTicker g) (ctxDone g) v
    (timeoutManager g) (g_quit g) (closeOnce g) (finCallbacks g) (sendPC g)
    (recvPC g) (lastNackSeq g) (lastNackTime g).
Definition set_timeoutManager (v : TimeoutManager) (g : GoBackNConn) : GoBackNConn :=
  mkGoBackNConn (g_cfg g) (sendQueue g) (recvSeq g) (recvDataChan g)
    (resendSignal g) (pingTicker g) (pongTicker g) (ctxDone g) (remoteClosed
    g) v (g_quit g) (closeOnce g) (finCallbacks g) (sendPC g) (recvPC g)
    (lastNackSeq g) (lastNackTime g).
Definition set_g_quit (v : bool) (g : GoBackNConn) : GoBackNConn :=
  mkGoBackNConn (g_cfg g) (sendQueue g) (recvSeq g) (recvDataChan g)
    (resendSignal g) (pingTicker g) (pongTicker g) (ctxDone g) (remoteClosed
    g) (timeoutManager g) v (closeOnce g) (finCallbacks g) (sendPC g)
    (recvPC g) (lastNackSeq g) (lastNackTime g).
Definition set_closeOnce (v : bool) (g : GoBackNConn) : GoBackNConn :=
  mkGoBackNConn (g_cfg g) (sendQueue g) (recvSeq g) (recvDataChan g)
    (resendSignal g) (pingTicker g) (pongTicker g) (ctxDone g) (remoteClosed
    g) (timeoutManager g) (g_quit g) v (finCallbacks g) (sendPC g) (recvPC
    g) (lastNackSeq g) (lastNackTime g).
Definition set_finCallbacks (v : nat) (g : GoBackNConn) : GoBackNConn :=
  mkGoBackNConn (g_cfg g) (sendQueue g) (recvSeq g) (recvDataChan g)
    (resendSignal g) (pingTicker g) (pongTicker g) (ctxDone g) (remoteClosed
    g) (timeoutManager g) (g_quit g) (closeOnce g) v (sendPC g) (recvPC g)
    (lastNackSeq g) (lastNackTime g).
Definition set_sendPC (v : sendPCs) (g : GoBackNConn) : GoBackNConn :=
  mkGoBackNConn (g_cfg g) (sendQueue g) (recvSeq g) (recvDataChan g)
    (resendSignal g) (pingTicker g) (pongTicker g) (ctxDone g) (remoteClosed
    g) (timeoutManager g) (g_quit g) (closeOnce g) (finCallbacks g) v
    (recvPC g) (lastNackSeq g) (lastNackTime g).
Definition set_recvPC (v : recvPCs) (g : GoBackNConn) : GoBackNConn :=
  mkGoBackNConn (g_cfg g) (sendQueue g) (recvSeq g) (recvDataChan g)
    (resendSignal g) (pingTicker g) (pongTicker g) (ctxDone g) (remoteClosed
    g) (timeoutManager g) (g_quit g) (closeOnce g) (finCallbacks g) (sendPC
    g) v (lastNackSeq g) (lastNackTime g).
Definition set_lastNackSeq (v : Z) (g : GoBackNConn) : GoBackNConn :=
  mkGoBackNConn (g_cfg g) (sendQueue g) (recvSeq g) (recvDataChan g)
    (resendSignal g) (pingTicker g) (pongTicker g) (ctxDone g) (remoteClosed
    g) (timeoutManager g) (g_quit g) (closeOnce g) (finCallbacks g) (sendPC
    g) (recvPC g) v (lastNackTime g).
Definition set_lastNackTime (v : Time) (g : GoBackNConn) : GoBackNConn :=
  mkGoBackNConn (g_cfg g) (sendQueue g) (recvSeq g) (recvDataChan g)
    (resendSignal g) (pingTicker g) (pongTicker g) (ctxDone g) (remoteClosed
    g) (timeoutManager g) (g_quit g) (closeOnce g) (finCallbacks g) (sendPC
    g) (recvPC g) (lastNackSeq g) v.

(** [newGoBackNConn]. *)
Definition newGoBackNConn (cfg : config) : GoBackNConn :=
  let tm := NewTimeOutManager (timeoutOptions cfg) in
  mkGoBackNConn cfg (newQueue (u8 (cfg_n cfg + 1))) 0 [] false None None false
    false tm false false 0 SSelect RLoop 0 0.

Definition setN (n : Z) (g : GoBackNConn) : GoBackNConn :=
  let cfg := g_cfg g in
  let cfg := mkConfig n (u8 (n + 1)) (maxChunkSize cfg) (onFIN cfg)
               (timeoutOptions cfg) in
  set_sendQueue (newQueue (u8 (n + 1))) (set_recvDataChan [] (set_g_cfg cfg g)).

Definition SetSendTimeout (d : Duration) (g : GoBackNConn) : GoBackNConn :=
  set_timeoutManager (Timeout.SetSendTimeout d (timeoutManager g)) g.

Definition SetRecvTimeout (d : Duration) (g : GoBackNConn) : GoBackNConn :=
  set_timeoutManager (Timeout.SetRecvTimeout d (timeoutManager g)) g.

(** ** The environment of a step

    The readings of the clock and the outcomes of [sendToStream] are given by
    the environment; [wire] collects the packets handed to [sendToStream]. *)
Record io := mkIO {
  clock : nat → Time;
  reads : nat;
  sendErr : nat → option error;
  wire : list bytes
}.

Abbreviation St := (GoBackNConn * io)%type.

Section Conn.
Context `{FloatToInt}.

Definition getG {A} (f : GoBackNConn → A) : M St A := λ s, (Ok (f s.1), s).
Definition modG (f : GoBackNConn → GoBackNConn) : M St unit :=
  λ s, (Ok tt, (f s.1, s.2)).
Definition tryG {A} (f : GoBackNConn → result (A * GoBackNConn)) : M St A :=
  λ s, match f s.1 with
       | Ok (a, g) => (Ok a, (g, s.2))
       | Err e => (Err e, s)
       | Panic p => (Panic p, s)
       end.

(** The next [k] readings of the clock. *)
Definition clocks (k : nat) : M St (nat → Time) := λ s,
  let i := s.2 in
  (Ok (λ j, clock i (reads i + j)%nat),
   (s.1, mkIO (clock i) (reads i + k) (sendErr i) (wire i))).
Definition time_now : M St Time := clk ← clocks 1; mret (clk 0%nat).

(** [fmt.Errorf("msg: %s", err)]. *)
Definition wrapErr {A} (msg : string) (m : M St A) : M St A := λ s,
  match m s with
  | (Err e, s') => (Err (ErrWrap msg e), s')
  | r => r
  end.

Definition sendToStream (b : bytes) : M St unit := λ s,
  let i := s.2 in
  match sendErr i (length (wire i)) with
  | Some e => (Err e, s)
  | None => (Ok tt, (s.1, mkIO (clock i) (reads i) (sendErr i) (wire i ++ [b])))
  end.

Definition sendPacket (msg : Message) (isResend : bool) : M St unit :=
  let b := Serialize msg in
  _ ← wrapErr "error calling sendToStream" (sendToStream b);
  clk ← clocks 3;
  modG (λ g, set_timeoutManager (Sent clk msg isResend (timeoutManager g)) g).

(** A method call on a ticker field, which is nil before [start]. *)
Definition onTicker (get : GoBackNConn → option ticker)
    (set : option ticker → GoBackNConn → GoBackNConn)
    (f : ticker → result ticker) : M St unit :=
  tryG (λ g, match get g with
             | None => Panic NilDereference
             | Some t => t' ← f t; Ok (tt, set (Some t') g)
             end).

(** [g.resendTicker.Reset(g.timeoutManager.GetResendTimeout())]: a
    [time.Ticker] panics on an interval that is not positive; when it ticks is
    up to the environment. *)
Definition resetResendTicker : M St unit :=
  tryG (λ g, if GetResendTimeout (timeoutManager g) <=? 0
             then Panic NonPositiveInterval else Ok (tt, g)).

(** [start]: the tickers, then the two goroutines. *)
Definition start : M St unit :=
  t1 ← time_now;
  _ ← tryG (λ g, t ← NewIntervalAwareForceTicker
                       (GetPingTime (timeoutManager g)) t1;
                 Ok (tt, set_pingTicker (Some (Resume t)) g));
  t2 ← time_now;
  _ ← tryG (λ g, t ← NewIntervalAwareForceTicker
                       (GetPongTime (timeoutManager g)) t2;
                 Ok (tt, set_pongTicker (Some t) g));
  _ ← resetResendTicker;
  modG (λ g, set_sendPC SSelect (set_recvPC RLoop g)).

(** ** [Close]

    Up to [g.wg.Wait()]; [CloseEnd] is what follows once both goroutines have
    returned. *)
Definition Close : M St unit :=
  done ← getG closeOnce;
  if (done : bool) then mret tt else
  _ ← modG (set_closeOnce true);
  _ ← tryG (λ g, if g_quit g then Panic CloseOfClosedChannel
                 else Ok (tt, set_g_quit true g));
  rc ← getG remoteClosed;
  _ ← (if (rc : bool) then mret tt
       else λ s, match sendPacket MFIN false s with
                 | (Err _, s') => (Ok tt, s')
                 | r => r
                 end);
  _ ← modG (set_ctxDone true);
  tryG (λ g, q ← stop (sendQueue g); Ok (tt, set_sendQueue q g)).

Definition CloseEnd : M St unit :=
  tryG (λ g, match pingTicker g with
             | None => Ok (tt, g)
             | Some t => t' ← Stop t; Ok (tt, set_pingTicker (Some t') g)
             end).

(** ** [receivePacketsForever] *)

(** The non-blocking send on [receivedACKSignal]: received only when the
    sending goroutine is blocked in its inner [select]. *)
Definition signalACK (g : GoBackNConn) : GoBackNConn :=
  match sendPC g with SFull => set_sendPC SCheck g | _ => g end.

Definition handleData (m : PacketData) : M St recvPCs :=
  rs ← getG recvSeq;
  if Seq m =? rs then
    _ ← sendPacket (MACK (Seq m)) false;
    _ ← tryG (λ g, r ← umod (u8 (recvSeq g + 1)) (cfg_s (g_cfg g));
                   Ok (tt, set_recvSeq r g));
    if IsPing m then mret RLoop else mret (RPush m)
  else
    t ← time_now;
    lastTime ← getG lastNackTime;
    lastSeq ← getG lastNackSeq;
    timeout ← getG (λ g, GetResendTimeout (timeoutManager g));
    let recentlySent := timeSub t lastTime <? i64 (timeout * 2) in
    if (lastSeq =? rs) && recentlySent then mret RLoop
    else
      _ ← sendPacket (MNACK rs) false;
      t' ← time_now;
      _ ← modG (λ g, set_lastNackSeq rs (set_lastNackTime t' g));
      mret RLoop.

Definition handleACK (seq : Z) : M St recvPCs :=
  got ← tryG (λ g, r ← Queue.processACK seq (sendQueue g);
                   Ok (r.1, set_sendQueue r.2 g));
  _ ← modG (λ g, if (got : bool) then signalACK g else g);
  mret RLoop.

Definition handleNACK (pick : bool) (seq : Z) : M St recvPCs :=
  r ← tryG (λ g, let r := Queue.processNACK pick seq (sendQueue g) in
                 Ok (r.1, set_sendQueue r.2 g));
  let '(shouldResend, bumped) := (r : bool * bool) in
  if negb shouldResend then mret RLoop
  else
    _ ← modG (λ g, if bumped then signalACK g else g);
    _ ← modG (set_resendSignal true);
    mret RLoop.

Definition handleFIN : M St recvPCs :=
  _ ← tryG (λ g, if remoteClosed g then Panic CloseOfClosedChannel
                 else Ok (tt, set_remoteClosed true g));
  _ ← modG (λ g, if onFIN (g_cfg g)
                 then set_finCallbacks (S (finCallbacks g)) g else g);
  failM errTransportClosing.

(** One iteration of the loop on the bytes [recvFromStream] returned. *)
Definition handlePacket (pick : bool) (b : bytes) : M St recvPCs :=
  msg ← wrapErr "deserialize error" (liftR (Deserialize b));
  clk ← clocks 2;
  _ ← tryG (λ g, tm ← Received clk msg (timeoutManager g);
                 Ok (tt, set_timeoutManager tm g));
  t ← time_now;
  _ ← onTicker pingTicker set_pingTicker (Reset t);
  _ ← onTicker pongTicker set_pongTicker
        (λ t, Ok (if IsActive t then Pause t else t));
  _ ← resetResendTicker;
  match msg with
  | MData m => handleData m
  | MACK seq => handleACK seq
  | MNACK seq => handleNACK pick seq
  | MFIN => handleFIN
  | _ => failM (ErrMsg "received unexpected message")
  end.

(** What the goroutine is woken by. *)
Inductive recvEvent :=
| REvBytes (pick : bool) (b : bytes)
| REvStreamErr (e : error)
| REvPush
| REvQuit.

(** The goroutine's next program point; an error ends it.  [None] when the
    event cannot occur there. *)
Definition recvStep (ev : recvEvent) (s : St) : option (result unit * St) :=
  let finish (r : result recvPCs * St) :=
    match r with
    | (Ok pc, s') => (Ok tt, (set_recvPC pc s'.1, s'.2))
    | (Err e, s') => (Ok tt, (set_recvPC (RDone (Some e)) s'.1, s'.2))
    | (Panic p, s') => (Panic p, s')
    end in
  match recvPC s.1, ev with
  | RLoop, REvQuit =>
      if g_quit s.1 then Some (finish (Ok (RDone None), s)) else None
  | RLoop, REvBytes pick b => Some (finish (handlePacket pick b s))
  | RLoop, REvStreamErr e =>
      Some (finish
        (Err (ErrWrap "error receiving from recvFromStream" e), s))
  | RPush m, REvPush =>
      if len (recvDataChan s.1) <? cfg_n (g_cfg s.1)
      then Some (finish
        (Ok RLoop, (set_recvDataChan (recvDataChan s.1 ++ [m]) s.1, s.2)))
      else None
  | RPush m, REvQuit =>
      if g_quit s.1 then Some (finish (Ok (RDone None), s)) else None
  | _, _ => None
  end.

(** ** [sendPacketsForever] *)

Inductive sendEvent :=
| SEvQuit
| SEvResendSignal
| SEvResendTick
| SEvPing
| SEvPong
| SEvData (p : PacketData)
| SEvGo.

(** The end of [resendQueue], once [queue.resend] has returned. *)
Definition endResend (back : bool) : M St sendPCs :=
  _ ← resetResendTicker; mret (if back then SCheck else SSelect).

(** [resendQueue] up to the send loop of [queue.resend]. *)
Definition beginResend (back : bool) : M St sendPCs :=
  hs ← getG (λ g, GetHandshakeTimeout (timeoutManager g));
  clk ← clocks 2;
  r ← tryG (λ g, r ← resendBegin hs (clk 0%nat) (clk 1%nat) (sendQueue g);
                 Ok (r.1, set_sendQueue r.2 g));
  match (r : option (Z * Z)) with
  | None => endResend back
  | Some (base, top) => mret (SResend base top back)
  end.

(** Queue a new packet. *)
Definition enqueue (p : PacketData) : M St sendPCs :=
  p' ← tryG (λ g, r ← addPacket p (sendQueue g);
                  Ok (r.1, set_sendQueue r.2 g));
  mret (SSend p').

(** The branch of [pingTicker.Ticks()]. *)
Definition handlePing : M St sendPCs :=
  pong ← getG pongTicker;
  match (pong : option ticker) with
  | None => liftR (Panic NilDereference)
  | Some t =>
      match takeTick t with
      | Some (_, t') =>
          _ ← modG (set_pongTicker (Some t')); failM errKeepaliveTimeout
      | None =>
          now1 ← time_now;
          pongTime ← getG (λ g, GetPongTime (timeoutManager g));
          _ ← onTicker pongTicker set_pongTicker
                (λ t, t' ← ResetWithInterval pongTime now1 t; Ok (Resume t'));
          now2 ← time_now;
          _ ← onTicker pingTicker set_pingTicker (Reset now2);
          enqueue (mkPacketData 0 false true [])
      end
  end.

(** One slot of the resend loop, or its end. *)
Definition stepResend (base top : Z) (back : bool) : M St sendPCs :=
  if base =? top then
    _ ← modG (λ g, set_sendQueue (set_syncer
              (waitForSync_enter (q_syncer (sendQueue g))) (sendQueue g)) g);
    mret (SSync back)
  else
    r ← tryG (λ g, r ← resendNext base (sendQueue g); Ok (r, g));
    let '(packet, base') := (r : PacketData * Z) in
    _ ← sendPacket (MData packet) true;
    mret (SResend base' top back).

Definition sendBody (ev : sendEvent) (g : GoBackNConn) :
    option (M St sendPCs) :=
  let onSignal back :=
    if resendSignal g
    then Some (_ ← modG (set_resendSignal false); beginResend back)
    else None in
  match sendPC g, ev with
  | SSelect, SEvQuit => if g_quit g then Some (mret (SDone None)) else None
  | SSelect, SEvResendSignal => onSignal false
  | SSelect, SEvResendTick => Some (beginResend false)
  | SSelect, SEvPing =>
      match pingTicker g with
      | Some t =>
          match takeTick t with
          | Some (_, t') =>
              Some (_ ← modG (set_pingTicker (Some t')); handlePing)
          | None => None
          end
      | None => None
      end
  | SSelect, SEvPong =>
      match pongTicker g with
      | Some t =>
          match takeTick t with
          | Some (_, t') =>
              Some (_ ← modG (set_pongTicker (Some t'));
                    failM errKeepaliveTimeout)
          | None => None
          end
      | None => None
      end
  | SSelect, SEvData p => Some (enqueue p)
  | SSend p, SEvGo => Some (_ ← sendPacket (MData p) false; mret SCheck)
  | SCheck, SEvGo =>
      Some (mret (if size (sendQueue g) <? cfg_n (g_cfg g) then SSelect
                  else SFull))
  | SFull, SEvQuit => if g_quit g then Some (mret (SDone None)) else None
  | SFull, SEvResendSignal => onSignal true
  | SFull, SEvResendTick => Some (beginResend true)
  | SResend base top back, SEvGo => Some (stepResend base top back)
  | SSync back, SEvGo =>
      match sy_waiter (q_syncer (sendQueue g)) with
      | WOut => Some (endResend back)
      | _ => None
      end
  | _, _ => None
  end.

Definition sendStep (ev : sendEvent) (s : St) : option (result unit * St) :=
  match sendBody ev s.1 with
  | None => None
  | Some m =>
      Some match m s with
           | (Ok pc, s') => (Ok tt, (set_sendPC pc s'.1, s'.2))
           | (Err e, s') => (Ok tt, (set_sendPC (SDone (Some e)) s'.1, s'.2))
           | (Panic p, s') => (Panic p, s')
           end
  end.

End Conn.

(** ** [Send] and [Recv]

    [Send] hands the chunks of a message to the sending goroutine; what its
    [select] does for each chunk is given by the environment. *)
Inductive sendSel := SelSent | SelSendTimeout | SelSendQuit.

(** The chunks of [Send]; each iteration consumes at least one byte when
    [maxChunk] is positive, and [None] is returned when the fuel runs out. *)
Fixpoint chunks (fuel : nat) (maxChunk sentBytes : Z) (data : bytes) :
    option (result (list PacketData)) :=
  if len data <=? sentBytes then Some (Ok [])
  else match fuel with
  | O => None
  | S fuel =>
      let remaining := len data - sentBytes in
      if remaining <=? maxChunk then
        match slice data sentBytes (len data) with
        | Ok payload =>
            match chunks fuel maxChunk (sentBytes + remaining) data with
            | Some (Ok rest) =>
                Some (Ok (mkPacketData 0 true false payload :: rest))
            | r => r
            end
        | Err e => Some (Err e)
        | Panic p => Some (Panic p)
        end
      else
        match slice data sentBytes (sentBytes + maxChunk) with
        | Ok payload =>
            match chunks fuel maxChunk (sentBytes + maxChunk) data with
            | Some (Ok rest) =>
                Some (Ok (mkPacketData 0 false false payload :: rest))
            | r => r
            end
        | Err e => Some (Err e)
        | Panic p => Some (Panic p)
        end
  end.

(** The packets [Send] hands over when nothing goes wrong. *)
Definition sendPackets (cfg : config) (data : bytes) :
    option (result (list PacketData)) :=
  if maxChunkSize cfg =? 0
  then Some (Ok [mkPacketData 0 true false data])
  else chunks (length data) (maxChunkSize cfg) 0 data.

(** Hand the packets over one by one: the packets handed over and the error
    returned. *)
Fixpoint handOver (ps : list PacketData) (sels : list sendSel) :
    option (list PacketData * option error) :=
  match ps, sels with
  | [], _ => Some ([], None)
  | p :: ps, SelSent :: sels =>
      match handOver ps sels with
      | Some (sent, e) => Some (p :: sent, e)
      | None => None
      end
  | _ :: _, SelSendTimeout :: _ => Some ([], Some errSendTimeout)
  | _ :: _, SelSendQuit :: _ =>
      Some ([], Some (ErrMsg "cannot send, gbn exited"))
  | _ :: _, [] => None
  end.

Definition Send (g : GoBackNConn) (data : bytes) (sels : list sendSel) :
    option (list PacketData * option error) :=
  if g_quit g then Some ([], Some EOF)
  else match sendPackets (g_cfg g) data with
       | Some (Ok ps) => handOver ps sels
       | _ => None
       end.

(** [Recv]: the loop over its [select], whose outcomes the environment gives;
    a message consumes one packet of [recvDataChan]. *)
Inductive recvSel := SelRecvQuit | SelRecvTimeout | SelMsg.

Fixpoint recvLoop (b : bytes) (chan : list PacketData) (sels : list recvSel)
    {struct sels} : option (result bytes * list PacketData) :=
  match sels with
  | [] => None
  | SelRecvQuit :: _ =>
      Some (Err (ErrMsg "cannot receive, gbn exited"), chan)
  | SelRecvTimeout :: _ => Some (Err errRecvTimeout, chan)
  | SelMsg :: sels =>
      match chan with
      | [] => None
      | m :: chan =>
          let b := b ++ Payload m in
          if FinalChunk m then Some (Ok b, chan) else recvLoop b chan sels
      end
  end.

Definition Recv (g : GoBackNConn) (sels : list recvSel) :
    option (result bytes * GoBackNConn) :=
  if g_quit g then Some (Err EOF, g)
  else match recvLoop [] (recvDataChan g) sels with
       | Some (r, chan) => Some (r, set_recvDataChan chan g)
       | None => None
       end.

(** ** Splitting and reassembly *)

(** The complete messages in a sequence of packets, [acc] being the bytes of
    the message under way. *)
Fixpoint messagesOf (acc : bytes) (ps : list PacketData) : list bytes :=
  match ps with
  | [] => []
  | m :: ps =>
      let b := acc ++ Payload m in
      if FinalChunk m then b :: messagesOf [] ps else messagesOf b ps
  end.

(** The packets of one message: only the last is marked final. *)
Definition one_message (data : bytes) (ps : list PacketData) : Prop :=
  ∃ init p, ps = init ++ [p]
  ∧ Forall (λ q, FinalChunk q = false ∧ IsPing q = false) init
  ∧ FinalChunk p = true ∧ IsPing p = false
  ∧ mjoin (Payload <$> ps) = data.

Lemma chunks_spec fuel maxChunk sent data :
  0 < maxChunk → 0 ≤ sent → len data - sent ≤ Z.of_nat fuel →
  ∃ ps, chunks fuel maxChunk sent data = Some (Ok ps)
  ∧ Forall (λ p, 0 < len (Payload p) ≤ maxChunk) ps
  ∧ (if len data <=? sent then ps = []
     else one_message (drop (Z.to_nat sent) data) ps).
Proof.
  intros Hmax. revert sent. induction fuel as [|fuel IH]; intros sent H0 Hf.
  { simpl. destruct (Z.leb_spec (len data) sent); [by exists []|lia]. }
  simpl. destruct (Z.leb_spec (len data) sent) as [Hle|Hlt]; [by exists []|].
  assert (Hlen : len (drop (Z.to_nat sent) data) = len data - sent)
    by (unfold len in *; rewrite length_drop; lia).
  destruct (Z.leb_spec (len data - sent) maxChunk).
  - rewrite slice_ok by lia. rewrite take_ge by (unfold len in *; lia).
    destruct (IH (sent + (len data - sent))) as (ps & Hps & _ & Hnil); [lia..|].
    rewrite Hps. destruct (Z.leb_spec (len data) (sent + (len data - sent)));
      [subst ps|lia].
    eexists. split; [done|]. split.
    + apply List.Forall_cons; [simpl; lia|apply List.Forall_nil].
    + exists [], (mkPacketData 0 true false (drop (Z.to_nat sent) data)).
      split_and!; try done. simpl. by rewrite app_nil_r.
  - rewrite slice_ok by lia. replace (sent + maxChunk - sent) with maxChunk by lia.
    destruct (IH (sent + maxChunk)) as (ps & Hps & Hall & Hone); [lia..|].
    rewrite Hps. destruct (Z.leb_spec (len data) (sent + maxChunk)); [lia|].
    destruct Hone as (init & p & -> & Hi & Hp & Hp' & Hj).
    set (c := take _ _). eexists. split; [done|]. split.
    + apply List.Forall_cons; [|done]. simpl. unfold c, len in *.
      rewrite length_take. lia.
    + exists (mkPacketData 0 false false c :: init), p. split_and!; try done.
      * apply List.Forall_cons; done.
      * transitivity (c ++ mjoin (Payload <$> init ++ [p])); [done|].
        rewrite Hj. unfold c.
        rewrite <- (take_drop (Z.to_nat maxChunk) (drop (Z.to_nat sent) data)) at 2.
        rewrite drop_drop. do 2 f_equal. lia.
Qed.

(** What [Send] produces for a non-empty message, or with splitting off. *)
Lemma sendPackets_spec cfg data :
  0 ≤ maxChunkSize cfg → (maxChunkSize cfg = 0 ∨ data ≠ []) →
  ∃ ps, sendPackets cfg data = Some (Ok ps) ∧ one_message data ps
  ∧ (maxChunkSize cfg ≠ 0 →
     Forall (λ p, 0 < len (Payload p) ≤ maxChunkSize cfg) ps).
Proof.
  intros Hmax Hne. unfold sendPackets.
  destruct (Z.eqb_spec (maxChunkSize cfg) 0) as [He|He].
  - eexists. split; [done|]. split; [|done].
    exists [], (mkPacketData 0 true false data). split_and!; try done.
    simpl. by rewrite app_nil_r.
  - destruct Hne as [?|Hne]; [done|].
    destruct (chunks_spec (length data) (maxChunkSize cfg) 0 data)
      as (ps & Hps & Hall & Hone); [lia|lia|unfold len; lia|].
    exists ps. split; [done|]. split; [|done].
    destruct (Z.leb_spec (len data) 0); [|done].
    destruct data; [done|]. unfold len in *. simpl in *. lia.
Qed.

Lemma messagesOf_init acc init ps :
  Forall (λ q, FinalChunk q = false ∧ IsPing q = false) init →
  messagesOf acc (init ++ ps) = messagesOf (acc ++ mjoin (Payload <$> init)) ps.
Proof.
  intros Hi. revert acc. induction Hi as [|q init [Hq _] _ IH]; intros acc.
  - simpl. by rewrite app_nil_r.
  - simpl. rewrite Hq, IH, <- app_assoc. done.
Qed.

Lemma messagesOf_one data ps rest :
  one_message data ps → messagesOf [] (ps ++ rest) = data :: messagesOf [] rest.
Proof.
  intros (init & p & -> & Hi & Hp & _ & Hj).
  rewrite <- app_assoc, messagesOf_init by done. simpl. rewrite Hp.
  rewrite fmap_app, join_app in Hj. simpl in Hj. rewrite app_nil_r in Hj.
  by rewrite Hj.
Qed.

Lemma messagesOf_all datas pss :
  Forall2 one_message datas pss → messagesOf [] (mjoin pss) = datas.
Proof.
  induction 1 as [|data ps datas pss H1 _ IH]; [done|].
  simpl. rewrite (messagesOf_one data) by done. by rewrite IH.
Qed.

Lemma messagesOf_prefix acc ps ps' :
  ps `prefix_of` ps' → messagesOf acc ps `prefix_of` messagesOf acc ps'.
Proof.
  intros [k ->]. revert acc. induction ps as [|p ps IH]; intros acc; simpl.
  - apply prefix_nil.
  - destruct (FinalChunk p); [|apply IH]. apply prefix_cons, IH.
Qed.

(** One successful [Recv] returns the next complete message. *)
Lemma recvLoop_messages b chan sels r rest :
  recvLoop b chan sels = Some (Ok r, rest) →
  messagesOf b chan = r :: messagesOf [] rest.
Proof.
  revert b chan. induction sels as [|sel sels IH]; intros b chan; [done|].
  simpl. destruct sel; try done. destruct chan as [|m chan]; [done|]. simpl.
  destruct (FinalChunk m) eqn:Hm; [intros [= <- <-]; done|]. apply IH.
Qed.

(** C26: the packets [Send] makes of a message carry its bytes in order, none is
    empty or larger than [maxChunkSize], only the last is marked final, and
    [Recv] reassembles them into the message: with enough packets available
    the call returns exactly the bytes given to [Send] and leaves the packets
    behind them. *)
Theorem send_recv_roundtrip cfg data rest :
  0 ≤ maxChunkSize cfg → (maxChunkSize cfg = 0 ∨ data ≠ []) →
  ∃ ps, sendPackets cfg data = Some (Ok ps)
  ∧ one_message data ps
  ∧ (maxChunkSize cfg ≠ 0 →
     Forall (λ p, 0 < len (Payload p) ≤ maxChunkSize cfg) ps)
  ∧ recvLoop [] (ps ++ rest) (replicate (length ps) SelMsg) =
    Some (Ok data, rest).
Proof.
  intros Hmax Hne. destruct (sendPackets_spec cfg data Hmax Hne)
    as (ps & Hps & Hone & Hall).
  exists ps. split_and!; try done.
  destruct Hone as (init & p & -> & Hi & Hp & _ & Hj).
  rewrite length_app, <- Hj, fmap_app, join_app. simpl. rewrite app_nil_r.
  clear -Hi Hp. rewrite <- (app_nil_l (mjoin (Payload <$> init))).
  generalize (@nil Z) as acc.
  induction Hi as [|q init [Hq _] _ IH]; intros acc; simpl.
  - by rewrite Hp, app_nil_r.
  - rewrite Hq, IH. by rewrite <- !app_assoc.
Qed.

Lemma send_recv_roundtrip_witness :
  ∃ ps, sendPackets (WithMaxSendSize 2 (newConfig 20)) [1; 2; 3]
        = Some (Ok ps)
  ∧ recvLoop [] (ps ++ []) (replicate (length ps) SelMsg)
    = Some (Ok [1; 2; 3], []).
Proof.
  destruct (send_recv_roundtrip (WithMaxSendSize 2 (newConfig 20)) [1; 2; 3] [])
    as (ps & H1 & _ & _ & H2).
  - simpl. lia.
  - right. discriminate.
  - exists ps. split; [exact H1|exact H2].
Defined.

(** A [Recv] that times out in the middle of a split message discards the
    chunks it has already taken from [recvDataChan]: the next [Recv] returns
    the remaining chunks as if they were a whole message. *)
Theorem recv_timeout_loses_chunks p init last rest :
  FinalChunk p = false → FinalChunk last = true →
  Forall (λ q, FinalChunk q = false ∧ IsPing q = false) init →
  recvLoop [] (p :: init ++ last :: rest) [SelMsg; SelRecvTimeout] =
    Some (Err errRecvTimeout, init ++ last :: rest)
  ∧ recvLoop [] (init ++ last :: rest) (replicate (S (length init)) SelMsg) =
    Some (Ok (mjoin (Payload <$> init) ++ Payload last), rest).
Proof.
  intros Hp Hl Hi. split; [simpl; by rewrite Hp|].
  rewrite <- (app_nil_l (mjoin _)). generalize (@nil Z) as acc.
  induction Hi as [|q init [Hq _] _ IH]; intros acc.
  - simpl. by rewrite Hl, app_nil_r.
  - simpl. rewrite Hq. simpl in IH. rewrite IH. by rewrite <- !app_assoc.
Qed.

Lemma recv_timeout_loses_chunks_witness :
  recvLoop [] [mkPacketData 0 false false [1]; mkPacketData 1 true false [2]]
    [SelMsg; SelRecvTimeout]
    = Some (Err errRecvTimeout, [mkPacketData 1 true false [2]])
  ∧ recvLoop [] [mkPacketData 1 true false [2]] [SelMsg] = Some (Ok [2], []).
Proof.
  apply (recv_timeout_loses_chunks (mkPacketData 0 false false [1]) []
           (mkPacketData 1 true false [2]) []).
  - reflexivity.
  - reflexivity.
  - apply List.Forall_nil.
Defined.
