(* ===== verification/GbnWindow.v ===== *)
(** * The sliding window between a sender and a receiver

    The invariant that ties one endpoint's send queue to the other endpoint's
    expected sequence number, over a data channel and an acknowledgement
    channel that keep order but may lose messages, with one preservation lemma
    per step of the two goroutines of [gbn/gbn_conn.go]. *)

From stdpp Require Import base numbers list tactics.
From S2P Require Import Prelude Messages Syncer Queue GbnConn.

(** An acknowledgement in flight. *)
Inductive ack := AckOf (seq : Z) | NackOf (seq : Z).

(** [hi] bounds the index the receiver can expect when the head of the channel
    arrives; every packet in flight is a sent packet less than a window behind
    it. *)
Fixpoint data_ok (n : nat) (hist : list PacketData) (hi : nat)
    (ps : list PacketData) : Prop :=
  match ps with
  | [] => True
  | p :: ps => ∃ j, hist !! j = Some p ∧ (hi ≤ j + n)%nat
                    ∧ data_ok n hist (max hi (S j)) ps
  end.

(** Acknowledgements in flight are increasing between the sender's base [lo]
    and the receiver's expected index [hi]. *)
Fixpoint acks_ok (s : Z) (lo hi : nat) (l : list ack) : Prop :=
  match l with
  | [] => (lo ≤ hi)%nat
  | AckOf seq :: l => ∃ i, (lo ≤ i)%nat ∧ seq = Z.of_nat i mod s
                           ∧ acks_ok s (S i) hi l
  | NackOf seq :: l => ∃ i, (lo ≤ i)%nat ∧ seq = Z.of_nat i mod s
                            ∧ acks_ok s i hi l
  end.

(** Packets the layer above sees. *)
Definition notPing (p : PacketData) : bool := negb (IsPing p).
Definition visible (ps : list PacketData) : list PacketData :=
  filter (λ p, notPing p = true) ps.

Definition room (n : nat) (hist : list PacketData) (B : nat) : Prop :=
  (length hist < B + n)%nat.

(** What the program point of the sending goroutine says about the window. *)
Definition pc_ok (n : nat) (s : Z) (hist : list PacketData) (B : nat)
    (pc : sendPCs) : Prop :=
  match pc with
  | SSelect => room n hist B
  | SSend p => hist !! pred (length hist) = Some p
  | SResend base top back =>
      (∃ c, base = Z.of_nat c mod s ∧ (c ≤ length hist ≤ c + n)%nat
            ∧ top = Z.of_nat (length hist) mod s)
      ∧ (back = false → room n hist B)
  | SSync back => back = false → room n hist B
  | SCheck | SFull | SDone _ => True
  end.

(** One direction of a connection: the sender's queue, program point and
    history, the receiver's expected sequence number and accepted packets, and
    the two channels. *)
Record dir_inv (n : nat) (q : queue) (pc : sendPCs) (hist : list PacketData)
    (rs : Z) (got : list PacketData) (data : list PacketData) (acks : list ack)
    (B R : nat) : Prop := {
  di_rep : queue_rep q hist B;
  di_s : q_s q = Z.of_nat n + 1;
  di_R : (R ≤ length hist)%nat;
  di_rs : rs = Z.of_nat R mod q_s q;
  di_got : got = visible (take R hist);
  di_data : data_ok n hist R data;
  di_acks : acks_ok (q_s q) B R acks;
  di_pc : pc_ok n (q_s q) hist B pc
}.

(** ** Channels *)

Lemma data_ok_mono n hist hi hi' ps :
  (hi ≤ hi')%nat → data_ok n hist hi' ps → data_ok n hist hi ps.
Proof.
  revert hi hi'. induction ps as [|p ps IH]; simpl; [done|].
  intros hi hi' Hle (j & Hj & Hb & Hps). exists j. split; [done|].
  split; [lia|]. eapply IH; [|done]. lia.
Qed.

Lemma data_ok_hist n hist ext hi ps :
  data_ok n hist hi ps → data_ok n (hist ++ ext) hi ps.
Proof.
  revert hi. induction ps as [|p ps IH]; simpl; [done|].
  intros hi (j & Hj & Hb & Hps). exists j. split; [|by auto].
  by apply lookup_app_l_Some.
Qed.

Lemma data_ok_snoc n hist hi ps p j :
  data_ok n hist hi ps → hist !! j = Some p →
  (hi ≤ length hist)%nat → (length hist ≤ j + n)%nat →
  data_ok n hist hi (ps ++ [p]).
Proof.
  revert hi. induction ps as [|p0 ps IH]; simpl; intros hi Hps Hj Hhi Hw.
  - exists j. repeat split; [done|lia].
  - destruct Hps as (j0 & Hj0 & Hb & Hps). exists j0.
    repeat split; [done|done|]. apply IH; [done|done| |done].
    apply lookup_lt_Some in Hj0. lia.
Qed.

Lemma data_ok_drop n hist hi l1 p l2 :
  data_ok n hist hi (l1 ++ p :: l2) → data_ok n hist hi (l1 ++ l2).
Proof.
  revert hi. induction l1 as [|p1 l1 IH]; simpl; intros hi.
  - intros (j & _ & _ & H). eapply data_ok_mono; [|done]. lia.
  - intros (j & Hj & Hb & H). eauto.
Qed.

Lemma acks_ok_le s lo hi l : acks_ok s lo hi l → (lo ≤ hi)%nat.
Proof.
  revert lo. induction l as [|[seq|seq] l IH]; simpl; intros lo; [done| |];
    intros (i & Hi & _ & H); apply IH in H; lia.
Qed.

Lemma acks_ok_mono s lo lo' hi l :
  (lo' ≤ lo)%nat → acks_ok s lo hi l → acks_ok s lo' hi l.
Proof.
  destruct l as [|[seq|seq] l]; simpl; [lia| |];
    intros Hle (i & Hi & He & H); exists i; repeat split; try done; lia.
Qed.

Lemma acks_ok_snoc_ack s lo hi l :
  acks_ok s lo hi l →
  acks_ok s lo (S hi) (l ++ [AckOf (Z.of_nat hi mod s)]).
Proof.
  revert lo. induction l as [|[seq|seq] l IH]; simpl; intros lo.
  - intros Hle. exists hi. repeat split; lia.
  - intros (i & Hi & He & H). eauto.
  - intros (i & Hi & He & H). eauto.
Qed.

Lemma acks_ok_snoc_nack s lo hi l :
  acks_ok s lo hi l → acks_ok s lo hi (l ++ [NackOf (Z.of_nat hi mod s)]).
Proof.
  revert lo. induction l as [|[seq|seq] l IH]; simpl; intros lo.
  - intros Hle. exists hi. repeat split; lia.
  - intros (i & Hi & He & H). eauto.
  - intros (i & Hi & He & H). eauto.
Qed.

Lemma acks_ok_drop s lo hi l1 a l2 :
  acks_ok s lo hi (l1 ++ a :: l2) → acks_ok s lo hi (l1 ++ l2).
Proof.
  revert lo. induction l1 as [|[seq|seq] l1 IH]; simpl; intros lo.
  - destruct a; intros (i & Hi & _ & H); (eapply acks_ok_mono; [|done]; lia).
  - intros (i & Hi & He & H). eauto.
  - intros (i & Hi & He & H). eauto.
Qed.

Lemma visible_app l k : visible (l ++ k) = visible l ++ visible k.
Proof. apply list.filter_app. Qed.

Lemma visible_one p : visible [p] = if IsPing p then [] else [p].
Proof.
  unfold visible, notPing. rewrite filter_cons, filter_nil.
  destruct (IsPing p); by case_decide.
Qed.

(** A new base keeps what the program point needs. *)
Lemma pc_ok_base n s hist B B' pc :
  (B ≤ B')%nat → pc_ok n s hist B pc → pc_ok n s hist B' pc.
Proof.
  unfold pc_ok, room. destruct pc; try done; intros Hle H.
  - lia.
  - destruct H as [Hc Hr]. split; [done|]. intros Hb. specialize (Hr Hb). lia.
  - intros Hb. specialize (H Hb). lia.
Qed.

(** ** Steps of the sender *)

Section Steps.
Context (n : nat) (q : queue) (pc : sendPCs) (hist : list PacketData).
Context (rs : Z) (got data : list PacketData) (acks : list ack).
Context (B R : nat).
Context (I : dir_inv n q pc hist rs got data acks B R).

Lemma dir_pc pc' :
  pc_ok n (q_s q) hist B pc' → dir_inv n q pc' hist rs got data acks B R.
Proof using I. intros. destruct I. by constructor. Qed.

Lemma dir_B_le_R : (B ≤ R)%nat.
Proof using I. eapply acks_ok_le. apply I. Qed.

Lemma dir_queue q' :
  queue_rep q' hist B → q_s q' = q_s q →
  dir_inv n q' pc hist rs got data acks B R.
Proof using I. intros ? Hs. destruct I. constructor; by rewrite ?Hs. Qed.

Lemma step_enqueue p :
  pc = SSelect →
  ∃ p' q', addPacket p q = Ok (p', q') ∧ p' = setSeq (sequenceTop q) p
    ∧ dir_inv n q' (SSend p') (hist ++ [p']) rs got data acks B R.
Proof using I.
  intros ->. destruct I as [Hrep Hs HR Hrs Hgot Hd Ha Hpc].
  simpl in Hpc. unfold room in Hpc.
  destruct (addPacket_rep q hist B p Hrep) as (q' & Hadd & Hrep'); [lia|].
  do 2 eexists. split; [done|]. split; [done|].
  assert (Hs' : q_s q' = q_s q).
  { unfold addPacket in Hadd. destruct (setIndex _ _ _); try done.
    simpl in Hadd. destruct (umod _ _); try done. simpl in Hadd. by inv Hadd. }
  constructor; try rewrite Hs'; try done.
  - rewrite length_app. simpl. lia.
  - rewrite take_app_le by lia. done.
  - by apply data_ok_hist.
  - simpl. rewrite length_app, Nat.add_comm. simpl. by apply list_lookup_middle.
Qed.

Lemma step_send p :
  pc = SSend p → dir_inv n q SCheck hist rs got (data ++ [p]) acks B R.
Proof using I.
  intros ->. destruct I as [Hrep Hs HR Hrs Hgot Hd Ha Hpc]. simpl in Hpc.
  constructor; try done.
  eapply data_ok_snoc; [done|done|lia|].
  assert (length hist ≠ 0)%nat.
  { intros H0. rewrite H0 in Hpc. simpl in Hpc.
    apply lookup_lt_Some in Hpc. lia. }
  pose proof (qr_s _ _ _ Hrep). lia.
Qed.

Lemma step_check pc' :
  pc' = (if size q <? Z.of_nat n then SSelect else SFull) →
  dir_inv n q pc' hist rs got data acks B R.
Proof using I.
  intros ->. apply dir_pc. rewrite (size_rep _ _ _ (di_rep _ _ _ _ _ _ _ _ _ _ I)).
  case_if; simpl; [|done]. unfold room. lia.
Qed.

(** The start of a resend from the outer [select] or the full-queue loop. *)
Lemma step_begin hs t1 t2 (back : bool) :
  (back = false → room n hist B) →
  ∃ r q', resendBegin hs t1 t2 q = Ok (r, q')
    ∧ dir_inv n q' (match r with
                    | None => if back then SCheck else SSelect
                    | Some (b, t) => SResend b t back
                    end) hist rs got data acks B R.
Proof using I.
  intros Hroom.
  assert (Hback : pc_ok n (q_s q) hist B (if back then SCheck else SSelect))
    by (destruct back; simpl; auto).
  pose proof (di_rep _ _ _ _ _ _ _ _ _ _ I) as Hrep.
  unfold resendBegin. case_if; [eauto using dir_pc|].
  case_if; [eauto using dir_pc|].
  pose proof (rep_set_lastResend _ _ _ Hrep t2) as Hrep2.
  set (q2 := set_lastResend t2 q) in *.
  case_if.
  { do 2 eexists. split; [done|]. destruct I. by constructor. }
  destruct (initResendUpTo_not_panic (sequenceTop q2) (q_syncer q2)) as [a Ha].
  { change (q_syncer q2) with (q_syncer q).
    rewrite (qr_sync _ _ _ Hrep). destruct Hrep; lia. }
  rewrite Ha. simpl. do 2 eexists. split; [done|].
  pose proof (qr_sync _ _ _ Hrep) as Hsy.
  destruct I as [_ Hs HR Hrs Hgot Hd Hac Hpc]. constructor; try done.
  - apply rep_set_syncer; done.
  - simpl. split; [|done]. exists B. pose proof (qr_win _ _ _ Hrep).
    pose proof (qr_lo _ _ _ Hrep). repeat split; [by apply Hrep|lia|lia|by apply Hrep].
Qed.

(** One packet of the resend loop. *)
Lemma step_resend base top back :
  pc = SResend base top back → base ≠ top →
  ∃ p base', resendNext base q = Ok (p, base')
    ∧ dir_inv n q (SResend base' top back) hist rs got (data ++ [p]) acks B R.
Proof using I.
  intros -> Hne. destruct I as [Hrep Hs HR Hrs Hgot Hd Ha Hpc].
  destruct Hpc as [(c & -> & Hc & ->) Hback].
  assert (c < length hist)%nat as Hlt
    by (destruct (decide (c = length hist)); [congruence|lia]).
  destruct (lookup_lt_is_Some_2 hist c Hlt) as [p Hp].
  rewrite (resendNext_rep _ _ _ _ _ Hrep Hp) by lia.
  do 2 eexists. split; [done|]. constructor; try done.
  - eapply data_ok_snoc; [done|done|lia|lia].
  - split; [|done]. exists (S c). repeat split; lia.
Qed.

Lemma step_resend_end base back :
  pc = SResend base base back →
  dir_inv n (set_syncer (waitForSync_enter (q_syncer q)) q) (SSync back)
    hist rs got data acks B R.
Proof using I.
  intros ->. destruct I as [Hrep Hs HR Hrs Hgot Hd Ha [_ Hback]].
  constructor; try done. apply rep_set_syncer; [done|]. apply Hrep.
Qed.

Lemma step_sync_return back :
  pc = SSync back →
  dir_inv n q (if back then SCheck else SSelect) hist rs got data acks B R.
Proof using I.
  intros Heq. apply dir_pc. pose proof (di_pc _ _ _ _ _ _ _ _ _ _ I) as Hpc.
  rewrite Heq in Hpc. destruct back; simpl; auto.
Qed.

(** ** Steps of the receiver *)

(** The sequence number of a packet in flight tells whether it is the expected
    one. *)
Lemma data_head_index p ps :
  data = p :: ps → Seq p = rs → hist !! R = Some p.
Proof using I.
  intros Hdata Hseq. pose proof dir_B_le_R.
  destruct I as [Hrep Hs HR Hrs Hgot Hd Ha Hpc]. rewrite Hdata in Hd.
  destruct Hd as (j & Hj & Hb & _). pose proof (qr_win _ _ _ Hrep).
  pose proof (lookup_lt_Some _ _ _ Hj).
  rewrite (qr_seq _ _ _ Hrep _ _ Hj), Hrs in Hseq.
  apply mod_inj in Hseq; [|lia..]. replace R with j by lia. done.
Qed.

Lemma step_accept p ps :
  data = p :: ps → Seq p = rs →
  dir_inv n q pc hist (Z.of_nat (S R) mod q_s q)
    (got ++ if IsPing p then [] else [p]) ps (acks ++ [AckOf rs]) B (S R).
Proof using I.
  intros Hdata Hseq. pose proof (data_head_index _ _ Hdata Hseq) as HRp.
  pose proof dir_B_le_R. destruct I as [Hrep Hs HR Hrs Hgot Hd Ha Hpc].
  rewrite Hdata in Hd. destruct Hd as (j & Hj & Hb & Hps).
  pose proof (lookup_lt_Some _ _ _ HRp). pose proof (lookup_lt_Some _ _ _ Hj).
  pose proof (qr_win _ _ _ Hrep).
  assert (j = R) as ->.
  { rewrite (qr_seq _ _ _ Hrep _ _ Hj), Hrs in Hseq.
    apply mod_inj in Hseq; lia. }
  constructor; try done.
  - rewrite (take_S_r _ _ p) by done. rewrite visible_app, visible_one.
    by rewrite Hgot.
  - eapply data_ok_mono; [|done]. lia.
  - rewrite Hrs. by apply acks_ok_snoc_ack.
Qed.

Lemma step_reject p ps :
  data = p :: ps → dir_inv n q pc hist rs got ps acks B R.
Proof using I.
  intros ->. destruct I as [Hrep Hs HR Hrs Hgot Hd Ha Hpc].
  constructor; try done. destruct Hd as (j & _ & _ & Hps).
  eapply data_ok_mono; [|done]. lia.
Qed.

Lemma step_nack_sent : dir_inv n q pc hist rs got data (acks ++ [NackOf rs]) B R.
Proof using I.
  destruct I as [Hrep Hs HR Hrs Hgot Hd Ha Hpc]. constructor; try done.
  rewrite Hrs. by apply acks_ok_snoc_nack.
Qed.

(** ** Acknowledgements at the sender *)

Lemma step_ack seq l :
  acks = AckOf seq :: l →
  ∃ q' B', Queue.processACK seq q = Ok (true, q')
    ∧ dir_inv n q' pc hist rs got data l B' R.
Proof using I.
  intros ->. destruct I as [Hrep Hs HR Hrs Hgot Hd (i & Hi & -> & Hl) Hpc].
  pose proof (acks_ok_le _ _ _ _ Hl). pose proof (qr_win _ _ _ Hrep).
  pose proof (qr_s _ _ _ Hrep).
  destruct (processACK_rep q hist B (Z.of_nat i mod q_s q) Hrep)
    as [q' Hq']; [apply Z.mod_pos_bound; lia|].
  rewrite (window_offset _ _ _ Hrep) in Hq' by lia.
  rewrite bool_decide_true in Hq' by lia. destruct Hq' as [Hack Hrep'].
  exists q', (S i). split; [done|].
  replace (B + Z.to_nat (Z.of_nat i - Z.of_nat B) + 1)%nat with (S i) in Hrep'
    by lia.
  assert (Hs' : q_s q' = q_s q).
  { clear -Hack. unfold Queue.processACK in Hack.
    repeat case_match; try done; simpl in Hack;
      try (destruct (umod _ _); simpl in Hack; try done); by inv Hack. }
  constructor; rewrite ?Hs'; try done.
  eapply pc_ok_base; [|done]. lia.
Qed.

Lemma step_nack pick seq l :
  acks = NackOf seq :: l →
  ∃ r q' B', Queue.processNACK pick seq q = (r, q')
    ∧ dir_inv n q' pc hist rs got data l B' R.
Proof using I.
  intros ->. destruct I as [Hrep Hs HR Hrs Hgot Hd (i & Hi & -> & Hl) Hpc].
  pose proof (acks_ok_le _ _ _ _ Hl). pose proof (qr_win _ _ _ Hrep).
  pose proof (qr_s _ _ _ Hrep). pose proof (qr_lo _ _ _ Hrep).
  destruct (processNACK_rep pick q hist B (Z.of_nat i mod q_s q) Hrep)
    as [q' Hq']; [apply Z.mod_pos_bound; lia|].
  rewrite (window_offset _ _ _ Hrep) in Hq' by lia.
  assert (Hs' : q_s (Queue.processNACK pick (Z.of_nat i mod q_s q) q).2 = q_s q).
  { clear. unfold Queue.processNACK. by repeat case_match. }
  destruct Hq' as [(Hd' & Heq & Hrep')|[(Hd' & Heq & Hrep')|(Hd' & _)]]; [| |lia].
  - rewrite Heq in *. exists (true, bool_decide (Z.to_nat (Z.of_nat i - Z.of_nat B) ≠ 0%nat)), q', i.
    replace (B + _)%nat with i in Hrep' by lia. simpl in Hs'.
    split; [done|]. constructor; rewrite ?Hs'; try done.
    eapply pc_ok_base; [|done]. lia.
  - rewrite Heq in *. exists (false, true), q', i.
    replace (length hist) with i in Hrep' by lia. simpl in Hs'.
    split; [done|]. constructor; rewrite ?Hs'; try done.
    eapply pc_ok_base; [|done]. lia.
Qed.

(** ** Loss *)

Lemma step_lose_data l1 p l2 :
  data = l1 ++ p :: l2 → dir_inv n q pc hist rs got (l1 ++ l2) acks B R.
Proof using I.
  intros ->. destruct I. constructor; try done. by eapply data_ok_drop.
Qed.

Lemma step_lose_ack l1 a l2 :
  acks = l1 ++ a :: l2 → dir_inv n q pc hist rs got data (l1 ++ l2) B R.
Proof using I.
  intros ->. destruct I. constructor; try done. by eapply acks_ok_drop.
Qed.

End Steps.

Lemma dir_init n :
  (1 ≤ n ≤ 254)%nat →
  dir_inv n (newQueue (Z.of_nat n + 1)) SSelect [] 0 [] [] [] 0 0.
Proof.
  intros Hn. constructor; simpl; try done; try lia.
  - apply newQueue_rep. lia.
  - unfold room. simpl. lia.
Qed.
