(* ===== verification/GbnSystem.v ===== *)
(** * Two connected endpoints

    Two [GoBackNConn]s whose goroutines interleave freely, joined by two
    streams that keep order but may lose packets, and the theorem that what
    one side hands to the layer above is a prefix of what the other side was
    given to send. *)

From stdpp Require Import base numbers list strings gmap tactics relations.
From S2P Require Import Prelude Messages GoFloat Timeout Ticker Syncer Queue.
From S2P Require Import GbnConn GbnWindow.

(** An endpoint with its history variables: every packet queued, every packet
    taken from [sendDataChan], every data packet accepted, and every packet
    put on [recvDataChan]. *)
Record endpoint := mkEndpoint {
  conn : GoBackNConn;
  hist : list PacketData;
  submitted : list PacketData;
  accepted : list PacketData;
  pushed : list PacketData
}.

Definition added (pc pc' : sendPCs) : list PacketData :=
  match pc, pc' with SSelect, SSend p => [p] | _, _ => [] end.
Definition evData (ev : sendEvent) : list PacketData :=
  match ev with SEvData p => [p] | _ => [] end.
(** [Send] creates its packets with [IsPing] unset. *)
Definition evOK (ev : sendEvent) : Prop :=
  match ev with SEvData p => IsPing p = false | _ => True end.
Definition pendingPush (pc : recvPCs) : list PacketData :=
  match pc with RPush m => [m] | _ => [] end.

Section System.
Context `{FloatToInt}.

(** A step of one endpoint: it may consume the head of its incoming stream and
    append to its outgoing one. *)
Inductive ep_step : list bytes → endpoint → list bytes →
    list bytes → endpoint → list bytes → Prop :=
| es_send ev i e g' i' inw outw :
    wire i = [] → evOK ev →
    sendStep ev (conn e, i) = Some (Ok tt, (g', i')) →
    ep_step inw e outw inw
      (mkEndpoint g' (hist e ++ added (sendPC (conn e)) (sendPC g'))
         (submitted e ++ evData ev) (accepted e) (pushed e))
      (outw ++ wire i')
| es_recv pick b i e g' i' inw outw :
    wire i = [] →
    recvStep (REvBytes pick b) (conn e, i) = Some (Ok tt, (g', i')) →
    ep_step (b :: inw) e outw inw
      (mkEndpoint g' (hist e) (submitted e)
         (accepted e ++ pendingPush (recvPC g')) (pushed e))
      (outw ++ wire i')
| es_push i e g' i' inw outw :
    wire i = [] →
    recvStep REvPush (conn e, i) = Some (Ok tt, (g', i')) →
    ep_step inw e outw inw
      (mkEndpoint g' (hist e) (submitted e) (accepted e)
         (pushed e ++ pendingPush (recvPC (conn e))))
      outw
| es_recv_stop ev i e g' i' inw outw :
    (ev = REvQuit ∨ ∃ err, ev = REvStreamErr err) →
    recvStep ev (conn e, i) = Some (Ok tt, (g', i')) →
    ep_step inw e outw inw
      (mkEndpoint g' (hist e) (submitted e) (accepted e) (pushed e)) outw
| es_sync c e inw outw :
    syncer_step (q_syncer (sendQueue (conn e))) c →
    ep_step inw e outw inw
      (mkEndpoint (set_sendQueue (set_syncer c (sendQueue (conn e))) (conn e))
         (hist e) (submitted e) (accepted e) (pushed e)) outw
| es_ping t t' e inw outw :
    pingTicker (conn e) = Some t → ticker_step t t' →
    ep_step inw e outw inw
      (mkEndpoint (set_pingTicker (Some t') (conn e))
         (hist e) (submitted e) (accepted e) (pushed e)) outw
| es_pong t t' e inw outw :
    pongTicker (conn e) = Some t → ticker_step t t' →
    ep_step inw e outw inw
      (mkEndpoint (set_pongTicker (Some t') (conn e))
         (hist e) (submitted e) (accepted e) (pushed e)) outw
| es_close i e g' i' inw outw :
    wire i = [] →
    Close (conn e, i) = (Ok tt, (g', i')) →
    ep_step inw e outw inw
      (mkEndpoint g' (hist e) (submitted e) (accepted e) (pushed e))
      (outw ++ wire i')
| es_app_recv m l e inw outw :
    recvDataChan (conn e) = m :: l →
    ep_step inw e outw inw
      (mkEndpoint (set_recvDataChan l (conn e))
         (hist e) (submitted e) (accepted e) (pushed e)) outw
| es_app_timeouts ds dr e inw outw :
    ep_step inw e outw inw
      (mkEndpoint (SetRecvTimeout dr (SetSendTimeout ds (conn e)))
         (hist e) (submitted e) (accepted e) (pushed e)) outw.

Record system := mkSystem {
  sideA : endpoint;
  sideB : endpoint;
  wireAB : list bytes;
  wireBA : list bytes
}.

Inductive sys_step : system → system → Prop :=
| ss_A a b ab ba a' ab' ba' :
    ep_step ba a ab ba' a' ab' →
    sys_step (mkSystem a b ab ba) (mkSystem a' b ab' ba')
| ss_B a b ab ba b' ab' ba' :
    ep_step ab b ba ab' b' ba' →
    sys_step (mkSystem a b ab ba) (mkSystem a b' ab' ba')
| ss_lose_AB a b l1 x l2 ba :
    sys_step (mkSystem a b (l1 ++ x :: l2) ba) (mkSystem a b (l1 ++ l2) ba)
| ss_lose_BA a b ab l1 x l2 :
    sys_step (mkSystem a b ab (l1 ++ x :: l2)) (mkSystem a b ab (l1 ++ l2)).

End System.

(** The state after the handshake, [setN] and [start]. *)
Definition fresh (n : nat) (g : GoBackNConn) : Prop :=
  cfg_n (g_cfg g) = Z.of_nat n ∧ cfg_s (g_cfg g) = Z.of_nat n + 1
  ∧ sendQueue g = newQueue (Z.of_nat n + 1) ∧ recvSeq g = 0
  ∧ recvDataChan g = [] ∧ sendPC g = SSelect ∧ recvPC g = RLoop.

Definition initial (n : nat) (σ : system) : Prop :=
  ∃ ga gb, fresh n ga ∧ fresh n gb
  ∧ σ = mkSystem (mkEndpoint ga [] [] [] []) (mkEndpoint gb [] [] [] []) [] [].

Definition reachable `{FloatToInt} (n : nat) (σ : system) : Prop :=
  ∃ σ0, initial n σ0 ∧ rtc sys_step σ0 σ.

(** What the layer above supplied or sees of a packet. *)
Definition strip (p : PacketData) : bool * bytes := (FinalChunk p, Payload p).

(** ** The handlers, as seen by the protocol *)

Definition dataOf (ms : list Message) : list PacketData :=
  omap (λ m, match m with MData p => Some p | _ => None end) ms.
Definition acksOf (ms : list Message) : list ack :=
  omap (λ m, match m with
             | MACK s => Some (AckOf s)
             | MNACK s => Some (NackOf s)
             | _ => None
             end) ms.

(** The window sizes announced by SYN messages. *)
Definition synsOf (ms : list Message) : list Z :=
  omap (λ m, match m with MSYN N => Some N | _ => None end) ms.

Lemma synsOf_app l k : synsOf (l ++ k) = synsOf l ++ synsOf k.
Proof. apply omap_app. Qed.
Lemma dataOf_app l k : dataOf (l ++ k) = dataOf l ++ dataOf k.
Proof. apply omap_app. Qed.
Lemma acksOf_app l k : acksOf (l ++ k) = acksOf l ++ acksOf k.
Proof. apply omap_app. Qed.

(** The fields the protocol depends on. *)
Definition core (g : GoBackNConn) :=
  (g_cfg g, sendQueue g, recvSeq g, sendPC g, recvPC g).

Section Specs.
Context `{FloatToInt}.

Lemma sendPacket_spec msg r g i res s' :
  sendPacket msg r (g, i) = (res, s') →
  (∃ e, res = Err e ∧ s'.1 = g ∧ wire s'.2 = wire i)
  ∨ (res = Ok tt ∧ core s'.1 = core g
     ∧ wire s'.2 = wire i ++ [Serialize msg]).
Proof using.
  unfold sendPacket, wrapErr, sendToStream. mstep. simpl.
  destruct (sendErr i (length (wire i))) as [e|] eqn:He; simpl;
    intros [= <- <-]; [left|right]; simpl; eauto.
Qed.

Lemma resetResendTicker_spec s :
  (resetResendTicker s = (Ok tt, s)
   ∧ 0 < GetResendTimeout (timeoutManager s.1))
  ∨ (resetResendTicker s = (Panic NonPositiveInterval, s)
     ∧ GetResendTimeout (timeoutManager s.1) ≤ 0).
Proof using.
  destruct s as [g i]. unfold resetResendTicker, tryG. simpl.
  destruct (Z.leb_spec (GetResendTimeout (timeoutManager g)) 0); auto.
Qed.

(** The part of an iteration before the dispatch on the message. *)
Lemma handlePacket_pre pick msg g i res s' :
  handlePacket pick (Serialize msg) (g, i) = (res, s') →
  (∃ e, res = Err e ∧ core s'.1 = core g ∧ wire s'.2 = wire i)
  ∨ (∃ p, res = Panic p)
  ∨ ∃ g1 i1, core g1 = core g ∧ wire i1 = wire i
    ∧ match msg with
      | MData m => handleData m
      | MACK seq => handleACK seq
      | MNACK seq => handleNACK pick seq
      | MFIN => handleFIN
      | _ => failM (ErrMsg "received unexpected message")
      end (g1, i1) = (res, s').
Proof using.
  unfold handlePacket, onTicker, tryG, wrapErr. mstep.
  rewrite Deserialize_Serialize. simpl.
  destruct (Received _ _ _) as [tm| |]; simpl;
    [|(intros [= <- <-]; left; eexists; by repeat split)|intros [= <- <-]; by eauto].
  destruct (pingTicker g) as [t1|]; simpl; [|intros [= <- <-]; by eauto].
  destruct (Reset _ t1) as [t1'| |]; simpl;
    [|(intros [= <- <-]; left; eexists; by repeat split)|intros [= <- <-]; by eauto].
  destruct (pongTicker g) as [t2|]; simpl; [|intros [= <- <-]; by eauto].
  match goal with |- context [resetResendTicker ?s] =>
    destruct (resetResendTicker_spec s) as [[-> _]|[-> _]] end;
    [|intros [= <- <-]; by eauto].
  intros Hrest. right; right. do 2 eexists. split; [|split; [|exact Hrest]]; done.
Qed.

Lemma handleData_spec m g i res s' :
  handleData m (g, i) = (res, s') →
  (∃ p, res = Panic p)
  ∨ (∃ e, res = Err e ∧ core s'.1 = core g ∧ wire s'.2 = wire i)
  ∨ (Seq m = recvSeq g ∧ wire s'.2 = wire i ++ [Serialize (MACK (Seq m))]
     ∧ res = Ok (if IsPing m then RLoop else RPush m)
     ∧ ∃ r, umod (u8 (recvSeq g + 1)) (cfg_s (g_cfg g)) = Ok r
       ∧ core s'.1 = core (set_recvSeq r g))
  ∨ (Seq m ≠ recvSeq g ∧ res = Ok RLoop ∧ core s'.1 = core g
     ∧ (wire s'.2 = wire i
        ∨ wire s'.2 = wire i ++ [Serialize (MNACK (recvSeq g))])).
Proof using.
  unfold handleData. mstep. simpl. unfold getG. simpl.
  destruct (Z.eqb_spec (Seq m) (recvSeq g)) as [He|He].
  - destruct (sendPacket _ _ _) as [r1 s1] eqn:Hs.
    apply sendPacket_spec in Hs as [(e & -> & Hg & Hw)|(-> & Hg & Hw)].
    { intros [= <- <-]. right; left. rewrite Hg. eauto. }
    destruct s1 as [g1 i1]. unfold tryG. simpl in *. inv Hg.
    destruct (umod _ _) as [r| |] eqn:Hu; simpl.
    + intros Heq. right; right; left.
      destruct (IsPing m); inv Heq; simpl;
        (split; [congruence|]; split; [done|]; split; [done|]; exists r;
         split; [congruence|]; unfold core; simpl; congruence).
    + unfold umod in Hu. by case_if_in Hu.
    + intros [= <- <-]. eauto.
  - case_if.
    { intros [= <- <-]. right; right; right. simpl. eauto. }
    match goal with |- context [sendPacket ?a ?b ?c] =>
      destruct (sendPacket a b c) as [r1 s1] eqn:Hs end.
    apply sendPacket_spec in Hs as [(e & -> & Hg & Hw)|(-> & Hg & Hw)];
      intros [= <- <-].
    + right; left. rewrite Hg. simpl in *. eauto.
    + right; right; right. simpl in *. split; [done|]. split; [done|].
      split; [|by right]. unfold core in *. simpl. congruence.
Qed.

(** What a step of the sending goroutine leaves behind. *)
Section SendStep.
Context (n : nat) (g : GoBackNConn) (h : list PacketData) (rs : Z).
Context (got data : list PacketData) (acks : list ack) (B R : nat).
Context (evd : list PacketData).
Context (Hcfg : cfg_n (g_cfg g) = Z.of_nat n).
Context (I : dir_inv n (sendQueue g) (sendPC g) h rs got data acks B R).

Definition send_state (pc : sendPCs) (s' : St) : Prop :=
  ∃ ms, wire s'.2 = Serialize <$> ms ∧ acksOf ms = [] ∧ synsOf ms = []
  ∧ dir_inv n (sendQueue s'.1) pc (h ++ added (sendPC g) pc) rs got
      (data ++ dataOf ms) acks B R
  ∧ g_cfg s'.1 = g_cfg g ∧ recvSeq s'.1 = recvSeq g
  ∧ recvPC s'.1 = recvPC g
  ∧ strip <$> visible (added (sendPC g) pc) = strip <$> visible evd.

Definition send_post (r : result sendPCs * St) : Prop :=
  match r with
  | (Panic _, _) => True
  | (Ok pc, s') => send_state pc s'
  | (Err e, s') => send_state (SDone (Some e)) s'
  end.

(** A step that sends nothing and queues nothing. *)
Lemma send_state_quiet pc g' i :
  evd = [] → wire i = [] → added (sendPC g) pc = [] →
  g_cfg g' = g_cfg g → recvSeq g' = recvSeq g → recvPC g' = recvPC g →
  dir_inv n (sendQueue g') pc h rs got data acks B R →
  send_state pc (g', i).
Proof using.
  intros He Hw Ha ? ? ? HI. exists []. rewrite Ha, He. simpl.
  rewrite !app_nil_r. by split_and!.
Qed.

Lemma added_done e : added (sendPC g) (SDone e) = [].
Proof using. by case (sendPC g). Qed.

Lemma done_inv e : dir_inv n (sendQueue g) (SDone e) h rs got data acks B R.
Proof using I. eapply dir_pc; done. Qed.

Lemma send_state_err g' e i :
  evd = [] → wire i = [] → core g' = core g → send_state (SDone e) (g', i).
Proof using I.
  intros ? ? Hc. inv Hc. apply send_state_quiet; try done.
  - apply added_done.
  - replace (sendQueue g') with (sendQueue g) by done. apply done_inv.
Qed.

Lemma enqueue_post p g1 i :
  sendPC g = SSelect → core g1 = core g → wire i = [] →
  visible [p] = visible evd →
  send_post (enqueue p (g1, i)).
Proof using I.
  intros Hpc Hc Hw Hv. inv Hc.
  destruct (step_enqueue _ _ _ _ _ _ _ _ _ _ I p Hpc)
    as (p' & q' & Hadd & Hp' & I').
  unfold enqueue, tryG. mstep. simpl.
  replace (sendQueue g1) with (sendQueue g) by done. rewrite Hadd. simpl.
  exists []. rewrite Hpc. simpl. rewrite app_nil_r.
  split_and!; try done. rewrite <- Hv, Hp', !visible_one. simpl.
  by destruct (IsPing p).
Qed.

Lemma endResend_post (back : bool) g1 i :
  evd = [] → wire i = [] → g_cfg g1 = g_cfg g → recvSeq g1 = recvSeq g →
  recvPC g1 = recvPC g →
  added (sendPC g) (if back then SCheck else SSelect) = [] →
  dir_inv n (sendQueue g1) (if back then SCheck else SSelect) h rs got data
    acks B R →
  send_post (endResend back (g1, i)).
Proof using.
  intros. unfold endResend. mstep.
  destruct (resetResendTicker_spec (g1, i)) as [[-> _]|[-> _]]; [|done].
  simpl. by apply send_state_quiet.
Qed.

Lemma beginResend_post (back : bool) g1 i :
  evd = [] → (sendPC g = if back then SFull else SSelect) →
  core g1 = core g → wire i = [] → send_post (beginResend back (g1, i)).
Proof using I.
  intros He Hpc Hc Hw. inv Hc. unfold beginResend, tryG. mstep. simpl.
  assert (Hroom : back = false → room n h B).
  { intros ->. pose proof (di_pc _ _ _ _ _ _ _ _ _ _ I) as Hx.
    by rewrite Hpc in Hx. }
  replace (sendQueue g1) with (sendQueue g) by done.
  match goal with |- context [resendBegin ?a ?b ?c _] =>
    destruct (step_begin _ _ _ _ _ _ _ _ _ _ I a b c back Hroom)
      as (r & q' & Hr & I') end.
  rewrite Hr. simpl.
  destruct r as [[b t]|]; simpl.
  - apply send_state_quiet; try done. rewrite Hpc. by destruct back.
  - apply endResend_post; try done. rewrite Hpc. by destruct back.
Qed.

Lemma handlePing_post g1 i :
  visible evd = [] → evd = [] → sendPC g = SSelect → core g1 = core g →
  wire i = [] → send_post (handlePing (g1, i)).
Proof using I.
  intros Hv He Hpc Hc Hw. unfold handlePing, getG, onTicker, tryG. mstep.
  simpl. destruct (pongTicker g1) as [t|] eqn:Ht; simpl; [|done].
  destruct (takeTick t) as [[tk t']|]; simpl.
  { by apply send_state_err. }
  rewrite Ht.
  destruct (ResetWithInterval _ _ t) as [t1|e|p]; simpl; [|by apply send_state_err|done].
  destruct (pingTicker g1) as [t2|]; simpl; [|done].
  destruct (Reset _ t2) as [t2'|e|p]; simpl; [|by apply send_state_err|done].
  by apply enqueue_post.
Qed.

(** Sending a data packet, then moving to [pc]. *)
Lemma send_data_post p r pc g1 i :
  evd = [] → added (sendPC g) pc = [] → core g1 = core g → wire i = [] →
  dir_inv n (sendQueue g) pc h rs got (data ++ [p]) acks B R →
  send_post ((_ ← sendPacket (MData p) r; mret pc) (g1, i)).
Proof using I.
  intros He Ha Hc Hw I'. mstep.
  destruct (sendPacket (MData p) r (g1, i)) as [res s1] eqn:Hs.
  apply sendPacket_spec in Hs as [(e & -> & Hg & Hw1)|(-> & Hg & Hw1)]; simpl.
  - destruct s1 as [g2 i2]. simpl in *. subst g2.
    apply send_state_err; try done. congruence.
  - rewrite Hc in Hg. destruct s1 as [g2 i2]. simpl in *. inv Hg.
    exists [MData p]. simpl. rewrite Ha, He, app_nil_r, Hw1, Hw.
    replace (sendQueue g2) with (sendQueue g) by done. by split_and!.
Qed.

Lemma stepResend_post base top back i :
  evd = [] → sendPC g = SResend base top back → wire i = [] →
  send_post (stepResend base top back (g, i)).
Proof using I.
  intros He Hpc Hw. unfold stepResend. case_if.
  - subst top. mstep. simpl. apply send_state_quiet; try done.
    + by rewrite Hpc.
    + by eapply step_resend_end.
  - destruct (step_resend _ _ _ _ _ _ _ _ _ _ I _ _ _ Hpc)
      as (p & base' & Hn & I'); [done|].
    assert (Hpost := send_data_post p true (SResend base' top back) g i He).
    unfold tryG. revert Hpost. mstep. simpl. rewrite Hn. simpl. intros Hpost.
    apply Hpost; try done. by rewrite Hpc.
Qed.

Lemma sendBody_post ev i m :
  evd = evData ev → evOK ev → wire i = [] → sendBody ev g = Some m →
  send_post (m (g, i)).
Proof using I Hcfg.
  intros He Hok Hw Hm. unfold sendBody in Hm.
  assert (∃ pc, sendPC g = pc) as [pc Hpc] by eauto. rewrite Hpc in Hm.
  destruct pc as [|p| | |base top back|back|e], ev;
    try discriminate Hm; simpl in He.
  - case_if_in Hm; inv Hm. apply send_state_err; done.
  - case_if_in Hm; inv Hm. apply beginResend_post; done.
  - inv Hm. apply beginResend_post; done.
  - destruct (pingTicker g) as [t|]; [|done].
    destruct (takeTick t) as [[tk t']|]; inv Hm.
    apply handlePing_post; by rewrite ?He.
  - destruct (pongTicker g) as [t|]; [|done].
    destruct (takeTick t) as [[tk t']|]; inv Hm. by apply send_state_err.
  - inv Hm. apply enqueue_post; by rewrite ?He.
  - inv Hm. apply send_data_post; try done; [by rewrite Hpc|].
    eapply step_send; [exact I|done].
  - inv Hm. apply send_state_quiet; try done.
    + rewrite Hpc. by case_if.
    + eapply step_check; [exact I|]. by rewrite Hcfg.
  - case_if_in Hm; inv Hm. apply send_state_err; done.
  - case_if_in Hm; inv Hm. apply beginResend_post; done.
  - inv Hm. apply beginResend_post; done.
  - inv Hm. by apply stepResend_post.
  - destruct (sy_waiter _); inv Hm. apply endResend_post; try done.
    + rewrite Hpc. by destruct back.
    + eapply step_sync_return; [exact I|done].
Qed.

End SendStep.

(** Losing the head of a stream. *)
Lemma dir_tail_acks n q pc h rs got data msg l B R :
  dir_inv n q pc h rs got data (acksOf (msg :: l)) B R →
  dir_inv n q pc h rs got data (acksOf l) B R.
Proof using.
  intros I. destruct msg; try exact I.
  - by apply (step_lose_ack _ _ _ _ _ _ _ _ _ _ I [] (AckOf seq) (acksOf l)).
  - by apply (step_lose_ack _ _ _ _ _ _ _ _ _ _ I [] (NackOf seq) (acksOf l)).
Qed.

Lemma dir_tail_data n q pc h rs got acks msg l B R :
  dir_inv n q pc h rs got (dataOf (msg :: l)) acks B R →
  dir_inv n q pc h rs got (dataOf l) acks B R.
Proof using.
  intros I. destruct msg; try exact I. by eapply step_reject.
Qed.

(** The sending goroutine is woken from a full queue. *)
Lemma dir_signalACK n g h rs got data acks B R :
  dir_inv n (sendQueue g) (sendPC g) h rs got data acks B R →
  dir_inv n (sendQueue (signalACK g)) (sendPC (signalACK g)) h rs got data
    acks B R.
Proof using.
  intros I. unfold signalACK.
  assert (∃ pc, sendPC g = pc) as [pc Hpc] by eauto.
  rewrite Hpc. destruct pc; try exact I. simpl. by eapply dir_pc.
Qed.

Lemma signalACK_fields g :
  g_cfg (signalACK g) = g_cfg g ∧ recvSeq (signalACK g) = recvSeq g
  ∧ recvPC (signalACK g) = recvPC g.
Proof using. unfold signalACK. by case_match. Qed.

Section RecvStep.
Context (n : nat) (g : GoBackNConn) (msg : Message) (l : list Message).
(** As sender. *)
Context (h : list PacketData) (rsB : Z) (gotB data1 : list PacketData).
Context (B1 R1 : nat).
(** As receiver. *)
Context (qB : queue) (pcB : sendPCs) (hB got : list PacketData).
Context (acks2 : list ack) (B2 R2 : nat).
Context (Hcfg : cfg_s (g_cfg g) = Z.of_nat n + 1).
Context (I1 : dir_inv n (sendQueue g) (sendPC g) h rsB gotB data1
                (acksOf (msg :: l)) B1 R1).
Context (I2 : dir_inv n qB pcB hB (recvSeq g) got (dataOf (msg :: l)) acks2
                B2 R2).

Definition recv_state (pc : recvPCs) (s' : St) : Prop :=
  ∃ ms B1' R2', wire s'.2 = Serialize <$> ms ∧ dataOf ms = []
  ∧ synsOf ms = []
  ∧ dir_inv n (sendQueue s'.1) (sendPC s'.1) h rsB gotB data1 (acksOf l) B1' R1
  ∧ dir_inv n qB pcB hB (recvSeq s'.1) (got ++ pendingPush pc) (dataOf l)
      (acks2 ++ acksOf ms) B2 R2'
  ∧ g_cfg s'.1 = g_cfg g.

Definition recv_post (r : result recvPCs * St) : Prop :=
  match r with
  | (Panic _, _) => True
  | (Ok pc, s') => recv_state pc s'
  | (Err e, s') => recv_state (RDone (Some e)) s'
  end.

(** The message is consumed without effect on the protocol. *)
Lemma recv_state_quiet pc g' i :
  pendingPush pc = [] → wire i = [] → core g' = core g →
  recv_state pc (g', i).
Proof using I1 I2.
  intros Hp Hw Hc. injection Hc as E1 E2 E3 E4 E5. exists [], B1, R2. simpl. rewrite Hp, !app_nil_r.
  replace (sendQueue g') with (sendQueue g) by done.
  replace (sendPC g') with (sendPC g) by done.
  replace (recvSeq g') with (recvSeq g) by done.
  split_and!; try done; [by eapply dir_tail_acks|by eapply dir_tail_data].
Qed.

Lemma handleData_post m g1 i :
  msg = MData m → core g1 = core g → wire i = [] →
  recv_post (handleData m (g1, i)).
Proof using I1 I2 Hcfg.
  intros Hmsg Hc Hw. destruct (handleData m (g1, i)) as [res s'] eqn:Hd.
  apply handleData_spec in Hd.
  assert (Hc' := Hc). injection Hc' as E1 E2 E3 E4 E5.
  replace (recvSeq g1) with (recvSeq g) in Hd by done.
  replace (g_cfg g1) with (g_cfg g) in Hd by done.
  destruct s' as [g' i']. simpl in Hd.
  destruct Hd as [(p & ->)|[(e & -> & Hg & Hw')|[(Hseq & Hw' & -> & r & Hr & Hg)
    |(Hseq & -> & Hg & Hw')]]]; simpl; [done| | |].
  - apply recv_state_quiet; [done|congruence|congruence].
  - pose proof (di_s _ _ _ _ _ _ _ _ _ _ I2) as Hs.
    pose proof (qr_s _ _ _ (di_rep _ _ _ _ _ _ _ _ _ _ I2)) as Hrange.
    assert (Hrs := di_rs _ _ _ _ _ _ _ _ _ _ I2).
    pose proof (Z.mod_pos_bound (Z.of_nat R2) (q_s qB) ltac:(lia)).
    rewrite Hcfg, u8_small, umod_pos in Hr by (unfold is_u8; lia).
    rewrite Hrs, <- Hs, mod_succ in Hr by lia.
    pose proof (dir_tail_acks _ _ _ _ _ _ _ _ _ _ _ I1) as I1'.
    assert (Hhead : dataOf (msg :: l) = m :: dataOf l) by (by rewrite Hmsg).
    pose proof (step_accept _ _ _ _ _ _ _ _ _ _ I2 _ _ Hhead Hseq) as I2'.
    injection Hg as F1 F2 F3 F4 F5. exists [MACK (Seq m)], B1, (S R2). simpl.
    replace (sendQueue g') with (sendQueue g) by congruence.
    replace (sendPC g') with (sendPC g) by congruence.
    replace (recvSeq g') with (Z.of_nat (S R2) mod q_s qB).
    2: { replace (Z.of_nat (S R2)) with (Z.of_nat R2 + 1) by lia. congruence. }
    replace (pendingPush _) with (if IsPing m then [] else [m])
      by (by destruct (IsPing m)).
    rewrite Hw', Hw, Hseq. split_and!; try done. congruence.
  - destruct Hw' as [Hw'|Hw'].
    + apply recv_state_quiet; [done|congruence|congruence].
    + pose proof (dir_tail_acks _ _ _ _ _ _ _ _ _ _ _ I1) as I1'.
      pose proof (dir_tail_data _ _ _ _ _ _ _ _ _ _ _ I2) as I2'.
      apply step_nack_sent in I2'. injection Hg as F1 F2 F3 F4 F5.
      exists [MNACK (recvSeq g)], B1, R2. simpl. rewrite app_nil_r.
      replace (sendQueue g') with (sendQueue g) by congruence.
      replace (sendPC g') with (sendPC g) by congruence.
      replace (recvSeq g') with (recvSeq g) by congruence.
      rewrite Hw', Hw. split_and!; try done. congruence.
Qed.

(** The state after the queue has processed an acknowledgement. *)
Lemma recv_state_queue g' i B1' :
  wire i = [] → recvSeq g' = recvSeq g → g_cfg g' = g_cfg g →
  dir_inv n (sendQueue g') (sendPC g') h rsB gotB data1 (acksOf l) B1' R1 →
  recv_state RLoop (g', i).
Proof using I2.
  intros Hw Hr Hc I1'. exists [], B1', R2. simpl. rewrite !app_nil_r, Hr.
  split_and!; try done. by eapply dir_tail_data.
Qed.

Lemma handleACK_post seq g1 i :
  msg = MACK seq → core g1 = core g → wire i = [] →
  recv_post (handleACK seq (g1, i)).
Proof using I1 I2.
  intros Hmsg Hc Hw. injection Hc as E1 E2 E3 E4 E5. unfold handleACK, tryG. mstep. simpl.
  assert (Hhead : acksOf (msg :: l) = AckOf seq :: acksOf l) by (by rewrite Hmsg).
  destruct (step_ack _ _ _ _ _ _ _ _ _ _ I1 _ _ Hhead) as (q' & B1' & Hq & I1').
  replace (sendQueue g1) with (sendQueue g) by done. rewrite Hq. simpl.
  destruct (signalACK_fields (set_sendQueue q' g1)) as (Hf1 & Hf2 & Hf3).
  apply (recv_state_queue _ _ B1'); [done|by rewrite Hf2|by rewrite Hf1|].
  apply dir_signalACK. simpl. replace (sendPC g1) with (sendPC g) by done. done.
Qed.

Lemma handleNACK_post pick seq g1 i :
  msg = MNACK seq → core g1 = core g → wire i = [] →
  recv_post (handleNACK pick seq (g1, i)).
Proof using I1 I2.
  intros Hmsg Hc Hw. injection Hc as E1 E2 E3 E4 E5. unfold handleNACK, tryG. mstep. simpl.
  assert (Hhead : acksOf (msg :: l) = NackOf seq :: acksOf l) by (by rewrite Hmsg).
  destruct (step_nack _ _ _ _ _ _ _ _ _ _ I1 pick _ _ Hhead)
    as ([rsd bumped] & q' & B1' & Hq & I1').
  replace (sendQueue g1) with (sendQueue g) by done. rewrite Hq. simpl.
  replace (sendPC g) with (sendPC (set_sendQueue q' g1)) in I1' by done.
  case_if; simpl.
  { by apply (recv_state_queue _ _ B1'). }
  destruct (signalACK_fields (set_sendQueue q' g1)) as (Hf1 & Hf2 & Hf3).
  destruct bumped; apply (recv_state_queue _ _ B1'); try done;
    simpl; try (by rewrite ?Hf1, ?Hf2).
  by apply (dir_signalACK n (set_sendQueue q' g1)).
Qed.

Lemma handlePacket_post pick i :
  wire i = [] → recv_post (handlePacket pick (Serialize msg) (g, i)).
Proof using I1 I2 Hcfg.
  intros Hw. destruct (handlePacket _ _ _) as [res s'] eqn:Hh.
  apply handlePacket_pre in Hh as
    [(e & -> & Hg & Hw')|[(p & ->)|(g1 & i1 & Hc & Hw1 & Hh)]]; [|done|].
  - destruct s' as [g' i']. apply recv_state_quiet; [done| |done].
    simpl in Hw'. congruence.
  - rewrite Hw in Hw1. rewrite <- Hh. clear Hh.
    assert (∃ m, msg = m) as [m Hm] by eauto. rewrite Hm.
    destruct m.
    + by apply handleData_post.
    + by apply handleACK_post.
    + by apply recv_state_quiet.
    + by apply handleNACK_post.
    + unfold handleFIN, tryG. mstep. simpl.
      destruct (remoteClosed g1); simpl; [done|].
      apply recv_state_quiet; [done|done|]. by case_if.
    + by apply recv_state_quiet.
Qed.

End RecvStep.

End Specs.

(** ** The invariant of the two endpoints *)

Definition half (n : nat) (snd rcv : endpoint) (out back : list Message) : Prop :=
  ∃ B R, dir_inv n (sendQueue (conn snd)) (sendPC (conn snd)) (hist snd)
    (recvSeq (conn rcv)) (accepted rcv) (dataOf out) (acksOf back) B R.

(** Accepted packets are on [recvDataChan], about to be put there, or were
    dropped when the receiving goroutine stopped. *)
Definition push_ok (e : endpoint) : Prop :=
  match recvPC (conn e) with
  | RLoop => accepted e = pushed e
  | RPush m => accepted e = pushed e ++ [m]
  | RDone _ => pushed e `prefix_of` accepted e
  end.

Record local_inv (n : nat) (e : endpoint) : Prop := {
  li_n : cfg_n (g_cfg (conn e)) = Z.of_nat n;
  li_s : cfg_s (g_cfg (conn e)) = Z.of_nat n + 1;
  li_push : push_ok e;
  li_hist : strip <$> visible (hist e) = strip <$> submitted e
}.

(** The fields both invariants depend on. *)
Definition same_ep (e e' : endpoint) : Prop :=
  core (conn e') = core (conn e) ∧ hist e' = hist e
  ∧ submitted e' = submitted e ∧ accepted e' = accepted e
  ∧ pushed e' = pushed e.

Lemma same_ep_local n e e' : same_ep e e' → local_inv n e → local_inv n e'.
Proof.
  intros (Hc & H1 & H2 & H3 & H4) [? ? Hp ?].
  injection Hc as E1 E2 E3 E4 E5. unfold push_ok in *.
  constructor; unfold push_ok; rewrite ?E1, ?E5, ?H1, ?H2, ?H3, ?H4; done.
Qed.

Lemma same_ep_half n e e' f out back :
  same_ep e e' → half n e f out back → half n e' f out back.
Proof.
  intros (Hc & H1 & H2 & H3 & H4) (B & R & I).
  injection Hc as E1 E2 E3 E4 E5.
  exists B, R. by rewrite E2, E4, H1.
Qed.

Lemma same_ep_half_r n e e' f out back :
  same_ep e e' → half n f e out back → half n f e' out back.
Proof.
  intros (Hc & H1 & H2 & H3 & H4) (B & R & I).
  injection Hc as E1 E2 E3 E4 E5.
  exists B, R. by rewrite E3, H3.
Qed.

Section Invariant.
Context `{FloatToInt}.

Lemma syncer_step_s c c' : syncer_step c c' → sy_s c' = sy_s c.
Proof using.
  destruct 1; try done.
  - apply syncer_processACK_s.
  - apply syncer_processNACK_s.
  - unfold waitForSync_reset, reset, resetUnsafe. by rewrite trySendCancel_s.
  - unfold proceed_reset, reset, resetUnsafe. by rewrite trySendCancel_s.
  - unfold proceed_timeout, resetUnsafe. case_if; [done|].
    by rewrite trySendCancel_s.
Qed.

(** [Close] sends at most a FIN and stops the queue. *)
Lemma Close_spec g i g' i' :
  wire i = [] → Close (g, i) = (Ok tt, (g', i')) →
  (wire i' = [] ∨ wire i' = Serialize <$> [MFIN])
  ∧ (core g' = core g
     ∨ ∃ q, stop (sendQueue g) = Ok q ∧ core g' = core (set_sendQueue q g)).
Proof using.
  intros Hw. unfold Close, getG, modG, tryG. mstep. simpl.
  destruct (closeOnce g); [intros [= <- <-]; by auto|]. simpl.
  destruct (g_quit g); [done|]. simpl.
  set (g1 := set_g_quit true (set_closeOnce true g)).
  destruct (remoteClosed g); simpl.
  - destruct (stop (sendQueue g)) as [q| |] eqn:Hst; simpl; try done.
    intros [= <- <-]. split; [by left|]. right. eauto.
  - destruct (sendPacket MFIN false (g1, i)) as [res [g2 i2]] eqn:Hs.
    apply sendPacket_spec in Hs as [(e & -> & Hg & Hw2)|(-> & Hg & Hw2)];
      simpl in *.
    + subst g2. simpl.
      destruct (stop (sendQueue g)) as [q| |] eqn:Hst; simpl; try done.
      intros [= <- <-]. split; [left; congruence|]. right. eauto.
    + injection Hg as E1 E2 E3 E4 E5. rewrite E2. simpl.
      destruct (stop (sendQueue g)) as [q| |] eqn:Hst; simpl; try done.
      intros [= <- <-]. split; [right; by rewrite Hw2, Hw|]. right.
      exists q. split; [done|]. unfold core. simpl. congruence.
Qed.

Lemma stop_rep q q' h B :
  stop q = Ok q' → queue_rep q h B → queue_rep q' h B ∧ q_s q' = q_s q.
Proof using.
  unfold stop. destruct (q_quit q); [done|]. intros [= <-] [].
  split; [by constructor|done].
Qed.

(** A change of the queue that the abstraction does not see. *)
Lemma half_queue n e f out back q h :
  (∀ B, queue_rep (sendQueue (conn e)) h B → queue_rep q h B) →
  q_s q = q_s (sendQueue (conn e)) → h = hist e →
  half n e f out back →
  half n (mkEndpoint (set_sendQueue q (conn e)) (hist e) (submitted e)
            (accepted e) (pushed e)) f out back.
Proof using.
  intros Hq Hs -> (B & R & I). exists B, R. simpl.
  eapply dir_queue; [exact I| |done]. apply Hq, I.
Qed.

(** Adding messages that carry neither data nor acknowledgements. *)
Lemma half_neutral n e f out back ms :
  dataOf ms = [] → acksOf ms = [] →
  (half n e f out back → half n e f (out ++ ms) back)
  ∧ (half n e f back out → half n e f back (out ++ ms)).
Proof using.
  intros Hd Ha. unfold half. rewrite dataOf_app, acksOf_app, Hd, Ha, !app_nil_r.
  done.
Qed.

Lemma visible_cases p : visible [p] = [] ∨ visible [p] = [p].
Proof using. rewrite visible_one. destruct (IsPing p); auto. Qed.

Lemma evOK_visible ev : evOK ev → visible (evData ev) = evData ev.
Proof using.
  destruct ev; try done. intros Hp. simpl. by rewrite visible_one, Hp.
Qed.

(** The statement of preservation for a step of endpoint [e] against [f]. *)
Definition preserved (n : nat) (f e' : endpoint) (mo : list Message)
    (inw' outw' : list bytes) : Prop :=
  ∃ mi' mo', inw' = Serialize <$> mi' ∧ outw' = Serialize <$> mo'
  ∧ synsOf mo' = synsOf mo
  ∧ local_inv n e' ∧ half n e' f mo' mi' ∧ half n f e' mi' mo'.

Lemma preserved_same n e e' f mi mo mo0 :
  synsOf mo = synsOf mo0 →
  same_ep e e' → local_inv n e → half n e f mo mi → half n f e mi mo →
  preserved n f e' mo0 (Serialize <$> mi) (Serialize <$> mo).
Proof using.
  intros Hy Hs Hl H1 H2. exists mi, mo. split_and!; try done.
  - by eapply same_ep_local.
  - by eapply same_ep_half.
  - by eapply same_ep_half_r.
Qed.

Lemma send_preserved n e f mi mo ev i g' i' :
  local_inv n e → half n e f mo mi → half n f e mi mo →
  wire i = [] → evOK ev →
  sendStep ev (conn e, i) = Some (Ok tt, (g', i')) →
  preserved n f
    (mkEndpoint g' (hist e ++ added (sendPC (conn e)) (sendPC g'))
       (submitted e ++ evData ev) (accepted e) (pushed e)) mo
    (Serialize <$> mi) ((Serialize <$> mo) ++ wire i').
Proof using.
  intros [Hn Hs Hp Hh] (B & R & I) (B2 & R2 & I2) Hw Hok Hstep.
  unfold sendStep in Hstep. simpl in Hstep.
  destruct (sendBody ev (conn e)) as [m|] eqn:Hb; [|done].
  pose proof (sendBody_post _ _ _ _ _ _ _ _ _ _ Hn I ev i m eq_refl Hok Hw Hb)
    as Hpost.
  assert (∃ pc s', send_state n (conn e) (hist e) (recvSeq (conn f))
      (accepted f) (dataOf mo) (acksOf mi) B R (evData ev) pc s'
      ∧ g' = set_sendPC pc s'.1 ∧ i' = s'.2) as (pc & s' & Hst & -> & ->).
  { destruct (m (conn e, i)) as [[pc|err|p] s']; simpl in *; inv Hstep; eauto. }
  destruct Hst as (ms & Hw' & Ha & Hy & I' & E1 & E2 & E3 & Hv).
  exists mi, (mo ++ ms). simpl. rewrite Hw', <- fmap_app.
  split_and!; [done|done|by rewrite synsOf_app, Hy, app_nil_r| | |].
  - constructor; simpl; try congruence.
    + unfold push_ok in *. simpl. by rewrite E3.
    + rewrite visible_app, !fmap_app, Hh, Hv. by rewrite evOK_visible.
  - exists B, R. simpl. by rewrite dataOf_app.
  - exists B2, R2. simpl. rewrite E2, acksOf_app, Ha, app_nil_r. done.
Qed.

Lemma recv_preserved n e f b mi mo pick i g' i' :
  local_inv n e → half n e f mo (b :: mi) → half n f e (b :: mi) mo →
  wire i = [] →
  recvStep (REvBytes pick (Serialize b)) (conn e, i) = Some (Ok tt, (g', i')) →
  preserved n f
    (mkEndpoint g' (hist e) (submitted e)
       (accepted e ++ pendingPush (recvPC g')) (pushed e)) mo
    (Serialize <$> mi) ((Serialize <$> mo) ++ wire i').
Proof using.
  intros [Hn Hs Hp Hh] (B & R & I) (B2 & R2 & I2) Hw Hstep.
  unfold recvStep in Hstep. simpl in Hstep.
  destruct (recvPC (conn e)) eqn:Hpc; try done.
  pose proof (handlePacket_post _ _ _ _ _ _ _ _ _ _ _ _ _ _ _ _ _ Hs I I2
                pick i Hw) as Hpost.
  assert (∃ pc s', recv_state n (conn e) mi (hist e) (recvSeq (conn f))
      (accepted f) (dataOf mo) R (sendQueue (conn f)) (sendPC (conn f))
      (hist f) (accepted e) (acksOf mo) B2 pc s'
      ∧ g' = set_recvPC pc s'.1 ∧ i' = s'.2) as (pc & s' & Hst & -> & ->).
  { destruct (handlePacket _ _ _) as [[pc|err|p] s']; simpl in *; inv Hstep;
      eauto. }
  destruct Hst as (ms & B' & R2' & Hw' & Hd & Hy & I' & I2' & E1).
  exists mi, (mo ++ ms). simpl. rewrite Hw', <- fmap_app.
  split_and!; [done|done|by rewrite synsOf_app, Hy, app_nil_r| | |].
  - unfold push_ok in Hp. rewrite Hpc in Hp.
    constructor; simpl; try congruence.
    unfold push_ok. simpl. rewrite Hp.
    destruct pc; simpl; rewrite ?app_nil_r; reflexivity.
  - exists B', R. simpl. rewrite dataOf_app, Hd, app_nil_r. done.
  - exists B2, R2'. simpl. by rewrite acksOf_app.
Qed.

Lemma push_preserved n e f mi mo i g' i' :
  local_inv n e → half n e f mo mi → half n f e mi mo →
  recvStep REvPush (conn e, i) = Some (Ok tt, (g', i')) →
  preserved n f
    (mkEndpoint g' (hist e) (submitted e) (accepted e)
       (pushed e ++ pendingPush (recvPC (conn e)))) mo
    (Serialize <$> mi) (Serialize <$> mo).
Proof using.
  intros [Hn Hs Hp Hh] (B & R & I) (B2 & R2 & I2) Hstep.
  unfold recvStep in Hstep. simpl in Hstep. unfold push_ok in Hp.
  destruct (recvPC (conn e)) as [|m|] eqn:Hpc; try done.
  case_if_in Hstep; [|done]. simpl in Hstep. injection Hstep as <- _.
  exists mi, mo. split_and!; try done.
  - exists B, R. exact I.
  - exists B2, R2. exact I2.
Qed.

Lemma recv_stop_preserved n e f mi mo ev i g' i' :
  (ev = REvQuit ∨ ∃ err, ev = REvStreamErr err) →
  local_inv n e → half n e f mo mi → half n f e mi mo →
  recvStep ev (conn e, i) = Some (Ok tt, (g', i')) →
  preserved n f
    (mkEndpoint g' (hist e) (submitted e) (accepted e) (pushed e)) mo
    (Serialize <$> mi) (Serialize <$> mo).
Proof using.
  intros Hev [Hn Hs Hp Hh] (B & R & I) (B2 & R2 & I2) Hstep.
  assert (∃ o, g' = set_recvPC (RDone o) (conn e)
    ∧ recvPC (conn e) ≠ RDone o ∧ pushed e `prefix_of` accepted e)
    as (o & -> & _ & Hpre).
  { unfold recvStep in Hstep. simpl in Hstep. unfold push_ok in Hp.
    destruct Hev as [->|[err ->]];
      destruct (recvPC (conn e)) as [|m|] eqn:Hpc; try done;
      try (case_if_in Hstep; [|done]); simpl in Hstep; inv Hstep;
      eexists; split_and!; try done; rewrite Hp;
      first [reflexivity | by exists [m]]. }
  exists mi, mo. split_and!; try done.
  - by exists B, R.
  - by exists B2, R2.
Qed.

Lemma close_preserved n e f mi mo i g' i' :
  local_inv n e → half n e f mo mi → half n f e mi mo →
  wire i = [] → Close (conn e, i) = (Ok tt, (g', i')) →
  preserved n f
    (mkEndpoint g' (hist e) (submitted e) (accepted e) (pushed e)) mo
    (Serialize <$> mi) ((Serialize <$> mo) ++ wire i').
Proof using.
  intros Hl H1 H2 Hw Hc. apply Close_spec in Hc as [Hwire Hcore]; [|done].
  assert (∃ ms, wire i' = Serialize <$> ms ∧ dataOf ms = [] ∧ acksOf ms = []
    ∧ synsOf ms = []) as (ms & -> & Hd & Ha & Hy).
  { destruct Hwire as [->| ->]; [by exists []|by exists [MFIN]]. }
  rewrite <- fmap_app.
  destruct (half_neutral n e f mo mi ms Hd Ha) as [N1 _].
  destruct (half_neutral n f e mo mi ms Hd Ha) as [_ N2].
  specialize (N1 H1). specialize (N2 H2).
  assert (Hys : synsOf (mo ++ ms) = synsOf mo)
    by (by rewrite synsOf_app, Hy, app_nil_r).
  destruct Hcore as [Hcore|(q & Hst & Hcore)].
  - by eapply preserved_same.
  - set (e1 := mkEndpoint (set_sendQueue q (conn e)) (hist e) (submitted e)
                 (accepted e) (pushed e)).
    apply (preserved_same n e1); try done.
    + by destruct Hl.
    + eapply half_queue; try done.
      * intros B HB. by eapply stop_rep.
      * unfold stop in Hst. destruct (q_quit _); [done|]. by injection Hst as <-.
Qed.

Lemma ep_step_preserved n e f inw outw inw' e' outw' mi mo :
  ep_step inw e outw inw' e' outw' →
  inw = Serialize <$> mi → outw = Serialize <$> mo →
  local_inv n e → half n e f mo mi → half n f e mi mo →
  preserved n f e' mo inw' outw'.
Proof using.
  intros Hstep. destruct Hstep as
    [ev i e g' i' inw outw Hw Hok Hst|pick b i e g' i' inw outw Hw Hst
    |i e g' i' inw outw Hw Hst|ev i e g' i' inw outw Hev Hst
    |c e inw outw Hst|t t' e inw outw Ht Hst|t t' e inw outw Ht Hst
    |i e g' i' inw outw Hw Hst|m l e inw outw Hm|ds dr e inw outw];
    intros Hin Hout Hl H1 H2; subst outw.
  - subst inw. by eapply send_preserved.
  - destruct mi as [|mb mi]; [done|]. simpl in Hin. injection Hin as -> ->.
    by eapply recv_preserved.
  - subst inw. by eapply push_preserved.
  - subst inw. by eapply recv_stop_preserved.
  - subst inw. exists mi, mo. split_and!; try done.
    + by destruct Hl.
    + eapply half_queue; try done. intros B HB. apply rep_set_syncer; [done|].
      rewrite (syncer_step_s _ _ Hst). apply HB.
  - subst inw. by apply (preserved_same n e).
  - subst inw. by apply (preserved_same n e).
  - subst inw. by eapply close_preserved.
  - subst inw. by apply (preserved_same n e).
  - subst inw. by apply (preserved_same n e).
Qed.

Definition sys_inv (n : nat) (σ : system) : Prop :=
  ∃ mab mba, wireAB σ = Serialize <$> mab ∧ wireBA σ = Serialize <$> mba
  ∧ local_inv n (sideA σ) ∧ local_inv n (sideB σ)
  ∧ half n (sideA σ) (sideB σ) mab mba
  ∧ half n (sideB σ) (sideA σ) mba mab.

Lemma half_lose_out n e f l1 x l2 back :
  half n e f (l1 ++ x :: l2) back → half n e f (l1 ++ l2) back.
Proof using.
  intros (B & R & I). exists B, R.
  rewrite dataOf_app in *. destruct x; try exact I.
  by apply (step_lose_data _ _ _ _ _ _ _ _ _ _ I (dataOf l1) m (dataOf l2)).
Qed.

Lemma half_lose_back n e f l1 x l2 out :
  half n e f out (l1 ++ x :: l2) → half n e f out (l1 ++ l2).
Proof using.
  intros (B & R & I). exists B, R.
  rewrite acksOf_app in *. destruct x; try exact I.
  - by apply (step_lose_ack _ _ _ _ _ _ _ _ _ _ I (acksOf l1) (AckOf seq)
                (acksOf l2)).
  - by apply (step_lose_ack _ _ _ _ _ _ _ _ _ _ I (acksOf l1) (NackOf seq)
                (acksOf l2)).
Qed.

Lemma fmap_split {A C} (f : A → C) (k : list A) l1 x l2 :
  l1 ++ x :: l2 = f <$> k →
  ∃ k1 y k2, k = k1 ++ y :: k2 ∧ l1 = f <$> k1 ∧ x = f y ∧ l2 = f <$> k2.
Proof using.
  intros Heq. symmetry in Heq. apply fmap_app_inv in Heq as (k1 & k2' & -> & Hk2 & ->).
  symmetry in Hk2. apply fmap_cons_inv in Hk2 as (y & k2 & -> & -> & ->).
  eauto 10.
Qed.

Lemma sys_inv_step n σ σ' : sys_step σ σ' → sys_inv n σ → sys_inv n σ'.
Proof using.
  intros Hstep (mab & mba & Hab & Hba & La & Lb & H1 & H2).
  destruct Hstep as [a b ab ba a' ab' ba' He|a b ab ba b' ab' ba' He
    |a b l1 x l2 ba|a b ab l1 x l2]; simpl in *.
  - destruct (ep_step_preserved n a b _ _ _ _ _ _ _ He Hba Hab La H1 H2)
      as (mba' & mab' & -> & -> & _ & La' & H1' & H2').
    by exists mab', mba'.
  - destruct (ep_step_preserved n b a _ _ _ _ _ _ _ He Hab Hba Lb H2 H1)
      as (mab' & mba' & -> & -> & _ & Lb' & H1' & H2').
    by exists mab', mba'.
  - apply fmap_split in Hab as (k1 & y & k2 & -> & -> & -> & ->).
    exists (k1 ++ k2), mba. rewrite fmap_app. split_and!; try done.
    + by eapply half_lose_out.
    + by eapply half_lose_back.
  - apply fmap_split in Hba as (k1 & y & k2 & -> & -> & -> & ->).
    exists mab, (k1 ++ k2). rewrite fmap_app. split_and!; try done.
    + by eapply half_lose_back.
    + by eapply half_lose_out.
Qed.

Lemma sys_inv_init n σ : (1 ≤ n ≤ 254)%nat → initial n σ → sys_inv n σ.
Proof using.
  intros Hn (ga & gb & (A1 & A2 & A3 & A4 & A5 & A6 & A7)
    & (B1 & B2 & B3 & B4 & B5 & B6 & B7) & ->).
  exists [], []. split_and!; try done.
  - constructor; try done. unfold push_ok. simpl. by rewrite A7.
  - constructor; try done. unfold push_ok. simpl. by rewrite B7.
  - exists 0%nat, 0%nat. simpl. rewrite A3, A6, B4. by apply dir_init.
  - exists 0%nat, 0%nat. simpl. rewrite B3, B6, A4. by apply dir_init.
Qed.

Lemma reachable_inv n σ : (1 ≤ n ≤ 254)%nat → reachable n σ → sys_inv n σ.
Proof using.
  intros Hn (σ0 & H0 & Hrtc).
  apply (sys_inv_init n _ Hn) in H0.
  induction Hrtc as [|x y z Hxy _ IH]; [done|].
  by apply IH, (sys_inv_step n x).
Qed.

Lemma push_ok_prefix e : push_ok e → pushed e `prefix_of` accepted e.
Proof using.
  unfold push_ok. destruct (recvPC (conn e)); intros Hp; try done.
  - by rewrite Hp.
  - rewrite Hp. by exists [m].
Qed.

Lemma half_prefix n e f out back :
  local_inv n e → local_inv n f → half n e f out back →
  strip <$> pushed f `prefix_of` strip <$> submitted e.
Proof using.
  intros [_ _ _ Hh] [_ _ Hp _] (B & R & I).
  apply push_ok_prefix in Hp. rewrite <- Hh.
  rewrite (di_got _ _ _ _ _ _ _ _ _ _ I) in Hp.
  destruct Hp as [k Hk].
  rewrite <- (take_drop R (hist e)), visible_app, Hk, !fmap_app.
  rewrite <- app_assoc. by eexists.
Qed.

End Invariant.

(** ** Delivery *)

(** In every state two connected endpoints can reach from a completed
    handshake with window [n], whatever the interleaving of their goroutines,
    the packets lost, the resends, pings and timeouts, the data packets each
    side has put on [recvDataChan] are, in order, without gap or duplicate, a
    prefix of the packets the other side took from [sendDataChan]. *)
Theorem gbn_in_order_delivery `{FloatToInt} n σ :
  (1 ≤ n ≤ 254)%nat → reachable n σ →
  strip <$> pushed (sideB σ) `prefix_of` strip <$> submitted (sideA σ)
  ∧ strip <$> pushed (sideA σ) `prefix_of` strip <$> submitted (sideB σ).
Proof.
  intros Hn Hr. destruct (reachable_inv n σ Hn Hr)
    as (mab & mba & _ & _ & La & Lb & H1 & H2).
  split; by eapply half_prefix.
Qed.

(** A run in which one packet is sent, acknowledged and delivered. *)
Definition io0 : io := mkIO (λ _, 1) 0 (λ _, None) [].
Definition demoPacket : PacketData := mkPacketData 0 true false [7; 8].
Definition demoConn `{FloatToInt} : GoBackNConn :=
  (start (setN 20 (newGoBackNConn (newConfig 20)), io0)).2.1.
Definition demoStart `{FloatToInt} : endpoint :=
  mkEndpoint demoConn [] [] [] [].

Lemma demo_run : let _ := amd64 in
  ∃ σ, reachable 20 σ ∧ pushed (sideB σ) = [demoPacket]
       ∧ submitted (sideA σ) = [demoPacket].
Proof.
  intros fl. eexists. split; [|split].
  - exists (mkSystem demoStart demoStart [] []). split.
    + exists demoConn, demoConn. split_and!; try done; vm_compute; reflexivity.
    + eapply rtc_l; [eapply ss_A, (es_send (SEvData demoPacket) io0);
        [done|done|vm_compute; reflexivity]|].
      eapply rtc_l; [eapply ss_A, (es_send SEvGo io0);
        [done|done|vm_compute; reflexivity]|].
      eapply rtc_l; [eapply ss_B, (es_recv true _ io0);
        [done|vm_compute; reflexivity]|].
      eapply rtc_l; [eapply ss_B, (es_push io0);
        [done|vm_compute; reflexivity]|].
      apply rtc_refl.
  - reflexivity.
  - reflexivity.
Qed.

Lemma gbn_in_order_delivery_witness : let _ := amd64 in
  ∃ σ, reachable 20 σ ∧ pushed (sideB σ) = [demoPacket]
  ∧ strip <$> pushed (sideB σ) `prefix_of` strip <$> submitted (sideA σ)
  ∧ strip <$> pushed (sideA σ) `prefix_of` strip <$> submitted (sideB σ).
Proof.
  intros fl. destruct demo_run as (σ & Hr & Hp & _).
  exists σ. split; [exact Hr|]. split; [exact Hp|].
  apply (@gbn_in_order_delivery amd64 20 σ); [lia|exact Hr].
Defined.

(** Successive calls of [Recv]: the messages returned and the packets left.  A
    call may fail, by its timeout or because the connection closed, as long as
    it fails between two messages; one that fails with chunks of a split
    message already taken is excluded ([recv_timeout_loses_chunks]). *)
Fixpoint recvMany (chan : list PacketData) (calls : list (list recvSel)) :
    option (list bytes * list PacketData) :=
  match calls with
  | [] => Some ([], chan)
  | sels :: calls =>
      match recvLoop [] chan sels with
      | Some (Ok r, chan) =>
          match recvMany chan calls with
          | Some (rs, rest) => Some (r :: rs, rest)
          | None => None
          end
      | Some (Err _, chan') =>
          if (length chan' =? length chan)%nat then recvMany chan calls else None
      | _ => None
      end
  end.

Lemma recvMany_messages chan calls rs rest :
  recvMany chan calls = Some (rs, rest) → rs `prefix_of` messagesOf [] chan.
Proof.
  revert chan rs. induction calls as [|sels calls IH]; simpl; intros chan rs.
  - intros [= <- <-]. apply prefix_nil.
  - destruct (recvLoop [] chan sels) as [[[r|e|p] chan']|] eqn:Hr; try done.
    + destruct (recvMany chan' calls) as [[rs' rest']|] eqn:Hm; [|done].
      intros [= <- <-]. rewrite (recvLoop_messages _ _ _ _ _ Hr).
      apply prefix_cons. eapply IH. done.
    + case_if; [apply IH|done].
Qed.

Lemma messagesOf_strip acc ps ps' :
  strip <$> ps = strip <$> ps' → messagesOf acc ps = messagesOf acc ps'.
Proof.
  revert acc ps'. induction ps as [|p ps IH]; intros acc [|p' ps'] Hs; try done.
  injection Hs as Hf Hp Hs. simpl. rewrite Hf, Hp.
  destruct (FinalChunk p'); [f_equal|]; by apply IH.
Qed.

Lemma messagesOf_strip_prefix acc ps ps' :
  strip <$> ps `prefix_of` strip <$> ps' →
  messagesOf acc ps `prefix_of` messagesOf acc ps'.
Proof.
  intros [k Hk]. apply fmap_app_inv in Hk as (l1 & l2 & H1 & _ & ->).
  rewrite (messagesOf_strip acc ps l1) by done.
  apply messagesOf_prefix. by exists l2.
Qed.

(** Messages reassembled from a prefix of the packets made of [msgs]. *)
Lemma delivered_messages cfg msgs pss sub psh calls rs rest :
  0 ≤ maxChunkSize cfg →
  Forall (λ d, maxChunkSize cfg = 0 ∨ d ≠ []) msgs →
  Forall2 (λ d ps, sendPackets cfg d = Some (Ok ps)) msgs pss →
  strip <$> sub `prefix_of` strip <$> mjoin pss →
  strip <$> psh `prefix_of` strip <$> sub →
  recvMany psh calls = Some (rs, rest) → rs `prefix_of` msgs.
Proof.
  intros Hmax Hne Hsend Hsub Hpre Hrecv.
  apply recvMany_messages in Hrecv.
  rewrite <- (messagesOf_all msgs pss).
  - etrans; [exact Hrecv|]. apply messagesOf_strip_prefix. by etrans.
  - clear -Hmax Hne Hsend. induction Hsend as [|d ps msgs pss Hs _ IH];
      [constructor|]. inv Hne. constructor; [|by apply IH].
    destruct (sendPackets_spec cfg d Hmax) as (ps' & Hps & Ho & _); [done|].
    congruence.
Qed.

(** C6: take the messages given to [Send] on one side, split with the
    configuration [cfg] (none of them empty when splitting is on), all handed
    over in full except that the last may be cut short.  The messages returned
    by any number of [Recv] calls on the other side are, in order and byte for
    byte, the first of them; calls that fail are allowed between messages, but
    not with part of a split message taken. *)
Theorem gbn_messages_delivered `{FloatToInt} n σ cfg msgs pss calls rs rest :
  (1 ≤ n ≤ 254)%nat → reachable n σ →
  0 ≤ maxChunkSize cfg →
  Forall (λ d, maxChunkSize cfg = 0 ∨ d ≠ []) msgs →
  Forall2 (λ d ps, sendPackets cfg d = Some (Ok ps)) msgs pss →
  strip <$> submitted (sideA σ) `prefix_of` strip <$> mjoin pss →
  recvMany (pushed (sideB σ)) calls = Some (rs, rest) →
  rs `prefix_of` msgs.
Proof.
  intros Hn Hr Hmax Hne Hsend Hsub Hrecv.
  destruct (reachable_inv n σ Hn Hr) as (mab & mba & _ & _ & La & Lb & H1 & _).
  eapply (delivered_messages cfg msgs pss _ (pushed (sideB σ))); try done.
  by eapply half_prefix.
Qed.

Lemma gbn_messages_delivered_witness : let _ := amd64 in
  ∃ σ, reachable 20 σ
  ∧ recvMany (pushed (sideB σ)) [[SelRecvTimeout]; [SelMsg]] = Some ([[7; 8]], [])
  ∧ [[7; 8]] `prefix_of` [[7; 8]; [9]].
Proof.
  intros fl. destruct demo_run as (σ & Hr & Hp & Hs).
  exists σ. split; [exact Hr|]. split; [rewrite Hp; reflexivity|].
  apply (@gbn_messages_delivered amd64 20 σ (newConfig 20) _
           [[mkPacketData 0 true false [7; 8]];
            [mkPacketData 0 true false [9]]] [[SelRecvTimeout]; [SelMsg]] _ []).
  - lia.
  - exact Hr.
  - simpl. lia.
  - apply List.Forall_cons; [by left|apply List.Forall_cons; [by left|]].
    apply List.Forall_nil.
  - constructor; [reflexivity|constructor; [reflexivity|constructor]].
  - rewrite Hs. exists [(true, [9])]. reflexivity.
  - rewrite Hp. reflexivity.
Defined.
