(* ===== verification/GbnHandshake.v ===== *)
(** * The handshake ([gbn/gbn_client.go], [gbn/gbn_server.go])

    [clientHandshake] and [serverHandshake] as state machines cut at their
    [select]s, with the goroutine both use to read the stream, and the whole
    life of a connection: handshake, [start], data transfer. *)

From stdpp Require Import base numbers list strings gmap tactics relations.
From S2P Require Import Prelude Messages GoFloat Timeout Ticker Syncer Queue.
From S2P Require Import GbnConn GbnWindow GbnSystem.

(** ** Options of a connection *)

Inductive Option_ :=
| OptMaxSendSize (size : Z)
| OptTimeoutOptions (opts : list (TimeoutManager → TimeoutManager))
| OptOnFIN.

Definition applyOption (c : config) (o : Option_) : config :=
  match o with
  | OptMaxSendSize size => WithMaxSendSize size c
  | OptTimeoutOptions opts => WithTimeoutOptions opts c
  | OptOnFIN => WithOnFIN c
  end.

Definition applyOptions (opts : list Option_) (c : config) : config :=
  fold_left applyOption opts c.

(** ** The goroutine that reads the stream *)

(** Waiting for a token on [recvNext]; in [recvFromStream]; offering the bytes
    on [recvChan]; returned. *)
Inductive readerPC :=
| RdWait
| RdReading
| RdOffer (b : bytes)
| RdDone.

Record reader := mkReader {
  rd_pc : readerPC;
  recvNext : bool;
  errChan : option error
}.

Definition newReader : reader := mkReader RdWait false None.

(** The non-blocking send on [recvNext], a channel of capacity one. *)
Definition putToken (rd : reader) : reader :=
  mkReader (rd_pc rd) true (errChan rd).

(** A receive from [recvChan]. *)
Definition takeOffer (rd : reader) : option (bytes * reader) :=
  match rd_pc rd with
  | RdOffer b => Some (b, mkReader RdWait (recvNext rd) (errChan rd))
  | _ => None
  end.

Definition takeErr (rd : reader) : option (error * reader) :=
  match errChan rd with
  | Some e => Some (e, mkReader (rd_pc rd) (recvNext rd) None)
  | None => None
  end.

(** [complete] says that [handshakeComplete] is closed or the context done. *)
Inductive reader_step (complete : bool) :
    list bytes → reader → list bytes → reader → Prop :=
| rs_token w err :
    reader_step complete w (mkReader RdWait true err)
                         w (mkReader RdReading false err)
| rs_read b w tok err :
    reader_step complete (b :: w) (mkReader RdReading tok err)
                         w (mkReader (RdOffer b) tok err)
| rs_fail w tok e :
    reader_step complete w (mkReader RdReading tok None)
                         w (mkReader RdDone tok (Some e))
| rs_stop w rd :
    complete = true → rd_pc rd ≠ RdReading →
    reader_step complete w rd w (mkReader RdDone (recvNext rd) (errChan rd)).

(** What a blocked handshake is woken by: nothing to wait for, the timer,
    [g.quit], [g.ctx], [errChan], [recvChan]. *)
Inductive hsEvent := HsGo | HsTimeout | HsQuit | HsCtx | HsErr | HsRecv.

Definition errCanceled : error := ErrMsg "context canceled".

(** A handshake under way. *)
Record hsState (PC : Type) := mkHs {
  hs_conn : GoBackNConn;
  hs_pc : PC;
  hs_rd : reader
}.
Arguments mkHs {PC} _ _ _.
Arguments hs_conn {PC} _.
Arguments hs_pc {PC} _.
Arguments hs_rd {PC} _.

Definition set_rd {PC} (rd : reader) (h : hsState PC) : hsState PC :=
  mkHs (hs_conn h) (hs_pc h) rd.

Section Handshake.
Context `{FloatToInt}.

(** Notify the timeout manager. *)
Definition tmSent (msg : Message) (resent : bool) : M St unit :=
  clk ← clocks 3;
  modG (λ g, set_timeoutManager (Sent clk msg resent (timeoutManager g)) g).
Definition tmReceived (msg : Message) : M St unit :=
  clk ← clocks 2;
  tryG (λ g, tm ← Received clk msg (timeoutManager g);
             Ok (tt, set_timeoutManager tm g)).

(** ** The client *)

(** About to send SYN; before the token for the reader; waiting for a message;
    returned. *)
Inductive clientPC :=
| CSendSYN (resent : bool)
| CNext (resent : bool)
| CWait (resent : bool)
| CDone (e : option error).

Definition clientSendSYN (resent : bool) : M St clientPC :=
  n ← getG (λ g, cfg_n (g_cfg g));
  let msg := MSYN n in
  _ ← sendToStream (Serialize msg);
  _ ← tmSent msg resent;
  mret (CNext resent).

(** What follows the loop. *)
Definition clientFinish (resp : Message) (N : Z) : M St clientPC :=
  n ← getG (λ g, cfg_n (g_cfg g));
  if negb (N =? n) then failM EOF
  else
    _ ← tmReceived resp;
    _ ← sendToStream (Serialize MSYNACK);
    mret (CDone None).

Definition clientGot (resent : bool) (b : bytes) : M St clientPC :=
  resp ← liftR (Deserialize b);
  match resp with
  | MSYN N => clientFinish resp N
  | _ => mret (CNext resent)
  end.

(** The next action: the computation to run and the reader afterwards. *)
Definition clientBody (ev : hsEvent) (h : hsState clientPC) :
    option (M St clientPC * reader) :=
  let g := hs_conn h in
  let rd := hs_rd h in
  match hs_pc h, ev with
  | CSendSYN resent, HsGo => Some (clientSendSYN resent, rd)
  | CNext resent, HsGo => Some (mret (CWait resent), putToken rd)
  | CNext _, HsQuit | CWait _, HsQuit =>
      if g_quit g then Some (mret (CDone None), rd) else None
  | CNext _, HsCtx | CWait _, HsCtx =>
      if ctxDone g then Some (failM errCanceled, rd) else None
  | CWait resent, HsTimeout => Some (mret (CSendSYN true), rd)
  | CWait _, HsErr =>
      match takeErr rd with
      | Some (e, rd') => Some (failM e, rd')
      | None => None
      end
  | CWait resent, HsRecv =>
      match takeOffer rd with
      | Some (b, rd') => Some (clientGot resent b, rd')
      | None => None
      end
  | _, _ => None
  end.

(** ** The server *)

(** At the head of the loop; waiting for the client's SYN; about to answer it;
    before the second token; waiting for SYNACK; after the loop; returned. *)
Inductive serverPC :=
| SvNext1 (resent : bool) (n : Z)
| SvWait1 (resent : bool) (n : Z)
| SvSYN (resent : bool) (n : Z)
| SvNext2 (resent : bool) (n : Z)
| SvWait2 (resent : bool) (n : Z)
| SvSetN (n : Z)
| SvDone (e : option error).

Definition serverGot1 (resent : bool) (n : Z) (b : bytes) : M St serverPC :=
  msg ← liftR (Deserialize b);
  match msg with
  | MSYN N => mret (SvSYN resent N)
  | MSYNACK | MData _ =>
      if resent then _ ← tmReceived msg; mret (SvSetN n)
      else mret (SvNext1 resent n)
  | _ => mret (SvNext1 resent n)
  end.

Definition serverSendSYN (resent : bool) (n : Z) : M St serverPC :=
  _ ← sendToStream (Serialize (MSYN n));
  _ ← tmSent (MSYN n) resent;
  mret (SvNext2 resent n).

Definition serverGot2 (resent : bool) (n : Z) (b : bytes) : M St serverPC :=
  msg ← liftR (Deserialize b);
  match msg with
  | MSYNACK => _ ← tmReceived msg; mret (SvSetN n)
  | MSYN N => mret (SvSYN true N)
  | _ => failM EOF
  end.

Definition serverBody (ev : hsEvent) (h : hsState serverPC) :
    option (M St serverPC * reader) :=
  let g := hs_conn h in
  let rd := hs_rd h in
  match hs_pc h, ev with
  | SvNext1 resent n, HsGo => Some (mret (SvWait1 resent n), putToken rd)
  | SvNext1 _ _, HsQuit | SvWait1 _ _, HsQuit
  | SvNext2 _ _, HsQuit | SvWait2 _ _, HsQuit =>
      if g_quit g then Some (mret (SvDone None), rd) else None
  | SvNext1 _ _, HsCtx | SvWait1 _ _, HsCtx | SvWait2 _ _, HsCtx =>
      if ctxDone g then Some (mret (SvDone None), rd) else None
  | SvWait1 resent n, HsRecv =>
      match takeOffer rd with
      | Some (b, rd') => Some (serverGot1 resent n b, rd')
      | None => None
      end
  | SvSYN resent n, HsGo => Some (serverSendSYN resent n, rd)
  | SvNext2 resent n, HsGo => Some (mret (SvWait2 resent n), putToken rd)
  | SvNext2 _ _, HsCtx =>
      if ctxDone g then Some (failM errCanceled, rd) else None
  | SvWait2 resent n, HsTimeout => Some (mret (SvNext1 true n), rd)
  | SvWait2 _ _, HsErr =>
      match takeErr rd with
      | Some (e, rd') => Some (failM e, rd')
      | None => None
      end
  | SvWait2 resent n, HsRecv =>
      match takeOffer rd with
      | Some (b, rd') => Some (serverGot2 resent n b, rd')
      | None => None
      end
  | SvSetN n, HsGo => Some (_ ← modG (setN n); mret (SvDone None), rd)
  | _, _ => None
  end.

(** ** One side of a connection *)

(** The two handshakes have the same shape: a next action and a way to return
    with or without an error. *)
Class HsRole (PC : Type) := {
  hsBody : hsEvent → hsState PC → option (M St PC * reader);
  hsFail : error → PC;
  hsReturned : PC → option (option error)
}.

#[global] Instance client_role : HsRole clientPC := {
  hsBody := clientBody;
  hsFail e := CDone (Some e);
  hsReturned pc := match pc with CDone r => Some r | _ => None end
}.

#[global] Instance server_role : HsRole serverPC := {
  hsBody := serverBody;
  hsFail e := SvDone (Some e);
  hsReturned pc := match pc with SvDone r => Some r | _ => None end
}.

Definition hsStep `{HsRole PC} (ev : hsEvent) (h : hsState PC) (i : io) :
    option (result unit * (hsState PC * io)) :=
  match hsBody ev h with
  | None => None
  | Some (m, rd) =>
      Some match m (hs_conn h, i) with
           | (Ok pc, (g, i')) => (Ok tt, (mkHs g pc rd, i'))
           | (Err e, (g, i')) => (Ok tt, (mkHs g (hsFail e) rd, i'))
           | (Panic p, (g, i')) => (Panic p, (mkHs g (hs_pc h) rd, i'))
           end
  end.

(** [NewClientConn] and [NewServerConn] up to the handshake. *)
Definition NewClientConn (n : Z) (opts : list Option_) :
    result (hsState clientPC) :=
  if n =? 255 then Err (ErrMsg "n must be smaller than 255")
  else
    let cfg := applyOptions opts (newConfig n) in
    Ok (mkHs (newGoBackNConn cfg) (CSendSYN false) newReader).

Definition NewServerConn (opts : list Option_) : hsState serverPC :=
  let cfg := applyOptions opts (newConfig DefaultN) in
  mkHs (newGoBackNConn cfg) (SvNext1 false 0) newReader.

(** In the handshake; running, with the reader that may still be reading; or
    closed after a failed handshake. *)
Inductive side (PC : Type) :=
| Hand (h : hsState PC)
| Run (e : endpoint) (rd : reader)
| Failed (e : error).
Arguments Hand {PC} _.
Arguments Run {PC} _ _.
Arguments Failed {PC} _.

(** The steps of one side: the handshake, its successful or failed return
    (the rest of [NewClientConn] or [NewServerConn]), data transfer, and the
    reader. *)
Inductive side_step `{HsRole PC} : list bytes → side PC → list bytes →
    list bytes → side PC → list bytes → Prop :=
| sd_hand ev h h' i i' inw outw :
    wire i = [] → hsStep ev h i = Some (Ok tt, (h', i')) →
    side_step inw (Hand h) outw inw (Hand h') (outw ++ wire i')
| sd_start h i g' i' inw outw :
    hsReturned (hs_pc h) = Some None →
    start (hs_conn h, i) = (Ok tt, (g', i')) →
    side_step inw (Hand h) outw
      inw (Run (mkEndpoint g' [] [] [] []) (hs_rd h)) outw
| sd_fail h e i g' i' inw outw :
    wire i = [] → hsReturned (hs_pc h) = Some (Some e) →
    Close (hs_conn h, i) = (Ok tt, (g', i')) →
    side_step inw (Hand h) outw inw (Failed e) (outw ++ wire i')
| sd_run e e' rd inw outw inw' outw' :
    ep_step inw e outw inw' e' outw' →
    side_step inw (Run e rd) outw inw' (Run e' rd) outw'
| sd_read_hand h rd' inw inw' outw :
    reader_step (bool_decide (hsReturned (hs_pc h) ≠ None)
                 || ctxDone (hs_conn h)) inw (hs_rd h) inw' rd' →
    side_step inw (Hand h) outw inw' (Hand (set_rd rd' h)) outw
| sd_read_run e rd rd' inw inw' outw :
    reader_step true inw rd inw' rd' →
    side_step inw (Run e rd) outw inw' (Run e rd') outw.

(** The parent context of a side, from which [g.ctx] derives, is cancelled. *)
Definition cancel_side {PC} (s : side PC) : side PC :=
  match s with
  | Hand h => Hand (mkHs (set_ctxDone true (hs_conn h)) (hs_pc h) (hs_rd h))
  | Run e rd => Run (mkEndpoint (set_ctxDone true (conn e)) (hist e)
                       (submitted e) (accepted e) (pushed e)) rd
  | Failed e => Failed e
  end.

(** The handshake has not returned yet. *)
Definition handshaking `{HsRole PC} (s : side PC) : bool :=
  match s with
  | Hand h => bool_decide (hsReturned (hs_pc h) = None)
  | _ => false
  end.

(** A client and a server joined by two streams that keep order but may lose
    packets, and whether the server's context was cancelled before its
    handshake returned. *)
Record connection := mkConnection {
  client : side clientPC;
  server : side serverPC;
  wireCS : list bytes;
  wireSC : list bytes;
  interrupted : bool
}.

Inductive conn_step : connection → connection → Prop :=
| cs_client c c' s cs sc cs' sc' x :
    side_step sc c cs sc' c' cs' →
    conn_step (mkConnection c s cs sc x) (mkConnection c' s cs' sc' x)
| cs_server c s s' cs sc cs' sc' x :
    side_step cs s sc cs' s' sc' →
    conn_step (mkConnection c s cs sc x) (mkConnection c s' cs' sc' x)
| cs_lose_CS c s l1 b l2 sc x :
    conn_step (mkConnection c s (l1 ++ b :: l2) sc x)
              (mkConnection c s (l1 ++ l2) sc x)
| cs_lose_SC c s cs l1 b l2 x :
    conn_step (mkConnection c s cs (l1 ++ b :: l2) x)
              (mkConnection c s cs (l1 ++ l2) x)
| cs_cancel_client c s cs sc x :
    conn_step (mkConnection c s cs sc x)
              (mkConnection (cancel_side c) s cs sc x)
| cs_cancel_server c s cs sc x :
    conn_step (mkConnection c s cs sc x)
              (mkConnection c (cancel_side s) cs sc (x || handshaking s)).

(** The states a client and a server can reach, and those they can reach
    without an interruption of the server's handshake. *)
Definition connects (n : Z) (copts sopts : list Option_) (σ : connection) : Prop :=
  ∃ h σ0, NewClientConn n copts = Ok h
  ∧ σ0 = mkConnection (Hand h) (Hand (NewServerConn sopts)) [] [] false
  ∧ rtc conn_step σ0 σ.

Definition connect (n : Z) (copts sopts : list Option_) (σ : connection) : Prop :=
  connects n copts sopts σ ∧ interrupted σ = false.

End Handshake.
Arguments Hand {PC} _.
Arguments Run {PC} _ _.
Arguments Failed {PC} _.

(** ** Agreement on the window *)

(** The part of a connection the protocol invariant depends on. *)
Definition unsent (g : GoBackNConn) : Prop :=
  recvSeq g = 0 ∧ recvDataChan g = [] ∧ sendPC g = SSelect ∧ recvPC g = RLoop
  ∧ ctxDone g = false ∧ g_quit g = false.

(** A connection that differs from [g] in its timeout manager only. *)
Definition same_but_tm (g g' : GoBackNConn) : Prop :=
  g' = set_timeoutManager (timeoutManager g') g.

Lemma same_but_tm_refl g : same_but_tm g g.
Proof. by destruct g. Qed.

Lemma same_but_tm_set tm g : same_but_tm g (set_timeoutManager tm g).
Proof. done. Qed.

Lemma same_but_tm_trans g1 g2 g3 :
  same_but_tm g1 g2 → same_but_tm g2 g3 → same_but_tm g1 g3.
Proof.
  unfold same_but_tm. intros H1 H2. rewrite H2, H1. by destruct g1.
Qed.

Lemma same_but_tm_fresh n g g' :
  same_but_tm g g' → fresh n g → fresh n g'.
Proof. unfold same_but_tm. intros -> Hf. exact Hf. Qed.

Lemma same_but_tm_unsent g g' : same_but_tm g g' → unsent g → unsent g'.
Proof. unfold same_but_tm. intros -> Hf. exact Hf. Qed.

Section Agreement.
Context `{FloatToInt}.

(** The effect of the building blocks of a handshake step. *)
Definition hs_effect (g : GoBackNConn) (s' : St) (ms : list Message) : Prop :=
  same_but_tm g s'.1 ∧ wire s'.2 = Serialize <$> ms.

Lemma sendToStream_spec b g i res s' :
  sendToStream b (g, i) = (res, s') →
  s'.1 = g ∧ ((res = Ok tt ∧ wire s'.2 = wire i ++ [b])
              ∨ (∃ e, res = Err e) ∧ wire s'.2 = wire i).
Proof using.
  unfold sendToStream. simpl. destruct (sendErr i (length (wire i)));
    intros [= <- <-]; simpl; eauto 10.
Qed.

Lemma tmSent_spec msg r g i :
  ∃ s', tmSent msg r (g, i) = (Ok tt, s') ∧ same_but_tm g s'.1
  ∧ wire s'.2 = wire i.
Proof using. eexists. split; [reflexivity|]. split; done. Qed.

Lemma tmReceived_spec msg g i res s' :
  tmReceived msg (g, i) = (res, s') →
  same_but_tm g s'.1 ∧ wire s'.2 = wire i.
Proof using.
  unfold tmReceived, tryG. mstep. simpl.
  destruct (Received _ msg (timeoutManager g)); simpl; intros [= <- <-];
    simpl; split; try done; apply same_but_tm_refl.
Qed.

(** What a handshake step may send, by the side that takes it. *)
Lemma clientSendSYN_spec resent g i res s' :
  wire i = [] → clientSendSYN resent (g, i) = (res, s') →
  ∃ ms, hs_effect g s' ms ∧ (ms = [] ∨ ms = [MSYN (cfg_n (g_cfg g))]).
Proof using.
  intros Hw. unfold clientSendSYN, getG. mstep. simpl.
  destruct (sendToStream _ (g, i)) as [r [g1 i1]] eqn:Hs.
  apply sendToStream_spec in Hs as [Hg [[-> Hw1]|[[e ->] Hw1]]];
    simpl in *; subst g1; rewrite Hw in Hw1.
  - intros [= <- <-]. eexists. split; [|by right].
    split; [apply same_but_tm_set|done].
  - intros [= <- <-]. exists []. split; [|by left].
    split; [apply same_but_tm_refl|done].
Qed.

Lemma clientGot_spec resent b g i res s' :
  wire i = [] → clientGot resent b (g, i) = (res, s') →
  ∃ ms, hs_effect g s' ms ∧ (ms = [] ∨ ms = [MSYNACK]).
Proof using.
  intros Hw.
  assert (Hq : ∃ ms, hs_effect g (g, i) ms ∧ (ms = [] ∨ ms = [MSYNACK])).
  { exists []. split; [|by left]. split; [apply same_but_tm_refl|done]. }
  unfold clientGot. mstep. simpl.
  destruct (Deserialize b) as [msg|e|p]; [|by intros [= <- <-]..].
  destruct msg as [|seq|N| | |]; simpl; try by intros [= <- <-].
  unfold clientFinish, getG. mstep. simpl.
  case_if; [by intros [= <- <-]|]. mstep.
  destruct (tmReceived _ (g, i)) as [r [g1 i1]] eqn:Ht.
  apply tmReceived_spec in Ht as [Hg1 Hw1]. simpl in Hg1, Hw1.
  assert (Hq1 : ∃ ms, hs_effect g (g1, i1) ms ∧ (ms = [] ∨ ms = [MSYNACK])).
  { exists []. split; [|by left]. split; [done|]. simpl. by rewrite Hw1. }
  destruct r as [u|e|p]; [|by intros [= <- <-]..]. mstep.
  destruct (sendToStream _ (g1, i1)) as [r [g2 i2]] eqn:Hs.
  apply sendToStream_spec in Hs as [Hg [[-> Hw2]|[[e ->] Hw2]]];
    simpl in *; subst g2; rewrite Hw1, Hw in Hw2; intros [= <- <-].
  - exists [MSYNACK]. split; [|by right]. by split.
  - exists []. split; [|by left]. by split.
Qed.

Lemma serverSendSYN_spec resent n g i res s' :
  wire i = [] → serverSendSYN resent n (g, i) = (res, s') →
  ∃ ms, hs_effect g s' ms ∧ (ms = [] ∨ ms = [MSYN n])
  ∧ (res = Ok (SvNext2 resent n) ∨ ∃ e, res = Err e).
Proof using.
  intros Hw. unfold serverSendSYN. mstep.
  destruct (sendToStream _ (g, i)) as [r [g1 i1]] eqn:Hs.
  apply sendToStream_spec in Hs as [Hg [[-> Hw1]|[[e ->] Hw1]]];
    simpl in *; subst g1; rewrite Hw in Hw1.
  - intros [= <- <-]. eexists. split; [|split; [by right|by left]].
    split; [apply same_but_tm_set|done].
  - intros [= <- <-]. exists []. split; [|split; [by left|by right; eauto]].
    split; [apply same_but_tm_refl|done].
Qed.

(** Where the server goes on a message [m]. *)
Lemma serverGot1_spec resent n m g i res s' :
  serverGot1 resent n (Serialize m) (g, i) = (res, s') →
  same_but_tm g s'.1 ∧ wire s'.2 = wire i
  ∧ (res = Ok (SvNext1 resent n) ∨ (resent = true ∧ res = Ok (SvSetN n))
     ∨ (∃ N, m = MSYN N ∧ res = Ok (SvSYN resent N))
     ∨ (∃ p, res = Panic p) ∨ ∃ e, res = Err e).
Proof using.
  unfold serverGot1. mstep. rewrite Deserialize_Serialize. simpl.
  pose proof (same_but_tm_refl g).
  destruct m as [p|seq|N|seq| |]; simpl; try (intros [= <- <-]; by eauto 10);
    destruct resent; try (intros [= <- <-]; by eauto 10);
    mstep; destruct (tmReceived _ (g, i)) as [r [g1 i1]] eqn:Ht;
    apply tmReceived_spec in Ht as [Hg1 Hw1]; simpl in Hg1, Hw1;
    destruct r; intros [= <- <-]; simpl; eauto 10.
Qed.

Lemma serverGot2_spec resent n m g i res s' :
  serverGot2 resent n (Serialize m) (g, i) = (res, s') →
  same_but_tm g s'.1 ∧ wire s'.2 = wire i
  ∧ (res = Ok (SvSetN n) ∨ (∃ N, m = MSYN N ∧ res = Ok (SvSYN true N))
     ∨ (∃ p, res = Panic p) ∨ ∃ e, res = Err e).
Proof using.
  unfold serverGot2. mstep. rewrite Deserialize_Serialize. simpl.
  pose proof (same_but_tm_refl g).
  destruct m as [p|seq|N|seq| |]; simpl; try (intros [= <- <-]; by eauto 10).
  mstep; destruct (tmReceived _ (g, i)) as [r [g1 i1]] eqn:Ht;
    apply tmReceived_spec in Ht as [Hg1 Hw1]; simpl in Hg1, Hw1;
    destruct r; intros [= <- <-]; simpl; eauto 10.
Qed.

(** A message offered by the reader was on the stream. *)
Definition offer_good (good : Z → Prop) (rd : reader) : Prop :=
  ∀ b, rd_pc rd = RdOffer b → ∃ m, b = Serialize m ∧ Forall good (synsOf [m]).

Lemma offer_put good rd : offer_good good rd → offer_good good (putToken rd).
Proof using. done. Qed.

Lemma offer_takeErr good rd e rd' :
  takeErr rd = Some (e, rd') → offer_good good rd → offer_good good rd'.
Proof using. unfold takeErr. destruct (errChan rd); [|done]. by intros [= <- <-]. Qed.

Lemma offer_take good rd b rd' :
  takeOffer rd = Some (b, rd') → offer_good good rd →
  offer_good good rd' ∧ ∃ m, b = Serialize m ∧ Forall good (synsOf [m]).
Proof using.
  unfold takeOffer. destruct (rd_pc rd) as [| |b0|] eqn:Hpc; try done.
  intros [= <- <-] Hg. split; [by intros b'|]. by apply Hg.
Qed.

(** What one role of the handshake promises to the rest of the proof: its
    steps keep [ok], send only handshake messages, whose SYNs announce a
    [goodOut] window, and a successful return leaves a fresh connection. *)
Class HsCorrect (PC : Type) `{HsRole PC} (n : nat) (goodIn goodOut : Z → Prop)
    (ok : hsState PC → Prop) : Prop := {
  hc_step ev h i h' i' :
    ok h → offer_good goodIn (hs_rd h) → wire i = [] →
    hsStep ev h i = Some (Ok tt, (h', i')) →
    ok h' ∧ offer_good goodIn (hs_rd h')
    ∧ ∃ ms, wire i' = Serialize <$> ms ∧ dataOf ms = [] ∧ acksOf ms = []
            ∧ Forall goodOut (synsOf ms);
  hc_reader rd h : ok h → ok (set_rd rd h);
  hc_done h : ok h → hsReturned (hs_pc h) = Some None → fresh n (hs_conn h)
}.

Definition client_ok (n : nat) (h : hsState clientPC) : Prop :=
  fresh n (hs_conn h).

Definition server_pc_ok (n : nat) (g : GoBackNConn) (pc : serverPC) : Prop :=
  match pc with
  | SvNext1 resent m | SvWait1 resent m => resent = true → m = Z.of_nat n
  | SvSYN _ m | SvNext2 _ m | SvWait2 _ m | SvSetN m => m = Z.of_nat n
  | SvDone None => fresh n g
  | SvDone (Some _) => True
  end.

Definition server_ok (n : nat) (h : hsState serverPC) : Prop :=
  server_pc_ok n (hs_conn h) (hs_pc h)
  ∧ (unsent (hs_conn h) ∨ ∃ r, hs_pc h = SvDone r).

End Agreement.

Section Roles.
Context `{FloatToInt} (n : nat).
Context (Hn : (1 ≤ n ≤ 254)%nat).

Abbreviation isN := (λ N, N = Z.of_nat n).
Abbreviation anyN := (λ _ : Z, True).

(** The three possible effects of a client step. *)
Lemma client_action ev h m rd i res s' :
  client_ok n h → offer_good anyN (hs_rd h) → wire i = [] →
  clientBody ev h = Some (m, rd) → m (hs_conn h, i) = (res, s') →
  offer_good anyN rd
  ∧ ∃ ms, hs_effect (hs_conn h) s' ms
    ∧ (ms = [] ∨ ms = [MSYN (Z.of_nat n)] ∨ ms = [MSYNACK]).
Proof using.
  intros Hok Hoff Hw Hb Hm.
  assert (Hq : ∃ ms, hs_effect (hs_conn h) (hs_conn h, i) ms
    ∧ (ms = [] ∨ ms = [MSYN (Z.of_nat n)] ∨ ms = [MSYNACK])).
  { exists []. split; [|by left]. split; [apply same_but_tm_refl|done]. }
  unfold clientBody in Hb.
  destruct (hs_pc h) as [resent|resent|resent|e], ev; try discriminate Hb;
    try (case_if_in Hb; [|discriminate Hb]).
  - inv Hb. split; [done|].
    apply clientSendSYN_spec in Hm as (ms & He & Hms); [|done].
    exists ms. split; [done|]. destruct Hok as [Hc _]. rewrite Hc in Hms.
    destruct Hms; auto.
  - injection Hb as <- <-. injection Hm as <- <-. by split.
  - injection Hb as <- <-. injection Hm as <- <-. by split.
  - injection Hb as <- <-. injection Hm as <- <-. by split.
  - injection Hb as <- <-. injection Hm as <- <-. by split.
  - injection Hb as <- <-. injection Hm as <- <-. by split.
  - injection Hb as <- <-. injection Hm as <- <-. by split.
  - destruct (takeErr (hs_rd h)) as [[e rd']|] eqn:Ht; [|done].
    injection Hb as <- <-. injection Hm as <- <-.
    split; [by eapply offer_takeErr|done].
  - destruct (takeOffer (hs_rd h)) as [[b rd']|] eqn:Ht; [|done].
    injection Hb as <- <-. apply offer_take with (good := anyN) in Ht as [Ht _];
      [|done]. split; [done|].
    apply clientGot_spec in Hm as (ms & He & Hms); [|done].
    exists ms. split; [done|]. destruct Hms; auto.
Qed.

#[global] Instance client_correct :
  HsCorrect clientPC n anyN isN (client_ok n).
Proof using.
  constructor.
  - intros ev h i h' i' Hok Hoff Hw Hst. unfold hsStep in Hst. simpl in Hst.
    destruct (clientBody ev h) as [[m rd]|] eqn:Hb; [|done].
    destruct (m (hs_conn h, i)) as [res [g1 i1]] eqn:Hm.
    destruct (client_action _ _ _ _ _ _ _ Hok Hoff Hw Hb Hm)
      as (Hrd & ms & [Hg Hw'] & Hms). simpl in Hg, Hw'.
    assert (∃ pc, h' = mkHs g1 pc rd ∧ i' = i1) as (pc & -> & ->).
    { destruct res; inv Hst; eauto. }
    split; [by eapply same_but_tm_fresh|]. split; [done|]. exists ms.
    destruct Hms as [->|[->| ->]]; split_and!; try done; simpl; auto.
  - done.
  - done.
Qed.

Lemma setN_fresh g : unsent g → fresh n (setN (Z.of_nat n) g).
Proof using Hn.
  intros (H1 & H2 & H3 & H4 & _). unfold fresh, setN. simpl.
  rewrite u8_small by (unfold is_u8; lia). by split_and!.
Qed.

(** The effect of a server step and where it leads. *)
Lemma server_action ev h m rd i res s' :
  server_ok n h → offer_good isN (hs_rd h) → wire i = [] →
  serverBody ev h = Some (m, rd) → m (hs_conn h, i) = (res, s') →
  offer_good isN rd ∧ (∃ ms, wire s'.2 = Serialize <$> ms
    ∧ (ms = [] ∨ ms = [MSYN (Z.of_nat n)]))
  ∧ ((∃ pc, res = Ok pc ∧ server_ok n (mkHs s'.1 pc rd))
     ∨ (∃ p, res = Panic p) ∨ ∃ e, res = Err e).
Proof using Hn.
  intros [Hpc Hun] Hoff Hw Hb Hm. unfold serverBody in Hb.
  destruct Hun as [Hun|[r Hr]]; [|by rewrite Hr in Hb].
  assert (Hq : ∃ ms, wire i = Serialize <$> ms
    ∧ (ms = [] ∨ ms = [MSYN (Z.of_nat n)])) by (exists []; auto).
  assert (Hu := Hun). destruct Hu as (_ & _ & _ & _ & Hctx & Hquit).
  unfold server_ok, server_pc_ok in *.
  destruct (hs_pc h) as [r m0|r m0|r m0|r m0|r m0|m0|e], ev;
    try discriminate Hb; rewrite ?Hctx, ?Hquit in Hb; try discriminate Hb.
  - injection Hb as <- <-. injection Hm as <- <-. split_and!; [done|done|].
    left. eexists. split; [done|]. by split; [|left].
  - destruct (takeOffer (hs_rd h)) as [[b rd']|] eqn:Ht; [|done].
    injection Hb as <- <-.
    apply offer_take with (good := isN) in Ht as (Ht & mm & -> & Hmm); [|done].
    apply serverGot1_spec in Hm as (Hg & Hw' & Hcase).
    split; [done|]. split; [by rewrite Hw'|].
    apply same_but_tm_unsent in Hg; [|done].
    destruct Hcase as [->|[[-> ->]|[(N & -> & ->)|[?|?]]]]; simpl; auto.
    + left. eexists. split; [done|]. by split; [|left].
    + left. eexists. split; [done|]. split; [by apply Hpc|by left].
    + left. eexists. split; [done|]. split; [by inv Hmm|by left].
  - injection Hb as <- <-.
    apply serverSendSYN_spec in Hm as (ms & [Hg Hw'] & Hms & Hres); [|done].
    split; [done|]. split; [exists ms; subst m0; auto|].
    apply same_but_tm_unsent in Hg; [|done].
    destruct Hres as [->|Hres]; [|auto]. left. eexists. split; [done|].
    by split; [|left].
  - injection Hb as <- <-. injection Hm as <- <-. split_and!; [done|done|].
    left. eexists. split; [done|]. by split; [|left].
  - injection Hb as <- <-. injection Hm as <- <-. split_and!; [done|done|].
    left. eexists. split; [done|]. split; [by intros _|by left].
  - destruct (takeErr (hs_rd h)) as [[e rd']|] eqn:Ht; [|done].
    injection Hb as <- <-. injection Hm as <- <-.
    split; [by eapply offer_takeErr|]. split; [done|]. eauto.
  - destruct (takeOffer (hs_rd h)) as [[b rd']|] eqn:Ht; [|done].
    injection Hb as <- <-.
    apply offer_take with (good := isN) in Ht as (Ht & mm & -> & Hmm); [|done].
    apply serverGot2_spec in Hm as (Hg & Hw' & Hcase).
    split; [done|]. split; [by rewrite Hw'|].
    apply same_but_tm_unsent in Hg; [|done].
    destruct Hcase as [->|[(N & -> & ->)|[?|?]]]; simpl; auto.
    + left. eexists. split; [done|]. by split; [|left].
    + left. eexists. split; [done|]. split; [by inv Hmm|by left].
  - injection Hb as <- <-. injection Hm as <- <-. split_and!; [done|done|].
    left. eexists. split; [done|]. simpl. split; [|right; eauto].
    subst m0. by apply setN_fresh.
Qed.

#[global] Instance server_correct :
  HsCorrect serverPC n isN anyN (server_ok n).
Proof using Hn.
  constructor.
  - intros ev h i h' i' Hok Hoff Hw Hst. unfold hsStep in Hst. simpl in Hst.
    destruct (serverBody ev h) as [[m rd]|] eqn:Hb; [|done].
    destruct (m (hs_conn h, i)) as [res [g1 i1]] eqn:Hm.
    destruct (server_action _ _ _ _ _ _ _ Hok Hoff Hw Hb Hm)
      as (Hrd & (ms & Hw' & Hms) & Hres). simpl in Hw', Hres.
    assert (server_ok n h' ∧ hs_rd h' = rd ∧ i' = i1) as (Hok' & -> & ->).
    { destruct Hres as [(pc & -> & Hpc)|[[p ->]|[e ->]]]; inv Hst; try done.
      split; [|done]. split; [done|]. right. eexists. reflexivity. }
    split; [done|]. split; [done|]. exists ms.
    destruct Hms as [->| ->]; split_and!; try done; simpl; auto.
  - done.
  - intros h [Hpc _] Hr. simpl in Hr.
    destruct (hs_pc h) as [| | | | | |[e|]]; simpl in *; try done.
Qed.

End Roles.

(** ** The whole life of a connection *)

(** A side that is not running yet behaves towards the window protocol as an
    idle endpoint whose stream loses what the handshake consumes. *)
Definition idle (n : nat) : endpoint :=
  mkEndpoint (setN (Z.of_nat n) (newGoBackNConn (newConfig (Z.of_nat n))))
    [] [] [] [].

Definition view {PC} (n : nat) (s : side PC) : endpoint :=
  match s with Run e _ => e | _ => idle n end.

Section Life.
Context `{FloatToInt} (n : nat).
Context (Hn : (1 ≤ n ≤ 254)%nat).

Lemma idle_fresh : fresh n (conn (idle n)).
Proof using Hn. by apply setN_fresh. Qed.

(** Fresh connections are interchangeable. *)
Lemma fresh_half g g' f out back :
  fresh n g → fresh n g' →
  (half n (mkEndpoint g [] [] [] []) f out back →
   half n (mkEndpoint g' [] [] [] []) f out back)
  ∧ (half n f (mkEndpoint g [] [] [] []) back out →
     half n f (mkEndpoint g' [] [] [] []) back out).
Proof using.
  intros (A1 & A2 & A3 & A4 & A5 & A6 & A7) (B1 & B2 & B3 & B4 & B5 & B6 & B7).
  unfold half. simpl. by rewrite A3, A4, A6, B3, B4, B6.
Qed.

Lemma fresh_local g : fresh n g → local_inv n (mkEndpoint g [] [] [] []).
Proof using.
  intros (A1 & A2 & A3 & A4 & A5 & A6 & A7). constructor; try done.
  unfold push_ok. simpl. by rewrite A7.
Qed.

Lemma start_fresh g i g' i' :
  start (g, i) = (Ok tt, (g', i')) → fresh n g → fresh n g'.
Proof using.
  unfold start, time_now, resetResendTicker, tryG, modG. mstep. simpl.
  destruct (NewIntervalAwareForceTicker _ _) as [t1| |]; simpl; try done.
  destruct (NewIntervalAwareForceTicker _ _) as [t2| |]; simpl; try done.
  case_if; simpl; [done|]. intros [= <- <-] (A1 & A2 & A3 & A4 & A5 & A6 & A7).
  by split_and!.
Qed.

Lemma reader_step_tail c inw rd inw' rd' :
  reader_step c inw rd inw' rd' →
  (inw' = inw ∧ ∀ b, rd_pc rd' ≠ RdOffer b)
  ∨ ∃ b, inw = b :: inw' ∧ rd_pc rd' = RdOffer b.
Proof using. destruct 1; simpl; eauto. Qed.

Section OneSide.
Context {PC : Type} `{HsRole PC} (goodIn goodOut : Z → Prop).
Context (ok : hsState PC → Prop) `{!HsCorrect PC n goodIn goodOut ok}.

Definition side_ok (s : side PC) : Prop :=
  match s with
  | Hand h => ok h ∧ offer_good goodIn (hs_rd h)
  | _ => True
  end.

(** What a step of one side keeps, against the other side's endpoint [f]. *)
Definition side_post (f : endpoint) (mi : list Message) (s' : side PC)
    (inw' outw' : list bytes) : Prop :=
  side_ok s' ∧ ∃ mi' mo', inw' = Serialize <$> mi' ∧ outw' = Serialize <$> mo'
  ∧ (mi' = mi ∨ ∃ m, mi = m :: mi') ∧ Forall goodOut (synsOf mo')
  ∧ local_inv n (view n s') ∧ half n (view n s') f mo' mi'
  ∧ half n f (view n s') mi' mo'.

Lemma ep_step_tail inw e outw inw' e' outw' :
  ep_step inw e outw inw' e' outw' → inw' = inw ∨ ∃ b, inw = b :: inw'.
Proof using. destruct 1; eauto. Qed.

Lemma Serialize_fmap_inj (k l : list Message) :
  Serialize <$> k = Serialize <$> l → k = l.
Proof using.
  assert (Inj (=) (=) Serialize).
  { intros m m' Heq. apply (f_equal Deserialize) in Heq.
    rewrite !Deserialize_Serialize in Heq. congruence. }
  apply (inj (fmap Serialize)).
Qed.

Section Step.
Context (f : endpoint) (mi mo : list Message).
Context (Hin : Forall goodIn (synsOf mi)) (Hout : Forall goodOut (synsOf mo)).

(** A step that appends neutral messages and leaves the view alone. *)
Lemma side_neutral (s s' : side PC) ms :
  side_ok s' → dataOf ms = [] → acksOf ms = [] → Forall goodOut (synsOf ms) →
  local_inv n (view n s') → half n (view n s') f mo mi →
  half n f (view n s') mi mo →
  side_post f mi s' (Serialize <$> mi)
    ((Serialize <$> mo) ++ (Serialize <$> ms)).
Proof using Hout.
  intros Hok Hd Ha Hg Hl H1 H2. split; [done|]. exists mi, (mo ++ ms).
  rewrite fmap_app, synsOf_app. split_and!; auto.
  - by apply Forall_app.
  - by apply (half_neutral n (view n s') f mo mi ms Hd Ha).
  - by apply (half_neutral n f (view n s') mo mi ms Hd Ha).
Qed.

(** The reader takes a message off the stream, or nothing. *)
Lemma side_read (s s' : side PC) c rd inw' rd' :
  reader_step c (Serialize <$> mi) rd inw' rd' → view n s' = view n s →
  (offer_good goodIn rd' → side_ok s') →
  local_inv n (view n s) → half n (view n s) f mo mi →
  half n f (view n s) mi mo →
  side_post f mi s' inw' (Serialize <$> mo).
Proof using Hin Hout.
  intros Hr Hv Hok Hl H1 H2. unfold side_post. rewrite Hv.
  apply reader_step_tail in Hr as [[-> Hno]|(b & Hb & Hpc)].
  - split; [apply Hok; intros b Hb; by destruct (Hno b)|].
    exists mi, mo. split_and!; auto.
  - assert (∃ m l, mi = m :: l ∧ b = Serialize m ∧ inw' = Serialize <$> l)
      as (m & l & Hmi & -> & ->).
    { destruct mi as [|m l]; [done|]. injection Hb as <- <-. eauto. }
    rewrite Hmi in Hin, H1, H2. split.
    + apply Hok. intros b'. rewrite Hpc. intros [= <-]. exists m. split; [done|].
      change (m :: l) with ([m] ++ l) in Hin. rewrite synsOf_app in Hin.
      by apply Forall_app in Hin as [? _].
    + exists l, mo. split_and!; try done; [by eauto|..].
      * by apply (half_lose_back n _ _ [] m l).
      * by apply (half_lose_out n _ _ [] m l).
Qed.

Lemma side_step_post (s s' : side PC) inw' outw' :
  side_step (Serialize <$> mi) s (Serialize <$> mo) inw' s' outw' →
  side_ok s → local_inv n (view n s) → half n (view n s) f mo mi →
  half n f (view n s) mi mo → side_post f mi s' inw' outw'.
Proof using Hn Hin Hout HsCorrect0.
  intros Hst Hs Hl H1 H2. inversion Hst; subst.
  - destruct Hs as [Hok Hoff].
    match goal with E : hsStep _ _ _ = _ |- _ =>
      destruct (hc_step (goodOut := goodOut) (n := n) _ _ _ _ _ Hok Hoff
        ltac:(eassumption) E) as (Hok' & Hoff' & ms & -> & Hd & Ha & Hy) end.
    by apply (side_neutral (Hand h)).
  - destruct Hs as [Hok Hoff].
    assert (Hf : fresh n g').
    { eapply start_fresh; [eassumption|]. by eapply hc_done. }
    destruct (fresh_half (conn (idle n)) g' f mo mi idle_fresh Hf) as [F1 _].
    destruct (fresh_half (conn (idle n)) g' f mo mi idle_fresh Hf) as [_ F2].
    split; [done|]. exists mi, mo. split_and!; auto. by apply fresh_local.
  - match goal with E : Close _ = _ |- _ => apply Close_spec in E as [Hw' _] end;
      [|done].
    assert (∃ ms, wire i' = Serialize <$> ms ∧ dataOf ms = [] ∧ acksOf ms = []
      ∧ synsOf ms = []) as (ms & -> & Hd & Ha & Hy).
    { destruct Hw' as [->| ->]; [by exists []|by exists [MFIN]]. }
    apply (side_neutral (Hand h)); try done. by rewrite Hy.
  - match goal with E : ep_step _ _ _ _ _ _ |- _ =>
      pose proof (ep_step_tail _ _ _ _ _ _ E) as Htail;
      destruct (ep_step_preserved n e f _ _ _ _ _ mi mo E eq_refl eq_refl Hl
        H1 H2) as (mi' & mo' & -> & -> & Hy & Hl' & H1' & H2') end.
    split; [done|]. exists mi', mo'. split_and!; try done.
    + destruct Htail as [He|(b & Hb)].
      * left. by apply Serialize_fmap_inj.
      * right. destruct mi as [|m l]; [done|]. injection Hb as _ Hb.
        apply Serialize_fmap_inj in Hb as ->. eauto.
    + by rewrite Hy.
  - destruct Hs as [Hok Hoff]. eapply (side_read (Hand h)); try done.
    intros Hg. split; [|done]. by eapply hc_reader.
  - by eapply (side_read (Run e rd)).
Qed.

End Step.
End OneSide.

Abbreviation isN := (λ N, N = Z.of_nat n).
Abbreviation anyN := (λ _ : Z, True).

Definition conn_inv (σ : connection) : Prop :=
  side_ok anyN (client_ok n) (client σ) ∧ side_ok isN (server_ok n) (server σ)
  ∧ ∃ mcs msc, wireCS σ = Serialize <$> mcs ∧ wireSC σ = Serialize <$> msc
  ∧ Forall isN (synsOf mcs)
  ∧ local_inv n (view n (client σ)) ∧ local_inv n (view n (server σ))
  ∧ half n (view n (client σ)) (view n (server σ)) mcs msc
  ∧ half n (view n (server σ)) (view n (client σ)) msc mcs.

Lemma Forall_any (l : list Z) : Forall anyN l.
Proof using. induction l; by constructor. Qed.

Lemma synsOf_tail (P : Z → Prop) mi mi' :
  (mi' = mi ∨ ∃ m, mi = m :: mi') → Forall P (synsOf mi) →
  Forall P (synsOf mi').
Proof using.
  intros [->|[m ->]]; [done|]. change (m :: mi') with ([m] ++ mi').
  rewrite synsOf_app. by intros [_ ?]%Forall_app.
Qed.

(** Cancelling a context leaves what the protocol sees alone. *)
Lemma cancel_view {PC} (s : side PC) : same_ep (view n s) (view n (cancel_side s)).
Proof using. by destruct s. Qed.

Lemma cancel_client_ok (s : side clientPC) :
  side_ok anyN (client_ok n) s → side_ok anyN (client_ok n) (cancel_side s).
Proof using. by destruct s. Qed.

Lemma cancel_server_ok (s : side serverPC) :
  handshaking s = false →
  side_ok isN (server_ok n) s → side_ok isN (server_ok n) (cancel_side s).
Proof using.
  destruct s as [h| |]; try done. simpl. intros Hr [[Hpc _] Hoff].
  destruct (hs_pc h) as [| | | | | |r] eqn:E; simpl in Hr; try discriminate Hr.
  split; [|done]. split; simpl; [done|]. eauto.
Qed.

Lemma conn_inv_step σ σ' :
  conn_step σ σ' → interrupted σ' = false → conn_inv σ → conn_inv σ'.
Proof using Hn.
  intros Hst Hx (Hc & Hs & mcs & msc & E1 & E2 & Hy & Lc & Ls & H1 & H2).
  pose proof (server_correct n Hn) as Hsc.
  destruct Hst as [c c' s cs sc cs' sc' x Hst|c s s' cs sc cs' sc' x Hst
    |c s l1 b l2 sc x|c s cs l1 b l2 x|c s cs sc x|c s cs sc x];
    simpl in *; subst.
  - destruct (side_step_post anyN isN (client_ok n) (view n s) msc mcs
      (Forall_any _) Hy c c' _ _ Hst Hc Lc H1 H2)
      as (Hc' & msc' & mcs' & -> & -> & _ & Hy' & Lc' & H1' & H2').
    split_and!; [done|done|]. exists mcs', msc'. by split_and!.
  - destruct (side_step_post isN anyN (server_ok n) (view n c) mcs msc
      Hy (Forall_any _) s s' _ _ Hst Hs Ls H2 H1)
      as (Hs' & mcs' & msc' & -> & -> & Ht & _ & Ls' & H2' & H1').
    split_and!; [done|done|]. exists mcs', msc'. split_and!; try done.
    by eapply synsOf_tail.
  - split_and!; [done|done|].
    apply fmap_split in E1 as (k1 & y & k2 & -> & -> & -> & ->).
    exists (k1 ++ k2), msc. rewrite fmap_app. split_and!; try done.
    + change (y :: k2) with ([y] ++ k2) in Hy. rewrite !synsOf_app in *.
      apply Forall_app in Hy as [? [_ ?]%Forall_app]. by apply Forall_app.
    + by eapply half_lose_out.
    + by eapply half_lose_back.
  - split_and!; [done|done|].
    apply fmap_split in E2 as (k1 & y & k2 & -> & -> & -> & ->).
    exists mcs, (k1 ++ k2). rewrite fmap_app. split_and!; try done.
    + by eapply half_lose_back.
    + by eapply half_lose_out.
  - pose proof (cancel_view c) as Hv.
    split_and!; [by apply cancel_client_ok|done|]. exists mcs, msc.
    split_and!; eauto using same_ep_local, same_ep_half, same_ep_half_r.
  - apply orb_false_iff in Hx as [-> Hx]. pose proof (cancel_view s) as Hv.
    split_and!; [done|by apply cancel_server_ok|]. exists mcs, msc.
    split_and!; eauto using same_ep_local, same_ep_half, same_ep_half_r.
Qed.

Lemma interrupted_step σ σ' :
  conn_step σ σ' → interrupted σ' = false → interrupted σ = false.
Proof using. destruct 1; simpl; try done. by intros [? _]%orb_false_iff. Qed.

(** An invariant of the uninterrupted steps. *)
Lemma uninterrupted_ind (P : connection → Prop) σ0 σ :
  (∀ x y, conn_step x y → interrupted y = false → P x → P y) →
  rtc conn_step σ0 σ → interrupted σ = false → P σ0 → P σ.
Proof using.
  intros Hstep Hrtc Hx H0. revert Hx.
  induction Hrtc as [|x y z Hxy Hyz IH]; [done|]. intros Hz.
  assert (Hy : interrupted y = false).
  { clear -Hyz Hz. induction Hyz as [|? ? ? Hs _ IH]; [done|].
    eapply interrupted_step; eauto. }
  eauto.
Qed.

Lemma applyOptions_n opts c :
  cfg_n (applyOptions opts c) = cfg_n c ∧ cfg_s (applyOptions opts c) = cfg_s c.
Proof using.
  revert c. induction opts as [|o opts IH]; intros c; [done|].
  simpl. destruct (IH (applyOption c o)) as [-> ->]. by destruct o.
Qed.

Lemma newGoBackNConn_fresh cfg :
  cfg_n cfg = Z.of_nat n → cfg_s cfg = Z.of_nat n + 1 →
  fresh n (newGoBackNConn cfg).
Proof using Hn.
  intros E1 E2. unfold fresh, newGoBackNConn. simpl.
  rewrite E1, u8_small by (unfold is_u8; lia). by split_and!.
Qed.

Lemma conn_inv_init copts sopts σ :
  connect (Z.of_nat n) copts sopts σ → conn_inv σ.
Proof using Hn.
  intros [(h & σ0 & Hh & -> & Hrtc) Hx]. unfold NewClientConn in Hh.
  case_if_in Hh; [lia|]. injection Hh as <-.
  destruct (applyOptions_n copts (newConfig (Z.of_nat n))) as [E1 E2].
  simpl in E1, E2. rewrite u8_small in E2 by (unfold is_u8; lia).
  match type of Hrtc with rtc _ ?σ0 _ => assert (Hinit : conn_inv σ0) end.
  { split_and!.
    - split; [by apply newGoBackNConn_fresh|by intros b].
    - split; [|by intros b]. split; [done|left; by split_and!].
    - exists [], []. pose proof (fresh_local _ idle_fresh) as Hl.
      split_and!; try done.
      all: exists 0%nat, 0%nat; simpl; rewrite u8_small by (unfold is_u8; lia);
        by apply dir_init. }
  eapply uninterrupted_ind; eauto using conn_inv_step.
Qed.

End Life.

(** What each side has delivered is a prefix of what the other submitted. *)
Lemma connect_prefix `{FloatToInt} n copts sopts σ ec rc es rs :
  (1 ≤ n ≤ 254)%nat → connect (Z.of_nat n) copts sopts σ →
  client σ = Run ec rc → server σ = Run es rs →
  strip <$> pushed es `prefix_of` strip <$> submitted ec
  ∧ strip <$> pushed ec `prefix_of` strip <$> submitted es.
Proof.
  intros Hn Hc Ec Es. destruct (conn_inv_init n Hn _ _ _ Hc)
    as (_ & _ & mcs & msc & _ & _ & _ & Lc & Ls & H1 & H2).
  rewrite Ec in *. rewrite Es in *. simpl in *.
  split; by eapply half_prefix.
Qed.

(** C2: take a client created with window [n] and a server, on two streams
    that keep order but may lose packets, and any state they can reach from
    the first SYN on, through any interleaving of the handshake, its restarts,
    cancelled contexts, the goroutines of both sides, resends, pings and
    timeouts.  Unless the server's context was cancelled before its handshake
    returned, a side that has finished the handshake uses the client's window
    [n], and when both have, the data packets each has put on [recvDataChan]
    are a prefix of those the other took from [sendDataChan]. *)
Theorem connection_delivers_in_order `{FloatToInt} n copts sopts σ :
  (1 ≤ n ≤ 254)%nat → connects (Z.of_nat n) copts sopts σ →
  interrupted σ = false →
  (∀ ec rd, client σ = Run ec rd → cfg_n (g_cfg (conn ec)) = Z.of_nat n)
  ∧ (∀ es rd, server σ = Run es rd → cfg_n (g_cfg (conn es)) = Z.of_nat n)
  ∧ (∀ ec rc es rs, client σ = Run ec rc → server σ = Run es rs →
     strip <$> pushed es `prefix_of` strip <$> submitted ec
     ∧ strip <$> pushed ec `prefix_of` strip <$> submitted es).
Proof.
  intros Hn Hc Hx. assert (Hc' : connect (Z.of_nat n) copts sopts σ) by done.
  destruct (conn_inv_init n Hn _ _ _ Hc')
    as (_ & _ & mcs & msc & _ & _ & _ & Lc & Ls & _ & _).
  split_and!.
  - intros ec rd E. rewrite E in Lc. apply Lc.
  - intros es rd E. rewrite E in Ls. apply Ls.
  - intros. by eapply connect_prefix.
Qed.

(** A run through the handshake in which one packet is delivered. *)
Tactic Notation "client_does" tactic3(tac) := eapply rtc_l; [eapply cs_client; tac|].
Tactic Notation "server_does" tactic3(tac) := eapply rtc_l; [eapply cs_server; tac|].
Ltac hand ev := eapply (sd_hand ev) with (i := io0);
  [reflexivity|vm_compute; reflexivity].
Ltac reads := eapply sd_read_hand; vm_compute; constructor.
Ltac starts := eapply (sd_start _ io0);
  [reflexivity|vm_compute; reflexivity].
Ltac sends ev := eapply sd_run, (es_send ev io0);
  [reflexivity|done|vm_compute; reflexivity].
Ltac receives := eapply sd_run, (es_recv true _ io0);
  [reflexivity|vm_compute; reflexivity].
Ltac pushes := eapply sd_run, (es_push io0);
  [reflexivity|vm_compute; reflexivity].

(** The client and the server go through the handshake. *)
Ltac run_handshake :=
  client_does (hand HsGo); client_does (hand HsGo);
  server_does (hand HsGo); server_does reads; server_does reads;
  server_does (hand HsRecv); server_does (hand HsGo);
  server_does (hand HsGo);
  client_does reads; client_does reads; client_does (hand HsRecv);
  client_does starts;
  server_does reads; server_does reads; server_does (hand HsRecv);
  server_does (hand HsGo); server_does starts.

(** After the handshake the client sends [p] and the server delivers it. *)
Ltac run_demo p :=
  run_handshake;
  client_does (sends (SEvData p)); client_does (sends SEvGo);
  server_does receives; server_does pushes;
  apply rtc_refl.

Lemma demo_connection : let _ := amd64 in
  ∃ σ ec rc es rs, connect 20 [] [] σ ∧ client σ = Run ec rc
  ∧ server σ = Run es rs ∧ pushed es = [demoPacket].
Proof.
  intros fl. do 5 eexists. split; [|split; [|split]].
  - split.
    { eexists. eexists. split; [reflexivity|]. split; [reflexivity|].
      run_demo demoPacket. }
    reflexivity.
  - reflexivity.
  - reflexivity.
  - reflexivity.
Qed.

Lemma connection_delivers_in_order_witness : let _ := amd64 in
  ∃ σ ec rc es rs, connect 20 [] [] σ ∧ client σ = Run ec rc
  ∧ server σ = Run es rs ∧ pushed es = [demoPacket]
  ∧ strip <$> pushed es `prefix_of` strip <$> submitted ec.
Proof.
  intros fl. destruct demo_connection as (σ & ec & rc & es & rs & H & Hc & Hs & Hp).
  exists σ, ec, rc, es, rs. split_and!; [exact H|exact Hc|exact Hs|exact Hp|].
  destruct (@connection_delivers_in_order amd64 20 [] [] σ) as (_ & _ & Hd).
  - lia.
  - exact (proj1 H).
  - exact (proj2 H).
  - exact (proj1 (Hd ec rc es rs Hc Hs)).
Defined.

(** ** A handshake message after the handshake *)

(** What [Close] looks at. *)
Definition closing (g : GoBackNConn) : bool * bool * bool * bool :=
  (closeOnce g, g_quit g, q_quit (sendQueue g), remoteClosed g).

Lemma Close_sends_FIN `{FloatToInt} g j :
  closing g = (false, false, false, false) → (∀ k, sendErr j k = None) →
  ∃ g' j', Close (g, j) = (Ok tt, (g', j'))
  ∧ g_quit g' = true ∧ ctxDone g' = true
  ∧ wire j' = wire j ++ [Serialize MFIN].
Proof.
  intros [= Ho Hgq Hqq Hrc] Hj. unfold Close, getG, modG, tryG. mstep. simpl.
  rewrite Ho. simpl. rewrite Hgq. simpl. rewrite Hrc. simpl.
  unfold sendPacket, wrapErr, sendToStream, clocks, modG. mstep. simpl.
  rewrite Hj. simpl. unfold stop. rewrite Hqq. by do 2 eexists.
Qed.

(** C38: a SYN or SYNACK that reaches an endpoint after its handshake, in
    whatever state, ends its receiving goroutine with an error, and nothing is
    read any more.  When the endpoint was open, the [Close] with which that
    goroutine ends then closes [quit] and the context, and sends the peer a
    FIN: one late handshake packet takes down a working connection. *)
Theorem late_syn_closes_connection `{FloatToInt} pick m g i g' i' :
  (m = MSYNACK ∨ ∃ N, m = MSYN N) →
  recvStep (REvBytes pick (Serialize m)) (g, i) = Some (Ok tt, (g', i')) →
  (∃ e, recvPC g' = RDone (Some e))
  ∧ (∀ ev j, recvStep ev (g', j) = None)
  ∧ (closeOnce g = false → g_quit g = false → q_quit (sendQueue g) = false →
     remoteClosed g = false → ∀ j, (∀ k, sendErr j k = None) →
     ∃ g'' j', Close (g', j) = (Ok tt, (g'', j'))
     ∧ g_quit g'' = true ∧ ctxDone g'' = true
     ∧ wire j' = wire j ++ [Serialize MFIN]).
Proof.
  intros Hm Hst. unfold recvStep in Hst. cbn [fst] in Hst.
  destruct (recvPC g); [|done..].
  destruct (handlePacket pick (Serialize m) (g, i)) as [res [g1 i1]] eqn:Hh.
  assert (Hq : closing g1 = closing g ∧ ∀ pc, res ≠ Ok pc).
  { revert Hh. unfold handlePacket, onTicker, tryG, wrapErr. mstep.
    rewrite Deserialize_Serialize. simpl.
    destruct (Received _ _ _); simpl; [|intros [= <- <- <-]; by split_and!..].
    destruct (pingTicker g) as [t|]; simpl; [|intros [= <- <- <-]; by split_and!].
    destruct (Reset _ t); simpl; [|intros [= <- <- <-]; by split_and!..].
    destruct (pongTicker g) as [t2|]; simpl; [|intros [= <- <- <-]; by split_and!].
    match goal with |- context [resetResendTicker ?s] =>
      destruct (resetResendTicker_spec s) as [[-> _]|[-> _]] end;
      [|intros [= <- <- <-]; by split_and!].
    destruct Hm as [->|[N ->]]; intros [= <- <- <-]; by split_and!. }
  destruct Hq as [Hcl Hres].
  destruct res as [pc|e|p]; [by destruct (Hres pc)| |done].
  simpl in Hst. injection Hst as <- <-. simpl. split_and!; eauto.
  intros Ho Hgq Hqq Hrc j Hj. apply Close_sends_FIN; [|done].
  change (closing (set_recvPC (RDone (Some e)) g1)) with (closing g1).
  rewrite Hcl. unfold closing. congruence.
Qed.

(** A client whose timer fires before the server's answer arrives sends a
    second SYN, and the server's second answer reaches it after the
    handshake, although no packet was lost. *)
Lemma demo_late_syn : let _ := amd64 in
  ∃ σ ec rc es rs l, connect 20 [] [] σ ∧ client σ = Run ec rc
  ∧ server σ = Run es rs ∧ wireSC σ = Serialize (MSYN 20) :: l
  ∧ closing (conn ec) = (false, false, false, false)
  ∧ ∃ g' i', recvStep (REvBytes true (Serialize (MSYN 20))) (conn ec, io0)
      = Some (Ok tt, (g', i')).
Proof.
  intros fl. do 6 eexists. split; [|split; [|split; [|split; [|split]]]].
  - split.
    { eexists. eexists. split; [reflexivity|]. split; [reflexivity|].
      client_does (hand HsGo). client_does (hand HsGo).
      client_does (hand HsTimeout).
      client_does (hand HsGo). client_does (hand HsGo).
      server_does (hand HsGo). server_does reads. server_does reads.
      server_does (hand HsRecv). server_does (hand HsGo).
      server_does (hand HsGo). server_does reads. server_does reads.
      client_does reads. client_does reads. client_does (hand HsRecv).
      client_does starts.
      server_does (hand HsRecv). server_does (hand HsGo).
      server_does (hand HsGo). server_does reads. server_does reads.
      server_does (hand HsRecv). server_does (hand HsGo).
      server_does starts. apply rtc_refl. }
    reflexivity.
  - reflexivity.
  - reflexivity.
  - reflexivity.
  - reflexivity.
  - do 2 eexists. vm_compute. reflexivity.
Qed.

Lemma late_syn_closes_connection_witness : let _ := amd64 in
  ∃ σ ec rc es rs l g' g'' j', connect 20 [] [] σ ∧ client σ = Run ec rc
  ∧ server σ = Run es rs ∧ wireSC σ = Serialize (MSYN 20) :: l
  ∧ (∀ ev j, recvStep ev (g', j) = None)
  ∧ Close (g', io0) = (Ok tt, (g'', j'))
  ∧ g_quit g'' = true ∧ wire j' = [Serialize MFIN].
Proof.
  intros fl. destruct demo_late_syn as
    (σ & ec & rc & es & rs & l & Hc & Ec & Es & Hw & Hcl & g' & i' & Hst).
  injection Hcl as H1 H2 H3 H4.
  destruct (@late_syn_closes_connection amd64 true (MSYN 20) (conn ec) io0 g' i')
    as (_ & Hno & Hclose).
  - right. exists 20. reflexivity.
  - exact Hst.
  - destruct (Hclose H1 H2 H3 H4 io0 (λ _, eq_refl))
      as (g'' & j' & HC & Hq & _ & HF).
    exists σ, ec, rc, es, rs, l, g', g'', j'.
    split_and!; [exact Hc|exact Ec|exact Es|exact Hw|exact Hno|exact HC|exact Hq
                |exact HF].
Defined.
