(* ===== verification/GbnOptions.v ===== *)
(** * The Go-Back-N options of the mailbox ([mailbox/client_conn.go],
    [mailbox/server_conn.go])

    The constants with which [NewClientConn] and [NewServerConn] of the mailbox
    package configure their Go-Back-N connections, and what they make of the
    ping and pong times. *)

From stdpp Require Import base numbers list tactics.
From S2P Require Import Prelude GoFloat Timeout GbnConn GbnHandshake.

Definition gbnResendMultiplier : Z := 5.
Definition gbnTimeoutUpdateFrequency : Z := 200.
Definition gbnN : Z := DefaultN.
Definition gbnHandshakeTimeout : Duration := 2000 * Millisecond.
Definition gbnClientPingTimeout : Duration := 10 * Second.
Definition gbnServerPingTimeout : Duration := 8 * Second.
Definition gbnPongTimeout : Duration := 5 * Second.
Definition gbnPongMultiplier : Z := 3.
Definition gbnBoostPercent := half32.

(** The arguments of [WithTimeoutOptions] on both sides, which differ in the
    ping timeout. *)
Definition gbnTimeoutOptions (ping : Duration) :
    list (TimeoutManager → TimeoutManager) :=
  [WithResendMultiplier gbnResendMultiplier;
   WithTimeoutUpdateFrequency gbnTimeoutUpdateFrequency;
   WithHandshakeTimeout gbnHandshakeTimeout;
   WithKeepalivePing ping gbnPongTimeout;
   WithBoostPercent gbnBoostPercent;
   WithDynamicPongTimeout gbnPongMultiplier ping].

(** [c.gbnOptions]; the client's [OnFIN] sets the status to
    [ClientStatusSessionNotFound]. *)
Definition clientGbnOptions : list Option_ :=
  [OptTimeoutOptions (gbnTimeoutOptions gbnClientPingTimeout); OptOnFIN].
Definition serverGbnOptions : list Option_ :=
  [OptTimeoutOptions (gbnTimeoutOptions gbnServerPingTimeout)].

(** ** Lemmas *)

Lemma gbnTimeoutOptions_known ping : Forall known_option (gbnTimeoutOptions ping).
Proof. repeat constructor. vm_compute. discriminate. Qed.

(** What holds of a manager with these options however it is used. *)
Record mailbox_tm (ping : Duration) (m : TimeoutManager) : Prop := {
  mt_wf : tm_wf m;
  mt_ping : pingTime m = ping;
  mt_pong : pongTime m = gbnPongTimeout;
  mt_max : maxPongTime m = ping;
  mt_resend : minimumResendTimeout ≤ resendTimeout m
}.

Lemma mailbox_tm_new ping :
  0 < ping → mailbox_tm ping (NewTimeOutManager (gbnTimeoutOptions ping)).
Proof.
  intros Hp. split; [apply NewTimeOutManager_wf, gbnTimeoutOptions_known|..];
    unfold NewTimeOutManager; simpl; unfold WithDynamicPongTimeout; simpl;
    rewrite (proj2 (Z.ltb_lt 0 ping)) by done; try done.
Qed.

Section Use.
Context `{FloatToInt}.

Lemma mailbox_tm_apply ping op m m' :
  tm_apply op m = Ok m' → mailbox_tm ping m → mailbox_tm ping m'.
Proof using.
  intros Ha [Hw Hp Hq Hm Hr]. destruct (tm_apply_wf op m Hw) as (m1 & Ha1 & Hw1).
  rewrite Ha in Ha1. injection Ha1 as <-.
  apply tm_apply_config in Ha as (E1 & E2 & E3 & E4).
  split; try congruence. destruct E4; lia.
Qed.

Lemma mailbox_tm_run ping ops m :
  mailbox_tm ping m → ∃ m', tm_run ops m = Ok m' ∧ mailbox_tm ping m'.
Proof using.
  revert m. induction ops as [|op ops IH]; intros m Hm; [by eexists|]. simpl.
  destruct (tm_apply_wf op m (mt_wf _ _ Hm)) as (m1 & Ha & _). rewrite Ha.
  apply IH. by eapply mailbox_tm_apply.
Qed.

(** The pong time of such a manager. *)
Lemma mailbox_pong ping m :
  gbnPongTimeout ≤ ping → mailbox_tm ping m → gbnPongTimeout ≤ GetPongTime m ≤ ping.
Proof using.
  intros Hle [_ Hp Hq Hm _]. unfold GetPongTime. rewrite Hp, Hq, Hm.
  change gbnPongTimeout with 5000000000 in *. repeat case_if; lia.
Qed.

End Use.

(** C23: the options of the mailbox make keep-alive consistent whatever is sent
    and received and whatever round-trip times are measured: the client pings
    after 10 s and the server after 8 s, so that they do not ping together, and
    the pong time of each side stays between 5 s and its own ping time; no
    operation on the manager fails, and its resend timeout before boosts never
    falls below one second. *)
Theorem mailbox_keepalive `{FloatToInt} ops :
  ∃ mc ms,
  tm_run ops (NewTimeOutManager (gbnTimeoutOptions gbnClientPingTimeout)) = Ok mc
  ∧ tm_run ops (NewTimeOutManager (gbnTimeoutOptions gbnServerPingTimeout)) = Ok ms
  ∧ GetPingTime ms + 2 * Second = GetPingTime mc
  ∧ 5 * Second ≤ GetPongTime mc ≤ GetPingTime mc
  ∧ 5 * Second ≤ GetPongTime ms ≤ GetPingTime ms
  ∧ Second ≤ originalTimeout (resendBooster mc)
  ∧ Second ≤ originalTimeout (resendBooster ms).
Proof.
  destruct (mailbox_tm_run gbnClientPingTimeout ops _
    (mailbox_tm_new gbnClientPingTimeout ltac:(done)))
    as (mc & Hc & Ic).
  destruct (mailbox_tm_run gbnServerPingTimeout ops _
    (mailbox_tm_new gbnServerPingTimeout ltac:(done)))
    as (ms & Hs & Is).
  exists mc, ms. split; [done|]. split; [done|].
  assert (Pc : GetPingTime mc = gbnClientPingTimeout)
    by (unfold GetPingTime; by rewrite (mt_ping _ _ Ic)).
  assert (Ps : GetPingTime ms = gbnServerPingTimeout)
    by (unfold GetPingTime; by rewrite (mt_ping _ _ Is)).
  rewrite Pc, Ps, (tw_rb _ (mt_wf _ _ Ic)), (tw_rb _ (mt_wf _ _ Is)).
  split; [done|]. split_and!.
  - by apply (mailbox_pong gbnClientPingTimeout).
  - by apply (mailbox_pong gbnClientPingTimeout).
  - by apply (mailbox_pong gbnServerPingTimeout).
  - by apply (mailbox_pong gbnServerPingTimeout).
  - apply Ic.
  - apply Is.
Qed.
