(* ===== verification/GbnSafety.v ===== *)
(** * Two connected endpoints do not panic

    A [GoBackNConn] can panic in many ways: an index outside the send queue, a
    division by a zero sequence space, a nil ticker, a ticker stopped twice or
    given a non-positive interval, a channel closed twice.  This file shows
    that none of them happens in [receivePacketsForever], [sendPacketsForever]
    and [Close] of two endpoints that were started and are joined by lossy
    streams, with the one exception of a resend timeout that is not positive. *)

From stdpp Require Import base numbers list strings gmap tactics relations.
From S2P Require Import Prelude Messages GoFloat Timeout Ticker Syncer Queue.
From S2P Require Import GbnConn GbnWindow GbnSystem GbnHandshake GbnOptions.

(** ** Tickers and timeouts *)

(** A ticker that exists, runs and can be reset. *)
Definition live (o : option ticker) : Prop :=
  ∃ t, o = Some t ∧ 0 < interval t ∧ quitClosed t = false.

Lemma live_new d now t :
  NewIntervalAwareForceTicker d now = Ok t → live (Some t).
Proof.
  unfold NewIntervalAwareForceTicker. case_if; [done|]. intros [= <-].
  by eexists.
Qed.

Lemma live_resetWith d now t :
  live (Some t) → 0 < d →
  ∃ t', ResetWithInterval d now t = Ok t' ∧ live (Some t').
Proof.
  intros (t0 & [= <-] & Hi & Hq) Hd.
  unfold ResetWithInterval, resetWithIntervalLocked, stopLoop. rewrite Hq. simpl.
  case_if; [lia|]. eexists. split; [done|]. by eexists.
Qed.

Lemma live_reset now t :
  live (Some t) → ∃ t', Reset now t = Ok t' ∧ live (Some t').
Proof.
  intros Hl. apply (live_resetWith (interval t) now t) in Hl as Hr; [done|].
  by destruct Hl as (t0 & [= <-] & Hi & _).
Qed.

Lemma live_resume t : live (Some t) → live (Some (Resume t)).
Proof. intros (t0 & [= <-] & Hi & Hq). by eexists. Qed.

Lemma live_pause t : live (Some t) → live (Some (Pause t)).
Proof.
  intros (t0 & [= <-] & Hi & Hq). unfold Pause. simpl.
  destruct (loop t); by eexists.
Qed.

Lemma live_take t tick t' :
  takeTick t = Some (tick, t') → live (Some t) → live (Some t').
Proof.
  unfold takeTick. destruct (loop t); try done.
  intros [= <- <-] (t0 & [= <-] & Hi & Hq). by eexists.
Qed.

Lemma live_step t t' : ticker_step t t' → live (Some t) → live (Some t').
Proof.
  intros Hs Hl. assert (Hl' := Hl). destruct Hl as (t0 & [= <-] & Hi & Hq).
  destruct Hs as [t tick now H|t tick H|t tick H|t t' tick H|t H].
  - by eexists.
  - unfold loop_check. case_if; by eexists.
  - by eexists.
  - by eapply live_take.
  - by eexists.
Qed.

(** A manager that neither divides by zero nor yields a ping or pong interval
    a ticker refuses. *)
Definition tm_sane (m : TimeoutManager) : Prop :=
  tm_wf m ∧ 0 ≤ pingTime m ∧ 0 ≤ pongTime m.

Lemma GetPingTime_pos m : tm_sane m → 0 < GetPingTime m.
Proof.
  intros (_ & Hp & _). unfold GetPingTime, MaxInt64. case_if; lia.
Qed.

Lemma GetPongTime_pos m : tm_sane m → 0 < GetPongTime m.
Proof.
  intros ([[? ? ? Hm ?] ? ? ? ?] & Hp & Hq). unfold GetPongTime, MaxInt64.
  repeat case_if; lia.
Qed.

Section Safety.
Context `{FloatToInt}.

Lemma tm_sane_apply op m : tm_sane m → ∃ m', tm_apply op m = Ok m' ∧ tm_sane m'.
Proof using.
  intros (Hw & Hp & Hq). destruct (tm_apply_wf op m Hw) as (m' & Ha & Hw').
  exists m'. split; [done|]. apply tm_apply_config in Ha as (E1 & E2 & _).
  unfold tm_sane. by rewrite E1, E2.
Qed.

(** ** Endpoints *)

(** What keeps the calls of a started connection from panicking, the queue
    apart. *)
Record sane (g : GoBackNConn) : Prop := {
  sa_tm : tm_sane (timeoutManager g);
  sa_ping : live (pingTicker g);
  sa_pong : live (pongTicker g);
  sa_quit : closeOnce g = false → g_quit g = false ∧ q_quit (sendQueue g) = false
}.

(** The receiving goroutine has returned once it has seen a FIN. *)
Definition fin_ok (g : GoBackNConn) : Prop :=
  remoteClosed g = true → ∃ e, recvPC g = RDone e.

(** The outcome of a call: no panic, unless a ticker is reset with a resend
    timeout that is not positive, and [Q] afterwards. *)
Definition calm {A} (Q : GoBackNConn → Prop) (r : result A * St) : Prop :=
  match r with
  | (Panic p, s') =>
      p = NonPositiveInterval ∧ GetResendTimeout (timeoutManager s'.1) ≤ 0
  | (_, s') => Q s'.1
  end.

Lemma calm_bind {A B} Q1 Q (f : M St A) (k : A → M St B) s :
  calm Q1 (f s) →
  (∀ a s', f s = (Ok a, s') → Q1 s'.1 → calm Q (k a s')) →
  (∀ g, Q1 g → Q g) →
  calm Q ((f ≫= k) s).
Proof using.
  unfold mbind, M_bind. intros Hf Hk Hq.
  destruct (f s) as [[a|e|p] s'] eqn:He; simpl in *; auto.
Qed.

(** [g'] differs from [g] at most in tickers, timeouts and the like. *)
Definition near (g g' : GoBackNConn) : Prop :=
  sane g' ∧ core g' = core g ∧ remoteClosed g' = remoteClosed g
  ∧ closeOnce g' = closeOnce g.

Lemma near_refl g : sane g → near g g.
Proof using. by unfold near. Qed.

Lemma near_tm g g' m :
  near g g' → tm_sane m → near g (set_timeoutManager m g').
Proof using. intros ([] & ? & ? & ?) Hm. by split; [constructor|]. Qed.

Lemma near_ping g g' t :
  near g g' → live (Some t) → near g (set_pingTicker (Some t) g').
Proof using. intros ([] & ? & ? & ?) Ht. by split; [constructor|]. Qed.

Lemma near_pong g g' t :
  near g g' → live (Some t) → near g (set_pongTicker (Some t) g').
Proof using. intros ([] & ? & ? & ?) Ht. by split; [constructor|]. Qed.

Lemma near_signal g g' b : near g g' → near g (set_resendSignal b g').
Proof using. intros ([] & ? & ? & ?). by split; [constructor|]. Qed.

Lemma calm_clocks g k s : near g s.1 → calm (near g) (clocks k s).
Proof using. done. Qed.

Lemma calm_time g s : near g s.1 → calm (near g) (time_now s).
Proof using. done. Qed.

Lemma calm_reset_resend g s : near g s.1 → calm (near g) (resetResendTicker s).
Proof using.
  intros Hn. destruct (resetResendTicker_spec s) as [[-> _]|[-> Hle]]; by simpl.
Qed.

Lemma calm_sendPacket g msg r s : near g s.1 → calm (near g) (sendPacket msg r s).
Proof using.
  destruct s as [g1 i]. simpl. intros Hn.
  unfold sendPacket, wrapErr, sendToStream. mstep. simpl.
  destruct (sendErr i (length (wire i))); simpl; [done|].
  apply near_tm; [done|]. destruct Hn as (Hs & _).
  match goal with |- tm_sane (Sent ?c _ _ _) =>
    destruct (tm_sane_apply (OpSent c msg r) _ (sa_tm _ Hs)) as (m' & [= <-] & ?) end.
  done.
Qed.

Lemma calm_ping g f s :
  near g s.1 → (∀ t, live (Some t) → ∃ t', f t = Ok t' ∧ live (Some t')) →
  calm (near g) (onTicker pingTicker set_pingTicker f s).
Proof using.
  destruct s as [g1 i]. simpl. intros Hn Hf. assert (Hn' := Hn).
  destruct Hn' as (Hs & _). destruct (sa_ping _ Hs) as (t & Ht & Hl).
  destruct (Hf t) as (t' & Hft & Hl'); [by exists t|].
  unfold onTicker, tryG. mstep. simpl. rewrite Ht, Hft. simpl.
  by apply near_ping.
Qed.

Lemma calm_pong g f s :
  near g s.1 → (∀ t, live (Some t) → ∃ t', f t = Ok t' ∧ live (Some t')) →
  calm (near g) (onTicker pongTicker set_pongTicker f s).
Proof using.
  destruct s as [g1 i]. simpl. intros Hn Hf. assert (Hn' := Hn).
  destruct Hn' as (Hs & _). destruct (sa_pong _ Hs) as (t & Ht & Hl).
  destruct (Hf t) as (t' & Hft & Hl'); [by exists t|].
  unfold onTicker, tryG. mstep. simpl. rewrite Ht, Hft. simpl.
  by apply near_pong.
Qed.

(** A change of the queue keeps a connection sane when the queue is not
    stopped by it. *)
Lemma sane_queue q g :
  sane g → q_quit q = q_quit (sendQueue g) → sane (set_sendQueue q g).
Proof using. intros [? ? ? Hq] E. constructor; try done. simpl. by rewrite E. Qed.

Lemma addPacket_quit p q p' q' : addPacket p q = Ok (p', q') → q_quit q' = q_quit q.
Proof using.
  unfold addPacket. mstep. repeat case_match; try done. by intros [= <- <-].
Qed.

Lemma processACK_quit seq q b q' :
  Queue.processACK seq q = Ok (b, q') → q_quit q' = q_quit q.
Proof using.
  unfold Queue.processACK. mstep. repeat case_match; try done; by intros [= <- <-].
Qed.

Lemma processNACK_quit pick seq q r q' :
  Queue.processNACK pick seq q = (r, q') → q_quit q' = q_quit q.
Proof using.
  unfold Queue.processNACK. repeat case_if; by intros [= <- <-].
Qed.

Lemma resendBegin_quit hs t1 t2 q r q' :
  resendBegin hs t1 t2 q = Ok (r, q') → q_quit q' = q_quit q.
Proof using.
  unfold resendBegin. mstep. repeat case_match; try done; by intros [= <- <-].
Qed.

(** ** The sending goroutine *)

Definition send_ok (g g' : GoBackNConn) : Prop :=
  sane g' ∧ recvPC g' = recvPC g ∧ remoteClosed g' = remoteClosed g.

Lemma near_send g g' : near g g' → send_ok g g'.
Proof using. by intros (? & [= _ _ _ _ ?] & ? & ?). Qed.

Lemma calm_weaken {A} (Q Q' : GoBackNConn → Prop) (r : result A * St) :
  calm Q r → (∀ g, Q g → Q' g) → calm Q' r.
Proof using. destruct r as [[]]; simpl; auto. Qed.

(** Run the next call of a sequence, then go on with its result. *)
Ltac calmly lem a s Hn :=
  eapply calm_bind; [apply lem; eauto|intros a s _ Hn|eauto using near_send].

Section Sending.
Context (n : nat) (g : GoBackNConn) (h : list PacketData) (rs : Z).
Context (got data : list PacketData) (acks : list ack) (B R : nat).
Context (I : dir_inv n (sendQueue g) (sendPC g) h rs got data acks B R).

(** A queue operation that the window invariant makes succeed. *)
Lemma calm_queue {A} (f : queue → result (A * queue)) (k : A → M St sendPCs) a q' s :
  near g s.1 → f (sendQueue g) = Ok (a, q') → q_quit q' = q_quit (sendQueue g) →
  (∀ s', send_ok g s'.1 → calm (send_ok g) (k a s')) →
  calm (send_ok g)
    ((r ← tryG (λ g, r ← f (sendQueue g); Ok (r.1, set_sendQueue r.2 g)); k r) s).
Proof using.
  destruct s as [g1 i]. simpl. intros (Hs & Hc & Hr & _) Hf Hq Hk.
  injection Hc as E1 E2 E3 E4 E5. unfold tryG. mstep. simpl. rewrite E2, Hf. simpl.
  apply Hk. split; [|done]. apply sane_queue; [done|]. congruence.
Qed.

Lemma enqueue_calm p s :
  sendPC g = SSelect → near g s.1 → calm (send_ok g) (enqueue p s).
Proof using I.
  intros Hpc Hn. destruct (step_enqueue _ _ _ _ _ _ _ _ _ _ I p Hpc)
    as (p' & q' & Hadd & _).
  eapply calm_queue; [done|exact Hadd|by eapply addPacket_quit|]. done.
Qed.

Lemma endResend_calm back s : send_ok g s.1 → calm (send_ok g) (endResend back s).
Proof using.
  intros Hs. unfold endResend. mstep.
  destruct (resetResendTicker_spec s) as [[-> _]|[-> Hle]]; by simpl.
Qed.

Lemma beginResend_calm (back : bool) s :
  (sendPC g = if back then SFull else SSelect) → near g s.1 →
  calm (send_ok g) (beginResend back s).
Proof using I.
  intros Hpc Hn. unfold beginResend.
  assert (Hroom : back = false → room n h B).
  { intros ->. pose proof (di_pc _ _ _ _ _ _ _ _ _ _ I) as Hx.
    by rewrite Hpc in Hx. }
  eapply (calm_bind (near g)); [done|intros hs s1 [= <- <-] _|eauto using near_send].
  eapply (calm_bind (near g)); [done|intros clk s1 [= <- <-] Hn1|eauto using near_send].
  destruct (step_begin _ _ _ _ _ _ _ _ _ _ I (GetHandshakeTimeout (timeoutManager s.1))
    (clock s.2 (reads s.2 + 0)) (clock s.2 (reads s.2 + 1)) back Hroom)
    as (r & q' & Hr & _).
  apply (calm_queue (resendBegin _ _ _) _ r q' _ Hn1 Hr).
  - by eapply resendBegin_quit.
  - intros s' Hs'. destruct r as [[b t]|]; [done|]. by apply endResend_calm.
Qed.

Lemma handlePing_calm s :
  sendPC g = SSelect → near g s.1 → calm (send_ok g) (handlePing s).
Proof using I.
  intros Hpc Hn. unfold handlePing.
  eapply (calm_bind (near g)); [done|intros o s1 [= <- <-] _|eauto using near_send].
  destruct (sa_pong _ (proj1 Hn)) as (t & Ht & Hl). rewrite Ht.
  destruct (takeTick t) as [[tick t']|] eqn:Htk.
  { simpl. apply near_send, near_pong; [done|].
    eapply live_take; [done|]. by exists t. }
  calmly (calm_time g) now1 s1 Hn1.
  eapply (calm_bind (near g)); [done|intros d s2 [= <- <-] _|eauto using near_send].
  calmly (calm_pong g) u2 s2 Hn2.
  { intros t1 Hl1. destruct (live_resetWith (GetPongTime (timeoutManager s1.1)) now1 t1)
      as (t2 & -> & Hl2); [done|apply GetPongTime_pos, sa_tm, Hn1|].
    simpl. eexists. split; [done|]. by apply live_resume. }
  calmly (calm_time g) now2 s3 Hn3.
  calmly (calm_ping g) u4 s4 Hn4.
  { intros. by apply live_reset. }
  by apply enqueue_calm.
Qed.

Lemma stepResend_calm base top back s :
  sendPC g = SResend base top back → near g s.1 →
  calm (send_ok g) (stepResend base top back s).
Proof using I.
  intros Hpc Hn. destruct s as [g1 i]. unfold stepResend. case_if.
  - destruct Hn as (Hs & [= _ _ _ _ ?] & ? & _). simpl. split; [|done].
    by apply sane_queue.
  - destruct (step_resend _ _ _ _ _ _ _ _ _ _ I _ _ _ Hpc)
      as (p & base' & Hnx & _); [done|].
    assert (Hq : sendQueue g1 = sendQueue g) by (by destruct Hn as (_ & [= _ ? _ _ _] & _)).
    unfold tryG. mstep. simpl. rewrite Hq, Hnx. simpl.
    pose proof (calm_sendPacket g (MData p) true (g1, i) Hn) as Hc.
    destruct (sendPacket _ _ _) as [[] s']; simpl in *; auto using near_send.
Qed.

Lemma sendBody_calm ev i m :
  sane g → sendBody ev g = Some m → calm (send_ok g) (m (g, i)).
Proof using I.
  intros Hs Hm. assert (Hn := near_refl g Hs). unfold sendBody in Hm.
  assert (∃ pc, sendPC g = pc) as [pc Hpc] by eauto. rewrite Hpc in Hm.
  destruct pc as [|p| | |base top back|back|e], ev; try discriminate Hm;
    try (case_if_in Hm; [|discriminate Hm]);
    try (injection Hm as <-; by auto using near_send).
  - injection Hm as <-.
    by apply (beginResend_calm false (_, i)), near_signal.
  - injection Hm as <-. by apply beginResend_calm.
  - destruct (pingTicker g) as [t|] eqn:Ht; [|done].
    destruct (takeTick t) as [[tk t']|] eqn:Htk; [|done]. injection Hm as <-.
    apply handlePing_calm; [done|]. apply near_ping; [done|].
    eapply live_take; [done|]. rewrite <- Ht. apply Hs.
  - destruct (pongTicker g) as [t|] eqn:Ht; [|done].
    destruct (takeTick t) as [[tk t']|] eqn:Htk; [|done]. injection Hm as <-.
    apply near_send, near_pong; [done|].
    eapply live_take; [done|]. rewrite <- Ht. apply Hs.
  - injection Hm as <-. by apply enqueue_calm.
  - injection Hm as <-. mstep.
    pose proof (calm_sendPacket g (MData p) false (g, i) Hn) as Hc.
    destruct (sendPacket _ _ _) as [[] s']; simpl in *; auto using near_send.
  - injection Hm as <-.
    by apply (beginResend_calm true (_, i)), near_signal.
  - injection Hm as <-. by apply beginResend_calm.
  - injection Hm as <-. by apply stepResend_calm.
  - destruct (sy_waiter _); [|done..]. injection Hm as <-.
    by apply endResend_calm, near_send.
Qed.

End Sending.

(** ** The receiving goroutine *)

Section Receiving.
Context (n : nat) (g : GoBackNConn) (msg : Message) (l : list Message).
Context (h : list PacketData) (rsB : Z) (gotB data1 : list PacketData).
Context (B1 R1 : nat).
Context (Hcfg : cfg_s (g_cfg g) = Z.of_nat n + 1).
Context (Hopen : remoteClosed g = false).
Context (I : dir_inv n (sendQueue g) (sendPC g) h rsB gotB data1
               (acksOf (msg :: l)) B1 R1).

(** No panic, and a FIN makes the goroutine return. *)
Definition recv_safe (r : result recvPCs * St) : Prop :=
  calm sane r
  ∧ match r with (Ok _, s') => remoteClosed s'.1 = false | _ => True end.

Lemma safe_bind {A} (f : M St A) (k : A → M St recvPCs) s :
  calm (near g) (f s) →
  (∀ a s', f s = (Ok a, s') → near g s'.1 → recv_safe (k a s')) →
  recv_safe ((f ≫= k) s).
Proof using.
  unfold mbind, M_bind. intros Hf Hk.
  destruct (f s) as [[a|e|p] s'] eqn:He; simpl in *; [auto| |done].
  split; [apply Hf|done].
Qed.

Lemma near_safe pc s : near g s.1 → recv_safe (Ok pc, s).
Proof using Hopen. intros (? & _ & Hr & _). split; [done|]. congruence. Qed.

(** Run the next call, then go on with its result. *)
Ltac safely lem a s Hn := eapply safe_bind; [apply lem; eauto|intros a s _ Hn].

Lemma handleData_safe m s : near g s.1 → recv_safe (handleData m s).
Proof using Hcfg Hopen I.
  intros Hn. unfold handleData.
  eapply safe_bind; [done|intros rs s1 [= <- <-] _].
  case_if.
  - safely (calm_sendPacket g) u s1 Hn1. destruct s1 as [g1 i1].
    pose proof Hn1 as (Hs1 & [= E _ _ _ _] & Hr1 & _).
    pose proof (qr_s _ _ _ (di_rep _ _ _ _ _ _ _ _ _ _ I)) as Hrange.
    pose proof (di_s _ _ _ _ _ _ _ _ _ _ I) as Hqs.
    unfold tryG. mstep. simpl. rewrite E, Hcfg, umod_pos by lia. simpl.
    assert (Hs2 : sane (set_recvSeq (u8 (recvSeq g1 + 1) mod (Z.of_nat n + 1)) g1))
      by (by destruct Hs1).
    case_if; (split; [done|]); simpl in *; congruence.
  - safely (calm_time g) t s1 Hn1.
    eapply safe_bind; [done|intros lt s2 [= <- <-] _].
    eapply safe_bind; [done|intros ls s2 [= <- <-] _].
    eapply safe_bind; [done|intros to s2 [= <- <-] _].
    case_if; [by apply near_safe|].
    safely (calm_sendPacket g) u s2 Hn2. safely (calm_time g) t' s3 Hn3.
    destruct s3 as [g3 i3]. destruct Hn3 as ([] & _ & Hr3 & _).
    split; [|simpl in *; congruence]. by constructor.
Qed.

Lemma signalACK_sane g1 :
  sane g1 → sane (signalACK g1) ∧ remoteClosed (signalACK g1) = remoteClosed g1.
Proof using.
  intros [? ? ? Hq]. unfold signalACK. destruct (sendPC g1); (split; [by constructor|done]).
Qed.

Lemma handleACK_safe seq s :
  msg = MACK seq → near g s.1 → recv_safe (handleACK seq s).
Proof using Hopen I.
  destruct s as [g1 i]. simpl. intros Hmsg (Hs & [= _ E _ _ _] & Hr & _).
  assert (Hhead : acksOf (msg :: l) = AckOf seq :: acksOf l) by (by rewrite Hmsg).
  destruct (step_ack _ _ _ _ _ _ _ _ _ _ I _ _ Hhead) as (q' & B1' & Hq & _).
  unfold handleACK, tryG. mstep. simpl. rewrite E, Hq. simpl.
  destruct (signalACK_sane (set_sendQueue q' g1)) as [Hs' Hr'].
  { apply sane_queue; [done|]. rewrite E. by eapply processACK_quit. }
  split; [done|]. simpl in *. congruence.
Qed.

Lemma handleNACK_safe pick seq s :
  msg = MNACK seq → near g s.1 → recv_safe (handleNACK pick seq s).
Proof using Hopen I.
  destruct s as [g1 i]. simpl. intros Hmsg (Hs & [= _ E _ _ _] & Hr & _).
  unfold handleNACK, tryG. mstep. simpl. rewrite E.
  destruct (Queue.processNACK pick seq (sendQueue g)) as [[rsd bumped] q'] eqn:Hq.
  simpl. assert (Hs' : sane (set_sendQueue q' g1)).
  { apply sane_queue; [done|]. rewrite E. by eapply processNACK_quit. }
  assert (Hr' : remoteClosed (set_sendQueue q' g1) = false)
    by (simpl; congruence).
  case_if; simpl; [by split|].
  destruct (signalACK_sane _ Hs') as [Hs2 Hr2]. rewrite Hr' in Hr2.
  destruct bumped; split; try done; by destruct Hs2, Hs'.
Qed.

Lemma handleFIN_safe s : near g s.1 → recv_safe (handleFIN s).
Proof using Hopen.
  destruct s as [g1 i]. simpl. intros ([] & _ & Hr & _).
  unfold handleFIN, tryG. mstep. simpl. rewrite Hr, Hopen. simpl.
  split; [|done]. simpl. case_if; by constructor.
Qed.

Lemma handlePacket_safe pick i :
  sane g → recv_safe (handlePacket pick (Serialize msg) (g, i)).
Proof using Hcfg Hopen I.
  intros Hs. assert (Hn := near_refl g Hs). unfold handlePacket.
  eapply safe_bind.
  { unfold wrapErr, liftR. rewrite Deserialize_Serialize. exact Hn. }
  intros m s0 Hm _. unfold wrapErr, liftR in Hm.
  rewrite Deserialize_Serialize in Hm. injection Hm as <- <-.
  safely (calm_clocks g) clk s1 Hn1.
  eapply safe_bind; [|intros u2 s2 _ Hn2].
  { destruct (tm_sane_apply (OpReceived clk msg) _ (sa_tm _ (proj1 Hn1)))
      as (m' & Hm' & Hsm). simpl in Hm'. unfold tryG. mstep. rewrite Hm'. simpl.
    by apply near_tm. }
  safely (calm_time g) t3 s3 Hn3.
  safely (calm_ping g) u4 s4 Hn4.
  { intros. by apply live_reset. }
  safely (calm_pong g) u5 s5 Hn5.
  { intros t Hl. eexists. split; [done|]. case_if; [by apply live_pause|done]. }
  safely (calm_reset_resend g) u6 s6 Hn6.
  assert (∃ m, msg = m) as [m Hm] by eauto. rewrite Hm. destruct m.
  - by apply handleData_safe.
  - by apply handleACK_safe.
  - split; [apply Hn6|done].
  - by apply handleNACK_safe.
  - by apply handleFIN_safe.
  - split; [apply Hn6|done].
Qed.

End Receiving.

(** ** Closing *)

Lemma Close_calm s :
  sane s.1 →
  ∃ s', Close s = (Ok tt, s') ∧ sane s'.1 ∧ recvPC s'.1 = recvPC s.1
  ∧ remoteClosed s'.1 = remoteClosed s.1.
Proof using H.
  destruct s as [g i]. simpl. intros Hs. assert (Hq := sa_quit _ Hs).
  unfold Close, getG, modG, tryG. mstep. simpl.
  destruct (closeOnce g) eqn:Ho; [by eexists|]. simpl.
  destruct (Hq eq_refl) as [Hgq Hqq]. rewrite Hgq. simpl.
  set (g1 := set_g_quit true (set_closeOnce true g)).
  assert (Hs1 : sane g1) by (destruct Hs; by constructor).
  assert (Hend : ∀ g2 i2, near g1 g2 → ∃ s',
    tryG (λ g, q ← stop (sendQueue g); Ok (tt, set_sendQueue q g))
      (set_ctxDone true g2, i2) = (Ok tt, s')
    ∧ sane s'.1 ∧ recvPC s'.1 = recvPC g ∧ remoteClosed s'.1 = remoteClosed g).
  { intros g2 i2 ([] & [= E1 E2 E3 E4 E5] & Hr & Hco). unfold tryG, stop. mstep.
    simpl. rewrite E2, Hqq. simpl. eexists. split; [done|]. simpl.
    split; [|done]. constructor; try done. simpl. by rewrite Hco. }
  unfold tryG in Hend. revert Hend. mstep. simpl. intros Hend.
  destruct (remoteClosed g) eqn:Hrc; simpl.
  { apply (Hend g1), near_refl, Hs1. }
  pose proof (sendPacket_spec MFIN false g1 i) as Hsp.
  pose proof (calm_sendPacket g1 MFIN false (g1, i) (near_refl g1 Hs1)) as Hc.
  destruct (sendPacket MFIN false (g1, i)) as [[[]|e|p] [g2 i2]]; simpl in *.
  - by apply Hend.
  - by apply Hend.
  - destruct (Hsp _ _ eq_refl) as [(e & ? & _)|(? & _)]; done.
Qed.

Lemma CloseEnd_calm s : sane s.1 → ∃ s', CloseEnd s = (Ok tt, s').
Proof using.
  destruct s as [g i]. simpl. intros [_ (t & Ht & Hi & Hq) _ _].
  unfold CloseEnd, tryG, Stop, stopLoop. mstep. simpl. rewrite Ht.
  assert (Hp : quitClosed (Pause t) = false)
    by (unfold Pause; simpl; by destruct (loop t)).
  rewrite Hp. by eexists.
Qed.

(** ** Every step of a running endpoint *)

Definition ep_sane (e : endpoint) : Prop := sane (conn e) ∧ fin_ok (conn e).

(** The outcome of a step: success, or a ticker reset to a resend timeout that
    is not positive. *)
Definition safe_result (r : result unit) (s' : St) : Prop :=
  r = Ok tt
  ∨ r = Panic NonPositiveInterval ∧ GetResendTimeout (timeoutManager s'.1) ≤ 0.

Lemma sane_sendPC pc g : sane g → sane (set_sendPC pc g).
Proof using. by intros []. Qed.
Lemma sane_recvPC pc g : sane g → sane (set_recvPC pc g).
Proof using. by intros []. Qed.

Lemma sendStep_safe n e f mo mi ev i r s' :
  half n e f mo mi → ep_sane e → sendStep ev (conn e, i) = Some (r, s') →
  safe_result r s'
  ∧ (r = Ok tt → sane s'.1 ∧ fin_ok s'.1).
Proof using.
  intros (B & R & I) [Hs Hf] Hstep. unfold sendStep in Hstep. simpl in Hstep.
  destruct (sendBody ev (conn e)) as [m|] eqn:Hb; [|done].
  pose proof (sendBody_calm _ _ _ _ _ _ _ _ _ I ev i m Hs Hb) as Hc.
  destruct (m (conn e, i)) as [[pc|err|p] s1]; simpl in *; injection Hstep as <- <-.
  - destruct Hc as (Hs1 & Hp1 & Hr1). split; [by left|]. intros _. simpl.
    split; [by apply sane_sendPC|]. unfold fin_ok in *. simpl. by rewrite Hp1, Hr1.
  - destruct Hc as (Hs1 & Hp1 & Hr1). split; [by left|]. intros _. simpl.
    split; [by apply sane_sendPC|]. unfold fin_ok in *. simpl. by rewrite Hp1, Hr1.
  - destruct Hc as [-> Hle]. split; [by right|]. done.
Qed.

Lemma recvBytes_safe n e f mo mi b pick i r s' :
  local_inv n e → half n e f mo (b :: mi) → ep_sane e →
  recvStep (REvBytes pick (Serialize b)) (conn e, i) = Some (r, s') →
  safe_result r s' ∧ (r = Ok tt → sane s'.1 ∧ fin_ok s'.1).
Proof using.
  intros Hl (B & R & I) [Hs Hf] Hstep. unfold recvStep in Hstep. simpl in Hstep.
  destruct (recvPC (conn e)) eqn:Hpc; try done.
  assert (Hopen : remoteClosed (conn e) = false).
  { apply not_true_is_false. intros Hrc. destruct (Hf Hrc). congruence. }
  destruct (handlePacket_safe _ _ _ _ _ _ _ _ _ _ (li_s _ _ Hl) Hopen I pick i Hs)
    as [Hc Ho].
  destruct (handlePacket _ _ _) as [[pc|err|p] s1]; simpl in *; injection Hstep as <- <-.
  - split; [by left|]. intros _. simpl. split; [by apply sane_recvPC|].
    unfold fin_ok. simpl. by rewrite Ho.
  - split; [by left|]. intros _. simpl. split; [by apply sane_recvPC|].
    intros _. by eexists.
  - destruct Hc as [-> Hle]. split; [by right|]. done.
Qed.

(** The other wake-ups of the receiving goroutine. *)
Lemma recvOther_safe e ev i r s' :
  (∀ pick b, ev ≠ REvBytes pick b) → ep_sane e →
  recvStep ev (conn e, i) = Some (r, s') →
  r = Ok tt ∧ sane s'.1 ∧ fin_ok s'.1.
Proof using.
  intros Hev [Hs Hf] Hstep. unfold recvStep in Hstep. simpl in Hstep.
  unfold fin_ok in *.
  destruct (recvPC (conn e)) eqn:Hpc, ev; try done; try (by destruct (Hev pick b));
    try (case_if_in Hstep; [|done]); simpl in Hstep; injection Hstep as <- <-;
    (split; [done|]); simpl; (split; [by destruct Hs|]); eauto.
  intros Hrc. by destruct (Hf Hrc).
Qed.

Lemma ep_step_sane n e f inw outw inw' e' outw' mi mo :
  ep_step inw e outw inw' e' outw' → inw = Serialize <$> mi →
  local_inv n e → half n e f mo mi → ep_sane e → ep_sane e'.
Proof using.
  intros Hstep. destruct Hstep as
    [ev i e g' i' inw outw Hw Hok Hst|pick b i e g' i' inw outw Hw Hst
    |i e g' i' inw outw Hw Hst|ev i e g' i' inw outw Hev Hst
    |c e inw outw Hst|t t' e inw outw Ht Hst|t t' e inw outw Ht Hst
    |i e g' i' inw outw Hw Hst|m l e inw outw Hm|ds dr e inw outw];
    intros Hin Hl Hh He.
  - by destruct (sendStep_safe _ _ _ _ _ _ _ _ _ Hh He Hst) as [_ Hx]; apply Hx.
  - destruct mi as [|mb mi]; [done|]. simpl in Hin. injection Hin as -> ->.
    by destruct (recvBytes_safe _ _ _ _ _ _ _ _ _ _ Hl Hh He Hst) as [_ Hx]; apply Hx.
  - by apply (recvOther_safe e REvPush i) in Hst as (_ & ? & ?).
  - apply (recvOther_safe e ev i) in Hst as (_ & ? & ?); try done.
    by destruct Hev as [->|[err ->]].
  - destruct He as [Hs Hf]. split; [by apply sane_queue|done].
  - destruct He as [[? Hp ? ?] Hf]. split; [|done]. constructor; try done.
    simpl. rewrite Ht in Hp. by eapply live_step.
  - destruct He as [[? ? Hp ?] Hf]. split; [|done]. constructor; try done.
    simpl. rewrite Ht in Hp. by eapply live_step.
  - destruct He as [Hs Hf].
    destruct (Close_calm (conn e, i) Hs) as (s1 & Hc & Hs1 & Hp1 & Hr1).
    rewrite Hc in Hst. injection Hst as ->. split; [done|].
    unfold fin_ok in *. simpl in *. by rewrite Hp1, Hr1.
  - destruct He as [[] Hf]. by split.
  - destruct He as [[Htm ? ? ?] Hf]. split; [|done]. constructor; try done. simpl.
    by destruct Htm as ([[] ? ? ? ?] & ? & ?).
Qed.

(** ** The handshake *)

(** What the handshake keeps of the connection it was given. *)
Record hand_sane (g : GoBackNConn) : Prop := {
  ha_tm : tm_sane (timeoutManager g);
  ha_once : closeOnce g = false;
  ha_quit : g_quit g = false;
  ha_queue : q_quit (sendQueue g) = false;
  ha_remote : remoteClosed g = false
}.

(** No panic at all. *)
Definition steady {A} (r : result A * St) : Prop :=
  match r with
  | (Panic _, _) => False
  | (_, s') => hand_sane s'.1
  end.

Lemma steady_bind {A B} (f : M St A) (k : A → M St B) s :
  steady (f s) → (∀ a s', hand_sane s'.1 → steady (k a s')) → steady ((f ≫= k) s).
Proof using.
  unfold mbind, M_bind. intros Hf Hk. destruct (f s) as [[a|e|p] s']; simpl in *; auto.
Qed.

Lemma steady_send b s : hand_sane s.1 → steady (sendToStream b s).
Proof using.
  intros Hs. destruct s as [g i]. unfold sendToStream. by case_match.
Qed.

Lemma steady_tm tm g : hand_sane g → tm_sane tm → hand_sane (set_timeoutManager tm g).
Proof using. by intros []. Qed.

Lemma steady_tmSent msg r s : hand_sane s.1 → steady (tmSent msg r s).
Proof using H.
  destruct s as [g i]. simpl. intros Hs. unfold tmSent. mstep. simpl.
  apply steady_tm; [done|]. match goal with |- tm_sane (Sent ?c _ _ _) =>
    destruct (tm_sane_apply (OpSent c msg r) _ (ha_tm _ Hs)) as (m' & [= <-] & ?) end.
  done.
Qed.

Lemma steady_tmReceived msg s : hand_sane s.1 → steady (tmReceived msg s).
Proof using.
  destruct s as [g i]. simpl. intros Hs. unfold tmReceived, tryG. mstep. simpl.
  match goal with |- context [Received ?c _ _] =>
    destruct (tm_sane_apply (OpReceived c msg) _ (ha_tm _ Hs)) as (m' & Hm & ?) end.
  simpl in Hm. rewrite Hm. simpl. by apply steady_tm.
Qed.

Lemma steady_deserialize b s : hand_sane s.1 → steady (liftR (Deserialize b) s).
Proof using.
  intros Hs. unfold liftR. by destruct (Deserialize_cases b) as [[m ->]| ->].
Qed.

(** What a handshake promises: its steps do not panic and keep the
    connection. *)
Class HsCalm (PC : Type) `{HsRole PC} : Prop :=
  hs_calm : ∀ ev h m rd i, hsBody ev h = Some (m, rd) → hand_sane (hs_conn h) →
    steady (m (hs_conn h, i)).

Ltac steadily lem := apply steady_bind; [by apply lem|intros ? ? ?].

#[global] Instance client_calm : HsCalm clientPC.
Proof using.
  intros ev [g pc rd] m rd' i Hb Hs. simpl in *. unfold clientBody in Hb. simpl in Hb.
  destruct pc, ev; try discriminate Hb;
    try (case_if_in Hb; [|discriminate Hb]);
    try (case_match; [|discriminate Hb]); simplify_eq/=; try done.
  - apply steady_bind; [done|intros]. steadily steady_send.
    by steadily steady_tmSent.
  - case_match. simplify_eq/=. done.
  - case_match. simplify_eq/=. steadily steady_deserialize.
    case_match; try done. apply steady_bind; [done|intros].
    case_if; [done|]. steadily steady_tmReceived. by steadily steady_send.
Qed.

#[global] Instance server_calm : HsCalm serverPC.
Proof using.
  intros ev [g pc rd] m rd' i Hb Hs. simpl in *. unfold serverBody in Hb. simpl in Hb.
  destruct pc, ev; try discriminate Hb;
    try (case_if_in Hb; [|discriminate Hb]);
    try (case_match; [|discriminate Hb]); simplify_eq/=; try done.
  - case_match. simplify_eq/=. steadily steady_deserialize.
    case_match; try done; case_if; try done; by steadily steady_tmReceived.
  - steadily steady_send. by steadily steady_tmSent.
  - case_match. by simplify_eq/=.
  - case_match. simplify_eq/=. steadily steady_deserialize.
    case_match; try done. by steadily steady_tmReceived.
  - by destruct Hs.
Qed.

Lemma Close_hand g i : hand_sane g → (Close (g, i)).1 = Ok tt.
Proof using.
  intros [_ Ho Hg Hq Hr]. unfold Close, getG, modG, tryG. mstep. simpl.
  rewrite Ho. simpl. rewrite Hg. simpl. rewrite Hr. simpl.
  destruct (sendPacket MFIN false _) as [res [g2 i2]] eqn:Hs.
  apply sendPacket_spec in Hs as [(e & -> & Hg2 & _)|(-> & Hc & _)]; simpl in *.
  - subst g2. simpl. unfold stop. by rewrite Hq.
  - injection Hc as E1 E2 E3 E4 E5. rewrite E2. simpl. unfold stop. by rewrite Hq.
Qed.

Lemma start_safe g i r s' :
  hand_sane g → start (g, i) = (r, s') →
  safe_result r s' ∧ (r = Ok tt → sane s'.1 ∧ fin_ok s'.1).
Proof using.
  intros [Htm Ho Hg Hq Hr]. unfold start, time_now, resetResendTicker, tryG, modG.
  mstep. simpl.
  destruct (NewIntervalAwareForceTicker (GetPingTime _) _) as [t1|e|p] eqn:H1;
    revert H1; unfold NewIntervalAwareForceTicker;
    destruct (Z.leb_spec (GetPingTime (timeoutManager g)) 0);
    try (pose proof (GetPingTime_pos _ Htm); lia); try done.
  intros H1. simpl.
  destruct (Z.leb_spec (GetPongTime (timeoutManager g)) 0);
    [pose proof (GetPongTime_pos _ Htm); lia|]. simpl.
  case_if; simpl; intros [= <- <-]; [by split; [right|]|].
  split; [by left|]. intros _. simpl. split.
  - constructor; simpl; try done.
    + injection H1 as <-. by eexists.
    + by eexists.
  - unfold fin_ok. simpl. by rewrite Hr.
Qed.

(** ** The whole connection *)

Definition side_sane {PC} (s : side PC) : Prop :=
  match s with
  | Hand h => hand_sane (hs_conn h)
  | Run e _ => ep_sane e
  | Failed _ => True
  end.

Section Side.
Context {PC : Type} `{HR : HsRole PC} `{HC : !HsCalm PC}.

(** No call that one side can make next panics, when [inw] is its incoming
    stream: in the handshake, when the handshake has returned, and in data
    transfer. *)
Definition side_no_panic (s : side PC) (inw : list bytes) : Prop :=
  match s with
  | Hand h =>
      (∀ ev i r s', hsStep ev h i = Some (r, s') → r = Ok tt)
      ∧ (∀ i r s', start (hs_conn h, i) = (r, s') → safe_result r s')
      ∧ (∀ i, (Close (hs_conn h, i)).1 = Ok tt)
  | Run e _ =>
      (∀ ev i r s', sendStep ev (conn e, i) = Some (r, s') → safe_result r s')
      ∧ (∀ pick b l i r s', inw = b :: l →
           recvStep (REvBytes pick b) (conn e, i) = Some (r, s') →
           safe_result r s')
      ∧ (∀ ev i r s', (∀ pick b, ev ≠ REvBytes pick b) →
           recvStep ev (conn e, i) = Some (r, s') → r = Ok tt)
      ∧ (∀ i, (Close (conn e, i)).1 = Ok tt)
      ∧ (∀ i, (CloseEnd (conn e, i)).1 = Ok tt)
  | Failed _ => True
  end.

Lemma hsStep_safe ev (h : hsState PC) i r s' :
  hand_sane (hs_conn h) → hsStep ev h i = Some (r, s') →
  r = Ok tt ∧ hand_sane (hs_conn s'.1).
Proof using HC.
  intros Hs. unfold hsStep. destruct (hsBody ev h) as [[m rd]|] eqn:Hb; [|done].
  pose proof (hs_calm ev h m rd i Hb Hs) as Hc.
  destruct (m (hs_conn h, i)) as [[pc|e|p] [g i']]; simpl in *; [|..|done];
    by intros [= <- <-].
Qed.

Lemma side_step_sane n f mi mo inw' (s s' : side PC) outw outw' :
  side_step (Serialize <$> mi) s outw inw' s' outw' →
  local_inv n (view n s) → half n (view n s) f mo mi → side_sane s → side_sane s'.
Proof using HC.
  intros Hst Hl Hh Hs. inversion Hst; subst; simpl in *; try done.
  - match goal with E : hsStep _ _ _ = _ |- _ => by apply hsStep_safe in E as [_ ?] end.
  - match goal with E : start _ = _ |- _ => apply start_safe in E as [_ Hx] end;
      [|done]. by apply Hx.
  - by eapply ep_step_sane.
Qed.

Lemma side_sane_no_panic n f mi mo (s : side PC) :
  local_inv n (view n s) → half n (view n s) f mo mi → side_sane s →
  side_no_panic s (Serialize <$> mi).
Proof using HC.
  intros Hl Hh Hs. destruct s as [h|e rd|err]; simpl in *; [| |done]; split_and!.
  - intros ev i r s' Hst. by apply hsStep_safe in Hst as [-> _].
  - intros i r s' Hst. by apply start_safe in Hst as [? _].
  - intros i. by apply Close_hand.
  - intros. by eapply sendStep_safe.
  - intros pick b l i r s' Hb Hst. destruct mi as [|m mi]; [done|].
    injection Hb as <- <-. by eapply recvBytes_safe.
  - intros ev i r s' Hev Hst. by eapply (recvOther_safe e ev i).
  - intros i. by destruct (Close_calm (conn e, i) (proj1 Hs)) as (s' & -> & _).
  - intros i. by destruct (CloseEnd_calm (conn e, i) (proj1 Hs)) as (s' & ->).
Qed.

End Side.

(** Connection options whose timeout options are the package's, with ping and
    pong times that are not negative. *)
Definition keepalive_ok (opts : list Option_) : Prop :=
  let tos := timeoutOptions (applyOptions opts (newConfig 0)) in
  Forall known_option tos ∧ 0 ≤ pingTime (NewTimeOutManager tos)
  ∧ 0 ≤ pongTime (NewTimeOutManager tos).

Lemma applyOptions_timeouts opts c c' :
  timeoutOptions c = timeoutOptions c' →
  timeoutOptions (applyOptions opts c) = timeoutOptions (applyOptions opts c').
Proof using.
  revert c c'. induction opts as [|o opts IH]; intros c c' E; [done|].
  apply IH. by destruct o.
Qed.

Lemma new_sane opts n :
  keepalive_ok opts → hand_sane (newGoBackNConn (applyOptions opts (newConfig n))).
Proof using.
  intros (Hk & Hp & Hq). constructor; try done. simpl.
  rewrite (applyOptions_timeouts opts (newConfig n) (newConfig 0)) by done.
  split; [by apply NewTimeOutManager_wf|done].
Qed.

Definition conn_sane (n : nat) (σ : connection) : Prop :=
  conn_inv n σ ∧ side_sane (client σ) ∧ side_sane (server σ).

Lemma cancel_sane {PC} (s : side PC) : side_sane s → side_sane (cancel_side s).
Proof using.
  destruct s as [h|e rd|err]; simpl; [by intros []|by intros [[] Hf]|done].
Qed.

Lemma conn_sane_step n σ σ' :
  (1 ≤ n ≤ 254)%nat → conn_step σ σ' → interrupted σ' = false →
  conn_sane n σ → conn_sane n σ'.
Proof using.
  intros Hn Hst Hx [Hi [Hc Hs]]. split; [by eapply conn_inv_step|].
  destruct Hi as (_ & _ & mcs & msc & E1 & E2 & _ & Lc & Ls & H1 & H2).
  destruct Hst; simpl in *; try done; subst; split; auto using cancel_sane.
  - by eapply (side_step_sane n (view n s)).
  - by eapply (side_step_sane n (view n c)).
Qed.

(** Every state of a connection of well-configured endpoints is sane. *)
Lemma connect_sane n copts sopts σ :
  (1 ≤ n ≤ 254)%nat → keepalive_ok copts → keepalive_ok sopts →
  connect (Z.of_nat n) copts sopts σ → conn_sane n σ.
Proof using.
  intros Hn Kc Ks [(h & σ0 & Hh & -> & Hrtc) Hx].
  eapply uninterrupted_ind; eauto using conn_sane_step.
  split.
  - apply (conn_inv_init n Hn copts sopts). split; [|done].
    do 2 eexists. split; [done|]. split; [done|]. apply rtc_refl.
  - unfold NewClientConn in Hh. case_if_in Hh; [lia|].
    injection Hh as <-. split; by apply new_sane.
Qed.

End Safety.

(** C3: a client created with a window from 1 to 254 and a server, built with
    the package's options (ping and pong times not negative), never panic: in
    every state they reach from the first SYN on, over streams that keep order
    and may lose packets, no step of either handshake, no [start], no wake-up
    of [sendPacketsForever], no packet [receivePacketsForever] can read next,
    no other wake-up of it, and neither part of [Close] panics, except for the
    resend ticker when the boosted resend timeout is not positive.  (A server
    whose handshake is interrupted is not such a state: see
    [interrupted_server_keeps_default].) *)
Theorem connection_never_panics `{FloatToInt} n copts sopts σ :
  (1 ≤ n ≤ 254)%nat → keepalive_ok copts → keepalive_ok sopts →
  connect (Z.of_nat n) copts sopts σ →
  side_no_panic (client σ) (wireSC σ) ∧ side_no_panic (server σ) (wireCS σ).
Proof.
  intros Hn Kc Ks Hconn.
  destruct (connect_sane n copts sopts σ Hn Kc Ks Hconn) as
    [(_ & _ & mcs & msc & -> & -> & _ & Lc & Ls & Hcs & Hsc) [Hc Hs]].
  split; by eapply side_sane_no_panic.
Qed.

(** The options of the mailbox, in a connection that has not started yet. *)
Lemma mailbox_options_ok :
  keepalive_ok clientGbnOptions ∧ keepalive_ok serverGbnOptions.
Proof.
  split; (split; [apply gbnTimeoutOptions_known|vm_compute; split; discriminate]).
Qed.

Definition demoConnection : connection :=
  match NewClientConn gbnN clientGbnOptions with
  | Ok h => mkConnection (Hand h) (Hand (NewServerConn serverGbnOptions)) [] []
      false
  | _ => mkConnection (Failed EOF) (Failed EOF) [] [] false
  end.

Lemma connection_never_panics_witness :
  @side_no_panic amd64 _ (@client_role amd64) (client demoConnection)
    (wireSC demoConnection)
  ∧ @side_no_panic amd64 _ (@server_role amd64) (server demoConnection)
      (wireCS demoConnection).
Proof.
  apply (@connection_never_panics amd64 20 clientGbnOptions serverGbnOptions
           demoConnection ltac:(lia) (proj1 mailbox_options_ok)
           (proj2 mailbox_options_ok)).
  split; [|reflexivity].
  eexists _, demoConnection. split; [reflexivity|]. split; [reflexivity|].
  apply rtc_refl.
Defined.

(** ** Where the handshake falls short *)

(** A server alone with a stream of messages. *)
Definition alone `{FloatToInt} (x y : list bytes * side serverPC * list bytes) : Prop :=
  side_step x.1.1 x.1.2 x.2 y.1.1 y.1.2 y.2.

Section Alone.
Context `{FloatToInt}.

Lemma alone_hand ev h h' i i' inw outw :
  wire i = [] → hsStep ev h i = Some (Ok tt, (h', i')) →
  alone (inw, Hand h, outw) (inw, Hand h', outw ++ wire i').
Proof using. apply sd_hand. Qed.

Lemma alone_read h rd' inw inw' outw :
  reader_step (bool_decide (hsReturned (hs_pc h) ≠ None) || ctxDone (hs_conn h))
    inw (hs_rd h) inw' rd' →
  alone (inw, Hand h, outw) (inw', Hand (set_rd rd' h), outw).
Proof using. apply sd_read_hand. Qed.

(** A server that is sent a SYN with window [N] and then a SYNACK. *)
Lemma server_handshake_run g N inw outw :
  hand_sane g →
  ∃ h' outw', rtc alone
    (Serialize (MSYN N) :: Serialize MSYNACK :: inw,
     Hand (mkHs g (SvNext1 false 0) newReader), outw)
    (inw, Hand h', outw')
  ∧ hsReturned (hs_pc h') = Some None
  ∧ ∃ tm, hs_conn h' = setN N (set_timeoutManager tm g) ∧ tm_sane tm.
Proof using.
  intros Hg.
  set (g1 := set_timeoutManager (Sent (λ _, 0) (MSYN N) false (timeoutManager g)) g).
  assert (Hg1 : tm_sane (timeoutManager g1)).
  { by destruct (tm_sane_apply (OpSent (λ _, 0) (MSYN N) false) _ (ha_tm _ Hg))
      as (m & [= <-] & ?). }
  destruct (tm_sane_apply (OpReceived (λ _, 0) MSYNACK) _ Hg1) as (tm & Htm & Hs).
  simpl in Htm. set (i0 := mkIO (λ _, 0) 0 (λ _, None) []).
  do 2 eexists. split; [|split; [|exists tm; split]].
  - eapply rtc_l; [eapply (alone_hand HsGo _ _ i0); reflexivity|].
    eapply rtc_l; [eapply alone_read; simpl; constructor|].
    eapply rtc_l; [eapply alone_read; simpl; constructor|].
    eapply rtc_l; [eapply (alone_hand HsRecv _ _ i0); reflexivity|].
    eapply rtc_l; [eapply (alone_hand HsGo _ _ i0); reflexivity|].
    eapply rtc_l; [eapply (alone_hand HsGo _ _ i0); reflexivity|].
    eapply rtc_l; [eapply alone_read; simpl; constructor|].
    eapply rtc_l; [eapply alone_read; simpl; constructor|].
    eapply rtc_l; [eapply (alone_hand HsRecv _ _ i0); [done|]|].
    { unfold hsStep. simpl. unfold serverGot2, tmReceived, tryG. mstep. simpl.
      rewrite Htm. reflexivity. }
    eapply rtc_l; [eapply (alone_hand HsGo _ _ i0); reflexivity|].
    apply rtc_refl.
  - done.
  - done.
  - done.
Qed.
(** What [start] keeps. *)
Lemma started g i g' i' :
  hand_sane g → start (g, i) = (Ok tt, (g', i')) →
  sane g' ∧ g_cfg g' = g_cfg g ∧ sendQueue g' = sendQueue g
  ∧ recvSeq g' = recvSeq g ∧ sendPC g' = SSelect ∧ recvPC g' = RLoop
  ∧ 0 < GetResendTimeout (timeoutManager g').
Proof using.
  intros Hg Hst. split.
  { destruct (start_safe g i _ _ Hg Hst) as [_ Hx]. by apply Hx. }
  revert Hst. unfold start, time_now, resetResendTicker, tryG, modG. mstep. simpl.
  destruct (NewIntervalAwareForceTicker _ _) as [t1| |]; simpl; try done.
  destruct (NewIntervalAwareForceTicker _ _) as [t2| |]; simpl; try done.
  case_if; simpl; [done|]. intros [= <- <-]. simpl. zbool. by split_and!.
Qed.

(** With a modulus of zero the expected packet is fatal. *)
Lemma zero_modulus_panics pick p g j :
  sane g → recvPC g = RLoop → 0 < GetResendTimeout (timeoutManager g) →
  cfg_s (g_cfg g) = 0 → Seq p = recvSeq g → (∀ k, sendErr j k = None) →
  ∃ s', recvStep (REvBytes pick (Serialize (MData p))) (g, j)
    = Some (Panic DivideByZero, s').
Proof using.
  intros Hsane Hpc Hpos Hs Hp Hj. unfold recvStep. cbn [fst]. rewrite Hpc.
  destruct (sa_ping _ Hsane) as (t1 & Ht1 & Hl1).
  destruct (sa_pong _ Hsane) as (t2 & Ht2 & _).
  unfold handlePacket, onTicker, time_now, clocks, wrapErr. mstep.
  rewrite Deserialize_Serialize. unfold tryG at 1.
  assert (Hrec : ∀ clk, Received clk (MData p) (timeoutManager g)
    = Ok (timeoutManager g)) by (intros; unfold Received; by case_if).
  simpl. rewrite Hrec. simpl. unfold tryG at 1. simpl. rewrite Ht1.
  match goal with |- context [Reset ?now t1] =>
    destruct (live_reset now t1) as (t1' & -> & _); [by exists t1|] end.
  simpl. unfold tryG at 1. simpl. rewrite Ht2. simpl.
  match goal with |- context [resetResendTicker ?s] =>
    destruct (resetResendTicker_spec s) as [[-> _]|[_ Hle]] end;
    [|simpl in Hle; lia].
  unfold handleData, getG, sendPacket, wrapErr, sendToStream, modG, tryG. mstep.
  simpl. rewrite Hp, Z.eqb_refl. simpl. rewrite Hj. simpl. rewrite Hs. by eexists.
Qed.

End Alone.

(** C37: [NewClientConn] refuses a window of 255, but a server that is sent a
    SYN with 255 and a SYNACK completes its handshake with it: the modulus of
    its sequence numbers wraps to zero.  Once such a server has started, the
    first data packet it accepts makes it panic with a division by zero, and
    the first packet it is given to send with an index out of range. *)
Theorem server_accepts_window_255 `{FloatToInt} copts sopts inw outw :
  keepalive_ok sopts →
  NewClientConn 255 copts = Err (ErrMsg "n must be smaller than 255")
  ∧ ∃ h' outw', rtc alone
      (Serialize (MSYN 255) :: Serialize MSYNACK :: inw,
       Hand (NewServerConn sopts), outw) (inw, Hand h', outw')
    ∧ hsReturned (hs_pc h') = Some None
    ∧ ∀ i g i', start (hs_conn h', i) = (Ok tt, (g, i')) →
      cfg_s (g_cfg g) = 0
      ∧ (∀ pick p j, Seq p = 0 → (∀ k, sendErr j k = None) → ∃ s',
          recvStep (REvBytes pick (Serialize (MData p))) (g, j)
          = Some (Panic DivideByZero, s'))
      ∧ (∀ p j, ∃ s', sendStep (SEvData p) (g, j)
          = Some (Panic IndexOutOfRange, s')).
Proof.
  intros Hk. split; [done|].
  destruct (server_handshake_run _ 255 inw outw (new_sane sopts DefaultN Hk))
    as (h' & outw' & Hrun & Hret & tm & Hc & Htm).
  exists h', outw'. split; [exact Hrun|]. split; [done|].
  intros i g i' Hst. rewrite Hc in Hst. apply started in Hst
    as (Hs & E1 & E2 & E3 & E4 & E5 & Hpos); [|by destruct (new_sane sopts DefaultN Hk)].
  split; [by rewrite E1|]. split.
  - intros pick p j Hp Hj. apply zero_modulus_panics; try done.
    + by rewrite E1.
    + by rewrite E3, Hp.
  - intros p j. unfold sendStep, sendBody. simpl. rewrite E4.
    unfold enqueue, tryG. mstep. simpl. rewrite E2. by eexists.
Qed.

Lemma server_accepts_window_255_witness : let _ := amd64 in
  ∃ h' outw', rtc alone
      ([Serialize (MSYN 255); Serialize MSYNACK], Hand (NewServerConn []), [])
      ([], Hand h', outw')
    ∧ hsReturned (hs_pc h') = Some None.
Proof.
  intros fl. destruct (@server_accepts_window_255 amd64 [] [] [] [])
    as (_ & h' & outw' & Hrun & Hret & _).
  - by split; [apply List.Forall_nil|vm_compute].
  - exists h', outw'. split; [exact Hrun|exact Hret].
Defined.

(** The waits of [serverHandshake] that return [nil] when the context is done. *)
Definition waiting (pc : serverPC) : Prop :=
  match pc with SvNext1 _ _ | SvWait1 _ _ | SvWait2 _ _ => True | _ => False end.

Section Interrupted.
Context `{FloatToInt}.

Lemma tmReceived_cfg msg g i res g' i' :
  tmReceived msg (g, i) = (res, (g', i')) → g_cfg g' = g_cfg g.
Proof using. intros Ht. apply tmReceived_spec in Ht as [E _]. simpl in E. by rewrite E. Qed.

Lemma serverGot_cfg resent n b g i res g' i' :
  serverGot1 resent n b (g, i) = (res, (g', i'))
  ∨ serverGot2 resent n b (g, i) = (res, (g', i')) →
  g_cfg g' = g_cfg g.
Proof using.
  unfold serverGot1, serverGot2. mstep. intros Hg.
  destruct (Deserialize b) as [msg| |]; simpl in Hg; [|by destruct Hg; simplify_eq..].
  destruct Hg as [Hg|Hg], msg, resent; simpl in Hg; try (by simplify_eq);
    match type of Hg with context [tmReceived ?m ?s] =>
      destruct (tmReceived m s) as [r [g1 i1]] eqn:Ht end;
    apply tmReceived_cfg in Ht; destruct r; by simplify_eq.
Qed.

(** Until it returns, the handshake leaves the configuration alone. *)
Lemma server_hand_cfg ev (h h' : hsState serverPC) i i' :
  hsStep ev h i = Some (Ok tt, (h', i')) → hsReturned (hs_pc h') = None →
  g_cfg (hs_conn h') = g_cfg (hs_conn h) ∧ hsReturned (hs_pc h) = None.
Proof using.
  destruct h as [g pc rd]. unfold hsStep. simpl. unfold serverBody. simpl.
  destruct pc, ev; try done; try (case_if; try done);
    try (case_match; [|done]; case_match);
    unfold serverSendSYN, tmSent, sendToStream, clocks, modG; mstep; simpl;
    repeat case_match; intros; simplify_eq/=; try done;
    (split; [|done]); eauto using serverGot_cfg.
Qed.

Definition server_cfg (s : side serverPC) : Prop :=
  match s with
  | Hand h => hsReturned (hs_pc h) = None → cfg_n (g_cfg (hs_conn h)) = DefaultN
  | _ => True
  end.

Lemma connects_server_cfg n copts sopts σ :
  connects n copts sopts σ → server_cfg (server σ).
Proof using.
  intros (h & σ0 & _ & -> & Hrtc).
  match type of Hrtc with rtc _ ?x _ => assert (Hx : server_cfg (server x)) end.
  { intros _. simpl.
    by destruct (applyOptions_n sopts (newConfig DefaultN)) as [-> _]. }
  induction Hrtc as [|x y z Hxy _ IH]; [done|]. apply IH. clear IH.
  destruct Hxy as [|c s s' cs sc cs' sc' b Hst| | | |c s cs sc b]; try done.
  - simpl in *. destruct Hst; simpl in *; try done. intros Hr.
    match goal with E : hsStep _ _ _ = _ |- _ =>
      apply server_hand_cfg in E as [-> ?]; auto end.
  - simpl in *. by destruct s.
Qed.

End Interrupted.

(** When the server's context is cancelled while [serverHandshake] waits, in
    whatever state the client is, the handshake returns without an error, and
    the server that is then started has the default window and not the one the
    client announced. *)
Theorem interrupted_server_keeps_default `{FloatToInt} n copts sopts σ h :
  connects n copts sopts σ → server σ = Hand h → waiting (hs_pc h) →
  ∃ σ' h', conn_step σ σ' ∧ server σ' = Hand h' ∧ interrupted σ' = true
  ∧ (∀ i, hsStep HsCtx h' i
          = Some (Ok tt, (mkHs (hs_conn h') (SvDone None) (hs_rd h'), i)))
  ∧ (∀ i g i', start (hs_conn h', i) = (Ok tt, (g, i')) →
       cfg_n (g_cfg g) = DefaultN).
Proof.
  intros Hc Hs Hw. pose proof (connects_server_cfg _ _ _ _ Hc) as Hcfg.
  destruct σ as [c s cs sc x]. simpl in *. subst s.
  exists (mkConnection c (cancel_side (Hand h)) cs sc (x || handshaking (Hand h))).
  eexists. split; [apply cs_cancel_server|]. split; [reflexivity|].
  destruct h as [g pc rd]. simpl in *.
  split; [|split].
  - by destruct pc; try done; destruct x.
  - intros i. by destruct pc.
  - intros i g1 i1. unfold start, time_now, resetResendTicker, tryG, modG. mstep.
    simpl. destruct (NewIntervalAwareForceTicker _ _) as [t1| |]; simpl; try done.
    destruct (NewIntervalAwareForceTicker _ _) as [t2| |]; simpl; try done.
    case_if; simpl; [done|]. intros [= <- <-]. simpl. apply Hcfg. by destruct pc.
Qed.

(** A client that runs with window 5, and a server that still waits for its
    SYNACK. *)
Lemma demo_waiting : let _ := amd64 in
  ∃ σ ec rc h, connect 5 [] [] σ ∧ client σ = Run ec rc
  ∧ cfg_n (g_cfg (conn ec)) = 5 ∧ server σ = Hand h ∧ waiting (hs_pc h).
Proof.
  intros fl. do 4 eexists. split; [|split; [|split; [|split]]].
  - split.
    { eexists. eexists. split; [reflexivity|]. split; [reflexivity|].
      client_does (hand HsGo). client_does (hand HsGo).
      server_does (hand HsGo). server_does reads. server_does reads.
      server_does (hand HsRecv). server_does (hand HsGo).
      server_does (hand HsGo).
      client_does reads. client_does reads. client_does (hand HsRecv).
      client_does starts. apply rtc_refl. }
    reflexivity.
  - reflexivity.
  - reflexivity.
  - reflexivity.
  - exact I.
Qed.

Lemma interrupted_server_keeps_default_witness : let _ := amd64 in
  ∃ σ ec rc σ' h', connect 5 [] [] σ ∧ client σ = Run ec rc
  ∧ cfg_n (g_cfg (conn ec)) = 5 ∧ conn_step σ σ' ∧ server σ' = Hand h'
  ∧ ∀ i g i', start (hs_conn h', i) = (Ok tt, (g, i')) → cfg_n (g_cfg g) = 20.
Proof.
  intros fl. destruct demo_waiting as (σ & ec & rc & h & Hc & Ec & En & Es & Hw).
  destruct (@interrupted_server_keeps_default amd64 5 [] [] σ h)
    as (σ' & h' & Hst & Hs' & _ & _ & Hd).
  - exact (proj1 Hc).
  - exact Es.
  - exact Hw.
  - exists σ, ec, rc, σ', h'.
    split_and!; [exact Hc|exact Ec|exact En|exact Hst|exact Hs'|exact Hd].
Defined.
