(* ===== verification/GbnRecovery.v ===== *)
(** * Two connected endpoints are never stuck

    From every state two running endpoints can reach, and from whatever time
    on, there is a run after which each side has put on [recvDataChan]
    everything the other side was given to send: no loss, no interleaving of
    the goroutines, no state of the queue, of a resend or of the syncer makes
    delivery impossible.  The run is built from the code's own recovery path:
    the resend tick, the resend loop of the queue, the NACKs and ACKs of
    [handleData] and the timeout of [waitForSync].  Its clock starts at the
    given time and never goes back, and every timer in it fires only after an
    arbitrarily long wait. *)

From stdpp Require Import base numbers list strings gmap tactics relations.
From S2P Require Import Prelude Messages GoFloat Timeout Ticker Syncer Queue.
From S2P Require Import GbnConn GbnWindow GbnSystem GbnHandshake GbnOptions.
From S2P Require Import GbnSafety.

Section Recovery.
Context `{FloatToInt}.

(** ** Timed steps *)

(** The readings of the clock do not go back and lie between [t] and [t']. *)
Definition ticks (t t' : Time) (i : io) : Prop :=
  t ≤ t' ∧ ∀ k, t ≤ clock i k ≤ clock i (S k) ∧ clock i k ≤ t'.

Section Timed.
Context (D : Duration).

(** The steps of an endpoint that sends and receives, with the time at which
    they begin and end: a timer (the resend ticker, the timeout of
    [waitForSync]) fires no sooner than [D] after the previous step. *)
Inductive timed_ep : Time → Time → list bytes → endpoint → list bytes →
    list bytes → endpoint → list bytes → Prop :=
| te_send t t' ev i e g' i' inw outw :
    ticks t t' i → (ev = SEvResendTick → t + D ≤ t') →
    wire i = [] → evOK ev →
    sendStep ev (conn e, i) = Some (Ok tt, (g', i')) →
    timed_ep t t' inw e outw inw
      (mkEndpoint g' (hist e ++ added (sendPC (conn e)) (sendPC g'))
         (submitted e ++ evData ev) (accepted e) (pushed e))
      (outw ++ wire i')
| te_recv t t' pick b i e g' i' inw outw :
    ticks t t' i → wire i = [] →
    recvStep (REvBytes pick b) (conn e, i) = Some (Ok tt, (g', i')) →
    timed_ep t t' (b :: inw) e outw inw
      (mkEndpoint g' (hist e) (submitted e)
         (accepted e ++ pendingPush (recvPC g')) (pushed e))
      (outw ++ wire i')
| te_push t t' i e g' i' inw outw :
    ticks t t' i → wire i = [] →
    recvStep REvPush (conn e, i) = Some (Ok tt, (g', i')) →
    timed_ep t t' inw e outw inw
      (mkEndpoint g' (hist e) (submitted e) (accepted e)
         (pushed e ++ pendingPush (recvPC (conn e))))
      outw
| te_sync_timeout t t' e inw outw :
    t + D ≤ t' → sy_waiter (q_syncer (sendQueue (conn e))) = WSelect →
    timed_ep t t' inw e outw inw
      (mkEndpoint (set_sendQueue (set_syncer
         (waitForSync_timeout (q_syncer (sendQueue (conn e))))
         (sendQueue (conn e))) (conn e))
         (hist e) (submitted e) (accepted e) (pushed e)) outw
| te_sync_reset t pick e inw outw :
    sy_waiter (q_syncer (sendQueue (conn e))) = WReset →
    timed_ep t t inw e outw inw
      (mkEndpoint (set_sendQueue (set_syncer
         (waitForSync_reset pick (q_syncer (sendQueue (conn e))))
         (sendQueue (conn e))) (conn e))
         (hist e) (submitted e) (accepted e) (pushed e)) outw
| te_app_recv t m l e inw outw :
    recvDataChan (conn e) = m :: l →
    timed_ep t t inw e outw inw
      (mkEndpoint (set_recvDataChan l (conn e))
         (hist e) (submitted e) (accepted e) (pushed e)) outw.

Inductive timed_step : Time * system → Time * system → Prop :=
| ts_A t t' a b ab ba a' ab' ba' :
    timed_ep t t' ba a ab ba' a' ab' →
    timed_step (t, mkSystem a b ab ba) (t', mkSystem a' b ab' ba')
| ts_B t t' a b ab ba b' ab' ba' :
    timed_ep t t' ab b ba ab' b' ba' →
    timed_step (t, mkSystem a b ab ba) (t', mkSystem a b' ab' ba')
| ts_lose_AB t a b l1 x l2 ba :
    timed_step (t, mkSystem a b (l1 ++ x :: l2) ba)
               (t, mkSystem a b (l1 ++ l2) ba)
| ts_lose_BA t a b ab l1 x l2 :
    timed_step (t, mkSystem a b ab (l1 ++ x :: l2))
               (t, mkSystem a b ab (l1 ++ l2)).

Lemma timed_ep_step t t' inw e outw inw' e' outw' :
  timed_ep t t' inw e outw inw' e' outw' → ep_step inw e outw inw' e' outw'.
Proof using.
  destruct 1.
  - by eapply es_send.
  - by eapply es_recv.
  - by eapply es_push.
  - by apply es_sync, st_wait_timeout.
  - by apply es_sync, st_wait_reset.
  - by eapply es_app_recv.
Qed.

Lemma timed_sys_step x y : timed_step x y → sys_step x.2 y.2.
Proof using. destruct 1; constructor; by eapply timed_ep_step. Qed.

Lemma timed_sys_steps x y : rtc timed_step x y → rtc sys_step x.2 y.2.
Proof using.
  induction 1 as [|x y z Hxy _ IH]; [done|].
  eapply rtc_l; [by apply timed_sys_step|done].
Qed.

Context (HD : 0 ≤ D).

(** ** Running endpoints *)

(** The resend timeout is positive, and stays so through [k] boosts. *)
Fixpoint boosts_ok (k : nat) (b : TimeoutBooster) : Prop :=
  0 < GetCurrentTimeout b
  ∧ match k with
    | O => True
    | S k => ∀ t, boosts_ok k (mkTimeoutBooster (boostPercent b)
        (i64 (boostCount b + 1)) (originalTimeout b)
        (withBoostFrequencyLimit b) t)
    end.

Lemma boosts_ok_pos k b : boosts_ok k b → 0 < GetCurrentTimeout b.
Proof using. by destruct k; intros [? _]. Qed.

Lemma boosts_ok_less k b : boosts_ok (S k) b → boosts_ok k b.
Proof using.
  revert b. induction k as [|k IH]; intros b [Hp Hk]; split; try done.
  intros t. apply IH, Hk.
Qed.

(** Neither goroutine has returned, and the resend ticker accepts the
    timeouts, after [k] boosts too. *)
Record running (k : nat) (g : GoBackNConn) : Prop := {
  ru_send : ∀ e, sendPC g ≠ SDone e;
  ru_recv : ∀ e, recvPC g ≠ RDone e;
  ru_base : 0 < resendTimeout (timeoutManager g);
  ru_resend : boosts_ok k (resendBooster (timeoutManager g))
}.

Record good (n ka kb : nat) (σ : system) : Prop := {
  gd_inv : sys_inv n σ;
  gd_saneA : ep_sane (sideA σ);
  gd_saneB : ep_sane (sideB σ);
  gd_runA : running ka (conn (sideA σ));
  gd_runB : running kb (conn (sideB σ))
}.

Lemma sys_sane_step n σ σ' :
  sys_step σ σ' → sys_inv n σ → ep_sane (sideA σ) → ep_sane (sideB σ) →
  ep_sane (sideA σ') ∧ ep_sane (sideB σ').
Proof using.
  intros Hst (mab & mba & Hab & Hba & La & Lb & H1 & H2) Ha Hb.
  destruct Hst; simpl in *; split; try done; by eapply ep_step_sane.
Qed.

Lemma good_step n ka kb ka' kb' t t' σ σ' :
  timed_step (t, σ) (t', σ') → good n ka kb σ → running ka' (conn (sideA σ')) →
  running kb' (conn (sideB σ')) → good n ka' kb' σ'.
Proof using.
  intros Hst%timed_sys_step [Hi Ha Hb _ _] Ra Rb. simpl in Hst.
  destruct (sys_sane_step n _ _ Hst Hi Ha Hb).
  split; try done. by eapply sys_inv_step.
Qed.

(** The two endpoints exchanged. *)
Definition swap (σ : system) : system :=
  mkSystem (sideB σ) (sideA σ) (wireBA σ) (wireAB σ).

Lemma swap_step x y :
  timed_step x y → timed_step (x.1, swap x.2) (y.1, swap y.2).
Proof using. destruct 1; by constructor. Qed.

Lemma swap_steps x y :
  rtc timed_step x y → rtc timed_step (x.1, swap x.2) (y.1, swap y.2).
Proof using.
  induction 1 as [|x y z Hxy _ IH]; [done|].
  eapply rtc_l; [by apply swap_step|done].
Qed.

Lemma swap_good n ka kb σ : good n ka kb σ → good n kb ka (swap σ).
Proof using.
  intros [(mab & mba & ? & ? & ? & ? & ? & ?) ? ? ? ?]. split; try done.
  by exists mba, mab.
Qed.

(** ** Runs that leave one side alone *)

(** A run that changes neither the other endpoint, nor what was submitted to,
    queued in and delivered by this one. *)
Record only_A (n ka kb : nat) (x y : Time * system) : Prop := {
  oa_run : rtc timed_step x y;
  oa_good : good n ka kb y.2;
  oa_B : sideB y.2 = sideB x.2;
  oa_hist : hist (sideA y.2) = hist (sideA x.2);
  oa_sub : submitted (sideA y.2) = submitted (sideA x.2);
  oa_push : pushed (sideA y.2) = pushed (sideA x.2)
}.

Lemma only_A_refl n ka kb x : good n ka kb x.2 → only_A n ka kb x x.
Proof using. by split. Qed.

Lemma only_A_trans n k1 k2 kb x y z :
  only_A n k1 kb x y → only_A n k2 kb y z → only_A n k2 kb x z.
Proof using.
  intros [] []. split; try congruence. by etrans.
Qed.

Lemma only_A_step n ka ka' kb t t' σ σ' :
  good n ka kb σ → timed_step (t, σ) (t', σ') → sideB σ' = sideB σ →
  hist (sideA σ') = hist (sideA σ) → submitted (sideA σ') = submitted (sideA σ) →
  pushed (sideA σ') = pushed (sideA σ) → running ka' (conn (sideA σ')) →
  only_A n ka' kb (t, σ) (t', σ').
Proof using.
  intros Hg Hst HB ? ? ? Hr. split; try done; [by apply rtc_once|]. simpl.
  eapply good_step; try done. rewrite HB. apply Hg.
Qed.

(** An endpoint whose connection changes. *)
Definition with_conn (g : GoBackNConn) (e : endpoint) : endpoint :=
  mkEndpoint g (hist e) (submitted e) (accepted e) (pushed e).

Lemma running_less k g : running (S k) g → running k g.
Proof using. intros []. split; try done. by apply boosts_ok_less. Qed.

Lemma good_less n ka kb σ : good n (S ka) kb σ → good n ka kb σ.
Proof using. intros []. split; try done. by apply running_less. Qed.

(** A wake-up of the sending goroutine that queues nothing. *)
Lemma send_run n ka ka' kb t t' σ ev i g' i' :
  good n ka kb σ → ticks t t' i → (ev = SEvResendTick → t + D ≤ t') →
  wire i = [] → evOK ev → evData ev = [] →
  sendStep ev (conn (sideA σ), i) = Some (Ok tt, (g', i')) →
  added (sendPC (conn (sideA σ))) (sendPC g') = [] → running ka' g' →
  only_A n ka' kb (t, σ) (t', mkSystem (with_conn g' (sideA σ)) (sideB σ)
                (wireAB σ ++ wire i') (wireBA σ)).
Proof using.
  intros Hg Ht HtD Hw Hok Hev Hst Hadd Hr. destruct σ as [a b ab ba]. simpl in *.
  eapply only_A_step; try done. apply ts_A.
  assert (Hx := te_send t t' ev i a g' i' ba ab Ht HtD Hw Hok Hst).
  by rewrite Hadd, Hev, !app_nil_r in Hx.
Qed.

(** ** The sending goroutine *)

(** Every send succeeds and every reading of the clock is [t]. *)
Definition quietIO (t : Time) : io := mkIO (λ _, t) 0 (λ _, None) [].

Lemma quiet_ticks t : ticks t t (quietIO t).
Proof using. unfold ticks. simpl. split; [done|]. intros _. lia. Qed.

Lemma quiet_ticks_late t t' : t ≤ t' → ticks t t' (quietIO t').
Proof using. unfold ticks. simpl. intros. split; [done|]. intros _. lia. Qed.

Lemma sendPacket_quiet msg r g t :
  ∃ i', sendPacket msg r (g, quietIO t) =
    (Ok tt, (set_timeoutManager (Sent (λ _, t) msg r (timeoutManager g)) g, i'))
  ∧ wire i' = [Serialize msg].
Proof using. by eexists. Qed.

(** A booster that is used at time [t] only. *)
Definition boosted_at (t : Time) (b b' : TimeoutBooster) : Prop :=
  b' = b ∨ b' = Boost (λ _, t) b.

(** It is boosted once at most. *)
Lemma Boost_twice t b :
  withBoostFrequencyLimit b = true → 0 < originalTimeout b →
  Boost (λ _, t) (Boost (λ _, t) b) = Boost (λ _, t) b.
Proof using.
  intros Hl Ho. unfold Boost. rewrite Hl. simpl.
  destruct (timeSub t (lastBoost b) <? originalTimeout b) eqn:E.
  - rewrite Hl. simpl. by rewrite E.
  - simpl. unfold timeSub. rewrite Z.sub_diag. change (Z.max _ _) with 0.
    destruct (Z.ltb_spec 0 (originalTimeout b)); [done|lia].
Qed.

Lemma boosted_at_ok k t b b' :
  boosted_at t b b' → boosts_ok (S k) b → boosts_ok k b'.
Proof using.
  intros [->| ->] Hb; [by apply boosts_ok_less|].
  unfold Boost. case_if; [by apply boosts_ok_less|]. by destruct Hb as [_ Hb].
Qed.

Lemma Sent_boosted p r t b m :
  tm_wf m → 0 < resendTimeout m → boosted_at t b (resendBooster m) →
  withBoostFrequencyLimit b = true → 0 < originalTimeout b →
  let m' := Sent (λ _, t) (MData p) r m in
  boosted_at t b (resendBooster m') ∧ resendTimeout m' = resendTimeout m
  ∧ (r = false → resendBooster m' = resendBooster m).
Proof using.
  intros Hw Hpos Hb Hl Ho. unfold Sent. destruct (useStaticTimeout m); [done|].
  destruct r; [|done]. simpl. split_and!; try done.
  change (resendBooster (set_sentTimes _ m)) with (resendBooster m).
  right. destruct Hb as [->| ->]; [done|]. by apply Boost_twice.
Qed.

(** Sending one data packet at time [t]. *)
Lemma send_one n ka kb σ p r t b pc :
  good n ka kb σ → (∀ e, pc ≠ SDone e) →
  boosted_at t b (resendBooster (timeoutManager (conn (sideA σ)))) →
  withBoostFrequencyLimit b = true → 0 < originalTimeout b →
  boosts_ok (S ka) b →
  let g := conn (sideA σ) in
  ∃ g' i', sendPacket (MData p) r (g, quietIO t) = (Ok tt, (g', i'))
  ∧ wire i' = [Serialize (MData p)] ∧ running ka (set_sendPC pc g')
  ∧ boosted_at t b (resendBooster (timeoutManager g'))
  ∧ (r = false → resendBooster (timeoutManager g')
       = resendBooster (timeoutManager g)).
Proof using.
  intros Hg Hpc Hb Hl Ho Hok g.
  destruct (sendPacket_quiet (MData p) r g t) as (i' & Hs & Hw).
  destruct (Sent_boosted p r t b (timeoutManager g)) as (Hb' & E & Hf); try done.
  { apply (sa_tm _ (proj1 (gd_saneA _ _ _ _ Hg))). }
  { apply (ru_base _ _ (gd_runA _ _ _ _ Hg)). }
  do 2 eexists. split; [exact Hs|]. split; [done|].
  destruct (gd_runA _ _ _ _ Hg) as [_ ? Hbase _].
  split; [|by split]. split; try done.
  - change (0 < resendTimeout (Sent (λ _, t) (MData p) r (timeoutManager g))).
    by rewrite E.
  - by eapply boosted_at_ok.
Qed.

Lemma booster_facts n ka kb σ :
  good n ka kb σ →
  let b := resendBooster (timeoutManager (conn (sideA σ))) in
  withBoostFrequencyLimit b = true ∧ 0 < originalTimeout b ∧ boosts_ok ka b.
Proof using.
  intros [_ [Ha _] _ [_ _ Hr Hb] _]. destruct (sa_tm _ Ha) as [Hw _]. simpl.
  rewrite (tw_rl _ Hw), (tw_rb _ Hw). done.
Qed.

(** The end of [waitForSync]: its timeout. *)
Lemma sync_leave n ka kb t σ back :
  good n ka kb σ → sendPC (conn (sideA σ)) = SSync back →
  ∃ t' σ', t ≤ t' ∧ only_A n ka kb (t, σ) (t', σ')
  ∧ sendPC (conn (sideA σ')) = SSync back
  ∧ sy_waiter (q_syncer (sendQueue (conn (sideA σ')))) = WOut.
Proof using HD.
  assert (Hreset : ∀ t σ, good n ka kb σ → sendPC (conn (sideA σ)) = SSync back →
    sy_waiter (q_syncer (sendQueue (conn (sideA σ)))) = WReset →
    ∃ σ', only_A n ka kb (t, σ) (t, σ') ∧ sendPC (conn (sideA σ')) = SSync back
    ∧ sy_waiter (q_syncer (sendQueue (conn (sideA σ')))) = WOut).
  { intros t1 [a b ab ba] Hg Hpc Hw. eexists. split; [|split].
    - eapply only_A_step; [done|apply ts_A, (te_sync_reset _ true); done|done..|].
      by destruct (gd_runA _ _ _ _ Hg).
    - done.
    - simpl. unfold waitForSync_reset, reset, resetUnsafe, trySendCancel. simpl.
      by destruct (p_select _). }
  intros Hg Hpc.
  destruct (sy_waiter (q_syncer (sendQueue (conn (sideA σ))))) eqn:Hw.
  - exists t, σ. split; [lia|]. split; [by apply only_A_refl|done].
  - assert (∃ σ1, only_A n ka kb (t, σ) (t + D, σ1)
      ∧ sendPC (conn (sideA σ1)) = SSync back
      ∧ sy_waiter (q_syncer (sendQueue (conn (sideA σ1)))) = WReset)
      as (σ1 & H1 & Hpc1 & Hw1).
    { destruct σ as [a b ab ba]. eexists. split; [|split].
      - eapply only_A_step;
          [done|apply ts_A, te_sync_timeout; [lia|done]|done..|].
        by destruct (gd_runA _ _ _ _ Hg).
      - done.
      - done. }
    destruct (Hreset (t + D) σ1 (oa_good _ _ _ _ _ H1) Hpc1 Hw1)
      as (σ' & H2 & ? & ?).
    exists (t + D), σ'. split; [lia|]. split; [by eapply only_A_trans|done].
  - destruct (Hreset t σ Hg Hpc Hw) as (σ' & ? & ? & ?).
    exists t, σ'. split; [lia|]. done.
Qed.

Definition selecting (σ : system) : Prop :=
  sendPC (conn (sideA σ)) = SSelect ∨ sendPC (conn (sideA σ)) = SFull.

Lemma check_selecting n ka kb t σ :
  good n ka kb σ → sendPC (conn (sideA σ)) = SCheck →
  ∃ σ', only_A n ka kb (t, σ) (t, σ') ∧ selecting σ'.
Proof using.
  intros Hg Hpc. eexists. split.
  - eapply (send_run n ka ka kb t t σ SEvGo (quietIO t)); try done.
    + unfold sendStep, sendBody. simpl. rewrite Hpc. reflexivity.
    + rewrite Hpc. by case_if.
    + destruct (gd_runA _ _ _ _ Hg). split; try done. simpl. by case_if.
  - unfold selecting. simpl. case_if; auto.
Qed.

Lemma sync_selecting n ka kb t σ back :
  good n ka kb σ → sendPC (conn (sideA σ)) = SSync back →
  ∃ t' σ', t ≤ t' ∧ only_A n ka kb (t, σ) (t', σ') ∧ selecting σ'.
Proof using HD.
  intros Hg Hpc.
  destruct (sync_leave n ka kb t σ back Hg Hpc) as (t1 & σ1 & Ht & H1 & Hpc1 & Hw1).
  assert (Hg1 := oa_good _ _ _ _ _ H1). simpl in Hg1.
  set (pc := if back then SCheck else SSelect).
  assert (H2 : only_A n ka kb (t1, σ1) (t1, mkSystem (with_conn
    (set_sendPC pc (conn (sideA σ1))) (sideA σ1)) (sideB σ1) (wireAB σ1 ++ [])
    (wireBA σ1))).
  { apply (send_run n ka ka kb t1 t1 σ1 SEvGo (quietIO t1) _ (quietIO t1)); try done.
    - unfold sendStep, sendBody. simpl. rewrite Hpc1, Hw1.
      unfold endResend. mstep.
      destruct (resetResendTicker_spec (conn (sideA σ1), quietIO t1))
        as [[-> _]|[_ Hle]]; [done|].
      simpl in Hle. pose proof (boosts_ok_pos _ _ (ru_resend _ _ (gd_runA _ _ _ _ Hg1))).
      unfold GetResendTimeout in Hle. lia.
    - by rewrite Hpc1.
    - destruct (gd_runA _ _ _ _ Hg1). split; try done. unfold pc. simpl.
      by destruct back. }
  assert (H12 := only_A_trans _ _ _ _ _ _ _ H1 H2). destruct back.
  - destruct (check_selecting n ka kb t1 _ (oa_good _ _ _ _ _ H2) eq_refl)
      as (σ3 & H3 & Hs).
    exists t1, σ3. split; [done|]. split; [by eapply only_A_trans|done].
  - do 2 eexists. split; [exact Ht|]. split; [exact H12|]. by left.
Qed.

(** The packets of the history from index [c] on, as they travel. *)
Definition resent (c : nat) (h : list PacketData) : list bytes :=
  (λ p, Serialize (MData p)) <$> drop c h.

(** The resend loop runs to its end, whatever the window, and boosts the
    timeout at most once. *)
Lemma resend_loop n ka kb back t b k : ∀ σ c,
  good n ka kb σ → (k = length (hist (sideA σ)) - c)%nat →
  boosted_at t b (resendBooster (timeoutManager (conn (sideA σ)))) →
  withBoostFrequencyLimit b = true → 0 < originalTimeout b → boosts_ok (S ka) b →
  sendPC (conn (sideA σ)) = SResend (Z.of_nat c mod (Z.of_nat n + 1))
    (Z.of_nat (length (hist (sideA σ))) mod (Z.of_nat n + 1)) back →
  (c ≤ length (hist (sideA σ)) ≤ c + n)%nat →
  ∃ σ', only_A n ka kb (t, σ) (t, σ') ∧ sendPC (conn (sideA σ')) = SSync back
  ∧ wireAB σ' = wireAB σ ++ resent c (hist (sideA σ)).
Proof using.
  induction k as [|k IH]; intros σ c Hg Hk Hb Hl Ho Hok Hpc Hc.
  - assert (c = length (hist (sideA σ))) as -> by lia.
    eexists. split.
    + eapply (send_run n ka ka kb t t σ SEvGo (quietIO t)); try done.
      * unfold sendStep, sendBody. simpl. rewrite Hpc. unfold stepResend.
        by rewrite Z.eqb_refl.
      * by rewrite Hpc.
      * by destruct (gd_runA _ _ _ _ Hg).
    + split; [done|]. simpl. unfold resent. by rewrite drop_all.
  - destruct (gd_inv _ _ _ _ Hg) as (mab & mba & _ & _ & _ & _ & (B & R & I) & _).
    pose proof (di_rep _ _ _ _ _ _ _ _ _ _ I) as Hrep.
    pose proof (di_s _ _ _ _ _ _ _ _ _ _ I) as Hs.
    pose proof (qr_s _ _ _ Hrep) as Hrange.
    destruct (lookup_lt_is_Some_2 (hist (sideA σ)) c) as [p Hp]; [lia|].
    pose proof (resendNext_rep _ _ _ _ _ Hrep Hp ltac:(lia)) as Hnx.
    rewrite Hs in Hnx.
    set (pc := SResend (Z.of_nat (S c) mod (Z.of_nat n + 1))
      (Z.of_nat (length (hist (sideA σ))) mod (Z.of_nat n + 1)) back).
    destruct (send_one n ka kb σ p true t b pc Hg)
      as (g' & i' & Hsp & Hw & Hr & Hb' & _); try done.
    assert (H1 : only_A n ka kb (t, σ) (t, mkSystem
      (with_conn (set_sendPC pc g') (sideA σ))
      (sideB σ) (wireAB σ ++ wire i') (wireBA σ))).
    { apply (send_run n ka ka kb t t σ SEvGo (quietIO t)); try done.
      - unfold sendStep, sendBody. simpl. rewrite Hpc. unfold stepResend.
        destruct (Z.eqb_spec (Z.of_nat c mod (Z.of_nat n + 1))
          (Z.of_nat (length (hist (sideA σ))) mod (Z.of_nat n + 1))) as [E|_].
        { apply mod_inj in E; lia. }
        unfold tryG. mstep. simpl. rewrite Hnx, Hsp. done.
      - by rewrite Hpc. }
    destruct (IH _ (S c) (oa_good _ _ _ _ _ H1)) as (σ' & H2 & Hpc' & Hw'); try done.
    + simpl. lia.
    + simpl. lia.
    + exists σ'. split; [by eapply only_A_trans|]. split; [done|].
      rewrite Hw'. simpl. rewrite Hw. unfold resent.
      by rewrite (drop_S _ _ _ Hp), <- app_assoc.
Qed.

Lemma resend_run n ka kb back t σ c :
  good n (S ka) kb σ →
  sendPC (conn (sideA σ)) = SResend (Z.of_nat c mod (Z.of_nat n + 1))
    (Z.of_nat (length (hist (sideA σ))) mod (Z.of_nat n + 1)) back →
  (c ≤ length (hist (sideA σ)) ≤ c + n)%nat →
  ∃ σ', only_A n ka kb (t, σ) (t, σ') ∧ sendPC (conn (sideA σ')) = SSync back
  ∧ wireAB σ' = wireAB σ ++ resent c (hist (sideA σ)).
Proof using.
  intros Hg Hpc Hc. destruct (booster_facts _ _ _ _ Hg) as (Hl & Ho & Hok).
  eapply resend_loop; try done; [by apply good_less|by left].
Qed.

(** Whatever it is doing, the sending goroutine can get back to one of its two
    [select]s, with one boost at most. *)
Lemma reach_select n ka kb t σ :
  good n (S ka) kb σ →
  ∃ t' σ', t ≤ t' ∧ only_A n ka kb (t, σ) (t', σ') ∧ selecting σ'.
Proof using HD.
  intros Hg. assert (Hg' := good_less _ _ _ _ Hg).
  destruct (gd_inv _ _ _ _ Hg) as (mab & mba & _ & _ & _ & _ & (B & R & I) & _).
  pose proof (di_pc _ _ _ _ _ _ _ _ _ _ I) as Hok.
  pose proof (di_s _ _ _ _ _ _ _ _ _ _ I) as Hs.
  assert (Hsend := ru_send _ _ (gd_runA _ _ _ _ Hg)).
  destruct (sendPC (conn (sideA σ))) as [|p| | |base top back|back|e] eqn:Hpc.
  - exists t, σ. split; [lia|]. split; [by apply only_A_refl|by left].
  - destruct (booster_facts _ _ _ _ Hg) as (Hl & Ho & Hbk).
    destruct (send_one n ka kb σ p false t
      (resendBooster (timeoutManager (conn (sideA σ)))) SCheck Hg')
      as (g' & i' & Hsp & _ & Hr & _); [done|by left|done..|].
    assert (H1 : only_A n ka kb (t, σ) (t, mkSystem
      (with_conn (set_sendPC SCheck g') (sideA σ))
      (sideB σ) (wireAB σ ++ wire i') (wireBA σ))).
    { apply (send_run n ka ka kb t t σ SEvGo (quietIO t)); try done.
      - unfold sendStep, sendBody. simpl. rewrite Hpc. mstep. by rewrite Hsp.
      - by rewrite Hpc. }
    destruct (check_selecting n ka kb t _ (oa_good _ _ _ _ _ H1) eq_refl)
      as (σ' & H2 & ?).
    exists t, σ'. split; [lia|]. split; [by eapply only_A_trans|done].
  - destruct (check_selecting n ka kb t σ Hg' Hpc) as (σ' & ? & ?).
    exists t, σ'. split; [lia|done].
  - exists t, σ. split; [lia|]. split; [by apply only_A_refl|by right].
  - destruct Hok as [(c & -> & Hc & ->) _]. rewrite Hs in Hpc.
    destruct (resend_run n ka kb back t σ c Hg Hpc Hc) as (σ1 & H1 & Hpc1 & _).
    destruct (sync_selecting n ka kb t σ1 back (oa_good _ _ _ _ _ H1) Hpc1)
      as (t' & σ' & ? & H2 & ?).
    exists t', σ'. split; [done|]. split; [by eapply only_A_trans|done].
  - by apply (sync_selecting n ka kb t σ back).
  - by destruct (Hsend e).
Qed.

(** Everything on its way from this side is lost. *)
Lemma lose_all n ka kb t σ :
  good n ka kb σ →
  ∃ σ', only_A n ka kb (t, σ) (t, σ') ∧ wireAB σ' = [] ∧ sideA σ' = sideA σ.
Proof using.
  intros Hg. destruct σ as [a b ab ba]. revert Hg.
  induction ab as [|x ab IH]; intros Hg.
  - eexists. split; [by apply only_A_refl|done].
  - assert (H1 : only_A n ka kb (t, mkSystem a b (x :: ab) ba)
                               (t, mkSystem a b ab ba)).
    { eapply only_A_step; try done; [apply (ts_lose_AB t a b [] x ab ba)|apply Hg]. }
    destruct (IH (oa_good _ _ _ _ _ H1)) as (σ' & H2 & ? & ?).
    exists σ'. split; [by eapply only_A_trans|done].
Qed.

(** ** The resent window *)

(** The receiver expects packet [R] of the sender's history. *)
Definition expects (n : nat) (σ : system) (R : nat) : Prop :=
  recvSeq (conn (sideB σ)) = Z.of_nat R mod (Z.of_nat n + 1)
  ∧ (R ≤ length (hist (sideA σ)) ≤ R + n)%nat.

Lemma expects_unique n σ R R' : expects n σ R → expects n σ R' → R = R'.
Proof using.
  intros [E1 L1] [E2 L2]. rewrite E1 in E2. apply mod_inj in E2; lia.
Qed.

(** What the window invariant says of the expected packet. *)
Lemma window_expects n σ mab mba B R :
  dir_inv n (sendQueue (conn (sideA σ))) (sendPC (conn (sideA σ)))
    (hist (sideA σ)) (recvSeq (conn (sideB σ))) (accepted (sideB σ))
    (dataOf mab) (acksOf mba) B R →
  expects n σ R ∧ (B ≤ R)%nat.
Proof using.
  intros I. pose proof (dir_B_le_R _ _ _ _ _ _ _ _ _ _ I) as HB.
  destruct I as [Hrep Hs HR Hrs _ _ _ _]. pose proof (qr_win _ _ _ Hrep).
  split; [|done]. split; [by rewrite <- Hs|lia].
Qed.

Lemma good_expects n ka kb σ : good n ka kb σ → ∃ R, expects n σ R.
Proof using.
  intros [(mab & mba & _ & _ & _ & _ & (B & R & I) & _) _ _ _ _].
  exists R. by eapply window_expects.
Qed.

Lemma GetHandshakeTimeout_range m : is_i64 (GetHandshakeTimeout m).
Proof using. apply i64_range. Qed.

(** With packets in the window, a resend late enough after the last one goes
    over the whole window. *)
Lemma resendBegin_window q h B hs t :
  queue_rep q h B → (B < length h)%nat → is_i64 hs → lastResend q + hs ≤ t →
  ∃ q', resendBegin hs t t q = Ok (Some (sequenceBase q, sequenceTop q), q').
Proof using.
  intros Hrep Hlt Hhs Ht. pose proof (qr_s _ _ _ Hrep). unfold resendBegin.
  destruct (Z.ltb_spec (timeSub t (lastResend q)) hs);
    [unfold timeSub, is_i64 in *; lia|].
  rewrite (size_rep _ _ _ Hrep). case_if; [lia|]. simpl.
  destruct (Z.eqb_spec (sequenceBase q) (sequenceTop q)) as [E|_].
  { pose proof (qr_win _ _ _ Hrep).
    rewrite (qr_base _ _ _ Hrep), (qr_top _ _ _ Hrep) in E.
    apply mod_inj in E; lia. }
  destruct (initResendUpTo_not_panic (sequenceTop q) (q_syncer q)) as [a Ha].
  { rewrite (qr_sync _ _ _ Hrep). lia. }
  rewrite Ha. simpl. by eexists.
Qed.

(** The resend tick, late enough, starts the resend loop at the base of the
    window. *)
Lemma tick_run n ka kb t σ B (back : bool) :
  good n ka kb σ → sendPC (conn (sideA σ)) = (if back then SFull else SSelect) →
  queue_rep (sendQueue (conn (sideA σ))) (hist (sideA σ)) B →
  q_s (sendQueue (conn (sideA σ))) = Z.of_nat n + 1 →
  (B < length (hist (sideA σ)))%nat →
  ∃ t' σ', t ≤ t' ∧ only_A n ka kb (t, σ) (t', σ') ∧ wireAB σ' = wireAB σ
  ∧ sendPC (conn (sideA σ')) = SResend (Z.of_nat B mod (Z.of_nat n + 1))
      (Z.of_nat (length (hist (sideA σ))) mod (Z.of_nat n + 1)) back.
Proof using HD.
  intros Hg Hpc Hrep Hs Hlt. set (g := conn (sideA σ)) in *.
  set (t0 := Z.max (t + D) (lastResend (sendQueue g)
                            + GetHandshakeTimeout (timeoutManager g))).
  destruct (resendBegin_window _ _ _ _ t0 Hrep Hlt
    (GetHandshakeTimeout_range (timeoutManager g))) as [q' Hq']; [lia|].
  rewrite (qr_base _ _ _ Hrep), (qr_top _ _ _ Hrep), Hs in Hq'.
  match type of Hq' with _ = Ok (Some (?b, ?e), _) =>
    set (pc := SResend b e back) in * end.
  exists t0, (mkSystem (with_conn (set_sendPC pc (set_sendQueue q' g)) (sideA σ))
    (sideB σ) (wireAB σ ++ []) (wireBA σ)).
  split; [lia|]. split; [|by rewrite app_nil_r].
  apply (send_run n ka ka kb t t0 σ SEvResendTick (quietIO t0) _
    (mkIO (λ _, t0) 2 (λ _, None) [])); try done.
  - apply quiet_ticks_late. lia.
  - lia.
  - unfold sendStep, sendBody. fold g. simpl. rewrite Hpc.
    destruct back; unfold beginResend, getG, tryG; mstep; simpl;
      rewrite Hq'; reflexivity.
  - fold g. rewrite Hpc. by destruct back.
  - by destruct (gd_runA _ _ _ _ Hg).
Qed.

(** With nothing in flight, the sender can put on the stream every packet from
    some point the receiver has reached. *)
Lemma window_resent n ka kb t σ R :
  good n (S ka) kb σ → selecting σ → wireAB σ = [] → expects n σ R →
  ∃ t' σ' c, t ≤ t' ∧ only_A n ka kb (t, σ) (t', σ')
  ∧ wireAB σ' = resent c (hist (sideA σ))
  ∧ (c ≤ R)%nat ∧ (length (hist (sideA σ)) ≤ c + n)%nat.
Proof using HD.
  intros Hg Hsel Hw HR.
  destruct (gd_inv _ _ _ _ Hg) as (mab & mba & _ & _ & _ & _ & (B & R' & I) & _).
  destruct (window_expects _ _ _ _ _ _ I) as [HR' HB].
  rewrite <- (expects_unique _ _ _ _ HR HR') in *. clear HR' R'.
  pose proof (di_rep _ _ _ _ _ _ _ _ _ _ I) as Hrep.
  pose proof (di_s _ _ _ _ _ _ _ _ _ _ I) as Hs.
  pose proof (qr_win _ _ _ Hrep) as Hwin. pose proof (qr_lo _ _ _ Hrep) as Hlo.
  destruct (decide (B < length (hist (sideA σ)))%nat) as [Hlt|Hge].
  - assert (∃ back : bool, sendPC (conn (sideA σ)) = if back then SFull else SSelect)
      as [back Hpc] by (destruct Hsel; [by exists false|by exists true]).
    destruct (tick_run n (S ka) kb t σ B back Hg Hpc Hrep Hs Hlt)
      as (t1 & σ1 & Ht & H1 & Hw1 & Hpc1).
    pose proof (oa_hist _ _ _ _ _ H1) as Eh. simpl in Eh. rewrite <- Eh in Hpc1.
    destruct (resend_run n ka kb back t1 σ1 B (oa_good _ _ _ _ _ H1) Hpc1)
      as (σ2 & H2 & _ & Hw2); [rewrite Eh; lia|].
    exists t1, σ2, B. split; [done|]. split; [by eapply only_A_trans|].
    rewrite Hw2, Hw1, Hw, Eh. split; [done|]. lia.
  - exists t, σ, (length (hist (sideA σ))). split; [lia|].
    split; [by apply only_A_refl, good_less|].
    unfold resent. rewrite drop_all, Hw. split; [done|].
    destruct HR. lia.
Qed.

(** ** The receiving goroutine *)

(** A run that changes neither the other endpoint nor what was submitted to
    and queued in this one. *)
Record only_B (n ka kb : nat) (x y : Time * system) : Prop := {
  ob_run : rtc timed_step x y;
  ob_good : good n ka kb y.2;
  ob_A : sideA y.2 = sideA x.2;
  ob_hist : hist (sideB y.2) = hist (sideB x.2);
  ob_sub : submitted (sideB y.2) = submitted (sideB x.2)
}.

Lemma only_B_refl n ka kb x : good n ka kb x.2 → only_B n ka kb x x.
Proof using. by split. Qed.

Lemma only_B_trans n ka kb x y z :
  only_B n ka kb x y → only_B n ka kb y z → only_B n ka kb x z.
Proof using. intros [] []. split; try congruence. by etrans. Qed.

Lemma only_B_step n ka kb t t' σ σ' :
  good n ka kb σ → timed_step (t, σ) (t', σ') → sideA σ' = sideA σ →
  hist (sideB σ') = hist (sideB σ) → submitted (sideB σ') = submitted (sideB σ) →
  running kb (conn (sideB σ')) → only_B n ka kb (t, σ) (t', σ').
Proof using.
  intros Hg Hst HA ? ? Hr. split; try done; [by apply rtc_once|]. simpl.
  eapply good_step; try done. rewrite HA. apply Hg.
Qed.

Lemma Received_data clk m tm : Received clk (MData m) tm = Ok tm.
Proof using. unfold Received. by case_if. Qed.

Lemma Sent_reply clk msg r tm :
  (∃ s, msg = MACK s ∨ msg = MNACK s) → Sent clk msg r tm = tm.
Proof using. intros [s [->| ->]]; unfold Sent; by case_if. Qed.

Lemma handleData_quiet n m g i :
  1 < Z.of_nat n + 1 ≤ 255 → cfg_s (g_cfg g) = Z.of_nat n + 1 →
  (∀ k, sendErr i k = None) →
  ∃ g' i', handleData m (g, i) =
    (Ok (if (Seq m =? recvSeq g) && negb (IsPing m) then RPush m else RLoop),
     (g', i'))
  ∧ timeoutManager g' = timeoutManager g ∧ sendPC g' = sendPC g
  ∧ recvSeq g' = if Seq m =? recvSeq g
                 then u8 (recvSeq g + 1) mod (Z.of_nat n + 1) else recvSeq g.
Proof using.
  intros Hn Hs Hi. unfold handleData, getG, time_now, clocks, sendPacket, wrapErr,
    sendToStream, modG, tryG. mstep. simpl.
  destruct (Z.eqb_spec (Seq m) (recvSeq g)) as [He|He]; simpl.
  - rewrite Hi. simpl. rewrite Hs, umod_pos by lia. simpl.
    destruct (IsPing m); simpl; do 2 eexists; (split; [done|]);
      (split; [apply Sent_reply; eauto|done]).
  - case_if; simpl; [by do 2 eexists|]. rewrite Hi. simpl.
    do 2 eexists. split; [done|]. split; [apply Sent_reply; eauto|done].
Qed.

Lemma recv_data n k t m g :
  1 < Z.of_nat n + 1 ≤ 255 → cfg_s (g_cfg g) = Z.of_nat n + 1 →
  sane g → running k g → recvPC g = RLoop →
  ∃ g' i', recvStep (REvBytes true (Serialize (MData m))) (g, quietIO t)
    = Some (Ok tt, (g', i'))
  ∧ running k g'
  ∧ recvPC g' = (if (Seq m =? recvSeq g) && negb (IsPing m) then RPush m else RLoop)
  ∧ recvSeq g' = if Seq m =? recvSeq g
                 then u8 (recvSeq g + 1) mod (Z.of_nat n + 1) else recvSeq g.
Proof using.
  intros Hn Hs Hsane [Hr1 Hr2 Hr3 Hr4] Hpc. unfold recvStep. cbn [fst]. rewrite Hpc.
  destruct (sa_ping _ Hsane) as (t1 & Ht1 & Hl1).
  destruct (sa_pong _ Hsane) as (t2 & Ht2 & _).
  destruct (live_reset t t1) as (t1' & Hreset & _); [by exists t1|].
  unfold handlePacket, onTicker, time_now, clocks, wrapErr. mstep.
  rewrite Deserialize_Serialize. unfold tryG at 1. rewrite Received_data. simpl.
  unfold tryG at 1. simpl. rewrite Ht1, Hreset. simpl.
  unfold tryG at 1. simpl. rewrite Ht2. simpl.
  match goal with |- context [resetResendTicker ?s] =>
    destruct (resetResendTicker_spec s) as [[-> _]|[_ Hle]] end;
    [|simpl in Hle; pose proof (boosts_ok_pos _ _ Hr4);
      unfold GetResendTimeout in Hle; lia].
  match goal with |- context [handleData m (?g1, ?i1)] =>
    destruct (handleData_quiet n m g1 i1) as (g' & i' & Hd & E1 & E2 & E3);
      [done|done|done|] end.
  rewrite Hd. simpl in *. do 2 eexists. split; [done|]. simpl.
  split; [|by split]. split; simpl; rewrite ?E1, ?E2; try done. by case_if.
Qed.

(** The receiver's goroutine is at the head of its loop, with the same stream
    to read and the same packet expected. *)
Definition ready (σ σ' : system) : Prop :=
  recvPC (conn (sideB σ')) = RLoop ∧ wireAB σ' = wireAB σ
  ∧ recvSeq (conn (sideB σ')) = recvSeq (conn (sideB σ)).

(** [Recv] empties [recvDataChan], so that a pending packet can be put there. *)
Lemma drain_run n ka kb t σ :
  (1 ≤ n)%nat → good n ka kb σ →
  ∃ σ', only_B n ka kb (t, σ) (t, σ') ∧ ready σ σ'.
Proof using.
  intros Hn. destruct σ as [a [g h sub acc psh] ab ba]. unfold ready. simpl.
  assert (∃ l, recvDataChan g = l) as [l Hl] by eauto. revert g Hl.
  induction l as [|x l IH]; intros g Hl Hg.
  - destruct (recvPC g) as [|m|e] eqn:Hpc.
    + eexists. split; [by apply only_B_refl|done].
    + destruct (gd_inv _ _ _ _ Hg) as (_ & _ & _ & _ & _ & [Hcfg _ _ _] & _).
      simpl in Hcfg. destruct (gd_runB _ _ _ _ Hg) as [Hr1 _ Hr3 Hr4].
      eexists (mkSystem a (mkEndpoint (set_recvPC RLoop (set_recvDataChan [m] g))
        h sub acc (psh ++ [m])) ab ba). split; [|done].
      apply only_B_step; try done. apply ts_B.
      assert (Hx := te_push t t (quietIO t) (mkEndpoint g h sub acc psh)
        (set_recvPC RLoop (set_recvDataChan [m] g)) (quietIO t) ab ba
        (quiet_ticks t) eq_refl).
      simpl in Hx. rewrite Hpc in Hx. apply Hx.
      unfold recvStep. simpl. rewrite Hpc, Hl, Hcfg. case_if; [done|].
      unfold len in *. simpl in *. lia.
    + by destruct (ru_recv _ _ (gd_runB _ _ _ _ Hg) e).
  - set (g1 := set_recvDataChan l g).
    assert (H1 : only_B n ka kb (t, mkSystem a (mkEndpoint g h sub acc psh) ab ba)
                          (t, mkSystem a (mkEndpoint g1 h sub acc psh) ab ba)).
    { apply only_B_step; try done.
      - apply ts_B. by eapply (te_app_recv t x l (mkEndpoint g h sub acc psh)).
      - by destruct (gd_runB _ _ _ _ Hg). }
    destruct (IH g1 eq_refl (ob_good _ _ _ _ _ H1)) as (σ' & H2 & Hr).
    exists σ'. split; [by eapply only_B_trans|done].
Qed.

(** One packet of the history arrives: the expected one is accepted, an older
    one is not. *)
Lemma receive_one n ka kb t σ c R p ws :
  (1 ≤ n ≤ 254)%nat → good n ka kb σ → recvPC (conn (sideB σ)) = RLoop →
  hist (sideA σ) !! c = Some p → wireAB σ = Serialize (MData p) :: ws →
  expects n σ R → (c ≤ R)%nat → (length (hist (sideA σ)) ≤ c + n)%nat →
  ∃ σ', only_B n ka kb (t, σ) (t, σ') ∧ wireAB σ' = ws
  ∧ expects n σ' (if bool_decide (c = R) then S R else R).
Proof using.
  intros Hn Hg Hpc Hp Hw [HR HRl] HcR Hlen.
  destruct (gd_inv _ _ _ _ Hg) as (mab & mba & _ & _ & _ & Lb & (B & R0 & I) & _).
  pose proof (di_rep _ _ _ _ _ _ _ _ _ _ I) as Hrep.
  pose proof (di_s _ _ _ _ _ _ _ _ _ _ I) as Hs.
  pose proof (qr_seq _ _ _ Hrep _ _ Hp) as Hseq. rewrite Hs in Hseq.
  pose proof (lookup_lt_Some _ _ _ Hp) as Hlt.
  destruct (recv_data n kb t p (conn (sideB σ))) as (g' & i' & Hst & Hr & Hpc' & Hrs);
    [lia|apply Lb|apply (gd_saneB _ _ _ _ Hg)|apply Hg|done|].
  destruct σ as [a b ab ba]. simpl in *. subst ab.
  eexists. split; [|split].
  - eapply only_B_step;
      [done|apply ts_B, (te_recv t t true _ (quietIO t)); [apply quiet_ticks|done..]
      |done..].
  - done.
  - unfold expects. simpl. rewrite Hrs, Hseq, HR.
    destruct (decide (c = R)) as [->|Hne].
    + rewrite Z.eqb_refl, bool_decide_true by done. split; [|lia].
      pose proof (Z.mod_pos_bound (Z.of_nat R) (Z.of_nat n + 1) ltac:(lia)).
      rewrite u8_small by (unfold is_u8; lia). rewrite mod_succ by lia.
      f_equal. lia.
    + rewrite bool_decide_false by done.
      destruct (Z.eqb_spec (Z.of_nat c mod (Z.of_nat n + 1))
        (Z.of_nat R mod (Z.of_nat n + 1))) as [E|_]; [|by split].
      apply mod_inj in E; lia.
Qed.

(** The receiver takes in a resent window and is then up to date. *)
Lemma receive_all n ka kb t k : ∀ σ c R,
  (1 ≤ n ≤ 254)%nat → good n ka kb σ → (k = length (hist (sideA σ)) - c)%nat →
  wireAB σ = resent c (hist (sideA σ)) → expects n σ R → (c ≤ R)%nat →
  (length (hist (sideA σ)) ≤ c + n)%nat →
  ∃ σ', only_B n ka kb (t, σ) (t, σ') ∧ recvPC (conn (sideB σ')) = RLoop
  ∧ expects n σ' (length (hist (sideA σ))).
Proof using.
  induction k as [|k IH]; intros σ c R Hn Hg Hk Hw HR HcR Hlen;
    destruct (drain_run n ka kb t σ (proj1 Hn) Hg) as (σ1 & H1 & Hpc1 & Hw1 & Hrs1);
    pose proof (ob_A _ _ _ _ _ H1) as EA; simpl in EA;
    (assert (HR1 : expects n σ1 R)
      by (destruct HR; split; rewrite ?Hrs1, ?EA; done)).
  - exists σ1. split; [done|]. split; [done|].
    assert (R = length (hist (sideA σ))) as <- by (destruct HR; lia). done.
  - destruct (lookup_lt_is_Some_2 (hist (sideA σ)) c) as [p Hp]; [lia|].
    rewrite Hw in Hw1. unfold resent in Hw1. rewrite (drop_S _ _ _ Hp) in Hw1.
    destruct (receive_one n ka kb t σ1 c R p (resent (S c) (hist (sideA σ))) Hn
      (ob_good _ _ _ _ _ H1) Hpc1)
      as (σ2 & H2 & Hw2 & HR2); [by rewrite EA|exact Hw1|done|done|by rewrite EA|].
    pose proof (ob_A _ _ _ _ _ H2) as EA2. simpl in EA2. rewrite EA in EA2.
    destruct (IH σ2 (S c) _ Hn (ob_good _ _ _ _ _ H2) ltac:(rewrite EA2; lia)
      ltac:(by rewrite EA2) HR2) as (σ3 & H3 & Hpc3 & HR3).
    { case_bool_decide; lia. }
    { rewrite EA2. lia. }
    exists σ3. split; [|by rewrite EA2 in HR3].
    eapply only_B_trans; [exact H1|]. by eapply only_B_trans.
Qed.

(** ** Recovery *)

(** Everything submitted on the one side has been delivered on the other. *)
Definition caught_up (from to : endpoint) : Prop :=
  strip <$> pushed to = strip <$> submitted from.

Lemma up_to_date n ka kb σ :
  good n ka kb σ → recvPC (conn (sideB σ)) = RLoop →
  expects n σ (length (hist (sideA σ))) → caught_up (sideA σ) (sideB σ).
Proof using.
  intros Hg Hpc HR.
  destruct (gd_inv _ _ _ _ Hg) as (mab & mba & _ & _ & La & Lb & (B & R & I) & _).
  destruct (window_expects _ _ _ _ _ _ I) as [HR' _].
  rewrite <- (expects_unique _ _ _ _ HR HR') in I.
  pose proof (di_got _ _ _ _ _ _ _ _ _ _ I) as Hgot. rewrite firstn_all in Hgot.
  pose proof (li_push _ _ Lb) as Hp. unfold push_ok in Hp. rewrite Hpc in Hp.
  unfold caught_up. by rewrite <- Hp, Hgot, (li_hist _ _ La).
Qed.

Lemma deliver_one_way n ka kb t σ :
  (1 ≤ n ≤ 254)%nat → good n (S (S ka)) kb σ →
  ∃ t' σ', t ≤ t' ∧ rtc timed_step (t, σ) (t', σ') ∧ good n ka kb σ'
  ∧ submitted (sideA σ') = submitted (sideA σ)
  ∧ submitted (sideB σ') = submitted (sideB σ)
  ∧ pushed (sideA σ') = pushed (sideA σ)
  ∧ caught_up (sideA σ') (sideB σ').
Proof using HD.
  intros Hn Hg.
  destruct (reach_select n (S ka) kb t σ Hg) as (t1 & σ1 & Ht1 & H1 & Hsel).
  destruct (lose_all n (S ka) kb t1 σ1 (oa_good _ _ _ _ _ H1))
    as (σ2 & H2 & Hw2 & EA).
  assert (H12 := only_A_trans _ _ _ _ _ _ _ H1 H2).
  destruct (good_expects n _ _ σ2 (oa_good _ _ _ _ _ H2)) as [R HR].
  destruct (window_resent n ka kb t1 σ2 R (oa_good _ _ _ _ _ H2))
    as (t3 & σ3 & c & Ht3 & H3 & Hw3 & HcR & Hlen);
    [unfold selecting in *; by rewrite EA|done|done|].
  assert (H13 := only_A_trans _ _ _ _ _ _ _ H12 H3).
  pose proof (oa_hist _ _ _ _ _ H3) as Eh. pose proof (oa_B _ _ _ _ _ H3) as EB.
  simpl in Eh, EB.
  destruct (receive_all n ka kb t3 _ σ3 c R Hn (oa_good _ _ _ _ _ H3) eq_refl)
    as (σ4 & H4 & Hpc & HR4).
  { by rewrite Eh. }
  { destruct HR. split; by rewrite ?Eh, ?EB. }
  { done. }
  { by rewrite Eh. }
  pose proof (ob_A _ _ _ _ _ H4) as EA4. simpl in EA4. rewrite <- EA4 in HR4.
  destruct H13 as [R13 G13 EB13 Eh13 Es13 Ep13]. destruct H4 as [R4 G4 _ _ Es4].
  simpl in *. exists t3, σ4. split_and!; try congruence.
  - lia.
  - by etrans.
  - by eapply up_to_date.
Qed.

Lemma deliver_both_ways n t σ :
  (1 ≤ n ≤ 254)%nat → good n 2 2 σ →
  ∃ t' σ', t ≤ t' ∧ rtc timed_step (t, σ) (t', σ') ∧ good n 0 0 σ'
  ∧ submitted (sideA σ') = submitted (sideA σ)
  ∧ submitted (sideB σ') = submitted (sideB σ)
  ∧ caught_up (sideA σ') (sideB σ') ∧ caught_up (sideB σ') (sideA σ').
Proof using HD.
  intros Hn Hg.
  destruct (deliver_one_way n 0 2 t σ Hn Hg)
    as (t1 & σ1 & T1 & R1 & G1 & Sa1 & Sb1 & _ & C1).
  destruct (deliver_one_way n 0 0 t1 (swap σ1) Hn (swap_good n 0 2 σ1 G1))
    as (t2 & σ2 & T2 & R2 & G2 & Sb2 & Sa2 & P2 & C2).
  apply swap_steps in R2. destruct σ1 as [a b ab ba], σ2 as [b2 a2 ba2 ab2].
  unfold caught_up, swap in *. simpl in *.
  exists t2, (mkSystem a2 b2 ab2 ba2). simpl. split_and!; try congruence.
  - lia.
  - by etrans.
  - by apply (swap_good n 0 0 (mkSystem b2 a2 ba2 ab2)).
Qed.

End Timed.

(** Steps of two running endpoints are steps of the connection. *)
Lemma lift_step a b ab ba σ' rc rs x :
  sys_step (mkSystem a b ab ba) σ' →
  conn_step (mkConnection (Run a rc) (Run b rs) ab ba x)
    (mkConnection (Run (sideA σ') rc) (Run (sideB σ') rs) (wireAB σ') (wireBA σ') x).
Proof using.
  intros Hst. inversion Hst; subst; simpl.
  - by apply cs_client, sd_run.
  - by apply cs_server, sd_run.
  - apply cs_lose_CS.
  - apply cs_lose_SC.
Qed.

Lemma lift_steps σ σ' rc rs x :
  rtc sys_step σ σ' →
  rtc conn_step
    (mkConnection (Run (sideA σ) rc) (Run (sideB σ) rs) (wireAB σ) (wireBA σ) x)
    (mkConnection (Run (sideA σ') rc) (Run (sideB σ') rs) (wireAB σ') (wireBA σ') x).
Proof using.
  induction 1 as [|y z w Hxy _ IH]; [done|].
  eapply rtc_l; [|exact IH]. destruct y. by apply lift_step.
Qed.

End Recovery.

(** C4: take a client created with a window from 1 to 254 and a server, over
    streams that keep order and may lose packets, in any state they can reach
    in which both are transferring data, none of their goroutines has returned
    and their resend timeouts are positive, now and after two boosts.
    Whatever was lost, wherever the goroutines stand and whatever the queues
    and syncers hold, the connection is not stuck: from any time [T] on, there
    is a run whose clock never goes back and whose timers fire no sooner than
    an arbitrary wait [D] after the step before, and which ends with both
    sides having put on [recvDataChan] everything submitted on the other side,
    in order, nothing further submitted and the goroutines still running. *)
Theorem connection_can_recover `{FloatToInt} n copts sopts σ ec rc es rs T D :
  (1 ≤ n ≤ 254)%nat → keepalive_ok copts → keepalive_ok sopts →
  connect (Z.of_nat n) copts sopts σ →
  client σ = Run ec rc → server σ = Run es rs →
  running 2 (conn ec) → running 2 (conn es) → 0 ≤ D →
  ∃ T' ec' es' cs' sc', T ≤ T'
  ∧ rtc (timed_step D) (T, mkSystem ec es (wireCS σ) (wireSC σ))
      (T', mkSystem ec' es' cs' sc')
  ∧ rtc conn_step σ (mkConnection (Run ec' rc) (Run es' rs) cs' sc' false)
  ∧ running 0 (conn ec') ∧ running 0 (conn es')
  ∧ submitted ec' = submitted ec ∧ submitted es' = submitted es
  ∧ strip <$> pushed es' = strip <$> submitted ec
  ∧ strip <$> pushed ec' = strip <$> submitted es.
Proof.
  intros Hn Kc Ks Hc Ec Es Rc Rs HD.
  destruct (connect_sane n copts sopts σ Hn Kc Ks Hc)
    as [(_ & _ & mcs & msc & E1 & E2 & _ & Lc & Ls & H1 & H2) [Sc Ss]].
  destruct Hc as [_ Hx]. destruct σ as [c s cs sc x]. simpl in *. subst c s x.
  destruct (deliver_both_ways D HD n T (mkSystem ec es cs sc) Hn)
    as (T' & [ec' es' cs' sc'] & HT & Hrun & [_ _ _ Ra Rb] & Sa & Sb & C1 & C2).
  { split; try done. by exists mcs, msc. }
  assert (Hlift := lift_steps _ _ rc rs false (timed_sys_steps _ _ _ Hrun)).
  unfold caught_up in *. simpl in *. rewrite Sa in C1. rewrite Sb in C2.
  exists T', ec', es', cs', sc'. by split_and!.
Qed.

(** A connection whose first data packet was lost. *)
Lemma demo_lost : let _ := amd64 in
  ∃ σ ec rc es rs, connect 20 [] [] σ ∧ client σ = Run ec rc
  ∧ server σ = Run es rs ∧ running 2 (conn ec) ∧ running 2 (conn es)
  ∧ submitted ec = [demoPacket] ∧ submitted es = [] ∧ pushed es = []
  ∧ wireCS σ = [].
Proof.
  intros fl. do 5 eexists. split; [|split; [|split; [|split; [|split]]]].
  - split.
    { eexists. eexists. split; [reflexivity|]. split; [reflexivity|].
      run_handshake. client_does (sends (SEvData demoPacket)).
      client_does (sends SEvGo).
      eapply rtc_l; [eapply (cs_lose_CS _ _ [])|]. apply rtc_refl. }
    reflexivity.
  - reflexivity.
  - reflexivity.
  - by split; [done|done|vm_compute|vm_compute; repeat split].
  - by split; [done|done|vm_compute|vm_compute; repeat split].
  - by split_and!.
Qed.

Lemma connection_can_recover_witness : let _ := amd64 in
  ∃ σ ec rc es rs T' ec' es' cs' sc', connect 20 [] [] σ
  ∧ client σ = Run ec rc ∧ server σ = Run es rs
  ∧ submitted ec = [demoPacket] ∧ pushed es = [] ∧ wireCS σ = []
  ∧ rtc (timed_step (10 * Second))
      (1000 * Second, mkSystem ec es (wireCS σ) (wireSC σ))
      (T', mkSystem ec' es' cs' sc')
  ∧ strip <$> pushed es' = [strip demoPacket].
Proof.
  intros fl. destruct demo_lost as
    (σ & ec & rc & es & rs & Hc & Ec & Es & Rc & Rs & Sc & Ss & Ps & Hw).
  destruct (@connection_can_recover amd64 20 [] [] σ ec rc es rs
    (1000 * Second) (10 * Second))
    as (T' & ec' & es' & cs' & sc' & _ & Hrun & _ & _ & _ & _ & _ & Hp & _).
  - lia.
  - by split; [apply List.Forall_nil|vm_compute].
  - by split; [apply List.Forall_nil|vm_compute].
  - exact Hc.
  - exact Ec.
  - exact Es.
  - exact Rc.
  - exact Rs.
  - discriminate.
  - exists σ, ec, rc, es, rs, T', ec', es', cs', sc'. rewrite Sc in Hp.
    split_and!; [exact Hc|exact Ec|exact Es|exact Sc|exact Ps|exact Hw
      |exact Hrun|exact Hp].
Defined.
