(* ===== verification/Sha2.v ===== *)
(** * The hash functions of the Go standard library

    [crypto/sha256], [crypto/sha512] and [crypto/hmac] as the mailbox uses
    them: SHA-2 on byte strings, over a word size, and HMAC-SHA256.  The
    examples at the end are published test vectors. *)

From stdpp Require Import base numbers list.
From S2P Require Import Prelude.

(** ** Constants *)

Definition K256 : list Z :=
  [1116352408; 1899447441; 3049323471; 3921009573; 961987163; 1508970993;
   2453635748; 2870763221; 3624381080; 310598401; 607225278; 1426881987;
   1925078388; 2162078206; 2614888103; 3248222580; 3835390401; 4022224774;
   264347078; 604807628; 770255983; 1249150122; 1555081692; 1996064986;
   2554220882; 2821834349; 2952996808; 3210313671; 3336571891; 3584528711;
   113926993; 338241895; 666307205; 773529912; 1294757372; 1396182291;
   1695183700; 1986661051; 2177026350; 2456956037; 2730485921; 2820302411;
   3259730800; 3345764771; 3516065817; 3600352804; 4094571909; 275423344;
   430227734; 506948616; 659060556; 883997877; 958139571; 1322822218;
   1537002063; 1747873779; 1955562222; 2024104815; 2227730452; 2361852424;
   2428436474; 2756734187; 3204031479; 3329325298].

Definition K512 : list Z :=
  [4794697086780616226; 8158064640168781261; 13096744586834688815;
   16840607885511220156; 4131703408338449720; 6480981068601479193;
   10538285296894168987; 12329834152419229976; 15566598209576043074;
   1334009975649890238; 2608012711638119052; 6128411473006802146;
   8268148722764581231; 9286055187155687089; 11230858885718282805;
   13951009754708518548; 16472876342353939154; 17275323862435702243;
   1135362057144423861; 2597628984639134821; 3308224258029322869;
   5365058923640841347; 6679025012923562964; 8573033837759648693;
   10970295158949994411; 12119686244451234320; 12683024718118986047;
   13788192230050041572; 14330467153632333762; 15395433587784984357;
   489312712824947311; 1452737877330783856; 2861767655752347644;
   3322285676063803686; 5560940570517711597; 5996557281743188959;
   7280758554555802590; 8532644243296465576; 9350256976987008742;
   10552545826968843579; 11727347734174303076; 12113106623233404929;
   14000437183269869457; 14369950271660146224; 15101387698204529176;
   15463397548674623760; 17586052441742319658; 1182934255886127544;
   1847814050463011016; 2177327727835720531; 2830643537854262169;
   3796741975233480872; 4115178125766777443; 5681478168544905931;
   6601373596472566643; 7507060721942968483; 8399075790359081724;
   8693463985226723168; 9568029438360202098; 10144078919501101548;
   10430055236837252648; 11840083180663258601; 13761210420658862357;
   14299343276471374635; 14566680578165727644; 15097957966210449927;
   16922976911328602910; 17689382322260857208; 500013540394364858;
   748580250866718886; 1242879168328830382; 1977374033974150939;
   2944078676154940804; 3659926193048069267; 4368137639120453308;
   4836135668995329356; 5532061633213252278; 6448918945643986474;
   6902733635092675308; 7801388544844847127].

Definition H256 : list Z :=
  [1779033703; 3144134277; 1013904242; 2773480762; 1359893119; 2600822924;
   528734635; 1541459225].

Definition H512 : list Z :=
  [7640891576956012808; 13503953896175478587; 4354685564936845355;
   11912009170470909681; 5840696475078001361; 11170449401992604703;
   2270897969802886507; 6620516959819538809].

(** ** The compression function *)

(** The parameters of one member of the family: word size in bytes, round
    constants, initial state, and the rotation and shift amounts. *)
Record sha2 := mkSha2 {
  wordBytes : nat;
  roundK : list Z;
  initH : list Z;
  bigS0 : Z * Z * Z;
  bigS1 : Z * Z * Z;
  smallS0 : Z * Z * Z;
  smallS1 : Z * Z * Z
}.

Definition SHA256 : sha2 :=
  mkSha2 4 K256 H256 (2, 13, 22) (6, 11, 25) (7, 18, 3) (17, 19, 10).
Definition SHA512 : sha2 :=
  mkSha2 8 K512 H512 (28, 34, 39) (14, 18, 41) (1, 8, 7) (19, 61, 6).

Section Compress.
Context (p : sha2).

Let w : Z := 8 * Z.of_nat (wordBytes p).
Let mask : Z := 2 ^ w - 1.

Definition wadd (x y : Z) : Z := Z.land (x + y) mask.
Definition rotr (k x : Z) : Z :=
  Z.lor (Z.shiftr x k) (Z.land (Z.shiftl x (w - k)) mask).
Definition sigma (r : Z * Z * Z) (x : Z) : Z :=
  let '(a, b, c) := r in Z.lxor (Z.lxor (rotr a x) (rotr b x)) (rotr c x).
Definition sigmaShift (r : Z * Z * Z) (x : Z) : Z :=
  let '(a, b, c) := r in
  Z.lxor (Z.lxor (rotr a x) (rotr b x)) (Z.shiftr x c).
Definition choose (e f g : Z) : Z :=
  Z.lxor (Z.land e f) (Z.land (Z.lxor e mask) g).
Definition majority (a b c : Z) : Z :=
  Z.lxor (Z.lxor (Z.land a b) (Z.land a c)) (Z.land b c).

Definition nthZ (l : list Z) (i : nat) : Z := nth i l 0.

(** The message schedule, newest word first. *)
Fixpoint schedule (k : nat) (ws : list Z) : list Z :=
  match k with
  | O => ws
  | S k =>
      let x := wadd (wadd (sigmaShift (smallS1 p) (nthZ ws 1)) (nthZ ws 6))
                 (wadd (sigmaShift (smallS0 p) (nthZ ws 14)) (nthZ ws 15)) in
      schedule k (x :: ws)
  end.

Definition round (st : list Z) (kw : Z * Z) : list Z :=
  match st with
  | [a; b; c; d; e; f; g; h] =>
      let t1 := wadd (wadd (wadd h (sigma (bigS1 p) e)) (choose e f g))
                  (wadd kw.1 kw.2) in
      let t2 := wadd (sigma (bigS0 p) a) (majority a b c) in
      [wadd t1 t2; a; b; c; wadd d t1; e; f; g]
  | _ => st
  end.

Fixpoint wordOf (b : bytes) (acc : Z) : Z :=
  match b with [] => acc | x :: b => wordOf b (acc * 256 + x) end.
Fixpoint wordsOf (k : nat) (b : bytes) : list Z :=
  match k with
  | O => []
  | S k => wordOf (take (wordBytes p) b) 0 :: wordsOf k (drop (wordBytes p) b)
  end.

(** Process one block. *)
Definition block (st : list Z) (b : bytes) : list Z :=
  let rounds := length (roundK p) in
  let ws := rev (schedule (rounds - 16) (rev (wordsOf 16 b))) in
  zip_with wadd st (fold_left round (zip (roundK p) ws) st).

Definition blockSize : nat := 16 * wordBytes p.

Fixpoint blocks (k : nat) (st : list Z) (b : bytes) : list Z :=
  match k with
  | O => st
  | S k => blocks k (block st (take blockSize b)) (drop blockSize b)
  end.

(** Big-endian bytes of a word. *)
Fixpoint bytesOf (k : nat) (x : Z) : bytes :=
  match k with
  | O => []
  | S k => Z.land (Z.shiftr x (8 * Z.of_nat k)) 255 :: bytesOf k x
  end.

(** Append a one bit, zeros, and the bit length in two words. *)
Definition pad (m : bytes) : bytes :=
  let used := (length m + 1 + 2 * wordBytes p)%nat in
  let zeros := ((blockSize - used mod blockSize) mod blockSize)%nat in
  m ++ [128] ++ replicate zeros 0 ++
    bytesOf (2 * wordBytes p) (8 * len m).

Definition digest (m : bytes) : bytes :=
  let b := pad m in
  mjoin (bytesOf (wordBytes p) <$>
           blocks (length b / blockSize) (initH p) b).

End Compress.

(** [sha256.Sum256], [sha512.Sum512]. *)
Definition sha256 (m : bytes) : bytes := digest SHA256 m.
Definition sha512 (m : bytes) : bytes := digest SHA512 m.

(** [hmac.New(sha256.New, key)], [Write], [Sum]. *)
Definition hmacSum256 (key message : bytes) : bytes :=
  let key := if 64 <? len key then sha256 key else key in
  let key := key ++ replicate (64 - length key) 0 in
  let xored c := Z.lxor c <$> key in
  sha256 (xored 92 ++ sha256 (xored 54 ++ message)).

(** ** Test vectors *)

Example sha256_abc : sha256 [97; 98; 99] =
  [186; 120; 22; 191; 143; 1; 207; 234; 65; 65; 64; 222; 93; 174; 34; 35;
   176; 3; 97; 163; 150; 23; 122; 156; 180; 16; 255; 97; 242; 0; 21; 173].
Proof. vm_compute. reflexivity. Qed.

Example sha512_abc : sha512 [97; 98; 99] =
  [221; 175; 53; 161; 147; 97; 122; 186; 204; 65; 115; 73; 174; 32; 65; 49;
   18; 230; 250; 78; 137; 169; 126; 162; 10; 158; 238; 230; 75; 85; 211; 154;
   33; 146; 153; 42; 39; 79; 193; 168; 54; 186; 60; 35; 163; 254; 235; 189;
   69; 77; 68; 35; 100; 60; 232; 14; 42; 154; 201; 79; 165; 76; 164; 159].
Proof. vm_compute. reflexivity. Qed.

(** RFC 4231, test case 2. *)
Example hmac_rfc4231 :
  hmacSum256 [74; 101; 102; 101]
    [119; 104; 97; 116; 32; 100; 111; 32; 121; 97; 32; 119; 97; 110; 116; 32;
     102; 111; 114; 32; 110; 111; 116; 104; 105; 110; 103; 63] =
  [91; 220; 193; 70; 191; 96; 117; 78; 106; 4; 36; 38; 8; 149; 117; 199;
   90; 0; 63; 8; 157; 39; 57; 131; 157; 236; 88; 185; 100; 236; 56; 67].
Proof. vm_compute. reflexivity. Qed.

Lemma bytesOf_length k x : length (bytesOf k x) = k.
Proof. induction k; simpl; auto. Qed.
