(* ===== verification/NoiseState.v ===== *)
(** * The Noise machine ([mailbox/noise.go], [mailbox/noise_patterns.go],
    [mailbox/conndata.go])

    The cipher, symmetric and handshake states, the processing of tokens and
    message patterns, and the [Machine] that runs a handshake.  The curve, the
    key derivation, the AEAD and scrypt come from packages outside the
    repository and are the operations of the class [Crypto]. *)

From stdpp Require Import base numbers list strings.
From Stdlib Require Import Ascii.
From S2P Require Import Prelude Sha2.

(** ** Cryptography *)

(** [btcec] (points of the curve, the point at infinity included), [keychain]
    (keys that can do ECDH), [hkdf] (the first 64 bytes for a secret and a
    salt, with empty info), [chacha20poly1305] and [scrypt]. *)
Class Crypto := {
  PublicKey : Type;
  SingleKeyECDH : Type;
  infinity : PublicKey;
  pointAdd : PublicKey → PublicKey → PublicKey;
  pointNeg : PublicKey → PublicKey;
  scalarMult : Z → PublicKey → PublicKey;
  setByteSlice : bytes → Z;
  pointN : PublicKey;
  SerializeCompressed : PublicKey → bytes;
  ParsePubKey : bytes → result PublicKey;
  PubKey : SingleKeyECDH → PublicKey;
  ECDH : SingleKeyECDH → PublicKey → result bytes;
  hkdf : bytes → bytes → bytes;
  Seal : bytes → bytes → bytes → bytes → bytes;
  Open : bytes → bytes → bytes → bytes → result bytes;
  scryptKey : bytes → bytes → Z → Z → Z → Z → result bytes
}.

Definition macSize : Z := 16.

(** What the machine relies on. *)
Class CryptoLaws `{Crypto} : Prop := {
  open_seal key nonce plain ad :
    Open key nonce (Seal key nonce plain ad) ad = Ok plain;
  seal_length key nonce plain ad :
    len (Seal key nonce plain ad) = len plain + macSize;
  serialize_length p : len (SerializeCompressed p) = 33;
  parse_serialize p :
    p ≠ infinity → ParsePubKey (SerializeCompressed p) = Ok p;
  pubkey_finite k : PubKey k ≠ infinity;
  ecdh_comm a b : ECDH a (PubKey b) = ECDH b (PubKey a);
  ecdh_ok a b : ∃ h, ECDH a (PubKey b) = Ok h;
  add_assoc p q r : pointAdd p (pointAdd q r) = pointAdd (pointAdd p q) r;
  add_neg p : pointAdd p (pointNeg p) = infinity;
  add_infinity p : pointAdd p infinity = p
}.

(** ** Patterns *)

Module Tok.
Inductive Token := e | s | ee | es | se | ss | me.
End Tok.
Abbreviation Token := Tok.Token.

Definition act1 : Z := 1.
Definition act2 : Z := 2.
Definition act3 : Z := 3.

Record MessagePattern := mkMP {
  Tokens : list Token;
  mpInitiator : bool;
  mpActNum : Z
}.

Record HandshakePattern := mkPattern {
  PreMessages : list MessagePattern;
  Pattern : list MessagePattern;
  Name : string
}.

Definition XX : string := "XXeke+SPAKE2".
Definition KK : string := "KK".

Definition XXPattern : HandshakePattern := mkPattern []
  [mkMP [Tok.me] true act1; mkMP [Tok.e; Tok.ee; Tok.s; Tok.es] false act2;
   mkMP [Tok.s; Tok.se] true act3]
  XX.

Definition KKPattern : HandshakePattern := mkPattern
  [mkMP [Tok.s] true 0; mkMP [Tok.s] false 0]
  [mkMP [Tok.e; Tok.es; Tok.ss] true act1;
   mkMP [Tok.e; Tok.ee; Tok.se] false act2]
  KK.

(** ** Constants *)

Definition dhFn : string := "secp256k1".
Definition cipherFn : string := "ChaChaPoly".
Definition hashFn : string := "SHA256".
Definition lengthHeaderSize : Z := 2.
Definition encHeaderSize : Z := lengthHeaderSize + macSize.
Definition keyRotationInterval : Z := 1000.
Definition HandshakeVersion0 : Z := 0.
Definition HandshakeVersion1 : Z := 1.
Definition HandshakeVersion2 : Z := 2.
Definition MinHandshakeVersion : Z := HandshakeVersion0.
Definition MaxHandshakeVersion : Z := HandshakeVersion2.
Definition ActTwoPayloadSize : Z := 500.
Definition lightningNodeConnectPrologue : bytes :=
  bytesOfString "lightning-node-connect".
Definition ErrMaxMessageLengthExceeded : error := ErrMsg
  "the generated payload exceeds the max allowed message length of (2^16)-1".
Definition ErrMessageNotFlushed : error := ErrMsg "prior message not flushed".

(** [fmt.Errorf] messages that mention a number carry no number here. *)
Definition errVersion : error :=
  ErrMsg "received unexpected handshake version".
Definition errUnknownAct : error := ErrMsg "unknown act number".
Definition errUnknownVersion : error := ErrMsg "unknown handshake version".

Definition zeroKey : bytes := replicate 32 0.

Section Noise.
Context `{Crypto}.

(** ** [cipherState] *)

(** The AEAD instance is given by the key it was created with, nil before
    [InitializeKey]. *)
Record cipherState := mkCipher {
  nonce : Z;
  secretKey : bytes;
  salt : bytes;
  cipher : option bytes
}.

Definition newCipherState : cipherState := mkCipher 0 zeroKey zeroKey None.

(** [binary.LittleEndian.PutUint64(nonce[4:], c.nonce)]. *)
Definition nonceBytes (n : Z) : bytes :=
  replicate 4 0 ++
    ((λ k, Z.land (Z.shiftr n (8 * Z.of_nat k)) 255) <$> seq 0 8).

Definition InitializeKey (key : bytes) (c : cipherState) : cipherState :=
  mkCipher 0 key (salt c) (Some key).

Definition InitializeKeyWithSalt (slt key : bytes) (c : cipherState) :
    cipherState :=
  InitializeKey key (mkCipher (nonce c) (secretKey c) slt (cipher c)).

Definition rotateKey (c : cipherState) : cipherState :=
  let h := hkdf (secretKey c) (salt c) in
  InitializeKey (drop 32 h)
    (mkCipher (nonce c) (secretKey c) (take 32 h) (cipher c)).

(** The deferred function of [Encrypt] and [Decrypt]. *)
Definition advance (c : cipherState) : cipherState :=
  let c := mkCipher (u64 (nonce c + 1)) (secretKey c) (salt c) (cipher c) in
  if nonce c =? keyRotationInterval then rotateKey c else c.

Definition Encrypt (associatedData plainText : bytes) : M cipherState bytes :=
  λ c, match cipher c with
       | None => (Panic NilDereference, advance c)
       | Some key =>
           (Ok (Seal key (nonceBytes (nonce c)) plainText associatedData),
            advance c)
       end.

Definition Decrypt (associatedData cipherText : bytes) : M cipherState bytes :=
  λ c, match cipher c with
       | None => (Panic NilDereference, advance c)
       | Some key =>
           (Open key (nonceBytes (nonce c)) cipherText associatedData,
            advance c)
       end.

(** ** [symmetricState] *)

Record symmetricState := mkSym {
  ss_cipher : cipherState;
  chainingKey : bytes;
  tempKey : bytes;
  handshakeDigest : bytes
}.

Definition newSymmetricState : symmetricState :=
  mkSym newCipherState zeroKey zeroKey zeroKey.

Definition set_ss_cipher (c : cipherState) (x : symmetricState) :=
  mkSym c (chainingKey x) (tempKey x) (handshakeDigest x).

Definition mixKey (input : bytes) (x : symmetricState) : symmetricState :=
  let h := hkdf input (chainingKey x) in
  mkSym (InitializeKey (drop 32 h) (ss_cipher x)) (take 32 h) (drop 32 h)
    (handshakeDigest x).

Definition mixHash (data : bytes) (x : symmetricState) : symmetricState :=
  mkSym (ss_cipher x) (chainingKey x) (tempKey x)
    (sha256 (handshakeDigest x ++ data)).

Definition EncryptAndHash (plaintext : bytes) : M symmetricState bytes :=
  d ← gets handshakeDigest;
  ciphertext ← zoom ss_cipher set_ss_cipher (Encrypt d plaintext);
  _ ← modify (mixHash ciphertext);
  mret ciphertext.

Definition DecryptAndHash (ciphertext : bytes) : M symmetricState bytes :=
  d ← gets handshakeDigest;
  plaintext ← zoom ss_cipher set_ss_cipher (Decrypt d ciphertext);
  _ ← modify (mixHash ciphertext);
  mret plaintext.

Definition InitializeSymmetric (protocolName : bytes) (x : symmetricState) :
    symmetricState :=
  let d := sha256 protocolName in
  mkSym (InitializeKey zeroKey (ss_cipher x)) d (tempKey x) d.

(** ** SPAKE2 masking *)

Definition ekeMask (ep : PublicKey) (passphraseEntropy : bytes) : PublicKey :=
  let pw := setByteSlice passphraseEntropy in
  pointAdd ep (scalarMult pw pointN).

Definition ekeUnmask (mep : PublicKey) (passphraseEntropy : bytes) :
    PublicKey :=
  let pw := setByteSlice passphraseEntropy in
  pointAdd mep (pointNeg (scalarMult pw pointN)).

(** ** [ConnData] *)

(** A nil key, slice or callback is [None]. *)
Record ConnData := mkConnData {
  localKey : SingleKeyECDH;
  remoteKey : option PublicKey;
  cd_passphraseEntropy : bytes;
  authData : option bytes;
  onRemoteStatic : option (option PublicKey → result unit);
  onAuthData : option (option bytes → result unit)
}.

Definition NewConnData := mkConnData.

Definition callback {A} (f : option (A → result unit)) (x : A) : result unit :=
  match f with None => Ok tt | Some f => f x end.

Definition SetRemote (key : option PublicKey) : M ConnData unit :=
  _ ← (λ c, (callback (onRemoteStatic c) key, c));
  modify (λ c, mkConnData (localKey c) key (cd_passphraseEntropy c)
                 (authData c) (onRemoteStatic c) (onAuthData c)).

Definition SetAuthData (data : option bytes) : M ConnData unit :=
  _ ← (λ c, (callback (onAuthData c) data, c));
  modify (λ c, mkConnData (localKey c) (remoteKey c) (cd_passphraseEntropy c)
                 data (onRemoteStatic c) (onAuthData c)).

(** [ecdh]; dereferencing a nil key panics. *)
Definition ecdh (pub : option PublicKey) (priv : option SingleKeyECDH) :
    result bytes :=
  match priv, pub with
  | Some k, Some p => ECDH k p
  | _, _ => Panic NilDereference
  end.

Definition hmac256 (key message : bytes) : result bytes :=
  Ok (hmacSum256 key message).

Definition SID (c : ConnData) : result bytes :=
  match remoteKey c with
  | None => Ok (sha512 (cd_passphraseEntropy c))
  | Some _ =>
      hash ← ecdh (remoteKey c) (Some (localKey c));
      entropy ← hmac256 hash (bytesOfString "mailbox");
      Ok (sha512 entropy)
  end.

Definition cd_HandshakePattern (c : ConnData) : HandshakePattern :=
  match remoteKey c with None => XXPattern | Some _ => KKPattern end.

(** [stretchPassphrase] ([mailbox/crypto.go]). *)
Definition scryptN : Z := 65536.
Definition scryptR : Z := 8.
Definition scryptP : Z := 1.
Definition scryptKeyLen : Z := 32.

Definition stretchPassphrase (entropy : bytes) : result bytes :=
  scryptKey entropy entropy scryptN scryptR scryptP scryptKeyLen.

(** ** [handshakeState] *)

Record handshakeState := mkHandshake {
  sym : symmetricState;
  initiator : bool;
  localStatic : SingleKeyECDH;
  localEphemeral : option SingleKeyECDH;
  remoteStatic : option PublicKey;
  remoteEphemeral : option PublicKey;
  passphraseEntropy : bytes;
  payloadToSend : option bytes;
  receivedPayload : option bytes;
  pattern : HandshakePattern;
  minVersion : Z;
  maxVersion : Z;
  version : Z
}.

Definition set_sym v h := mkHandshake v (initiator h) (localStatic h)
  (localEphemeral h) (remoteStatic h) (remoteEphemeral h)
  (passphraseEntropy h) (payloadToSend h) (receivedPayload h) (pattern h)
  (minVersion h) (maxVersion h) (version h).
Definition set_localEphemeral v h := mkHandshake (sym h) (initiator h)
  (localStatic h) v (remoteStatic h) (remoteEphemeral h)
  (passphraseEntropy h) (payloadToSend h) (receivedPayload h) (pattern h)
  (minVersion h) (maxVersion h) (version h).
Definition set_remoteStatic v h := mkHandshake (sym h) (initiator h)
  (localStatic h) (localEphemeral h) v (remoteEphemeral h)
  (passphraseEntropy h) (payloadToSend h) (receivedPayload h) (pattern h)
  (minVersion h) (maxVersion h) (version h).
Definition set_remoteEphemeral v h := mkHandshake (sym h) (initiator h)
  (localStatic h) (localEphemeral h) (remoteStatic h) v
  (passphraseEntropy h) (payloadToSend h) (receivedPayload h) (pattern h)
  (minVersion h) (maxVersion h) (version h).
Definition set_receivedPayload v h := mkHandshake (sym h) (initiator h)
  (localStatic h) (localEphemeral h) (remoteStatic h) (remoteEphemeral h)
  (passphraseEntropy h) (payloadToSend h) v (pattern h)
  (minVersion h) (maxVersion h) (version h).
Definition set_version v h := mkHandshake (sym h) (initiator h)
  (localStatic h) (localEphemeral h) (remoteStatic h) (remoteEphemeral h)
  (passphraseEntropy h) (payloadToSend h) (receivedPayload h) (pattern h)
  (minVersion h) (maxVersion h) v.

Definition protocolName (pat : HandshakePattern) : bytes :=
  bytesOfString ("Noise_" +:+ Name pat +:+ "_" +:+ dhFn +:+ "_" +:+ cipherFn
                 +:+ "_" +:+ hashFn).

(** The pre-messages: one [mixHash] each. *)
Fixpoint mixPreMessages (ms : list MessagePattern) (h : handshakeState) :
    result handshakeState :=
  match ms with
  | [] => Ok h
  | m :: ms =>
      if Bool.eqb (mpInitiator m) (initiator h) then
        mixPreMessages ms (set_sym (mixHash
          (SerializeCompressed (PubKey (localStatic h))) (sym h)) h)
      else match remoteStatic h with
      | None => Err (ErrMsg
          "a remote static key is expected for the given handshake pattern")
      | Some k =>
          mixPreMessages ms (set_sym (mixHash (SerializeCompressed k) (sym h)) h)
      end
  end.

Definition newHandshakeState (minV maxV : Z) (pat : HandshakePattern)
    (init : bool) (prologue : bytes) (localPub : SingleKeyECDH)
    (remote : option PublicKey) (entropy : bytes) (auth : option bytes) :
    result handshakeState :=
  let startVersion := if init then minV else maxV in
  let x := InitializeSymmetric (protocolName pat) newSymmetricState in
  let x := mixHash prologue x in
  mixPreMessages (PreMessages pat)
    (mkHandshake x init localPub None remote None entropy auth None pat
       minV maxV startVersion).

(** ** The network and the key generator

    Each [Write] makes one segment; a [Read] returns bytes of one segment.
    [keyGen] gives the results of the successive calls of [ephemeralGen]. *)
Record netio := mkNet {
  inSegs : list bytes;
  outSegs : list bytes;
  writeErr : nat → option error;
  keyGen : nat → result SingleKeyECDH;
  keysMade : nat
}.

Definition set_inSegs v n :=
  mkNet v (outSegs n) (writeErr n) (keyGen n) (keysMade n).

Abbreviation HS := (handshakeState * netio)%type.

Definition getH {A} (f : handshakeState → A) : M HS A := λ st, (Ok (f st.1), st).
Definition modH (f : handshakeState → handshakeState) : M HS unit :=
  λ st, (Ok tt, (f st.1, st.2)).
Definition onSym {A} (m : M symmetricState A) : M HS A := λ st,
  let '(r, x) := m (sym st.1) in (r, (set_sym x st.1, st.2)).

(** [r.Read(buf)] with a zeroed buffer of [k] bytes: what the buffer holds
    afterwards. *)
Definition netRead (k : Z) : M HS bytes := λ st,
  let '(h, n) := st in
  match inSegs n with
  | [] => (Err EOF, st)
  | [] :: rest => (Err EOF, (h, set_inSegs rest n))
  | seg :: rest =>
      let left := drop (Z.to_nat k) seg in
      (Ok (copy (replicate (Z.to_nat k) 0) (take (Z.to_nat k) seg)),
       (h, set_inSegs (if decide (left = []) then rest else left :: rest) n))
  end.

Definition netWrite (b : bytes) : M HS unit := λ st,
  let '(h, n) := st in
  match writeErr n (length (outSegs n)) with
  | Some err => (Err err, st)
  | None => (Ok tt, (h, mkNet (inSegs n) (outSegs n ++ [b]) (writeErr n)
                          (keyGen n) (keysMade n)))
  end.

Definition genEphemeral : M HS SingleKeyECDH := λ st,
  let '(h, n) := st in
  (keyGen n (keysMade n), (h, mkNet (inSegs n) (outSegs n) (writeErr n)
                               (keyGen n) (S (keysMade n)))).

(** ** Tokens *)

(** The DH operations, the same on both sides. *)
Definition dhToken (t : Token) : M HS unit :=
  h ← getH id;
  let '(pub, priv) :=
    match t, initiator h with
    | Tok.ee, _ => (remoteEphemeral h, localEphemeral h)
    | Tok.ss, _ => (remoteStatic h, Some (localStatic h))
    | Tok.es, true | Tok.se, false => (remoteStatic h, localEphemeral h)
    | _, _ => (remoteEphemeral h, Some (localStatic h))
    end in
  k ← liftR (ecdh pub priv);
  onSym (modify (mixKey k)).

(** One token of [writeTokens]: the bytes it writes to the buffer. *)
Definition writeToken (t : Token) : M HS bytes :=
  match t with
  | Tok.e =>
      k ← genEphemeral;
      _ ← modH (set_localEphemeral (Some k));
      let pubKeyBytes := SerializeCompressed (PubKey k) in
      _ ← onSym (modify (mixHash pubKeyBytes));
      mret pubKeyBytes
  | Tok.me =>
      k ← genEphemeral;
      _ ← modH (set_localEphemeral (Some k));
      _ ← onSym (modify (mixHash (SerializeCompressed (PubKey k))));
      pw ← getH passphraseEntropy;
      mret (SerializeCompressed (ekeMask (PubKey k) pw))
  | Tok.s =>
      k ← getH localStatic;
      onSym (EncryptAndHash (SerializeCompressed (PubKey k)))
  | _ => _ ← dhToken t; mret []
  end.

Fixpoint writeTokens (ts : list Token) : M HS bytes :=
  match ts with
  | [] => mret []
  | t :: ts => b ← writeToken t; bs ← writeTokens ts; mret (b ++ bs)
  end.

Definition readToken (t : Token) : M HS unit :=
  match t with
  | Tok.e =>
      b ← netRead 33;
      p ← liftR (ParsePubKey b);
      _ ← modH (set_remoteEphemeral (Some p));
      onSym (modify (mixHash (SerializeCompressed p)))
  | Tok.me =>
      b ← netRead 33;
      masked ← liftR (ParsePubKey b);
      pw ← getH passphraseEntropy;
      let p := ekeUnmask masked pw in
      _ ← modH (set_remoteEphemeral (Some p));
      onSym (modify (mixHash (SerializeCompressed p)))
  | Tok.s =>
      b ← netRead (33 + macSize);
      rs ← onSym (DecryptAndHash b);
      p ← liftR (ParsePubKey rs);
      modH (set_remoteStatic (Some p))
  | _ => dhToken t
  end.

Fixpoint readTokens (ts : list Token) : M HS unit :=
  match ts with
  | [] => mret tt
  | t :: ts => _ ← readToken t; readTokens ts
  end.

(** ** Message patterns *)

(** The payload of act two in version 0: two bytes of length and the data,
    copied into 500 bytes. *)
Definition fixedPayload (p : option bytes) : bytes :=
  copy (replicate (Z.to_nat ActTwoPayloadSize) 0)
    match p with
    | None => []
    | Some d => putUint16 (u16 (len d)) ++ d
    end.

Definition nilBytes (p : option bytes) : bytes := default [] p.

(** The payload part of [writeMsgPattern]. *)
Definition writePayload (actNum : Z) : M HS bytes :=
  v ← getH version;
  p ← getH payloadToSend;
  if v =? HandshakeVersion0 then
    if (actNum =? act1) || (actNum =? act3) then onSym (EncryptAndHash [])
    else if actNum =? act2 then onSym (EncryptAndHash (fixedPayload p))
    else failM errUnknownAct
  else if (v =? HandshakeVersion1) || (v =? HandshakeVersion2) then
    if (actNum =? act1) || (actNum =? act3) then onSym (EncryptAndHash [])
    else if actNum =? act2 then
      let payload := nilBytes p in
      if MaxInt32 <=? len payload then failM ErrMaxMessageLengthExceeded
      else
        hd ← onSym (EncryptAndHash (putUint32 (u32 (len payload))));
        body ← onSym (EncryptAndHash payload);
        mret (hd ++ body)
    else failM errUnknownAct
  else failM errUnknownVersion.

Definition writeMsgPattern (mp : MessagePattern) : M HS unit :=
  v ← getH version;
  toks ← writeTokens (Tokens mp);
  payload ← writePayload (mpActNum mp);
  netWrite ([v] ++ toks ++ payload).

(** The version check of [readMsgPattern]. *)
Definition checkVersion (v actNum : Z) : M HS unit :=
  h ← getH id;
  if (actNum =? act1) || (actNum =? act2) then
    if (v <? minVersion h) || (maxVersion h <? v) then failM errVersion
    else modH (λ h, if initiator h then set_version v h else h)
  else if actNum =? act3 then
    if negb (v =? version h) then failM errVersion else mret tt
  else failM errUnknownAct.

(** The payload part of [readMsgPattern]. *)
Definition readPayload (v actNum : Z) : M HS unit :=
  if v =? HandshakeVersion0 then
    let payloadSize := if actNum =? act2 then ActTwoPayloadSize else 0 in
    cipherText ← netRead (payloadSize + macSize);
    payload ← onSym (DecryptAndHash cipherText);
    if len payload =? 0 then mret tt
    else
      hd ← liftR (slice payload 0 lengthHeaderSize);
      payloadLen ← liftR (getUint16 hd);
      rest ← liftR (slice payload lengthHeaderSize (len payload));
      if len rest =? 0 then failM EOF
      else modH (set_receivedPayload
             (Some (copy (replicate (Z.to_nat payloadLen) 0) rest)))
  else if (v =? HandshakeVersion1) || (v =? HandshakeVersion2) then
    payloadSize ←
      (if (actNum =? act1) || (actNum =? act3) then mret macSize
       else if actNum =? act2 then
         header ← netRead (4 + macSize);
         pktLenBytes ← onSym (DecryptAndHash header);
         n ← liftR (getUint32 pktLenBytes);
         mret (u32 (macSize + n))
       else failM errUnknownAct);
    cipherText ← netRead payloadSize;
    auth ← onSym (DecryptAndHash cipherText);
    if actNum =? 2 then modH (set_receivedPayload (Some auth)) else mret tt
  else failM errUnknownVersion.

Definition readMsgPattern (mp : MessagePattern) : M HS unit :=
  vb ← netRead 1;
  v ← liftR (index vb 0);
  _ ← checkVersion v (mpActNum mp);
  _ ← readTokens (Tokens mp);
  readPayload v (mpActNum mp).

(** ** [Machine] *)

Record Machine := mkMachine {
  connData : ConnData;
  sendCipher : cipherState;
  recvCipher : cipherState;
  handshake : handshakeState;
  nextHeaderSend : bytes;
  nextBodySend : bytes
}.

Definition set_connData v m := mkMachine v (sendCipher m) (recvCipher m)
  (handshake m) (nextHeaderSend m) (nextBodySend m).
Definition set_sendCipher v m := mkMachine (connData m) v (recvCipher m)
  (handshake m) (nextHeaderSend m) (nextBodySend m).
Definition set_recvCipher v m := mkMachine (connData m) (sendCipher m) v
  (handshake m) (nextHeaderSend m) (nextBodySend m).
Definition set_handshake v m := mkMachine (connData m) (sendCipher m)
  (recvCipher m) v (nextHeaderSend m) (nextBodySend m).
Definition set_nextHeaderSend v m := mkMachine (connData m) (sendCipher m)
  (recvCipher m) (handshake m) v (nextBodySend m).
Definition set_nextBodySend v m := mkMachine (connData m) (sendCipher m)
  (recvCipher m) (handshake m) (nextHeaderSend m) v.

Definition NewBrontideMachine (cd : ConnData) (init : bool)
    (pat : HandshakePattern) (minV maxV : Z) : result Machine :=
  let kk := bool_decide (Name pat = KK) in
  if kk && (maxV <? HandshakeVersion2) then Err (ErrMsg
    "a maximum handshake version of at least 2 is require if the KK pattern is to be used")
  else
    let minV := if kk && (minV <? HandshakeVersion2) then HandshakeVersion2
                else minV in
    entropy ← (if bool_decide (Name pat = XX)
               then stretchPassphrase (cd_passphraseEntropy cd) else Ok []);
    h ← newHandshakeState minV maxV pat init lightningNodeConnectPrologue
          (localKey cd) (remoteKey cd) entropy (authData cd);
    Ok (mkMachine cd newCipherState newCipherState h [] []).

Definition split (m : Machine) : Machine :=
  let ck := chainingKey (sym (handshake m)) in
  let h := hkdf [] ck in
  let first := InitializeKeyWithSalt ck (take 32 h) newCipherState in
  let second := InitializeKeyWithSalt ck (drop 32 h) newCipherState in
  if initiator (handshake m)
  then set_recvCipher second (set_sendCipher first m)
  else set_sendCipher second (set_recvCipher first m).

Abbreviation MS := (Machine * netio)%type.

Definition onHandshake {A} (m : M HS A) : M MS A := λ st,
  let '(r, (h, n)) := m (handshake st.1, st.2) in
  (r, (set_handshake h st.1, n)).
Definition onConnData {A} (m : M ConnData A) : M MS A := λ st,
  let '(r, c) := m (connData st.1) in (r, (set_connData c st.1, st.2)).
Definition getM {A} (f : Machine → A) : M MS A := λ st, (Ok (f st.1), st).
Definition modM (f : Machine → Machine) : M MS unit :=
  λ st, (Ok tt, (f st.1, st.2)).

(** One iteration of the loop of [DoHandshake]. *)
Definition doAct (mp : MessagePattern) : M MS unit :=
  init ← getM (λ m, initiator (handshake m));
  onHandshake (if Bool.eqb (mpInitiator mp) init then writeMsgPattern mp
               else readMsgPattern mp).

Fixpoint doActs (mps : list MessagePattern) : M MS unit :=
  match mps with
  | [] => mret tt
  | mp :: mps => _ ← doAct mp; doActs mps
  end.

Definition DoHandshake : M MS unit :=
  mps ← getM (λ m, Pattern (pattern (handshake m)));
  _ ← doActs mps;
  _ ← modM split;
  h ← getM handshake;
  _ ← (if HandshakeVersion2 <=? version h
       then onConnData (SetRemote (remoteStatic h)) else mret tt);
  if initiator h then onConnData (SetAuthData (receivedPayload h)) else mret tt.

End Noise.

(** Two ends before pairing, with the same passphrase, or after it, with each
    other's static key. *)
Definition paired `{Crypto} (a b : ConnData) : Prop :=
  (remoteKey a = None ∧ remoteKey b = None
   ∧ cd_passphraseEntropy a = cd_passphraseEntropy b)
  ∨ (remoteKey a = Some (PubKey (localKey b))
     ∧ remoteKey b = Some (PubKey (localKey a))).

Lemma SID_paired `{CryptoLaws} a b : paired a b → SID a = SID b.
Proof.
  unfold SID. intros [(-> & -> & ->)|[Ha Hb]]; [done|].
  rewrite Ha, Hb. unfold ecdh. by rewrite (ecdh_comm (localKey b)).
Qed.
