(* ===== verification/NoiseHandshake.v ===== *)
(** * Agreement of the two sides of a Noise handshake

    The states of initiator and responder are shown to be two views of one
    transcript: the symmetric state, the ephemeral keys drawn so far, and
    which static keys have been revealed.  Each token, payload and act is
    specified as a function on transcripts, the code of the writer and of the
    reader refines it, and the XX and KK handshakes follow by running the
    specification. *)

From stdpp Require Import base numbers list strings tactics.
From S2P Require Import Prelude Sha2 NoiseState.

#[local] Opaque sha256.

Record transcript `{Crypto} := mkT {
  tr_sym : symmetricState;
  tr_eI : option SingleKeyECDH;
  tr_eR : option SingleKeyECDH;
  tr_iR : bool;
  tr_rI : bool
}.
Arguments mkT {_} _ _ _ _ _.

(** What is left of a segment goes back in front of the others. *)
Definition pushSeg (rest : bytes) (segs : list bytes) : list bytes :=
  if decide (rest = []) then segs else rest :: segs.

Section Transcript.
Context `{CryptoLaws}.
Context (sI sR : SingleKeyECDH) (pw : bytes).
Abbreviation HS := (handshakeState * netio)%type.

(** The static key, ephemeral key and knowledge of the initiator ([true]) or
    responder ([false]). *)
Definition stat (i : bool) := if i then sI else sR.
Definition eph (i : bool) T := if i then tr_eI T else tr_eR T.
Definition knows (i : bool) T := if i then tr_iR T else tr_rI T.

Definition set_tsym x T := mkT x (tr_eI T) (tr_eR T) (tr_iR T) (tr_rI T).
Definition set_eph (i : bool) k T :=
  if i then mkT (tr_sym T) k (tr_eR T) (tr_iR T) (tr_rI T)
  else mkT (tr_sym T) (tr_eI T) k (tr_iR T) (tr_rI T).
Definition set_knows (i : bool) T :=
  if i then mkT (tr_sym T) (tr_eI T) (tr_eR T) true (tr_rI T)
  else mkT (tr_sym T) (tr_eI T) (tr_eR T) (tr_iR T) true.

(** One side's state: its view of the transcript, and from [b] the fields the
    transcript does not determine. *)
Definition party (i : bool) T (b : handshakeState) : handshakeState :=
  mkHandshake (tr_sym T) i (stat i) (eph i T)
    (if knows i T then Some (PubKey (stat (negb i))) else None)
    (PubKey <$> eph (negb i) T) pw (payloadToSend b) (receivedPayload b)
    (pattern b) (minVersion b) (maxVersion b) (version b).

(** ** Encryption *)

Lemma Encrypt_Decrypt x p ct x' :
  EncryptAndHash p x = (Ok ct, x') →
  DecryptAndHash ct x = (Ok p, x') ∧ len ct = len p + macSize.
Proof using H0.
  unfold EncryptAndHash, DecryptAndHash, Encrypt, Decrypt. mstep.
  destruct (cipher (ss_cipher x)) as [key|]; [|done].
  intros [= <- <-]. rewrite open_seal. simpl. split; [done|].
  apply seal_length.
Qed.

(** The cipher is there once initialised. *)
Definition has_cipher (x : symmetricState) : Prop :=
  is_Some (cipher (ss_cipher x)).

Lemma advance_cipher c : is_Some (cipher c) → is_Some (cipher (advance c)).
Proof using. unfold advance. simpl. case_if; [by eexists|done]. Qed.

Lemma EncryptAndHash_ok p x :
  has_cipher x → ∃ ct x', EncryptAndHash p x = (Ok ct, x') ∧ has_cipher x'.
Proof using.
  intros Hc. pose proof (advance_cipher _ Hc) as Ha. destruct Hc as [key Hk].
  unfold EncryptAndHash, Encrypt. mstep. rewrite Hk.
  eexists _, _. split; [done|]. exact Ha.
Qed.

Lemma has_cipher_mixKey k x : has_cipher (mixKey k x).
Proof using. by eexists. Qed.

Lemma has_cipher_mixHash d x : has_cipher x → has_cipher (mixHash d x).
Proof using. done. Qed.

(** ** Reading *)

Lemma netRead_exact bs rest segs k h n :
  len bs = k → 0 < k →
  netRead k (h, set_inSegs (pushSeg (bs ++ rest) segs) n) =
  (Ok bs, (h, set_inSegs (pushSeg rest segs) n)).
Proof using.
  intros Hl Hk. unfold len in Hl. subst k.
  unfold pushSeg at 1. destruct bs as [|b bs]; [simpl in Hk; lia|].
  case_decide; [done|]. unfold netRead. rewrite Nat2Z.id. simpl inSegs.
  cbv iota. simpl app at 1. cbv iota.
  change (b :: bs ++ rest) with ((b :: bs) ++ rest).
  rewrite take_app_length, drop_app_length. unfold copy.
  rewrite length_replicate, take_ge, drop_ge by (rewrite ?length_replicate; lia).
  rewrite app_nil_r. unfold pushSeg. done.
Qed.

(** ** Tokens *)

Definition secret (a : SingleKeyECDH) (b : SingleKeyECDH) : option bytes :=
  match ECDH a (PubKey b) with Ok h => Some h | _ => None end.

(** The token [t] written by side [w], whose generator yields [k]: the bytes
    and the transcript afterwards. *)
Definition tokSpec (t : Token) (w : bool) (k : SingleKeyECDH) T :
    option (bytes * transcript) :=
  let dh o := match o with
              | Some h => Some ([], set_tsym (mixKey h (tr_sym T)) T)
              | None => None
              end in
  let gen bs := Some (bs, set_eph w (Some k)
    (set_tsym (mixHash (SerializeCompressed (PubKey k)) (tr_sym T)) T)) in
  match t with
  | Tok.e => gen (SerializeCompressed (PubKey k))
  | Tok.me => gen (SerializeCompressed (ekeMask (PubKey k) pw))
  | Tok.s =>
      match EncryptAndHash (SerializeCompressed (PubKey (stat w))) (tr_sym T) with
      | (Ok ct, x') => Some (ct, set_knows (negb w) (set_tsym x' T))
      | _ => None
      end
  | Tok.ee => match tr_eI T, tr_eR T with
              | Some a, Some b => dh (secret a b) | _, _ => None end
  | Tok.es => match tr_eI T, tr_iR T with
              | Some a, true => dh (secret a sR) | _, _ => None end
  | Tok.se => match tr_eR T, tr_rI T with
              | Some b, true => dh (secret sI b) | _, _ => None end
  | Tok.ss => if tr_iR T && tr_rI T then dh (secret sI sR) else None
  end.

Definition gens (t : Token) : nat :=
  match t with Tok.e | Tok.me => 1 | _ => 0 end.

Definition addKeys (c : nat) (n : netio) : netio :=
  mkNet (inSegs n) (outSegs n) (writeErr n) (keyGen n) (keysMade n + c).

(** A masked key can be sent. *)
Definition mask_ok (k : SingleKeyECDH) : Prop :=
  ekeMask (PubKey k) pw ≠ infinity.

Lemma unmask_mask p : ekeUnmask (ekeMask p pw) pw = p.
Proof using H0.
  unfold ekeUnmask, ekeMask. by rewrite <- add_assoc, add_neg, add_infinity.
Qed.

(** The two sides of a DH token compute the same secret. *)
Lemma dhToken_party t i k T T' bs b n :
  tokSpec t i k T = Some (bs, T') →
  match t with Tok.ee | Tok.es | Tok.se | Tok.ss => True | _ => False end →
  bs = [] ∧ ∀ j, dhToken t (party j T b, n) = (Ok tt, (party j T' b, n)).
Proof using H0.
  intros Hs Ht.
  assert (Hdh : ∀ a c h (j : bool), secret a c = Some h →
    ECDH a (PubKey c) = Ok h ∧ ECDH c (PubKey a) = Ok h).
  { unfold secret. intros a c h j. rewrite (ecdh_comm c a).
    destruct (ECDH a (PubKey c)); by intros [= ->]. }
  destruct t; try done; simpl in Hs.
  - destruct (tr_eI T) as [a|] eqn:Ha, (tr_eR T) as [c|] eqn:Hc; try done.
    destruct (secret a c) as [h|] eqn:Hh; [|done]. injection Hs as <- <-.
    split; [done|]. apply (Hdh _ _ _ true) in Hh as [H1 H2].
    intros [|]; unfold dhToken, getH, onSym; mstep; simpl;
      rewrite Ha, Hc; simpl; rewrite ?H1, ?H2; unfold party; simpl;
      by rewrite ?Ha, ?Hc.
  - destruct (tr_eI T) as [a|] eqn:Ha; [|done]. destruct (tr_iR T) eqn:Hk; [|done].
    destruct (secret a sR) as [h|] eqn:Hh; [|done]. injection Hs as <- <-.
    split; [done|]. apply (Hdh _ _ _ true) in Hh as [H1 H2].
    intros [|]; unfold dhToken, getH, onSym; mstep; simpl;
      rewrite Ha, ?Hk; simpl; rewrite ?H1, ?H2; unfold party; simpl;
      by rewrite ?Ha, ?Hk.
  - destruct (tr_eR T) as [a|] eqn:Ha; [|done]. destruct (tr_rI T) eqn:Hk; [|done].
    destruct (secret sI a) as [h|] eqn:Hh; [|done]. injection Hs as <- <-.
    split; [done|]. apply (Hdh _ _ _ true) in Hh as [H1 H2].
    intros [|]; unfold dhToken, getH, onSym; mstep; simpl;
      rewrite Ha, ?Hk; simpl; rewrite ?H1, ?H2; unfold party; simpl;
      by rewrite ?Ha, ?Hk.
  - destruct (tr_iR T) eqn:Hi, (tr_rI T) eqn:Hr; try done. simpl in Hs.
    destruct (secret sI sR) as [h|] eqn:Hh; [|done]. injection Hs as <- <-.
    split; [done|]. apply (Hdh _ _ _ true) in Hh as [H1 H2].
    intros [|]; unfold dhToken, getH, onSym; mstep; simpl;
      rewrite ?Hi, ?Hr; simpl; rewrite ?H1, ?H2; unfold party; simpl;
      by rewrite ?Hi, ?Hr.
Qed.

Lemma writeToken_refines t w k T T' bs b n :
  tokSpec t w k T = Some (bs, T') → (∀ j, keyGen n j = Ok k) →
  writeToken t (party w T b, n) = (Ok bs, (party w T' b, addKeys (gens t) n)).
Proof using H0.
  intros Hs Hk.
  assert (H0n : addKeys 0 n = n)
    by (destruct n; unfold addKeys; simpl; by rewrite Nat.add_0_r).
  assert (H1n : ∀ n, mkNet (inSegs n) (outSegs n) (writeErr n) (keyGen n)
    (S (keysMade n)) = addKeys 1 n)
    by (intros []; unfold addKeys; simpl; by rewrite Nat.add_1_r).
  destruct t;
    try (destruct (dhToken_party _ _ _ _ _ _ b n Hs I) as [-> Hd];
         unfold writeToken; mstep; rewrite Hd; simpl gens; by rewrite H0n).
  - unfold tokSpec in Hs. injection Hs as <- <-. unfold writeToken, genEphemeral, modH, onSym. mstep.
    simpl. rewrite Hk, H1n. simpl. by destruct w.
  - simpl in Hs. destruct (EncryptAndHash _ _) as [[ct| |] x'] eqn:He; try done.
    injection Hs as <- <-. unfold writeToken, getH, onSym. mstep. simpl.
    rewrite He. rewrite H0n. by destruct w.
  - unfold tokSpec in Hs. injection Hs as <- <-. unfold writeToken, genEphemeral, modH, onSym, getH.
    mstep. simpl. rewrite Hk, H1n. simpl. by destruct w.
Qed.

Lemma readToken_refines t w k T T' bs b n rest segs :
  tokSpec t w k T = Some (bs, T') → (t = Tok.me → mask_ok k) →
  readToken t (party (negb w) T b, set_inSegs (pushSeg (bs ++ rest) segs) n) =
  (Ok tt, (party (negb w) T' b, set_inSegs (pushSeg rest segs) n)).
Proof using H0.
  intros Hs Hm.
  destruct t;
    try (destruct (dhToken_party _ _ _ _ _ _ b
           (set_inSegs (pushSeg rest segs) n) Hs I) as [-> Hd];
         unfold readToken; by rewrite Hd).
  - unfold tokSpec in Hs. injection Hs as <- <-. unfold readToken, modH, onSym. mstep.
    rewrite netRead_exact by (rewrite ?serialize_length; lia).
    rewrite parse_serialize by apply pubkey_finite. simpl. by destruct w.
  - simpl in Hs. destruct (EncryptAndHash _ _) as [[ct| |] x'] eqn:He; try done.
    injection Hs as <- <-. apply Encrypt_Decrypt in He as [Hd Hl].
    rewrite serialize_length in Hl.
    unfold readToken, modH, onSym. mstep.
    rewrite netRead_exact by (unfold macSize in *; lia). simpl.
    rewrite Hd. rewrite parse_serialize by apply pubkey_finite. by destruct w.
  - unfold tokSpec in Hs. injection Hs as <- <-. unfold readToken, modH, onSym, getH. mstep.
    rewrite netRead_exact by (rewrite ?serialize_length; lia).
    rewrite parse_serialize by (by apply Hm). simpl. rewrite unmask_mask.
    by destruct w.
Qed.

(** ** Token sequences *)

Fixpoint toksSpec (ts : list Token) (w : bool) (k : SingleKeyECDH) T :
    option (bytes * transcript) :=
  match ts with
  | [] => Some ([], T)
  | t :: ts =>
      match tokSpec t w k T with
      | Some (b1, T1) =>
          match toksSpec ts w k T1 with
          | Some (b2, T2) => Some (b1 ++ b2, T2)
          | None => None
          end
      | None => None
      end
  end.

Fixpoint gensOf (ts : list Token) : nat :=
  match ts with [] => 0 | t :: ts => gens t + gensOf ts end.

Lemma addKeys_add c1 c2 n : addKeys c2 (addKeys c1 n) = addKeys (c1 + c2) n.
Proof using. unfold addKeys. simpl. by rewrite Nat.add_assoc. Qed.

Lemma writeTokens_refines ts w k T T' bs b n :
  toksSpec ts w k T = Some (bs, T') → (∀ j, keyGen n j = Ok k) →
  writeTokens ts (party w T b, n) =
  (Ok bs, (party w T' b, addKeys (gensOf ts) n)).
Proof using H0.
  revert T bs n. induction ts as [|t ts IH]; intros T bs n Hs Hk; simpl in Hs.
  - injection Hs as <- <-. destruct n. unfold addKeys. simpl. mstep.
    by rewrite Nat.add_0_r.
  - destruct (tokSpec t w k T) as [[b1 T1]|] eqn:H1; [|done].
    destruct (toksSpec ts w k T1) as [[b2 T2]|] eqn:H2; [|done].
    injection Hs as <- <-. cbn [writeTokens]. mstep.
    rewrite (writeToken_refines _ _ _ _ _ _ _ _ H1 Hk).
    rewrite (IH _ _ _ H2) by done. by rewrite addKeys_add.
Qed.

Lemma readTokens_refines ts w k T T' bs b n rest segs :
  toksSpec ts w k T = Some (bs, T') → (Tok.me ∈ ts → mask_ok k) →
  readTokens ts (party (negb w) T b, set_inSegs (pushSeg (bs ++ rest) segs) n) =
  (Ok tt, (party (negb w) T' b, set_inSegs (pushSeg rest segs) n)).
Proof using H0.
  revert T bs. induction ts as [|t ts IH]; intros T bs Hs Hm; simpl in Hs.
  - by injection Hs as <- <-.
  - destruct (tokSpec t w k T) as [[b1 T1]|] eqn:H1; [|done].
    destruct (toksSpec ts w k T1) as [[b2 T2]|] eqn:H2; [|done].
    injection Hs as <- <-. cbn [readTokens]. mstep.
    rewrite <- app_assoc. rewrite (readToken_refines _ _ _ _ _ _ _ _ _ _ H1)
      by (intros ->; apply Hm; left).
    apply IH; [done|]. intros Hin. apply Hm. by right.
Qed.

(** ** Payloads *)

Definition known_version (v : Z) : Prop :=
  v = HandshakeVersion0 ∨ v = HandshakeVersion1 ∨ v = HandshakeVersion2.

(** The bytes of the payload of act [act]. *)
Definition payloadSpec (v act : Z) (p : option bytes) (x : symmetricState) :
    option (bytes * symmetricState) :=
  let enc pt x := match EncryptAndHash pt x with
                  | (Ok ct, x') => Some (ct, x') | _ => None end in
  if (act =? act1) || (act =? act3) then enc [] x
  else if act =? act2 then
    if v =? HandshakeVersion0 then enc (fixedPayload p) x
    else if MaxInt32 <=? len (nilBytes p) then None
    else match enc (putUint32 (u32 (len (nilBytes p)))) x with
         | Some (hd, x1) =>
             match enc (nilBytes p) x1 with
             | Some (body, x2) => Some (hd ++ body, x2)
             | None => None
             end
         | None => None
         end
  else None.

(** What the initiator makes of the responder's payload. *)
Definition receivedFixed (p : option bytes) : bytes :=
  match p with
  | None => []
  | Some d => copy (replicate (Z.to_nat (u16 (len d))) 0)
                (copy (replicate 498 0) d)
  end.

Definition received (v : Z) (p : option bytes) : bytes :=
  if v =? HandshakeVersion0 then receivedFixed p else nilBytes p.

Lemma copy_app {A} (hd1 hd2 : list A) dst src :
  length hd1 = length hd2 →
  copy (hd1 ++ dst) (hd2 ++ src) = hd2 ++ copy dst src.
Proof using.
  intros Hl. unfold copy. rewrite !length_app.
  rewrite take_app_ge by lia. rewrite drop_app_ge by lia.
  replace (length hd1 + length dst - length hd2)%nat with (length dst) by lia.
  replace (length hd2 + length src - length hd1)%nat with (length src) by lia.
  by rewrite app_assoc.
Qed.

Lemma fixedPayload_parts p :
  ∃ hd rest, fixedPayload p = hd ++ rest ∧ length hd = 2%nat
  ∧ length rest = 498%nat
  ∧ ∃ k, getUint16 hd = Ok k
  ∧ copy (replicate (Z.to_nat k) 0) rest = receivedFixed p.
Proof using.
  unfold fixedPayload. destruct p as [d|].
  - exists (putUint16 (u16 (len d))), (copy (replicate 498 0) d).
    change (replicate (Z.to_nat ActTwoPayloadSize) 0)
      with ([0; 0] ++ replicate 498 0).
    rewrite copy_app by done. split_and!; try done.
    + by rewrite length_copy, length_replicate.
    + exists (u16 (len d)). rewrite <- (app_nil_r (putUint16 _)).
      rewrite getUint16_put; [done|]. unfold u16. apply Z.mod_pos_bound. lia.
  - exists [0; 0], (replicate 498 0). split_and!; try done.
    exists 0. done.
Qed.

(** In version 0 a payload of up to 498 bytes arrives as it was sent. *)
Lemma receivedFixed_small d : len d ≤ 498 → receivedFixed (Some d) = d.
Proof using.
  unfold receivedFixed, len. intros Hd.
  rewrite u16_small by lia. rewrite Nat2Z.id.
  assert (E : copy (replicate 498 0) d = d ++ drop (length d) (replicate 498 0)).
  { unfold copy. rewrite length_replicate, take_ge by lia. done. }
  rewrite E. unfold copy. rewrite length_replicate, take_app_length.
  rewrite drop_ge by (rewrite length_app, length_replicate; lia).
  apply app_nil_r.
Qed.

Lemma receivedFixed_cut d :
  498 < len d < 65536 →
  receivedFixed (Some d) = take 498 d ++ replicate (length d - 498) 0.
Proof using.
  intros Hd. unfold receivedFixed. rewrite u16_small by (unfold len in *; lia).
  unfold len. rewrite Nat2Z.id. unfold len in Hd.
  assert (E : copy (replicate 498 0) d = take 498 d).
  { unfold copy. rewrite length_replicate.
    rewrite drop_ge by (rewrite length_replicate; lia). apply app_nil_r. }
  rewrite E. unfold copy. rewrite length_replicate.
  rewrite take_ge by (rewrite length_take; lia). f_equal.
  rewrite length_take, drop_replicate. f_equal. lia.
Qed.

Lemma receivedFixed_long d :
  len (receivedFixed (Some d)) = len d mod 65536.
Proof using.
  unfold receivedFixed, len at 1. rewrite length_copy, length_replicate.
  unfold u16. pose proof (Z.mod_pos_bound (len d) 65536). lia.
Qed.

Lemma received_intact v p :
  v ≠ HandshakeVersion0 ∨ len (nilBytes p) ≤ 498 → received v p = nilBytes p.
Proof using.
  unfold received. destruct (Z.eqb_spec v HandshakeVersion0); [|done].
  intros [?|Hl]; [done|]. destruct p as [d|]; [by apply receivedFixed_small|done].
Qed.

Lemma onSym_run {A} (m : M symmetricState A) h n r x' :
  m (sym h) = (r, x') → onSym m (h, n) = (r, (set_sym x' h, n)).
Proof using. intros Hm. unfold onSym. simpl. by rewrite Hm. Qed.

Lemma set_sym_party i T b x' :
  set_sym x' (party i T b) = party i (set_tsym x' T) b.
Proof using. by destruct i. Qed.

Lemma onSym_party {A} (m : M symmetricState A) i T b n r x' :
  m (tr_sym T) = (r, x') →
  onSym m (party i T b, n) = (r, (party i (set_tsym x' T) b, n)).
Proof using. intros Hm. rewrite <- set_sym_party. by apply onSym_run. Qed.

(** Reading and decrypting one ciphertext. *)
Lemma read_decrypt pt ct k h x' n rest segs {A} (f : bytes → M HS A) :
  EncryptAndHash pt (sym h) = (Ok ct, x') → len pt + macSize = k →
  (c ← netRead k; p ← onSym (DecryptAndHash c); f p)
    (h, set_inSegs (pushSeg (ct ++ rest) segs) n) =
  f pt (set_sym x' h, set_inSegs (pushSeg rest segs) n).
Proof using H0.
  intros He Hk. apply Encrypt_Decrypt in He as [Hd Hl]. mstep.
  pose proof (len_nonneg pt).
  rewrite netRead_exact by (unfold macSize in *; lia).
  rewrite (onSym_run _ _ _ _ _ Hd). done.
Qed.

Lemma writePayload_spec v act h pb x' n :
  known_version v → version h = v →
  payloadSpec v act (payloadToSend h) (sym h) = Some (pb, x') →
  writePayload act (h, n) = (Ok pb, (set_sym x' h, n)).
Proof using.
  intros Hv Hb Hs. unfold writePayload, getH. mstep. simpl. rewrite Hb.
  unfold payloadSpec in Hs.
  assert (Henc : ∀ pt ct x', match EncryptAndHash pt (sym h) with
      | (Ok ct, x') => Some (ct, x') | _ => None end = Some (ct, x') →
    onSym (EncryptAndHash pt) (h, n) = (Ok ct, (set_sym x' h, n))).
  { intros pt ct x0 He. destruct (EncryptAndHash pt (sym h))
      as [[ct'| |] x''] eqn:E; try done. injection He as <- <-.
    by apply onSym_run. }
  destruct ((act =? act1) || (act =? act3)).
  { destruct Hv as [->|[->| ->]]; simpl; by apply Henc. }
  destruct (act =? act2); [|done].
  destruct (Z.eqb_spec v HandshakeVersion0) as [He|He].
  { by apply Henc. }
  assert ((v =? HandshakeVersion1) || (v =? HandshakeVersion2) = true) as ->
    by (destruct Hv as [?|[->| ->]]; done).
  destruct (MaxInt32 <=? _); [done|].
  destruct (EncryptAndHash (putUint32 _) (sym h)) as [[hd| |] x1] eqn:E1;
    try done.
  destruct (EncryptAndHash (nilBytes _) x1) as [[body| |] x2] eqn:E2; try done.
  injection Hs as <- <-. rewrite (onSym_run _ _ _ _ _ E1).
  rewrite (onSym_run _ (set_sym x1 h) _ _ _ E2). done.
Qed.

Lemma readPayload_spec v act p h pb x' n segs :
  known_version v →
  payloadSpec v act p (sym h) = Some (pb, x') →
  readPayload v act (h, set_inSegs (pushSeg pb segs) n) =
  (Ok tt, (if act =? act2
           then set_receivedPayload (Some (received v p)) (set_sym x' h)
           else set_sym x' h,
   set_inSegs segs n)).
Proof using H0.
  intros Hv Hs. unfold payloadSpec in Hs. unfold readPayload.
  rewrite <- (app_nil_r pb).
  change (set_inSegs segs n) with (set_inSegs (pushSeg [] segs) n).
  destruct ((act =? act1) || (act =? act3)) eqn:H13.
  { assert (H2 : (act =? act2) = false).
    { unfold act1, act2, act3 in *. apply orb_true_iff in H13 as [?|?]; lia. }
    destruct (EncryptAndHash [] (sym h)) as [[ct| |] x1] eqn:E; try done.
    injection Hs as -> ->. rewrite H2.
    destruct (Z.eqb_spec v HandshakeVersion0) as [He|He].
    - rewrite (read_decrypt _ _ _ _ _ _ _ _ _ E) by done. done.
    - assert ((v =? HandshakeVersion1) || (v =? HandshakeVersion2) = true) as ->
        by (destruct Hv as [?|[->| ->]]; done).
      mstep. pose proof (read_decrypt [] pb macSize h x' n [] segs
        (λ auth, if act =? 2 then modH (set_receivedPayload (Some auth))
                 else mret tt) E eq_refl) as Hr.
      revert Hr. mstep. intros ->. unfold act2 in H2. by rewrite H2. }
  destruct (act =? act2) eqn:H2; [|done].
  assert (Hact : act = act2) by lia. unfold received.
  destruct (Z.eqb_spec v HandshakeVersion0) as [He|He].
  - destruct (EncryptAndHash (fixedPayload p) (sym h)) as [[ct| |] x1] eqn:E;
      try done. injection Hs as -> ->.
    destruct (fixedPayload_parts p) as (hd & rest & Hf & Hh & Hr & k & Hk & Hc).
    assert (Hlen : len (fixedPayload p) = 500)
      by (rewrite Hf; unfold len; rewrite length_app; lia).
    rewrite (read_decrypt _ _ _ _ _ _ _ _ _ E) by (by rewrite Hlen).
    rewrite Hlen. simpl (500 =? 0). cbv iota. mstep.
    rewrite !slice_ok by (unfold lengthHeaderSize; lia).
    rewrite Hf. change (Z.to_nat 0) with 0%nat. rewrite drop_0.
    change (Z.to_nat (lengthHeaderSize - 0)) with 2%nat.
    change (Z.to_nat lengthHeaderSize) with 2%nat.
    rewrite take_app_length', drop_app_length' by done. rewrite Hk.
    rewrite take_ge by (rewrite Hr; vm_compute; lia).
    destruct (Z.eqb_spec (len rest) 0); [unfold len in *; lia|].
    by rewrite Hc.
  - assert ((v =? HandshakeVersion1) || (v =? HandshakeVersion2) = true) as ->
      by (destruct Hv as [?|[->| ->]]; done).
    destruct (Z.leb_spec MaxInt32 (len (nilBytes p))) as [|Hmax]; [done|].
    destruct (EncryptAndHash (putUint32 _) (sym h)) as [[hd| |] x1] eqn:E1;
      try done.
    destruct (EncryptAndHash (nilBytes p) x1) as [[body| |] x2] eqn:E2; try done.
    injection Hs as <- <-. rewrite <- app_assoc.
    pose proof (read_decrypt _ hd (4 + macSize) h x1 n (body ++ []) segs
      (λ lenBytes, k ← liftR (getUint32 lenBytes); mret (u32 (macSize + k)))
      E1 eq_refl) as Hr1.
    pose proof (len_nonneg (nilBytes p)). unfold MaxInt32 in Hmax.
    rewrite <- (app_nil_r (putUint32 _)) in Hr1 at 1.
    revert Hr1. mstep. intros ->.
    rewrite getUint32_put by (unfold u32; apply Z.mod_pos_bound; lia).
    rewrite (u32_small (len _)) by lia.
    rewrite u32_small by (unfold macSize; lia).
    pose proof (read_decrypt (nilBytes p) body (macSize + len (nilBytes p))
      (set_sym x1 h) x2 n [] segs
      (λ auth, if act =? 2 then modH (set_receivedPayload (Some auth))
               else mret tt) E2 ltac:(lia)) as Hr2.
    revert Hr2. mstep. intros ->. unfold act2 in H2. rewrite H2.
    done.
Qed.

Lemma writePayload_refines v act w T b pb x' n :
  known_version v → version b = v →
  payloadSpec v act (payloadToSend b) (tr_sym T) = Some (pb, x') →
  writePayload act (party w T b, n) = (Ok pb, (party w (set_tsym x' T) b, n)).
Proof using.
  intros Hv Hb Hs. rewrite <- set_sym_party. by apply (writePayload_spec v).
Qed.

Lemma readPayload_refines v act p j T b pb x' n segs :
  known_version v →
  payloadSpec v act p (tr_sym T) = Some (pb, x') →
  readPayload v act (party j T b, set_inSegs (pushSeg pb segs) n) =
  (Ok tt, (party j (set_tsym x' T)
     (if act =? act2 then set_receivedPayload (Some (received v p)) b else b),
   set_inSegs segs n)).
Proof using H0.
  intros Hv Hs. rewrite (readPayload_spec v act p _ pb x') by done.
  by destruct (act =? act2), j.
Qed.

(** An act two payload is never empty, so it is a segment of its own. *)
Lemma pushSeg_payload v p x pb x' segs :
  payloadSpec v act2 p x = Some (pb, x') → pushSeg pb segs = pb :: segs.
Proof using H0.
  intros Hs. unfold pushSeg. case_decide as Hn; [|done]. subst pb. exfalso.
  unfold payloadSpec in Hs. simpl in Hs.
  assert (Hne : ∀ pt x ct x', EncryptAndHash pt x = (Ok ct, x') → ct ≠ []).
  { intros pt x0 ct x1 [_ Hl]%Encrypt_Decrypt ->. pose proof (len_nonneg pt).
    unfold macSize, len in *. simpl in Hl. lia. }
  destruct (v =? HandshakeVersion0).
  - destruct (EncryptAndHash _ x) as [[ct| |] x1] eqn:E; try done.
    injection Hs as -> ->. by apply Hne in E.
  - destruct (MaxInt32 <=? _); [done|].
    destruct (EncryptAndHash _ x) as [[hd| |] x1] eqn:E; try done.
    destruct (EncryptAndHash _ x1) as [[body| |] x2] eqn:E2; try done.
    injection Hs as Happ _. apply app_eq_nil in Happ as [-> _].
    by apply Hne in E.
Qed.

(** ** Acts *)

(** The message of an act, sent with version [v] and payload [p] by a side
    whose generator yields [k]. *)
Definition actSpec (mp : MessagePattern) (v : Z) (p : option bytes)
    (k : SingleKeyECDH) T : option (bytes * transcript) :=
  match toksSpec (Tokens mp) (mpInitiator mp) k T with
  | Some (tb, T1) =>
      match payloadSpec v (mpActNum mp) p (tr_sym T1) with
      | Some (pb, x) => Some ([v] ++ tb ++ pb, set_tsym x T1)
      | None => None
      end
  | None => None
  end.

(** The writer's network afterwards. *)
Definition sent (mp : MessagePattern) (msg : bytes) (n : netio) : netio :=
  mkNet (inSegs n) (outSegs n ++ [msg]) (writeErr n) (keyGen n)
    (keysMade n + gensOf (Tokens mp)).

Lemma writeMsgPattern_refines mp v k T T' b msg n :
  known_version v → version b = v →
  actSpec mp v (payloadToSend b) k T = Some (msg, T') →
  (∀ j, keyGen n j = Ok k) → (∀ j, writeErr n j = None) →
  writeMsgPattern mp (party (mpInitiator mp) T b, n) =
  (Ok tt, (party (mpInitiator mp) T' b, sent mp msg n)).
Proof using H0.
  intros Hv Hb Hs Hk Hw. unfold actSpec in Hs.
  destruct (toksSpec _ _ k T) as [[tb T1]|] eqn:Ht; [|done].
  destruct (payloadSpec _ _ _ _) as [[pb x]|] eqn:Hp; [|done].
  injection Hs as <- <-. unfold writeMsgPattern, getH. mstep.
  rewrite (writeTokens_refines _ _ _ _ _ _ _ _ Ht Hk).
  rewrite (writePayload_refines _ _ _ _ _ _ _ _ Hv Hb Hp).
  unfold netWrite. simpl. rewrite Hw, Hb. done.
Qed.

(** The version a reader accepts, and its fields afterwards. *)
Definition accepts (act v : Z) (b : handshakeState) : Prop :=
  if (act =? act1) || (act =? act2) then minVersion b ≤ v ≤ maxVersion b
  else act = act3 ∧ v = version b.

Definition afterRead (i : bool) (act v : Z) (p : option bytes)
    (b : handshakeState) : handshakeState :=
  let b := if ((act =? act1) || (act =? act2)) && i then set_version v b
           else b in
  if act =? act2 then set_receivedPayload (Some (received v p)) b else b.

Lemma checkVersion_ok i act v T b n :
  accepts act v b →
  checkVersion v act (party i T b, n) =
  (Ok tt, (party i T (if ((act =? act1) || (act =? act2)) && i
                      then set_version v b else b), n)).
Proof using.
  unfold accepts, checkVersion, getH, modH. intros Ha. mstep. simpl.
  destruct ((act =? act1) || (act =? act2)).
  - destruct (Z.ltb_spec v (minVersion b)); [lia|].
    destruct (Z.ltb_spec (maxVersion b) v); [lia|]. simpl. by destruct i.
  - destruct Ha as [-> ->]. simpl. by rewrite Z.eqb_refl.
Qed.

Lemma readMsgPattern_refines mp v p k T T' b msg segs n :
  known_version v → accepts (mpActNum mp) v b →
  actSpec mp v p k T = Some (msg, T') →
  (Tok.me ∈ Tokens mp → mask_ok k) →
  readMsgPattern mp (party (negb (mpInitiator mp)) T b,
                     set_inSegs (msg :: segs) n) =
  (Ok tt, (party (negb (mpInitiator mp)) T'
             (afterRead (negb (mpInitiator mp)) (mpActNum mp) v p b),
           set_inSegs segs n)).
Proof using H0.
  intros Hv Ha Hs Hm. unfold actSpec in Hs.
  destruct (toksSpec _ _ k T) as [[tb T1]|] eqn:Ht; [|done].
  destruct (payloadSpec _ _ _ _) as [[pb x]|] eqn:Hp; [|done].
  injection Hs as <- <-. unfold readMsgPattern. mstep.
  change ((v :: tb ++ pb) :: segs) with (pushSeg ([v] ++ tb ++ pb) segs).
  rewrite netRead_exact by done. change (index [v] 0) with (Ok v). cbv iota beta.
  rewrite checkVersion_ok by done.
  rewrite (readTokens_refines _ _ _ _ _ _ _ _ _ _ Ht Hm).
  rewrite (readPayload_refines _ _ _ _ _ _ _ _ _ _ Hv Hp). done.
Qed.

(** A read that the network answers with fewer bytes: the rest of the buffer
    stays zero and nothing notices. *)
Lemma netRead_short seg segs k h n :
  0 < len seg < k →
  netRead k (h, set_inSegs (seg :: segs) n) =
  (Ok (seg ++ replicate (Z.to_nat k - length seg) 0), (h, set_inSegs segs n)).
Proof using.
  intros Hl. unfold len in Hl. destruct seg as [|c seg]; [simpl in Hl; lia|].
  unfold netRead. cbn [inSegs set_inSegs].
  rewrite drop_ge, take_ge by lia. case_decide; [|done].
  unfold copy. rewrite length_replicate, take_ge, drop_replicate by lia. done.
Qed.

(** The responder's act two, from version 1 on: a head of the version and the
    tokens, the encrypted length of the payload and the encrypted payload. *)
Lemma actSpec_parts mp v p k T msg T' :
  mpActNum mp = act2 → v ≠ HandshakeVersion0 →
  actSpec mp v p k T = Some (msg, T') →
  ∃ tb T1 hd body x1,
  toksSpec (Tokens mp) (mpInitiator mp) k T = Some (tb, T1)
  ∧ EncryptAndHash (putUint32 (u32 (len (nilBytes p)))) (tr_sym T1) = (Ok hd, x1)
  ∧ msg = ([v] ++ tb) ++ hd ++ body.
Proof using.
  unfold actSpec, payloadSpec. intros -> Hv Hs.
  destruct (toksSpec _ _ k T) as [[tb T1]|] eqn:Ht; [|done].
  simpl in Hs. destruct (Z.eqb_spec v HandshakeVersion0); [done|].
  destruct (MaxInt32 <=? _); [done|].
  destruct (EncryptAndHash (putUint32 _) _) as [[hd| |] x1] eqn:E1; try done.
  destruct (EncryptAndHash _ x1) as [[body| |] x2] eqn:E2; try done.
  injection Hs as <- <-. exists tb, T1, hd, body, x1.
  split_and!; [done..|]. done.
Qed.

(** When the network cuts the message inside the encrypted length, the reader
    decrypts what has arrived filled up with zeros, and gives up with the
    error of that decryption. *)
Lemma readMsgPattern_short mp v k T tb T1 b hd tl segs n e x' :
  known_version v → v ≠ HandshakeVersion0 → mpActNum mp = act2 →
  accepts (mpActNum mp) v b →
  toksSpec (Tokens mp) (mpInitiator mp) k T = Some (tb, T1) →
  (Tok.me ∈ Tokens mp → mask_ok k) → 0 < len hd < 20 →
  DecryptAndHash (hd ++ replicate (20 - length hd) 0) (tr_sym T1) = (Err e, x') →
  ∃ st, readMsgPattern mp (party (negb (mpInitiator mp)) T b,
          set_inSegs ((([v] ++ tb) ++ hd) :: tl :: segs) n) = (Err e, st).
Proof using H0.
  intros Hv Hv0 Hact Ha Ht Hm Hl Hd. unfold readMsgPattern. mstep.
  change ((([v] ++ tb) ++ hd) :: tl :: segs)
    with (pushSeg ([v] ++ (tb ++ hd)) (tl :: segs)).
  rewrite netRead_exact by done. change (index [v] 0) with (Ok v). cbv iota beta.
  rewrite checkVersion_ok by done.
  rewrite (readTokens_refines _ _ _ _ _ _ _ _ _ _ Ht Hm).
  unfold pushSeg. rewrite decide_False by (intros ->; unfold len in Hl; simpl in Hl; lia).
  rewrite Hact. unfold readPayload.
  destruct (Z.eqb_spec v HandshakeVersion0); [done|].
  assert ((v =? HandshakeVersion1) || (v =? HandshakeVersion2) = true) as ->
    by (destruct Hv as [?|[->| ->]]; done).
  change ((act2 =? act1) || (act2 =? act3)) with false.
  change (act2 =? act2) with true. cbv iota. mstep.
  rewrite netRead_short by done.
  rewrite (onSym_party _ _ _ _ _ _ _ Hd). by eexists.
Qed.

(** The same for one iteration of [DoHandshake]. *)
Lemma doAct_write mp v k T T' b msg n m :
  known_version v → version b = v →
  actSpec mp v (payloadToSend b) k T = Some (msg, T') →
  (∀ j, keyGen n j = Ok k) → (∀ j, writeErr n j = None) →
  doAct mp (set_handshake (party (mpInitiator mp) T b) m, n) =
  (Ok tt, (set_handshake (party (mpInitiator mp) T' b) m, sent mp msg n)).
Proof using H0.
  intros. unfold doAct, getM, onHandshake. mstep. simpl.
  rewrite Bool.eqb_reflx.
  rewrite (writeMsgPattern_refines mp v k T T' b msg) by done. done.
Qed.

Lemma doAct_read mp v p k T T' b msg segs n m :
  known_version v → accepts (mpActNum mp) v b →
  actSpec mp v p k T = Some (msg, T') →
  (Tok.me ∈ Tokens mp → mask_ok k) →
  doAct mp (set_handshake (party (negb (mpInitiator mp)) T b) m,
            set_inSegs (msg :: segs) n) =
  (Ok tt, (set_handshake (party (negb (mpInitiator mp)) T'
             (afterRead (negb (mpInitiator mp)) (mpActNum mp) v p b)) m,
           set_inSegs segs n)).
Proof using H0.
  intros. unfold doAct, getM, onHandshake. mstep. simpl.
  replace (Bool.eqb (mpInitiator mp) (negb (mpInitiator mp))) with false
    by (by destruct (mpInitiator mp)).
  rewrite (readMsgPattern_refines mp v p k T T' b msg segs) by done. done.
Qed.

Lemma doAct_short mp v k T tb T1 b hd tl segs n m e x' :
  known_version v → v ≠ HandshakeVersion0 → mpActNum mp = act2 →
  accepts (mpActNum mp) v b →
  toksSpec (Tokens mp) (mpInitiator mp) k T = Some (tb, T1) →
  (Tok.me ∈ Tokens mp → mask_ok k) → 0 < len hd < 20 →
  DecryptAndHash (hd ++ replicate (20 - length hd) 0) (tr_sym T1) = (Err e, x') →
  ∃ st, doAct mp (set_handshake (party (negb (mpInitiator mp)) T b) m,
          set_inSegs ((([v] ++ tb) ++ hd) :: tl :: segs) n) = (Err e, st).
Proof using H0.
  intros. unfold doAct, getM, onHandshake. mstep. simpl.
  replace (Bool.eqb (mpInitiator mp) (negb (mpInitiator mp))) with false
    by (by destruct (mpInitiator mp)).
  edestruct (readMsgPattern_short mp v k T tb T1 b hd tl segs n) as [[h1 n1] E];
    eauto. simpl in E. rewrite E. by eexists.
Qed.

(** ** The specification succeeds *)

Lemma secret_ok a c : ∃ h, secret a c = Some h.
Proof using H0. unfold secret. destruct (ecdh_ok a c) as [h ->]. eauto. Qed.

Lemma enc_ok pt x :
  has_cipher x → ∃ ct x', match EncryptAndHash pt x with
    | (Ok ct, x') => Some (ct, x') | _ => None end = Some (ct, x')
  ∧ has_cipher x'.
Proof using.
  intros Hc. destruct (EncryptAndHash_ok pt x Hc) as (ct & x' & -> & Hc').
  eauto.
Qed.

Lemma payloadSpec_ok v act p x :
  has_cipher x → act = act1 ∨ act = act2 ∨ act = act3 →
  len (nilBytes p) < MaxInt32 →
  ∃ pb x', payloadSpec v act p x = Some (pb, x') ∧ has_cipher x'.
Proof using.
  intros Hc Hact Hp. unfold payloadSpec.
  destruct Hact as [->|[->| ->]]; simpl; try by apply enc_ok.
  destruct (v =? HandshakeVersion0); [by apply enc_ok|].
  rewrite (proj2 (Z.leb_gt _ _)) by lia.
  destruct (enc_ok (putUint32 (u32 (len (nilBytes p)))) x Hc)
    as (hd & x1 & -> & Hc1).
  destruct (enc_ok (nilBytes p) x1 Hc1) as (body & x2 & -> & Hc2). eauto.
Qed.

Definition xx1 : MessagePattern := mkMP [Tok.me] true act1.
Definition xx2 : MessagePattern := mkMP [Tok.e; Tok.ee; Tok.s; Tok.es] false act2.
Definition xx3 : MessagePattern := mkMP [Tok.s; Tok.se] true act3.
Definition kk1 : MessagePattern := mkMP [Tok.e; Tok.es; Tok.ss] true act1.
Definition kk2 : MessagePattern := mkMP [Tok.e; Tok.ee; Tok.se] false act2.

(** An act succeeds when its tokens do. *)
Lemma actSpec_ok mp v p k T tb T1 :
  toksSpec (Tokens mp) (mpInitiator mp) k T = Some (tb, T1) →
  has_cipher (tr_sym T1) →
  mpActNum mp = act1 ∨ mpActNum mp = act2 ∨ mpActNum mp = act3 →
  len (nilBytes p) < MaxInt32 →
  ∃ msg x, actSpec mp v p k T = Some (msg, set_tsym x T1) ∧ has_cipher x.
Proof using.
  intros Ht Hc Ha Hp. unfold actSpec. rewrite Ht.
  destruct (payloadSpec_ok v _ p _ Hc Ha Hp) as (pb & x & -> & Hx). eauto.
Qed.

(** Evaluate the specification of a token sequence. *)
Ltac toks := cbn [Tokens mpInitiator xx1 xx2 xx3 kk1 kk2 toksSpec tokSpec tr_eI
  tr_eR tr_sym tr_iR tr_rI set_eph set_tsym set_knows negb stat andb].

Lemma xx1_ok v p k x :
  has_cipher x → len (nilBytes p) < MaxInt32 →
  ∃ msg x', actSpec xx1 v p k (mkT x None None false false)
    = Some (msg, mkT x' (Some k) None false false) ∧ has_cipher x'.
Proof using.
  intros Hc Hp.
  eapply (actSpec_ok xx1 v p k _ _ (mkT (mixHash (SerializeCompressed (PubKey k))
    x) (Some k) None false false)); [reflexivity|done|by left|done].
Qed.

Lemma xx2_ok v p k kI x :
  len (nilBytes p) < MaxInt32 →
  ∃ msg x', actSpec xx2 v p k (mkT x (Some kI) None false false)
    = Some (msg, mkT x' (Some kI) (Some k) true false) ∧ has_cipher x'.
Proof using H0.
  intros Hp.
  destruct (secret_ok kI k) as [h1 E1]. destruct (secret_ok kI sR) as [h2 E2].
  set (x1 := mixKey h1 (mixHash (SerializeCompressed (PubKey k)) x)).
  destruct (EncryptAndHash_ok (SerializeCompressed (PubKey sR)) x1
              (has_cipher_mixKey _ _)) as (ct & x2 & E3 & Hc2).
  eapply (actSpec_ok xx2 v p k _ _ (mkT (mixKey h2 x2) (Some kI) (Some k) true false));
    [|apply has_cipher_mixKey|by right; left|done].
  toks. rewrite E1. toks. fold x1. rewrite E3. toks. by rewrite E2.
Qed.

Lemma xx3_ok v p k kI kR x :
  has_cipher x → len (nilBytes p) < MaxInt32 →
  ∃ msg x', actSpec xx3 v p k (mkT x (Some kI) (Some kR) true false)
    = Some (msg, mkT x' (Some kI) (Some kR) true true) ∧ has_cipher x'.
Proof using H0.
  intros Hc Hp. destruct (secret_ok sI kR) as [h1 E1].
  destruct (EncryptAndHash_ok (SerializeCompressed (PubKey sI)) x Hc)
    as (ct & x2 & E3 & Hc2).
  eapply (actSpec_ok xx3 v p k _ _ (mkT (mixKey h1 x2) (Some kI) (Some kR) true true));
    [|apply has_cipher_mixKey|by right; right|done].
  toks. rewrite E3. toks. by rewrite E1.
Qed.

Lemma kk1_ok v p k x :
  len (nilBytes p) < MaxInt32 →
  ∃ msg x', actSpec kk1 v p k (mkT x None None true true)
    = Some (msg, mkT x' (Some k) None true true) ∧ has_cipher x'.
Proof using H0.
  intros Hp. destruct (secret_ok k sR) as [h1 E1].
  destruct (secret_ok sI sR) as [h2 E2].
  eapply (actSpec_ok kk1 v p k _ _ (mkT (mixKey h2 (mixKey h1 (mixHash
    (SerializeCompressed (PubKey k)) x))) (Some k) None true true));
    [|apply has_cipher_mixKey|by left|done].
  toks. rewrite E1. toks. by rewrite E2.
Qed.

Lemma kk2_ok v p k kI x :
  len (nilBytes p) < MaxInt32 →
  ∃ msg x', actSpec kk2 v p k (mkT x (Some kI) None true true)
    = Some (msg, mkT x' (Some kI) (Some k) true true) ∧ has_cipher x'.
Proof using H0.
  intros Hp. destruct (secret_ok kI k) as [h1 E1].
  destruct (secret_ok sI k) as [h2 E2].
  eapply (actSpec_ok kk2 v p k _ _ (mkT (mixKey h2 (mixKey h1 (mixHash
    (SerializeCompressed (PubKey k)) x))) (Some kI) (Some k) true true));
    [|apply has_cipher_mixKey|by right; left|done].
  toks. rewrite E1. toks. by rewrite E2.
Qed.

End Transcript.

(** ** Both handshakes *)

(** A network whose writes succeed and a generator that yields [k]. *)
Definition newNet `{Crypto} (segs : list bytes) (k : SingleKeyECDH) : netio :=
  mkNet segs [] (λ _, None) (λ _, Ok k) 0.

(** A finished network: everything read, these segments written. *)
Definition wrote `{Crypto} (segs : list bytes) (n : netio) : Prop :=
  inSegs n = [] ∧ outSegs n = segs.

Lemma no_me (ts : list Token) (P : Prop) :
  existsb (λ t, match t with Tok.me => true | _ => false end) ts = false →
  Tok.me ∈ ts → P.
Proof.
  intros Hf Hin. apply list_elem_of_In in Hin. exfalso.
  rewrite <- not_true_iff_false, existsb_exists in Hf. apply Hf. eauto.
Qed.

Section Runs.
Context `{CryptoLaws}.
Context (sI sR : SingleKeyECDH) (pw : bytes) (kI kR : SingleKeyECDH).
Context (bI bR : handshakeState).
Context (HvI : known_version (version bI)) (HvR : known_version (version bR)).
Context (Hacc1 : accepts act1 (version bI) bR).
Context (Hacc2 : accepts act2 (version bR) bI).
Context (HpI : len (nilBytes (payloadToSend bI)) < MaxInt32).
Context (HpR : len (nilBytes (payloadToSend bR)) < MaxInt32).

Abbreviation bI' :=
  (afterRead true act2 (version bR) (payloadToSend bR) bI).
Abbreviation partyI := (party sI sR pw true).
Abbreviation partyR := (party sI sR pw false).

(** The initiator of an XX handshake, for which [fails n e] says that it gives
    up with error [e] on the network [n], does so on an act two [m2] that the
    network cuts inside the encrypted length of its payload [p], when the part
    that arrived, filled up with zeros, does not decrypt in the state in which
    that length was encrypted. *)
Definition short_act2_fails (fails : netio → error → Prop)
    (p : option bytes) (m2 : bytes) : Prop :=
  ∃ head hd body x x1, m2 = head ++ hd ++ body
  ∧ EncryptAndHash (putUint32 (u32 (len (nilBytes p)))) x = (Ok hd, x1)
  ∧ ∀ j e x', (0 < j < 20)%nat →
    DecryptAndHash (take j hd ++ replicate (20 - j) 0) x = (Err e, x') →
    fails (newNet [head ++ take j hd; drop j hd ++ body] kI) e.

Lemma xx_short mI x m1 T1 m2 T2 :
  actSpec sI sR pw xx1 (version bI) (payloadToSend bI) kI
    (mkT x None None false false) = Some (m1, T1) →
  actSpec sI sR pw xx2 (version bR) (payloadToSend bR) kR T1 = Some (m2, T2) →
  version bR ≠ HandshakeVersion0 →
  short_act2_fails (λ n e, ∃ st, doActs (Pattern XXPattern) (set_handshake
    (partyI (mkT x None None false false) bI) mI, n) = (Err e, st))
    (payloadToSend bR) m2.
Proof using All.
  intros E1 E2 Hv0.
  destruct (actSpec_parts sI sR pw xx2 _ _ _ _ _ _ eq_refl Hv0 E2)
    as (tb & T & hd & body & xh & Ht & Eh & ->).
  exists ([version bR] ++ tb), hd, body, (tr_sym T), xh.
  split_and!; [done..|]. intros j e xe Hj Hd.
  pose proof (Encrypt_Decrypt _ _ _ _ Eh) as [_ Hlh].
  change (len (putUint32 _) + macSize) with 20 in Hlh. unfold len in Hlh.
  change (Pattern XXPattern) with [xx1; xx2; xx3]. cbn [doActs]. mstep.
  rewrite (doAct_write _ _ pw xx1 _ _ _ _ bI m1 _ mI HvI eq_refl E1) by done.
  set (n1 := sent xx1 m1 _).
  destruct (doAct_short sI sR pw xx2 (version bR) kR
    T1 tb T bI (take j hd)
    (drop j hd ++ body) [] n1 mI e xe) as [st Est]; try done.
  { by apply no_me. }
  { unfold len. rewrite length_take. lia. }
  { rewrite length_take, Nat.min_l by lia. exact Hd. }
  change n1 with (set_inSegs [([version bR] ++ tb) ++ take j hd;
    drop j hd ++ body] n1) at 1. change (negb (mpInitiator xx2)) with true in Est.
  change (mpInitiator xx1) with true. rewrite Est. by eexists.
Qed.

Lemma xx_run mI mR x :
  has_cipher x → mask_ok pw kI →
  ∃ m1 m2 m3 nI nR x', wrote [m1; m3] nI ∧ wrote [m2] nR ∧ has_cipher x'
  ∧ doActs (Pattern XXPattern) (set_handshake
      (partyI (mkT x None None false false) bI) mI, newNet [m2] kI) =
    (Ok tt, (set_handshake
      (partyI (mkT x' (Some kI) (Some kR) true true) bI') mI, nI))
  ∧ doActs (Pattern XXPattern) (set_handshake
      (partyR (mkT x None None false false) bR) mR, newNet [m1; m3] kR) =
    (Ok tt, (set_handshake
      (partyR (mkT x' (Some kI) (Some kR) true true) bR) mR, nR))
  ∧ (version bR ≠ HandshakeVersion0 → short_act2_fails (λ n e, ∃ st,
      doActs (Pattern XXPattern) (set_handshake
        (partyI (mkT x None None false false) bI) mI, n) = (Err e, st))
      (payloadToSend bR) m2).
Proof using All.
  intros Hc Hm.
  destruct (xx1_ok sI sR pw (version bI) (payloadToSend bI) kI x Hc HpI)
    as (m1 & x1 & E1 & Hc1).
  destruct (xx2_ok sI sR pw (version bR) (payloadToSend bR) kR kI x1 HpR)
    as (m2 & x2 & E2 & Hc2).
  destruct (xx3_ok sI sR pw (version bR) (payloadToSend bI) kI kI kR x2 Hc2 HpI)
    as (m3 & x3 & E3 & Hc3).
  exists m1, m2, m3.
  exists (sent xx3 m3 (set_inSegs [] (sent xx1 m1 (newNet [m2] kI)))).
  exists (set_inSegs [] (sent xx2 m2 (set_inSegs [m3] (newNet [m1; m3] kR)))).
  exists x3. split_and!; [done|done|done| | |].
  - change (Pattern XXPattern) with [xx1; xx2; xx3]. cbn [doActs]. mstep.
    rewrite (doAct_write _ _ pw xx1 _ _ _ _ bI m1 _ mI HvI eq_refl E1) by done.
    change (sent xx1 m1 (newNet [m2] kI))
      with (set_inSegs [m2] (sent xx1 m1 (newNet [m2] kI))) at 1.
    rewrite (doAct_read _ _ pw xx2 _ _ _ _ _ bI m2 [] _ mI HvR Hacc2 E2)
      by (by apply no_me).
    rewrite (doAct_write _ _ pw xx3 (version bR) kI _ _ bI' m3 _ mI HvR eq_refl E3)
      by done. done.
  - change (Pattern XXPattern) with [xx1; xx2; xx3]. cbn [doActs]. mstep.
    change (newNet [m1; m3] kR) with (set_inSegs [m1; m3] (newNet [m1; m3] kR)) at 1.
    rewrite (doAct_read _ _ pw xx1 _ _ _ _ _ bR m1 [m3] _ mR HvI Hacc1 E1) by done.
    rewrite (doAct_write _ _ pw xx2 (version bR) kR _ _ bR m2 _ mR HvR eq_refl E2)
      by done.
    change (sent xx2 m2 (set_inSegs [m3] (newNet [m1; m3] kR)))
      with (set_inSegs [m3] (sent xx2 m2 (set_inSegs [m3] (newNet [m1; m3] kR))))
      at 1.
    rewrite (doAct_read _ _ pw xx3 _ _ _ _ _ bR m3 [] _ mR HvR (conj eq_refl eq_refl) E3)
      by (by apply no_me).
    done.
  - by apply (xx_short _ _ _ _ _ _ E1 E2).
Qed.

Lemma kk_run mI mR x :
  ∃ m1 m2 nI nR x', wrote [m1] nI ∧ wrote [m2] nR ∧ has_cipher x'
  ∧ doActs (Pattern KKPattern) (set_handshake
      (partyI (mkT x None None true true) bI) mI, newNet [m2] kI) =
    (Ok tt, (set_handshake
      (partyI (mkT x' (Some kI) (Some kR) true true) bI') mI, nI))
  ∧ doActs (Pattern KKPattern) (set_handshake
      (partyR (mkT x None None true true) bR) mR, newNet [m1] kR) =
    (Ok tt, (set_handshake
      (partyR (mkT x' (Some kI) (Some kR) true true) bR) mR, nR)).
Proof using All.
  destruct (kk1_ok sI sR pw (version bI) (payloadToSend bI) kI x HpI)
    as (m1 & x1 & E1 & Hc1).
  destruct (kk2_ok sI sR pw (version bR) (payloadToSend bR) kR kI x1 HpR)
    as (m2 & x2 & E2 & Hc2).
  exists m1, m2, (set_inSegs [] (sent kk1 m1 (newNet [m2] kI))).
  exists (sent kk2 m2 (set_inSegs [] (newNet [m1] kR))).
  exists x2. split_and!; [done|done|done| |].
  - change (Pattern KKPattern) with [kk1; kk2]. cbn [doActs]. mstep.
    rewrite (doAct_write _ _ pw kk1 _ _ _ _ bI m1 _ mI HvI eq_refl E1) by done.
    change (sent kk1 m1 (newNet [m2] kI))
      with (set_inSegs [m2] (sent kk1 m1 (newNet [m2] kI))) at 1.
    rewrite (doAct_read _ _ pw kk2 _ _ _ _ _ bI m2 [] _ mI HvR Hacc2 E2)
      by (by apply no_me).
    done.
  - change (Pattern KKPattern) with [kk1; kk2]. cbn [doActs]. mstep.
    change (newNet [m1] kR) with (set_inSegs [m1] (newNet [m1] kR)) at 1.
    rewrite (doAct_read _ _ pw kk1 _ _ _ _ _ bR m1 [] _ mR HvI Hacc1 E1)
      by (by apply no_me).
    rewrite (doAct_write _ _ pw kk2 (version bR) kR _ _ bR m2 _ mR HvR eq_refl E2)
      by done. done.
Qed.

End Runs.

Section Final.
Context `{CryptoLaws}.

Definition callbacks_ok (c : ConnData) : Prop :=
  (∀ k, callback (onRemoteStatic c) k = Ok tt)
  ∧ (∀ d, callback (onAuthData c) d = Ok tt).

(** The machine after a completed handshake. *)
Definition completed (h : handshakeState) (m : Machine) : Machine :=
  let m := split (set_handshake h m) in
  let c := connData m in
  let c := if HandshakeVersion2 <=? version h
           then mkConnData (localKey c) (remoteStatic h)
                  (cd_passphraseEntropy c) (authData c) (onRemoteStatic c)
                  (onAuthData c)
           else c in
  let c := if initiator h
           then mkConnData (localKey c) (remoteKey c)
                  (cd_passphraseEntropy c) (receivedPayload h)
                  (onRemoteStatic c) (onAuthData c)
           else c in
  set_connData c m.

Lemma DoHandshake_fails m n e st :
  doActs (Pattern (pattern (handshake m))) (m, n) = (Err e, st) →
  DoHandshake (m, n) = (Err e, st).
Proof using. intros Hd. unfold DoHandshake, getM. mstep. simpl. by rewrite Hd. Qed.

Lemma DoHandshake_completes m n h n' :
  doActs (Pattern (pattern (handshake m))) (m, n) =
    (Ok tt, (set_handshake h m, n')) →
  callbacks_ok (connData m) →
  DoHandshake (m, n) = (Ok tt, (completed h m, n')).
Proof using.
  intros Hd [Hr Ha]. unfold DoHandshake, getM, modM, onConnData. mstep.
  simpl. rewrite Hd. unfold completed, SetRemote, SetAuthData, split. mstep.
  simpl. destruct (initiator h) eqn:Hi; simpl; rewrite Hi;
    destruct (HandshakeVersion2 <=? version h); simpl; rewrite ?Hr; simpl;
    rewrite ?Ha; try done.
Qed.

(** What two finished machines share. *)
Record agreed (v : Z) (cdI cdR : ConnData) (mI mR : Machine) : Prop := {
  ag_send : sendCipher mI = recvCipher mR;
  ag_recv : recvCipher mI = sendCipher mR;
  ag_cipher : is_Some (cipher (sendCipher mI)) ∧ is_Some (cipher (recvCipher mI));
  ag_digest : handshakeDigest (sym (handshake mI)) =
              handshakeDigest (sym (handshake mR))
              ∧ chainingKey (sym (handshake mI)) =
                chainingKey (sym (handshake mR));
  ag_version : version (handshake mI) = v ∧ version (handshake mR) = v;
  ag_remoteI : remoteStatic (handshake mI) = Some (PubKey (localKey cdR));
  ag_remoteR : remoteStatic (handshake mR) = Some (PubKey (localKey cdI));
  ag_auth : authData (connData mI) = Some (received v (authData cdR));
  ag_keys : HandshakeVersion2 ≤ v →
    remoteKey (connData mI) = Some (PubKey (localKey cdR))
    ∧ remoteKey (connData mR) = Some (PubKey (localKey cdI));
  ag_local : localKey (connData mI) = localKey cdI
             ∧ localKey (connData mR) = localKey cdR;
  ag_calls : onRemoteStatic (connData mI) = onRemoteStatic cdI
             ∧ onAuthData (connData mI) = onAuthData cdI
             ∧ onRemoteStatic (connData mR) = onRemoteStatic cdR
             ∧ onAuthData (connData mR) = onAuthData cdR;
  ag_authR : authData (connData mR) = authData cdR;
  ag_idle : nextHeaderSend mI = [] ∧ nextBodySend mI = []
            ∧ nextHeaderSend mR = [] ∧ nextBodySend mR = []
}.

Lemma completed_agreed sI sR pw x kI kR bI bR v mI mR cdI cdR p :
  sI = localKey cdI → sR = localKey cdR → p = authData cdR →
  connData mI = cdI → connData mR = cdR →
  version bI = v → version bR = v → receivedPayload bI = Some (received v p) →
  nextHeaderSend mI = [] → nextBodySend mI = [] →
  nextHeaderSend mR = [] → nextBodySend mR = [] →
  let T := mkT x (Some kI) (Some kR) true true in
  agreed v cdI cdR (completed (party sI sR pw true T bI) mI)
                   (completed (party sI sR pw false T bR) mR).
Proof using.
  intros -> -> -> Hcm Hcr Hv1 Hv2 Hrp. intros ? ? ? ? T.
  subst cdI cdR.
  constructor; simpl; rewrite ?Hv1, ?Hv2; try done.
  - intros Hle. rewrite (proj2 (Z.leb_le _ _) Hle). done.
  - by destruct (HandshakeVersion2 <=? v).
  - by destruct (HandshakeVersion2 <=? v).
  - by destruct (HandshakeVersion2 <=? v).
Qed.

(** The machines before an XX handshake are two views of one transcript. *)
Lemma xx_machine cd (init : bool) minV maxV pw (peer : SingleKeyECDH) :
  remoteKey cd = None →
  stretchPassphrase (cd_passphraseEntropy cd) = Ok pw →
  ∃ m, NewBrontideMachine cd init XXPattern minV maxV = Ok m
  ∧ connData m = cd ∧ nextHeaderSend m = [] ∧ nextBodySend m = []
  ∧ pattern (handshake m) = XXPattern
  ∧ version (handshake m) = (if init then minV else maxV)
  ∧ minVersion (handshake m) = minV ∧ maxVersion (handshake m) = maxV
  ∧ payloadToSend (handshake m) = authData cd
  ∧ m = set_handshake (party (if init then localKey cd else peer)
          (if init then peer else localKey cd) pw init
          (mkT (mixHash lightningNodeConnectPrologue (InitializeSymmetric
             (protocolName XXPattern) newSymmetricState)) None None false false)
          (handshake m)) m.
Proof using.
  intros Hr Hs. eexists. split.
  - unfold NewBrontideMachine. simpl. rewrite Hs, Hr. reflexivity.
  - split_and!; try reflexivity. simpl. by destruct init.
Qed.

Lemma kk_machine cd (init : bool) minV maxV (peer : SingleKeyECDH) :
  remoteKey cd = Some (PubKey peer) → minV ≤ 2 → 2 ≤ maxV →
  let sI := if init then localKey cd else peer in
  let sR := if init then peer else localKey cd in
  ∃ m, NewBrontideMachine cd init KKPattern minV maxV = Ok m
  ∧ connData m = cd ∧ nextHeaderSend m = [] ∧ nextBodySend m = []
  ∧ pattern (handshake m) = KKPattern
  ∧ version (handshake m) = (if init then 2 else maxV)
  ∧ minVersion (handshake m) = 2 ∧ maxVersion (handshake m) = maxV
  ∧ payloadToSend (handshake m) = authData cd
  ∧ m = set_handshake (party sI sR [] init
          (mkT (mixHash (SerializeCompressed (PubKey sR))
            (mixHash (SerializeCompressed (PubKey sI))
            (mixHash lightningNodeConnectPrologue (InitializeSymmetric
             (protocolName KKPattern) newSymmetricState)))) None None true true)
          (handshake m)) m.
Proof using.
  intros Hr Hmin Hmax sI sR. unfold NewBrontideMachine. simpl.
  unfold HandshakeVersion2. rewrite (proj2 (Z.ltb_ge _ _)) by lia.
  assert (Hm : (if minV <? 2 then 2 else minV) = 2) by (case_if; lia).
  rewrite Hm, Hr. unfold newHandshakeState. subst sI sR.
  destruct init; simpl; eexists; split; try reflexivity;
    split_and!; reflexivity.
Qed.

(** Two sides that can agree: the initiator opens with its lowest version,
    which the responder must support, and the responder answers with its
    highest, which the initiator must support. *)
Record compatible (minI maxI minR maxR : Z) : Prop := {
  co_open : known_version minI ∧ minR ≤ minI ≤ maxR;
  co_answer : known_version maxR ∧ minI ≤ maxR ≤ maxI
}.

(** Payloads short enough for a version 1 or 2 message. *)
Definition sendable (c : ConnData) : Prop :=
  len (nilBytes (authData c)) < MaxInt32.

Section XX.
Context (cdI cdR : ConnData) (kI kR : SingleKeyECDH).
Context (HcbI : callbacks_ok cdI) (HcbR : callbacks_ok cdR).
Context (HpI : sendable cdI) (HpR : sendable cdR).

(** Both sides of a run, as [DoHandshake] on each, with each write of one side
    read by the other as one segment, as [connKit] delivers it.  Over TCP a read
    may return less; [short_act2_fails] says what becomes of it. *)
Definition handshake_run (pat : HandshakePattern) (minI maxI minR maxR : Z)
    (mI' mR' : Machine) : Prop :=
  ∃ mI mR nI nR outI outR,
  NewBrontideMachine cdI true pat minI maxI = Ok mI
  ∧ NewBrontideMachine cdR false pat minR maxR = Ok mR
  ∧ DoHandshake (mI, newNet outR kI) = (Ok tt, (mI', nI)) ∧ wrote outI nI
  ∧ DoHandshake (mR, newNet outI kR) = (Ok tt, (mR', nR)) ∧ wrote outR nR.

(** The run, with what the initiator makes of an act two cut short. *)
Lemma xx_agrees_short minI maxI minR maxR pw :
  remoteKey cdI = None → remoteKey cdR = None →
  stretchPassphrase (cd_passphraseEntropy cdI) = Ok pw →
  stretchPassphrase (cd_passphraseEntropy cdR) = Ok pw →
  mask_ok pw kI → compatible minI maxI minR maxR →
  ∃ mI mR nI nR outI m2 mI' mR',
  NewBrontideMachine cdI true XXPattern minI maxI = Ok mI
  ∧ NewBrontideMachine cdR false XXPattern minR maxR = Ok mR
  ∧ DoHandshake (mI, newNet [m2] kI) = (Ok tt, (mI', nI)) ∧ wrote outI nI
  ∧ DoHandshake (mR, newNet outI kR) = (Ok tt, (mR', nR)) ∧ wrote [m2] nR
  ∧ agreed maxR cdI cdR mI' mR'
  ∧ (maxR ≠ HandshakeVersion0 →
     short_act2_fails kI (λ n e, ∃ st, DoHandshake (mI, n) = (Err e, st))
       (authData cdR) m2).
Proof using All.
  intros HrI HrR HsI HsR Hm [[Hk1 Ho1] [Hk2 Ho2]].
  destruct (xx_machine cdI true minI maxI pw (localKey cdR) HrI HsI)
    as (mI & EI & A1 & A2 & A3 & A4 & A5 & A6 & A7 & A8 & A9).
  destruct (xx_machine cdR false minR maxR pw (localKey cdI) HrR HsR)
    as (mR & ER & B1 & B2 & B3 & B4 & B5 & B6 & B7 & B8 & B9).
  simpl in A5, B5, A9, B9.
  destruct (xx_run (localKey cdI) (localKey cdR) pw kI kR (handshake mI)
    (handshake mR)) with (mI := mI) (mR := mR)
    (x := mixHash lightningNodeConnectPrologue
            (InitializeSymmetric (protocolName XXPattern) newSymmetricState))
    as (m1 & m2 & m3 & nI & nR & x' & WI & WR & _ & DI & DR & Hcut);
    rewrite ?A5, ?B5, ?A8, ?B8; try done.
  { unfold accepts. simpl. lia. }
  { unfold accepts. simpl. lia. }
  { by eexists. }
  rewrite <- A9 in DI. rewrite <- B9 in DR. rewrite <- A4 in DI at 1.
  rewrite <- B4 in DR at 1.
  apply DoHandshake_completes in DI; [|by rewrite A1].
  apply DoHandshake_completes in DR; [|by rewrite B1].
  eexists mI, mR, nI, nR, [m1; m3], m2, _, _. split_and!; try done.
  - apply (completed_agreed _ _ _ _ _ _ _ _ _ _ _ _ _ (authData cdR));
      try done; rewrite B5, ?B8; done.
  - intros Hv0. rewrite B5, B8 in Hcut.
    destruct (Hcut Hv0) as (head & hd & body & xh & x1 & -> & Eh & Hsh).
    exists head, hd, body, xh, x1. split_and!; [done..|].
    intros j e xe Hj Hd. destruct (Hsh j e xe Hj Hd) as [st Est].
    exists st. apply DoHandshake_fails. rewrite A4. rewrite A9 at 1. exact Est.
Qed.

Lemma xx_agrees minI maxI minR maxR pw :
  remoteKey cdI = None → remoteKey cdR = None →
  stretchPassphrase (cd_passphraseEntropy cdI) = Ok pw →
  stretchPassphrase (cd_passphraseEntropy cdR) = Ok pw →
  mask_ok pw kI → compatible minI maxI minR maxR →
  ∃ mI' mR', handshake_run XXPattern minI maxI minR maxR mI' mR'
  ∧ agreed maxR cdI cdR mI' mR'.
Proof using All.
  intros HrI HrR HsI HsR Hm Hco.
  destruct (xx_agrees_short minI maxI minR maxR pw HrI HrR HsI HsR Hm Hco)
    as (mI & mR & nI & nR & outI & m2 & mI' & mR' & ? & ? & ? & ? & ? & ? & ? & _).
  exists mI', mR'. split; [|done]. exists mI, mR, nI, nR, outI, [m2].
  by split_and!.
Qed.

Lemma kk_agrees minI minR :
  remoteKey cdI = Some (PubKey (localKey cdR)) →
  remoteKey cdR = Some (PubKey (localKey cdI)) → minI ≤ 2 → minR ≤ 2 →
  ∃ mI' mR', handshake_run KKPattern minI 2 minR 2 mI' mR'
  ∧ agreed 2 cdI cdR mI' mR'.
Proof using All.
  intros HrI HrR HmI HmR.
  destruct (kk_machine cdI true minI 2 (localKey cdR) HrI)
    as (mI & EI & A1 & A2 & A3 & A4 & A5 & A6 & A7 & A8 & A9); [lia..|].
  destruct (kk_machine cdR false minR 2 (localKey cdI) HrR)
    as (mR & ER & B1 & B2 & B3 & B4 & B5 & B6 & B7 & B8 & B9); [lia..|].
  simpl in A5, B5, A9, B9.
  destruct (kk_run (localKey cdI) (localKey cdR) [] kI kR (handshake mI)
    (handshake mR)) with (mI := mI) (mR := mR)
    (x := mixHash (SerializeCompressed (PubKey (localKey cdR)))
            (mixHash (SerializeCompressed (PubKey (localKey cdI)))
            (mixHash lightningNodeConnectPrologue (InitializeSymmetric
             (protocolName KKPattern) newSymmetricState))))
    as (m1 & m2 & nI & nR & x' & WI & WR & _ & DI & DR);
    rewrite ?A5, ?B5, ?A8, ?B8; try (by right; right); try done.
  { unfold accepts. simpl. lia. }
  { unfold accepts. simpl. lia. }
  rewrite <- A9 in DI. rewrite <- B9 in DR. rewrite <- A4 in DI at 1.
  rewrite <- B4 in DR at 1.
  apply DoHandshake_completes in DI; [|by rewrite A1].
  apply DoHandshake_completes in DR; [|by rewrite B1].
  eexists _, _. split.
  - exists mI, mR, nI, nR, [m1], [m2]. by split_and!.
  - apply (completed_agreed _ _ _ _ _ _ _ _ _ _ _ _ _ (authData cdR));
      try done; rewrite B5, ?B8; done.
Qed.

End XX.
End Final.

(** ** A concrete instance

    Integers as the group, multiplication as Diffie-Hellman and a null cipher
    with a constant tag, which [Open] checks: not secure, but it satisfies the
    laws. *)
Definition toyCrypto : Crypto := {|
  PublicKey := Z;
  SingleKeyECDH := positive;
  infinity := 0;
  pointAdd := Z.add;
  pointNeg := Z.opp;
  scalarMult := Z.mul;
  setByteSlice b := len b;
  pointN := 5;
  SerializeCompressed p := p :: replicate 32 0;
  ParsePubKey b := match b with
                   | p :: _ => if p =? 0 then Err EOF else Ok p
                   | [] => Err EOF
                   end;
  PubKey k := Zpos k;
  ECDH k p := Ok [Zpos k * p];
  hkdf secret salt := take 32 (secret ++ replicate 32 1)
                      ++ take 32 (salt ++ replicate 32 2);
  Seal key n plain ad := plain ++ replicate 16 1;
  Open key n ct ad := if decide (drop (length ct - 16) ct = replicate 16 1)
                      then Ok (take (length ct - 16) ct) else Err EOF;
  scryptKey pw _ _ _ _ _ := Ok pw
|}.

Lemma toy_laws : @CryptoLaws toyCrypto.
Proof.
  constructor; cbn [Open Seal SerializeCompressed ParsePubKey PubKey ECDH
    pointAdd pointNeg infinity toyCrypto].
  - intros _ _ plain _. rewrite length_app, length_replicate.
    replace (length plain + 16 - 16)%nat with (length plain) by lia.
    by rewrite drop_app_length, take_app_length.
  - intros _ _ plain _. unfold len. rewrite length_app, length_replicate.
    unfold macSize. lia.
  - done.
  - intros p Hp. by destruct (Z.eqb_spec p 0).
  - done.
  - intros a b. f_equal. f_equal. lia.
  - eauto.
  - intros. lia.
  - intros. lia.
  - intros. lia.
Qed.

Definition toyConn (k : positive) (peer : option Z) (auth : option bytes) :
    @ConnData toyCrypto :=
  @mkConnData toyCrypto k peer [1; 2; 3] auth None None.

(** A side about to exchange the payload of act two. *)
Definition toyHS (p : option bytes) : @handshakeState toyCrypto :=
  @mkHandshake toyCrypto (@mixKey toyCrypto [5] newSymmetricState) true 3%positive None None None []
    p None XXPattern 0 2 0.

(** C8: two machines whose connection data stretches to the same passphrase,
    the responder supporting the initiator's lowest version and the initiator
    the responder's highest, complete the XX handshake when every message of
    one side arrives at the other as one segment.  Both end with the same
    transcript hash and chaining key, each side's sending cipher is the other's
    receiving cipher, both hold the responder's highest version, each has
    learnt the other's static key, and the initiator holds the responder's auth
    data as that version delivers it: intact in versions 1 and 2, and in
    version 0 up to 498 bytes. *)
Theorem noise_xx_agreement `{CryptoLaws} cdI cdR kI kR minI maxI minR maxR pw :
  callbacks_ok cdI → callbacks_ok cdR → sendable cdI → sendable cdR →
  remoteKey cdI = None → remoteKey cdR = None →
  stretchPassphrase (cd_passphraseEntropy cdI) = Ok pw →
  stretchPassphrase (cd_passphraseEntropy cdR) = Ok pw →
  mask_ok pw kI → compatible minI maxI minR maxR →
  ∃ mI' mR', handshake_run cdI cdR kI kR (cd_HandshakePattern cdI) minI maxI
               minR maxR mI' mR'
  ∧ agreed maxR cdI cdR mI' mR'
  ∧ (maxR ≠ HandshakeVersion0 ∨ len (nilBytes (authData cdR)) ≤ 498 →
     authData (connData mI') = Some (nilBytes (authData cdR))).
Proof.
  intros Hc1 Hc2 Hp1 Hp2 Hr1 Hr2 Hs1 Hs2 Hm Hco.
  unfold cd_HandshakePattern. rewrite Hr1.
  destruct (xx_agrees cdI cdR kI kR Hc1 Hc2 Hp1 Hp2 minI maxI minR maxR pw)
    as (mI & mR & Hrun & Hag); try done.
  exists mI, mR. split; [done|]. split; [done|]. intros Hv. rewrite (ag_auth _ _ _ _ _ Hag).
  by rewrite received_intact.
Qed.

Lemma noise_xx_agreement_witness : let _ := toyCrypto in
  ∃ mI mR, @agreed toyCrypto 1 (toyConn 3 None None) (toyConn 4 None (Some [9; 9]))
    mI mR ∧ @authData toyCrypto (connData mI) = Some [9; 9].
Proof.
  intros tc.
  destruct (@noise_xx_agreement toyCrypto toy_laws (toyConn 3 None None)
    (toyConn 4 None (Some [9; 9])) 7%positive 8%positive 0 2 0 1 [1; 2; 3])
    as (mI & mR & _ & Hag & Hau); try reflexivity.
  - split; reflexivity.
  - split; reflexivity.
  - discriminate.
  - split.
    + split; [by left|]. lia.
    + split; [by right; left|]. lia.
  - exists mI, mR. split; [exact Hag|]. apply Hau. left. discriminate.
Defined.

(** Connection data in which the pairing passphrase is another one. *)
Definition with_entropy `{Crypto} (e : bytes) (c : ConnData) : ConnData :=
  mkConnData (localKey c) (remoteKey c) e (authData c) (onRemoteStatic c)
    (onAuthData c).

(** C10: pairing and reconnection.  After a first handshake in version 2 each
    side has stored the other's static key, so the next handshake uses the KK
    pattern on both sides, and it completes with the two sides agreeing again
    whatever passphrases the two now hold, even two different ones or ones
    that cannot be stretched: the stored keys alone authenticate it. *)
Theorem noise_reconnects_with_kk `{CryptoLaws} cdI cdR kI kR minI minR pw :
  callbacks_ok cdI → callbacks_ok cdR → sendable cdI → sendable cdR →
  remoteKey cdI = None → remoteKey cdR = None →
  stretchPassphrase (cd_passphraseEntropy cdI) = Ok pw →
  stretchPassphrase (cd_passphraseEntropy cdR) = Ok pw →
  mask_ok pw kI → compatible minI 2 minR 2 →
  ∃ mI mR, handshake_run cdI cdR kI kR XXPattern minI 2 minR 2 mI mR
  ∧ ∀ eI eR jI jR,
    let cI := with_entropy eI (connData mI) in
    let cR := with_entropy eR (connData mR) in
    cd_HandshakePattern cI = KKPattern ∧ cd_HandshakePattern cR = KKPattern
    ∧ ∃ mI' mR', handshake_run cI cR jI jR KKPattern minI 2 minR 2 mI' mR'
      ∧ agreed 2 cI cR mI' mR'.
Proof.
  intros Hc1 Hc2 Hp1 Hp2 Hr1 Hr2 Hs1 Hs2 Hm Hco.
  destruct (xx_agrees cdI cdR kI kR Hc1 Hc2 Hp1 Hp2 minI 2 minR 2 pw)
    as (mI & mR & Hrun & Hag); try done.
  exists mI, mR. split; [done|]. intros eI eR jI jR cI cR.
  destruct Hag as [_ _ _ _ _ _ _ Hauth Hkeys [Hl1 Hl2] (Q1 & Q2 & Q3 & Q4) Hau _].
  destruct (Hkeys ltac:(vm_compute; discriminate)) as [K1 K2].
  unfold cd_HandshakePattern, cI, cR. simpl. rewrite K1, K2.
  split_and!; try done.
  apply kk_agrees; unfold callbacks_ok, sendable; simpl;
    rewrite ?Hl1, ?Hl2, ?Q1, ?Q2, ?Q3, ?Q4, ?Hauth, ?Hau; try done;
    destruct Hco as [[_ ?] _]; lia.
Qed.

Lemma noise_reconnects_with_kk_witness : let _ := toyCrypto in
  ∃ cI cR mI mR, @handshake_run toyCrypto cI cR 5%positive 6%positive KKPattern
    0 2 0 2 mI mR
  ∧ @agreed toyCrypto 2 cI cR mI mR
  ∧ @cd_passphraseEntropy toyCrypto cI = [7]
  ∧ @cd_passphraseEntropy toyCrypto cR = [].
Proof.
  intros tc.
  destruct (@noise_reconnects_with_kk toyCrypto toy_laws (toyConn 3 None None)
    (toyConn 4 None (Some [9; 9])) 7%positive 8%positive 0 0 [1; 2; 3])
    as (mI & mR & _ & Hkk); try reflexivity.
  - split; reflexivity.
  - split; reflexivity.
  - discriminate.
  - split.
    + split; [by left|]. lia.
    + split; [by right; right|]. lia.
  - destruct (Hkk [7] [] 5%positive 6%positive)
      as (_ & _ & mI' & mR' & Hrun & Hag).
    eexists _, _, mI', mR'. split; [exact Hrun|]. split; [exact Hag|].
    split; reflexivity.
Defined.

(** C30: the payload of act two, written by [writePayload] and read by
    [readPayload], for two sides in the same symmetric state.  Both succeed
    and stay in the same state.  The reader ends up with the auth data
    unchanged in versions 1 and 2, and in version 0 up to 498 bytes; there, a
    longer one is cut to its first 498 bytes and padded with zeros to its
    announced length, and one of 65536 bytes or more comes out with its length
    reduced modulo 65536, in each case without an error on either side. *)
Theorem auth_payload_delivery `{CryptoLaws} v hR hI d nR nI segs :
  known_version v → version hR = v → payloadToSend hR = Some d →
  len d < MaxInt32 → sym hI = sym hR → has_cipher (sym hR) →
  ∃ pb hR' hI' d',
  writePayload act2 (hR, nR) = (Ok pb, (hR', nR))
  ∧ readPayload v act2 (hI, set_inSegs (pb :: segs) nI) =
    (Ok tt, (hI', set_inSegs segs nI))
  ∧ sym hI' = sym hR' ∧ receivedPayload hI' = Some d'
  ∧ (v ≠ HandshakeVersion0 ∨ len d ≤ 498 → d' = d)
  ∧ (v = HandshakeVersion0 → 498 < len d < 65536 →
     d' = take 498 d ++ replicate (length d - 498) 0)
  ∧ (v = HandshakeVersion0 → 65536 ≤ len d → len d' = len d mod 65536).
Proof.
  intros Hv HvR Hp Hd Hs Hc.
  destruct (payloadSpec_ok v act2 (Some d) (sym hR)) as (pb & x' & E & _);
    [done|by right; left|done|].
  exists pb, (set_sym x' hR),
    (set_receivedPayload (Some (received v (Some d))) (set_sym x' hI)),
    (received v (Some d)).
  split_and!; [| |done|done| | |].
  - apply (writePayload_spec v); [done..|]. by rewrite Hp.
  - rewrite <- (pushSeg_payload _ _ _ _ _ segs E).
    by rewrite (readPayload_spec v act2 (Some d) hI pb x') by (by rewrite ?Hs).
  - intros Hi. by rewrite received_intact.
  - intros -> Hl. by apply receivedFixed_cut.
  - intros -> Hl. by apply receivedFixed_long.
Qed.

Lemma auth_payload_delivery_witness : let _ := toyCrypto in
  ∃ pb hR' hI' d' nI',
  @writePayload toyCrypto act2
    (toyHS (Some (replicate 600 7)), @newNet toyCrypto [] 1%positive)
    = (Ok pb, (hR', @newNet toyCrypto [] 1%positive))
  ∧ @readPayload toyCrypto 0 act2 (toyHS None, @newNet toyCrypto [pb] 1%positive)
    = (Ok tt, (hI', nI'))
  ∧ @receivedPayload toyCrypto hI' = Some d'
  ∧ d' = replicate 498 7 ++ replicate 102 0.
Proof.
  intros tc.
  destruct (@auth_payload_delivery toyCrypto toy_laws 0
    (toyHS (Some (replicate 600 7))) (toyHS None) (replicate 600 7)
    (@newNet toyCrypto [] 1%positive) (@newNet toyCrypto [] 1%positive) [])
    as (pb & hR' & hI' & d' & Hw & Hr & _ & Hrp & _ & Hcut & _); try reflexivity.
  - by left.
  - by eexists.
  - exists pb, hR', hI', d'. eexists. split; [exact Hw|]. split; [exact Hr|].
    split; [exact Hrp|]. rewrite Hcut; [reflexivity|reflexivity|].
    unfold len. rewrite length_replicate. lia.
Defined.

(** The two ends of a mailbox derive the same session id: from the shared
    passphrase before they know each other's keys, and from the
    Diffie-Hellman secret of their static keys afterwards. *)
Theorem sid_agreement `{CryptoLaws} cdI cdR :
  (remoteKey cdI = None → remoteKey cdR = None →
   cd_passphraseEntropy cdI = cd_passphraseEntropy cdR → SID cdI = SID cdR)
  ∧ (remoteKey cdI = Some (PubKey (localKey cdR)) →
     remoteKey cdR = Some (PubKey (localKey cdI)) →
     SID cdI = SID cdR ∧ is_ok (SID cdI) = true).
Proof.
  split.
  - intros H1 H2 H3. apply SID_paired. by left.
  - intros H1 H2. split; [apply SID_paired; by right|].
    unfold SID. rewrite H1. unfold ecdh.
    destruct (ecdh_ok (localKey cdI) (localKey cdR)) as [h Hh].
    by rewrite Hh.
Qed.

Lemma sid_agreement_witness : let _ := toyCrypto in
  @SID toyCrypto (toyConn 3 (Some 4) None) = @SID toyCrypto (toyConn 4 (Some 3) None).
Proof.
  intros tc.
  apply (@sid_agreement toyCrypto toy_laws (toyConn 3 (Some 4) None)
           (toyConn 4 (Some 3) None)); reflexivity.
Defined.
