(* ===== verification/NoiseTransport.v ===== *)
(** * The encrypted transport ([mailbox/noise.go], [mailbox/tcp_noise_conn.go],
    [mailbox/grpc_noise_conn.go])

    Messages after the handshake: [WriteMessage], [Flush], [ReadHeader],
    [ReadBody] and [ReadMessage] of the [Machine], and the two connection types
    on top of it, [NoiseConn] and [NoiseGrpcConn]. *)

From stdpp Require Import base numbers list strings tactics.
From S2P Require Import Prelude Sha2 NoiseState NoiseHandshake.

#[local] Opaque sha256.

(** ** Writers and readers *)

(** An [io.Writer]: the bytes it has accepted, and how many bytes it takes and
    which error it returns, by call and length offered. *)
Record sink := mkSink {
  written : bytes;
  answers : nat → Z → Z * option error;
  calls : nat
}.

Definition sinkWrite (b : bytes) (w : sink) : Z * option error * sink :=
  let '(n, err) := answers w (calls w) (len b) in
  let n := Z.max 0 (Z.min n (len b)) in
  (n, err, mkSink (written w ++ take (Z.to_nat n) b) (answers w) (S (calls w))).

(** The contract of [io.Writer]: a short write reports an error. *)
Definition sink_ok (w : sink) : Prop :=
  ∀ k l, (answers w k l).2 = None → l ≤ (answers w k l).1.

(** [io.ReadFull] on a stream of segments, each [Read] returning bytes of the
    first one; the bytes of an incomplete read are gone. *)
Fixpoint readFull (segs : list bytes) (k : nat) (got : bytes) :
    result bytes * list bytes :=
  match segs with
  | [] => (Err (if decide (got = []) then EOF else ErrUnexpectedEOF), [])
  | [] :: rest => (Err (if decide (got = []) then EOF else ErrUnexpectedEOF), rest)
  | seg :: rest =>
      if (k <=? length seg)%nat
      then (Ok (got ++ take k seg), pushSeg (drop k seg) rest)
      else readFull rest (k - length seg) (got ++ seg)
  end.

Section Transport.
Context `{Crypto}.

(** ** The machine *)

Definition onSend {A} (m : M cipherState A) : M Machine A :=
  zoom sendCipher set_sendCipher m.
Definition onRecv {A} (m : M cipherState A) : M Machine A :=
  zoom recvCipher set_recvCipher m.

Definition WriteMessage (p : bytes) : M Machine unit :=
  if MaxUint16 <? len p then failM ErrMaxMessageLengthExceeded
  else
    hd ← gets nextHeaderSend;
    bd ← gets nextBodySend;
    if (0 <? len hd) || (0 <? len bd) then failM ErrMessageNotFlushed
    else
      let pktLen := putUint16 (u16 (len p)) in
      header ← onSend (Encrypt [] pktLen);
      _ ← modify (set_nextHeaderSend header);
      body ← onSend (Encrypt [] p);
      modify (set_nextBodySend body).

(** The second half of [Flush], on the pending body. *)
Definition flushBody (m : Machine) (w : sink) :
    Z * option error * Machine * sink :=
  if 0 <? len (nextBodySend m) then
    let '(n, err, w) := sinkWrite (nextBodySend m) w in
    let m := set_nextBodySend (drop (Z.to_nat n) (nextBodySend m)) m in
    let start := n + len (nextBodySend m) in
    let stop := len (nextBodySend m) in
    let nn := if (macSize <? start) && (stop <=? macSize)
              then n - (macSize - stop)
              else if (macSize <? start) && (macSize <? stop) then n
              else 0 in
    (nn, err, m, w)
  else (0, None, m, w).

(** [Flush]: the number of payload bytes written and the error. *)
Definition Flush (m : Machine) (w : sink) :
    Z * option error * Machine * sink :=
  if 0 <? len (nextHeaderSend m) then
    let '(n, err, w) := sinkWrite (nextHeaderSend m) w in
    let m := set_nextHeaderSend (drop (Z.to_nat n) (nextHeaderSend m)) m in
    match err with
    | Some err => (0, Some err, m, w)
    | None => flushBody m w
    end
  else flushBody m w.

Abbreviation RS := (Machine * list bytes)%type.

Definition netReadFull (k : Z) : M RS bytes := λ st,
  let '(r, segs) := readFull st.2 (Z.to_nat k) [] in (r, (st.1, segs)).
Definition recvDecrypt (ct : bytes) : M RS bytes := λ st,
  let '(r, m) := onRecv (Decrypt [] ct) st.1 in (r, (m, st.2)).

Definition ReadHeader : M RS Z :=
  header ← netReadFull encHeaderSize;
  pktLenBytes ← recvDecrypt header;
  n ← liftR (getUint16 pktLenBytes);
  mret (n + macSize).

Definition ReadBody (bufLen : Z) : M RS bytes :=
  buf ← netReadFull bufLen;
  recvDecrypt buf.

Definition ReadMessage : M RS bytes :=
  pktLen ← ReadHeader;
  ReadBody pktLen.

(** ** [NoiseConn] *)

Record NoiseConn := mkNoiseConn {
  nc_noise : Machine;
  readBuf : bytes
}.

(** [NoiseConn.Read] into a buffer of [k] bytes: the bytes read. *)
Definition NoiseConn_Read (k : Z) (c : NoiseConn) (segs : list bytes) :
    result bytes * NoiseConn * list bytes :=
  let take buf m segs :=
    let '(r, buf) := bufferRead buf k in (r, mkNoiseConn m buf, segs) in
  if len (readBuf c) =? 0 then
    match ReadMessage (nc_noise c, segs) with
    | (Ok plaintext, (m, segs)) => take plaintext m segs
    | (Err err, (m, segs)) => (Err err, mkNoiseConn m (readBuf c), segs)
    | (Panic p, (m, segs)) => (Panic p, mkNoiseConn m (readBuf c), segs)
    end
  else take (readBuf c) (nc_noise c) segs.

(** The message-oriented methods hand the connection to the machine. *)
Definition onNoise {A} (f : M RS A) (c : NoiseConn) (segs : list bytes) :
    result A * NoiseConn * list bytes :=
  let '(r, (m, segs)) := f (nc_noise c, segs) in (r, mkNoiseConn m (readBuf c), segs).
Definition ReadNextMessage := onNoise ReadMessage.
Definition ReadNextHeader := onNoise ReadHeader.
Definition ReadNextBody (bufLen : Z) := onNoise (ReadBody bufLen).
Definition NoiseConn_WriteMessage (b : bytes) (c : NoiseConn) : result unit * NoiseConn :=
  let '(r, m) := WriteMessage b (nc_noise c) in (r, mkNoiseConn m (readBuf c)).
Definition NoiseConn_Flush (c : NoiseConn) (w : sink) :
    Z * option error * NoiseConn * sink :=
  let '(n, err, m, w) := Flush (nc_noise c) w in (n, err, mkNoiseConn m (readBuf c), w).

(** The outcome of a Go call that returns a count and an error. *)
Definition writeResult : Type := result (Z * option error).

(** One chunk: [WriteMessage], then [Flush]. *)
Definition writeChunk (b : bytes) (m : Machine) (w : sink) :
    writeResult * Machine * sink :=
  match WriteMessage b m with
  | (Ok _, m) => let '(n, err, m, w) := Flush m w in (Ok (n, err), m, w)
  | (Err err, m) => (Ok (0, Some err), m, w)
  | (Panic p, m) => (Panic p, m, w)
  end.

(** The loop of [NoiseConn.Write]; a chunk that is flushed without an error
    has been written whole, so the length of the data bounds the iterations
    ([None] when the fuel runs out). *)
Fixpoint writeLoop (fuel : nat) (b : bytes) (bytesWritten chunkSize : Z)
    (m : Machine) (w : sink) : option (writeResult * Machine * sink) :=
  if bytesWritten <? len b then
    match fuel with
    | O => None
    | S fuel =>
        let chunkSize := if len b <? bytesWritten + chunkSize
                         then len b - bytesWritten else chunkSize in
        match slice b bytesWritten (bytesWritten + chunkSize) with
        | Ok chunk =>
            match writeChunk chunk m w with
            | (Ok (n, Some err), m, w) =>
                Some (Ok (bytesWritten + n, Some err), m, w)
            | (Ok (n, None), m, w) =>
                writeLoop fuel b (bytesWritten + n) chunkSize m w
            | (Err err, m, w) => Some (Err err, m, w)
            | (Panic p, m, w) => Some (Panic p, m, w)
            end
        | Err err => Some (Err err, m, w)
        | Panic p => Some (Panic p, m, w)
        end
    end
  else Some (Ok (bytesWritten, None), m, w).

Definition NoiseConn_Write (b : bytes) (m : Machine) (w : sink) :
    option (writeResult * Machine * sink) :=
  if len b <=? MaxUint16 then Some (writeChunk b m w)
  else writeLoop (length b) b 0 MaxUint16 m w.

(** ** [NoiseGrpcConn] *)

Definition defaultGrpcWriteBufSize : Z := 32768.

(** The machine is nil before a handshake; the underlying connection is the
    stream or writer given to each operation. *)
Record NoiseGrpcConn := mkGrpcConn {
  gc_connData : ConnData;
  nextMsg : bytes;
  gc_noise : option Machine;
  minHandshakeVersion : Z;
  maxHandshakeVersion : Z
}.

Definition set_gc_noise m c := mkGrpcConn (gc_connData c) (nextMsg c) (Some m)
  (minHandshakeVersion c) (maxHandshakeVersion c).
Definition set_nextMsg b c := mkGrpcConn (gc_connData c) b (gc_noise c)
  (minHandshakeVersion c) (maxHandshakeVersion c).

Definition WithMinHandshakeVersion (v : Z) (c : NoiseGrpcConn) : NoiseGrpcConn :=
  mkGrpcConn (gc_connData c) (nextMsg c) (gc_noise c) v (maxHandshakeVersion c).
Definition WithMaxHandshakeVersion (v : Z) (c : NoiseGrpcConn) : NoiseGrpcConn :=
  mkGrpcConn (gc_connData c) (nextMsg c) (gc_noise c) (minHandshakeVersion c) v.

Definition NewNoiseGrpcConn (cd : ConnData)
    (opts : list (NoiseGrpcConn → NoiseGrpcConn)) : NoiseGrpcConn :=
  fold_left (λ c opt, opt c) opts
    (mkGrpcConn cd [] None MinHandshakeVersion MaxHandshakeVersion).

(** The struct literal of [Clone] leaves the other fields at their zero
    value. *)
Definition Clone (c : NoiseGrpcConn) : NoiseGrpcConn :=
  mkGrpcConn (gc_connData c) [] None 0 0.

(** [ClientHandshake] ([init] set) and [ServerHandshake]; setting the read
    deadline of the underlying connection cannot fail ([mailbox/interface.go]). *)
Definition grpcHandshake (init : bool) (c : NoiseGrpcConn) (n : netio) :
    result unit * NoiseGrpcConn * netio :=
  match NewBrontideMachine (gc_connData c) init
          (cd_HandshakePattern (gc_connData c)) (minHandshakeVersion c)
          (maxHandshakeVersion c) with
  | Ok m =>
      let '(r, (m, n)) := DoHandshake (m, n) in
      (r, mkGrpcConn (connData m) (nextMsg c) (Some m) (minHandshakeVersion c)
            (maxHandshakeVersion c), n)
  | Err err =>
      (Err err, mkGrpcConn (gc_connData c) (nextMsg c) None
         (minHandshakeVersion c) (maxHandshakeVersion c), n)
  | Panic p => (Panic p, c, n)
  end.

(** [NoiseGrpcConn.Read] with the buffer [b]: the count returned and the
    contents of the buffer. *)
Definition NoiseGrpcConn_Read (b : bytes) (c : NoiseGrpcConn)
    (segs : list bytes) : result (Z * bytes) * NoiseGrpcConn * list bytes :=
  if 0 <? len (nextMsg c) then
    let msgLen := len (nextMsg c) in
    (Ok (msgLen, copy b (nextMsg c)), set_nextMsg [] c, segs)
  else
    match gc_noise c with
    | None => (Panic NilDereference, c, segs)
    | Some m =>
    match ReadMessage (m, segs) with
    | (Err err, (m, segs)) =>
        (Err (ErrWrap "error decrypting payload" err), set_gc_noise m c, segs)
    | (Panic p, (m, segs)) => (Panic p, set_gc_noise m c, segs)
    | (Ok requestBytes, (m, segs)) =>
        let c := set_gc_noise m c in
        if defaultGrpcWriteBufSize <? len requestBytes then
          let k := Z.to_nat defaultGrpcWriteBufSize in
          (Ok (defaultGrpcWriteBufSize, copy b (take k requestBytes)),
           set_nextMsg (drop k requestBytes) c, segs)
        else (Ok (len requestBytes, copy b requestBytes), c, segs)
    end
    end.

Definition NoiseGrpcConn_Write (b : bytes) (c : NoiseGrpcConn) (w : sink) :
    writeResult * NoiseGrpcConn * sink :=
  match gc_noise c with
  | None => (Panic NilDereference, c, w)
  | Some m =>
      let '(r, m, w) := writeChunk b m w in (r, set_gc_noise m c, w)
  end.

End Transport.

(** ** Flushing *)

Section FlushProofs.
Context `{Crypto}.

(** What is still to be written, and how much of it is payload. *)
Definition pend (m : Machine) : bytes := nextHeaderSend m ++ nextBodySend m.
Definition payRem (m : Machine) : Z :=
  Z.max 0 (len (nextBodySend m) - macSize).

(** The fields [Flush] leaves alone. *)
Definition same_session (m m' : Machine) : Prop :=
  sendCipher m' = sendCipher m ∧ recvCipher m' = recvCipher m.

Lemma sinkWrite_spec b w n err w' :
  sinkWrite b w = (n, err, w') →
  0 ≤ n ≤ len b ∧ written w' = written w ++ take (Z.to_nat n) b
  ∧ answers w' = answers w ∧ (sink_ok w → err = None → n = len b).
Proof using.
  unfold sinkWrite, sink_ok. pose proof (len_nonneg b).
  destruct (answers w (calls w) (len b)) as [k e] eqn:Ha.
  intros [= <- <- <-]. split; [lia|]. split_and!; try done.
  intros Hok He. specialize (Hok (calls w) (len b)). rewrite Ha in Hok.
  specialize (Hok He). simpl in Hok. lia.
Qed.

(** The effect of a partial or complete write. *)
Definition flushed (m m' : Machine) (w w' : sink) (nn : Z)
    (err : option error) : Prop :=
  written w' ++ pend m' = written w ++ pend m
  ∧ nn = payRem m - payRem m' ∧ (err = None → pend m' = [])
  ∧ sink_ok w' ∧ same_session m m'.

Lemma len_0_nil {A} (l : list A) : len l ≤ 0 → l = [].
Proof using. destruct l; [done|]. unfold len. simpl. lia. Qed.

Lemma flushBody_spec m w nn err m' w' :
  sink_ok w → nextHeaderSend m = [] → flushBody m w = (nn, err, m', w') →
  flushed m m' w w' nn err.
Proof using.
  intros Hok Hh Hb. unfold flushBody in Hb.
  destruct (Z.ltb_spec 0 (len (nextBodySend m))) as [|Hle].
  - destruct (sinkWrite (nextBodySend m) w) as [[n e1] w2] eqn:Hs.
    apply sinkWrite_spec in Hs as (Hn & Hw & Ha & He).
    assert (Hl : len (drop (Z.to_nat n) (nextBodySend m))
                 = len (nextBodySend m) - n)
      by (unfold len in *; rewrite length_drop; lia).
    injection Hb as Hnn <- <- <-. unfold flushed, pend. simpl. rewrite Hh, Hw.
    split_and!.
    + simpl. by rewrite <- app_assoc, take_drop.
    + unfold payRem in *. simpl in *. rewrite Hl in *. unfold macSize in *.
      revert Hnn. repeat (case_if; simpl); intros <-; lia.
    + intros ->. rewrite He by done. unfold len. rewrite Nat2Z.id.
      by rewrite drop_all.
    + unfold sink_ok in *. by rewrite Ha.
    + done.
  - injection Hb as <- <- <- <-. apply len_0_nil in Hle.
    unfold flushed, pend, payRem. rewrite Hh, Hle. by split_and!.
Qed.

Lemma Flush_spec m w nn err m' w' :
  sink_ok w → Flush m w = (nn, err, m', w') → flushed m m' w w' nn err.
Proof using.
  intros Hok Hf. unfold Flush in Hf.
  destruct (Z.ltb_spec 0 (len (nextHeaderSend m))) as [|Hle].
  - destruct (sinkWrite (nextHeaderSend m) w) as [[n e1] w2] eqn:Hs.
    apply sinkWrite_spec in Hs as (Hn & Hw & Ha & He).
    assert (Hok2 : sink_ok w2) by (unfold sink_ok in *; by rewrite Ha).
    destruct e1 as [e1|].
    + injection Hf as <- <- <- <-. unfold flushed, pend. simpl. rewrite Hw.
      split_and!; try done.
      * by rewrite <- app_assoc, (app_assoc (take _ _)), take_drop.
      * unfold payRem. simpl. lia.
    + specialize (He Hok eq_refl). rewrite He in *. unfold len in *.
      rewrite Nat2Z.id, drop_all in Hf. rewrite Nat2Z.id, take_ge in Hw by lia.
      apply flushBody_spec in Hf as (F1 & F2 & F3 & F4 & F5); try done.
      unfold flushed. split_and!; try done. rewrite F1, Hw. unfold pend. simpl.
      by rewrite <- app_assoc.
  - apply flushBody_spec in Hf; try done. by apply len_0_nil.
Qed.

(** Repeated flushing: the counts returned. *)
Fixpoint flushes (k : nat) (m : Machine) (w : sink) :
    list Z * option error * Machine * sink :=
  match k with
  | O => ([], None, m, w)
  | S k =>
      let '(nn, err, m, w) := Flush m w in
      match k with
      | O => ([nn], err, m, w)
      | _ => let '(nns, err, m, w) := flushes k m w in (nn :: nns, err, m, w)
      end
  end.

Definition sumZ (l : list Z) : Z := fold_right Z.add 0 l.

Lemma flushes_spec k m w nns err m' w' :
  sink_ok w → flushes k m w = (nns, err, m', w') →
  written w' ++ pend m' = written w ++ pend m
  ∧ sumZ nns = payRem m - payRem m' ∧ sink_ok w' ∧ same_session m m'
  ∧ (k ≠ 0%nat → err = None → pend m' = []).
Proof using.
  revert m w nns. induction k as [|k IH]; intros m w nns Hok; simpl.
  - intros [= <- <- <- <-]. simpl. split_and!; try done. lia.
  - destruct (Flush m w) as [[[nn e1] m1] w1] eqn:Hf.
    apply Flush_spec in Hf as (F1 & F2 & F3 & F4 & [F5 F6]); [|done].
    destruct k as [|k].
    + intros [= <- <- <- <-]. simpl. split_and!; try done. lia.
    + destruct (flushes (S k) m1 w1) as [[[nns2 e2] m2] w2] eqn:Hr.
      intros [= <- <- <- <-].
      destruct (IH _ _ _ F4 Hr) as (G1 & G2 & G3 & [G4 G5] & G6).
      cbn [sumZ fold_right]. change (fold_right Z.add 0 nns2) with (sumZ nns2).
      unfold same_session. split_and!; try done; try congruence; [lia|].
      intros _. by apply G6.
Qed.

End FlushProofs.

(** ** Frames *)

Section Frames.
Context `{CryptoLaws}.

Definition nonempty (segs : list bytes) : Prop := Forall (λ sg, sg ≠ []) segs.

Lemma pushSeg_nonempty sg segs : nonempty segs → nonempty (pushSeg sg segs).
Proof using. intros. unfold pushSeg. case_decide; [done|]. by constructor. Qed.

Lemma pushSeg_join sg segs : mjoin (pushSeg sg segs) = sg ++ mjoin segs.
Proof using. unfold pushSeg. case_decide; [by subst|done]. Qed.

(** [io.ReadFull] does not depend on how the stream is cut into segments. *)
Lemma readFull_spec segs bs rest got :
  nonempty segs → mjoin segs = bs ++ rest → bs ≠ [] →
  ∃ segs', readFull segs (length bs) got = (Ok (got ++ bs), segs')
  ∧ mjoin segs' = rest ∧ nonempty segs'.
Proof using.
  intros Hne. revert bs got. induction Hne as [|sg segs Hsg Hne IH];
    intros bs got Hj Hbs.
  - destruct bs; done.
  - simpl in Hj. destruct sg as [|z sg]; [done|].
    cbn [readFull]. destruct (Nat.leb_spec (length bs) (length (z :: sg))) as [Hle|Hlt].
    + assert (Hb : bs = take (length bs) (z :: sg)).
      { apply (f_equal (take (length bs))) in Hj.
        rewrite take_app_length, take_app_le in Hj by done. done. }
      eexists. split; [by rewrite <- Hb|].
      rewrite pushSeg_join. split; [|by apply pushSeg_nonempty].
      apply (f_equal (drop (length bs))) in Hj.
      rewrite drop_app_length, drop_app_le in Hj by done. done.
    + assert (Hb : bs = (z :: sg) ++ drop (length (z :: sg)) bs).
      { apply (f_equal (take (length (z :: sg)))) in Hj.
        rewrite take_app_length, take_app_le in Hj by lia.
        rewrite Hj at 1. by rewrite take_drop. }
      set (bs' := drop (length (z :: sg)) bs) in *.
      assert (Hl : length bs = (length (z :: sg) + length bs')%nat)
        by (rewrite Hb at 1; apply length_app).
      destruct (IH bs' (got ++ z :: sg)) as (segs' & Hr & Hs' & Hn').
      * rewrite Hb, <- app_assoc in Hj. by apply app_inv_head in Hj.
      * intros Hnil. rewrite Hnil in Hl. simpl in *. lia.
      * exists segs'. split; [|done].
        replace (length bs - length (z :: sg))%nat with (length bs') by lia.
        rewrite Hr, <- app_assoc. by rewrite <- Hb.
Qed.

(** The bytes of one message under a cipher, and the cipher afterwards. *)
Definition frame (c : cipherState) (p : bytes) :
    option (bytes * bytes * cipherState) :=
  match Encrypt [] (putUint16 (u16 (len p))) c with
  | (Ok hd, c1) =>
      match Encrypt [] p c1 with
      | (Ok body, c2) => Some (hd, body, c2)
      | _ => None
      end
  | _ => None
  end.

Lemma Encrypt_ok c p :
  is_Some (cipher c) → ∃ ct, Encrypt [] p c = (Ok ct, advance c)
  ∧ Decrypt [] ct c = (Ok p, advance c) ∧ len ct = len p + macSize
  ∧ is_Some (cipher (advance c)).
Proof using H0.
  intros Hc. pose proof (advance_cipher _ Hc) as Ha. destruct Hc as [key Hk].
  unfold Encrypt, Decrypt. rewrite Hk. eexists. split; [done|].
  rewrite open_seal. split_and!; [done|apply seal_length|done].
Qed.

Lemma frame_ok c p :
  is_Some (cipher c) → ∃ hd body, frame c p = Some (hd, body, advance (advance c))
  ∧ Decrypt [] hd c = (Ok (putUint16 (u16 (len p))), advance c)
  ∧ Decrypt [] body (advance c) = (Ok p, advance (advance c))
  ∧ len hd = encHeaderSize ∧ len body = len p + macSize
  ∧ is_Some (cipher (advance (advance c))).
Proof using H0.
  intros Hc. destruct (Encrypt_ok c (putUint16 (u16 (len p))) Hc)
    as (hd & E1 & D1 & L1 & Hc1).
  destruct (Encrypt_ok (advance c) p Hc1) as (body & E2 & D2 & L2 & Hc2).
  exists hd, body. unfold frame. rewrite E1, E2. by split_and!.
Qed.

Lemma ReadMessage_frame m p hd body c2 segs rest :
  is_Some (cipher (recvCipher m)) → len p ≤ MaxUint16 →
  frame (recvCipher m) p = Some (hd, body, c2) →
  nonempty segs → mjoin segs = hd ++ body ++ rest →
  ∃ segs', ReadMessage (m, segs) = (Ok p, (set_recvCipher c2 m, segs'))
  ∧ mjoin segs' = rest ∧ nonempty segs'.
Proof using H0.
  intros Hc Hp Hf Hne Hj.
  destruct (frame_ok (recvCipher m) p Hc)
    as (hd' & body' & Hf' & D1 & D2 & L1 & L2 & _).
  rewrite Hf in Hf'. injection Hf' as <- <- ->.
  assert (N1 : hd ≠ []) by (intros ->; by vm_compute in L1).
  assert (N2 : body ≠ []).
  { intros ->. pose proof (len_nonneg p). unfold macSize, len in *.
    simpl in *. lia. }
  destruct (readFull_spec segs hd (body ++ rest) [] Hne Hj N1)
    as (s1 & R1 & J1 & Hn1).
  destruct (readFull_spec s1 body rest [] Hn1 J1 N2) as (s2 & R2 & J2 & Hn2).
  exists s2. split; [|done].
  rewrite app_nil_l in R1, R2.
  unfold ReadMessage, ReadHeader, ReadBody, netReadFull, recvDecrypt, onRecv.
  mstep. cbn [fst snd].
  replace (Z.to_nat encHeaderSize) with (length hd)
    by (rewrite <- L1; unfold len; by rewrite Nat2Z.id).
  rewrite R1. mstep. cbn [fst snd]. rewrite D1. mstep.
  pose proof (len_nonneg p). unfold MaxUint16 in Hp.
  rewrite u16_small by lia. rewrite <- (app_nil_r (putUint16 _)).
  rewrite getUint16_put by lia. cbn [fst snd].
  replace (Z.to_nat (len p + macSize)) with (length body)
    by (rewrite <- L2; unfold len; by rewrite Nat2Z.id).
  rewrite R2. mstep. cbn [fst snd set_recvCipher recvCipher]. by rewrite D2.
Qed.

(** Writing on a machine with nothing pending. *)
Definition idleMachine (m : Machine) : Prop :=
  nextHeaderSend m = [] ∧ nextBodySend m = [].

Lemma WriteMessage_frame m p :
  idleMachine m → is_Some (cipher (sendCipher m)) → len p ≤ MaxUint16 →
  ∃ hd body c2, frame (sendCipher m) p = Some (hd, body, c2)
  ∧ WriteMessage p m = (Ok tt, set_nextBodySend body
      (set_nextHeaderSend hd (set_sendCipher c2 m)))
  ∧ len hd = encHeaderSize ∧ len body = len p + macSize
  ∧ is_Some (cipher c2).
Proof using H0.
  intros [Hh Hb] Hc Hp. destruct (frame_ok (sendCipher m) p Hc)
    as (hd & body & Hf & _ & _ & L1 & L2 & Hc2).
  exists hd, body, (advance (advance (sendCipher m))). split_and!; try done.
  unfold WriteMessage. rewrite (proj2 (Z.ltb_ge _ _)) by lia.
  unfold onSend. mstep. rewrite Hh, Hb. simpl.
  unfold frame in Hf.
  destruct (Encrypt [] (putUint16 _) (sendCipher m)) as [[h1| |] c1] eqn:E1;
    try done.
  destruct (Encrypt [] p c1) as [[b1| |] c2] eqn:E2; try done.
  injection Hf as -> -> Hc2'. simpl. rewrite E2, Hc2'. done.
Qed.

(** A writer that accepts everything. *)
Definition lossless (w : sink) : Prop := ∀ k l, answers w k l = (l, None).

Lemma lossless_ok w : lossless w → sink_ok w.
Proof using. intros Hl k l. rewrite Hl. simpl. lia. Qed.

Lemma Flush_lossless m w nn err m' w' :
  lossless w → Flush m w = (nn, err, m', w') → err = None ∧ lossless w'.
Proof using.
  intros Hl. unfold Flush, flushBody, sinkWrite.
  rewrite !Hl. simpl.
  destruct (0 <? len (nextHeaderSend m)); simpl; rewrite ?Hl;
    destruct (0 <? len (nextBodySend m)); by intros [= <- <- <- <-].
Qed.

Lemma writeChunk_spec p m w :
  idleMachine m → is_Some (cipher (sendCipher m)) → len p ≤ MaxUint16 →
  lossless w →
  ∃ hd body c2 m' w', frame (sendCipher m) p = Some (hd, body, c2)
  ∧ writeChunk p m w = (Ok (len p, None), m', w')
  ∧ written w' = written w ++ hd ++ body ∧ lossless w'
  ∧ idleMachine m' ∧ sendCipher m' = c2 ∧ recvCipher m' = recvCipher m
  ∧ is_Some (cipher c2).
Proof using H0.
  intros Hi Hc Hp Hl.
  destruct (WriteMessage_frame m p Hi Hc Hp)
    as (hd & body & c2 & Hf & HW & L1 & L2 & Hc2).
  unfold writeChunk. rewrite HW.
  set (m1 := set_nextBodySend body _).
  destruct (Flush m1 w) as [[[nn err] m'] w'] eqn:HF.
  destruct (Flush_lossless _ _ _ _ _ _ Hl HF) as [-> Hl'].
  apply Flush_spec in HF as (F1 & F2 & F3 & _ & F5 & F6); [|by apply lossless_ok].
  specialize (F3 eq_refl). apply app_eq_nil in F3 as [Fh Fb].
  exists hd, body, c2, m', w'. split_and!; try done.
  - unfold payRem in F2. rewrite Fb in F2. simpl in F2. rewrite L2 in F2.
    pose proof (len_nonneg p). rewrite F2. unfold macSize, len in *.
    simpl length. replace (_ - _) with (Z.of_nat (length p)); [done|lia].
  - unfold pend in F1. rewrite Fh, Fb, !app_nil_r in F1. exact F1.
Qed.

(** A sequence of messages: writing them all, their frames, reading them
    back. *)
Fixpoint writeAll (ps : list bytes) (m : Machine) (w : sink) :
    option (Machine * sink) :=
  match ps with
  | [] => Some (m, w)
  | p :: ps =>
      match writeChunk p m w with
      | (Ok (_, None), m, w) => writeAll ps m w
      | _ => None
      end
  end.

Fixpoint frames (c : cipherState) (ps : list bytes) :
    option (bytes * cipherState) :=
  match ps with
  | [] => Some ([], c)
  | p :: ps =>
      match frame c p with
      | Some (hd, body, c1) =>
          match frames c1 ps with
          | Some (rest, c2) => Some (hd ++ body ++ rest, c2)
          | None => None
          end
      | None => None
      end
  end.

Fixpoint readAll (k : nat) (m : Machine) (segs : list bytes) :
    option (list bytes * Machine * list bytes) :=
  match k with
  | O => Some ([], m, segs)
  | S k =>
      match ReadMessage (m, segs) with
      | (Ok p, (m, segs)) =>
          match readAll k m segs with
          | Some (ps, m, segs) => Some (p :: ps, m, segs)
          | None => None
          end
      | _ => None
      end
  end.

Definition fits (ps : list bytes) : Prop := Forall (λ p, len p ≤ MaxUint16) ps.

Lemma writeAll_spec ps m w :
  idleMachine m → is_Some (cipher (sendCipher m)) → fits ps → lossless w →
  ∃ out c2 m' w', frames (sendCipher m) ps = Some (out, c2)
  ∧ writeAll ps m w = Some (m', w') ∧ written w' = written w ++ out
  ∧ lossless w' ∧ idleMachine m' ∧ sendCipher m' = c2
  ∧ recvCipher m' = recvCipher m ∧ is_Some (cipher c2).
Proof using H0.
  intros Hi Hc Hfit Hl. revert m w Hi Hc Hl.
  induction Hfit as [|p ps Hp _ IH]; intros m w Hi Hc Hl.
  - exists [], (sendCipher m), m, w. rewrite app_nil_r. by split_and!.
  - destruct (writeChunk_spec p m w Hi Hc Hp Hl)
      as (hd & body & c1 & m1 & w1 & E1 & W1 & O1 & Hl1 & Hi1 & S1 & R1 & Hc1).
    subst c1. destruct (IH m1 w1 Hi1 Hc1 Hl1)
      as (out & c2 & m' & w' & E2 & W2 & O2 & Hl2 & Hi2 & S2 & R2 & Hc2).
    exists (hd ++ body ++ out), c2, m', w'. simpl. rewrite E1, E2, W1, W2.
    split_and!; try done; [|congruence].
    by rewrite O2, O1, <- !app_assoc.
Qed.

Lemma readAll_spec ps m out c2 segs rest :
  is_Some (cipher (recvCipher m)) → fits ps →
  frames (recvCipher m) ps = Some (out, c2) →
  nonempty segs → mjoin segs = out ++ rest →
  ∃ m' segs', readAll (length ps) m segs = Some (ps, m', segs')
  ∧ recvCipher m' = c2 ∧ sendCipher m' = sendCipher m
  ∧ mjoin segs' = rest ∧ nonempty segs'.
Proof using H0.
  intros Hc Hfit. revert m out segs Hc.
  induction Hfit as [|p ps Hp _ IH]; intros m out segs Hc Hf Hne Hj; simpl in Hf.
  - injection Hf as <- <-. exists m, segs. by split_and!.
  - destruct (frame (recvCipher m) p) as [[[hd body] c1]|] eqn:E1; [|done].
    destruct (frames c1 ps) as [[out2 c3]|] eqn:E2; [|done].
    injection Hf as <- <-. rewrite <- !app_assoc in Hj.
    destruct (ReadMessage_frame m p hd body c1 segs (out2 ++ rest) Hc Hp E1 Hne Hj)
      as (s1 & R1 & J1 & N1).
    destruct (IH (set_recvCipher c1 m) out2 s1) as (m' & s2 & R2 & C2 & S2 & J2 & N2);
      try done.
    { destruct (frame_ok (recvCipher m) p Hc) as (h & b & Hf' & _ & _ & _ & _ & Hcc).
      rewrite E1 in Hf'. by injection Hf' as _ _ ->. }
    exists m', s2. simpl. rewrite R1, R2. by split_and!.
Qed.

End Frames.

(** ** The connections *)

Section Conns.
Context `{CryptoLaws}.

Lemma writeLoop_spec fuel b bw cs m w :
  idleMachine m → is_Some (cipher (sendCipher m)) → lossless w →
  0 ≤ bw ≤ len b → 0 < cs ≤ MaxUint16 → len b - bw ≤ Z.of_nat fuel →
  ∃ ps m' w', mjoin ps = drop (Z.to_nat bw) b ∧ fits ps
  ∧ writeLoop fuel b bw cs m w = Some (Ok (len b, None), m', w')
  ∧ writeAll ps m w = Some (m', w').
Proof using H0.
  revert bw cs m w. induction fuel as [|fuel IH]; intros bw cs m w Hi Hc Hl Hb Hcs Hf.
  { exists [], m, w. simpl. rewrite (proj2 (Z.ltb_ge _ _)) by lia.
    replace bw with (len b) by lia. split_and!; try done; [|constructor].
    unfold len. rewrite Nat2Z.id. by rewrite drop_all. }
  cbn [writeLoop]. destruct (Z.ltb_spec bw (len b)).
  2: { exists [], m, w. replace bw with (len b) by lia.
       split_and!; try done; [|constructor].
       unfold len. rewrite Nat2Z.id. by rewrite drop_all. }
  set (cs' := if len b <? bw + cs then len b - bw else cs).
  assert (Hcs' : 0 < cs' ≤ MaxUint16 ∧ bw + cs' ≤ len b) by (unfold cs'; case_if; lia).
  rewrite slice_ok by lia. replace (bw + cs' - bw) with cs' by lia.
  set (chunk := take (Z.to_nat cs') (drop (Z.to_nat bw) b)).
  assert (Hlen : len chunk = cs')
    by (unfold chunk, len in *; rewrite length_take, length_drop; lia).
  destruct (writeChunk_spec chunk m w Hi Hc ltac:(lia) Hl)
    as (hd & body & c1 & m1 & w1 & _ & W1 & _ & Hl1 & Hi1 & S1 & _ & Hc1).
  rewrite W1, Hlen. subst c1.
  destruct (IH (bw + cs') cs' m1 w1) as (ps & m' & w' & J & Hfit & HL & HA);
    try done; [lia..|].
  exists (chunk :: ps), m', w'. split_and!; try done.
  - change (mjoin (chunk :: ps)) with (chunk ++ mjoin ps). rewrite J.
    unfold chunk. rewrite Z2Nat.inj_add by lia. rewrite <- drop_drop.
    apply take_drop.
  - constructor; [lia|done].
  - cbn [writeAll]. by rewrite W1.
Qed.

Lemma NoiseConn_Write_spec b m w :
  idleMachine m → is_Some (cipher (sendCipher m)) → lossless w →
  ∃ ps m' w', mjoin ps = b ∧ fits ps
  ∧ NoiseConn_Write b m w = Some (Ok (len b, None), m', w')
  ∧ writeAll ps m w = Some (m', w').
Proof using H0.
  intros Hi Hc Hl. unfold NoiseConn_Write.
  destruct (Z.leb_spec (len b) MaxUint16) as [Hle|Hgt].
  - destruct (writeChunk_spec b m w Hi Hc Hle Hl)
      as (hd & body & c1 & m1 & w1 & _ & W1 & _).
    exists [b], m1, w1. rewrite W1. simpl. rewrite app_nil_r, W1.
    split_and!; try done. by repeat constructor.
  - destruct (writeLoop_spec (length b) b 0 MaxUint16 m w)
      as (ps & m' & w' & J & Hfit & HL & HA); try done.
    + pose proof (len_nonneg b). lia.
    + unfold len. lia.
    + by exists ps, m', w'.
Qed.

(** A read of the gRPC connection that finds a message at the head of the
    stream. *)
Lemma grpc_read_head p c m buf hd body c2 segs rest :
  nextMsg c = [] → gc_noise c = Some m → is_Some (cipher (recvCipher m)) →
  len p ≤ MaxUint16 →
  frame (recvCipher m) p = Some (hd, body, c2) →
  nonempty segs → mjoin segs = hd ++ body ++ rest →
  ∃ segs', mjoin segs' = rest ∧ nonempty segs'
  ∧ let c1 := set_gc_noise (set_recvCipher c2 m) c in
    let k := Z.to_nat defaultGrpcWriteBufSize in
    NoiseGrpcConn_Read buf c segs =
    if defaultGrpcWriteBufSize <? len p
    then (Ok (defaultGrpcWriteBufSize, copy buf (take k p)),
          set_nextMsg (drop k p) c1, segs')
    else (Ok (len p, copy buf p), c1, segs').
Proof using H0.
  intros Hn Hm Hc Hp Hf Hne Hj.
  destruct (ReadMessage_frame m p hd body c2 segs rest Hc Hp Hf Hne Hj)
    as (segs' & HR & J' & N').
  exists segs'. split; [done|]. split; [done|].
  unfold NoiseGrpcConn_Read. rewrite Hn. simpl (0 <? len []). cbv iota.
  by rewrite Hm, HR.
Qed.

End Conns.

(** What [NoiseConn.Write] puts on the wire, a machine that shares the cipher
    reads back. *)
Lemma write_read_back `{CryptoLaws} b mA mB w :
  sendCipher mA = recvCipher mB → is_Some (cipher (sendCipher mA)) →
  idleMachine mA → lossless w → written w = [] →
  ∃ ps mA' w', NoiseConn_Write b mA w = Some (Ok (len b, None), mA', w')
  ∧ mjoin ps = b ∧ fits ps
  ∧ ∀ segs rest, nonempty segs → mjoin segs = written w' ++ rest →
    ∃ mB' segs', readAll (length ps) mB segs = Some (ps, mB', segs')
    ∧ mjoin segs' = rest.
Proof.
  intros Hs Hc Hi Hl Hw.
  destruct (NoiseConn_Write_spec b mA w Hi Hc Hl)
    as (ps & mA' & w' & J & Hfit & HW & HA).
  exists ps, mA', w'. split_and!; try done. intros segs rest Hne Hj.
  destruct (writeAll_spec ps mA w Hi Hc Hfit Hl)
    as (out & c2 & mA2 & w2 & E & W & O & _).
  rewrite HA in W. injection W as <- <-. rewrite O, Hw in Hj. simpl in Hj.
  rewrite Hs in E, Hc.
  destruct (readAll_spec ps mB out c2 segs rest Hc Hfit E Hne Hj)
    as (mB' & segs' & R & _ & _ & J' & _).
  by exists mB', segs'.
Qed.

(** ** Properties *)

(** C9: messages written on one machine and read on a machine that shares its
    cipher come out in order and unchanged, however many there are (the key
    rotates every 1000 encryptions) and however the stream between them is cut
    into segments, and the two ciphers stay in step. *)
Theorem transport_roundtrip `{CryptoLaws} ps mA mB w :
  sendCipher mA = recvCipher mB → is_Some (cipher (sendCipher mA)) →
  idleMachine mA → fits ps → lossless w → written w = [] →
  ∃ mA' w', writeAll ps mA w = Some (mA', w') ∧ idleMachine mA'
  ∧ ∀ segs rest, nonempty segs → mjoin segs = written w' ++ rest →
    ∃ mB' segs', readAll (length ps) mB segs = Some (ps, mB', segs')
    ∧ mjoin segs' = rest ∧ sendCipher mA' = recvCipher mB'.
Proof.
  intros Hs Hc Hi Hfit Hl Hw.
  destruct (writeAll_spec ps mA w Hi Hc Hfit Hl)
    as (out & c2 & mA' & w' & E & W & O & _ & Hi' & S & _ & _).
  exists mA', w'. split_and!; try done. intros segs rest Hne Hj.
  rewrite O, Hw in Hj. simpl in Hj. rewrite Hs in E, Hc.
  destruct (readAll_spec ps mB out c2 segs rest Hc Hfit E Hne Hj)
    as (mB' & segs' & R & C & _ & J & _).
  exists mB', segs'. split_and!; try done. congruence.
Qed.

Definition toyMachine : @Machine toyCrypto :=
  let c := mkCipher 999 [1] [2] (Some [1]) in
  @mkMachine toyCrypto (toyConn 3 None None) c c
    (@mkHandshake toyCrypto newSymmetricState true 3%positive None None None []
       None None XXPattern 0 2 2) [] [].

Definition perfectSink : sink := mkSink [] (λ _ l, (l, None)) 0.

Lemma transport_roundtrip_witness : let _ := toyCrypto in
  ∃ mA' w', writeAll [[5]; [6; 7]] toyMachine perfectSink = Some (mA', w')
  ∧ ∀ segs, nonempty segs → mjoin segs = written w' ++ [] →
    ∃ mB' segs', readAll 2 toyMachine segs = Some ([[5]; [6; 7]], mB', segs').
Proof.
  intros tc.
  destruct (@transport_roundtrip toyCrypto toy_laws [[5]; [6; 7]] toyMachine
    toyMachine perfectSink) as (mA' & w' & W & _ & HR).
  - reflexivity.
  - by eexists.
  - split; reflexivity.
  - repeat (apply List.Forall_cons; [discriminate|]). apply List.Forall_nil.
  - intros k l. reflexivity.
  - reflexivity.
  - exists mA', w'. split; [exact W|]. intros segs Hne Hj.
    destruct (HR segs [] Hne Hj) as (mB' & segs' & R & _).
    exists mB', segs'. exact R.
Defined.

(** C24: [Flush] resumes where the last one stopped.  After [WriteMessage],
    any number of calls on a writer that reports its short writes puts a
    prefix of the frame on the wire and keeps the rest, nothing is sent twice
    or dropped, and once a call reports no error the frame is complete and the
    counts returned add up to the length of the message. *)
Theorem flush_resumes `{CryptoLaws} p m k w nns err m' w' :
  idleMachine m → is_Some (cipher (sendCipher m)) → len p ≤ MaxUint16 →
  sink_ok w →
  flushes (S k) (snd (WriteMessage p m)) w = (nns, err, m', w') →
  ∃ hd body c2, frame (sendCipher m) p = Some (hd, body, c2)
  ∧ written w' ++ pend m' = written w ++ hd ++ body
  ∧ (err = None → pend m' = [] ∧ sumZ nns = len p).
Proof.
  intros Hi Hc Hp Hok Hf.
  destruct (WriteMessage_frame m p Hi Hc Hp)
    as (hd & body & c2 & Hfr & HW & L1 & L2 & _).
  rewrite HW in Hf. cbn [snd] in Hf.
  apply flushes_spec in Hf as (F1 & F2 & _ & _ & F5); [|done].
  exists hd, body, c2. split_and!; try done.
  intros He. specialize (F5 ltac:(lia) He). split; [done|].
  unfold pend in F5. apply app_eq_nil in F5 as [_ Fb].
  unfold payRem in F2. rewrite Fb in F2. simpl in F2. rewrite L2 in F2.
  pose proof (len_nonneg p). unfold macSize, len in *. simpl length in F2. lia.
Qed.

(** Two calls that fail after seven bytes each, then two that finish: the
    whole frame is on the wire once. *)
Lemma flush_resumes_witness : let _ := toyCrypto in
  let w := mkSink [] (λ k l, if (k <? 2)%nat then (7, Some EOF) else (l, None)) 0 in
  ∃ nns m' w' hd body c2,
  flushes 4 (snd (@WriteMessage toyCrypto [5] toyMachine)) w = (nns, None, m', w')
  ∧ frame (sendCipher toyMachine) [5] = Some (hd, body, c2)
  ∧ written w' = hd ++ body ∧ pend m' = [] ∧ sumZ nns = 1.
Proof.
  intros tc w.
  destruct (flushes 4 (snd (@WriteMessage toyCrypto [5] toyMachine)) w)
    as [[[nns err] m'] w'] eqn:Hf.
  destruct (@flush_resumes toyCrypto toy_laws [5] toyMachine 3 w nns err m' w')
    as (hd & body & c2 & F1 & F2 & F3).
  - split; reflexivity.
  - by eexists.
  - vm_compute. discriminate.
  - intros j l. simpl. destruct (j <? 2)%nat; [discriminate|].
    intros _. simpl. lia.
  - exact Hf.
  - assert (He : err = None) by (vm_compute in Hf; by injection Hf).
    subst err. destruct (F3 eq_refl) as [P1 P2]. rewrite P1, app_nil_r in F2.
    exists nns, m', w', hd, body, c2. split; [reflexivity|]. split; [exact F1|].
    split; [exact F2|]. split; [exact P1|exact P2].
Defined.

(** [NoiseConn.Write] accepts data of any length: it returns the full
    length, and what it puts on the wire is a sequence of messages of at most
    65535 bytes whose contents, read back on the other side from any
    segmentation, concatenate to the data. *)
Theorem noiseconn_write_roundtrip `{CryptoLaws} b mA mB w :
  sendCipher mA = recvCipher mB → is_Some (cipher (sendCipher mA)) →
  idleMachine mA → lossless w → written w = [] →
  ∃ ps mA' w', NoiseConn_Write b mA w = Some (Ok (len b, None), mA', w')
  ∧ mjoin ps = b ∧ fits ps
  ∧ ∀ segs rest, nonempty segs → mjoin segs = written w' ++ rest →
    ∃ mB' segs', readAll (length ps) mB segs = Some (ps, mB', segs')
    ∧ mjoin segs' = rest.
Proof. by apply write_read_back. Qed.

Lemma noiseconn_write_roundtrip_witness : let _ := toyCrypto in
  ∃ ps mA' w', NoiseConn_Write [9; 8; 7] toyMachine perfectSink
    = Some (Ok (len [9; 8; 7], None), mA', w')
  ∧ mjoin ps = [9; 8; 7].
Proof.
  intros tc.
  destruct (@noiseconn_write_roundtrip toyCrypto toy_laws [9; 8; 7]
    toyMachine toyMachine perfectSink) as (ps & mA' & w' & HW & J & _).
  - reflexivity.
  - by eexists.
  - split; reflexivity.
  - intros k l. reflexivity.
  - reflexivity.
  - exists ps, mA', w'. split; [exact HW|exact J].
Defined.

(** A gRPC read with a buffer of at least 32768 bytes returns a message
    of up to that size whole; a longer one is returned in two reads, which
    together give the message and leave nothing behind. *)
Theorem grpc_read_message `{CryptoLaws} p c m b1 b2 hd body c2 segs rest :
  nextMsg c = [] → gc_noise c = Some m → is_Some (cipher (recvCipher m)) →
  len p ≤ MaxUint16 →
  frame (recvCipher m) p = Some (hd, body, c2) →
  nonempty segs → mjoin segs = hd ++ body ++ rest →
  defaultGrpcWriteBufSize ≤ len b1 → defaultGrpcWriteBufSize ≤ len b2 →
  ∃ n1 o1 c1 segs', NoiseGrpcConn_Read b1 c segs = (Ok (n1, o1), c1, segs')
  ∧ mjoin segs' = rest
  ∧ (if len p <=? defaultGrpcWriteBufSize
     then take (Z.to_nat n1) o1 = p ∧ n1 = len p ∧ nextMsg c1 = []
     else ∃ n2 o2 c3, NoiseGrpcConn_Read b2 c1 segs' = (Ok (n2, o2), c3, segs')
          ∧ take (Z.to_nat n1) o1 ++ take (Z.to_nat n2) o2 = p
          ∧ nextMsg c3 = []).
Proof.
  intros Hn Hm Hc Hp Hf Hne Hj Hb1 Hb2.
  destruct (grpc_read_head p c m b1 hd body c2 segs rest Hn Hm Hc Hp Hf Hne Hj)
    as (segs' & J & _ & HR).
  assert (Hcopy : ∀ buf q : bytes, len q ≤ len buf →
    take (length q) (copy buf q) = q).
  { intros buf q Hq. unfold copy, len in *. rewrite take_ge with (l := q) by lia.
    by rewrite take_app_length. }
  assert (∃ d, defaultGrpcWriteBufSize = d ∧ d = 32768) as (d & Hd & Hd')
    by (by eexists).
  unfold NoiseGrpcConn_Read at 2. unfold MaxUint16 in *. cbv zeta in HR.
  rewrite Hd in *. clear Hd.
  destruct (Z.leb_spec (len p) d) as [Hle|Hgt].
  - rewrite (proj2 (Z.ltb_ge _ _)) in HR by lia.
    do 4 eexists. split; [exact HR|]. split; [done|].
    split_and!; try done. unfold len at 1. rewrite Nat2Z.id.
    apply Hcopy. lia.
  - rewrite (proj2 (Z.ltb_lt _ _)) in HR by lia.
    do 4 eexists. split; [exact HR|]. split; [done|].
    assert (Hl1 : length (take (Z.to_nat d) p) = Z.to_nat d)
      by (unfold len in *; rewrite length_take; lia).
    assert (Hl2 : 0 < len (drop (Z.to_nat d) p) ≤ d)
      by (unfold len in *; rewrite length_drop; lia).
    do 3 eexists. split.
    + cbn [nextMsg set_nextMsg]. rewrite (proj2 (Z.ltb_lt _ _)) by lia. done.
    + split; [|done].
      pose proof (Hcopy b1 (take (Z.to_nat d) p)) as E1. rewrite Hl1 in E1.
      rewrite E1 by (unfold len in *; lia).
      unfold len at 1. rewrite Nat2Z.id. rewrite Hcopy by lia.
      apply take_drop.
Qed.

Definition toyGrpc : @NoiseGrpcConn toyCrypto :=
  mkGrpcConn (toyConn 3 None None) [] (Some toyMachine) 0 2.

Definition toyFrame (p : bytes) : list bytes :=
  match @frame toyCrypto (recvCipher toyMachine) p with
  | Some (hd, body, _) => [hd ++ body]
  | None => []
  end.

Lemma grpc_read_message_witness : let _ := toyCrypto in
  ∃ n1 o1 c1 segs', NoiseGrpcConn_Read (replicate (Z.to_nat 32768) 0) toyGrpc
    (toyFrame [4; 5; 6]) = (Ok (n1, o1), c1, segs')
  ∧ take (Z.to_nat n1) o1 = [4; 5; 6].
Proof.
  intros tc.
  destruct (@frame_ok toyCrypto toy_laws (recvCipher toyMachine) [4; 5; 6])
    as (hd & body & Hf & _); [by eexists|].
  destruct (@grpc_read_message toyCrypto toy_laws [4; 5; 6] toyGrpc toyMachine
    (replicate (Z.to_nat 32768) 0) (replicate (Z.to_nat 32768) 0) hd body
    (advance (advance (recvCipher toyMachine))) (toyFrame [4; 5; 6]) [])
    as (n1 & o1 & c1 & segs' & HR & _ & HT).
  - reflexivity.
  - reflexivity.
  - by eexists.
  - discriminate.
  - exact Hf.
  - unfold toyFrame. rewrite Hf.
    apply List.Forall_cons; [|apply List.Forall_nil].
    apply (f_equal (option_map (λ x, fst (fst x)))) in Hf. vm_compute in Hf.
    injection Hf as <-. discriminate.
  - unfold toyFrame. rewrite Hf. simpl. by rewrite !app_nil_r.
  - unfold len. rewrite length_replicate, Z2Nat.id; [reflexivity|lia].
  - unfold len. rewrite length_replicate, Z2Nat.id; [reflexivity|lia].
  - exists n1, o1, c1, segs'. split; [exact HR|exact (proj1 HT)].
Defined.

(** A gRPC read with a buffer smaller than the message (of at most 32768
    bytes) reports more bytes than the buffer holds, and the bytes that did
    not fit are lost: nothing is kept for the next read. *)
Theorem grpc_read_small_buffer `{CryptoLaws} p c m buf hd body c2 segs rest :
  nextMsg c = [] → gc_noise c = Some m → is_Some (cipher (recvCipher m)) →
  len p ≤ defaultGrpcWriteBufSize →
  frame (recvCipher m) p = Some (hd, body, c2) →
  nonempty segs → mjoin segs = hd ++ body ++ rest → len buf < len p →
  ∃ o c1 segs', NoiseGrpcConn_Read buf c segs = (Ok (len p, o), c1, segs')
  ∧ len o = len buf ∧ len o < len p ∧ nextMsg c1 = [] ∧ mjoin segs' = rest.
Proof.
  intros Hn Hm Hc Hp Hf Hne Hj Hb. unfold defaultGrpcWriteBufSize in *.
  destruct (grpc_read_head p c m buf hd body c2 segs rest Hn Hm Hc)
    as (segs' & J & _ & HR);
    try done.
  { unfold MaxUint16. lia. }
  cbv zeta in HR. unfold defaultGrpcWriteBufSize in HR.
  rewrite (proj2 (Z.ltb_ge _ _)) in HR by lia.
  assert (Hl : len (copy buf p) = len buf) by (unfold len; by rewrite length_copy).
  do 3 eexists. split; [exact HR|]. rewrite Hl. by split_and!.
Qed.

Lemma grpc_read_small_buffer_witness : let _ := toyCrypto in
  ∃ o c1 segs', NoiseGrpcConn_Read [0] toyGrpc (toyFrame [4; 5; 6])
    = (Ok (len [4; 5; 6], o), c1, segs') ∧ len o = len [0].
Proof.
  intros tc.
  destruct (@frame_ok toyCrypto toy_laws (recvCipher toyMachine) [4; 5; 6])
    as (hd & body & Hf & _); [by eexists|].
  destruct (@grpc_read_small_buffer toyCrypto toy_laws [4; 5; 6] toyGrpc toyMachine
    [0] hd body (advance (advance (recvCipher toyMachine)))
    (toyFrame [4; 5; 6]) []) as (o & c1 & segs' & HR & HL & _).
  - reflexivity.
  - reflexivity.
  - by eexists.
  - discriminate.
  - exact Hf.
  - unfold toyFrame. rewrite Hf.
    apply List.Forall_cons; [|apply List.Forall_nil].
    apply (f_equal (option_map (λ x, fst (fst x)))) in Hf. vm_compute in Hf.
    injection Hf as <-. discriminate.
  - unfold toyFrame. rewrite Hf. simpl. by rewrite !app_nil_r.
  - reflexivity.
  - exists o, c1, segs'. split; [exact HR|exact HL].
Defined.

(** Key rotation.  Over the thousand encryptions of one key the nonce
    counts 0 to 999 and never repeats; the thousandth installs the next key,
    derived from the current key and salt, with the nonce back at zero. *)
Theorem key_rotation `{Crypto} c k :
  nonce c = 0 →
  ((k < 1000)%nat →
   nonce (Nat.iter k advance c) = Z.of_nat k
   ∧ secretKey (Nat.iter k advance c) = secretKey c
   ∧ cipher (Nat.iter k advance c) = cipher c)
  ∧ (let h := hkdf (secretKey c) (salt c) in
     Nat.iter 1000 advance c = mkCipher 0 (drop 32 h) (take 32 h) (Some (drop 32 h))).
Proof.
  intros Hn.
  assert (Hk : ∀ j, (j < 1000)%nat → Nat.iter j advance c =
    mkCipher (Z.of_nat j) (secretKey c) (salt c) (cipher c)).
  { intros j. induction j as [|j IH]; intros Hlt.
    - destruct c as [n0 ? ? ?]. simpl in Hn. by subst n0.
    - rewrite Nat.iter_succ, IH by lia. unfold advance. simpl.
      unfold u64. rewrite Z.mod_small by lia. unfold keyRotationInterval.
      rewrite (proj2 (Z.eqb_neq _ _)) by lia. f_equal. lia. }
  split.
  - intros Hlt. by rewrite Hk.
  - change 1000%nat with (S 999). rewrite Nat.iter_succ, Hk by lia. done.
Qed.

Lemma key_rotation_witness : let _ := toyCrypto in
  nonce (Nat.iter 3 advance (mkCipher 0 [1] [2] (Some [1]))) = Z.of_nat 3.
Proof.
  intros tc.
  apply (@key_rotation toyCrypto (mkCipher 0 [1] [2] (Some [1])) 3); [reflexivity|].
  apply Nat.ltb_lt. reflexivity.
Defined.

(** C40: [Clone] does not carry the handshake versions over: a clone of a
    connection that has already paired, and so uses the KK pattern, fails
    every handshake, where the original with the default versions can create
    its machine. *)
Theorem clone_cannot_reconnect `{Crypto} c k init n :
  remoteKey (gc_connData c) = Some k →
  maxHandshakeVersion c = MaxHandshakeVersion →
  (∃ err, (grpcHandshake init (Clone c) n).1.1 = Err err)
  ∧ ∃ m, NewBrontideMachine (gc_connData c) init
           (cd_HandshakePattern (gc_connData c)) (minHandshakeVersion c)
           (maxHandshakeVersion c) = Ok m.
Proof.
  intros Hk Hv. unfold grpcHandshake, Clone, cd_HandshakePattern. simpl.
  rewrite Hk, Hv. split.
  - eexists. reflexivity.
  - unfold NewBrontideMachine, newHandshakeState. simpl. rewrite Hk.
    destruct init; simpl; eexists; reflexivity.
Qed.

Lemma clone_cannot_reconnect_witness : let _ := toyCrypto in
  ∃ err, (grpcHandshake true (Clone
    (mkGrpcConn (toyConn 3 (Some 4) None) [] None 0 2)) (newNet [] 7%positive)).1.1
  = Err err.
Proof.
  intros tc.
  apply (@clone_cannot_reconnect toyCrypto
    (mkGrpcConn (toyConn 3 (Some 4) None) [] None 0 2) 4 true).
  - reflexivity.
  - reflexivity.
Defined.
