(* ===== verification/Listener.v ===== *)
(** * Noise over TCP ([mailbox/tcp_noise_conn.go], [mailbox/tcp_noise_listner.go])

    [Dial] and [Listener] set up [NoiseConn]s over TCP connections.  The
    listener's accept loop and its handshakes are goroutines that share a
    semaphore of [defaultHandshakes] slots and hand their results to [Accept]
    over an unbuffered channel. *)

From stdpp Require Import base numbers list strings tactics relations.
From S2P Require Import Prelude NoiseState NoiseHandshake NoiseTransport.

(** The TCP connections. *)

Section Tcp.
Context `{Crypto}.

(** A TCP connection: its traffic, the outcomes of the successive
    [SetReadDeadline] calls, and whether it has been closed. *)
Record tcpConn := mkTcp {
  t_net : netio;
  t_deadlineErr : nat → option error;
  t_deadlines : nat;
  t_closed : bool
}.

Definition set_net n c :=
  mkTcp n (t_deadlineErr c) (t_deadlines c) (t_closed c).
Definition closeTcp c := mkTcp (t_net c) (t_deadlineErr c) (t_deadlines c) true.
Definition setReadDeadline (c : tcpConn) : option error * tcpConn :=
  (t_deadlineErr c (t_deadlines c),
   mkTcp (t_net c) (t_deadlineErr c) (S (t_deadlines c)) (t_closed c)).

(** ** [Dial]

    [dialled] is the outcome of the dialer; the TCP connection is returned as
    [Dial] leaves it. *)
Definition tcp_Dial (localPriv : SingleKeyECDH) (passphrase : bytes)
    (dialled : result tcpConn) : result NoiseConn * option tcpConn :=
  match dialled with
  | Err e => (Err e, None)
  | Panic p => (Panic p, None)
  | Ok conn =>
      let connData := NewConnData localPriv None passphrase None None None in
      match NewBrontideMachine connData true (cd_HandshakePattern connData)
              MinHandshakeVersion MaxHandshakeVersion with
      | Err e => (Err e, Some conn)
      | Panic p => (Panic p, Some conn)
      | Ok noise =>
          match setReadDeadline conn with
          | (Some e, conn) => (Err e, Some (closeTcp conn))
          | (None, conn) =>
              match DoHandshake (noise, t_net conn) with
              | (Err e, (_, n)) => (Err e, Some (closeTcp (set_net n conn)))
              | (Panic p, (_, n)) => (Panic p, Some (set_net n conn))
              | (Ok _, (noise, n)) =>
                  match setReadDeadline (set_net n conn) with
                  | (Some e, conn) => (Err e, Some (closeTcp conn))
                  | (None, conn) => (Ok (mkNoiseConn noise []), Some conn)
                  end
              end
          end
      end
  end.

Definition RemotePub (c : NoiseConn) : option PublicKey :=
  remoteStatic (handshake (nc_noise c)).
Definition LocalPub (c : NoiseConn) : PublicKey :=
  PubKey (localStatic (handshake (nc_noise c))).

(** ** [Listener] *)

Definition defaultHandshakes : nat := 1000.

Definition rejectedConnErr (err : error) (remoteAddr : string) : error :=
  ErrWrap ("unable to accept connection from " +:+ remoteAddr +:+ ": ") err.

(** [maybeConn]: a connection, with the TCP connection below it, or an error. *)
Definition maybeConn : Type := (NoiseConn * tcpConn) + error.

(** The program points of [listen]: the [select], [tcp.Accept], [rejectConn],
    giving the slot back, returned. *)
Inductive listenPC :=
| LSelect
| LAccept
| LReject (err : error)
| LRelease
| LDone.

(** The program points of [doHandshake]: before the first test of [quit], in
    [DoHandshake], in [acceptConn] or [rejectConn], and in the deferred send
    that gives the slot back, with the TCP connection as it is left. *)
Inductive shakePC :=
| HStart (conn : tcpConn) (remoteAddr : string)
| HShake (noise : Machine) (conn : tcpConn) (remoteAddr : string)
| HOffer (r : maybeConn) (conn : tcpConn)
| HRelease (conn : tcpConn).

Record Listener := mkListener {
  l_localStatic : SingleKeyECDH;
  l_passphrase : bytes;
  l_authData : option bytes;
  handshakeSema : nat;
  l_quit : bool;
  l_tcpClosed : bool;
  listenPoint : listenPC;
  shakes : list shakePC;
  accepted : list maybeConn;
  finished : list tcpConn
}.

Definition set_sema v l := mkListener (l_localStatic l) (l_passphrase l)
  (l_authData l) v (l_quit l) (l_tcpClosed l) (listenPoint l) (shakes l)
  (accepted l) (finished l).
Definition set_listen v l := mkListener (l_localStatic l) (l_passphrase l)
  (l_authData l) (handshakeSema l) (l_quit l) (l_tcpClosed l) v (shakes l)
  (accepted l) (finished l).
Definition set_shakes v l := mkListener (l_localStatic l) (l_passphrase l)
  (l_authData l) (handshakeSema l) (l_quit l) (l_tcpClosed l) (listenPoint l) v
  (accepted l) (finished l).
Definition set_accepted v l := mkListener (l_localStatic l) (l_passphrase l)
  (l_authData l) (handshakeSema l) (l_quit l) (l_tcpClosed l) (listenPoint l)
  (shakes l) v (finished l).
Definition set_finished v l := mkListener (l_localStatic l) (l_passphrase l)
  (l_authData l) (handshakeSema l) (l_quit l) (l_tcpClosed l) (listenPoint l)
  (shakes l) (accepted l) v.

(** [NewListener]; [resolved] and [listening] are the outcomes of
    [net.ResolveTCPAddr] and [net.ListenTCP]. *)
Definition NewListener (passphrase : bytes) (localStatic : SingleKeyECDH)
    (authData : option bytes) (resolved listening : result unit) : result Listener :=
  _ ← resolved;
  _ ← listening;
  Ok (mkListener localStatic passphrase authData defaultHandshakes false false
        LSelect [] [] []).

(** [doHandshake] up to [DoHandshake]. *)
Definition shakeBegin (l : Listener) (conn : tcpConn) (addr : string) :
    result shakePC :=
  if l_quit l then Ok (HRelease conn) else
  let connData := NewConnData (l_localStatic l) None (l_passphrase l)
                    (l_authData l) None None in
  match NewBrontideMachine connData false (cd_HandshakePattern connData)
          MinHandshakeVersion MaxHandshakeVersion with
  | Err e => Ok (HOffer (inr (rejectedConnErr e addr)) conn)
  | Panic p => Panic p
  | Ok noise =>
      match setReadDeadline conn with
      | (Some e, conn) => Ok (HOffer (inr (rejectedConnErr e addr)) (closeTcp conn))
      | (None, conn) => Ok (HShake noise conn addr)
      end
  end.

(** [doHandshake] from [DoHandshake] on. *)
Definition shakeEnd (l : Listener) (noise : Machine) (conn : tcpConn)
    (addr : string) : result shakePC :=
  match DoHandshake (noise, t_net conn) with
  | (Err e, (_, n)) =>
      Ok (HOffer (inr (rejectedConnErr e addr)) (closeTcp (set_net n conn)))
  | (Panic p, _) => Panic p
  | (Ok _, (noise, n)) =>
      let conn := set_net n conn in
      if l_quit l then Ok (HRelease conn) else
      match setReadDeadline conn with
      | (Some e, conn) => Ok (HOffer (inr (rejectedConnErr e addr)) (closeTcp conn))
      | (None, conn) => Ok (HOffer (inl (mkNoiseConn noise [], conn)) conn)
      end
  end.

(** A step of a handshake other than meeting [Accept]. *)
Inductive shake_step : Listener → shakePC → option shakePC → Listener → Prop :=
| sh_begin l conn addr pc :
    shakeBegin l conn addr = Ok pc → shake_step l (HStart conn addr) (Some pc) l
| sh_end l noise conn addr pc :
    shakeEnd l noise conn addr = Ok pc →
    shake_step l (HShake noise conn addr) (Some pc) l
| sh_quit l r conn :
    l_quit l = true → shake_step l (HOffer r conn) (Some (HRelease conn)) l
| sh_release l conn :
    (handshakeSema l < defaultHandshakes)%nat →
    shake_step l (HRelease conn) None
      (set_finished (finished l ++ [conn]) (set_sema (S (handshakeSema l)) l)).

(** A step of [listen] other than meeting [Accept]; a closed TCP listener
    accepts nothing. *)
Inductive listen_step : Listener → Listener → Prop :=
| ln_take l k :
    listenPoint l = LSelect → handshakeSema l = S k →
    listen_step l (set_listen LAccept (set_sema k l))
| ln_quit l :
    listenPoint l = LSelect → l_quit l = true → listen_step l (set_listen LDone l)
| ln_accept l conn addr :
    listenPoint l = LAccept → l_tcpClosed l = false →
    listen_step l (set_listen LSelect (set_shakes (shakes l ++ [HStart conn addr]) l))
| ln_fail l err :
    listenPoint l = LAccept → listen_step l (set_listen (LReject err) l)
| ln_reject_quit l err :
    listenPoint l = LReject err → l_quit l = true → listen_step l (set_listen LRelease l)
| ln_release l :
    listenPoint l = LRelease → (handshakeSema l < defaultHandshakes)%nat →
    listen_step l (set_listen LSelect (set_sema (S (handshakeSema l)) l)).

(** [Accept] receives from the goroutine it meets, or fails once the listener
    is closed. *)
Inductive Accept : Listener → maybeConn → Listener → Prop :=
| ac_listen l err :
    listenPoint l = LReject err →
    Accept l (inr err) (set_accepted (accepted l ++ [inr err]) (set_listen LRelease l))
| ac_shake l l1 r conn l2 :
    shakes l = l1 ++ HOffer r conn :: l2 →
    Accept l r (set_accepted (accepted l ++ [r])
                  (set_shakes (l1 ++ HRelease conn :: l2) l))
| ac_quit l :
    l_quit l = true → Accept l (inr (ErrMsg "brontide connection closed")) l.

(** [Close]; [closeErr] is what closing an open TCP listener returns. *)
Definition listener_Close (closeErr : option error) (l : Listener) :
    option error * Listener :=
  (if l_tcpClosed l then Some (ErrMsg "use of closed network connection") else closeErr,
   mkListener (l_localStatic l) (l_passphrase l) (l_authData l) (handshakeSema l)
     true true (listenPoint l) (shakes l) (accepted l) (finished l)).

Inductive listener_step : Listener → Listener → Prop :=
| lt_listen l l' : listen_step l l' → listener_step l l'
| lt_shake l l1 pc l2 pc' l' :
    shakes l = l1 ++ pc :: l2 → shake_step l pc pc' l' →
    listener_step l (set_shakes (l1 ++ option_list pc' ++ l2) l')
| lt_accept l r l' : Accept l r l' → listener_step l l'
| lt_close e l : listener_step l (listener_Close e l).2.

Definition listener_life (l : Listener) : Prop :=
  ∃ pw k auth l0, NewListener pw k auth (Ok tt) (Ok tt) = Ok l0
  ∧ rtc listener_step l0 l.

End Tcp.

(** ** The slots *)

(** The slot [listen] holds. *)
Definition held (pc : listenPC) : nat :=
  match pc with LAccept | LReject _ | LRelease => 1 | LSelect | LDone => 0 end.

(** A connection offered to [Accept] has completed the handshake as responder
    with the listener's key, passphrase and auth data. *)
Definition responder `{Crypto} (l : Listener) : result Machine :=
  let connData := NewConnData (l_localStatic l) None (l_passphrase l)
                    (l_authData l) None None in
  NewBrontideMachine connData false (cd_HandshakePattern connData)
    MinHandshakeVersion MaxHandshakeVersion.

Definition authentic `{Crypto} (l : Listener) (r : maybeConn) : Prop :=
  match r with
  | inl (c, conn) => ∃ noise n0,
      responder l = Ok noise
      ∧ DoHandshake (noise, n0) = (Ok tt, (nc_noise c, t_net conn))
  | inr _ => True
  end.

Definition shake_ok `{Crypto} (l : Listener) (pc : shakePC) : Prop :=
  match pc with
  | HShake noise _ _ => responder l = Ok noise
  | HOffer r _ => authentic l r
  | HStart _ _ | HRelease _ => True
  end.

Record listener_ok `{Crypto} (l : Listener) : Prop := {
  lo_slots : (handshakeSema l + held (listenPoint l) + length (shakes l)
              = defaultHandshakes)%nat;
  lo_shakes : Forall (shake_ok l) (shakes l);
  lo_accepted : Forall (authentic l) (accepted l)
}.

(** How far a handshake is from giving its slot back. *)
Definition distance `{Crypto} (pc : shakePC) : nat :=
  match pc with
  | HStart _ _ => 4 | HShake _ _ _ => 3 | HOffer _ _ => 2 | HRelease _ => 1
  end.

Definition distances `{Crypto} (pcs : list shakePC) : nat := sum_list (distance <$> pcs).

Section Listener.
Context `{Crypto}.

(** The listener's configuration. *)
Definition sameConfig (l l' : Listener) : Prop :=
  l_localStatic l' = l_localStatic l ∧ l_passphrase l' = l_passphrase l
  ∧ l_authData l' = l_authData l.

Lemma responder_config l l' : sameConfig l l' → responder l' = responder l.
Proof using. intros (H1 & H2 & H3). unfold responder. by rewrite H1, H2, H3. Qed.

Lemma authentic_config l l' r : sameConfig l l' → authentic l r → authentic l' r.
Proof using.
  intros Hc. destruct r as [[c conn]|]; [|done]. simpl.
  by rewrite (responder_config l l' Hc).
Qed.

Lemma shake_ok_config l l' pc : sameConfig l l' → shake_ok l pc → shake_ok l' pc.
Proof using.
  intros Hc. destruct pc; simpl; try done.
  - by rewrite (responder_config l l' Hc).
  - by apply authentic_config.
Qed.

Lemma shakeBegin_ok l conn addr pc :
  shakeBegin l conn addr = Ok pc → shake_ok l pc ∧ (distance pc < 4)%nat.
Proof using.
  unfold shakeBegin. destruct (l_quit l).
  { intros [= <-]. simpl. split; [done|lia]. }
  fold (responder l). destruct (responder l) as [noise|e|p] eqn:Hr; [| |done].
  - unfold setReadDeadline. destruct (t_deadlineErr _ _); intros [= <-]; simpl;
      (split; [done|lia]).
  - intros [= <-]. simpl. split; [done|lia].
Qed.

Lemma shakeEnd_ok l noise conn addr pc :
  responder l = Ok noise → shakeEnd l noise conn addr = Ok pc →
  shake_ok l pc ∧ (distance pc < 3)%nat.
Proof using.
  intros Hr. unfold shakeEnd.
  destruct (DoHandshake (noise, t_net conn)) as [[u|e|p] [m n]] eqn:Hd; [| |done].
  - destruct (l_quit l); [intros [= <-]; simpl; split; [done|lia]|].
    unfold setReadDeadline. destruct (t_deadlineErr _ _); intros [= <-]; simpl;
      (split; [|lia]); [done|]. exists noise, (t_net conn). by destruct u.
  - intros [= <-]. simpl. split; [done|lia].
Qed.

(** A handshake step leaves the configuration and what was accepted alone,
    moves closer to its end and keeps the count of slots. *)
Lemma shake_step_spec l pc pc' l' :
  shake_ok l pc → shake_step l pc pc' l' →
  sameConfig l l' ∧ listenPoint l' = listenPoint l ∧ accepted l' = accepted l
  ∧ shakes l' = shakes l ∧ l_quit l' = l_quit l ∧ l_tcpClosed l' = l_tcpClosed l
  ∧ Forall (shake_ok l) (option_list pc')
  ∧ (distances (option_list pc') < distance pc)%nat
  ∧ (handshakeSema l' + length (option_list pc') = handshakeSema l + 1)%nat.
Proof using.
  intros Hok Hs. destruct Hs as [l conn addr pc Hb|l noise conn addr pc Hb
    |l r conn Hq|l conn Hlt]; simpl in *.
  - apply shakeBegin_ok in Hb as [? ?]. unfold distances. simpl.
    split_and!; try done; try lia. by repeat constructor.
  - apply shakeEnd_ok in Hb as [? ?]; [|done]. unfold distances. simpl.
    split_and!; try done; try lia. by repeat constructor.
  - unfold distances. simpl. split_and!; try done; try lia. by repeat constructor.
  - unfold distances. simpl. split_and!; try done; try lia; try constructor.
Qed.

Lemma listen_step_spec l l' :
  listen_step l l' →
  sameConfig l l' ∧ accepted l' = accepted l ∧ l_quit l' = l_quit l
  ∧ l_tcpClosed l' = l_tcpClosed l
  ∧ (∃ new, shakes l' = shakes l ++ new ∧ Forall (shake_ok l) new
     ∧ (l_tcpClosed l = true → new = [])
     ∧ (handshakeSema l' + held (listenPoint l') + length new
        = handshakeSema l + held (listenPoint l))%nat).
Proof using.
  intros Hs. destruct Hs as [l k Hp Hk|l Hp Hq|l conn addr Hp Hc|l err Hp
    |l err Hp Hq|l Hp Hlt]; rewrite Hp;
    (split_and!; [done|done|done|done|]).
  3: exists [HStart conn addr]; simpl; split_and!;
       [done|by repeat constructor|congruence|lia].
  all: exists []; simpl; rewrite app_nil_r; split_and!; try done; try lia; constructor.
Qed.

Lemma listener_step_ok l l' : listener_step l l' → listener_ok l → listener_ok l'.
Proof using.
  intros Hs Hok. destruct Hok as [Hsl Hsh Hac].
  destruct Hs as [l l' Hs|l l1 pc l2 pc' l' Hl Hs|l r l' Ha|e l].
  - apply listen_step_spec in Hs as (Hc & Ha & _ & _ & new & Hn & Hnew & _ & Hsum).
    split.
    + rewrite Hn, length_app. lia.
    + rewrite Hn. apply Forall_app. split; eapply List.Forall_impl; try eassumption;
        intros; by eapply shake_ok_config.
    + rewrite Ha. eapply List.Forall_impl; [|exact Hac]. intros.
      by eapply authentic_config.
  - rewrite Hl in Hsh. apply Forall_app in Hsh as [Hsh1 Hsh2].
    inversion Hsh2 as [|? ? Hpc Hsh3]; subst.
    apply shake_step_spec in Hs as (Hc & Hp & Ha & _ & _ & _ & Hnew & _ & Hsum); [|done].
    split; cbn [handshakeSema listenPoint shakes accepted set_shakes].
    + rewrite Hp. rewrite Hl in Hsl. rewrite !length_app in *. simpl in *. lia.
    + rewrite !Forall_app. split_and!; eapply List.Forall_impl; try eassumption;
        intros; by eapply shake_ok_config.
    + rewrite Ha. eapply List.Forall_impl; [|exact Hac]. intros.
      by eapply authentic_config.
  - destruct Ha as [l err Hp|l l1 r conn l2 Hl|l Hq]; [| |done];
      split; cbn [handshakeSema listenPoint shakes accepted set_accepted set_listen
        set_shakes] in *.
    + rewrite Hp in Hsl. simpl in *. lia.
    + done.
    + apply Forall_app. split; [done|]. by repeat constructor.
    + rewrite Hl in Hsl. rewrite !length_app in *. simpl in *. lia.
    + rewrite Hl in Hsh. apply Forall_app in Hsh as [? Hsh2].
      inversion Hsh2; subst. apply Forall_app. split; [done|]. by constructor.
    + rewrite Hl in Hsh. apply Forall_app in Hsh as [? Hsh2].
      inversion Hsh2; subst. apply Forall_app. split; [done|]. by repeat constructor.
  - by split.
Qed.

Lemma listener_life_ok l : listener_life l → listener_ok l.
Proof using.
  intros (pw & k & auth & l0 & Hn & Hr).
  assert (Hok : listener_ok l0).
  { injection Hn as <-. split; [done|constructor..]. }
  clear Hn. induction Hr; eauto using listener_step_ok.
Qed.

End Listener.

(** ** Closing *)

Section Closing.
Context `{Crypto}.

(** The handshakes in progress return. *)
Definition returning (l : Listener) : Prop :=
  ∀ noise conn addr, HShake noise conn addr ∈ shakes l →
  is_panic (DoHandshake (noise, t_net conn)).1 = false.

Definition closing (l : Listener) : Prop :=
  listener_ok l ∧ l_quit l = true ∧ l_tcpClosed l = true ∧ returning l.

(** A handshake of a closing listener can move on, to a point where it does not
    wait for its peer. *)
Lemma closing_shake l pc :
  closing l → pc ∈ shakes l → ∃ pc' l', shake_step l pc pc' l'
  ∧ (∀ noise conn addr, pc' ≠ Some (HShake noise conn addr)).
Proof using.
  intros (Hok & Hq & _ & Hret) Hin.
  destruct pc as [conn addr|noise conn addr|r conn|conn].
  - exists (Some (HRelease conn)), l. split; [|done]. apply sh_begin.
    unfold shakeBegin. by rewrite Hq.
  - specialize (Hret _ _ _ Hin).
    destruct (shakeEnd l noise conn addr) as [pc|e|p] eqn:Hs.
    + exists (Some pc), l. split; [by apply sh_end|]. revert Hs. unfold shakeEnd.
      rewrite Hq. destruct (DoHandshake _) as [[u|e|p] [m n]]; by intros [= <-].
    + revert Hs. unfold shakeEnd. rewrite Hq. by destruct (DoHandshake _) as [[] []].
    + revert Hs Hret. unfold shakeEnd. rewrite Hq.
      by destruct (DoHandshake _) as [[] []].
  - exists (Some (HRelease conn)), l. split; [|done]. by apply sh_quit.
  - eexists None, _. split; [|done]. apply sh_release.
    destruct Hok as [Hsl _ _].
    assert (0 < length (shakes l))%nat by (destruct (shakes l); [by inv Hin|simpl; lia]).
    lia.
Qed.

Lemma distances_app a b : distances (a ++ b) = (distances a + distances b)%nat.
Proof using. unfold distances. by rewrite fmap_app, sum_list_with_app. Qed.

Lemma closing_step l l1 pc l2 :
  closing l → shakes l = l1 ++ pc :: l2 →
  ∃ l', listener_step l l' ∧ closing l'
  ∧ (distances (shakes l') < distances (shakes l))%nat.
Proof using.
  intros Hcl Hl. pose proof Hcl as (Hok & Hq & Ht & Hret).
  destruct (closing_shake l pc Hcl) as (pc' & l' & Hs & Hne).
  { rewrite Hl, elem_of_app, elem_of_cons. by right; left. }
  pose proof (lt_shake _ _ _ _ _ _ Hl Hs) as Hstep.
  exists (set_shakes (l1 ++ option_list pc' ++ l2) l'). split; [done|].
  assert (Hpc : shake_ok l pc).
  { pose proof (lo_shakes _ Hok) as Hf. rewrite Hl in Hf.
    apply Forall_app in Hf as [_ Hf]. by inversion Hf. }
  apply shake_step_spec in Hs as (_ & _ & _ & _ & Hq' & Ht' & _ & Hd & _); [|done].
  split; [split_and!|].
  - by eapply listener_step_ok.
  - cbn [l_quit set_shakes]. congruence.
  - cbn [l_tcpClosed set_shakes]. congruence.
  - intros noise conn addr Hin. cbn [shakes set_shakes] in Hin.
    rewrite !elem_of_app in Hin. destruct Hin as [Hin|[Hin|Hin]].
    + apply (Hret _ _ addr). rewrite Hl, elem_of_app. by left.
    + destruct pc' as [x|]; [|by inv Hin].
      apply list_elem_of_singleton in Hin as <-. by edestruct Hne.
    + apply (Hret _ _ addr). rewrite Hl, elem_of_app, elem_of_cons. by right; right.
  - cbn [shakes set_shakes]. rewrite Hl, !distances_app.
    change (distances (pc :: l2)) with (distance pc + distances l2)%nat. lia.
Qed.

Lemma closing_drains l :
  closing l → ∃ l', rtc listener_step l l' ∧ closing l' ∧ shakes l' = [].
Proof using.
  intros Hcl. remember (distances (shakes l)) as d eqn:Hd.
  revert l Hcl Hd. induction (lt_wf d) as [d _ IH]. intros l Hcl ->.
  destruct (shakes l) as [|pc l2] eqn:Hl; [by exists l|].
  destruct (closing_step l [] pc l2 Hcl Hl) as (l1 & Hs & Hcl1 & Hd).
  rewrite Hl in Hd.
  destruct (IH _ Hd l1 Hcl1 eq_refl) as (l' & Hr & Hcl' & He).
  exists l'. split; [|done]. by eapply rtc_l.
Qed.

(** Without handshakes, [listen] can return. *)
Lemma listen_returns l :
  closing l → shakes l = [] →
  ∃ l', rtc listener_step l l' ∧ shakes l' = [] ∧ listenPoint l' = LDone
  ∧ handshakeSema l' = defaultHandshakes.
Proof using.
  intros (Hok & Hq & Ht & _) Hl. pose proof (lo_slots _ Hok) as Hsl.
  rewrite Hl in Hsl. simpl in Hsl.
  assert (Hsel : ∀ l, l_quit l = true → shakes l = [] → listenPoint l = LSelect →
    handshakeSema l = defaultHandshakes →
    ∃ l', rtc listener_step l l' ∧ shakes l' = [] ∧ listenPoint l' = LDone
    ∧ handshakeSema l' = defaultHandshakes).
  { intros l0 H1 H2 H3 H4. exists (set_listen LDone l0). split_and!; try done.
    apply rtc_once, lt_listen. by apply ln_quit. }
  assert (Hrel : ∀ l, l_quit l = true → shakes l = [] → listenPoint l = LRelease →
    S (handshakeSema l) = defaultHandshakes →
    ∃ l', rtc listener_step l l' ∧ shakes l' = [] ∧ listenPoint l' = LDone
    ∧ handshakeSema l' = defaultHandshakes).
  { intros l0 H1 H2 H3 H4.
    destruct (Hsel (set_listen LSelect (set_sema (S (handshakeSema l0)) l0)))
      as (l' & Hr & Hx); try done.
    exists l'. split; [|done]. eapply rtc_l; [|exact Hr].
    apply lt_listen, ln_release; [done|lia]. }
  assert (Hrej : ∀ l err, l_quit l = true → shakes l = [] → listenPoint l = LReject err →
    S (handshakeSema l) = defaultHandshakes →
    ∃ l', rtc listener_step l l' ∧ shakes l' = [] ∧ listenPoint l' = LDone
    ∧ handshakeSema l' = defaultHandshakes).
  { intros l0 err H1 H2 H3 H4.
    destruct (Hrel (set_listen LRelease l0)) as (l' & Hr & Hx); try done.
    exists l'. split; [|done]. eapply rtc_l; [|exact Hr].
    apply lt_listen. by eapply ln_reject_quit. }
  destruct (listenPoint l) as [| |err| |] eqn:Hp; simpl in Hsl.
  - apply Hsel; try done. lia.
  - destruct (Hrej (set_listen (LReject EOF) l) EOF) as (l' & Hr & Hx); try done.
    { cbn [handshakeSema set_listen]. lia. }
    exists l'. split; [|done]. eapply rtc_l; [|exact Hr].
    apply lt_listen. by apply ln_fail.
  - eapply Hrej; try done. lia.
  - apply Hrel; try done. lia.
  - exists l. split_and!; try done. lia.
Qed.

End Closing.

(** ** Properties *)

(** C20: the listener's slots.  However connections arrive, handshakes end,
    [Accept] and [Close] interleave, free slots, the slot of the accept loop and
    the handshakes in progress add up to [defaultHandshakes]: at most so many
    handshakes run at once and giving a slot back never blocks.  Every
    connection [Accept] returns has completed the handshake as responder with
    the listener's key and passphrase. *)
Theorem listener_slots `{Crypto} l :
  listener_life l →
  (handshakeSema l + held (listenPoint l) + length (shakes l) = defaultHandshakes)%nat
  ∧ (∀ conn, HRelease conn ∈ shakes l → (handshakeSema l < defaultHandshakes)%nat)
  ∧ (listenPoint l = LRelease → (handshakeSema l < defaultHandshakes)%nat)
  ∧ ∀ r l', Accept l r l' → authentic l r.
Proof.
  intros Hl. apply listener_life_ok in Hl as [Hsl Hsh Hac]. split_and!; [done|..].
  - intros conn Hin.
    assert (0 < length (shakes l))%nat by (destruct (shakes l); [by inv Hin|simpl; lia]).
    lia.
  - intros Hp. rewrite Hp in Hsl. simpl in Hsl. lia.
  - intros r l' Ha. destruct Ha as [l err Hp|l l1 r conn l2 Hl|l Hq]; [done| |done].
    rewrite Hl in Hsh. apply Forall_app in Hsh as [_ Hsh]. by inversion Hsh.
Qed.

(** C21: after [Close] the listener winds down.  Provided the handshakes in
    progress return, no handshake waits for an [Accept]; each of their steps
    brings them closer to giving their slot back, no new one starts, and all
    goroutines can return with every slot free. *)
Theorem listener_winds_down `{Crypto} l :
  listener_life l → l_quit l = true → l_tcpClosed l = true → returning l →
  (∀ pc, pc ∈ shakes l → ∃ pc' l', shake_step l pc pc' l')
  ∧ (∀ pc pc' l', pc ∈ shakes l → shake_step l pc pc' l' →
       (distances (option_list pc') < distance pc)%nat)
  ∧ (∀ l', listen_step l l' → shakes l' = shakes l)
  ∧ ∃ l', rtc listener_step l l' ∧ shakes l' = [] ∧ listenPoint l' = LDone
    ∧ handshakeSema l' = defaultHandshakes.
Proof.
  intros Hl Hq Ht Hret. apply listener_life_ok in Hl.
  assert (Hcl : closing l) by done. split_and!.
  - intros pc Hin. destruct (closing_shake l pc Hcl Hin) as (pc' & l' & Hs & _). eauto.
  - intros pc pc' l' Hin Hs. pose proof (lo_shakes _ Hl) as Hf.
    rewrite List.Forall_forall in Hf.
    apply shake_step_spec in Hs as (_ & _ & _ & _ & _ & _ & _ & Hd & _); [done|].
    by apply Hf, list_elem_of_In.
  - intros l' Hs. apply listen_step_spec in Hs as (_ & _ & _ & _ & new & Hn & _ & Hnew & _).
    rewrite Hn, Hnew by done. apply app_nil_r.
  - destruct (closing_drains l Hcl) as (l1 & Hr1 & Hcl1 & He).
    destruct (listen_returns l1 Hcl1 He) as (l2 & Hr2 & Hx).
    exists l2. split; [|done]. by etrans.
Qed.

Section Session.
Context `{CryptoLaws}.

(** What the handshake does on both ends of a TCP connection whose deadlines
    can be set. *)
Definition quietTcp (n : netio) : tcpConn := mkTcp n (λ _, None) 0 false.

Lemma tcp_Dial_ok k pw n noise m n' :
  NewBrontideMachine (NewConnData k None pw None None None) true XXPattern
    MinHandshakeVersion MaxHandshakeVersion = Ok noise →
  DoHandshake (noise, n) = (Ok tt, (m, n')) →
  ∃ conn, tcp_Dial k pw (Ok (quietTcp n)) = (Ok (mkNoiseConn m []), Some conn)
  ∧ t_net conn = n' ∧ t_closed conn = false.
Proof using.
  intros Hn Hd. unfold tcp_Dial. cbv zeta.
  change (cd_HandshakePattern (NewConnData k None pw None None None)) with XXPattern.
  rewrite Hn. unfold setReadDeadline at 1. simpl. rewrite Hd. by eexists.
Qed.

Lemma tcp_Dial_fails k pw n noise e st :
  NewBrontideMachine (NewConnData k None pw None None None) true XXPattern
    MinHandshakeVersion MaxHandshakeVersion = Ok noise →
  DoHandshake (noise, n) = (Err e, st) →
  ∃ conn, tcp_Dial k pw (Ok (quietTcp n)) = (Err e, Some conn)
  ∧ t_closed conn = true.
Proof using.
  intros Hn Hd. unfold tcp_Dial. cbv zeta.
  change (cd_HandshakePattern (NewConnData k None pw None None None)) with XXPattern.
  rewrite Hn. unfold setReadDeadline at 1. simpl. rewrite Hd. destruct st.
  by eexists.
Qed.

Lemma shake_ok_run l n addr noise m n' :
  l_quit l = false → responder l = Ok noise → DoHandshake (noise, n) = (Ok tt, (m, n')) →
  ∃ conn1 conn, shakeBegin l (quietTcp n) addr = Ok (HShake noise conn1 addr)
  ∧ shakeEnd l noise conn1 addr = Ok (HOffer (inl (mkNoiseConn m [], conn)) conn)
  ∧ t_net conn = n' ∧ t_closed conn = false.
Proof using.
  intros Hq Hr Hd. unfold shakeBegin. rewrite Hq. fold (responder l). rewrite Hr.
  cbn [setReadDeadline quietTcp t_deadlineErr].
  eexists _, _. split; [reflexivity|]. unfold shakeEnd. cbn [t_net quietTcp].
  rewrite Hd, Hq. by split_and!.
Qed.

End Session.

(** C13: a session over TCP.  When the two ends share the passphrase and the
    network delivers each of the three handshake messages as one segment, [Dial]
    and a handshake of the open listener, each reading what the other writes,
    succeed: each side knows the other's static key and the client holds the
    server's auth data.  From then on segments do not matter: what
    [NoiseConn.Write] sends from either end, of any length, the other end reads
    back unchanged and in order, however the network cuts it up.  In the
    handshake they do: when the listener's message is cut inside the encrypted
    length of its payload, [Dial] closes the connection and fails, unless the
    part that arrived, filled up with zeros, happens to decrypt. *)
Theorem tcp_session `{CryptoLaws} l k kI kR pw addr :
  l_quit l = false → len (nilBytes (l_authData l)) < MaxInt32 →
  stretchPassphrase (l_passphrase l) = Ok pw → mask_ok pw kI →
  ∃ outI m2 cI cR noise conn1 connI connR,
  tcp_Dial k (l_passphrase l) (Ok (quietTcp (newNet [m2] kI))) = (Ok cI, Some connI)
  ∧ shakeBegin l (quietTcp (newNet outI kR)) addr = Ok (HShake noise conn1 addr)
  ∧ shakeEnd l noise conn1 addr = Ok (HOffer (inl (cR, connR)) connR)
  ∧ wrote outI (t_net connI) ∧ wrote [m2] (t_net connR)
  ∧ t_closed connI = false ∧ t_closed connR = false
  ∧ RemotePub cI = Some (PubKey (l_localStatic l)) ∧ RemotePub cR = Some (PubKey k)
  ∧ authData (connData (nc_noise cI)) = Some (nilBytes (l_authData l))
  ∧ short_act2_fails kI (λ n e, ∃ conn,
      tcp_Dial k (l_passphrase l) (Ok (quietTcp n)) = (Err e, Some conn)
      ∧ t_closed conn = true) (l_authData l) m2
  ∧ ∀ (a b : NoiseConn), (a = cI ∧ b = cR) ∨ (a = cR ∧ b = cI) →
    ∀ data w, lossless w → written w = [] →
    ∃ ps m w', NoiseConn_Write data (nc_noise a) w = Some (Ok (len data, None), m, w')
    ∧ mjoin ps = data
    ∧ ∀ segs rest, nonempty segs → mjoin segs = written w' ++ rest →
      ∃ m' segs', readAll (length ps) (nc_noise b) segs = Some (ps, m', segs')
      ∧ mjoin segs' = rest.
Proof.
  intros Hq Hauth Hpw Hmask.
  set (cdI := NewConnData k None (l_passphrase l) None None None).
  set (cdR := NewConnData (l_localStatic l) None (l_passphrase l) (l_authData l) None None).
  destruct (xx_agrees_short cdI cdR kI kR) with (minI := MinHandshakeVersion)
    (maxI := MaxHandshakeVersion) (minR := MinHandshakeVersion)
    (maxR := MaxHandshakeVersion) (pw := pw)
    as (mI0 & mR0 & nI & nR & outI & m2 & mI & mR & NI & NR & DI & WI & DR & WR & Hag
        & Hshort); try done.
  { split; [split; [by left|]; vm_compute; split; discriminate|].
    split; [by right; right|]. vm_compute; split; discriminate. }
  destruct (tcp_Dial_ok k (l_passphrase l) _ _ _ _ NI DI) as (connI & HI & <- & HcI).
  destruct (shake_ok_run l _ addr _ _ _ Hq NR DR) as (conn1 & connR & HB & HE & <- & HcR).
  destruct Hag as [Hs Hr [HcS HcR'] _ _ HrI HrR Hau _ _ _ _ (I1 & I2 & I3 & I4)].
  exists outI, m2, (mkNoiseConn mI []), (mkNoiseConn mR []), mR0, conn1, connI, connR.
  split_and!; try done.
  { destruct (Hshort ltac:(discriminate)) as (head & hd & body & x & x1 & E & Eh & Hj).
    exists head, hd, body, x, x1. split_and!; [done..|]. intros j e x' Hlt Hd.
    destruct (Hj j e x' Hlt Hd) as [st Est]. by apply (tcp_Dial_fails _ _ _ _ _ st NI). }
  intros a b [[-> ->]|[-> ->]] data w Hw Hw0.
  - destruct (write_read_back data mI mR w) as (ps & m & w' & HW & HJ & _ & HR); try done.
    by exists ps, m, w'.
  - destruct (write_read_back data mR mI w) as (ps & m & w' & HW & HJ & _ & HR); try done.
    { by rewrite <- Hr. }
    by exists ps, m, w'.
Qed.

(** ** A listener that runs *)

#[local] Existing Instance toyCrypto.

Definition demoListener : Listener :=
  mkListener (4%positive : @SingleKeyECDH toyCrypto) [1; 2; 3] (Some [9; 9])
    defaultHandshakes false false LSelect [] [] [].

Definition demoTcp : tcpConn := quietTcp (newNet [] (8%positive : @SingleKeyECDH toyCrypto)).

(** One connection accepted, its handshake not begun. *)
Definition demoBusy : Listener :=
  set_listen LSelect (set_shakes [HStart demoTcp "peer"]
    (set_listen LAccept (set_sema 999 demoListener))).

Definition demoClosed : Listener := (listener_Close None demoBusy).2.

Lemma demoBusy_life : listener_life demoBusy.
Proof.
  exists [1; 2; 3], (4%positive : @SingleKeyECDH toyCrypto), (Some [9; 9]), demoListener.
  split; [done|]. eapply rtc_l; [apply lt_listen, (ln_take _ 999); done|].
  apply rtc_once, lt_listen.
  exact (ln_accept (set_listen LAccept (set_sema 999 demoListener)) demoTcp "peer"
           eq_refl eq_refl).
Qed.

Lemma demoClosed_life : listener_life demoClosed.
Proof.
  destruct demoBusy_life as (pw & k & auth & l0 & Hn & Hr).
  exists pw, k, auth, l0. split; [done|]. eapply rtc_r; [exact Hr|]. apply lt_close.
Qed.

Lemma listener_slots_witness :
  listener_life demoBusy ∧ (handshakeSema demoBusy + held LSelect + 1 = 1000)%nat.
Proof.
  split; [exact demoBusy_life|].
  exact (proj1 (listener_slots demoBusy demoBusy_life)).
Defined.

Lemma listener_winds_down_witness : length (shakes demoClosed) = 1%nat
  ∧ ∃ l', rtc listener_step demoClosed l' ∧ shakes l' = [] ∧ listenPoint l' = LDone.
Proof.
  split; [reflexivity|].
  destruct (listener_winds_down demoClosed demoClosed_life eq_refl eq_refl)
    as (_ & _ & _ & l' & Hr & Hs & Hp & _).
  - intros noise conn addr Hin. exfalso.
    apply list_elem_of_singleton in Hin. discriminate Hin.
  - exists l'. split; [exact Hr|]. split; [exact Hs|exact Hp].
Defined.

(** The tag of the toy cipher does not survive a cut. *)
Lemma toy_short (x : symmetricState) pt hd x1 :
  @EncryptAndHash toyCrypto pt x = (Ok hd, x1) → length pt = 4%nat →
  ∃ x', @DecryptAndHash toyCrypto (take 10 hd ++ replicate 10 0) x = (Err EOF, x').
Proof.
  intros E Hl. unfold EncryptAndHash, DecryptAndHash, Encrypt, Decrypt, zoom, gets,
    modify in *. revert E. mstep. destruct (cipher (ss_cipher x)); [|done].
  cbn [Seal Open toyCrypto]. intros E. injection E as <- _.
  do 4 (destruct pt as [|? pt]; [done|]). destruct pt; [|done]. by eexists.
Qed.

Lemma tcp_session_witness : ∃ m2 cI connI,
  tcp_Dial (3%positive : @SingleKeyECDH toyCrypto) [1; 2; 3]
    (Ok (quietTcp (newNet [m2] (7%positive : @SingleKeyECDH toyCrypto))))
    = (Ok cI, Some connI)
  ∧ RemotePub cI = Some (4 : @PublicKey toyCrypto)
  ∧ authData (connData (nc_noise cI)) = Some [9; 9]
  ∧ ∃ seg1 seg2 conn, seg1 ++ seg2 = m2
  ∧ tcp_Dial (3%positive : @SingleKeyECDH toyCrypto) [1; 2; 3]
      (Ok (quietTcp (newNet [seg1; seg2] (7%positive : @SingleKeyECDH toyCrypto))))
    = (Err EOF, Some conn) ∧ t_closed conn = true.
Proof.
  destruct (@tcp_session toyCrypto toy_laws demoListener
    (3%positive : @SingleKeyECDH toyCrypto) (7%positive : @SingleKeyECDH toyCrypto)
    (8%positive : @SingleKeyECDH toyCrypto) [1; 2; 3] "peer")
    as (outI & m2 & cI & cR & noise & conn1 & connI & connR & HD & _ & _ & _ & _ & _
        & _ & HrI & _ & Hau & (head & hd & body & x & x1 & -> & Eh & Hsh) & _).
  - reflexivity.
  - reflexivity.
  - reflexivity.
  - discriminate.
  - exists (head ++ hd ++ body), cI, connI. split; [exact HD|].
    split; [exact HrI|]. split; [exact Hau|].
    destruct (toy_short x _ _ _ Eh eq_refl) as [x' Ex].
    destruct (Hsh 10%nat EOF x' ltac:(lia) Ex) as (conn & HF & Hcl).
    exists (head ++ take 10 hd), (drop 10 hd ++ body), conn.
    split; [|split; [exact HF|exact Hcl]].
    rewrite <- (app_assoc head), (app_assoc (take 10 hd)), take_drop. reflexivity.
Defined.
