(* ===== verification/Mailbox.v ===== *)
(** * The mailbox connection: framing and byte stream
    ([mailbox/interface.go], [GetSID] of [mailbox/server.go] and the control
    messages of [mailbox/client_conn.go] and [mailbox/server_conn.go])

    [MsgData] frames application data; [connKit] turns the messages of the
    Go-Back-N connection below into the byte stream of [net.Conn]; [GetSID]
    names the two mailboxes of a session.  The central theorem puts the layers
    together: what [Read] returns on one side is a prefix of what [Write] was
    given on the other. *)

From stdpp Require Import base numbers list strings tactics relations.
From S2P Require Import Prelude Messages GoFloat Timeout GbnConn GbnSystem.
From S2P Require Import GbnHandshake.

(** ** [MsgData] *)

Record MsgData := mkMsgData {
  md_version : Z;
  md_Payload : bytes
}.

Definition NewMsgData (version : Z) (payload : bytes) : MsgData :=
  mkMsgData version payload.

Definition MsgData_Serialize (m : MsgData) : bytes :=
  let payloadLen := u32 (len (md_Payload m)) in
  [md_version m] ++ putUint32 payloadLen ++
    (if 0 <? payloadLen then md_Payload m else []).

Definition baseLength : Z := 5.

(** [Deserialize] into the receiver [m], on a platform whose [int] has [w]
    bits. *)
Definition MsgData_Deserialize (w : Z) (b : bytes) (m : MsgData) :
    result MsgData :=
  if len b <? baseLength then Err EOF else
  v ← index b 0;
  lenBytes ← slice b 1 baseLength;
  payloadLen ← getUint32 lenBytes;
  let stop := sint w (baseLength + sint w payloadLen) in
  if len b <? stop then Err EOF
  else if 0 <? payloadLen then
    p ← slice b baseLength stop; Ok (mkMsgData v p)
  else Ok (mkMsgData v (md_Payload m)).

(** ** [controlConn]

    The two implementations of [ReceiveControlMsg] differ in the errors they
    report: [recvErr] for an error of the Go-Back-N connection and [parseErr]
    for one of [Deserialize]. *)
Class ControlConn := {
  recvErr : error → error;
  parseErr : error → error;
  recvErr_not_EOF e : recvErr e ≠ EOF
}.

(** [ClientConn]. *)
#[export, refine] Instance client_control : ControlConn := {|
  recvErr := ErrWrap "error receiving from go-back-n connection: ";
  parseErr := λ e, e
|}.
Proof. done. Defined.

(** [ServerConn]. *)
#[export, refine] Instance server_control : ControlConn := {|
  recvErr := ErrWrap "error reading from go-back-n: ";
  parseErr := ErrWrap "error parsing control message: "
|}.
Proof. done. Defined.

(** ** [connKit] *)

Definition ProtocolVersion : Z := 0.

(** [impl] is reached only through its Go-Back-N connection. *)
Record connKit := mkConnKit {
  gbnConn : GoBackNConn;
  readDeadline : Time;
  writeDeadline : Time;
  receiveSID : bytes;
  sendSID : bytes;
  recvBuffer : bytes
}.

Definition set_gbnConn g k := mkConnKit g (readDeadline k) (writeDeadline k)
  (receiveSID k) (sendSID k) (recvBuffer k).
Definition set_recvBuffer b k := mkConnKit (gbnConn k) (readDeadline k)
  (writeDeadline k) (receiveSID k) (sendSID k) b.

Section Kit.
Context `{ControlConn}.

Definition ReceiveControlMsg (w : Z) (sels : list recvSel) (m : MsgData)
    (g : GoBackNConn) : option (result MsgData * GoBackNConn) :=
  match Recv g sels with
  | Some (Ok msg, g) =>
      Some (match MsgData_Deserialize w msg m with
            | Err e => Err (parseErr e)
            | r => r
            end, g)
  | Some (Err e, g) => Some (Err (recvErr e), g)
  | Some (Panic p, g) => Some (Panic p, g)
  | None => None
  end.

(** [Read] into a buffer of [n] bytes; [None] while [Recv] blocks. *)
Definition connKit_Read (w n : Z) (sels : list recvSel) (k : connKit) :
    option (result bytes * connKit) :=
  if len (recvBuffer k) =? 0 then
    match ReceiveControlMsg w sels (NewMsgData ProtocolVersion []) (gbnConn k)
    with
    | Some (Ok data, g) =>
        let '(r, buf) := bufferRead (recvBuffer k ++ md_Payload data) n in
        Some (r, set_recvBuffer buf (set_gbnConn g k))
    | Some (Err e, g) => Some (Err e, set_gbnConn g k)
    | Some (Panic p, g) => Some (Panic p, set_gbnConn g k)
    | None => None
    end
  else
    let '(r, buf) := bufferRead (recvBuffer k) n in
    Some (r, set_recvBuffer buf k).

End Kit.

(** [SendControlMsg] of both implementations. *)
Definition SendControlMsg (g : GoBackNConn) (m : MsgData)
    (sels : list sendSel) : option (list PacketData * option error) :=
  Send g (MsgData_Serialize m) sels.

(** [Write]: the packets handed to the sending goroutine, the count and the
    error. *)
Definition connKit_Write (k : connKit) (b : bytes) (sels : list sendSel) :
    option (list PacketData * (Z * option error)) :=
  match SendControlMsg (gbnConn k) (NewMsgData ProtocolVersion b) sels with
  | Some (ps, None) => Some (ps, (len b, None))
  | Some (ps, Some e) => Some (ps, (0, Some e))
  | None => None
  end.

(** The timeout of a deadline: [time.Until], or none at all for the zero
    time. *)
Definition deadlineTimeout (now t : Time) : Duration :=
  if t =? 0 then MaxInt64 else timeSub t now.

Definition SetReadDeadline (now t : Time) (k : connKit) : connKit :=
  mkConnKit (SetRecvTimeout (deadlineTimeout now t) (gbnConn k)) t
    (writeDeadline k) (receiveSID k) (sendSID k) (recvBuffer k).

Definition SetWriteDeadline (now t : Time) (k : connKit) : connKit :=
  mkConnKit (SetSendTimeout (deadlineTimeout now t) (gbnConn k))
    (readDeadline k) t (receiveSID k) (sendSID k) (recvBuffer k).

(** The clock is read twice. *)
Definition SetDeadline (now1 now2 t : Time) (k : connKit) : connKit :=
  SetWriteDeadline now2 t (SetReadDeadline now1 t k).

(** ** Session ids *)

Definition GetSID (sid : bytes) (serverToClient : bool) : result bytes :=
  if serverToClient then Ok sid
  else
    let clientToServerSID := copy (replicate 64 0) sid in
    b ← index clientToServerSID 63;
    setIndex clientToServerSID 63 (Z.lxor b 1).

(** The ids of the two ends, as [NewClientConn] and [NewServerConn] choose
    them: (receive, send). *)
Definition clientSIDs (sid : bytes) : result (bytes * bytes) :=
  r ← GetSID sid true; s ← GetSID sid false; Ok (r, s).
Definition serverSIDs (sid : bytes) : result (bytes * bytes) :=
  r ← GetSID sid false; s ← GetSID sid true; Ok (r, s).

(** ** Lemmas on [MsgData] *)

Lemma sint_small w x : 0 < w → - 2 ^ (w - 1) ≤ x < 2 ^ (w - 1) → sint w x = x.
Proof.
  intros Hw Hx. unfold sint.
  assert (2 ^ w = 2 * 2 ^ (w - 1)) by (rewrite <- Z.pow_succ_r by lia; f_equal; lia).
  rewrite Z.mod_small; lia.
Qed.

Lemma sint_wrap w x :
  0 < w → 2 ^ (w - 1) ≤ x < 2 ^ w + 2 ^ (w - 1) → sint w x = x - 2 ^ w.
Proof.
  intros Hw Hx. unfold sint.
  assert (2 ^ w = 2 * 2 ^ (w - 1)) by (rewrite <- Z.pow_succ_r by lia; f_equal; lia).
  replace (x + 2 ^ (w - 1)) with ((x + 2 ^ (w - 1) - 2 ^ w) + 1 * 2 ^ w) by lia.
  rewrite Z.mod_add by lia. rewrite Z.mod_small; lia.
Qed.

(** The payloads a platform with [w]-bit [int]s can frame. *)
Definition fitsInt (w : Z) (p : bytes) : Prop :=
  (w = 64 ∧ len p < 2 ^ 32) ∨ (w = 32 ∧ len p < 2 ^ 31 - baseLength).

(** [Deserialize] on a message whose header is [v] and the length field [n]. *)
Lemma Deserialize_header w v n rest m :
  0 ≤ n < 2 ^ 32 →
  MsgData_Deserialize w ([v] ++ putUint32 n ++ rest) m =
  let stop := sint w (baseLength + sint w n) in
  if baseLength + len rest <? stop then Err EOF
  else if 0 <? n then
    p ← slice ([v] ++ putUint32 n ++ rest) baseLength stop; Ok (mkMsgData v p)
  else Ok (mkMsgData v (md_Payload m)).
Proof.
  intros Hn. unfold MsgData_Deserialize.
  assert (Hl : len ([v] ++ putUint32 n ++ rest) = baseLength + len rest)
    by (unfold len, baseLength; simpl; lia).
  rewrite Hl. pose proof (len_nonneg rest).
  destruct (Z.ltb_spec (baseLength + len rest) baseLength); [lia|].
  change (index ([v] ++ putUint32 n ++ rest) 0) with (@Ok Z v). mstep.
  rewrite (slice_ok _ 1 baseLength) by (unfold baseLength in *; lia).
  change (take (Z.to_nat (baseLength - 1)) (drop (Z.to_nat 1)
           ([v] ++ putUint32 n ++ rest))) with (putUint32 n).
  pose proof (getUint32_put n [] Hn) as Hg. rewrite app_nil_r in Hg.
  by rewrite Hg.
Qed.

Lemma fitsInt_stop w p :
  fitsInt w p →
  sint w (baseLength + sint w (len p)) = baseLength + len p ∧ len p < 2 ^ 32.
Proof.
  intros Hf. pose proof (len_nonneg p). unfold baseLength in *.
  destruct Hf as [[-> Hl]|[-> Hl]]; (split; [|unfold baseLength in *; lia]);
    unfold baseLength in *; rewrite (sint_small _ (len p)), sint_small; lia.
Qed.

Lemma MsgData_codec_ok w v p m :
  fitsInt w p →
  MsgData_Deserialize w (MsgData_Serialize (mkMsgData v p)) m =
  Ok (mkMsgData v (if len p =? 0 then md_Payload m else p)).
Proof.
  intros [Hs Hl]%fitsInt_stop. pose proof (len_nonneg p).
  unfold MsgData_Serialize. cbn [md_version md_Payload].
  rewrite u32_small by lia. rewrite Deserialize_header by lia. cbv zeta.
  rewrite Hs. destruct (Z.ltb_spec 0 (len p)).
  - destruct (Z.ltb_spec (baseLength + len p) (baseLength + len p)); [lia|].
    destruct (Z.eqb_spec (len p) 0); [lia|].
    rewrite slice_ok.
    + mstep. repeat f_equal.
      replace (baseLength + len p - baseLength) with (len p) by lia.
      change (drop (Z.to_nat baseLength) ([v] ++ putUint32 (len p) ++ p)) with p.
      apply take_ge. unfold len. lia.
    + unfold baseLength. lia.
    + rewrite !len_app. unfold len at 2 3. simpl. unfold baseLength. lia.
  - destruct (Z.eqb_spec (len p) 0); [|lia].
    change (len (@nil Z)) with 0.
    by destruct (Z.ltb_spec (baseLength + 0) (baseLength + len p)); [lia|].
Qed.

(** The length field of at least five bytes is a 32-bit number. *)
Lemma Deserialize_shape b :
  Forall is_u8 b → baseLength ≤ len b →
  ∃ v n rest, b = [v] ++ putUint32 n ++ rest ∧ 0 ≤ n < 2 ^ 32.
Proof.
  intros Hb Hl. unfold len, baseLength in Hl.
  destruct b as [|v [|b0 [|b1 [|b2 [|b3 rest]]]]]; simpl in Hl; try lia.
  exists v, (b0 * 16777216 + b1 * 65536 + b2 * 256 + b3), rest.
  repeat match goal with H : Forall _ (_ :: _) |- _ => inv H end.
  unfold is_u8, putUint32, u8 in *. split; [|lia]. simpl. repeat f_equal.
  all: symmetry; rewrite ?Z.mod_eq by lia; Z.div_mod_to_equations; lia.
Qed.

(** A length field at or above [2^31 - 5] defeats the bounds check where
    [int] has 32 bits. *)
Lemma Deserialize_32_panics v n rest m :
  2 ^ 31 - baseLength ≤ n < 2 ^ 32 →
  MsgData_Deserialize 32 ([v] ++ putUint32 n ++ rest) m =
  Panic IndexOutOfRange.
Proof.
  intros Hn. unfold baseLength in Hn. rewrite Deserialize_header by lia. cbv zeta.
  assert (Hs : sint 32 (baseLength + sint 32 n) < baseLength).
  { unfold baseLength. destruct (Z.lt_ge_cases n (2 ^ 31)).
    - rewrite (sint_small 32 n), sint_wrap by lia. lia.
    - rewrite (sint_wrap 32 n), sint_small by lia. lia. }
  pose proof (len_nonneg rest).
  destruct (Z.ltb_spec (baseLength + len rest) (sint 32 (baseLength + sint 32 n)));
    [lia|].
  destruct (Z.ltb_spec 0 n); [|lia]. unfold slice.
  destruct (Z.ltb_spec (sint 32 (baseLength + sint 32 n)) baseLength); [|lia].
  done.
Qed.

Lemma Deserialize_64_total b m :
  Forall is_u8 b → is_panic (MsgData_Deserialize 64 b m) = false.
Proof.
  intros Hb. destruct (Z.lt_ge_cases (len b) baseLength) as [Hl|Hl].
  { unfold MsgData_Deserialize. by rewrite (proj2 (Z.ltb_lt _ _) Hl). }
  destruct (Deserialize_shape b Hb Hl) as (v & n & rest & -> & Hn).
  rewrite Deserialize_header by done. cbv zeta.
  rewrite (sint_small 64 n), sint_small by (unfold baseLength; lia).
  destruct (Z.ltb_spec (baseLength + len rest) (baseLength + n)); [done|].
  destruct (Z.ltb_spec 0 n); [|done].
  rewrite slice_ok; [done|unfold baseLength; lia|].
  rewrite !len_app. unfold len at 1 2. simpl. unfold baseLength in *. lia.
Qed.

(** C28: framing.  A message whose payload the platform can address comes back
    from [Deserialize] with its version and its payload (an empty payload
    leaves the receiver's as it was); where [int] has 64 bits [Deserialize]
    survives any input; where [int] has 32 bits every message whose length
    field is at least [2^31 - 5] makes it panic. *)
Theorem msgdata_codec :
  (∀ w v p m, fitsInt w p →
     MsgData_Deserialize w (MsgData_Serialize (mkMsgData v p)) m =
     Ok (mkMsgData v (if len p =? 0 then md_Payload m else p)))
  ∧ (∀ b m, Forall is_u8 b → is_panic (MsgData_Deserialize 64 b m) = false)
  ∧ (∀ v n rest m, 2 ^ 31 - baseLength ≤ n < 2 ^ 32 →
     MsgData_Deserialize 32 ([v] ++ putUint32 n ++ rest) m =
     Panic IndexOutOfRange).
Proof.
  split_and!.
  - intros. by apply MsgData_codec_ok.
  - intros. by apply Deserialize_64_total.
  - intros. by apply Deserialize_32_panics.
Qed.

(** ** The byte stream *)

(** Successive [Read] calls that return bytes or [io.EOF]: the bytes
    returned. *)
Fixpoint kitReads `{ControlConn} (w : Z) (calls : list (Z * list recvSel))
    (k : connKit) : option (bytes * connKit) :=
  match calls with
  | [] => Some ([], k)
  | (n, sels) :: calls =>
      match connKit_Read w n sels k with
      | Some (Ok b, k) =>
          match kitReads w calls k with
          | Some (bs, k) => Some (b ++ bs, k)
          | None => None
          end
      | Some (Err EOF, k) => kitReads w calls k
      | _ => None
      end
  end.

(** The payload a received message carries. *)
Definition payloadOf (w : Z) (msg : bytes) : bytes :=
  match MsgData_Deserialize w msg (NewMsgData ProtocolVersion []) with
  | Ok d => md_Payload d
  | _ => []
  end.

(** What is still to be read. *)
Definition unread (w : Z) (k : connKit) : bytes :=
  recvBuffer k ++ mjoin (payloadOf w <$> messagesOf [] (recvDataChan (gbnConn k))).

Lemma bufferRead_spec buf n r buf' :
  bufferRead buf n = (r, buf') →
  (∃ b, r = Ok b ∧ buf = b ++ buf') ∨ (r = Err EOF ∧ buf = [] ∧ buf' = []).
Proof.
  unfold bufferRead. destruct (Z.eqb_spec (len buf) 0) as [He|He]; simpl.
  - assert (buf = []) as -> by (destruct buf; unfold len in He; simpl in *; [done|lia]).
    destruct (0 <? n); intros [= <- <-]; [by right|].
    left. exists []. by rewrite take_nil, drop_nil.
  - intros [= <- <-]. left. eexists. split; [done|]. by rewrite take_drop.
Qed.

Lemma Recv_spec g sels r g' :
  Recv g sels = Some (Ok r, g') →
  messagesOf [] (recvDataChan g) = r :: messagesOf [] (recvDataChan g').
Proof.
  unfold Recv. destruct (g_quit g); [done|].
  destruct (recvLoop [] (recvDataChan g) sels) as [[r' chan]|] eqn:Hr; [|done].
  intros [= -> <-]. by apply recvLoop_messages in Hr.
Qed.

(** A [Read] that returns bytes or [io.EOF] takes them from the front of what
    was unread. *)
Lemma connKit_Read_unread `{ControlConn} w n sels k r k' :
  connKit_Read w n sels k = Some (r, k') →
  (∀ b, r = Ok b → unread w k = b ++ unread w k')
  ∧ (r = Err EOF → unread w k = unread w k').
Proof.
  unfold connKit_Read, unread. destruct (Z.eqb_spec (len (recvBuffer k)) 0) as [He|He].
  - assert (recvBuffer k = []) as Hb
      by (destruct (recvBuffer k); unfold len in He; simpl in *; [done|lia]).
    rewrite Hb. simpl. unfold ReceiveControlMsg.
    destruct (Recv (gbnConn k) sels) as [[[msg|e|p] g]|] eqn:Hr; [| | |done].
    + apply Recv_spec in Hr. rewrite Hr. cbn [fmap list_fmap mjoin list_join].
      assert (Hpay : payloadOf w msg =
        match MsgData_Deserialize w msg (NewMsgData ProtocolVersion []) with
        | Ok d => md_Payload d | _ => [] end) by done.
      rewrite Hpay.
      destruct (MsgData_Deserialize w msg _) as [d|e|p] eqn:Hd.
      * destruct (bufferRead (md_Payload d) n) as [r' buf] eqn:Hbr.
        intros [= <- <-]. cbn [recvBuffer gbnConn set_recvBuffer set_gbnConn].
        apply bufferRead_spec in Hbr as [(b & -> & ->)|(-> & -> & ->)];
          split; intros; simplify_eq; by rewrite ?app_assoc.
      * intros [= <- <-]. cbn [recvBuffer gbnConn set_gbnConn]. rewrite Hb.
        by split; intros.
      * intros [= <- <-]. by split; intros.
    + intros [= <- <-]. split; [done|]. intros [= Hx]. by apply recvErr_not_EOF in Hx.
    + intros [= <- <-]. by split; intros.
  - destruct (bufferRead (recvBuffer k) n) as [r' buf] eqn:Hbr.
    intros [= <- <-]. cbn [recvBuffer gbnConn set_recvBuffer].
    apply bufferRead_spec in Hbr as [(b & -> & ->)|(-> & -> & ->)];
      split; intros; simplify_eq; by rewrite ?app_assoc.
Qed.

Lemma kitReads_unread `{ControlConn} w calls k bs k' :
  kitReads w calls k = Some (bs, k') → unread w k = bs ++ unread w k'.
Proof.
  revert k bs. induction calls as [|[n sels] calls IH]; intros k bs; simpl.
  { by intros [= <- <-]. }
  destruct (connKit_Read w n sels k) as [[r k1]|] eqn:Hr; [|done].
  apply connKit_Read_unread in Hr as [Hok Heof].
  destruct r as [b|e|p]; [|destruct e; try done|done].
  - destruct (kitReads w calls k1) as [[bs1 k2]|] eqn:Hk; [|done].
    intros [= <- <-]. rewrite (Hok b eq_refl), (IH _ _ Hk). by rewrite app_assoc.
  - intros Hk. rewrite Heof by done. by apply IH.
Qed.

Lemma handOver_all ps sels sent :
  handOver ps sels = Some (sent, None) → sent = ps.
Proof.
  revert sels sent. induction ps as [|p ps IH]; intros sels sent; simpl.
  { by intros [= <-]. }
  destruct sels as [|[] sels]; try done.
  destruct (handOver ps sels) as [[sent' e]|] eqn:Hh; [|done].
  intros [= <- ->]. f_equal. by eapply IH.
Qed.

(** A [Write] that reports success has handed over the whole message. *)
Lemma connKit_Write_packets k b sels ps n :
  connKit_Write k b sels = Some (ps, (n, None)) →
  sendPackets (g_cfg (gbnConn k))
    (MsgData_Serialize (NewMsgData ProtocolVersion b)) = Some (Ok ps).
Proof.
  unfold connKit_Write, SendControlMsg, Send.
  destruct (g_quit (gbnConn k)); [done|].
  destruct (sendPackets _ _) as [[ps'|e|p]|]; try done.
  destruct (handOver ps' sels) as [[sent [e|]]|] eqn:Hh; try done.
  intros [= <- _]. by rewrite (handOver_all _ _ _ Hh).
Qed.

Lemma MsgData_Serialize_nonempty m : MsgData_Serialize m ≠ [].
Proof. done. Qed.

Lemma mjoin_prefix (l l' : list bytes) :
  l `prefix_of` l' → mjoin l `prefix_of` mjoin l'.
Proof. intros [k ->]. rewrite join_app. by eexists. Qed.

(** The bytes of a sequence of writes, as a reader of the messages sees
    them. *)
Lemma payloads_of_writes w bs :
  Forall (fitsInt w) bs →
  payloadOf w <$> ((λ b, MsgData_Serialize (NewMsgData ProtocolVersion b)) <$> bs)
  = bs.
Proof.
  induction 1 as [|b bs Hb _ IH]; [done|]. cbn [fmap list_fmap] in *.
  rewrite IH. f_equal. unfold payloadOf, NewMsgData.
  rewrite MsgData_codec_ok by done. cbn [md_Payload].
  destruct (Z.eqb_spec (len b) 0) as [He|]; [|done].
  destruct b; [done|]. unfold len in He. simpl in He. lia.
Qed.

(** The packets [pss] of successful writes of [bs] over a connection
    configured with [cfg]. *)
Definition written (cfg : config) (bs : list bytes)
    (pss : list (list PacketData)) : Prop :=
  Forall2 (λ b ps, ∃ k sels, g_cfg (gbnConn k) = cfg
    ∧ connKit_Write k b sels = Some (ps, (len b, None))) bs pss.

Lemma written_messages cfg bs pss :
  0 ≤ maxChunkSize cfg → written cfg bs pss →
  messagesOf [] (mjoin pss) =
  (λ b, MsgData_Serialize (NewMsgData ProtocolVersion b)) <$> bs.
Proof.
  intros Hmax Hw. apply messagesOf_all.
  induction Hw as [|b ps bs pss (k & sels & <- & Hk) _ IH]; [constructor|].
  constructor; [|done]. apply connKit_Write_packets in Hk.
  destruct (sendPackets_spec (g_cfg (gbnConn k))
              (MsgData_Serialize (NewMsgData ProtocolVersion b)) Hmax)
    as (ps' & Hps & Ho & _); [right; apply MsgData_Serialize_nonempty|].
  congruence.
Qed.

(** Reads over packets that are a prefix of the packets written. *)
Lemma stream_prefix `{ControlConn} w cfg bs pss sub psh calls k out k' :
  0 ≤ maxChunkSize cfg → Forall (fitsInt w) bs → written cfg bs pss →
  strip <$> sub `prefix_of` strip <$> mjoin pss →
  strip <$> psh `prefix_of` strip <$> sub →
  recvBuffer k = [] → recvDataChan (gbnConn k) = psh →
  kitReads w calls k = Some (out, k') → out `prefix_of` mjoin bs.
Proof.
  intros Hmax Hfit Hw Hsub Hpre Hbuf Hchan Hk.
  apply kitReads_unread in Hk. unfold unread at 1 in Hk.
  rewrite Hbuf, Hchan in Hk. simpl in Hk.
  assert (Ho : out `prefix_of` mjoin (payloadOf w <$> messagesOf [] psh))
    by (rewrite Hk; by eexists).
  etrans; [exact Ho|]. apply mjoin_prefix.
  rewrite <- (payloads_of_writes w bs Hfit), <- (written_messages cfg bs pss) by done.
  assert (messagesOf [] psh `prefix_of` messagesOf [] (mjoin pss)) as [l ->]
    by (apply messagesOf_strip_prefix; by etrans).
  rewrite fmap_app. by eexists.
Qed.

(** C5: the mailbox connection is a reliable byte stream.  Two ends connect
    through the Go-Back-N handshake with window [n] over streams that may lose
    packets.  In any state they reach, if [x] is one end and [y] the other,
    and [x] took its packets from successful [Write]s of [bs] (the last may be
    in progress), then the bytes that [Read] calls of any sizes return on [y]
    are a prefix of the concatenation of [bs]. *)
Theorem mailbox_stream_in_order `{FloatToInt} `{ControlConn} n copts sopts σ
    ec rc es rs x y w cfg bs pss calls k out k' :
  (1 ≤ n ≤ 254)%nat → connect (Z.of_nat n) copts sopts σ →
  client σ = Run ec rc → server σ = Run es rs →
  (x = ec ∧ y = es) ∨ (x = es ∧ y = ec) →
  0 ≤ maxChunkSize cfg → Forall (fitsInt w) bs → written cfg bs pss →
  strip <$> submitted x `prefix_of` strip <$> mjoin pss →
  recvBuffer k = [] → recvDataChan (gbnConn k) = pushed y →
  kitReads w calls k = Some (out, k') →
  out `prefix_of` mjoin bs.
Proof.
  intros Hn Hc Ec Es Hxy Hmax Hfit Hw Hsub Hb Hr Hk.
  destruct (connect_prefix n copts sopts σ ec rc es rs Hn Hc Ec Es) as [H1 H2].
  eapply (stream_prefix w cfg bs pss (submitted x) (pushed y)); try done.
  destruct Hxy as [[-> ->]|[-> ->]]; done.
Qed.

Definition demoFrame : PacketData := mkPacketData 0 true false [0; 0; 0; 0; 2; 7; 8].

Lemma demo_stream : let _ := amd64 in
  ∃ σ ec rc es rs, connect 20 [] [] σ ∧ client σ = Run ec rc
  ∧ server σ = Run es rs ∧ submitted ec = [demoFrame] ∧ pushed es = [demoFrame].
Proof.
  intros fl. do 5 eexists. split; [|split; [|split; [|split]]].
  - split.
    { eexists. eexists. split; [reflexivity|]. split; [reflexivity|].
      run_demo demoFrame. }
    reflexivity.
  - reflexivity.
  - reflexivity.
  - reflexivity.
  - reflexivity.
Qed.

Definition demoKit `{FloatToInt} (chan : list PacketData) : connKit :=
  mkConnKit (set_recvDataChan chan (newGoBackNConn (newConfig 20))) 0 0
    (replicate 64 0) (replicate 64 0) [].

(** One byte is read, then the rest; the second write is still under way. *)
Lemma mailbox_stream_in_order_witness : let _ := amd64 in
  ∃ k', kitReads 64 [(1, [SelMsg]); (10, [])] (demoKit [demoFrame])
        = Some ([7; 8], k')
  ∧ [7; 8] `prefix_of` mjoin [[7; 8]; [9]].
Proof.
  intros fl. destruct demo_stream as (σ & ec & rc & es & rs & H & Hc & Hs & Hsub & Hp).
  eexists. split; [vm_compute; reflexivity|].
  eapply (@mailbox_stream_in_order amd64 server_control 20 [] [] σ ec rc es rs
           ec es 64 (newConfig 20) [[7; 8]; [9]]
           [[demoFrame]; [mkPacketData 0 true false [0; 0; 0; 0; 1; 9]]]
           [(1, [SelMsg]); (10, [])] (demoKit [demoFrame])).
  - lia.
  - exact H.
  - exact Hc.
  - exact Hs.
  - by left.
  - simpl. lia.
  - repeat first [apply List.Forall_cons|apply List.Forall_nil]; by left.
  - repeat apply List.Forall2_cons; [| |apply List.Forall2_nil];
      exists (demoKit []), [SelSent]; split; reflexivity.
  - rewrite Hsub. eexists. reflexivity.
  - reflexivity.
  - by rewrite Hp.
  - vm_compute. reflexivity.
Defined.

(** ** Session ids *)

Lemma copy_same {A} (d l : list A) : length d = length l → copy d l = l.
Proof.
  intros Hl. unfold copy. rewrite Hl, firstn_all, (drop_ge d) by lia.
  by rewrite app_nil_r.
Qed.

Lemma GetSID_false sid :
  length sid = 64%nat →
  ∃ b, sid !! 63%nat = Some b
  ∧ GetSID sid false = Ok (<[63%nat := Z.lxor b 1]> sid).
Proof.
  intros Hl. destruct (lookup_lt_is_Some_2 sid 63) as [b Hb]; [lia|].
  exists b. split; [done|]. unfold GetSID.
  rewrite copy_same by (by rewrite length_replicate).
  rewrite (index_lookup _ 63 b) by done. mstep.
  rewrite setIndex_ok; [done|]. unfold len. rewrite Hl. lia.
Qed.

Lemma lxor_1_neq b : Z.lxor b 1 ≠ b.
Proof.
  intros H. assert (Hx : Z.lxor b (Z.lxor b 1) = Z.lxor b b) by by rewrite H.
  rewrite <- Z.lxor_assoc, Z.lxor_nilpotent, Z.lxor_0_l in Hx. done.
Qed.

(** The mailboxes of a session.  The client receives on the box the
    server sends to and sends to the box the server receives on; the two boxes
    are different; and sessions with different ids never share a box in the
    same direction. *)
Theorem session_boxes sid :
  length sid = 64%nat →
  ∃ toClient toServer,
    clientSIDs sid = Ok (toClient, toServer)
    ∧ serverSIDs sid = Ok (toServer, toClient)
    ∧ toClient ≠ toServer
    ∧ length toClient = 64%nat ∧ length toServer = 64%nat
    ∧ (∀ sid', length sid' = 64%nat →
         (GetSID sid' true = Ok toClient ∨ GetSID sid' false = Ok toServer) →
         sid' = sid).
Proof.
  intros Hl. destruct (GetSID_false sid Hl) as (b & Hb & Hg).
  exists sid, (<[63%nat := Z.lxor b 1]> sid).
  unfold clientSIDs, serverSIDs. rewrite Hg. mstep.
  split_and!; try done.
  - intros He. apply (f_equal (.!! 63%nat)) in He.
    rewrite list_lookup_insert_eq, Hb in He by lia.
    injection He as He. by apply (lxor_1_neq b).
  - by rewrite length_insert.
  - intros sid' Hl' [Hs|Hs]; [by injection Hs|].
    destruct (GetSID_false sid' Hl') as (b' & Hb' & Hg').
    rewrite Hg' in Hs. injection Hs as Hs.
    assert (Hb1 : Z.lxor b' 1 = Z.lxor b 1).
    { apply (f_equal (.!! 63%nat)) in Hs.
      rewrite !list_lookup_insert_eq in Hs by lia. by injection Hs. }
    assert (b' = b) as ->.
    { apply (f_equal (λ z, Z.lxor z 1)) in Hb1.
      by rewrite !Z.lxor_assoc, Z.lxor_nilpotent, !Z.lxor_0_r in Hb1. }
    apply (f_equal (insert 63%nat b)) in Hs.
    by rewrite !list_insert_insert_eq, !list_insert_id in Hs.
Qed.

Lemma session_boxes_witness :
  ∃ a b, clientSIDs (replicate 64 5) = Ok (a, b)
  ∧ serverSIDs (replicate 64 5) = Ok (b, a) ∧ a ≠ b.
Proof.
  destruct (session_boxes (replicate 64 5)) as (a & b & H1 & H2 & H3 & _).
  - reflexivity.
  - exists a, b. split_and!; [exact H1|exact H2|exact H3].
Defined.
