(* ===== verification/EndToEnd.v ===== *)
(** * Encrypted messages over the mailbox

    The layers put together: a [NoiseGrpcConn] encrypts messages and flushes
    the records into the byte stream of a mailbox connection ([connKit]), whose
    frames travel over Go-Back-N.  What the other side decrypts is what was
    written, as far as it arrived. *)

From stdpp Require Import base numbers list strings tactics relations.
From S2P Require Import Prelude Messages GoFloat Timeout Ticker Syncer Queue.
From S2P Require Import GbnConn GbnWindow GbnSystem GbnHandshake.
From S2P Require Import NoiseState NoiseHandshake NoiseTransport Mailbox.

(** ** Reading from a stream that has not fully arrived *)

Lemma pushSeg_app sg segs ext : pushSeg sg (segs ++ ext) = pushSeg sg segs ++ ext.
Proof. unfold pushSeg. by case_decide. Qed.

(** More bytes do not change what a successful read returns. *)
Lemma readFull_more segs k got b segs' ext :
  readFull segs k got = (Ok b, segs') →
  readFull (segs ++ ext) k got = (Ok b, segs' ++ ext).
Proof.
  revert k got. induction segs as [|[|z sg] segs IH]; intros k got; [done|done|].
  cbn [app readFull]. case_if.
  - intros [= <- <-]. by rewrite pushSeg_app.
  - apply IH.
Qed.

Section Reading.
Context `{Crypto}.

Lemma netReadFull_more k m segs ext r m' segs' :
  netReadFull k (m, segs) = (Ok r, (m', segs')) →
  netReadFull k (m, segs ++ ext) = (Ok r, (m', segs' ++ ext)).
Proof using.
  unfold netReadFull. simpl.
  destruct (readFull segs (Z.to_nat k) []) as [[b|e|p] s1] eqn:Hr; try done.
  intros [= <- <- <-]. by rewrite (readFull_more _ _ _ _ _ ext Hr).
Qed.

Lemma recvDecrypt_more ct m segs ext r m' segs' :
  recvDecrypt ct (m, segs) = (Ok r, (m', segs')) →
  recvDecrypt ct (m, segs ++ ext) = (Ok r, (m', segs' ++ ext)).
Proof using.
  unfold recvDecrypt. simpl. destruct (onRecv _ m) as [[b|e|p] m1]; try done.
  by intros [= <- <- <-].
Qed.

(** A step of a reader that more bytes do not disturb. *)
Definition monotone {A} (f : M (Machine * list bytes) A) : Prop :=
  ∀ m segs ext r m' segs', f (m, segs) = (Ok r, (m', segs')) →
    f (m, segs ++ ext) = (Ok r, (m', segs' ++ ext)).

Lemma monotone_bind {A B} (f : M (Machine * list bytes) A)
    (k : A → M (Machine * list bytes) B) :
  monotone f → (∀ a, monotone (k a)) → monotone (f ≫= k).
Proof using.
  intros Hf Hk m segs ext r m' segs'. unfold mbind, M_bind.
  destruct (f (m, segs)) as [[a|e|p] [m1 s1]] eqn:E; try done.
  rewrite (Hf _ _ ext _ _ _ E). apply Hk.
Qed.

Lemma monotone_pure {A} (x : result A) : monotone (liftR x).
Proof using. intros m segs ext r m' segs'. unfold liftR. by intros [= -> <- <-]. Qed.

Lemma ReadMessage_monotone : monotone ReadMessage.
Proof using.
  unfold ReadMessage, ReadHeader, ReadBody.
  repeat (apply monotone_bind; [|intros]).
  all: first [ intros ? ? ? ? ? ?; apply netReadFull_more
             | intros ? ? ? ? ? ?; apply recvDecrypt_more
             | apply monotone_pure
             | apply (monotone_pure (Ok _)) ].
Qed.

Lemma readAll_more k m segs ext ps m' segs' :
  readAll k m segs = Some (ps, m', segs') →
  readAll k m (segs ++ ext) = Some (ps, m', segs' ++ ext).
Proof using.
  revert m segs ps. induction k as [|k IH]; intros m segs ps; cbn [readAll].
  { by intros [= <- <- <-]. }
  destruct (ReadMessage (m, segs)) as [[p|e|p] [m1 s1]] eqn:E; try done.
  rewrite (ReadMessage_monotone _ _ ext _ _ _ E).
  destruct (readAll k m1 s1) as [[[ps1 m2] s2]|] eqn:E2; [|done].
  intros [= <- <- <-]. by rewrite (IH _ _ _ E2).
Qed.

(** Reading [k] messages succeeds only if reading fewer does, and gives more. *)
Lemma readAll_le j k m segs ps m' segs' qs m2 s2 :
  readAll k m segs = Some (ps, m', segs') → readAll j m segs = Some (qs, m2, s2) →
  (j ≤ k)%nat → qs `prefix_of` ps.
Proof using.
  revert k m segs ps qs. induction j as [|j IH]; intros k m segs ps qs; cbn [readAll].
  { intros _ [= <- <- <-] _. apply prefix_nil. }
  destruct k as [|k]; [lia|]. cbn [readAll].
  destruct (ReadMessage (m, segs)) as [[p|e|p] [m1 s1]]; try done.
  destruct (readAll k m1 s1) as [[[ps1 ?] ?]|] eqn:E1; [|done].
  destruct (readAll j m1 s1) as [[[qs1 ?] ?]|] eqn:E2; [|done].
  intros [= <- <- <-] [= <- <- <-] Hle. apply prefix_cons.
  eapply IH; [exact E1|exact E2|lia].
Qed.

(** Nothing can be read once the stream is used up. *)
Lemma readAll_end k j m segs ps m' :
  readAll k m segs = Some (ps, m', []) → (k < j)%nat → readAll j m segs = None.
Proof using.
  revert j m segs ps. induction k as [|k IH]; intros j m segs ps; cbn [readAll].
  - intros [= <- -> ->] Hj. destruct j as [|j]; [lia|]. done.
  - destruct j as [|j]; [lia|]. cbn [readAll].
    destruct (ReadMessage (m, segs)) as [[p|e|p] [m1 s1]]; try done.
    destruct (readAll k m1 s1) as [[[ps1 m2] s2]|] eqn:E; [|done].
    intros [= <- <- ->] Hj. rewrite (IH j _ _ _ E) by lia. done.
Qed.

End Reading.

Lemma nonempty_join segs : nonempty segs → mjoin segs = [] → segs = [].
Proof.
  intros Hne Hj. destruct Hne as [|sg segs Hsg _]; [done|].
  change (mjoin (sg :: segs)) with (sg ++ mjoin segs) in Hj.
  by apply app_eq_nil in Hj as [? _].
Qed.

(** Messages read from a prefix of the records of [ps]. *)
Lemma read_prefix `{CryptoLaws} ps mA mB w mA' w' segs :
  sendCipher mA = recvCipher mB → is_Some (cipher (sendCipher mA)) →
  idleMachine mA → fits ps → lossless w → NoiseTransport.written w = [] →
  writeAll ps mA w = Some (mA', w') →
  nonempty segs → mjoin segs `prefix_of` NoiseTransport.written w' →
  (∀ j qs mB' segs', readAll j mB segs = Some (qs, mB', segs') → qs `prefix_of` ps)
  ∧ (mjoin segs = NoiseTransport.written w' →
     ∃ mB', readAll (length ps) mB segs = Some (ps, mB', [])).
Proof.
  intros Hs Hc Hi Hfit Hl Hw HW Hne [rest Hrest].
  destruct (writeAll_spec ps mA w Hi Hc Hfit Hl)
    as (out & c2 & mA2 & w2 & E & W & O & _).
  rewrite HW in W. injection W as <- <-. rewrite Hw in O. simpl in O.
  rewrite Hs in E, Hc.
  assert (Hall : ∀ segs, nonempty segs → mjoin segs = out →
    ∃ mB', readAll (length ps) mB segs = Some (ps, mB', [])).
  { intros sg Hsg Hj. destruct (readAll_spec ps mB out c2 sg [] Hc Hfit E Hsg)
      as (mB' & s' & R & _ & _ & J & N); [by rewrite app_nil_r|].
    exists mB'. by rewrite R, (nonempty_join _ N J). }
  split.
  - intros j qs mB' segs' Hr.
    set (ext := if decide (rest = []) then [] else [rest]).
    assert (Hext : nonempty ext ∧ mjoin ext = rest).
    { unfold ext. case_decide; [by subst; split; [constructor|]|].
      split; [by repeat constructor|]. simpl. by rewrite app_nil_r. }
    destruct Hext as [Hn Hx].
    destruct (Hall (segs ++ ext)) as (mB2 & R2).
    { by apply Forall_app. }
    { rewrite join_app, Hx. congruence. }
    apply (readAll_more _ _ _ ext) in Hr.
    destruct (decide (j ≤ length ps)%nat) as [Hle|Hgt].
    + by eapply readAll_le.
    + rewrite (readAll_end _ j _ _ _ _ R2) in Hr by lia. done.
  - intros Hj. apply Hall; [done|]. congruence.
Qed.

(** C1: end-to-end delivery.  Two ends connect through the Go-Back-N handshake
    over streams that may lose packets, and have machines that share a cipher.
    One end, [x], encrypts the messages [ps] and has flushed the records, as
    far as the successful [Write]s [bs] on its mailbox connection went.  In any
    state they reach, however the other end [y] reads its mailbox connection,
    the messages it decrypts are the first messages of [ps], unchanged and in
    order; and it decrypts all of [ps] once all bytes have arrived. *)
Theorem encrypted_end_to_end `{CryptoLaws} `{FloatToInt} `{ControlConn}
    n copts sopts σ ec rc es rs x y w cfg bs pss calls k segs k'
    ps mA mB sink mA' sink' :
  (1 ≤ n ≤ 254)%nat → connect (Z.of_nat n) copts sopts σ →
  client σ = Run ec rc → server σ = Run es rs →
  (x = ec ∧ y = es) ∨ (x = es ∧ y = ec) →
  sendCipher mA = recvCipher mB → is_Some (cipher (sendCipher mA)) →
  idleMachine mA → fits ps → lossless sink → NoiseTransport.written sink = [] →
  writeAll ps mA sink = Some (mA', sink') →
  0 ≤ maxChunkSize cfg → Forall (fitsInt w) bs → written cfg bs pss →
  mjoin bs `prefix_of` NoiseTransport.written sink' →
  strip <$> submitted x `prefix_of` strip <$> mjoin pss →
  recvBuffer k = [] → recvDataChan (gbnConn k) = pushed y →
  kitReads w calls k = Some (mjoin segs, k') → nonempty segs →
  (∀ j qs mB' segs', readAll j mB segs = Some (qs, mB', segs') → qs `prefix_of` ps)
  ∧ (mjoin segs = NoiseTransport.written sink' →
     ∃ mB', readAll (length ps) mB segs = Some (ps, mB', [])).
Proof.
  intros Hn Hconn Ec Es Hxy Hs Hc Hi Hfit Hl Hw HW Hmax Hint Hwr Hbs Hsub Hb Hr Hk Hne.
  destruct (connect_prefix n copts sopts σ ec rc es rs Hn Hconn Ec Es) as [P1 P2].
  eapply read_prefix; try done. etrans; [|exact Hbs].
  eapply (stream_prefix w cfg bs pss (submitted x) (pushed y)); try done.
  destruct Hxy as [[-> ->]|[-> ->]]; done.
Qed.

(** One message goes through, its record in one packet. *)
Definition demoMachine : @Machine toyCrypto :=
  let c := mkCipher 0 [1] [2] (Some [1]) in
  @mkMachine toyCrypto (toyConn 3 None None) c c
    (@mkHandshake toyCrypto newSymmetricState true 3%positive None None None []
       None None XXPattern 0 2 2) [] [].

Definition demoRecord : bytes := [0; 2] ++ replicate 16 1 ++ [7; 8] ++ replicate 16 1.
Definition demoRecordFrame : PacketData :=
  mkPacketData 0 true false
    (MsgData_Serialize (NewMsgData ProtocolVersion demoRecord)).

Lemma demo_record : let _ := amd64 in
  ∃ σ ec rc es rs, connect 20 [] [] σ ∧ client σ = Run ec rc
  ∧ server σ = Run es rs ∧ submitted ec = [demoRecordFrame]
  ∧ pushed es = [demoRecordFrame].
Proof.
  intros fl. do 5 eexists. split; [|split; [|split; [|split]]].
  - split.
    { eexists. eexists. split; [reflexivity|]. split; [reflexivity|].
      run_demo demoRecordFrame. }
    reflexivity.
  - reflexivity.
  - reflexivity.
  - reflexivity.
  - reflexivity.
Qed.

Lemma encrypted_end_to_end_witness : let _ := toyCrypto in let _ := amd64 in
  ∃ segs k', kitReads 64 [(5, [SelMsg]); (100, [])] (demoKit [demoRecordFrame])
             = Some (mjoin segs, k')
  ∧ ∃ mB', readAll 1 demoMachine segs = Some ([[7; 8]], mB', []).
Proof.
  intros tc fl.
  destruct demo_record as (σ & ec & rc & es & rs & Hco & Hc & Hs & Hsub & Hp).
  destruct (writeAll [[7; 8]] demoMachine perfectSink) as [[mA' sink']|] eqn:HW;
    [|vm_compute in HW; discriminate].
  assert (Hout : NoiseTransport.written sink' = demoRecord)
    by (vm_compute in HW; injection HW as _ <-; reflexivity).
  exists [take 5 demoRecord; drop 5 demoRecord]. eexists.
  split; [vm_compute; reflexivity|].
  refine (proj2 (@encrypted_end_to_end toyCrypto toy_laws amd64 server_control 20 [] []
    σ ec rc es rs ec es 64 (newConfig 20) [demoRecord] [[demoRecordFrame]]
    [(5, [SelMsg]); (100, [])] (demoKit [demoRecordFrame])
    [take 5 demoRecord; drop 5 demoRecord] _ [[7; 8]] demoMachine
    demoMachine perfectSink mA' sink' _ Hco Hc Hs (or_introl (conj eq_refl eq_refl))
    eq_refl _ _ _ _ eq_refl HW _ _ _ _ _ eq_refl _ _ _) _).
  - lia.
  - by eexists.
  - split; reflexivity.
  - apply List.Forall_cons; [discriminate|apply List.Forall_nil].
  - intros j l. reflexivity.
  - simpl. lia.
  - repeat first [apply List.Forall_cons|apply List.Forall_nil]; by left.
  - apply List.Forall2_cons; [|apply List.Forall2_nil].
    exists (demoKit []), [SelSent]; split; reflexivity.
  - rewrite Hout. reflexivity.
  - rewrite Hsub. reflexivity.
  - by rewrite Hp.
  - vm_compute. reflexivity.
  - repeat (apply List.Forall_cons; [discriminate|]). apply List.Forall_nil.
  - rewrite Hout. reflexivity.
Defined.
