(* ===== verification/MailboxConn.v ===== *)
(** * The streams of a mailbox connection ([mailbox/client_conn.go],
    [mailbox/client_transport.go], [mailbox/server_conn.go])

    How packets reach the mailbox server: the two transports of the client,
    the streams of the server, the loops that retry until the packet is
    through or the connection stops, and the connection status both sides
    report. *)

From stdpp Require Import base numbers list strings tactics.
From S2P Require Import Prelude GoFloat Timeout Mailbox.

(** ** Status *)

Inductive ClientStatus :=
| ClientStatusNotConnected
| ClientStatusSessionNotFound
| ClientStatusSessionInUse
| ClientStatusConnected.

#[export] Instance ClientStatus_eq_dec : EqDecision ClientStatus.
Proof. solve_decision. Defined.

Inductive ServerStatus :=
| ServerStatusNotConnected
| ServerStatusInUse
| ServerStatusIdle.

#[export] Instance ServerStatus_eq_dec : EqDecision ServerStatus.
Proof. solve_decision. Defined.

(** [strings.HasPrefix] and [strings.Contains]. *)
Fixpoint hasPrefix (s p : string) : bool :=
  match p, s with
  | EmptyString, _ => true
  | String a p, String b s => Ascii.eqb a b && hasPrefix s p
  | _, _ => false
  end.
Fixpoint contains (s sub : string) : bool :=
  hasPrefix s sub || match s with
                     | EmptyString => false
                     | String _ s => contains s sub
                     end.

Definition statusFromError (err : error) : ClientStatus :=
  if contains (errorText err) "stream not found" then ClientStatusSessionNotFound
  else if contains (errorText err) "stream occupied"
  then ClientStatusSessionInUse
  else ClientStatusNotConnected.

(** ** The outside world

    Every call of a client library (gRPC, websocket) gets the next answer:
    bytes, or an error.  [stop i] says whether, after [i] calls, [c.quit] is
    closed or the context is done (with [ctx.Err()]); where both are, it is the
    one the [select] picks.  The trace records the calls with their
    answers, and the sleeps. *)
Inductive call :=
| CDial (url : string)
| CSocketWrite (b : bytes)
| CSocketRead
| CSocketClose
| CRecvStream (sid : bytes)
| CSendStream
| CSend (sid payload : bytes)
| CRecv
| CCloseSend
| CNewCipherBox (sid : bytes)
| CDelCipherBox (sid : bytes).

Inductive event :=
| Called (c : call) (a : bytes + error)
| Slept (d : Duration).

Inductive stopped := StopQuit | StopCtx (err : error).

Record world := mkWorld {
  answer : nat → bytes + error;
  stop : nat → option stopped;
  pos : nat;
  trace : list event
}.

(** A closed channel stays closed and a cancelled context stays cancelled. *)
Definition stays_stopped (e : world) : Prop :=
  ∀ i j, (i ≤ j)%nat → stop e i ≠ None → stop e j ≠ None.

(** The steps below act on a connection [C] in a world. *)
Section World.
Context {C : Type}.

Definition doCall (c : call) : M (C * world) bytes := λ st,
  let '(x, e) := st in
  let e' := mkWorld (answer e) (stop e) (S (pos e))
    (trace e ++ [Called c (answer e (pos e))]) in
  match answer e (pos e) with
  | inl b => (Ok b, (x, e'))
  | inr err => (Err err, (x, e'))
  end.

Definition sleep (d : Duration) : M (C * world) unit := λ st,
  let '(x, e) := st in
  (Ok tt, (x, mkWorld (answer e) (stop e) (pos e) (trace e ++ [Slept d]))).

Definition onConn (f : C → C) : M (C * world) unit := λ st,
  (Ok tt, (f st.1, st.2)).

(** A call that returns an error as a value. *)
Definition try {A} (m : M (C * world) A) : M (C * world) (A + error) := λ st,
  match m st with
  | (Ok a, st) => (Ok (inl a), st)
  | (Err e, st) => (Ok (inr e), st)
  | (Panic p, st) => (Panic p, st)
  end.

(** The loop of [createReceiveMailBox] and [createSendMailBox] of both sides:
    check for a stop, wait, try; [None] when the fuel runs out. *)
Fixpoint retryLoop (fuel : nat) (waiter : BackoffWaiter)
    (attempt : M (C * world) unit) (st : C * world) :
    option (result unit * (C * world)) :=
  match fuel with
  | O => None
  | S fuel =>
      match stop st.2 (pos st.2) with
      | Some _ => Some (Ok tt, st)
      | None =>
          let '(d, waiter) := Wait waiter in
          match (_ ← sleep d; try attempt) st with
          | (Ok (inl _), st) => Some (Ok tt, st)
          | (Ok (inr _), st) => retryLoop fuel waiter attempt st
          | (Err e, st) => Some (Err e, st)
          | (Panic p, st) => Some (Panic p, st)
          end
      end
  end.

(** The loop of [recv] and [send] of both sides.  [attempt] is one try at the
    payload: [inl r] ends the loop with [r]; [inr tt] asks for the stream to
    be created again. *)
Fixpoint payloadLoop {A} (fuel : nat) (quitResult : A)
    (attempt : M (C * world) (A + unit))
    (create : nat → C * world → option (result unit * (C * world)))
    (st : C * world) : option (result A * (C * world)) :=
  match fuel with
  | O => None
  | S fuel' =>
      match stop st.2 (pos st.2) with
      | Some StopQuit => Some (Ok quitResult, st)
      | Some (StopCtx err) => Some (Err err, st)
      | None =>
          match attempt st with
          | (Ok (inl r), st) => Some (Ok r, st)
          | (Ok (inr _), st) =>
              match create fuel st with
              | Some (Ok _, st) => payloadLoop fuel' quitResult attempt create st
              | Some (Err e, st) => Some (Err e, st)
              | Some (Panic p, st) => Some (Panic p, st)
              | None => None
              end
          | (Err e, st) => Some (Err e, st)
          | (Panic p, st) => Some (Panic p, st)
          end
      end
  end.

(** Set the stream up first if there is none. *)
Definition withStream {A} (up : C → bool)
    (create : C * world → option (result unit * (C * world)))
    (loop : C * world → option (result A * (C * world))) (st : C * world) :
    option (result A * (C * world)) :=
  if up st.1 then loop st
  else match create st with
       | Some (Ok _, st) => loop st
       | Some (Err e, st) => Some (Err e, st)
       | Some (Panic p, st) => Some (Panic p, st)
       | None => None
       end.

End World.

Definition retryWait : Duration := 2000 * Millisecond.
Definition gbnTimeout : Duration := 1000 * Millisecond.

(** ** The JSON wrapper of the websocket proxy *)

Fixpoint stripPrefix (p s : bytes) : option bytes :=
  match p, s with
  | [], _ => Some s
  | a :: p, b :: s => if a =? b then stripPrefix p s else None
  | _, [] => None
  end.

(** The group of both patterns and the brace behind it, at the start of [s]:
    the group is greedy and runs to the last closing brace of the line (a dot
    does not match a newline); with the text after the match. *)
Fixpoint greedyBrace (s : bytes) : option (bytes * bytes) :=
  match s with
  | [] => None
  | c :: s =>
      if c =? 10 then None
      else match greedyBrace s with
           | Some (g, rest) => Some (c :: g, rest)
           | None => if c =? 125 then Some ([], s) else None
           end
  end.

(** The pattern made of [prefix], the group and a brace, at the start of
    [s]. *)
Definition matchAt (prefix s : bytes) : option (bytes * bytes) :=
  match stripPrefix prefix s with
  | Some s => greedyBrace s
  | None => None
  end.

Definition is_some {A} (o : option A) : bool :=
  match o with Some _ => true | None => false end.

(** [MatchString]. *)
Fixpoint matchString (prefix s : bytes) : bool :=
  is_some (matchAt prefix s)
  || match s with [] => false | _ :: s => matchString prefix s end.

(** [ReplaceAllString] with the group; every step consumes a byte. *)
Fixpoint replaceAll (fuel : nat) (prefix s : bytes) : bytes :=
  match fuel, s with
  | O, _ | _, [] => s
  | S fuel, c :: s' =>
      match matchAt prefix s with
      | Some (g, rest) => g ++ replaceAll fuel prefix rest
      | None => c :: replaceAll fuel prefix s'
      end
  end.

(** What stands before the group: an opening brace (123), the quoted (34) key
    and a colon (58). *)
Definition resultPattern : bytes := [123; 34] ++ bytesOfString "result" ++ [34; 58].
Definition errorPattern : bytes := [123; 34] ++ bytesOfString "error" ++ [34; 58].

Definition stripJSONWrapper (wrapped : bytes) : bytes + error :=
  if matchString resultPattern wrapped
  then inl (replaceAll (length wrapped) resultPattern wrapped)
  else if matchString errorPattern wrapped
  then inr (ErrMsg (stringOfBytes
              (replaceAll (length wrapped) errorPattern wrapped)))
  else inr (ErrMsg ("unrecognized JSON message: " +:+ stringOfBytes wrapped)).

(** ** The client *)

Record mailboxInfo := mkMailboxInfo {
  addr : string;
  recvSID : bytes;
  mb_sendSID : bytes
}.

(** [ClientConn] with the two streams of its transport, which are [nil] until
    connected; [reported] are the calls of [onNewStatus], [closed] is whether
    [closeOnce] has run (and [quit] is closed). *)
Record ClientConn := mkClientConn {
  info : mailboxInfo;
  receiveUp : bool;
  sendUp : bool;
  status : ClientStatus;
  reported : list ClientStatus;
  closed : bool
}.

Definition set_receiveUp v c :=
  mkClientConn (info c) v (sendUp c) (status c) (reported c) (closed c).
Definition set_sendUp v c :=
  mkClientConn (info c) (receiveUp c) v (status c) (reported c) (closed c).

(** [setStatus]. *)
Definition client_setStatus (s : ClientStatus) (c : ClientConn) : ClientConn :=
  if bool_decide (s = ClientStatusNotConnected)
     && (bool_decide (status c = ClientStatusSessionInUse)
         || bool_decide (status c = ClientStatusSessionNotFound))
  then c
  else mkClientConn (info c) (receiveUp c) (sendUp c) s (reported c ++ [s])
         (closed c).

Abbreviation MC := (M (ClientConn * world)).

Definition client {A} (f : ClientConn → A) : MC A := λ st, (Ok (f st.1), st).

(** A method call on a stream that may be [nil]. *)
Definition nonNil {A} (up : ClientConn → bool) (m : MC A) : MC A := λ st,
  if up st.1 then m st else (Panic NilDereference, st).

(** [ClientConnTransport].  [Recv] returns the message, whether to retry, the
    status of an error and the error; [Send] the last three. *)
Class ClientConnTransport := {
  ConnectReceive : MC unit;
  ConnectSend : MC unit;
  Recv : MC (bytes * bool * ClientStatus * option error);
  Send : bytes → bytes → MC (bool * ClientStatus * option error);
  CloseReceive : MC unit;
  CloseSend : MC unit
}.

(** [grpcTransport]. *)
Definition grpc_ConnectSend : MC unit :=
  _ ← doCall CSendStream; onConn (set_sendUp true).

Definition grpc_ConnectReceive : MC unit :=
  i ← client info;
  _ ← doCall (CRecvStream (recvSID i)); onConn (set_receiveUp true).

Definition grpc_Recv : MC (bytes * bool * ClientStatus * option error) :=
  r ← nonNil receiveUp (try (doCall CRecv));
  match r with
  | inr err => mret ([], true, statusFromError err, Some err)
  | inl msg => mret (msg, false, ClientStatusConnected, None)
  end.

Definition grpc_Send (streamID payload : bytes) :
    MC (bool * ClientStatus * option error) :=
  r ← nonNil sendUp (try (doCall (CSend streamID payload)));
  match r with
  | inr err => mret (true, ClientStatusNotConnected, Some err)
  | inl _ => mret (false, ClientStatusConnected, None)
  end.

Definition closeStream (up : ClientConn → bool) (c : call) : MC unit :=
  b ← client up;
  if negb b then mret tt else _ ← doCall c; mret tt.

#[export] Instance grpcTransport : ClientConnTransport := {|
  ConnectReceive := grpc_ConnectReceive;
  ConnectSend := grpc_ConnectSend;
  Recv := grpc_Recv;
  Send := grpc_Send;
  CloseReceive := closeStream receiveUp CCloseSend;
  CloseSend := closeStream sendUp CCloseSend
|}.

(** [defaultMarshaler] on [CipherBoxDesc] and [CipherBox] messages. *)
Class Marshaler := {
  MarshalDesc : bytes → bytes + error;
  MarshalBox : bytes → bytes → bytes + error;
  UnmarshalBox : bytes → bytes + error
}.

Section Websocket.
Context `{Marshaler}.

Definition receivePath : string := "/v1/lightning-node-connect/hashmail/receive".
Definition sendPath : string := "/v1/lightning-node-connect/hashmail/send".
Definition socketAddr (i : mailboxInfo) (path : string) : string :=
  "wss://" +:+ addr i +:+ path +:+ "?method=POST".

Definition ws_ConnectSend : MC unit :=
  i ← client info;
  _ ← doCall (CDial (socketAddr i sendPath)); onConn (set_sendUp true).

(** The socket is kept even when the first message on it fails. *)
Definition ws_ConnectReceive : MC unit :=
  i ← client info;
  _ ← doCall (CDial (socketAddr i receivePath));
  _ ← onConn (set_receiveUp true);
  receiveInitBytes ← match MarshalDesc (recvSID i) with
                     | inl b => mret b
                     | inr err => failM (ErrWrap
                         "error marshaling receive init bytes " err)
                     end;
  _ ← doCall (CSocketWrite receiveInitBytes); mret tt.

Definition ws_Recv : MC (bytes * bool * ClientStatus * option error) :=
  r ← nonNil receiveUp (try (doCall CSocketRead));
  match r with
  | inr err => mret ([], true, ClientStatusNotConnected, Some err)
  | inl msg =>
      match stripJSONWrapper msg with
      | inr err => mret ([], true, statusFromError err, Some err)
      | inl unwrapped =>
          match UnmarshalBox unwrapped with
          | inr err => mret ([], false, ClientStatusNotConnected, Some err)
          | inl m => mret (m, false, ClientStatusConnected, None)
          end
      end
  end.

Definition ws_Send (streamID payload : bytes) :
    MC (bool * ClientStatus * option error) :=
  match MarshalBox streamID payload with
  | inr err => mret (false, ClientStatusNotConnected, Some err)
  | inl sendInitBytes =>
      r ← nonNil sendUp (try (doCall (CSocketWrite sendInitBytes)));
      match r with
      | inr err => mret (true, statusFromError err, Some err)
      | inl _ => mret (false, ClientStatusConnected, None)
      end
  end.

Definition websocketTransport : ClientConnTransport := {|
  ConnectReceive := ws_ConnectReceive;
  ConnectSend := ws_ConnectSend;
  Recv := ws_Recv;
  Send := ws_Send;
  CloseReceive := closeStream receiveUp CSocketClose;
  CloseSend := closeStream sendUp CSocketClose
|}.

End Websocket.

Section Client.
Context `{ClientConnTransport}.

Definition client_createReceiveMailBox (initialBackoff : Duration) (fuel : nat) :
    ClientConn * world → option (result unit * (ClientConn * world)) :=
  retryLoop fuel (NewBackoffWaiter initialBackoff retryWait retryWait)
    ConnectReceive.

Definition client_createSendMailBox (initialBackoff : Duration) (fuel : nat) :
    ClientConn * world → option (result unit * (ClientConn * world)) :=
  retryLoop fuel (NewBackoffWaiter initialBackoff retryWait retryWait)
    ConnectSend.

(** One iteration of [recv]; a [nil] message is [None]. *)
Definition recvOnce : MC (option bytes + unit) :=
  r ← Recv;
  let '(msg, retry, errStatus, err) := r in
  match err with
  | Some err =>
      if negb retry then failM err
      else _ ← onConn (client_setStatus errStatus); mret (inr tt)
  | None => _ ← onConn (client_setStatus ClientStatusConnected);
            mret (inl (Some msg))
  end.

Definition client_recv (fuel : nat) :
    ClientConn * world → option (result (option bytes) * (ClientConn * world)) :=
  withStream receiveUp (client_createReceiveMailBox 0 fuel)
    (payloadLoop fuel None recvOnce (client_createReceiveMailBox retryWait)).

Definition sendOnce (payload : bytes) : MC (unit + unit) :=
  i ← client info;
  r ← Send (mb_sendSID i) payload;
  let '(retry, errStatus, err) := r in
  match err with
  | Some err =>
      if negb retry then failM err
      else _ ← onConn (client_setStatus errStatus); mret (inr tt)
  | None => mret (inl tt)
  end.

Definition client_send (payload : bytes) (fuel : nat) :
    ClientConn * world → option (result unit * (ClientConn * world)) :=
  withStream sendUp (client_createSendMailBox 0 fuel)
    (payloadLoop fuel tt (sendOnce payload) (client_createSendMailBox retryWait)).

(** [Close]; [gbnErr] is the error of closing the Go-Back-N connection.  The
    last error is returned. *)
Definition lastErr (es : list (option error)) : option error :=
  fold_left (λ acc e, match e with Some _ => e | None => acc end) es None.

Definition errOf {A} (r : A + error) : option error :=
  match r with inl _ => None | inr e => Some e end.

Definition client_Close (gbnErr : option error) : MC (option error) :=
  done ← client closed;
  if (done : bool) then mret None else
  r1 ← try CloseReceive;
  r2 ← try CloseSend;
  _ ← onConn (λ c, mkClientConn (info c) (receiveUp c) (sendUp c) (status c)
                     (reported c) true);
  mret (lastErr [gbnErr; errOf r1; errOf r2]).

End Client.

(** [NewClientConn] and [RefreshClientConn] up to the Go-Back-N handshake; the
    refreshed connection calls the same [onNewStatus]. *)
Definition client_New (sid : bytes) (serverHost : string) : result ClientConn :=
  sids ← clientSIDs sid;
  Ok (mkClientConn (mkMailboxInfo serverHost sids.1 sids.2) false false
        ClientStatusNotConnected [] false).

Definition client_Refresh (c : ClientConn) : ClientConn :=
  mkClientConn (info c) false false ClientStatusNotConnected (reported c) false.

(** ** The server *)

Record ServerConn := mkServerConn {
  s_receiveSID : bytes;
  s_sendSID : bytes;
  receiveBoxCreated : bool;
  receiveStream : bool;
  sendBoxCreated : bool;
  sendStream : bool;
  s_status : ServerStatus;
  s_reported : list ServerStatus;
  s_onNewStatus : bool;
  s_closed : bool
}.

Definition set_receive box str c := mkServerConn (s_receiveSID c) (s_sendSID c)
  box str (sendBoxCreated c) (sendStream c) (s_status c) (s_reported c)
  (s_onNewStatus c) (s_closed c).
Definition set_send box str c := mkServerConn (s_receiveSID c) (s_sendSID c)
  (receiveBoxCreated c) (receiveStream c) box str (s_status c) (s_reported c)
  (s_onNewStatus c) (s_closed c).

(** [setStatus]; [s_onNewStatus] is whether there is a callback. *)
Definition server_setStatus (s : ServerStatus) (c : ServerConn) : ServerConn :=
  mkServerConn (s_receiveSID c) (s_sendSID c) (receiveBoxCreated c)
    (receiveStream c) (sendBoxCreated c) (sendStream c) s
    (if s_onNewStatus c && bool_decide (s_status c ≠ s)
     then s_reported c ++ [s] else s_reported c)
    (s_onNewStatus c) (s_closed c).

Abbreviation MS := (M (ServerConn * world)).

Definition server {A} (f : ServerConn → A) : MS A := λ st, (Ok (f st.1), st).

Definition s_nonNil {A} (up : ServerConn → bool) (m : MS A) : MS A := λ st,
  if up st.1 then m st else (Panic NilDereference, st).

Section Server.

(** [isErrAlreadyExists] looks at the gRPC status code of an error. *)
Context (isErrAlreadyExists : error → bool).

Definition initAccountCipherBox (sid : bytes) : MS unit :=
  r ← try (doCall (CNewCipherBox sid));
  match r with
  | inr err => if negb (isErrAlreadyExists err) then failM err else mret tt
  | inl _ => mret tt
  end.

Definition openReceiveStream : MS unit :=
  sid ← server s_receiveSID;
  _ ← initAccountCipherBox sid;
  _ ← onConn (λ c, set_receive true (receiveStream c) c);
  _ ← doCall (CRecvStream sid);
  _ ← onConn (server_setStatus ServerStatusIdle);
  onConn (λ c, set_receive (receiveBoxCreated c) true c).

Definition openSendStream : MS unit :=
  sid ← server s_sendSID;
  _ ← initAccountCipherBox sid;
  _ ← onConn (λ c, set_send true (sendStream c) c);
  _ ← doCall CSendStream;
  onConn (λ c, set_send (sendBoxCreated c) true c).

Definition server_createReceiveMailBox (initialBackoff : Duration) (fuel : nat) :
    ServerConn * world → option (result unit * (ServerConn * world)) :=
  retryLoop fuel (NewBackoffWaiter initialBackoff gbnTimeout retryWait)
    openReceiveStream.

Definition server_createSendMailBox (initialBackoff : Duration) (fuel : nat) :
    ServerConn * world → option (result unit * (ServerConn * world)) :=
  retryLoop fuel (NewBackoffWaiter initialBackoff gbnTimeout retryWait)
    openSendStream.

Definition recvFromStreamOnce : MS (option bytes + unit) :=
  r ← s_nonNil receiveStream (try (doCall CRecv));
  match r with
  | inr _ => _ ← onConn (server_setStatus ServerStatusNotConnected);
             mret (inr tt)
  | inl msg => _ ← onConn (server_setStatus ServerStatusInUse);
               mret (inl (Some msg))
  end.

Definition recvFromStream (fuel : nat) :
    ServerConn * world → option (result (option bytes) * (ServerConn * world)) :=
  withStream receiveStream (server_createReceiveMailBox 0 fuel)
    (payloadLoop fuel None recvFromStreamOnce
       (server_createReceiveMailBox retryWait)).

Definition sendToStreamOnce (payload : bytes) : MS (unit + unit) :=
  sid ← server s_sendSID;
  r ← s_nonNil sendStream (try (doCall (CSend sid payload)));
  match r with
  | inr _ => _ ← onConn (server_setStatus ServerStatusNotConnected);
             mret (inr tt)
  | inl _ => mret (inl tt)
  end.

Definition sendToStream (payload : bytes) (fuel : nat) :
    ServerConn * world → option (result unit * (ServerConn * world)) :=
  withStream sendStream (server_createSendMailBox 0 fuel)
    (payloadLoop fuel tt (sendToStreamOnce payload)
       (server_createSendMailBox retryWait)).

End Server.

Definition s_closeStream (up : ServerConn → bool) : MS (option error) :=
  b ← server up;
  if (b : bool) then r ← try (doCall CCloseSend); mret (errOf r) else mret None.

Definition server_Close (gbnErr : option error) : MS (option error) :=
  done ← server s_closed;
  if (done : bool) then mret None else
  e1 ← s_closeStream receiveStream;
  e2 ← s_closeStream sendStream;
  _ ← onConn (λ c, mkServerConn (s_receiveSID c) (s_sendSID c)
                (receiveBoxCreated c) (receiveStream c) (sendBoxCreated c)
                (sendStream c) (s_status c) (s_reported c) (s_onNewStatus c)
                true);
  mret (lastErr [gbnErr; e1; e2]).

Definition delCipherBox (created : ServerConn → bool) (sid : ServerConn → bytes) :
    MS (option error) :=
  b ← server created;
  if (b : bool) then
    i ← server sid; r ← try (doCall (CDelCipherBox i)); mret (errOf r)
  else mret None.

Definition server_Stop (gbnErr : option error) : MS (option error) :=
  e0 ← server_Close gbnErr;
  e1 ← delCipherBox receiveBoxCreated s_receiveSID;
  e2 ← delCipherBox sendBoxCreated s_sendSID;
  mret (lastErr [e0; e1; e2]).

(** [NewServerConn] and [RefreshServerConn] up to the Go-Back-N handshake: a
    refreshed connection knows that its boxes exist but has no streams. *)
Definition server_New (sid : bytes) (onNewStatus : bool) : result ServerConn :=
  sids ← serverSIDs sid;
  Ok (mkServerConn sids.1 sids.2 false false false false
        ServerStatusNotConnected [] onNewStatus false).

Definition server_Refresh (c : ServerConn) : ServerConn :=
  mkServerConn (s_receiveSID c) (s_sendSID c) (receiveBoxCreated c) false
    (sendBoxCreated c) false ServerStatusNotConnected (s_reported c)
    (s_onNewStatus c) false.

(** ** What the loops promise *)

(** [e'] is [e] after the events [tr]. *)
Record after (e e' : world) (tr : list event) : Prop := {
  af_answer : answer e' = answer e;
  af_stop : stop e' = stop e;
  af_pos : (pos e ≤ pos e')%nat;
  af_trace : trace e' = trace e ++ tr
}.

Lemma after_refl e : after e e [].
Proof. split; try done. by rewrite app_nil_r. Qed.

Lemma after_trans e1 e2 e3 t1 t2 :
  after e1 e2 t1 → after e2 e3 t2 → after e1 e3 (t1 ++ t2).
Proof.
  intros [] []. split; try congruence; try lia.
  rewrite app_assoc. congruence.
Qed.

Lemma after_stays e e' tr : after e e' tr → stays_stopped e → stays_stopped e'.
Proof. unfold stays_stopped. intros [_ -> _ _]. done. Qed.

#[export] Hint Resolve after_refl after_stays : go.

(** The contract between the loops and a stream: [up] is whether the stream
    exists, [connect] creates it, [attempt] is one try at a payload, [inv] a
    property of the connection that neither changes, [got] are the events that
    carry a payload across and [pays] the payloads a result accounts for. *)
Class StreamLaws {C A B : Type} (up : C → bool) (inv : C → Prop)
    (connect : M (C * world) unit) (attempt : M (C * world) (A + unit))
    (got : event → option B) (pays : A → list B) : Prop := {
  connect_law st r st' :
    inv st.1 → connect st = (r, st') →
    ∃ tr, after st.2 st'.2 tr ∧ (pos st.2 < pos st'.2)%nat ∧ omap got tr = []
    ∧ is_panic r = false ∧ inv st'.1 ∧ (is_ok r = true → up st'.1 = true);
  attempt_law st r st' :
    inv st.1 → up st.1 = true → attempt st = (r, st') →
    ∃ tr, after st.2 st'.2 tr ∧ is_panic r = false ∧ inv st'.1
    ∧ up st'.1 = true ∧ (r = Ok (inr tt) → (pos st.2 < pos st'.2)%nat)
    ∧ omap got tr = match r with Ok (inl a) => pays a | _ => [] end;
  got_sleep d : got (Slept d) = None
}.

Section Loops.
Context {C A B : Type} {up : C → bool} {inv : C → Prop}
  {connect : M (C * world) unit} {attempt : M (C * world) (A + unit)}
  {got : event → option B} {pays : A → list B}
  `{!StreamLaws up inv connect attempt got pays}.

Definition slept (d : Duration) (e : world) : world :=
  mkWorld (answer e) (stop e) (pos e) (trace e ++ [Slept d]).

Lemma after_slept d e : after e (slept d e) [Slept d].
Proof using. by split. Qed.

(** One iteration of a [create] loop. *)
Lemma retryLoop_S fuel waiter c e :
  retryLoop (S fuel) waiter connect (c, e) =
  match stop e (pos e) with
  | Some _ => Some (Ok tt, (c, e))
  | None =>
      match connect (c, slept (Wait waiter).1 e) with
      | (Ok _, st) => Some (Ok tt, st)
      | (Err _, st) => retryLoop fuel (Wait waiter).2 connect st
      | (Panic p, st) => Some (Panic p, st)
      end
  end.
Proof using.
  cbn [retryLoop fst snd]. destruct (stop e (pos e)); [done|].
  destruct (Wait waiter) as [d w']. unfold try. mstep. cbn [sleep fst snd].
  fold (slept d e). by destruct (connect (c, slept d e)) as [[[]|err|p] st].
Qed.

(** [create] returns with the stream up, or because of a stop. *)
Lemma retryLoop_spec fuel waiter st r st' :
  inv st.1 → retryLoop fuel waiter connect st = Some (r, st') →
  r = Ok tt ∧ ∃ tr, after st.2 st'.2 tr ∧ omap got tr = [] ∧ inv st'.1
  ∧ (up st'.1 = true ∨ stop st'.2 (pos st'.2) ≠ None).
Proof using All.
  revert waiter st. induction fuel as [|fuel IH]; intros waiter [c e] Hi; [done|].
  rewrite retryLoop_S. destruct (stop e (pos e)) as [x|] eqn:Hs.
  { intros [= <- <-]. split; [done|]. exists []. split_and!; auto with go.
    right. simpl. by rewrite Hs. }
  set (d := (Wait waiter).1). pose proof (after_slept d e) as H1.
  destruct (connect (c, slept d e)) as [r1 [c2 e2]] eqn:Hc.
  destruct (connect_law (got := got) (c, slept d e) _ _ Hi Hc)
    as (tr & H2 & _ & Hg & Hp & Hi2 & Hup).
  simpl in H2, Hup. pose proof (after_trans _ _ _ _ _ H1 H2) as H12.
  assert (Hg' : omap got ([Slept d] ++ tr) = [])
    by (rewrite omap_app, Hg; simpl; by rewrite (got_sleep (got := got))).
  destruct r1 as [[]|err|p]; [| |done].
  - intros [= <- <-]. split; [done|]. eexists. split; [exact H12|].
    split; [done|]. split; [done|]. left. by apply Hup.
  - intros Hl. destruct (IH _ _ Hi2 Hl) as (-> & tr3 & H3 & Hg3 & Hu).
    split; [done|]. eexists. split; [by eapply after_trans|].
    split; [|done]. by rewrite omap_app, Hg', Hg3.
Qed.

(** The payload loop, once the stream is up or the connection stopped. *)
Lemma payloadLoop_spec fuel quitResult init mn mx st r st' :
  inv st.1 → stays_stopped st.2 → (up st.1 = true ∨ stop st.2 (pos st.2) ≠ None) →
  payloadLoop fuel quitResult attempt
    (λ f, retryLoop f (NewBackoffWaiter init mn mx) connect) st = Some (r, st') →
  is_panic r = false ∧ ∃ tr, after st.2 st'.2 tr
  ∧ (omap got tr = match r with Ok a => pays a | _ => [] end
     ∨ (omap got tr = [] ∧ r = Ok quitResult
        ∧ stop st'.2 (pos st'.2) = Some StopQuit)).
Proof using All.
  revert st. induction fuel as [|fuel IH]; intros [c e] Hi Hst Hup; [done|].
  cbn [payloadLoop fst snd] in *. destruct (stop e (pos e)) as [[|err]|] eqn:Hs.
  { intros [= <- <-]. split; [done|]. exists []. split; [auto with go|]. by right. }
  { intros [= <- <-]. split; [done|]. exists []. split; [auto with go|]. by left. }
  destruct Hup as [Hup|]; [|done].
  destruct (attempt (c, e)) as [r1 [c1 e1]] eqn:Ha.
  destruct (attempt_law (got := got) (c, e) r1 (c1, e1) Hi Hup Ha)
    as (tr1 & H1 & Hp & Hi1 & Hup1 & _ & Hg1). cbn [fst snd] in *.
  destruct r1 as [[a|[]]|err|p]; try done.
  - intros [= <- <-]. split; [done|]. exists tr1. by split; [|left].
  - destruct (retryLoop _ _ connect (c1, e1)) as [[r2 [c2 e2]]|] eqn:Hr; [|done].
    destruct (retryLoop_spec _ _ (c1, e1) _ _ Hi1 Hr)
      as (-> & tr2 & H2 & Hg2 & Hi2 & Hu2).
    intros Hl. pose proof (after_trans _ _ _ _ _ H1 H2) as H12.
    destruct (IH (c2, e2)) as (Hpr & tr3 & H3 & Hg3); try done.
    { eapply after_stays; [exact H12|exact Hst]. }
    split; [done|]. eexists. split; [by eapply after_trans|].
    rewrite !omap_app, Hg1, Hg2. exact Hg3.
  - intros [= <- <-]. split; [done|]. exists tr1. by split; [|left].
Qed.

(** The whole call. *)
Lemma stream_call_spec fuel quitResult i1 i2 mn mx st r st' :
  inv st.1 → stays_stopped st.2 →
  withStream up (retryLoop fuel (NewBackoffWaiter i1 mn mx) connect)
    (payloadLoop fuel quitResult attempt
       (λ f, retryLoop f (NewBackoffWaiter i2 mn mx) connect)) st = Some (r, st') →
  is_panic r = false ∧ ∃ tr, after st.2 st'.2 tr
  ∧ (omap got tr = match r with Ok a => pays a | _ => [] end
     ∨ (omap got tr = [] ∧ r = Ok quitResult
        ∧ stop st'.2 (pos st'.2) = Some StopQuit)).
Proof using All.
  intros Hi Hst. unfold withStream. destruct (up st.1) eqn:Hup.
  { apply payloadLoop_spec; auto. }
  destruct (retryLoop _ _ connect st) as [[r1 st1]|] eqn:Hr; [|done].
  destruct (retryLoop_spec _ _ _ _ _ Hi Hr) as (-> & tr1 & H1 & Hg1 & Hi1 & Hu1).
  intros Hl. apply payloadLoop_spec in Hl as (Hp & tr2 & H2 & Hg2);
    [|done|by eauto with go|done].
  split; [done|]. eexists. split; [by eapply after_trans|].
  rewrite omap_app, Hg1. exact Hg2.
Qed.

(** Termination: a stop that is there after [n] calls ends the loops within
    [n] more iterations. *)
Lemma retryLoop_stops n fuel waiter st :
  inv st.1 → stays_stopped st.2 → stop st.2 n ≠ None → (n - pos st.2 < fuel)%nat →
  is_Some (retryLoop fuel waiter connect st).
Proof using All.
  revert waiter st. induction fuel as [|fuel IH]; intros waiter [c e] Hi Hst Hn Hf;
    [simpl in *; lia|].
  rewrite retryLoop_S. cbn [fst snd] in *.
  destruct (stop e (pos e)) as [x|] eqn:Hs; [by eexists|].
  set (d := (Wait waiter).1).
  destruct (connect (c, slept d e)) as [r1 [c2 e2]] eqn:Hc.
  destruct (connect_law (got := got) (c, slept d e) _ _ Hi Hc)
    as (tr & H2 & Hlt & _ & _ & Hi2 & _).
  cbn [fst snd slept pos] in *. destruct r1; try by eexists.
  apply IH; cbn [fst snd]; [done|..].
  - eapply after_stays; [exact H2|exact Hst].
  - by rewrite (af_stop _ _ _ H2).
  - assert (pos e < n)%nat; [|lia].
    destruct (Nat.lt_ge_cases (pos e) n); [done|].
    by destruct (Hst n (pos e)).
Qed.

Lemma payloadLoop_stops n fuel quitResult init mn mx st :
  inv st.1 → stays_stopped st.2 → (up st.1 = true ∨ stop st.2 (pos st.2) ≠ None) →
  stop st.2 n ≠ None → (n - pos st.2 < fuel)%nat →
  is_Some (payloadLoop fuel quitResult attempt
    (λ f, retryLoop f (NewBackoffWaiter init mn mx) connect) st).
Proof using All.
  revert st. induction fuel as [|fuel IH]; intros [c e] Hi Hst Hup Hn Hf;
    [simpl in *; lia|].
  cbn [payloadLoop fst snd] in *.
  destruct (stop e (pos e)) as [[|err]|] eqn:Hs; [by eexists..|].
  destruct Hup as [Hup|]; [|done].
  destruct (attempt (c, e)) as [r1 [c1 e1]] eqn:Ha.
  destruct (attempt_law (got := got) (c, e) r1 (c1, e1) Hi Hup Ha)
    as (tr1 & H1 & _ & Hi1 & Hup1 & Hlt & _). cbn [fst snd] in *.
  destruct r1 as [[a|[]]|err|p]; try by eexists. specialize (Hlt eq_refl).
  assert (Hst1 : stays_stopped e1) by eauto with go.
  assert (Hn1 : stop e1 n ≠ None) by by rewrite (af_stop _ _ _ H1).
  destruct (retryLoop_stops n (S fuel) (NewBackoffWaiter init mn mx) (c1, e1))
    as [[r2 [c2 e2]] Hr]; [done|done|done|cbn [snd]; lia|].
  rewrite Hr. destruct (retryLoop_spec _ _ (c1, e1) _ _ Hi1 Hr)
    as (-> & tr2 & H2 & _ & Hi2 & Hu2).
  simpl in *. apply IH; simpl; [done|by eauto with go|done| |].
  - by rewrite (af_stop _ _ _ H2).
  - pose proof (af_pos _ _ _ H2).
    assert (pos e < n)%nat; [|lia].
    destruct (Nat.lt_ge_cases (pos e) n); [done|]. by destruct (Hst n (pos e)).
Qed.

Lemma stream_call_stops n fuel quitResult i1 i2 mn mx st :
  inv st.1 → stays_stopped st.2 → stop st.2 n ≠ None → (n - pos st.2 < fuel)%nat →
  is_Some (withStream up (retryLoop fuel (NewBackoffWaiter i1 mn mx) connect)
    (payloadLoop fuel quitResult attempt
       (λ f, retryLoop f (NewBackoffWaiter i2 mn mx) connect)) st).
Proof using All.
  intros Hi Hst Hn Hf. unfold withStream. destruct (up st.1) eqn:Hup.
  { by apply (payloadLoop_stops n); auto. }
  destruct (retryLoop_stops n fuel (NewBackoffWaiter i1 mn mx) st)
    as [[r1 st1] Hr]; [done..|].
  rewrite Hr. destruct (retryLoop_spec _ _ _ _ _ Hi Hr)
    as (-> & tr1 & H1 & _ & Hi1 & Hu1).
  pose proof (af_pos _ _ _ H1).
  apply (payloadLoop_stops n); [done|by eauto with go|done| |lia].
  by rewrite (af_stop _ _ _ H1).
Qed.

End Loops.

(** ** The streams keep the contract *)

(** The event of one call. *)
Lemma after_call e c a :
  after e (mkWorld (answer e) (stop e) (S (pos e)) (trace e ++ [Called c a]))
    [Called c a].
Proof. split; simpl; try done. lia. Qed.

Lemma after_call2 e c a c' a' :
  after e (mkWorld (answer e) (stop e) (S (S (pos e)))
             ((trace e ++ [Called c a]) ++ [Called c' a']))
    [Called c a; Called c' a'].
Proof. split; simpl; try done; [lia|]. by rewrite <- app_assoc. Qed.

(** The messages a gRPC stream delivers, and the payloads it takes with the id
    of their box. *)
Definition grpc_received (ev : event) : option bytes :=
  match ev with Called CRecv (inl b) => Some b | _ => None end.
Definition grpc_sent (ev : event) : option (bytes * bytes) :=
  match ev with Called (CSend sid p) (inl _) => Some (sid, p) | _ => None end.

(** The messages a websocket delivers, and the texts it takes. *)
Definition ws_received `{Marshaler} (ev : event) : option bytes :=
  match ev with
  | Called CSocketRead (inl text) =>
      match stripJSONWrapper text with
      | inl unwrapped =>
          match UnmarshalBox unwrapped with inl m => Some m | inr _ => None end
      | inr _ => None
      end
  | _ => None
  end.
Definition ws_sent (ev : event) : option bytes :=
  match ev with Called (CSocketWrite b) (inl _) => Some b | _ => None end.

(** What a transport promises the loops of [ClientConn]. *)
Class TransportLaws `{ClientConnTransport} := {
  Sent : Type;
  received : event → option bytes;
  transmitted : event → option Sent;
  packed : bytes → bytes → list Sent;
  recv_laws :: StreamLaws receiveUp (λ _, True) ConnectReceive recvOnce
                 received option_list;
  send_laws sid payload ::
    StreamLaws sendUp (λ c, mb_sendSID (info c) = sid) ConnectSend
      (sendOnce payload) transmitted (λ _, packed sid payload)
}.

Lemma setStatus_frame s c :
  info (client_setStatus s c) = info c
  ∧ receiveUp (client_setStatus s c) = receiveUp c
  ∧ sendUp (client_setStatus s c) = sendUp c.
Proof. unfold client_setStatus. by case_if. Qed.

(** The events of a stream operation that has returned. *)
Ltac stream_events :=
  cbn [fst snd]; intros [= <- <-]; cbn [fst snd];
  eexists; split; [first [apply after_call | apply after_call2]|];
  cbn [pos omap list_omap app grpc_received grpc_sent ws_received ws_sent];
  rewrite ?(proj1 (setStatus_frame _ _)), ?(proj1 (proj2 (setStatus_frame _ _))),
    ?(proj2 (proj2 (setStatus_frame _ _)));
  split_and!; try done; try lia.

#[export] Instance grpc_recv_laws :
  StreamLaws receiveUp (λ _, True) grpc_ConnectReceive
    (recvOnce (H := grpcTransport)) grpc_received option_list.
Proof.
  split; [| |done].
  - intros [c e] r st' _. unfold grpc_ConnectReceive, client, doCall, onConn. mstep.
    destruct (answer e (pos e)) eqn:Ha; stream_events.
  - intros [c e] r st' _ Hup. unfold recvOnce. cbn [Recv grpcTransport].
    unfold grpc_Recv, nonNil, try, doCall, onConn. mstep.
    cbn [fst snd] in *. rewrite Hup.
    destruct (answer e (pos e)) eqn:Ha; cbn [negb]; stream_events.
Qed.

#[export] Instance grpc_send_laws sid payload :
  StreamLaws sendUp (λ c, mb_sendSID (info c) = sid) grpc_ConnectSend
    (sendOnce (H := grpcTransport) payload) grpc_sent (λ _, [(sid, payload)]).
Proof.
  split; [| |done].
  - intros [c e] r st' Hi. unfold grpc_ConnectSend, doCall, onConn. mstep.
    destruct (answer e (pos e)) eqn:Ha; stream_events.
  - intros [c e] r st' Hi Hup. unfold sendOnce, client. cbn [Send grpcTransport].
    unfold grpc_Send, nonNil, try, doCall, onConn. mstep.
    cbn [fst snd] in *. rewrite Hup, Hi.
    destruct (answer e (pos e)) eqn:Ha; cbn [negb]; stream_events.
Qed.

#[export] Instance grpc_laws : @TransportLaws grpcTransport := {|
  Sent := bytes * bytes;
  received := grpc_received;
  transmitted := grpc_sent;
  packed := λ sid payload, [(sid, payload)]
|}.

Section WebsocketLaws.
Context `{Marshaler}.

#[local] Instance ws_recv_laws :
  StreamLaws receiveUp (λ _, True) ws_ConnectReceive
    (recvOnce (H := websocketTransport)) ws_received option_list.
Proof using.
  split; [| |done].
  - intros [c e] r st' _. unfold ws_ConnectReceive, client, doCall, onConn. mstep.
    destruct (answer e (pos e)) eqn:Ha; [|stream_events].
    cbn [fst snd]. destruct (MarshalDesc _) as [b|err]; [|stream_events].
    cbn [answer pos]. destruct (answer e (S (pos e))) eqn:Ha2; stream_events.
  - intros [c e] r st' _ Hup. unfold recvOnce. cbn [Recv websocketTransport].
    unfold ws_Recv, nonNil, try, doCall, onConn. mstep.
    cbn [fst snd] in *. rewrite Hup.
    destruct (answer e (pos e)) as [text|err] eqn:Ha; [|cbn [negb]; stream_events].
    cbn [fst snd]. destruct (stripJSONWrapper text) as [u|err] eqn:Hs;
      [destruct (UnmarshalBox u) as [m|err] eqn:Hu|]; cbn [negb]; stream_events;
      by rewrite ?Hs, ?Hu.
Qed.

#[local] Instance ws_send_laws sid payload :
  StreamLaws sendUp (λ c, mb_sendSID (info c) = sid) ws_ConnectSend
    (sendOnce (H := websocketTransport) payload) ws_sent
    (λ _, match MarshalBox sid payload with inl b => [b] | inr _ => [] end).
Proof using.
  split; [| |done].
  - intros [c e] r st' Hi. unfold ws_ConnectSend, client, doCall, onConn. mstep.
    destruct (answer e (pos e)) eqn:Ha; stream_events.
  - intros [c e] r st' Hi Hup. unfold sendOnce, client. cbn [Send websocketTransport].
    unfold ws_Send. mstep. cbn [fst snd] in *. rewrite Hi.
    destruct (MarshalBox sid payload) as [b|err].
    + unfold nonNil, try, doCall, onConn. mstep. cbn [fst snd]. rewrite Hup.
      destruct (answer e (pos e)) eqn:Ha; cbn [negb]; stream_events.
    + cbn [negb]. intros [= <- <-]. exists []. split_and!; auto with go; done.
Qed.

#[export] Instance websocket_laws : @TransportLaws websocketTransport := {|
  Sent := bytes;
  received := ws_received;
  transmitted := ws_sent;
  packed := λ sid payload,
    match MarshalBox sid payload with inl b => [b] | inr _ => [] end
|}.

End WebsocketLaws.

#[export] Instance server_recv_laws ex :
  StreamLaws receiveStream (λ _, True) (openReceiveStream ex) recvFromStreamOnce
    grpc_received option_list.
Proof.
  split; [| |done].
  - intros [c e] r st' _.
    unfold openReceiveStream, initAccountCipherBox, server, try, doCall, onConn.
    mstep. cbn [fst snd].
    destruct (answer e (pos e)) as [b|err] eqn:Ha;
      [|destruct (ex err); cbn [negb]; [|stream_events]].
    all: cbn [answer pos fst snd];
      destruct (answer e (S (pos e))) eqn:Ha2; stream_events.
  - intros [c e] r st' _ Hup.
    unfold recvFromStreamOnce, s_nonNil, try, doCall, onConn. mstep.
    cbn [fst snd] in *. rewrite Hup.
    destruct (answer e (pos e)) eqn:Ha; stream_events.
Qed.

#[export] Instance server_send_laws ex sid payload :
  StreamLaws sendStream (λ c, s_sendSID c = sid) (openSendStream ex)
    (sendToStreamOnce payload) grpc_sent (λ _, [(sid, payload)]).
Proof.
  split; [| |done].
  - intros [c e] r st' Hi.
    unfold openSendStream, initAccountCipherBox, server, try, doCall, onConn.
    mstep. cbn [fst snd].
    destruct (answer e (pos e)) as [b|err] eqn:Ha;
      [|destruct (ex err); cbn [negb]; [|stream_events]].
    all: cbn [answer pos fst snd];
      destruct (answer e (S (pos e))) eqn:Ha2; stream_events.
  - intros [c e] r st' Hi Hup.
    unfold sendToStreamOnce, s_nonNil, server, try, doCall, onConn. mstep.
    cbn [fst snd] in *. rewrite Hup, Hi.
    destruct (answer e (pos e)) eqn:Ha; stream_events.
Qed.

(** ** Properties *)

(** C11: the client's [recv] and [send] over any transport that keeps its
    contract (gRPC and websocket do), in a world where a stop is final.
    Neither ever uses a stream that is [nil].  However often streams fail and
    are created again, the messages the streams delivered during a [recv] are
    exactly the one it returns, so none is lost or repeated; a [send] that
    returns no error has put its payload, addressed to the send box, on the
    stream once, unless the connection was closed, and otherwise not at all.
    Once the connection stops, both return after finitely many attempts. *)
Theorem client_streams `{TransportLaws} :
  (∀ fuel st r st', stays_stopped st.2 →
     client_recv fuel st = Some (r, st') →
     is_panic r = false ∧ ∃ tr, after st.2 st'.2 tr
     ∧ omap received tr = match r with Ok m => option_list m | _ => [] end)
  ∧ (∀ payload fuel st r st', stays_stopped st.2 →
     client_send payload fuel st = Some (r, st') →
     is_panic r = false ∧ ∃ tr, after st.2 st'.2 tr
     ∧ (omap transmitted tr =
          (if is_ok r then packed (mb_sendSID (info st.1)) payload else [])
        ∨ omap transmitted tr = [] ∧ r = Ok tt
          ∧ stop st'.2 (pos st'.2) = Some StopQuit))
  ∧ (∀ payload n fuel st, stays_stopped st.2 → stop st.2 n ≠ None →
     (n - pos st.2 < fuel)%nat →
     is_Some (client_recv fuel st) ∧ is_Some (client_send payload fuel st)).
Proof.
  split_and!.
  - intros fuel st r st' Hst Hr.
    destruct (stream_call_spec (got := received) _ _ _ _ _ _ _ _ _ I Hst Hr)
      as (Hp & tr & Ha & Hg).
    split; [done|]. exists tr. split; [done|].
    destruct Hg as [Hg|(Hg & -> & _)]; done.
  - intros payload fuel st r st' Hst Hr.
    destruct (stream_call_spec (got := transmitted)
                (inv := λ c, mb_sendSID (info c) = mb_sendSID (info st.1))
                _ _ _ _ _ _ st _ _ eq_refl Hst Hr) as (Hp & tr & Ha & Hg).
    split; [done|]. exists tr. split; [done|]. by destruct r.
  - intros payload n fuel st Hst Hn Hf. split.
    + by apply (stream_call_stops (got := received)
                  (inv := λ _, True) n _ _ _ _ _ _ st).
    + by apply (stream_call_stops (got := transmitted)
                  (inv := λ c, mb_sendSID (info c) = mb_sendSID (info st.1))
                  n _ _ _ _ _ _ st).
Qed.

Definition demoClient : ClientConn :=
  mkClientConn (mkMailboxInfo "host" [1] [2]) false false
    ClientStatusNotConnected [] false.

(** The first connection attempt fails, then the stream breaks once, then a
    message arrives. *)
Definition demoWorld : world := mkWorld
  (λ i, match i with
        | 0%nat => inr (ErrMsg "unreachable")
        | 1%nat => inl []
        | 2%nat => inr (ErrMsg "rpc error: stream not found")
        | 3%nat => inl []
        | _ => inl [7; 8]
        end)
  (λ _, None) 0 [].

Lemma client_streams_witness :
  ∃ st tr, client_recv 5 (demoClient, demoWorld) = Some (Ok (Some [7; 8]), st)
  ∧ reported st.1 = [ClientStatusSessionNotFound; ClientStatusConnected]
  ∧ after demoWorld st.2 tr ∧ omap grpc_received tr = [[7; 8]].
Proof.
  destruct (client_recv 5 (demoClient, demoWorld)) as [[r st]|] eqn:Hr;
    [|vm_compute in Hr; discriminate Hr].
  destruct (@client_streams _ grpc_laws) as [Hrecv _].
  destruct (Hrecv 5%nat (demoClient, demoWorld) r st) as (_ & tr & Ha & Hg).
  - intros i j _ Hi. exact Hi.
  - exact Hr.
  - vm_compute in Hr. injection Hr as <- <-. eexists. exists tr.
    split; [reflexivity|]. split; [reflexivity|]. split; [exact Ha|exact Hg].
Defined.


Definition demoServerConn : ServerConn :=
  mkServerConn [1] [2] false false false false ServerStatusNotConnected [] false
    false.


(** ** Reported status *)

Definition client_setAll (ss : list ClientStatus) (c : ClientConn) : ClientConn :=
  fold_left (λ c s, client_setStatus s c) ss c.
Definition server_setAll (ss : list ServerStatus) (c : ServerConn) : ServerConn :=
  fold_left (λ c s, server_setStatus s c) ss c.

(** Every two neighbours of [l] are related. *)
Definition neighbours {A} (R : A → A → Prop) (l : list A) : Prop :=
  ∀ l1 x y l2, l = l1 ++ x :: y :: l2 → R x y.

Lemma neighbours_snoc {A} (R : A → A → Prop) l y :
  neighbours R l → (∀ x, list.last l = Some x → R x y) → neighbours R (l ++ [y]).
Proof.
  intros Hl Hy l1 a b l2 He.
  destruct l2 as [|z l2 _] using rev_ind.
  - change (l1 ++ [a; b]) with (l1 ++ [a] ++ [b]) in He.
    rewrite app_assoc in He. apply app_inj_tail in He as [-> ->].
    apply Hy. by rewrite last_snoc.
  - change (l1 ++ a :: b :: l2 ++ [z]) with (l1 ++ (a :: b :: l2) ++ [z]) in He.
    rewrite app_assoc in He. apply app_inj_tail in He as [-> _]. by eapply Hl.
Qed.

(** A property every operation keeps holds after a sequence of them. *)
Lemma fold_left_preserves {A B} (P : A → Prop) (f : A → B → A) l a :
  (∀ a b, P a → P (f a b)) → P a → P (fold_left f l a).
Proof. intros Hf. revert a. induction l; simpl; auto. Qed.

Definition detailed (s : ClientStatus) : bool :=
  bool_decide (s = ClientStatusSessionInUse)
  || bool_decide (s = ClientStatusSessionNotFound).

Definition client_reports (c : ClientConn) : Prop :=
  list.last (ClientStatusNotConnected :: reported c) = Some (status c)
  ∧ neighbours (λ x y, detailed x = true → y ≠ ClientStatusNotConnected)
      (ClientStatusNotConnected :: reported c).

Lemma client_reports_set s c :
  client_reports c → client_reports (client_setStatus s c).
Proof.
  intros [Hl Hn]. unfold client_setStatus.
  destruct (_ && _) eqn:Hb; [done|]. unfold client_reports.
  cbn [status reported]. rewrite app_comm_cons. split; [by rewrite last_snoc|].
  apply neighbours_snoc; [done|]. intros x Hx Hd ->.
  rewrite Hl in Hx. injection Hx as <-. unfold detailed in Hd.
  rewrite bool_decide_true, Hd in Hb by done. done.
Qed.

Definition server_reports (c : ServerConn) : Prop :=
  list.last (ServerStatusNotConnected :: s_reported c) = Some (s_status c)
  ∧ neighbours (≠) (ServerStatusNotConnected :: s_reported c)
  ∧ s_onNewStatus c = true.

Lemma server_reports_set s c :
  server_reports c → server_reports (server_setStatus s c).
Proof.
  intros (Hl & Hn & Hc). unfold server_reports, server_setStatus.
  cbn [s_status s_reported s_onNewStatus]. rewrite Hc. simpl andb.
  case_bool_decide as Hd.
  - rewrite app_comm_cons. split_and!; [by rewrite last_snoc| |done].
    apply neighbours_snoc; [done|]. intros x Hx.
    rewrite Hl in Hx. by injection Hx as <-.
  - by subst s.
Qed.

(** What the callers of [onNewStatus] see.  For any sequence of status
    changes on a new connection, the last status reported is the current one;
    the client never reports "not connected" right after it has reported that
    the session is in use or not found; the server reports only changes. *)
Theorem status_reports cs ss i r x :
  let c := client_setAll cs
             (mkClientConn i false false ClientStatusNotConnected [] false) in
  let s := server_setAll ss
             (mkServerConn r x false false false false ServerStatusNotConnected
                [] true false) in
  (list.last (ClientStatusNotConnected :: reported c) = Some (status c)
   ∧ neighbours (λ x y, detailed x = true → y ≠ ClientStatusNotConnected)
       (ClientStatusNotConnected :: reported c))
  ∧ (list.last (ServerStatusNotConnected :: s_reported s) = Some (s_status s)
     ∧ neighbours (≠) (ServerStatusNotConnected :: s_reported s)).
Proof.
  intros c s. split.
  - apply (fold_left_preserves client_reports); [by intros; apply client_reports_set|].
    split; [done|]. intros [|? []] ? ? ? [= ]; done.
  - assert (server_reports s) as (Hl & Hn & _); [|done].
    apply (fold_left_preserves server_reports); [by intros; apply server_reports_set|].
    split_and!; [done| |done]. intros [|? []] ? ? ? [= ]; done.
Qed.

(** ** The JSON wrapper *)

Lemma stripPrefix_app p s : stripPrefix p (p ++ s) = Some s.
Proof. induction p; [done|]. simpl. by rewrite Z.eqb_refl. Qed.

Lemma greedyBrace_line body :
  10 ∉ body → greedyBrace (body ++ [125]) = Some (body, []).
Proof.
  induction body as [|c body IH]; intros Hn; [done|].
  apply not_elem_of_cons in Hn as [Hc Hn]. simpl. rewrite (IH Hn).
  destruct (Z.eqb_spec c 10); [by subst|done].
Qed.

Lemma matchAt_wrapped prefix body :
  10 ∉ body → matchAt prefix (prefix ++ body ++ [125]) = Some (body, []).
Proof. intros. unfold matchAt. by rewrite stripPrefix_app, greedyBrace_line. Qed.

Lemma wrapped_match prefix body :
  10 ∉ body → matchString prefix (prefix ++ body ++ [125]) = true.
Proof.
  intros Hn. pose proof (matchAt_wrapped prefix body Hn) as Hm.
  destruct (prefix ++ body ++ [125]) eqn:He; cbn [matchString]; by rewrite Hm.
Qed.

Lemma wrapped_replace prefix body :
  10 ∉ body →
  replaceAll (length (prefix ++ body ++ [125])) prefix
    (prefix ++ body ++ [125]) = body.
Proof.
  intros Hn. pose proof (matchAt_wrapped prefix body Hn) as Hm.
  destruct (prefix ++ body ++ [125]) as [|c s] eqn:He.
  { by destruct prefix, body. }
  cbn [length replaceAll]. rewrite Hm. destruct (length s); apply app_nil_r.
Qed.

Lemma hasPrefix_app p s : hasPrefix (p +:+ s) p = true.
Proof.
  induction p as [|c p IH]; [by destruct s|].
  change (String c p +:+ s) with (String c (p +:+ s)). cbn [hasPrefix].
  by rewrite Ascii.eqb_refl, IH.
Qed.

Lemma contains_app a b s : contains (a +:+ s +:+ b) s = true.
Proof.
  induction a as [|c a IH].
  - change ("" +:+ s +:+ b) with (s +:+ b).
    pose proof (hasPrefix_app s b) as Hp.
    destruct (s +:+ b); cbn [contains]; by rewrite Hp.
  - change (String c a +:+ s +:+ b) with (String c (a +:+ s +:+ b)).
    cbn [contains]. by rewrite IH, orb_true_r.
Qed.

(** C33: the websocket proxy's wrapper.  A message wrapped as a result, on one
    line, is unwrapped to exactly its body; one wrapped as an error becomes an
    error with exactly its body as text, so that a "stream not found" answer
    makes [Recv] report the session as not found and ask for a retry, with
    the socket and the status of the connection left alone. *)
Theorem websocket_wrapper `{Marshaler} :
  (∀ body, 10 ∉ body →
     stripJSONWrapper (resultPattern ++ body ++ [125]) = inl body)
  ∧ (∀ body, 10 ∉ body →
     matchString resultPattern (errorPattern ++ body ++ [125]) = false →
     stripJSONWrapper (errorPattern ++ body ++ [125]) =
     inr (ErrMsg (stringOfBytes body)))
  ∧ (∀ body a b c e, 10 ∉ body →
     matchString resultPattern (errorPattern ++ body ++ [125]) = false →
     stringOfBytes body = a +:+ "stream not found" +:+ b →
     receiveUp c = true →
     answer e (pos e) = inl (errorPattern ++ body ++ [125]) →
     ∃ e', ws_Recv (c, e) =
       (Ok ([], true, ClientStatusSessionNotFound,
            Some (ErrMsg (stringOfBytes body))), (c, e'))).
Proof.
  assert (Herr : ∀ body, 10 ∉ body →
     matchString resultPattern (errorPattern ++ body ++ [125]) = false →
     stripJSONWrapper (errorPattern ++ body ++ [125]) =
     inr (ErrMsg (stringOfBytes body))).
  { intros body Hn Hr. unfold stripJSONWrapper.
    by rewrite Hr, wrapped_match, wrapped_replace by done. }
  split_and!; [|done|].
  - intros body Hn. unfold stripJSONWrapper.
    by rewrite wrapped_match, wrapped_replace by done.
  - intros body a b c e Hn Hr Hs Hup Ha.
    unfold ws_Recv, nonNil, try, doCall. mstep. cbn [fst]. rewrite Hup, Ha.
    rewrite (Herr body Hn Hr). unfold statusFromError. cbn [errorText].
    rewrite Hs, contains_app, <- Hs. by eexists.
Qed.
