(* ===== verification/Pairing.v ===== *)
(** * Pairing phrase and request metadata ([mailbox/crypto.go],
    [mailbox/create_conn.go], [GetRequestMetadata] of
    [mailbox/grpc_noise_conn.go])

    The pairing phrase is ten words of eleven bits each; the passphrase entropy
    is the fourteen bytes that hold them.  The auth data of a connection is a
    block of header lines that becomes the metadata of every RPC. *)

From stdpp Require Import base numbers list gmap strings tactics.
From Stdlib Require Import Ascii.
From S2P Require Import Prelude.

(** ** Bits *)

(** The low [n] bits of [v], most significant first, and back. *)
Fixpoint bitsZ (n : nat) (v : Z) : list bool :=
  match n with
  | O => []
  | S n => Z.testbit v (Z.of_nat n) :: bitsZ n v
  end.
Definition valueOf (bs : list bool) : Z :=
  fold_left (λ acc b, 2 * acc + Z.b2z b) bs 0.

Definition bitsOfBytes (b : bytes) : list bool := mjoin (bitsZ 8 <$> b).

(** The bytes that hold [bs], the last one filled up with zeros. *)
Fixpoint bytesOfBits (fuel : nat) (bs : list bool) : bytes :=
  match fuel, bs with
  | O, _ | _, [] => []
  | S fuel, _ =>
      valueOf (take 8 bs ++ replicate (8 - length (take 8 bs)) false)
        :: bytesOfBits fuel (drop 8 bs)
  end.

(** ** Libraries *)

(** [github.com/kkdai/bstream], and the word list of [lnd/aezeed]:
    [DefaultWordList] and [ReverseWordMap], a map that gives [0] for words it
    does not have. *)
Class Mnemonics := {
  BReader : Type;
  BWriter : Type;
  NewBStreamReader : bytes → BReader;
  ReadBits : Z → BReader → result (Z * BReader);
  NewBStreamWriter : Z → BWriter;
  WriteBits : Z → Z → BWriter → BWriter;
  Bytes : BWriter → bytes;
  DefaultWordList : list string;
  ReverseWordMap : gmap string Z
}.

(** Streams read and write numbers most significant bit first; the word list
    has [2^11] words and the map inverts it. *)
Class MnemonicLaws `{Mnemonics} := {
  unread_bits : BReader → list bool;
  written_bits : BWriter → list bool;
  reader_new b : unread_bits (NewBStreamReader b) = bitsOfBytes b;
  reader_read n r : 0 ≤ n ≤ len (unread_bits r) →
    ∃ r', ReadBits n r = Ok (valueOf (take (Z.to_nat n) (unread_bits r)), r')
    ∧ unread_bits r' = drop (Z.to_nat n) (unread_bits r);
  writer_new k : written_bits (NewBStreamWriter k) = [];
  writer_write v n w : 0 ≤ n →
    written_bits (WriteBits v n w) = written_bits w ++ bitsZ (Z.to_nat n) v;
  writer_bytes w :
    Bytes w = bytesOfBits (length (written_bits w)) (written_bits w);
  wordlist_length : length DefaultWordList = 2048%nat;
  wordlist_reverse i word :
    DefaultWordList !! i = Some word → ReverseWordMap !! word = Some (Z.of_nat i)
}.

(** ** The pairing phrase *)

Definition NumPassphraseWords : nat := 10.
Definition NumPassphraseEntropyBytes : Z := 14.
Definition BitsPerWord : Z := 11.

Section Phrase.
Context `{Mnemonics}.

(** The loop of [PassphraseEntropyToMnemonic]; [k] words are left. *)
Fixpoint readWords (k : nat) (cipherBits : BReader) : result (list string) :=
  match k with
  | O => Ok []
  | S k =>
      r ← ReadBits BitsPerWord cipherBits;
      word ← index DefaultWordList r.1;
      words ← readWords k r.2;
      Ok (word :: words)
  end.

Definition PassphraseEntropyToMnemonic (entropy : bytes) : result (list string) :=
  readWords NumPassphraseWords (NewBStreamReader entropy).

(** [ReverseWordMap[word]], with Go's zero value for a missing key. *)
Definition wordIndex (word : string) : Z := default 0 (ReverseWordMap !! word).

Definition writeWords (words : list string) (w : BWriter) : BWriter :=
  fold_left (λ w word, WriteBits (wordIndex word) BitsPerWord w) words w.

Definition PassphraseMnemonicToEntropy (passphrase : list string) : bytes :=
  let cipherBits := writeWords passphrase (NewBStreamWriter NumPassphraseEntropyBytes) in
  copy (replicate (Z.to_nat NumPassphraseEntropyBytes) 0) (Bytes cipherBits).

(** [NewPassphraseEntropy]; [random] is what [rand.Read] filled in. *)
Definition NewPassphraseEntropy (random : result bytes) :
    result (list string * bytes) :=
  entropy ← random;
  passphrase ← PassphraseEntropyToMnemonic entropy;
  Ok (passphrase, PassphraseMnemonicToEntropy passphrase).

End Phrase.

(** [strings.Split(s, sep)] for a separator that is not empty. *)
Fixpoint dropPrefix (p s : string) : option string :=
  match p, s with
  | EmptyString, _ => Some s
  | String a p, String b s => if Ascii.eqb a b then dropPrefix p s else None
  | _, EmptyString => None
  end.

Fixpoint splitOn (fuel : nat) (sep s cur : string) : list string :=
  match fuel with
  | O => [cur]
  | S fuel =>
      match dropPrefix sep s with
      | Some rest => cur :: splitOn fuel sep rest ""
      | None =>
          match s with
          | EmptyString => [cur]
          | String c s => splitOn fuel sep s (cur +:+ String c "")
          end
      end
  end.

(** Every step consumes a character. *)
Definition Split (s sep : string) : list string :=
  splitOn (S (String.length s)) sep s "".

(** The words of a phrase typed by the user: [copy] into an array of ten. *)
Definition phraseWords (pairingPhrase : string) : list string :=
  copy (replicate NumPassphraseWords "") (Split pairingPhrase " ").

(** ** Request metadata *)

Definition crlf : string := String "013" (String "010" "").

(** One header line: anything that is not a name and a value is skipped. *)
Definition addLine (md : gmap string string) (line : string) :
    gmap string string :=
  match Split line ": " with
  | [k; v] => <[k := v]> md
  | _ => md
  end.

Definition GetRequestMetadata (authData : bytes) : gmap string string :=
  fold_left addLine (Split (stringOfBytes authData) crlf) ∅.

(** ** Lemmas on bits *)

Lemma length_bitsZ n v : length (bitsZ n v) = n.
Proof. induction n; simpl; congruence. Qed.

Lemma bitsZ_snoc n v : bitsZ (S n) v = bitsZ n (v / 2) ++ [Z.odd v].
Proof.
  induction n as [|n IH]; [done|].
  change (bitsZ (S (S n)) v) with (Z.testbit v (Z.of_nat (S n)) :: bitsZ (S n) v).
  rewrite IH. simpl bitsZ. rewrite <- app_comm_cons. f_equal.
  change (v / 2) with (v / 2 ^ 1). rewrite <- Z.shiftr_div_pow2 by lia.
  rewrite Z.shiftr_spec by lia. f_equal. lia.
Qed.

Lemma valueOf_snoc bs b : valueOf (bs ++ [b]) = 2 * valueOf bs + Z.b2z b.
Proof. unfold valueOf. by rewrite fold_left_app. Qed.

Lemma valueOf_range bs : 0 ≤ valueOf bs < 2 ^ Z.of_nat (length bs).
Proof.
  induction bs as [|b bs IH] using rev_ind; [done|].
  rewrite valueOf_snoc, length_app. cbn [length].
  replace (Z.of_nat (length bs + 1)) with (Z.succ (Z.of_nat (length bs))) by lia.
  rewrite Z.pow_succ_r by lia. destruct b; simpl Z.b2z; lia.
Qed.

Lemma bitsZ_valueOf bs : bitsZ (length bs) (valueOf bs) = bs.
Proof.
  induction bs as [|b bs IH] using rev_ind; [done|].
  rewrite length_app, Nat.add_comm. cbn [length Nat.add].
  rewrite bitsZ_snoc, valueOf_snoc. f_equal.
  - rewrite <- IH at 3. f_equal.
    destruct b; simpl Z.b2z; Z.div_mod_to_equations; lia.
  - f_equal. rewrite Z.odd_add, Z.odd_mul. by destruct b.
Qed.

Lemma bitsZ_valueOf_len n bs : length bs = n → bitsZ n (valueOf bs) = bs.
Proof. intros <-. apply bitsZ_valueOf. Qed.

Lemma bitsOfBytes_cons x b : bitsOfBytes (x :: b) = bitsZ 8 x ++ bitsOfBytes b.
Proof. done. Qed.

Lemma length_bitsOfBytes b : length (bitsOfBytes b) = (8 * length b)%nat.
Proof.
  induction b as [|x b IH]; [done|].
  rewrite bitsOfBytes_cons, length_app, length_bitsZ, IH. cbn [length]. lia.
Qed.

(** Bytes made of bits hold the bits, then zeros. *)
Lemma bitsOfBytes_bytesOfBits fuel bs :
  (length bs ≤ fuel)%nat →
  ∃ k, bitsOfBytes (bytesOfBits fuel bs) = bs ++ replicate k false
  ∧ (k < 8)%nat.
Proof.
  revert bs. induction fuel as [|fuel IH]; intros bs Hf.
  { destruct bs; simpl in Hf; [|lia]. exists 0%nat. split; [done|lia]. }
  destruct bs as [|b bs]; [exists 0%nat; split; [done|lia]|].
  cbn [bytesOfBits]. remember (b :: bs) as l eqn:Hl.
  set (byte8 := take 8 l ++ replicate (8 - length (take 8 l)) false).
  assert (H8 : length byte8 = 8%nat).
  { unfold byte8. rewrite length_app, length_replicate, length_take. lia. }
  rewrite bitsOfBytes_cons, (bitsZ_valueOf_len 8) by done.
  destruct (IH (drop 8 l)) as (k & Hk & Hlt).
  { rewrite length_drop. subst l. simpl in *. lia. }
  rewrite Hk. unfold byte8.
  destruct (Nat.le_gt_cases 8 (length l)) as [Hle|Hgt].
  - exists k. split; [|done]. rewrite length_take, Nat.min_l, Nat.sub_diag by lia.
    cbn [replicate]. rewrite app_nil_r, app_assoc, take_drop. done.
  - exists (8 - length l)%nat. split; [|subst l; simpl; lia].
    rewrite take_ge by lia. rewrite drop_ge in * by lia.
    replace (bytesOfBits fuel []) with (@nil Z) in Hk by by destruct fuel.
    destruct k; [|done]. simpl. by rewrite app_nil_r.
Qed.

Lemma length_bytesOfBits fuel bs k :
  (length bs ≤ fuel)%nat → (8 * k - 8 < length bs ≤ 8 * k)%nat →
  length (bytesOfBits fuel bs) = k.
Proof.
  intros Hf Hk. destruct (bitsOfBytes_bytesOfBits fuel bs Hf) as (j & Hj & Hlt).
  apply (f_equal length) in Hj.
  rewrite length_bitsOfBytes, length_app, length_replicate in Hj. lia.
Qed.

Lemma valueOf_bitsZ n v : 0 ≤ v < 2 ^ Z.of_nat n → valueOf (bitsZ n v) = v.
Proof.
  revert v. induction n as [|n IH]; intros v Hv.
  { simpl in *. assert (v = 0) as -> by lia. done. }
  rewrite Nat2Z.inj_succ, Z.pow_succ_r in Hv by lia.
  rewrite bitsZ_snoc, valueOf_snoc, IH.
  - rewrite <- Z.bit0_odd, Z.bit0_mod. pose proof (Z.div_mod v 2 ltac:(lia)). lia.
  - split; [apply Z.div_pos; lia|]. apply Z.div_lt_upper_bound; lia.
Qed.

(** ** Splitting *)

Fixpoint hasChar (c : ascii) (s : string) : bool :=
  match s with
  | EmptyString => false
  | String a s => Ascii.eqb c a || hasChar c s
  end.

(** Whether [sep] occurs in [s]. *)
Fixpoint occurs (sep s : string) : bool :=
  match dropPrefix sep s with
  | Some _ => true
  | None => match s with EmptyString => false | String _ s => occurs sep s end
  end.

Lemma string_app_assoc (a b c : string) : (a +:+ b) +:+ c = a +:+ (b +:+ c).
Proof.
  induction a as [|x a IH]; [done|].
  change (String x ((a +:+ b) +:+ c) = String x (a +:+ (b +:+ c))). by rewrite IH.
Qed.

Lemma string_app_nil (a : string) : a +:+ "" = a.
Proof.
  induction a as [|x a IH]; [done|].
  change (String x (a +:+ "") = String x a). by rewrite IH.
Qed.

Lemma string_length_app (a b : string) :
  String.length (a +:+ b) = (String.length a + String.length b)%nat.
Proof.
  induction a as [|x a IH]; [done|].
  change (S (String.length (a +:+ b)) = S (String.length a + String.length b)).
  by rewrite IH.
Qed.

Lemma dropPrefix_app p s : dropPrefix p (p +:+ s) = Some s.
Proof.
  induction p as [|c p IH]; [by destruct s|].
  change (String c p +:+ s) with (String c (p +:+ s)). cbn [dropPrefix].
  by rewrite Ascii.eqb_refl, IH.
Qed.

(** The first separator ends the first part. *)
Lemma splitOn_part fuel c sep a s cur :
  hasChar c a = false → (String.length (a +:+ String c sep +:+ s) < fuel)%nat →
  ∃ fuel', (String.length s < fuel')%nat
  ∧ splitOn fuel (String c sep) (a +:+ String c sep +:+ s) cur =
    (cur +:+ a) :: splitOn fuel' (String c sep) s "".
Proof.
  revert fuel cur. induction a as [|x a IH]; intros fuel cur Hc Hf.
  - destruct fuel as [|fuel]; [lia|]. exists fuel. split.
    { rewrite !string_length_app in Hf. cbn in Hf. lia. }
    change ("" +:+ String c sep +:+ s) with (String c sep +:+ s).
    cbn [splitOn]. by rewrite dropPrefix_app, string_app_nil.
  - cbn [hasChar] in Hc. apply orb_false_iff in Hc as [Hx Hc].
    change (String x a +:+ String c sep +:+ s)
      with (String x (a +:+ String c sep +:+ s)) in *.
    destruct fuel as [|fuel]; [lia|]. cbn [splitOn dropPrefix]. rewrite Hx.
    destruct (IH fuel (cur +:+ String x "") Hc) as (fuel' & Hf' & Hs).
    { cbn [String.length] in Hf. lia. }
    exists fuel'. split; [done|]. by rewrite Hs, string_app_assoc.
Qed.

Lemma splitOn_cons fuel sep s cur : ∃ x l, splitOn fuel sep s cur = x :: l.
Proof.
  revert s cur. induction fuel as [|fuel IH]; intros s cur; [by eexists _, _|].
  cbn [splitOn]. destruct (dropPrefix sep s); [by eexists _, _|].
  destruct s; [by eexists _, _|apply IH].
Qed.

(** Without a separator there is one part. *)
Lemma splitOn_last fuel sep s cur :
  occurs sep s = false → (String.length s < fuel)%nat →
  splitOn fuel sep s cur = [cur +:+ s].
Proof.
  revert fuel cur. induction s as [|x s IH]; intros fuel cur Ho Hf;
    (destruct fuel as [|fuel]; [lia|]); cbn [splitOn occurs] in *;
    destruct (dropPrefix sep _); try done.
  - by rewrite string_app_nil.
  - rewrite IH; [by rewrite string_app_assoc|done|].
    cbn [String.length] in Hf. lia.
Qed.

Lemma occurs_hasChar c sep s : hasChar c s = false → occurs (String c sep) s = false.
Proof.
  induction s as [|x s IH]; [done|]. cbn [hasChar occurs dropPrefix].
  intros [-> Hs]%orb_false_iff. by apply IH.
Qed.

Lemma hasChar_app c a b : hasChar c (a +:+ b) = hasChar c a || hasChar c b.
Proof.
  induction a as [|x a IH]; [done|].
  change (String x a +:+ b) with (String x (a +:+ b)). cbn [hasChar].
  by rewrite IH, orb_assoc.
Qed.

(** Parts without the first character of the separator come back from their
    concatenation. *)
Lemma splitOn_concat fuel c sep x parts :
  hasChar c x = false → Forall (λ p, hasChar c p = false) parts →
  (String.length (String.concat (String c sep) (x :: parts)) < fuel)%nat →
  splitOn fuel (String c sep) (String.concat (String c sep) (x :: parts)) "" =
  x :: parts.
Proof.
  intros Hx Hall. revert fuel x Hx. induction Hall as [|y parts Hy Hall IH];
    intros fuel x Hx Hf.
  - apply splitOn_last; [by apply occurs_hasChar|done].
  - destruct (splitOn_part fuel c sep x (String.concat (String c sep) (y :: parts)) "")
      as (f & Hf' & Hs); [done|exact Hf|].
    etrans; [exact Hs|]. f_equal. by apply IH.
Qed.

(** ** The phrase holds the entropy *)

(** Ten words typed with single spaces between them are those words. *)
Lemma phraseWords_concat words :
  length words = NumPassphraseWords → Forall (λ w, hasChar " " w = false) words →
  phraseWords (String.concat " " words) = words.
Proof.
  intros Hl Hall. unfold phraseWords, Split.
  destruct words as [|w words]; [done|]. inv Hall.
  rewrite splitOn_concat by (done || lia). unfold copy.
  rewrite length_replicate, take_ge, drop_ge by (rewrite ?length_replicate; lia).
  apply app_nil_r.
Qed.

Section PhraseLaws.
Context `{MnemonicLaws}.

Definition known (word : string) : Prop := word ∈ DefaultWordList.

(** The bits a phrase stands for. *)
Definition phraseBits (words : list string) : list bool :=
  mjoin ((λ w, bitsZ 11 (wordIndex w)) <$> words).

Lemma phraseBits_cons w words :
  phraseBits (w :: words) = bitsZ 11 (wordIndex w) ++ phraseBits words.
Proof using. done. Qed.

Lemma length_phraseBits words : length (phraseBits words) = (11 * length words)%nat.
Proof using.
  induction words as [|w words IH]; [done|].
  rewrite phraseBits_cons, length_app, length_bitsZ, IH. cbn [length]. lia.
Qed.

Lemma wordIndex_lookup i word :
  DefaultWordList !! i = Some word → wordIndex word = Z.of_nat i.
Proof using All. intros Hi. unfold wordIndex. by rewrite (wordlist_reverse i). Qed.

Lemma known_index word :
  known word →
  0 ≤ wordIndex word < 2048
  ∧ DefaultWordList !! Z.to_nat (wordIndex word) = Some word.
Proof using All.
  intros [i Hi]%list_elem_of_lookup. rewrite (wordIndex_lookup i) by done.
  pose proof (lookup_lt_Some _ _ _ Hi) as Hlt. rewrite wordlist_length in Hlt.
  rewrite Nat2Z.id. split; [lia|done].
Qed.

Lemma writeWords_bits words w :
  written_bits (writeWords words w) = written_bits w ++ phraseBits words.
Proof using All.
  revert w. induction words as [|x words IH]; intros w.
  - unfold phraseBits. simpl. by rewrite app_nil_r.
  - unfold writeWords. cbn [fold_left]. fold (writeWords words).
    change (fold_left _ words ?a) with (writeWords words a).
    rewrite IH, writer_write by (unfold BitsPerWord; lia).
    rewrite phraseBits_cons. by rewrite app_assoc.
Qed.

(** Reading the bits of a phrase gives its words. *)
Lemma readWords_phrase words r rest :
  Forall known words → unread_bits r = phraseBits words ++ rest →
  readWords (length words) r = Ok words.
Proof using All.
  intros Hk. revert r. induction Hk as [|w words Hw Hk IH]; intros r Hr; [done|].
  rewrite phraseBits_cons, <- app_assoc in Hr.
  destruct (known_index w Hw) as [Hi Hl].
  destruct (reader_read BitsPerWord r) as (r' & Hread & Hrest).
  { rewrite Hr. unfold BitsPerWord, len. rewrite length_app, length_bitsZ. lia. }
  cbn [length readWords]. rewrite Hread. mstep. cbn [fst snd].
  rewrite Hr, take_app_length' in * by (by rewrite length_bitsZ).
  rewrite drop_app_length' in Hrest by (by rewrite length_bitsZ).
  rewrite valueOf_bitsZ by (simpl; lia).
  rewrite (index_lookup _ _ w) by (done || lia).
  by rewrite (IH r' Hrest).
Qed.

(** Any bits are read as words that stand for them. *)
Lemma readWords_ok k r :
  (11 * k ≤ length (unread_bits r))%nat →
  ∃ words, readWords k r = Ok words ∧ length words = k ∧ Forall known words
  ∧ phraseBits words = take (11 * k) (unread_bits r).
Proof using All.
  revert r. induction k as [|k IH]; intros r Hr.
  { exists []. split_and!; try done. }
  destruct (reader_read BitsPerWord r) as (r' & Hread & Hrest).
  { unfold BitsPerWord, len. lia. }
  change (Z.to_nat BitsPerWord) with 11%nat in *.
  set (bs := unread_bits r) in *.
  assert (Hlen : length (take 11 bs) = 11%nat) by (rewrite length_take; lia).
  pose proof (valueOf_range (take 11 bs)) as Hv. rewrite Hlen in Hv.
  destruct (lookup_lt_is_Some_2 DefaultWordList (Z.to_nat (valueOf (take 11 bs))))
    as [w Hw]; [rewrite wordlist_length; lia|].
  destruct (IH r') as (words & Hok & Hk & Hall & Hbits).
  { rewrite Hrest, length_drop. lia. }
  exists (w :: words). cbn [readWords]. rewrite Hread. mstep. cbn [fst snd].
  rewrite (index_lookup _ _ w) by (done || lia). rewrite Hok.
  split_and!; [done|simpl; by rewrite Hk| |].
  - apply List.Forall_cons; [|done]. by eapply list_elem_of_lookup_2.
  - rewrite phraseBits_cons, (wordIndex_lookup _ _ Hw), Z2Nat.id by lia.
    rewrite (bitsZ_valueOf_len 11) by done. rewrite Hbits, Hrest.
    replace (11 * S k)%nat with (11 + 11 * k)%nat by lia.
    by rewrite take_take_drop.
Qed.

(** The bytes of a ten-word phrase. *)
Lemma MnemonicToEntropy_bits words :
  length words = NumPassphraseWords →
  length (PassphraseMnemonicToEntropy words) = 14%nat
  ∧ bitsOfBytes (PassphraseMnemonicToEntropy words) =
    phraseBits words ++ [false; false].
Proof using All.
  intros Hl. unfold PassphraseMnemonicToEntropy.
  set (w := writeWords words _).
  assert (Hw : written_bits w = phraseBits words)
    by (unfold w; by rewrite writeWords_bits, writer_new).
  assert (Hb : Bytes w = bytesOfBits (length (phraseBits words)) (phraseBits words))
    by (by rewrite writer_bytes, Hw).
  assert (H110 : length (phraseBits words) = 110%nat)
    by (rewrite length_phraseBits, Hl; done).
  assert (H14 : length (Bytes w) = 14%nat)
    by (rewrite Hb; apply length_bytesOfBits; lia).
  replace (copy _ (Bytes w)) with (Bytes w).
  2: { unfold copy. rewrite length_replicate. change (Z.to_nat _) with 14%nat.
       rewrite take_ge, drop_ge by (rewrite ?length_replicate; lia).
       by rewrite app_nil_r. }
  split; [done|].
  destruct (bitsOfBytes_bytesOfBits (length (phraseBits words)) (phraseBits words))
    as (k & Hk & _); [lia|].
  rewrite <- Hb in Hk. pose proof (f_equal length Hk) as Hlen.
  rewrite length_bitsOfBytes, length_app, length_replicate, H14, H110 in Hlen.
  assert (k = 2%nat) as -> by lia. done.
Qed.

Lemma phrase_back words :
  length words = NumPassphraseWords → Forall known words →
  PassphraseEntropyToMnemonic (PassphraseMnemonicToEntropy words) = Ok words.
Proof using All.
  intros Hl Hk. unfold PassphraseEntropyToMnemonic. rewrite <- Hl.
  apply (readWords_phrase _ _ [false; false]); [done|].
  rewrite reader_new. by apply MnemonicToEntropy_bits.
Qed.

End PhraseLaws.

(** C29: the pairing phrase.  Fourteen bytes of entropy give ten words of the
    list; the words give back entropy with the same first 110 bits and the two
    unused bits cleared, whose phrase is the same again, and this is the pair
    [NewPassphraseEntropy] returns.  Any ten words of the list survive the way
    through the entropy, and ten words without spaces survive being typed with
    a space between them.  A word that is not on the list is not refused: it
    counts as the first word of the list. *)
Theorem pairing_phrase_roundtrip `{MnemonicLaws} :
  (∀ entropy, length entropy = 14%nat →
     ∃ words, let e := PassphraseMnemonicToEntropy words in
     PassphraseEntropyToMnemonic entropy = Ok words
     ∧ NewPassphraseEntropy (Ok entropy) = Ok (words, e)
     ∧ length words = NumPassphraseWords ∧ Forall known words
     ∧ bitsOfBytes e = take 110 (bitsOfBytes entropy) ++ [false; false]
     ∧ PassphraseEntropyToMnemonic e = Ok words)
  ∧ (∀ words, length words = NumPassphraseWords → Forall known words →
     PassphraseEntropyToMnemonic (PassphraseMnemonicToEntropy words) = Ok words)
  ∧ (∀ pre post word first, ReverseWordMap !! word = None →
     DefaultWordList !! 0%nat = Some first →
     PassphraseMnemonicToEntropy (pre ++ word :: post) =
     PassphraseMnemonicToEntropy (pre ++ first :: post))
  ∧ (∀ words, length words = NumPassphraseWords →
     Forall (λ w, hasChar " " w = false) words →
     phraseWords (String.concat " " words) = words).
Proof.
  split_and!.
  - intros entropy Hl.
    destruct (readWords_ok 10 (NewBStreamReader entropy)) as (words & Hr & Hw & Hk & Hb).
    { rewrite reader_new, length_bitsOfBytes. lia. }
    exists words. cbv zeta. unfold NewPassphraseEntropy, PassphraseEntropyToMnemonic.
    change NumPassphraseWords with 10%nat. mstep. rewrite Hr.
    rewrite reader_new in Hb. split_and!; try done.
    + rewrite (proj2 (MnemonicToEntropy_bits words Hw)), Hb. done.
    + by apply phrase_back.
  - intros. by apply phrase_back.
  - intros pre post word first Hn Hf.
    unfold PassphraseMnemonicToEntropy, writeWords. rewrite !fold_left_app.
    cbn [fold_left]. rewrite (wordIndex_lookup 0 first Hf).
    unfold wordIndex. by rewrite Hn.
  - intros. by apply phraseWords_concat.
Qed.

(** ** A list of words *)

(** Streams as lists of bits, and the words "00000000000" to "11111111111". *)
Definition bitWord (bs : list bool) : string :=
  foldr (λ (b : bool) s, String (if b then "1" else "0") s) "" bs.
Fixpoint wordBits (s : string) : list bool :=
  match s with
  | EmptyString => []
  | String c s => Ascii.eqb c "1" :: wordBits s
  end.
Definition bitWords : list string :=
  (λ i : nat, bitWord (bitsZ 11 (Z.of_nat i))) <$> seq 0 2048.

Definition bitStreams : Mnemonics := {|
  BReader := list bool;
  BWriter := list bool;
  NewBStreamReader := bitsOfBytes;
  ReadBits n r :=
    if (0 <=? n) && (n <=? len r)
    then Ok (valueOf (take (Z.to_nat n) r), drop (Z.to_nat n) r) else Err EOF;
  NewBStreamWriter _ := [];
  WriteBits v n w := w ++ bitsZ (Z.to_nat n) v;
  Bytes w := bytesOfBits (length w) w;
  DefaultWordList := bitWords;
  ReverseWordMap :=
    list_to_map ((λ w, (w, valueOf (wordBits w))) <$> bitWords)
|}.

Lemma wordBits_bitWord bs : wordBits (bitWord bs) = bs.
Proof. induction bs as [|[] bs IH]; simpl; by rewrite ?IH. Qed.

Lemma bitWords_length : length bitWords = 2048%nat.
Proof. unfold bitWords. by rewrite length_fmap, length_seq. Qed.

Lemma bitWords_lookup i word :
  bitWords !! i = Some word → (i < 2048)%nat ∧ word = bitWord (bitsZ 11 (Z.of_nat i)).
Proof.
  unfold bitWords. rewrite list_lookup_fmap.
  destruct (seq 0 2048 !! i) as [j|] eqn:Hj; [|done].
  apply lookup_seq in Hj as [-> Hlt]. by intros [= <-].
Qed.

Lemma bitWords_value i word :
  bitWords !! i = Some word → valueOf (wordBits word) = Z.of_nat i.
Proof.
  intros [Hi ->]%bitWords_lookup. rewrite wordBits_bitWord.
  apply valueOf_bitsZ. change (2 ^ Z.of_nat 11) with 2048. lia.
Qed.

Lemma bitWords_NoDup : NoDup bitWords.
Proof.
  apply NoDup_alt. intros i j w Hi Hj.
  apply bitWords_value in Hi. apply bitWords_value in Hj. lia.
Qed.

#[refine] Definition bitStreams_laws : @MnemonicLaws bitStreams := {|
  unread_bits := λ r : @BReader bitStreams, r;
  written_bits := λ w : @BWriter bitStreams, w
|}.
Proof.
  - done.
  - intros n r Hn. simpl. exists (drop (Z.to_nat n) r). split; [|done].
    by rewrite (proj2 (Z.leb_le _ _) (proj1 Hn)), (proj2 (Z.leb_le _ _) (proj2 Hn)).
  - done.
  - done.
  - done.
  - apply bitWords_length.
  - intros i word Hi. cbn [DefaultWordList ReverseWordMap bitStreams] in *.
    apply elem_of_list_to_map_1.
    + rewrite <- list_fmap_compose. unfold compose. cbn [fst].
      rewrite list_fmap_id. apply bitWords_NoDup.
    + apply list_elem_of_fmap. exists word. split.
      * by rewrite (bitWords_value i).
      * by eapply list_elem_of_lookup_2.
Defined.

Lemma pairing_phrase_roundtrip_witness : let _ := bitStreams in
  ∃ words, PassphraseEntropyToMnemonic [1; 2; 3; 4; 5; 6; 7; 8; 9; 10; 11; 12; 13; 255]
           = Ok words
  ∧ PassphraseEntropyToMnemonic (PassphraseMnemonicToEntropy words) = Ok words.
Proof.
  intros ms. destruct (@pairing_phrase_roundtrip bitStreams bitStreams_laws) as [Hp _].
  destruct (Hp [1; 2; 3; 4; 5; 6; 7; 8; 9; 10; 11; 12; 13; 255]) as (words & H1 & _ & _ & _ & _ & H2).
  - reflexivity.
  - exists words. split; [exact H1|exact H2].
Defined.

(** ** Metadata *)

(** A header the metadata can carry: no colon in the name, no ": " in the
    value, no carriage return in either. *)
Definition plain (h : string * string) : Prop :=
  hasChar ":" h.1 = false ∧ occurs ": " h.2 = false
  ∧ hasChar "013" h.1 = false ∧ hasChar "013" h.2 = false.

Definition headerLine (h : string * string) : string := h.1 +:+ ": " +:+ h.2.

(** The auth data that carries [hs]. *)
Definition headerBlock (hs : list (string * string)) : string :=
  String.concat crlf (headerLine <$> hs).

Lemma addLine_plain md h :
  plain h → addLine md (headerLine h) = <[h.1 := h.2]> md.
Proof.
  intros (Hk & Hv & _). unfold addLine, headerLine, Split.
  destruct (splitOn_part (S (String.length (h.1 +:+ ": " +:+ h.2))) ":" " " h.1 h.2 "")
    as (f & Hf & ->); [done|lia|].
  by rewrite splitOn_last.
Qed.

Lemma headerLine_cr h : plain h → hasChar "013" (headerLine h) = false.
Proof.
  intros (_ & _ & Hk & Hv). unfold headerLine. rewrite !hasChar_app, Hk, Hv. done.
Qed.

Lemma stringOfBytes_bytesOfString s : stringOfBytes (bytesOfString s) = s.
Proof.
  induction s as [|c s IH]; [done|]. cbn [bytesOfString stringOfBytes].
  by rewrite N2Z.id, ascii_N_embedding, IH.
Qed.

(** Request metadata.  Auth data made of plain header lines becomes
    exactly their map, the last line winning for a name that is repeated; a
    line whose value contains ": " is dropped. *)
Theorem metadata_of_headers :
  (∀ hs, Forall plain hs →
     GetRequestMetadata (bytesOfString (headerBlock hs)) =
     fold_left (λ md h, <[h.1 := h.2]> md) hs ∅)
  ∧ (∀ md k v1 v2, hasChar ":" k = false → hasChar ":" v1 = false →
     addLine md (headerLine (k, v1 +:+ ": " +:+ v2)) = md).
Proof.
  split.
  - intros hs Hall. unfold GetRequestMetadata, Split.
    rewrite stringOfBytes_bytesOfString.
    destruct hs as [|h hs]; [done|]. unfold headerBlock, crlf.
    rewrite fmap_cons, splitOn_concat.
    2: { inv Hall. by apply headerLine_cr. }
    2: { inv Hall. apply Forall_fmap. eapply List.Forall_impl; [|eassumption].
         intros x Hx. by apply headerLine_cr. }
    2: { lia. }
    rewrite <- fmap_cons. generalize (∅ : gmap string string) as md.
    induction Hall as [|x l Hx _ IH]; intros md; [done|].
    cbn [fmap list_fmap fold_left]. rewrite addLine_plain by done. apply IH.
  - intros md k v1 v2 Hk H1. unfold addLine, headerLine, Split. cbn [fst snd].
    destruct (splitOn_part (S (String.length (k +:+ ": " +:+ (v1 +:+ ": " +:+ v2))))
                ":" " " k (v1 +:+ ": " +:+ v2) "") as (f & Hf & ->); [done|lia|].
    destruct (splitOn_part f ":" " " v1 v2 "") as (f' & Hf' & ->); [done|done|].
    by destruct (splitOn_cons f' ": " v2 "") as (x & l & ->).
Qed.
