(* ===== verification/GoFmt.v ===== *)
(** * Format strings without operands ([fmt.Errorf(text)])

    The browser client passes a text it got from JavaScript as the format of
    [fmt.Errorf], with no operands.  This is [doPrintf] of Go's [fmt] package for
    that case: what comes out for each directive, and that a text without a
    percent sign comes out as it went in. *)

From stdpp Require Import base numbers list strings tactics.
From Stdlib Require Import Ascii.
From S2P Require Import Prelude Pairing.

(** ** Runes *)

Definition byteOf (c : ascii) : Z := Z.of_N (N_of_ascii c).

(** The bounds of the second byte of a sequence and the number of continuation
    bytes after it, by its first byte. *)
Definition runeClass (b : Z) : option (Z * Z * nat) :=
  if (0xC2 <=? b) && (b <=? 0xDF) then Some (0x80, 0xBF, 0%nat)
  else if b =? 0xE0 then Some (0xA0, 0xBF, 1%nat)
  else if b =? 0xED then Some (0x80, 0x9F, 1%nat)
  else if (0xE1 <=? b) && (b <=? 0xEF) then Some (0x80, 0xBF, 1%nat)
  else if b =? 0xF0 then Some (0x90, 0xBF, 2%nat)
  else if (0xF1 <=? b) && (b <=? 0xF3) then Some (0x80, 0xBF, 2%nat)
  else if b =? 0xF4 then Some (0x80, 0x8F, 2%nat)
  else None.

Fixpoint continuation (k : nat) (s : string) : option (string * string) :=
  match k with
  | O => Some ("", s)
  | S k =>
      match s with
      | String c s =>
          if (0x80 <=? byteOf c) && (byteOf c <=? 0xBF)
          then match continuation k s with
               | Some (a, rest) => Some (String c a, rest)
               | None => None
               end
          else None
      | EmptyString => None
      end
  end.

(** [utf8.DecodeRuneInString] of a non-empty text: the rune, as it is written
    back, and what follows it. *)
Definition firstRune (c : ascii) (s : string) : string * string :=
  let invalid := (String "239" (String "191" (String "189" "")), s) in
  if byteOf c <? 0x80 then (String c "", s)
  else match runeClass (byteOf c) with
       | None => invalid
       | Some (lo, hi, k) =>
           match s with
           | String d s' =>
               if (lo <=? byteOf d) && (byteOf d <=? hi) then
                 match continuation k s' with
                 | Some (a, rest) => (String c (String d a), rest)
                 | None => invalid
                 end
               else invalid
           | EmptyString => invalid
           end
       end.

(** ** Directives *)

Definition isDigit (c : ascii) : bool :=
  (48 <=? byteOf c) && (byteOf c <=? 57).
Definition isFlag (c : ascii) : bool :=
  existsb (Ascii.eqb c) ["#"; "0"; "+"; "-"; " "]%char.

Fixpoint skipFlags (s : string) : string :=
  match s with
  | String c s' => if isFlag c then skipFlags s' else s
  | EmptyString => s
  end.

(** [parsenum] on the rest of the format: the number, whether there is one, and
    what follows; a number above a million skips everything. *)
Fixpoint parsenum (num : Z) (isnum : bool) (s : string) : Z * bool * string :=
  match s with
  | String c s' =>
      if isDigit c then
        if 1000000 <? num then (0, false, "")
        else parsenum (num * 10 + (byteOf c - 48)) true s'
      else (num, isnum, s)
  | EmptyString => (num, isnum, "")
  end.

(** The text before the first closing bracket, and after it. *)
Fixpoint bracket (s : string) : option (string * string) :=
  match s with
  | String c s =>
      if Ascii.eqb c "]" then Some ("", s)
      else match bracket s with
           | Some (a, rest) => Some (String c a, rest)
           | None => None
           end
  | EmptyString => None
  end.

(** [parseArgNumber], after the opening bracket: what follows and whether there
    was a number. *)
Definition parseArgNumber (s : string) : string * bool :=
  if (String.length s <? 2)%nat then (s, false)
  else match bracket s with
       | None => (s, false)
       | Some (inside, rest) =>
           let '(_, isnum, tail) := parsenum 0 false inside in
           (rest, isnum && bool_decide (tail = ""))
       end.

(** [argNumber]: whether the index is out of range, as every index is here, what
    follows, and whether there was one. *)
Definition argNumber (s : string) : bool * string * bool :=
  match s with
  | String c s' =>
      if Ascii.eqb c "[" then let '(rest, ok) := parseArgNumber s' in (true, rest, ok)
      else (false, s, false)
  | EmptyString => (false, s, false)
  end.

(** The width: what is written, whether the index turns out misplaced, what
    follows, and [afterIndex]. *)
Definition width (after : bool) (s : string) : string * bool * string * bool :=
  let number := let '(_, present, rest) := parsenum 0 false s in
                ("", after && present, rest, after) in
  match s with
  | String c s' => if Ascii.eqb c "*" then ("%!(BADWIDTH)", false, s', false) else number
  | EmptyString => number
  end.

Definition precision (after : bool) (s : string) : string * bool * string * bool :=
  match s with
  | String c s' =>
      if Ascii.eqb c "." then
        let '(bad, s1, after1) := argNumber s' in
        let number := let '(_, _, rest) := parsenum 0 false s1 in
                      ("", after || bad, rest, after1) in
        match s1 with
        | String d s2 =>
            if Ascii.eqb d "*" then ("%!(BADPREC)", after || bad, s2, false) else number
        | EmptyString => number
        end
      else ("", false, s, after)
  | EmptyString => ("", false, s, after)
  end.

(** One directive, after its percent sign: what is written and what follows. *)
Definition directive (s : string) : string * string :=
  let '(bad1, s1, after1) := argNumber (skipFlags s) in
  let '(out1, bad2, s2, after2) := width after1 s1 in
  let '(out2, bad3, s3, after3) := precision after2 s2 in
  let '(bad4, s4, _) := if (after3 : bool) then (false, s3, after3) else argNumber s3 in
  let out := out1 +:+ out2 in
  match s4 with
  | EmptyString => (out +:+ "%!(NOVERB)", "")
  | String c s' =>
      let '(verb, rest) := firstRune c s' in
      (out +:+ (if Ascii.eqb c "%" then "%"
                else if bad1 || bad2 || bad3 || bad4 then "%!" +:+ verb +:+ "(BADINDEX)"
                else "%!" +:+ verb +:+ "(MISSING)"), rest)
  end.

Fixpoint doPrintf (fuel : nat) (format : string) : string :=
  match fuel with
  | O => ""
  | S fuel =>
      match format with
      | EmptyString => ""
      | String c s =>
          if Ascii.eqb c "%"
          then let '(out, rest) := directive s in out +:+ doPrintf fuel rest
          else String c (doPrintf fuel s)
      end
  end.

(** The text of [fmt.Errorf(format)]. *)
Definition errorf (format : string) : string := doPrintf (String.length format) format.

(** ** The fuel is enough *)

Lemma skipFlags_len s : (String.length (skipFlags s) ≤ String.length s)%nat.
Proof. induction s as [|c s IH]; simpl; [done|]. destruct (isFlag c); simpl; lia. Qed.

Lemma parsenum_len s : ∀ num isnum n b r, parsenum num isnum s = (n, b, r) →
  (String.length r ≤ String.length s)%nat.
Proof.
  induction s as [|c s IH]; intros num isnum n b r; simpl; [by intros [= <- <- <-]|].
  destruct (isDigit c); [destruct (_ <? _)|].
  - intros [= <- <- <-]. simpl. lia.
  - intros H%IH. lia.
  - by intros [= <- <- <-].
Qed.

Lemma bracket_len s : ∀ a r, bracket s = Some (a, r) →
  (String.length r ≤ String.length s)%nat.
Proof.
  induction s as [|c s IH]; intros a r; simpl; [done|].
  destruct (Ascii.eqb c "]"); [intros [= <- <-]; lia|].
  destruct (bracket s) as [[x y]|]; [|done]. intros [= <- <-].
  pose proof (IH _ _ eq_refl). lia.
Qed.

Lemma argNumber_len s b r f : argNumber s = (b, r, f) →
  (String.length r ≤ String.length s)%nat.
Proof.
  unfold argNumber, parseArgNumber. destruct s as [|c s]; [by intros [= <- <- <-]|].
  destruct (Ascii.eqb c "["); [|by intros [= <- <- <-]].
  destruct (_ <? 2)%nat; [intros [= <- <- <-]; simpl; lia|].
  destruct (bracket s) as [[a x]|] eqn:E; [|intros [= <- <- <-]; simpl; lia].
  apply bracket_len in E. destruct (parsenum _ _ _) as [[n p] l].
  intros [= <- <- <-]. simpl. lia.
Qed.

Lemma width_len a s o b r f : width a s = (o, b, r, f) →
  (String.length r ≤ String.length s)%nat.
Proof.
  unfold width. destruct (parsenum 0 false s) as [[n p] l] eqn:E. apply parsenum_len in E.
  destruct s as [|c s]; [by intros [= <- <- <- <-]|].
  destruct (Ascii.eqb c "*"); intros [= <- <- <- <-]; simpl in *; lia.
Qed.

Lemma precision_len a s o b r f : precision a s = (o, b, r, f) →
  (String.length r ≤ String.length s)%nat.
Proof.
  unfold precision. destruct s as [|c s]; [by intros [= <- <- <- <-]|].
  destruct (Ascii.eqb c "."); [|by intros [= <- <- <- <-]].
  destruct (argNumber s) as [[b1 s1] f1] eqn:E. apply argNumber_len in E.
  destruct (parsenum 0 false s1) as [[n p] l] eqn:E1. apply parsenum_len in E1.
  destruct s1 as [|d s1]; [|destruct (Ascii.eqb d "*")]; intros [= <- <- <- <-];
    simpl in *; lia.
Qed.

Lemma continuation_len k : ∀ s a r, continuation k s = Some (a, r) →
  (String.length r ≤ String.length s)%nat.
Proof.
  induction k as [|k IH]; intros s a r; simpl; [by intros [= <- <-]|].
  destruct s as [|c s]; [done|]. destruct (_ && _); [|done].
  destruct (continuation k s) as [[x y]|] eqn:E; [|done]. intros [= <- <-].
  apply IH in E. simpl. lia.
Qed.

Lemma firstRune_len c s v r : firstRune c s = (v, r) →
  (String.length r ≤ String.length s)%nat.
Proof.
  unfold firstRune. destruct (byteOf c <? 128); [by intros [= <- <-]|].
  destruct (runeClass _) as [[[lo hi] k]|]; [|by intros [= <- <-]].
  destruct s as [|d s]; [by intros [= <- <-]|].
  destruct (_ && _); [|by intros [= <- <-]].
  destruct (continuation k s) as [[a x]|] eqn:E; [|by intros [= <- <-]].
  intros [= <- <-]. apply continuation_len in E. simpl. lia.
Qed.

Lemma directive_len s out r : directive s = (out, r) →
  (String.length r ≤ String.length s)%nat.
Proof.
  unfold directive. pose proof (skipFlags_len s).
  destruct (argNumber (skipFlags s)) as [[b1 s1] f1] eqn:E1. apply argNumber_len in E1.
  destruct (width f1 s1) as [[[o2 b2] s2] f2] eqn:E2. apply width_len in E2.
  destruct (precision f2 s2) as [[[o3 b3] s3] f3] eqn:E3. apply precision_len in E3.
  destruct (if f3 then _ else _) as [[b4 s4] f4] eqn:E4.
  assert (String.length s4 ≤ String.length s3)%nat.
  { destruct f3; [by injection E4 as _ <- _|by apply argNumber_len in E4]. }
  destruct s4 as [|c s4]; [intros [= <- <-]; simpl; lia|].
  destruct (firstRune c s4) as [v x] eqn:E5. apply firstRune_len in E5.
  intros [= <- <-]. simpl in *. lia.
Qed.

Lemma doPrintf_fuel f : ∀ f' s, (String.length s ≤ f)%nat → (String.length s ≤ f')%nat →
  doPrintf f s = doPrintf f' s.
Proof.
  induction f as [|f IH]; intros f' s H1 H2.
  { destruct s; [by destruct f'|simpl in H1; lia]. }
  destruct s as [|c s]; [by destruct f'|]. simpl in *.
  destruct f' as [|f']; [lia|]. simpl. destruct (Ascii.eqb c "%").
  - destruct (directive s) as [out r] eqn:E. apply directive_len in E.
    f_equal. apply IH; lia.
  - f_equal. apply IH; lia.
Qed.

(** [errorf] reads its format from left to right: ordinary characters are
    copied, and a directive is replaced. *)
Lemma errorf_char c s : Ascii.eqb c "%" = false →
  errorf (String c s) = String c (errorf s).
Proof. intros Hc. unfold errorf. simpl. by rewrite Hc. Qed.

Lemma errorf_directive s out r :
  directive s = (out, r) → errorf (String "%" s) = out +:+ errorf r.
Proof.
  intros E. unfold errorf. simpl. rewrite E. apply directive_len in E.
  f_equal. apply doPrintf_fuel; lia.
Qed.

Lemma errorf_plain s : hasChar "%" s = false → errorf s = s.
Proof.
  induction s as [|c s IH]; [done|]. cbn [hasChar].
  intros [Hc Hs]%orb_false_iff. rewrite Ascii.eqb_sym in Hc.
  by rewrite (errorf_char c s Hc), (IH Hs).
Qed.

Lemma errorf_prefix a s : hasChar "%" a = false → errorf (a +:+ s) = a +:+ errorf s.
Proof.
  induction a as [|c a IH]; [done|]. cbn [hasChar].
  intros [Hc Ha]%orb_false_iff. change (String c a +:+ s) with (String c (a +:+ s)).
  rewrite Ascii.eqb_sym in Hc. by rewrite (errorf_char c _ Hc), (IH Ha).
Qed.

(** Directives as Go writes them. *)
Example errorf_flag : errorf "50% done" = "50%!d(MISSING)one".
Proof. reflexivity. Qed.
Example errorf_percent : errorf "100%% of %v" = "100% of %!v(MISSING)".
Proof. reflexivity. Qed.
Example errorf_odd : errorf "%[1]d %[x]5.*f %*z %" =
  "%!d(BADINDEX) %!(BADPREC)%!f(BADINDEX) %!(BADWIDTH)%!z(MISSING) %!(NOVERB)".
Proof. reflexivity. Qed.
