(* ===== verification/Lifecycle.v ===== *)
(** * Clients and servers ([mailbox/client.go], [mailbox/server.go])

    [Server.Accept] and [Client.Dial] hand out one connection at a time: they
    wait until the previous one is closed, look the session id up again (it
    changes once the two sides have paired), and create or refresh the mailbox
    connection. *)

From stdpp Require Import base numbers list strings tactics.
From S2P Require Import Prelude NoiseState NoiseHandshake Mailbox MailboxConn.

(** [temporaryError] embeds the error. *)
Definition temporaryError (e : error) : error := ErrWrap "" e.

(** ** The Go-Back-N handshake

    [gbn.NewServerConn] and [gbn.NewClientConn] reach the mailbox connection
    only through the two stream functions; what they do to it is a sequence of
    calls, and they return an error or not. *)
Inductive streamCall :=
| CallRecv (fuel : nat)
| CallSend (payload : bytes) (fuel : nat).

Record gbnRun := mkGbnRun {
  calls : list streamCall;
  gbnErr : option error
}.

Section Lifecycle.
Context `{Crypto} (isErrAlreadyExists : error → bool).

(** ** [Server] *)

Record Server := mkServer {
  s_sid : bytes;
  s_mailboxConn : option ServerConn;
  s_connData : ConnData;
  s_callback : bool;
  s_quit : bool;
  s_ctxDone : bool
}.

Definition set_conn c s := mkServer (s_sid s) c (s_connData s) (s_callback s)
  (s_quit s) (s_ctxDone s).
Definition set_sid i s := mkServer i (s_mailboxConn s) (s_connData s)
  (s_callback s) (s_quit s) (s_ctxDone s).

Definition set_connData d s := mkServer (s_sid s) (s_mailboxConn s) d
  (s_callback s) (s_quit s) (s_ctxDone s).

(** [dialErr] is the error of [grpc.Dial]. *)
Definition NewServer (dialErr : option error) (connData : ConnData)
    (onNewStatus : bool) : result Server :=
  match dialErr with
  | Some err => Err (ErrWrap "unable to connect to RPC server" err)
  | None =>
      sid ← SID connData;
      Ok (mkServer sid None connData onNewStatus false false)
  end.

(** One call of a stream function; [None] if it does not return. *)
Definition serverCall (c : streamCall) (st : ServerConn * world) :
    option (ServerConn * world) :=
  match c with
  | CallRecv fuel => snd <$> recvFromStream isErrAlreadyExists fuel st
  | CallSend p fuel => snd <$> sendToStream isErrAlreadyExists p fuel st
  end.

Fixpoint serverCalls (cs : list streamCall) (st : ServerConn * world) :
    option (ServerConn * world) :=
  match cs with
  | [] => Some st
  | c :: cs =>
      match serverCall c st with
      | Some st => serverCalls cs st
      | None => None
      end
  end.

(** The rest of [NewServerConn] and [RefreshServerConn]: on success the
    connection becomes the server's, on failure it is dropped. *)
Definition serverHandshake (g : gbnRun) (c : ServerConn) (s : Server) (e : world) :
    option (result ServerConn * (Server * world)) :=
  match serverCalls (calls g) (c, e) with
  | None => None
  | Some (c, e) =>
      match gbnErr g with
      | Some err => Some (Err (temporaryError err), (s, e))
      | None => Some (Ok c, (set_conn (Some c) s, e))
      end
  end.

(** The middle of [Accept]: remember the session id, and stop the previous
    connection if it was for another one. *)
Definition Accept_renew (sid : bytes) (s : Server) (e : world) : Server * world :=
  match s_mailboxConn s with
  | Some c =>
      if bool_decide (s_sid s ≠ sid)
      then (set_sid sid (set_conn None s), (server_Stop None (c, e)).2.2)
      else (set_sid sid s, e)
  | None => (set_sid sid s, e)
  end.

(** The end of [Accept]: the first connection is created, later ones refresh
    it. *)
Definition Accept_connect (g : gbnRun) (s : Server) (e : world) :
    option (result ServerConn * (Server * world)) :=
  match s_mailboxConn s with
  | None =>
      match server_New (s_sid s) (s_callback s) with
      | Ok c => serverHandshake g c s e
      | Err err => Some (Err (temporaryError err), (s, e))
      | Panic p => Some (Panic p, (s, e))
      end
  | Some c => serverHandshake g (server_Refresh c) s e
  end.

(** [Accept]; [pickQuit] is the choice of the [select] when both of its
    channels are closed, [None] means that it blocks. *)
Definition Accept (pickQuit : bool) (g : gbnRun) (st : Server * world) :
    option (result ServerConn * (Server * world)) :=
  let '(s, e) := st in
  if s_ctxDone s then Some (Err EOF, st) else
  let previousDone :=
    match s_mailboxConn s with Some c => s_closed c | None => true end in
  let stopped := match s_mailboxConn s with Some _ => s_quit s | None => false end in
  if stopped && (pickQuit || negb previousDone) then Some (Err EOF, st)
  else if negb previousDone then None
  else
    match SID (s_connData s) with
    | Err err => Some (Err err, st)
    | Panic p => Some (Panic p, st)
    | Ok sid => let '(s, e) := Accept_renew sid s e in Accept_connect g s e
    end.

(** [Close]; closing it twice panics. *)
Definition server_close (gbnErr : option error) (st : Server * world) :
    result unit * (Server * world) :=
  let '(s, e) := st in
  if s_quit s then (Panic CloseOfClosedChannel, st)
  else
    let '(conn, e) :=
      match s_mailboxConn s with
      | Some c => let '(_, (c, e)) := server_Stop gbnErr (c, e) in (Some c, e)
      | None => (None, e)
      end in
    (Ok tt, (mkServer (s_sid s) conn (s_connData s) (s_callback s) true true, e)).

(** ** [Client] *)

Context `{ClientConnTransport}.

Record Client := mkClient {
  c_serverHost : string;
  c_connData : ConnData;
  c_mailboxConn : option ClientConn;
  c_status : ClientStatus;
  c_sid : bytes
}.

Definition NewClient (serverHost : string) (connData : ConnData) : result Client :=
  sid ← SID connData;
  Ok (mkClient serverHost connData None ClientStatusNotConnected sid).

Definition ConnStatus (c : Client) : ClientStatus := c_status c.

(** The client after its connection [conn] has become [conn']: the callback
    has stored the last status that was reported meanwhile. *)
Definition statusAfter (conn conn' : ClientConn) (status : ClientStatus) :
    ClientStatus :=
  default status (list.last (drop (length (reported conn)) (reported conn'))).

Definition clientWith (keep : option ClientConn) (conn conn' : ClientConn)
    (c : Client) : Client :=
  mkClient (c_serverHost c) (c_connData c) keep
    (statusAfter conn conn' (c_status c)) (c_sid c).

Definition clientCall (c : streamCall) (st : ClientConn * world) :
    option (ClientConn * world) :=
  match c with
  | CallRecv fuel => snd <$> client_recv fuel st
  | CallSend p fuel => snd <$> client_send p fuel st
  end.

Fixpoint clientCalls (cs : list streamCall) (st : ClientConn * world) :
    option (ClientConn * world) :=
  match cs with
  | [] => Some st
  | c :: cs =>
      match clientCall c st with
      | Some st => clientCalls cs st
      | None => None
      end
  end.

(** The rest of [NewClientConn] and [RefreshClientConn]. *)
Definition clientHandshake (g : gbnRun) (conn : ClientConn) (c : Client)
    (e : world) : option (result ClientConn * (Client * world)) :=
  match clientCalls (calls g) (conn, e) with
  | None => None
  | Some (conn', e) =>
      match gbnErr g with
      | Some err =>
          Some (Err (temporaryError err),
                (clientWith (c_mailboxConn c) conn conn' c, e))
      | None => Some (Ok conn', (clientWith (Some conn') conn conn' c, e))
      end
  end.

Definition Dial_renew (sid : bytes) (c : Client) (e : world) : Client * world :=
  let renewed conn := mkClient (c_serverHost c) (c_connData c) conn (c_status c) sid in
  match c_mailboxConn c with
  | Some conn =>
      if bool_decide (c_sid c ≠ sid)
      then (renewed None, (client_Close None (conn, e)).2.2)
      else (renewed (Some conn), e)
  | None => (renewed None, e)
  end.

Definition Dial_connect (g : gbnRun) (c : Client) (e : world) :
    option (result ClientConn * (Client * world)) :=
  match c_mailboxConn c with
  | None =>
      match client_New (c_sid c) (c_serverHost c) with
      | Ok conn => clientHandshake g conn c e
      | Err err => Some (Err (temporaryError err), (c, e))
      | Panic p => Some (Panic p, (c, e))
      end
  | Some conn => clientHandshake g (client_Refresh conn) c e
  end.

(** [Dial]; [None] means that it blocks on the previous connection. *)
Definition Dial (g : gbnRun) (st : Client * world) :
    option (result ClientConn * (Client * world)) :=
  let '(c, e) := st in
  let previousDone :=
    match c_mailboxConn c with Some conn => closed conn | None => true end in
  if negb previousDone then None
  else
    match SID (c_connData c) with
    | Err err => Some (Err err, st)
    | Panic p => Some (Panic p, st)
    | Ok sid => let '(c, e) := Dial_renew sid c e in Dial_connect g c e
    end.

(** ** Reachable servers and clients

    Between two calls the held connection carries messages and is closed, and
    handshakes store keys in the connection data. *)

Inductive server_life : Server * world → Prop :=
| sl_new dialErr d cb s e : NewServer dialErr d cb = Ok s → server_life (s, e)
| sl_accept pickQuit g st r st' :
    server_life st → Accept pickQuit g st = Some (r, st') → server_life st'
| sl_close err st : server_life st → server_life (server_close err st).2
| sl_calls cs s e c c' e' :
    server_life (s, e) → s_mailboxConn s = Some c →
    serverCalls cs (c, e) = Some (c', e') →
    server_life (set_conn (Some c') s, e')
| sl_connClose err s e c r c' e' :
    server_life (s, e) → s_mailboxConn s = Some c →
    server_Close err (c, e) = (r, (c', e')) →
    server_life (set_conn (Some c') s, e')
| sl_connData d s e : server_life (s, e) → server_life (set_connData d s, e).

Inductive client_life : Client * world → Prop :=
| cl_new host d c e : NewClient host d = Ok c → client_life (c, e)
| cl_dial g st r st' :
    client_life st → Dial g st = Some (r, st') → client_life st'
| cl_calls cs c e conn conn' e' :
    client_life (c, e) → c_mailboxConn c = Some conn →
    clientCalls cs (conn, e) = Some (conn', e') →
    client_life (clientWith (Some conn') conn conn' c, e')
| cl_onFIN c e conn :
    client_life (c, e) → c_mailboxConn c = Some conn →
    client_life (clientWith (Some (client_setStatus ClientStatusSessionNotFound conn))
                   conn (client_setStatus ClientStatusSessionNotFound conn) c, e)
| cl_connClose err c e conn r conn' e' :
    client_life (c, e) → c_mailboxConn c = Some conn →
    client_Close err (conn, e) = (r, (conn', e')) →
    client_life (clientWith (Some conn') conn conn' c, e')
| cl_connData d c e :
    client_life (c, e) →
    client_life (mkClient (c_serverHost c) d (c_mailboxConn c) (c_status c)
                   (c_sid c), e).

End Lifecycle.

(** ** The stream functions leave the identity of a connection alone *)

Section Preserve.
Context {C A : Type} (P : C * world → Prop) (connect : M (C * world) unit)
  (attempt : M (C * world) (A + unit)).
Context (Hsleep : ∀ c e d, P (c, e) → P (c, slept d e)).
Context (Hconnect : ∀ st, P st → P (connect st).2).
Context (Hattempt : ∀ st, P st → P (attempt st).2).

Lemma retryLoop_keeps fuel waiter st r st' :
  P st → retryLoop fuel waiter connect st = Some (r, st') → P st'.
Proof using Hconnect Hsleep.
  revert waiter st. induction fuel as [|fuel IH]; intros waiter [c e] HP; [done|].
  rewrite retryLoop_S. destruct (stop e (pos e)); [by intros [= <- <-]|].
  set (e1 := slept _ e). specialize (Hconnect (c, e1) (Hsleep _ _ _ HP)).
  destruct (connect (c, e1)) as [[a|err|p] st1]; simpl in *;
    [by intros [= <- <-]|by apply IH|by intros [= <- <-]].
Qed.

Lemma payloadLoop_keeps fuel q waiter st r st' :
  P st →
  payloadLoop fuel q attempt (λ f, retryLoop f waiter connect) st = Some (r, st') →
  P st'.
Proof using Hconnect Hattempt Hsleep.
  revert st. induction fuel as [|fuel IH]; intros [c e] HP; [done|].
  cbn [payloadLoop fst snd].
  destruct (stop e (pos e)) as [[|err]|]; [by intros [= <- <-]..|].
  specialize (Hattempt (c, e) HP).
  destruct (attempt (c, e)) as [[[a|u]|err|p] st1]; cbn [fst snd] in *;
    try by intros [= <- <-].
  destruct (retryLoop (S fuel) waiter connect st1) as [[[u'|err|p] st2]|] eqn:Hr;
    [| | |done].
  - intros Hl. eapply IH; [|exact Hl]. exact (retryLoop_keeps _ _ _ _ _ Hattempt Hr).
  - intros [= <- <-]. exact (retryLoop_keeps _ _ _ _ _ Hattempt Hr).
  - intros [= <- <-]. exact (retryLoop_keeps _ _ _ _ _ Hattempt Hr).
Qed.

Lemma stream_keeps up fuel q w1 w2 st r st' :
  P st →
  withStream up (retryLoop fuel w1 connect)
    (payloadLoop fuel q attempt (λ f, retryLoop f w2 connect)) st = Some (r, st') →
  P st'.
Proof using Hconnect Hattempt Hsleep.
  intros HP. unfold withStream. destruct (up st.1); [by apply payloadLoop_keeps|].
  destruct (retryLoop fuel w1 connect st) as [[[u|err|p] st1]|] eqn:Hr; [| | |done].
  - apply payloadLoop_keeps. exact (retryLoop_keeps _ _ _ _ _ HP Hr).
  - intros [= <- <-]. exact (retryLoop_keeps _ _ _ _ _ HP Hr).
  - intros [= <- <-]. exact (retryLoop_keeps _ _ _ _ _ HP Hr).
Qed.

End Preserve.

(** What identifies a server connection: its boxes and that it is open. *)
Definition s_identity (c : ServerConn) : bytes * bytes * bool :=
  (s_receiveSID c, s_sendSID c, s_closed c).
Definition c_identity (c : ClientConn) : mailboxInfo * bool := (info c, closed c).

(** Run the operation one answer at a time. *)
Ltac keeps :=
  intros [? ?] ?; unfold doCall, try, onConn, server, client, s_nonNil, nonNil;
  repeat (mstep; cbn [fst snd];
    repeat match goal with
    | |- context [match answer ?e ?i with _ => _ end] => destruct (answer e i)
    | |- context [if negb ?b then _ else _] => destruct b; cbn [negb]
    | |- context [if ?b then _ else _] => destruct b
    end); cbn [fst snd]; try done.

(** The identity of the connection is [i] and the trace extends [t]. *)
Definition s_kept (i : bytes * bytes * bool) (t : list event)
    (st : ServerConn * world) : Prop :=
  s_identity st.1 = i ∧ t `prefix_of` trace st.2.

Lemma prefix_grow {A} (t l k : list A) : t `prefix_of` l → t `prefix_of` l ++ k.
Proof. intros. by apply prefix_app_r. Qed.

Ltac kept :=
  keeps; match goal with H : s_kept _ _ _ |- _ => destruct H end;
  (split; [done|cbn [fst snd trace] in *; auto 6 using prefix_grow]).

Lemma serverCalls_kept ex cs i t st st' :
  s_kept i t st → serverCalls ex cs st = Some st' → s_kept i t st'.
Proof.
  revert st. induction cs as [|c cs IH]; intros st Hst; cbn [serverCalls].
  { by intros [= <-]. }
  destruct (serverCall ex c st) as [st1|] eqn:Hc; [|done].
  apply IH. clear IH.
  assert (Hsl : ∀ c e d, s_kept i t (c, e) → s_kept i t (c, slept d e)).
  { intros c0 e d [Hi Ht]. split; [done|]. by apply prefix_grow. }
  destruct c as [fuel|p fuel]; cbn [serverCall] in Hc.
  - destruct (recvFromStream ex fuel st) as [[r st2]|] eqn:Hr; [|done].
    injection Hc as <-. eapply (stream_keeps (s_kept i t)); [done| | |exact Hst|exact Hr].
    + unfold openReceiveStream, initAccountCipherBox. kept.
    + unfold recvFromStreamOnce. kept.
  - destruct (sendToStream ex p fuel st) as [[r st2]|] eqn:Hr; [|done].
    injection Hc as <-. eapply (stream_keeps (s_kept i t)); [done| | |exact Hst|exact Hr].
    + unfold openSendStream, initAccountCipherBox. kept.
    + unfold sendToStreamOnce. kept.
Qed.

(** A transport that leaves the identity of its connection alone. *)
Class KeepsIdentity `{ClientConnTransport} : Prop := {
  keeps_connectReceive i st :
    c_identity st.1 = i → c_identity (ConnectReceive st).2.1 = i;
  keeps_connectSend i st :
    c_identity st.1 = i → c_identity (ConnectSend st).2.1 = i;
  keeps_recv i st : c_identity st.1 = i → c_identity (Recv st).2.1 = i;
  keeps_send i sid p st :
    c_identity st.1 = i → c_identity (Send sid p st).2.1 = i;
  keeps_closeReceive i st :
    c_identity st.1 = i → c_identity (CloseReceive st).2.1 = i;
  keeps_closeSend i st :
    c_identity st.1 = i → c_identity (CloseSend st).2.1 = i
}.

#[export] Instance grpc_keeps : @KeepsIdentity grpcTransport.
Proof.
  split; intros i; cbn [ConnectReceive ConnectSend Recv Send CloseReceive
    CloseSend grpcTransport].
  - unfold grpc_ConnectReceive. keeps.
  - unfold grpc_ConnectSend. keeps.
  - unfold grpc_Recv. keeps.
  - intros sid p. unfold grpc_Send. keeps.
  - unfold closeStream. keeps.
  - unfold closeStream. keeps.
Qed.

#[export] Instance websocket_keeps `{Marshaler} : @KeepsIdentity websocketTransport.
Proof.
  split; intros i; cbn [ConnectReceive ConnectSend Recv Send CloseReceive
    CloseSend websocketTransport].
  - intros [c e] Hi. unfold ws_ConnectReceive, client, doCall, onConn.
    mstep. cbn [fst snd]. destruct (answer e (pos e)); [|done].
    destruct (MarshalDesc _); [|done]. cbn [fst snd answer pos].
    by destruct (answer e (S (pos e))).
  - unfold ws_ConnectSend. keeps.
  - unfold ws_Recv. keeps. destruct (stripJSONWrapper _); [|done].
    by destruct (UnmarshalBox _).
  - intros sid p [c e] Hi. unfold ws_Send. destruct (MarshalBox sid p); [|done].
    revert Hi. generalize (c, e). keeps.
  - unfold closeStream. keeps.
  - unfold closeStream. keeps.
Qed.

Lemma client_setStatus_identity s c :
  c_identity (client_setStatus s c) = c_identity c.
Proof. unfold client_setStatus. by case_if. Qed.

Lemma clientCalls_identity `{KeepsIdentity} cs st st' :
  clientCalls cs st = Some st' → c_identity st'.1 = c_identity st.1.
Proof.
  revert st. induction cs as [|c cs IH]; intros st; cbn [clientCalls].
  { by intros [= <-]. }
  destruct (clientCall c st) as [st1|] eqn:Hc; [|done].
  intros Hl. rewrite (IH _ Hl). clear IH Hl.
  set (P := λ s : ClientConn * world, c_identity s.1 = c_identity st.1).
  change (P st1).
  destruct c as [fuel|p fuel]; cbn [clientCall] in Hc.
  - destruct (client_recv fuel st) as [[r st2]|] eqn:Hr; [|done].
    injection Hc as <-. eapply (stream_keeps P); [done| | |done|exact Hr].
    + intros st0. apply keeps_connectReceive.
    + intros st0 Hst0. apply (keeps_recv _ st0) in Hst0. unfold recvOnce. mstep.
      destruct (Recv st0) as [[[[[msg retry] es] [err|]]|err|pp] [c1 e1]]; try done.
      destruct retry; [|done]. unfold P, onConn. simpl.
      by rewrite client_setStatus_identity.
  - destruct (client_send p fuel st) as [[r st2]|] eqn:Hr; [|done].
    injection Hc as <-. eapply (stream_keeps P); [done| | |done|exact Hr].
    + intros st0. apply keeps_connectSend.
    + intros st0 Hst0. unfold sendOnce, client. mstep. cbn [fst snd].
      apply (keeps_send _ (mb_sendSID (info st0.1)) p) in Hst0.
      destruct (Send _ p st0) as [[[[retry es] [err|]]|err|pp] [c1 e1]]; try done.
      destruct retry; [|done]. unfold P, onConn. simpl.
      by rewrite client_setStatus_identity.
Qed.

(** ** Session ids *)

(** Both ends of a session use the same two boxes, crosswise. *)
Lemma sids_cross sid a b :
  serverSIDs sid = Ok (a, b) → clientSIDs sid = Ok (b, a).
Proof.
  unfold serverSIDs, clientSIDs. mstep.
  destruct (GetSID sid true); [|by destruct (GetSID sid false)..].
  by destruct (GetSID sid false) as [x|err|p]; [intros [= -> ->]|..].
Qed.

(** The connection a server holds serves the session it remembers. *)
Definition server_ok `{Crypto} (s : Server) : Prop :=
  ∀ c, s_mailboxConn s = Some c →
  serverSIDs (s_sid s) = Ok (s_receiveSID c, s_sendSID c).

Definition client_ok `{Crypto} (c : Client) : Prop :=
  ∀ conn, c_mailboxConn c = Some conn →
  clientSIDs (c_sid c) = Ok (recvSID (info conn), mb_sendSID (info conn)).

(** ** What a server keeps *)

(** The boxes of [c] are deleted in the world [e]. *)
Definition deleted (c : ServerConn) (e : world) : Prop :=
  (receiveBoxCreated c = true → ∃ a, Called (CDelCipherBox (s_receiveSID c)) a ∈ trace e)
  ∧ (sendBoxCreated c = true → ∃ a, Called (CDelCipherBox (s_sendSID c)) a ∈ trace e).

Definition s_boxes (c : ServerConn) : bytes * bytes * bool * bool :=
  (s_receiveSID c, s_sendSID c, receiveBoxCreated c, sendBoxCreated c).

Lemma server_Close_keeps err c e r c' e' :
  server_Close err (c, e) = (r, (c', e')) →
  s_boxes c' = s_boxes c ∧ s_closed c' = true
  ∧ (∃ x, r = Ok x) ∧ trace e `prefix_of` trace e'.
Proof.
  unfold server_Close, s_closeStream, server, try, doCall, onConn.
  mstep. cbn [fst snd]. destruct (s_closed c) eqn:Hc.
  { intros [= <- <- <-]. split_and!; eauto. }
  mstep. cbn [fst snd].
  destruct (receiveStream c); mstep; cbn [fst snd];
    [destruct (answer e (pos e)); mstep; cbn [fst snd]|];
    (destruct (sendStream c); mstep; cbn [fst snd];
      [destruct (answer _ _); mstep; cbn [fst snd]|]);
    intros [= <- <- <-]; cbn [trace]; split_and!; eauto using prefix_grow.
Qed.

Ltac in_trace :=
  repeat first [by apply elem_of_app; right; left
               |apply elem_of_app; left].

Lemma server_Stop_spec err c e r c' e' :
  server_Stop err (c, e) = (r, (c', e')) →
  s_boxes c' = s_boxes c ∧ s_closed c' = true ∧ deleted c e'
  ∧ trace e `prefix_of` trace e'.
Proof.
  unfold server_Stop. mstep.
  destruct (server_Close err (c, e)) as [r1 [c1 e1]] eqn:Hcl.
  apply server_Close_keeps in Hcl as ([= Hr Hs Hrb Hsb] & Hc & [x ->] & Ht).
  unfold delCipherBox, server, try, doCall, deleted, s_boxes. mstep. cbn [fst snd].
  rewrite <- Hr, <- Hs, <- Hrb, <- Hsb.
  destruct (receiveBoxCreated c1) eqn:Hb1; mstep; cbn [fst snd];
    [destruct (answer e1 (pos e1)); mstep; cbn [fst snd]|];
    (destruct (sendBoxCreated c1) eqn:Hb2; mstep; cbn [fst snd];
      [destruct (answer _ _); mstep; cbn [fst snd]|]);
    intros [= <- <- <-]; cbn [trace]; rewrite ?Hb1, ?Hb2;
    (split_and!; [done|done|..]; eauto using prefix_grow);
    intros; try done; eexists; in_trace.
Qed.

Lemma deleted_mono c e e' :
  trace e `prefix_of` trace e' → deleted c e → deleted c e'.
Proof.
  intros [k Hk] [Hr Hs]. unfold deleted. rewrite Hk.
  split; intros Hb; [destruct (Hr Hb) as [a Ha]|destruct (Hs Hb) as [a Ha]];
    exists a; apply elem_of_app; by left.
Qed.

Section Server.
Context `{Crypto} (ex : error → bool).

(** A server keeps its invariant with another connection to the same boxes. *)
Lemma server_ok_conn s c c' :
  server_ok s → s_mailboxConn s = Some c → s_receiveSID c' = s_receiveSID c →
  s_sendSID c' = s_sendSID c → server_ok (set_conn (Some c') s).
Proof using.
  intros Hok Hc Hr Hs ? [= <-]. rewrite Hr, Hs. by apply Hok.
Qed.

Lemma serverHandshake_spec g c s e r s' e' :
  serverSIDs (s_sid s) = Ok (s_receiveSID c, s_sendSID c) → s_closed c = false →
  server_ok s → serverHandshake ex g c s e = Some (r, (s', e')) →
  server_ok s' ∧ s_sid s' = s_sid s ∧ trace e `prefix_of` trace e'
  ∧ (∀ c', r = Ok c' → s_mailboxConn s' = Some c' ∧ s_closed c' = false).
Proof using.
  intros Hb Ho Hok. unfold serverHandshake.
  destruct (serverCalls ex (calls g) (c, e)) as [[c1 e1]|] eqn:Hc; [|done].
  assert (Hk : s_kept (s_identity c) (trace e) (c, e)) by by split.
  destruct (serverCalls_kept ex _ _ _ _ _ Hk Hc) as [[= Hr Hs Hcl] Ht].
  destruct (gbnErr g); intros [= <- <- <-]; split_and!; try done.
  - intros ? [= <-]. by rewrite Hr, Hs.
  - intros ? [= <-]. split; [done|congruence].
Qed.

Lemma server_New_spec sid cb c :
  server_New sid cb = Ok c →
  serverSIDs sid = Ok (s_receiveSID c, s_sendSID c) ∧ s_closed c = false.
Proof using.
  unfold server_New. mstep. destruct (serverSIDs sid) as [[a b]|err|p]; [|done..].
  by intros [= <-].
Qed.

Lemma Accept_renew_spec sid s e s1 e1 :
  server_ok s → Accept_renew sid s e = (s1, e1) →
  server_ok s1 ∧ s_sid s1 = sid
  ∧ (∀ c0, s_mailboxConn s = Some c0 → s_sid s ≠ sid → deleted c0 e1).
Proof using.
  intros Hok. unfold Accept_renew. destruct (s_mailboxConn s) as [c|] eqn:Hc.
  - case_bool_decide as Hne; intros [= <- <-].
    + split_and!; [by intros ?|done|]. intros ? [= <-] _.
      destruct (server_Stop None (c, e)) as [r [c' e']] eqn:Hs.
      by apply server_Stop_spec in Hs as (_ & _ & Hd & _).
    + split_and!; [|done|by intros ? [= <-] ?].
      intros c1 Hc1. rewrite <- Hne. by apply Hok.
  - intros [= <- <-]. split_and!; [|done|done]. intros c1 Hc1.
    cbn [set_sid s_mailboxConn] in Hc1. congruence.
Qed.

Lemma Accept_connect_spec g s e r s' e' :
  server_ok s → Accept_connect ex g s e = Some (r, (s', e')) →
  server_ok s' ∧ s_sid s' = s_sid s ∧ trace e `prefix_of` trace e'
  ∧ (∀ c', r = Ok c' → s_mailboxConn s' = Some c' ∧ s_closed c' = false).
Proof using.
  intros Hok. unfold Accept_connect. destruct (s_mailboxConn s) as [c|] eqn:Hc.
  - apply serverHandshake_spec; [exact (Hok c Hc)|done|done].
  - destruct (server_New _ _) as [c|err|p] eqn:Hn;
      [|by intros [= <- <- <-]; split_and!..].
    apply server_New_spec in Hn as [Hb Ho]. by apply serverHandshake_spec.
Qed.

(** [Accept] on every outcome. *)
Lemma Accept_spec pickQuit g s e r s' e' :
  server_ok s → Accept ex pickQuit g (s, e) = Some (r, (s', e')) →
  server_ok s'
  ∧ ∀ c, r = Ok c → s_ctxDone s = false
    ∧ (∀ c0, s_mailboxConn s = Some c0 →
         s_closed c0 = true ∧ (s_sid s ≠ s_sid s' → deleted c0 e'))
    ∧ s_mailboxConn s' = Some c ∧ s_closed c = false
    ∧ SID (s_connData s) = Ok (s_sid s').
Proof using.
  intros Hok. unfold Accept.
  destruct (s_ctxDone s); [by intros [= <- <- <-]|].
  destruct (_ && _); [by intros [= <- <- <-]|].
  destruct (negb _) eqn:Hp; [done|]. apply negb_false_iff in Hp.
  destruct (SID (s_connData s)) as [sid|err|p];
    [|by intros [= <- <- <-]..].
  destruct (Accept_renew sid s e) as [s1 e1] eqn:Hr.
  apply Accept_renew_spec in Hr as (Hok1 & Hs1 & Hd); [|done].
  intros Hc. apply Accept_connect_spec in Hc as (Hok' & Hs' & Ht & Hres); [|done].
  split; [done|]. intros c ->. destruct (Hres _ eq_refl) as [? ?].
  rewrite Hs', Hs1. split_and!; try done.
  intros c0 Hc0. rewrite Hc0 in Hp. split; [done|]. intros Hne.
  eapply deleted_mono; [exact Ht|]. by apply Hd.
Qed.

Lemma server_close_spec err s e r s' e' :
  server_ok s → server_close err (s, e) = (r, (s', e')) →
  server_ok s'
  ∧ (s_quit s = false → r = Ok tt ∧ s_ctxDone s' = true ∧ s_quit s' = true
     ∧ ∀ c0, s_mailboxConn s = Some c0 →
       deleted c0 e' ∧ ∃ c, s_mailboxConn s' = Some c ∧ s_closed c = true).
Proof using.
  intros Hok. unfold server_close. destruct (s_quit s); [by intros [= <- <- <-]|].
  destruct (s_mailboxConn s) as [c|] eqn:Hc.
  - destruct (server_Stop err (c, e)) as [r1 [c1 e1]] eqn:Hs.
    apply server_Stop_spec in Hs as ([= Hr Hs _ _] & Hcl & Hd & _).
    intros [= <- <- <-]. split.
    + intros c2 [= <-]. cbn [s_sid]. rewrite Hr, Hs. by apply Hok.
    + intros _. split_and!; try done. intros ? [= <-]. eauto.
  - intros [= <- <- <-]. split; [by intros ?|]. by intros _.
Qed.

Lemma server_life_ok st : server_life ex st → server_ok st.1.
Proof using.
  induction 1 as [dialErr d cb s e Hn|pq g [s e] r [s' e'] _ IH Ha|err [s e] _ IH
    |cs s e c c' e' _ IH Hc Hcs|err s e c r c' e' _ IH Hc Hcl|d s e _ IH];
    cbn [fst] in *.
  - revert Hn. unfold NewServer. destruct dialErr; [done|]. mstep.
    destruct (SID d); [|done..]. by intros [= <-] ?.
  - by apply Accept_spec in Ha as [Hok _].
  - destruct (server_close err (s, e)) as [r [s' e']] eqn:Hcl.
    by apply server_close_spec in Hcl as [Hok _].
  - assert (Hk : s_kept (s_identity c) (trace e) (c, e)) by by split.
    destruct (serverCalls_kept ex _ _ _ _ _ Hk Hcs) as [[= Hr Hs _] _].
    by eapply server_ok_conn.
  - apply server_Close_keeps in Hcl as ([= Hr Hs _ _] & _).
    by eapply server_ok_conn.
  - exact IH.
Qed.

End Server.

(** ** What a client keeps *)

Section Client.
Context `{Crypto} `{KeepsIdentity}.

Lemma client_ok_with c conn conn1 conn2 :
  client_ok c → c_mailboxConn c = Some conn → info conn2 = info conn →
  client_ok (clientWith (Some conn2) conn1 conn2 c).
Proof using.
  intros Hok Hc Hi ? [= <-]. rewrite Hi. by apply Hok.
Qed.

Lemma clientHandshake_spec g conn c e r c' e' :
  clientSIDs (c_sid c) = Ok (recvSID (info conn), mb_sendSID (info conn)) →
  closed conn = false → client_ok c →
  clientHandshake g conn c e = Some (r, (c', e')) →
  client_ok c' ∧ c_sid c' = c_sid c
  ∧ (∀ conn', r = Ok conn' → c_mailboxConn c' = Some conn' ∧ closed conn' = false).
Proof using All.
  intros Hb Ho Hok. unfold clientHandshake.
  destruct (clientCalls (calls g) (conn, e)) as [[c1 e1]|] eqn:Hc; [|done].
  apply clientCalls_identity in Hc. injection Hc as Hi Hcl.
  destruct (gbnErr g); intros [= <- <- <-]; split_and!; try done.
  - intros ? [= <-]. by rewrite Hi.
  - intros ? [= <-]. split; [done|congruence].
Qed.

Lemma client_New_spec sid host conn :
  client_New sid host = Ok conn →
  clientSIDs sid = Ok (recvSID (info conn), mb_sendSID (info conn))
  ∧ closed conn = false.
Proof using.
  unfold client_New. mstep. destruct (clientSIDs sid) as [[a b]|err|p]; [|done..].
  by intros [= <-].
Qed.

Lemma Dial_renew_spec sid c e c1 e1 :
  client_ok c → Dial_renew sid c e = (c1, e1) → client_ok c1 ∧ c_sid c1 = sid.
Proof using.
  intros Hok. unfold Dial_renew. destruct (c_mailboxConn c) as [conn|] eqn:Hc;
    [case_bool_decide as Hne|]; intros [= <- <-]; split; try done.
  intros ? [= <-]. rewrite <- Hne. exact (Hok _ Hc).
Qed.

Lemma Dial_connect_spec g c e r c' e' :
  client_ok c → Dial_connect g c e = Some (r, (c', e')) →
  client_ok c' ∧ c_sid c' = c_sid c
  ∧ (∀ conn', r = Ok conn' → c_mailboxConn c' = Some conn' ∧ closed conn' = false).
Proof using All.
  intros Hok. unfold Dial_connect. destruct (c_mailboxConn c) as [conn|] eqn:Hc.
  - apply clientHandshake_spec; [exact (Hok conn Hc)|done|done].
  - destruct (client_New _ _) as [conn|err|p] eqn:Hn;
      [|by intros [= <- <- <-]; split_and!..].
    apply client_New_spec in Hn as [Hb Ho]. by apply clientHandshake_spec.
Qed.

(** [Dial] on every outcome. *)
Lemma Dial_spec g c e r c' e' :
  client_ok c → Dial g (c, e) = Some (r, (c', e')) →
  client_ok c'
  ∧ ∀ conn, r = Ok conn →
    (∀ c0, c_mailboxConn c = Some c0 → closed c0 = true)
    ∧ c_mailboxConn c' = Some conn ∧ closed conn = false
    ∧ SID (c_connData c) = Ok (c_sid c').
Proof using All.
  intros Hok. unfold Dial.
  destruct (negb _) eqn:Hp; [done|]. apply negb_false_iff in Hp.
  destruct (SID (c_connData c)) as [sid|err|p]; [|by intros [= <- <- <-]..].
  destruct (Dial_renew sid c e) as [c1 e1] eqn:Hr.
  apply Dial_renew_spec in Hr as (Hok1 & Hs1); [|done].
  intros Hc. apply Dial_connect_spec in Hc as (Hok' & Hs' & Hres); [|done].
  split; [done|]. intros conn ->. destruct (Hres _ eq_refl) as [? ?].
  rewrite Hs', Hs1. split_and!; try done. intros c0 Hc0. by rewrite Hc0 in Hp.
Qed.

Lemma client_Close_info err st r st' :
  client_Close err st = (r, st') → info st'.1 = info st.1.
Proof using All.
  unfold client_Close, client, try, onConn. mstep.
  destruct (closed st.1); [by intros [= <- <-]|]. mstep.
  pose proof (f_equal fst (keeps_closeReceive _ st eq_refl)) as Hr.
  destruct (CloseReceive st) as [[u|er|p] st1]; cbn [fst snd c_identity] in *;
    mstep; [| |by intros [= <- <-]];
    (pose proof (f_equal fst (keeps_closeSend _ st1 eq_refl)) as Hs;
     destruct (CloseSend st1) as [[u'|er'|p'] st2]; cbn [fst snd c_identity] in *;
     intros [= <- <-]; simpl; congruence).
Qed.

Lemma client_life_ok st : client_life st → client_ok st.1.
Proof using All.
  induction 1 as [host d c e Hn|g [c e] r [c' e'] _ IH Hd|cs c e conn conn' e' _ IH Hc Hcs
    |c e conn _ IH Hc|err c e conn r conn' e' _ IH Hc Hcl|d c e _ IH]; cbn [fst] in *.
  - revert Hn. unfold NewClient. mstep. destruct (SID d); [|done..].
    by intros [= <-] ?.
  - by apply Dial_spec in Hd as [Hok _].
  - apply clientCalls_identity in Hcs. injection Hcs as Hi _.
    by eapply client_ok_with.
  - eapply client_ok_with; [done|exact Hc|].
    exact (f_equal fst (client_setStatus_identity ClientStatusSessionNotFound conn)).
  - apply client_Close_info in Hcl. by eapply client_ok_with.
  - exact IH.
Qed.

End Client.

(** ** Properties *)

(** C15: [Accept] hands out one connection at a time.  A server that has run
    for any time returns a connection only when it had none or the previous
    one is closed; the new connection is open, it is the one the server now
    holds, and its boxes are those of the session id that the connection data
    give now.  If that id differs from the previous one, the boxes the
    previous connection had created have been deleted. *)
Theorem accept_one_session `{Crypto} ex pickQuit g s e c s' e' :
  server_life ex (s, e) → Accept ex pickQuit g (s, e) = Some (Ok c, (s', e')) →
  (∀ c0, s_mailboxConn s = Some c0 →
     s_closed c0 = true ∧ (s_sid s ≠ s_sid s' → deleted c0 e'))
  ∧ s_ctxDone s = false ∧ s_mailboxConn s' = Some c ∧ s_closed c = false
  ∧ ∃ sid, SID (s_connData s) = Ok sid
    ∧ serverSIDs sid = Ok (s_receiveSID c, s_sendSID c).
Proof.
  intros Hl Ha. apply server_life_ok in Hl.
  apply Accept_spec in Ha as [Hok Hc]; [|done].
  destruct (Hc _ eq_refl) as (Hx & Hprev & Hm & Ho & Hsid).
  split_and!; try done. eauto.
Qed.

(** Once a reachable server is closed, its connection is closed, the boxes
    it had created are deleted, every [Accept] returns [EOF] and changes
    nothing, and a second [Close] panics. *)
Theorem closed_server_is_final `{Crypto} ex err s e r s' e' :
  server_life ex (s, e) → s_quit s = false →
  server_close err (s, e) = (r, (s', e')) →
  r = Ok tt
  ∧ (∀ c0, s_mailboxConn s = Some c0 →
       deleted c0 e' ∧ ∃ c, s_mailboxConn s' = Some c ∧ s_closed c = true)
  ∧ (∀ pickQuit g, Accept ex pickQuit g (s', e') = Some (Err EOF, (s', e')))
  ∧ ∀ err', server_close err' (s', e') = (Panic CloseOfClosedChannel, (s', e')).
Proof.
  intros Hl Hq Hcl. apply server_life_ok in Hl.
  apply server_close_spec in Hcl as [_ Hcl]; [|done].
  destruct (Hcl Hq) as (-> & Hx & Hq' & Hc). split_and!; try done.
  - intros pq g. unfold Accept. by rewrite Hx.
  - intros err'. unfold server_close. by rewrite Hq'.
Qed.

(** C14: client and server meet.  When both have the same passphrase and have
    not paired yet, or know each other's static key, the connections that
    [Dial] and [Accept] return use the same two boxes crosswise: the client
    receives where the server sends and sends where the server receives.
    [Dial] too returns only when the previous connection is closed. *)
Theorem dial_meets_accept `{CryptoLaws} `{KeepsIdentity} ex pickQuit gs gc
    s es sc s' es' c ec cc c' ec' :
  paired (c_connData c) (s_connData s) →
  server_life ex (s, es) → client_life (c, ec) →
  Accept ex pickQuit gs (s, es) = Some (Ok sc, (s', es')) →
  Dial gc (c, ec) = Some (Ok cc, (c', ec')) →
  recvSID (info cc) = s_sendSID sc ∧ mb_sendSID (info cc) = s_receiveSID sc
  ∧ c_sid c' = s_sid s' ∧ closed cc = false
  ∧ (∀ c0, c_mailboxConn c = Some c0 → closed c0 = true).
Proof.
  intros Hp Hs Hc Ha Hd.
  apply server_life_ok in Hs. apply client_life_ok in Hc.
  apply Accept_spec in Ha as [Hok Ha]; [|done].
  apply Dial_spec in Hd as [Hok' Hd]; [|done].
  destruct (Ha _ eq_refl) as (_ & _ & Hm & _ & Hsid).
  destruct (Hd _ eq_refl) as (Hone & Hm' & Ho & Hsid').
  apply SID_paired in Hp. rewrite Hsid', Hsid in Hp. injection Hp as Hp.
  specialize (Hok _ Hm). specialize (Hok' _ Hm').
  apply sids_cross in Hok. rewrite <- Hp, Hok' in Hok.
  injection Hok as Hr Hsd. by split_and!.
Qed.

(** ** A server and a client that run *)

#[local] Existing Instance toyCrypto.

Definition demoEx (err : error) : bool := false.
Definition demoAnswers : world := mkWorld (λ _, inl [7; 8]) (λ _, None) 0 [].
Definition demoRun : gbnRun := mkGbnRun [CallRecv 3; CallSend [1] 3] None.

(** A server before and after its first [Accept], then with the connection
    closed and the key of the client stored. *)
Definition demoServer0 : Server :=
  match NewServer None (toyConn 3 None None) true with
  | Ok s => s
  | _ => mkServer [] None (toyConn 3 None None) true false false
  end.

Definition demoServer1 : Server * world :=
  match Accept demoEx false demoRun (demoServer0, demoAnswers) with
  | Some (_, st) => st
  | None => (demoServer0, demoAnswers)
  end.

Definition demoServer2 : Server * world :=
  match s_mailboxConn demoServer1.1 with
  | Some c =>
      let '(_, (c', e')) := server_Close None (c, demoServer1.2) in
      (set_connData (toyConn 3 (Some 4) None) (set_conn (Some c') demoServer1.1), e')
  | None => demoServer1
  end.

Lemma demoServer1_life : server_life demoEx demoServer1.
Proof.
  assert (∃ r, Accept demoEx false demoRun (demoServer0, demoAnswers)
               = Some (r, demoServer1)) as [r Ha].
  { eexists. vm_compute. reflexivity. }
  eapply sl_accept; [|exact Ha]. apply (sl_new _ None (toyConn 3 None None) true).
  vm_compute. reflexivity.
Qed.

Lemma demoServer2_life : server_life demoEx demoServer2.
Proof.
  pose proof demoServer1_life as Hl. unfold demoServer2.
  destruct demoServer1 as [s1 e1]. cbn [fst snd] in *.
  destruct (s_mailboxConn s1) as [c|] eqn:Hc; [|done].
  destruct (server_Close None (c, e1)) as [r [c' e']] eqn:Hcl.
  apply sl_connData. eapply sl_connClose; [exact Hl|exact Hc|exact Hcl].
Qed.

Lemma accept_one_session_witness :
  ∃ c0 c s' e', s_mailboxConn demoServer2.1 = Some c0
  ∧ Accept demoEx false demoRun demoServer2 = Some (Ok c, (s', e'))
  ∧ deleted c0 e' ∧ receiveBoxCreated c0 = true ∧ s_mailboxConn s' = Some c.
Proof.
  destruct (Accept demoEx false demoRun demoServer2) as [[[c|err|p] [s' e']]|] eqn:Ha;
    [|vm_compute in Ha; discriminate Ha..].
  pose proof demoServer2_life as Hl.
  destruct (s_mailboxConn demoServer2.1) as [c0|] eqn:Hc0;
    [|vm_compute in Hc0; discriminate Hc0].
  exists c0, c, s', e'.
  assert (Hne : s_sid demoServer2.1 ≠ s_sid s').
  { vm_compute in Ha. injection Ha as _ <- _. vm_compute. discriminate. }
  rewrite (surjective_pairing demoServer2) in Hl, Ha.
  destruct (accept_one_session demoEx false demoRun _ _ c s' e' Hl Ha)
    as (Hprev & _ & Hm & _).
  destruct (Hprev c0 Hc0) as [_ Hd].
  split; [reflexivity|]. split; [reflexivity|]. split; [exact (Hd Hne)|].
  split; [|exact Hm]. vm_compute in Hc0. injection Hc0 as <-. reflexivity.
Defined.

Lemma closed_server_is_final_witness :
  ∃ s' e', server_close None demoServer1 = (Ok tt, (s', e'))
  ∧ Accept demoEx false demoRun (s', e') = Some (Err EOF, (s', e')).
Proof.
  destruct (server_close None demoServer1) as [r [s' e']] eqn:Hc.
  pose proof demoServer1_life as Hl.
  rewrite (surjective_pairing demoServer1) in Hl, Hc.
  destruct (closed_server_is_final demoEx None _ _ r s' e' Hl) as (Hr & _ & Ha & _);
    [vm_compute; reflexivity|exact Hc|].
  exists s', e'. rewrite Hr. split; [reflexivity|]. apply Ha.
Defined.

Definition demoDialer : Client :=
  mkClient "mailbox" (toyConn 4 (Some 3) None) None ClientStatusNotConnected
    (match SID (toyConn 4 (Some 3) None) with Ok sid => sid | _ => [] end).

Lemma dial_meets_accept_witness :
  ∃ sc cc s' es' c' ec',
    Accept demoEx false demoRun demoServer2 = Some (Ok sc, (s', es'))
  ∧ @Dial toyCrypto grpcTransport demoRun (demoDialer, demoAnswers)
    = Some (Ok cc, (c', ec'))
  ∧ recvSID (info cc) = s_sendSID sc ∧ mb_sendSID (info cc) = s_receiveSID sc.
Proof.
  destruct (Accept demoEx false demoRun demoServer2) as [[[sc|err|p] [s' es']]|] eqn:Ha;
    [|vm_compute in Ha; discriminate Ha..].
  destruct (@Dial toyCrypto grpcTransport demoRun (demoDialer, demoAnswers))
    as [[[cc|err|p] [c' ec']]|] eqn:Hd; [|vm_compute in Hd; discriminate Hd..].
  exists sc, cc, s', es', c', ec'. split; [reflexivity|]. split; [reflexivity|].
  pose proof demoServer2_life as Hl.
  rewrite (surjective_pairing demoServer2) in Hl, Ha.
  destruct (@dial_meets_accept toyCrypto toy_laws grpcTransport grpc_keeps demoEx
    false demoRun demoRun demoServer2.1 demoServer2.2 sc s' es' demoDialer demoAnswers cc c' ec')
    as (Hr & Hs & _); [|exact Hl| |exact Ha|exact Hd|split; [exact Hr|exact Hs]].
  - right. split; vm_compute; reflexivity.
  - apply (cl_new "mailbox" (toyConn 4 (Some 3) None)). vm_compute. reflexivity.
Defined.
