(* ===== verification/CreateConn.v ===== *)
(** * Setting up a client connection ([mailbox/create_conn.go])

    [NewClientWebsocketConn] turns a typed pairing phrase and the stored keys
    into the client and the Noise connection that gRPC dials with. *)

From stdpp Require Import base numbers list gmap strings tactics.
From Stdlib Require Import Ascii.
From S2P Require Import Prelude NoiseState NoiseHandshake NoiseTransport Mailbox.
From S2P Require Import MailboxConn Pairing Lifecycle.

(** What is handed to gRPC: [transportConn], whose [ConnStatus] and [Dial] are
    returned and used, and [noiseConn]. *)
Record websocketConn `{Crypto} := mkWebsocketConn {
  transportConn : Client;
  noiseConn : NoiseGrpcConn
}.

Definition NewClientWebsocketConn `{Crypto} `{Mnemonics}
    (mailboxServer pairingPhrase : string) (localStatic : SingleKeyECDH)
    (remoteStatic : option PublicKey)
    (onRemoteStatic : option PublicKey → result unit)
    (onAuthData : option bytes → result unit) : result websocketConn :=
  let entropy := PassphraseMnemonicToEntropy (phraseWords pairingPhrase) in
  let connData := NewConnData localStatic remoteStatic entropy None
                    (Some onRemoteStatic) (Some onAuthData) in
  transportConn ← NewClient mailboxServer connData;
  Ok (mkWebsocketConn _ transportConn (NewNoiseGrpcConn connData [])).

(** [btcec] private keys as the bindings store them. *)
Class NativeKeys `{Crypto} := {
  PrivKeyFromBytes : bytes → SingleKeyECDH;
  privSerialize : SingleKeyECDH → bytes
}.

Class NativeKeyLaws `{NativeKeys} : Prop :=
  priv_roundtrip k : PrivKeyFromBytes (privSerialize k) = k.

(** C17: a typed phrase leads to the server.  When a server uses the entropy of
    a new passphrase and the user types its ten words with single spaces, the
    client's connection data and the server's are paired, so that both derive
    the same session id and the same handshake passphrase; the set-up cannot
    fail. *)
Theorem typed_phrase_pairs `{CryptoLaws} `{MnemonicLaws} random words entropy
    host kC kS auth onKey onAuth cbKey cbAuth :
  length random = 14%nat →
  Forall (λ w, hasChar " " w = false) DefaultWordList →
  NewPassphraseEntropy (Ok random) = Ok (words, entropy) →
  let server := NewConnData kS None entropy auth cbKey cbAuth in
  ∃ c, NewClientWebsocketConn host (String.concat " " words) kC None onKey onAuth = Ok c
  ∧ gc_connData (noiseConn c) = c_connData (transportConn c)
  ∧ paired (c_connData (transportConn c)) server
  ∧ SID server = Ok (c_sid (transportConn c))
  ∧ cd_passphraseEntropy (gc_connData (noiseConn c)) = entropy.
Proof.
  intros Hr Hspace Hnew server. revert Hnew.
  unfold NewPassphraseEntropy, PassphraseEntropyToMnemonic. mstep.
  destruct (readWords_ok NumPassphraseWords (NewBStreamReader random))
    as (ws & -> & Hl & Hk & _).
  { rewrite reader_new, length_bitsOfBytes. change NumPassphraseWords with 10%nat. lia. }
  intros [= <- <-]. unfold NewClientWebsocketConn, NewClient, NewConnData.
  rewrite phraseWords_concat; [|done|].
  2: { eapply List.Forall_impl; [|exact Hk]. intros w Hw. unfold known in Hw.
       rewrite List.Forall_forall in Hspace. apply Hspace. by apply list_elem_of_In. }
  unfold SID. mstep. cbn [remoteKey cd_passphraseEntropy].
  eexists. split; [reflexivity|]. split_and!; try done. by left.
Qed.

Lemma bitWords_no_space : Forall (λ w, hasChar " " w = false) bitWords.
Proof.
  assert (Hall : forallb (λ w, negb (hasChar " " w)) bitWords = true)
    by (vm_compute; reflexivity).
  rewrite forallb_forall in Hall. apply List.Forall_forall.
  intros w Hw. by apply negb_true_iff, Hall.
Qed.

Lemma typed_phrase_pairs_witness : let _ := toyCrypto in let _ := bitStreams in
  ∃ words entropy c,
    NewPassphraseEntropy (Ok [1; 2; 3; 4; 5; 6; 7; 8; 9; 10; 11; 12; 13; 255])
      = Ok (words, entropy)
  ∧ @NewClientWebsocketConn toyCrypto bitStreams "mailbox" (String.concat " " words)
      3%positive None (λ _, Ok tt) (λ _, Ok tt) = Ok c
  ∧ @SID toyCrypto (@NewConnData toyCrypto 4%positive None entropy None None None)
      = Ok (c_sid (transportConn c)).
Proof.
  intros tc bs.
  destruct (@NewPassphraseEntropy bitStreams
    (Ok [1; 2; 3; 4; 5; 6; 7; 8; 9; 10; 11; 12; 13; 255]))
    as [[words entropy]|err|p] eqn:Hn; [|vm_compute in Hn; discriminate Hn..].
  destruct (@typed_phrase_pairs toyCrypto toy_laws bitStreams bitStreams_laws
    [1; 2; 3; 4; 5; 6; 7; 8; 9; 10; 11; 12; 13; 255] words entropy "mailbox"
    3%positive 4%positive None (λ _, Ok tt) (λ _, Ok tt) None None)
    as (c & Hc & _ & _ & Hsid & _).
  - reflexivity.
  - exact bitWords_no_space.
  - exact Hn.
  - exists words, entropy, c. split; [exact Hn|]. split; [exact Hc|exact Hsid].
Defined.

(** Keys of [toyCrypto] in one byte. *)
Definition toyKeys : @NativeKeys toyCrypto := @Build_NativeKeys toyCrypto
  (λ b, match b with z :: _ => Z.to_pos z | [] => 1%positive end)
  (λ k : positive, [Zpos k]).

Lemma toyKeys_laws : @NativeKeyLaws toyCrypto toyKeys.
Proof. intros k. done. Qed.
