(* ===== verification/Permissions.v ===== *)
(** * Macaroons and permissions ([mobile/mobile.go], [cmd/wasm-client/main.go])

    What the two bindings share: keys and macaroons as hexadecimal strings, the
    URI of an RPC, and the check of a macaroon's operations against those the
    URI requires. *)

From stdpp Require Import base numbers list gmap strings tactics.
From Stdlib Require Import Ascii.
From S2P Require Import Prelude Pairing.

(** ** [encoding/hex] *)

Definition hexDigit (v : Z) : ascii :=
  ascii_of_N (Z.to_N (if v <? 10 then 48 + v else 87 + v)).

Fixpoint EncodeToString (b : bytes) : string :=
  match b with
  | [] => ""
  | x :: b => String (hexDigit (x / 16)) (String (hexDigit (x mod 16))
                (EncodeToString b))
  end.

(** The value of a digit; both cases are read. *)
Definition hexValue (c : ascii) : option Z :=
  let n := Z.of_N (N_of_ascii c) in
  if (48 <=? n) && (n <=? 57) then Some (n - 48)
  else if (97 <=? n) && (n <=? 102) then Some (n - 87)
  else if (65 <=? n) && (n <=? 70) then Some (n - 55)
  else None.

Definition errInvalidByte : error := ErrMsg "encoding/hex: invalid byte".
Definition errLength : error := ErrMsg "encoding/hex: odd length hex string".

Fixpoint DecodeString (s : string) : result bytes :=
  match s with
  | EmptyString => Ok []
  | String p EmptyString =>
      match hexValue p with None => Err errInvalidByte | Some _ => Err errLength end
  | String p (String q s) =>
      match hexValue p, hexValue q with
      | Some a, Some b => l ← DecodeString s; Ok (16 * a + b :: l)
      | _, _ => Err errInvalidByte
      end
  end.

(** ** The URI of an RPC

    [jsonCBRegex] is [(\w+)\.(\w+)\.(\w+)].  A dot is no word character, so the
    only match at a position takes three maximal runs. *)

Definition isWord (c : ascii) : bool :=
  let n := Z.of_N (N_of_ascii c) in
  ((48 <=? n) && (n <=? 57)) || ((65 <=? n) && (n <=? 90))
  || ((97 <=? n) && (n <=? 122)) || (n =? 95).

Fixpoint takeWord (s : string) : string * string :=
  match s with
  | String c s' =>
      if isWord c then let '(w, r) := takeWord s' in (String c w, r) else ("", s)
  | EmptyString => ("", "")
  end.

(** [\w+] and what is left. *)
Definition word (s : string) : option (string * string) :=
  match takeWord s with
  | (EmptyString, _) => None
  | r => Some r
  end.

Definition matchCB (s : string) : option (string * string * string * string) :=
  '(w1, s) ← word s; s ← dropPrefix "." s;
  '(w2, s) ← word s; s ← dropPrefix "." s;
  '(w3, s) ← word s; Some (w1, w2, w3, s).

(** [jsonCBRegex.ReplaceAllString(s, "/$1.$2/$3")]: every step consumes a
    character. *)
Fixpoint replaceCB (fuel : nat) (s : string) : string :=
  match fuel, s with
  | S fuel, String c s' =>
      match matchCB s with
      | Some (w1, w2, w3, rest) =>
          "/" +:+ w1 +:+ "." +:+ w2 +:+ "/" +:+ w3 +:+ replaceCB fuel rest
      | None => String c (replaceCB fuel s')
      end
  | _, _ => ""
  end.

Definition jsonToURI (s : string) : string := replaceCB (String.length s) s.

(** ** Operations *)

(** [lnrpc.Op] and [bakery.Op]. *)
Record Op := mkOp { Entity : string; Actions : list string }.
Record requiredOp := mkRequired { r_Entity : string; r_Action : string }.

(** The macaroon packages, [lnrpc.MacaroonId] and the permissions manager of
    lightning-terminal.  [ExpiryTime] is [checkers.ExpiryTime(nil,
    mac.Caveats())] as a Unix time. *)
Class Macaroons := {
  Macaroon : Type;
  UnmarshalBinary : bytes → result Macaroon;
  mac_Id : Macaroon → bytes;
  ExpiryTime : Macaroon → option Z;
  unmarshalOps : bytes → result (list Op);
  LatestVersion : Z;
  PermissionEntityCustomURI : string;
  PermsManager : Type;
  NewManager : result PermsManager;
  RegisterSubServer : string → PermsManager → PermsManager;
  URIPermissions : string → PermsManager → option (list requiredOp)
}.

Section Permissions.
Context `{Macaroons}.

Definition extractMacaroonOps (mac : Macaroon) : result (list Op) :=
  let rawID := mac_Id mac in
  v ← index rawID 0;
  if negb (v =? u8 LatestVersion) then Err (ErrMsg "invalid macaroon version")
  else
    idProto ← slice rawID 1 (len rawID);
    match unmarshalOps idProto with
    | Err e => Err (ErrWrap "unable to decode macaroon: " e)
    | r => r
    end.

(** The auth data callback up to the stored macaroon. *)
Definition parseAuthData (data : bytes) : result Macaroon :=
  match Split (stringOfBytes data) ": " with
  | [k; v] =>
      if bool_decide (k ≠ "Macaroon")
      then Err (ErrMsg "authdata does not contain a macaroon")
      else
        macBytes ← DecodeString v;
        match UnmarshalBinary macBytes with
        | Err e => Err (ErrWrap "unable to decode macaroon: " e)
        | r => r
        end
  | _ => Err (ErrMsg "authdata does not contain a macaroon")
  end.

Definition isReadOnly (ops : list Op) : bool :=
  forallb (λ op, forallb (λ action, bool_decide (action = "read")) (Actions op)) ops.

(** [macOpsMap]; an entity gets a new inner map each time it appears. *)
Abbreviation opsMap := (gmap string (gmap string bool)) (only parsing).

Definition addAction (e : string) (m : opsMap) (action : string) : opsMap :=
  <[e := <[action := true]> (default ∅ (m !! e))]> m.

Definition addOp (m : opsMap) (op : Op) : opsMap :=
  fold_left (addAction (Entity op)) (Actions op) (<[Entity op := ∅]> m).

Definition checkOps (m : opsMap) (requiredOps : list requiredOp) : bool :=
  forallb (λ op,
    match m !! r_Entity op with
    | None => false
    | Some macEntity => default false (macEntity !! r_Action op)
    end) requiredOps.

(** [hasPermissions] of [mobile.go]. *)
Definition hasPermissions (macOps : list Op) (requiredOps : list requiredOp) : bool :=
  checkOps (fold_left addOp macOps ∅) requiredOps.

(** The loops of [hasPermissions] of [main.go]; [None] is [return true]. *)
Fixpoint wasm_addActions (uri e : string) (actions : list string) (m : opsMap) :
    option opsMap :=
  match actions with
  | [] => Some m
  | action :: actions =>
      let m := addAction e m action in
      if bool_decide (e = PermissionEntityCustomURI) && bool_decide (action = uri)
      then None else wasm_addActions uri e actions m
  end.

Fixpoint wasm_addOps (uri : string) (ops : list Op) (m : opsMap) : option opsMap :=
  match ops with
  | [] => Some m
  | op :: ops =>
      m ← wasm_addActions uri (Entity op) (Actions op) (<[Entity op := ∅]> m);
      wasm_addOps uri ops m
  end.

Definition wasm_hasPermissions (uri : string) (macOps : list Op)
    (requiredOps : list requiredOp) : bool :=
  match wasm_addOps uri macOps ∅ with
  | None => true
  | Some m => checkOps m requiredOps
  end.

(** The search of [IsCustom]. *)
Definition hasCustomURI (macOps : list Op) : bool :=
  existsb (λ op, bool_decide (Entity op = PermissionEntityCustomURI)) macOps.

End Permissions.

(** ** Hexadecimal strings *)

Lemma hexValue_digit v : 0 ≤ v < 16 → hexValue (hexDigit v) = Some v.
Proof.
  intros Hb.
  assert (Hall : Forall (λ v, hexValue (hexDigit v) = Some v) (seqZ 0 16))
    by by repeat constructor.
  rewrite Forall_forall in Hall. apply Hall, list_elem_of_In, elem_of_seqZ. lia.
Qed.

Lemma DecodeString_EncodeToString b :
  Forall is_u8 b → DecodeString (EncodeToString b) = Ok b.
Proof.
  induction 1 as [|x b Hx _ IH]; [done|]. unfold is_u8 in Hx.
  cbn [EncodeToString DecodeString].
  rewrite !hexValue_digit, IH by (Z.to_euclidean_division_equations; lia).
  mstep. do 2 f_equal. Z.to_euclidean_division_equations; lia.
Qed.

(** ** URIs *)

Definition allWord (s : string) : Prop := takeWord s = (s, "").

Lemma String_app c w s : String c w +:+ s = String c (w +:+ s).
Proof. done. Qed.

Lemma takeWord_app w s :
  allWord w → takeWord (w +:+ "." +:+ s) = (w, "." +:+ s).
Proof.
  unfold allWord. induction w as [|c w IH]; [done|].
  rewrite String_app. cbn [takeWord]. destruct (isWord c); [|done].
  destruct (takeWord w) as [w' r]. intros [= -> ->]. by rewrite IH.
Qed.

Lemma word_app w s :
  allWord w → w ≠ "" → word (w +:+ "." +:+ s) = Some (w, "." +:+ s).
Proof. intros Hw ?. unfold word. rewrite takeWord_app by done. by destruct w. Qed.

Lemma word_end w : allWord w → w ≠ "" → word w = Some (w, "").
Proof. unfold word. intros -> ?. by destruct w. Qed.

Lemma jsonToURI_words a b c :
  allWord a → allWord b → allWord c → a ≠ "" → b ≠ "" → c ≠ "" →
  jsonToURI (a +:+ "." +:+ b +:+ "." +:+ c) = "/" +:+ a +:+ "." +:+ b +:+ "/" +:+ c.
Proof.
  intros Ha Hb Hc Hna Hnb Hnc. unfold jsonToURI.
  assert (Hm : matchCB (a +:+ "." +:+ b +:+ "." +:+ c) = Some (a, b, c, "")).
  { unfold matchCB. rewrite word_app by done. cbn [mbind option_bind].
    change (dropPrefix "." ("." +:+ b +:+ "." +:+ c)) with (Some (b +:+ "." +:+ c)).
    cbn [mbind option_bind].
    rewrite word_app by done. cbn [mbind option_bind].
    change (dropPrefix "." ("." +:+ c)) with (Some c). cbn [mbind option_bind].
    by rewrite word_end. }
  destruct (a +:+ "." +:+ b +:+ "." +:+ c) as [|x s] eqn:Hs; [by destruct a|].
  cbn [String.length replaceCB]. rewrite Hm.
  destruct (String.length s); cbn [replaceCB]; by rewrite string_app_nil.
Qed.

(** ** The permission check *)

Section Check.
Context {MC : Macaroons}.

Definition actionSet (actions : list string) : gmap string bool :=
  fold_left (λ m a, <[a := true]> m) actions ∅.

(** The operation that counts for an entity: the last one that names it. *)
Definition lastOp (e : string) (ops : list Op) : option Op :=
  list.last (filter (λ op, Entity op = e) ops).

Lemma actionSet_lookup actions a :
  default false (actionSet actions !! a) = bool_decide (a ∈ actions).
Proof using.
  unfold actionSet. induction actions as [|b actions IH] using rev_ind; [done|].
  rewrite fold_left_app. cbn [fold_left].
  destruct (decide (a = b)) as [->|Hne].
  - rewrite lookup_insert_eq. symmetry. apply bool_decide_eq_true_2.
    rewrite elem_of_app, list_elem_of_singleton. by right.
  - rewrite lookup_insert_ne by done. rewrite IH. apply bool_decide_ext.
    rewrite elem_of_app, list_elem_of_singleton. tauto.
Qed.

Lemma addOp_insert m op : addOp m op = <[Entity op := actionSet (Actions op)]> m.
Proof using.
  unfold addOp, actionSet. generalize (∅ : gmap string bool) as x.
  induction (Actions op) as [|a l IH]; intros x; [done|]. cbn [fold_left].
  unfold addAction at 2. by rewrite lookup_insert_eq, insert_insert_eq, IH.
Qed.

Lemma macOpsMap_lookup ops e :
  fold_left addOp ops ∅ !! e = (actionSet ∘ Actions) <$> lastOp e ops.
Proof using.
  unfold lastOp. induction ops as [|op ops IH] using rev_ind; [done|].
  rewrite fold_left_app, list.filter_app. cbn [fold_left]. rewrite addOp_insert.
  destruct (decide (Entity op = e)) as [He|He].
  - rewrite He, lookup_insert_eq, filter_cons_True, filter_nil by done.
    by rewrite last_snoc.
  - rewrite lookup_insert_ne by done. rewrite filter_cons_False, filter_nil by done.
    by rewrite app_nil_r.
Qed.

Lemma hasPermissions_last ops req :
  hasPermissions ops req = true ↔
  ∀ r, r ∈ req → ∃ op, lastOp (r_Entity r) ops = Some op ∧ r_Action r ∈ Actions op.
Proof using.
  unfold hasPermissions, checkOps. rewrite forallb_forall.
  setoid_rewrite <- list_elem_of_In. apply forall_proper. intros r.
  apply forall_proper. intros _. rewrite macOpsMap_lookup.
  destruct (lastOp (r_Entity r) ops) as [op|]; simpl;
    [|split; [done|by intros (? & ? & _)]].
  rewrite actionSet_lookup, bool_decide_eq_true.
  split; [by eauto|by intros (? & [= <-] & ?)].
Qed.

Lemma lastOp_in e ops op : lastOp e ops = Some op → op ∈ ops ∧ Entity op = e.
Proof using.
  unfold lastOp. intros Hl. apply last_Some_elem_of in Hl.
  by apply list_elem_of_filter in Hl as [? ?].
Qed.

Lemma lastOp_unique ops op :
  NoDup (Entity <$> ops) → op ∈ ops → lastOp (Entity op) ops = Some op.
Proof using.
  intros Hnd Hin. unfold lastOp. revert Hnd.
  induction Hin as [op ops|op op' ops Hin IH]; cbn [fmap list_fmap];
    rewrite list.NoDup_cons; intros [Hni Hnd].
  - rewrite filter_cons_True by done.
    destruct (filter _ ops) as [|x l] eqn:Hf; [done|].
    assert (Hx : x ∈ filter (λ o, Entity o = Entity op) ops) by (rewrite Hf; left).
    apply list_elem_of_filter in Hx as [Hx1 Hx2]. destruct Hni.
    rewrite <- Hx1. by apply list_elem_of_fmap_2.
  - rewrite filter_cons_False; [by apply IH|]. intros He. destruct Hni.
    rewrite He. by apply list_elem_of_fmap_2.
Qed.

(** The loop of [main.go] is that of [mobile.go] unless it finds the URI. *)
Definition grantsURI (uri : string) (op : Op) : bool :=
  bool_decide (Entity op = PermissionEntityCustomURI)
  && bool_decide (uri ∈ Actions op).

Lemma wasm_addActions_spec uri e actions m :
  wasm_addActions uri e actions m =
  if bool_decide (e = PermissionEntityCustomURI) && bool_decide (uri ∈ actions)
  then None else Some (fold_left (addAction e) actions m).
Proof using.
  revert m. induction actions as [|a l IH]; intros m; cbn [wasm_addActions].
  { by rewrite andb_false_r. }
  rewrite IH. destruct (bool_decide (e = _)); [|done]. cbn [andb fold_left].
  destruct (decide (a = uri)) as [->|Hne].
  - rewrite (bool_decide_eq_true_2 (uri = uri)) by done.
    by rewrite (bool_decide_eq_true_2 (uri ∈ uri :: l)) by left.
  - rewrite (bool_decide_eq_false_2 (a = uri)) by done.
    rewrite (bool_decide_ext (uri ∈ a :: l) (uri ∈ l)); [done|].
    rewrite elem_of_cons. split; [by intros [->|?]|by right].
Qed.

Lemma wasm_addOps_spec uri ops m :
  wasm_addOps uri ops m =
  if existsb (grantsURI uri) ops then None else Some (fold_left addOp ops m).
Proof using.
  revert m. induction ops as [|op ops IH]; intros m; [done|].
  cbn [wasm_addOps existsb fold_left]. rewrite wasm_addActions_spec.
  unfold grantsURI at 1. destruct (bool_decide _ && bool_decide _); [done|].
  cbn [mbind option_bind orb]. apply IH.
Qed.

End Check.

(** ** Properties *)

(** C16: the permission check.  With each entity named once, the lookup tables of
    [hasPermissions] decide exactly whether every required operation is among
    the macaroon's.  In general only the last operation of an entity counts, so
    the check never grants more than the macaroon holds.  The browser's check is
    the mobile one, and also grants an RPC whose URI the macaroon lists. *)
Theorem permission_check `{Macaroons} uri ops req :
  (hasPermissions ops req = true ↔
     ∀ r, r ∈ req → ∃ op, lastOp (r_Entity r) ops = Some op ∧ r_Action r ∈ Actions op)
  ∧ (hasPermissions ops req = true →
     ∀ r, r ∈ req → ∃ op, op ∈ ops ∧ Entity op = r_Entity r ∧ r_Action r ∈ Actions op)
  ∧ (NoDup (Entity <$> ops) →
     (∀ r, r ∈ req → ∃ op, op ∈ ops ∧ Entity op = r_Entity r ∧ r_Action r ∈ Actions op) →
     hasPermissions ops req = true)
  ∧ wasm_hasPermissions uri ops req = existsb (grantsURI uri) ops || hasPermissions ops req.
Proof.
  split_and!.
  - apply hasPermissions_last.
  - rewrite hasPermissions_last. intros Hall r Hr.
    destruct (Hall r Hr) as (op & Hl & Ha). apply lastOp_in in Hl as [? ?]. eauto.
  - intros Hnd Hall. apply hasPermissions_last. intros r Hr.
    destruct (Hall r Hr) as (op & Hin & <- & Ha). eauto using lastOp_unique.
  - unfold wasm_hasPermissions. rewrite wasm_addOps_spec. by destruct (existsb _ _).
Qed.

(** ** A small instance *)

Definition toyMacaroons : Macaroons := {|
  Macaroon := bytes;
  UnmarshalBinary b := Ok b;
  mac_Id m := m;
  ExpiryTime _ := Some 1700000000;
  unmarshalOps b := Ok [mkOp "onchain" ["read"]; mkOp "uri" ["/lnrpc.State/GetState"]];
  LatestVersion := 3;
  PermissionEntityCustomURI := "uri";
  PermsManager := unit;
  NewManager := Ok tt;
  RegisterSubServer _ mgr := mgr;
  URIPermissions uri _ :=
    if bool_decide (uri = "/lnrpc.Lightning/WalletBalance")
    then Some [mkRequired "onchain" "read"] else None
|}.

Lemma isReadOnly_spec ops op a :
  isReadOnly ops = true → op ∈ ops → a ∈ Actions op → a = "read".
Proof.
  unfold isReadOnly. rewrite forallb_forall. intros Hall Hop Ha.
  specialize (Hall op (proj1 (list_elem_of_In _ _) Hop)).
  rewrite forallb_forall in Hall.
  apply (bool_decide_eq_true (a = "read")), Hall. by apply list_elem_of_In.
Qed.
