(* ===== verification/Addresses.v ===== *)
(** * Addresses ([mailbox/interface.go], [mailbox/grpc_noise_conn.go],
    [mailbox/server.go])

    The [net.Addr] values of the connections, and that they identify what they
    name: the mailboxes of a session and the key of a noise connection. *)

From stdpp Require Import base numbers list strings pretty tactics.
From Stdlib Require Import Ascii.
From S2P Require Import Prelude Messages NoiseState NoiseHandshake NoiseTransport.
From S2P Require Import GbnConn Mailbox Permissions.

Definition ProtocolName : string := "XXeke_secp256k1+SPAKE2_CHACHAPOLY1305_SHA256".

Record Addr := mkAddr { a_SID : bytes; a_Server : string }.

Definition Addr_Network (a : Addr) : string := "mailbox".

(** [fmt.Sprintf("%s:%x@%s", ...)]. *)
Definition Addr_String (a : Addr) : string :=
  Addr_Network a +:+ ":" +:+ EncodeToString (a_SID a) +:+ "@" +:+ a_Server a.

(** The addresses of the mailbox connection over the server [serverAddr], and
    of the listener for session [sid]. *)
Definition connKit_LocalAddr (serverAddr : string) (k : connKit) : Addr :=
  mkAddr (sendSID k) serverAddr.
Definition connKit_RemoteAddr (serverAddr : string) (k : connKit) : Addr :=
  mkAddr (receiveSID k) serverAddr.
Definition Server_Addr (serverHost : string) (sid : bytes) : Addr :=
  mkAddr sid serverHost.

Section Noise.
Context `{Crypto}.

Record NoiseAddr := mkNoiseAddr { na_PubKey : option PublicKey; na_Server : string }.

Definition NoiseAddr_Network (a : NoiseAddr) : string := "noise".

Definition NoiseAddr_String (a : NoiseAddr) : string :=
  match na_PubKey a with
  | Some key =>
      NoiseAddr_Network a +:+ ":" +:+ EncodeToString (SerializeCompressed key)
      +:+ "@" +:+ na_Server a
  | None => NoiseAddr_Network a +:+ "@" +:+ na_Server a
  end.

(** [proxy] is the underlying mailbox connection, nil before the handshake. *)
Definition grpc_LocalAddr (c : NoiseGrpcConn) (serverAddr : string)
    (proxy : option connKit) : NoiseAddr :=
  let key := Some (PubKey (localKey (gc_connData c))) in
  match proxy with
  | None => mkNoiseAddr key ""
  | Some k => mkNoiseAddr key (Addr_String (connKit_LocalAddr serverAddr k))
  end.

Definition grpc_RemoteAddr (c : NoiseGrpcConn) (serverAddr : string)
    (proxy : option connKit) : NoiseAddr :=
  let key := remoteKey (gc_connData c) in
  match proxy with
  | None => mkNoiseAddr key ""
  | Some k => mkNoiseAddr key (Addr_String (connKit_RemoteAddr serverAddr k))
  end.

End Noise.

(** [Info]: the protocol version, the security protocol and the server name. *)
Definition Info : string * string * string :=
  (pretty ProtocolVersion, ProtocolName, "lnd").

(** ** Lemmas *)

Lemma hex_length b : String.length (EncodeToString b) = (2 * length b)%nat.
Proof. induction b as [|x b IH]; [done|]. simpl. rewrite IH. lia. Qed.

Lemma string_app_split (a b x y : string) :
  String.length a = String.length b → a +:+ x = b +:+ y → a = b ∧ x = y.
Proof.
  revert b. induction a as [|c a IH]; intros [|d b] Hl; try done.
  simpl in Hl. injection Hl as Hl. rewrite !String_app. intros [= -> Heq].
  by destruct (IH b Hl Heq) as [-> ->].
Qed.

Lemma string_app_cancel (a x y : string) : a +:+ x = a +:+ y → x = y.
Proof. intros Heq. by apply string_app_split in Heq as [_ ?]. Qed.

Lemma hex_inj b b' : Forall is_u8 b → Forall is_u8 b' →
  EncodeToString b = EncodeToString b' → b = b'.
Proof.
  intros Hb Hb' Heq. apply (f_equal DecodeString) in Heq.
  rewrite !DecodeString_EncodeToString in Heq by done. congruence.
Qed.

(** A hexadecimal field of known length and the server after it. *)
Lemma hex_field_inj net b b' s s' :
  Forall is_u8 b → Forall is_u8 b' → length b = length b' →
  net +:+ ":" +:+ EncodeToString b +:+ "@" +:+ s
  = net +:+ ":" +:+ EncodeToString b' +:+ "@" +:+ s' → b = b' ∧ s = s'.
Proof.
  intros Hb Hb' Hl Heq. do 2 apply string_app_cancel in Heq.
  apply string_app_split in Heq as [Hx Hs]; [|by rewrite !hex_length, Hl].
  apply string_app_cancel in Hs. by split; [apply hex_inj|].
Qed.

(** A noise address without a key, or with a key that is a point of the curve
    and serializes to bytes. *)
Definition addr_key `{Crypto} (a : NoiseAddr) : Prop :=
  match na_PubKey a with
  | Some key => key ≠ infinity ∧ Forall is_u8 (SerializeCompressed key)
  | None => True
  end.

(** Addresses identify what they name.  Mailbox addresses print alike only
    when session id and server are equal, noise addresses only when key and
    server are, and no address of one kind prints like one of the other.  On a
    session, the local address of each end of the mailbox connection is the
    remote address of the other, and the two differ. *)
Theorem addresses_identify `{CryptoLaws} sid host kc ks :
  length sid = 64%nat →
  clientSIDs sid = Ok (receiveSID kc, sendSID kc) →
  serverSIDs sid = Ok (receiveSID ks, sendSID ks) →
  (∀ a b, Forall is_u8 (a_SID a) → Forall is_u8 (a_SID b) →
     length (a_SID a) = 64%nat → length (a_SID b) = 64%nat →
     Addr_String a = Addr_String b → a = b)
  ∧ (∀ a b, addr_key a → addr_key b →
       NoiseAddr_String a = NoiseAddr_String b → a = b)
  ∧ (∀ a b, Addr_String a ≠ NoiseAddr_String b)
  ∧ connKit_LocalAddr host kc = connKit_RemoteAddr host ks
  ∧ connKit_RemoteAddr host kc = connKit_LocalAddr host ks
  ∧ connKit_LocalAddr host kc ≠ connKit_RemoteAddr host kc
  ∧ connKit_RemoteAddr host kc = Server_Addr host sid.
Proof.
  intros Hl Hc Hs. destruct (GetSID_false sid Hl) as (b & Hb & Hg).
  unfold clientSIDs, serverSIDs in *. rewrite Hg in *. revert Hc Hs. mstep.
  intros [= Hc1 Hc2] [= Hs1 Hs2]. split_and!.
  - intros [x s] [y t]. simpl. intros Hx Hy Lx Ly Heq.
    apply (hex_field_inj "mailbox" x y s t) in Heq as [-> ->]; try done. congruence.
  - intros [[p|] s] [[q|] t]; unfold NoiseAddr_String, addr_key; simpl;
      intros Hp Hq Heq.
    + pose proof (serialize_length p). pose proof (serialize_length q).
      destruct Hp as [Hp1 Hp2], Hq as [Hq1 Hq2].
      apply (hex_field_inj "noise") in Heq as [Hk ->]; try done;
        [|unfold len in *; lia].
      apply (f_equal ParsePubKey) in Hk. rewrite !parse_serialize in Hk by done.
      congruence.
    + by apply string_app_cancel in Heq.
    + by apply string_app_cancel in Heq.
    + do 2 apply string_app_cancel in Heq. by subst.
  - intros a [[p|] s]; unfold Addr_String, NoiseAddr_String; simpl; done.
  - unfold connKit_LocalAddr, connKit_RemoteAddr. congruence.
  - unfold connKit_LocalAddr, connKit_RemoteAddr. congruence.
  - unfold connKit_LocalAddr, connKit_RemoteAddr. intros [= Heq].
    rewrite <- Hc1, <- Hc2 in Heq. apply (f_equal (.!! 63%nat)) in Heq.
    rewrite list_lookup_insert_eq, Hb in Heq by lia.
    injection Heq as Heq. by apply (lxor_1_neq b).
  - unfold connKit_RemoteAddr, Server_Addr. congruence.
Qed.

Definition demoAddrKit (r s : bytes) : connKit :=
  mkConnKit (newGoBackNConn (newConfig 20)) 0 0 r s [].

Lemma addresses_identify_witness : let _ := toyCrypto in
  let sid := replicate 64 3 in let other := replicate 63 3 ++ [2] in
  connKit_LocalAddr "host" (demoAddrKit sid other)
  = connKit_RemoteAddr "host" (demoAddrKit other sid).
Proof.
  intros tc sid other.
  apply (@addresses_identify toyCrypto toy_laws sid "host" (demoAddrKit sid other)
           (demoAddrKit other sid)).
  - reflexivity.
  - reflexivity.
  - reflexivity.
Defined.
