(* ===== verification/Nums.v ===== *)
(** * The generator of the constant N ([mailbox/numsgen/main.go])

    The command that derived the point [N] of the handshake by try and
    increment, the constant of [mailbox/noise.go], and the check that the one
    is the output of the other. *)

From stdpp Require Import base numbers list strings tactics.
From Stdlib Require Import Ascii.
From Bignums Require BigZ.
From S2P Require Import Prelude Sha2 NoiseState Permissions.

Definition bytesOfString (s : string) : bytes :=
  (λ c, Z.of_N (N_of_ascii c)) <$> String.list_ascii_of_string s.

Definition defaultSeedPhrase : string := "Lightning Node Connect".

(** [h(i || seedPhrase)]; the counter is written as a [uint64]. *)
Definition increment (seedPhrase : bytes) (i : Z) : bytes :=
  sha256 (bytesOf 8 (i mod 2 ^ 64) ++ seedPhrase).

Section Main.
Context `{Crypto}.

(** The 33 bytes of a candidate: an even y coordinate, the hash as x. *)
Definition candidate (seedPhrase : bytes) (i : Z) : bytes :=
  copy (replicate 33 0) (2 :: increment seedPhrase i).

(** The loop of [main] on a phrase without surrounding white space: the bytes
    printed last; [None] when the fuel runs out. *)
Fixpoint generate (fuel : nat) (seedPhrase : bytes) (i : Z) : option bytes :=
  match fuel with
  | O => None
  | S fuel =>
      match ParsePubKey (candidate seedPhrase i) with
      | Ok candidatePoint => Some (SerializeCompressed candidatePoint)
      | _ => generate fuel seedPhrase (i + 1)
      end
  end.

End Main.

(** [nBytes] of [noise.go]. *)
Definition nBytes : result bytes :=
  DecodeString "0254a58cd0f31c008fd0bc9b2dd5ba586144933829f6da33ac4130b555fb5ea32c".

(** ** The curve

    What [btcec] documents of compressed keys: [y^2 = x^3 + 7] over the field
    of [secpP] elements.  The prime is 3 modulo 4, so the only candidate for a
    square root of [a] is [a^((p+1)/4)]. *)

Definition secpP : Z :=
  115792089237316195423570985008687907853269984665640564039457584007908834671663.

Fixpoint powMod (a : Z) (k : positive) : Z :=
  match k with
  | xH => a mod secpP
  | xO k => let r := powMod a k in (r * r) mod secpP
  | xI k => let r := powMod a k in (((r * r) mod secpP) * a) mod secpP
  end.

Definition isX (x : Z) : bool :=
  let a := (x * x * x + 7) mod secpP in
  let y := powMod a (Z.to_pos ((secpP + 1) / 4)) in
  (x <? secpP) && ((y * y) mod secpP =? a).

(** The big-endian number of the bytes. *)
Definition numberOf (b : bytes) : Z := fold_left (λ acc x, acc * 256 + x) b 0.

Class SecpLaws `{Crypto} : Prop := {
  parse_even x : length x = 32%nat → isX (numberOf x) = true →
    ∃ p, ParsePubKey (2 :: x) = Ok p ∧ SerializeCompressed p = 2 :: x;
  parse_off_curve x : length x = 32%nat → isX (numberOf x) = false →
    ∃ e, ParsePubKey (2 :: x) = Err e
}.

(** ** Lemmas *)

Lemma round_length c st kw : length (round c st kw) = length st.
Proof. unfold round. by repeat case_match. Qed.

Lemma rounds_length c kws st : length (fold_left (round c) kws st) = length st.
Proof.
  revert st. induction kws as [|kw kws IH]; intros st; [done|].
  simpl. by rewrite IH, round_length.
Qed.

Lemma blocks_length c k st b : length (blocks c k st b) = length st.
Proof.
  revert st b. induction k as [|k IH]; intros st b; [done|].
  cbn [blocks]. rewrite IH. unfold block.
  rewrite length_zip_with, rounds_length. lia.
Qed.

Lemma words_length k (ws : list Z) :
  length (mjoin (bytesOf k <$> ws)) = (length ws * k)%nat.
Proof.
  induction ws as [|x ws IH]; [done|].
  change (mjoin (bytesOf k <$> x :: ws)) with (bytesOf k x ++ mjoin (bytesOf k <$> ws)).
  rewrite length_app, IH, bytesOf_length. simpl. lia.
Qed.

Lemma increment_length s i : length (increment s i) = 32%nat.
Proof.
  unfold increment, sha256, digest. by rewrite words_length, blocks_length.
Qed.

Lemma candidate_bytes s i : candidate s i = 2 :: increment s i.
Proof.
  unfold candidate, copy. pose proof (increment_length s i) as Hl.
  rewrite firstn_all2 by (simpl; lia). rewrite drop_ge by (simpl; lia).
  by rewrite app_nil_r.
Qed.

(** [isX] on machine words, for evaluation. *)
Fixpoint powModB (p a : BigZ.bigZ) (k : positive) : BigZ.bigZ :=
  match k with
  | xH => BigZ.BigZ.modulo a p
  | xO k => let r := powModB p a k in BigZ.BigZ.modulo (BigZ.BigZ.mul r r) p
  | xI k => let r := powModB p a k in
            BigZ.BigZ.modulo (BigZ.BigZ.mul (BigZ.BigZ.modulo (BigZ.BigZ.mul r r) p) a) p
  end.

Definition isXB (x : Z) : bool :=
  let a := (x * x * x + 7) mod secpP in
  let y := BigZ.BigZ.to_Z (powModB (BigZ.BigZ.of_Z secpP) (BigZ.BigZ.of_Z a)
                             (Z.to_pos ((secpP + 1) / 4))) in
  (x <? secpP) && ((y * y) mod secpP =? a).

Lemma powModB_spec a k :
  BigZ.BigZ.to_Z (powModB (BigZ.BigZ.of_Z secpP) (BigZ.BigZ.of_Z a) k) = powMod a k.
Proof.
  induction k as [k IH|k IH|]; cbn [powModB powMod];
    rewrite ?BigZ.BigZ.spec_modulo, ?BigZ.BigZ.spec_mul, ?BigZ.BigZ.spec_modulo,
      ?BigZ.BigZ.spec_mul, ?BigZ.BigZ.spec_of_Z, ?IH; done.
Qed.

Lemma isXB_spec x : isX x = isXB x.
Proof. unfold isX, isXB. by rewrite powModB_spec. Qed.

(** The loop stops at the first counter whose hash is an x coordinate. *)
Lemma generate_first `{SecpLaws} s k i :
  isX (numberOf (increment s (i + Z.of_nat k))) = true →
  (∀ j, (j < k)%nat → isX (numberOf (increment s (i + Z.of_nat j))) = false) →
  generate (S k) s i = Some (2 :: increment s (i + Z.of_nat k)).
Proof.
  revert i. induction k as [|k IH]; intros i Hx Hno; cbn [generate];
    rewrite candidate_bytes.
  - replace (i + Z.of_nat 0) with i in * by lia.
    destruct (parse_even (increment s i)) as (p & -> & <-); try done.
    apply increment_length.
  - destruct (parse_off_curve (increment s i)) as (e & ->).
    { apply increment_length. }
    { replace i with (i + Z.of_nat 0) by lia. apply Hno. lia. }
    replace (i + Z.of_nat (S k)) with (i + 1 + Z.of_nat k) in * by lia.
    apply IH; [done|]. intros j Hj.
    replace (i + 1 + Z.of_nat j) with (i + Z.of_nat (S j)) by lia. apply Hno. lia.
Qed.

(** C31: the point of the handshake is the one the generator prints.  For any
    seed phrase the loop stops at the first counter whose hash is the x
    coordinate of a point, with the even point of that coordinate; for the
    phrase "Lightning Node Connect" this happens at the second attempt and
    prints the constant of [noise.go], so that its discrete logarithm is
    nobody's choice. *)
Theorem nums_constant `{SecpLaws} :
  (∀ s k, isX (numberOf (increment s (Z.of_nat k))) = true →
     (∀ j, (j < k)%nat → isX (numberOf (increment s (Z.of_nat j))) = false) →
     generate (S k) s 0 = Some (2 :: increment s (Z.of_nat k)))
  ∧ ∃ b, nBytes = Ok b ∧ generate 2 (bytesOfString defaultSeedPhrase) 0 = Some b.
Proof.
  split.
  - intros s k Hx Hno. by apply (generate_first s k 0).
  - eexists. split; [vm_compute; reflexivity|].
    rewrite (generate_first _ 1 0); [vm_compute; reflexivity| |].
    + rewrite isXB_spec. vm_compute. reflexivity.
    + intros j Hj. replace j with 0%nat by lia. rewrite isXB_spec.
      vm_compute. reflexivity.
Qed.

(** Keys kept as their serialization satisfy the laws. *)
Definition byteKeys : Crypto := {|
  PublicKey := bytes;
  SingleKeyECDH := bytes;
  infinity := [];
  pointAdd p q := p;
  pointNeg p := p;
  scalarMult _ p := p;
  setByteSlice := numberOf;
  pointN := [];
  SerializeCompressed p := p;
  ParsePubKey b := match b with
                   | x :: r => if isX (numberOf r) then Ok b else Err EOF
                   | [] => Err EOF
                   end;
  PubKey k := k;
  ECDH _ p := Ok p;
  hkdf s _ := s;
  Seal _ _ m _ := m;
  Open _ _ c _ := Ok c;
  scryptKey b _ _ _ _ _ := Ok b
|}.

Lemma byteKeys_laws : @SecpLaws byteKeys.
Proof.
  constructor; intros x _ Hx; cbn [ParsePubKey SerializeCompressed byteKeys];
    rewrite Hx; eauto.
Qed.

Lemma nums_constant_witness : let _ := byteKeys in
  ∃ b, nBytes = Ok b ∧ generate 2 (bytesOfString defaultSeedPhrase) 0 = Some b.
Proof. intros bk. apply (@nums_constant byteKeys byteKeys_laws). Defined.
