(* ===== verification/Mobile.v ===== *)
(** * The mobile bindings ([mobile/mobile.go])

    A table of clients, one per namespace, that native code drives by name.
    Clients are shared with the goroutines that connect them, so the table maps
    a namespace to an address and the clients live in a heap: a second
    [InitLNC] of a namespace replaces the table entry, not the old client. *)

From stdpp Require Import base numbers list gmap strings tactics.
From Stdlib Require Import Ascii.
From S2P Require Import Prelude NoiseState NoiseHandshake NoiseTransport Mailbox.
From S2P Require Import MailboxConn Pairing Lifecycle CreateConn Permissions.

(** [String] of a [ClientStatus]. *)
Definition statusString (s : ClientStatus) : string :=
  match s with
  | ClientStatusNotConnected => "Not Connected"
  | ClientStatusSessionNotFound => "Session Not Found"
  | ClientStatusSessionInUse => "Session In Use"
  | ClientStatusConnected => "Connected"
  end.

(** [string(rune(x))] of a 64-bit [x]: the conversion to [rune] keeps 32 bits,
    and a value that is no code point becomes U+FFFD. *)
Definition chr (x : Z) : ascii := ascii_of_N (Z.to_N x).
Definition replacementChar : string :=
  String (chr 239) (String (chr 191) (String (chr 189) "")).

Definition stringOfRune (x : Z) : string :=
  let r := sint 32 x in
  if (r <? 0) || (1114111 <? r) || ((55296 <=? r) && (r <=? 57343))
  then replacementChar
  else if r <? 128 then String (chr r) ""
  else if r <? 2048
  then String (chr (192 + r / 64)) (String (chr (128 + r mod 64)) "")
  else if r <? 65536
  then String (chr (224 + r / 4096)) (String (chr (128 + r / 64 mod 64))
         (String (chr (128 + r mod 64)) ""))
  else String (chr (240 + r / 262144)) (String (chr (128 + r / 4096 mod 64))
         (String (chr (128 + r / 64 mod 64)) (String (chr (128 + r mod 64)) ""))).

Create HintDb quiet.

Section Mobile.
Context {CR : Crypto} {NK : NativeKeys} {MN : Mnemonics} {MC : Macaroons}.

(** ** State

    A native callback is the number of its object, a gRPC connection the number
    of the set-up it was dialled with. *)

Record mobileClient := mkMobileClient {
  lndConn : option nat;
  statusChecker : option nat;
  mac : option Macaroon;
  localPrivCreateCallback : option nat;
  remoteKeyReceiveCallback : option nat;
  authDataCallback : option nat
}.

Definition newMobileClient : mobileClient :=
  mkMobileClient None None None None None None.

Definition set_lndConn v (s : mobileClient) : mobileClient :=
  mkMobileClient v (statusChecker s) (mac s) (localPrivCreateCallback s)
    (remoteKeyReceiveCallback s) (authDataCallback s).
Definition set_statusChecker v (s : mobileClient) : mobileClient :=
  mkMobileClient (lndConn s) v (mac s) (localPrivCreateCallback s)
    (remoteKeyReceiveCallback s) (authDataCallback s).
Definition set_mac v (s : mobileClient) : mobileClient :=
  mkMobileClient (lndConn s) (statusChecker s) v (localPrivCreateCallback s)
    (remoteKeyReceiveCallback s) (authDataCallback s).
Definition set_localPrivCreateCallback v (s : mobileClient) : mobileClient :=
  mkMobileClient (lndConn s) (statusChecker s) (mac s) v
    (remoteKeyReceiveCallback s) (authDataCallback s).
Definition set_remoteKeyReceiveCallback v (s : mobileClient) : mobileClient :=
  mkMobileClient (lndConn s) (statusChecker s) (mac s)
    (localPrivCreateCallback s) v (authDataCallback s).
Definition set_authDataCallback v (s : mobileClient) : mobileClient :=
  mkMobileClient (lndConn s) (statusChecker s) (mac s)
    (localPrivCreateCallback s) (remoteKeyReceiveCallback s) v.

(** The goroutines the API starts: [ConnectServer]'s before [getClient], before
    it stores the status checker and in [lndConnect]; an RPC before the call
    and after it, waiting for a context that is never done. *)
Inductive goroutine :=
| GConnect (nameSpace mailboxServer pairingPhrase : string) (priv : SingleKeyECDH)
    (remote : option PublicKey)
| GStatus (p c : nat)
| GDial (p c : nat)
| GRPC (p : nat) (rpcName requestJSON : string) (c : nat)
| GWait.

(** The package's variables, the heap of clients, and what the outside sees:
    results sent to callbacks, connections closed, RPC methods called. *)
Record mobile := mkMobile {
  permsMgr : option PermsManager;
  registry : list string;
  interceptorLogsInitialize : bool;
  interceptions : nat;
  heap : list mobileClient;
  m : gmap string nat;
  conns : list (websocketConn * nat);
  goroutines : list goroutine;
  skipVerify : bool;
  results : list (nat * string);
  closedConns : list nat;
  invoked : list (option nat * string * string * nat)
}.

Definition mobile0 : mobile := mkMobile None [] false 0 [] ∅ [] [] false [] [] [].

Definition set_permsMgr v (s : mobile) : mobile :=
  mkMobile v (registry s) (interceptorLogsInitialize s) (interceptions s)
    (heap s) (m s) (conns s) (goroutines s) (skipVerify s) (results s)
    (closedConns s) (invoked s).
Definition set_registry v (s : mobile) : mobile :=
  mkMobile (permsMgr s) v (interceptorLogsInitialize s) (interceptions s)
    (heap s) (m s) (conns s) (goroutines s) (skipVerify s) (results s)
    (closedConns s) (invoked s).
Definition set_interceptorLogsInitialize v (s : mobile) : mobile :=
  mkMobile (permsMgr s) (registry s) v (interceptions s) (heap s) (m s)
    (conns s) (goroutines s) (skipVerify s) (results s) (closedConns s)
    (invoked s).
Definition set_interceptions v (s : mobile) : mobile :=
  mkMobile (permsMgr s) (registry s) (interceptorLogsInitialize s) v (heap s)
    (m s) (conns s) (goroutines s) (skipVerify s) (results s) (closedConns s)
    (invoked s).
Definition set_heap v (s : mobile) : mobile :=
  mkMobile (permsMgr s) (registry s) (interceptorLogsInitialize s)
    (interceptions s) v (m s) (conns s) (goroutines s) (skipVerify s)
    (results s) (closedConns s) (invoked s).
Definition set_m v (s : mobile) : mobile :=
  mkMobile (permsMgr s) (registry s) (interceptorLogsInitialize s)
    (interceptions s) (heap s) v (conns s) (goroutines s) (skipVerify s)
    (results s) (closedConns s) (invoked s).
Definition set_conns v (s : mobile) : mobile :=
  mkMobile (permsMgr s) (registry s) (interceptorLogsInitialize s)
    (interceptions s) (heap s) (m s) v (goroutines s) (skipVerify s)
    (results s) (closedConns s) (invoked s).
Definition set_goroutines v (s : mobile) : mobile :=
  mkMobile (permsMgr s) (registry s) (interceptorLogsInitialize s)
    (interceptions s) (heap s) (m s) (conns s) v (skipVerify s) (results s)
    (closedConns s) (invoked s).
Definition set_skipVerify v (s : mobile) : mobile :=
  mkMobile (permsMgr s) (registry s) (interceptorLogsInitialize s)
    (interceptions s) (heap s) (m s) (conns s) (goroutines s) v (results s)
    (closedConns s) (invoked s).
Definition set_results v (s : mobile) : mobile :=
  mkMobile (permsMgr s) (registry s) (interceptorLogsInitialize s)
    (interceptions s) (heap s) (m s) (conns s) (goroutines s) (skipVerify s) v
    (closedConns s) (invoked s).
Definition set_closedConns v (s : mobile) : mobile :=
  mkMobile (permsMgr s) (registry s) (interceptorLogsInitialize s)
    (interceptions s) (heap s) (m s) (conns s) (goroutines s) (skipVerify s)
    (results s) v (invoked s).
Definition set_invoked v (s : mobile) : mobile :=
  mkMobile (permsMgr s) (registry s) (interceptorLogsInitialize s)
    (interceptions s) (heap s) (m s) (conns s) (goroutines s) (skipVerify s)
    (results s) (closedConns s) v.

(** [signal.Intercept] after so many successful calls, [ParseAndSetDebugLevels],
    and the names of the RPC methods [litrpc.Registrations] register. *)
Context (Intercept : nat → option error) (ParseAndSetDebugLevels : string → option error)
  (Registrations : list string).

(** ** Operations *)

Definition getClient (nameSpace : string) : M mobile nat := λ s,
  match m s !! nameSpace with
  | Some p => (Ok p, s)
  | None => (Err (ErrMsg ("unknown namespace: " +:+ nameSpace)), s)
  end.

(** [getClient] as the API functions call it. *)
Definition theClient (nameSpace : string) : M mobile nat := λ s,
  match getClient nameSpace s with
  | (Err e, s) => (Err (ErrWrap "error getting client: " e), s)
  | r => r
  end.

(** A field of the client at address [p], and an assignment to it. *)
Definition field {A} (p : nat) (f : mobileClient → A) : M mobile A := λ s,
  match heap s !! p with
  | Some mc => (Ok (f mc), s)
  | None => (Panic NilDereference, s)
  end.

Definition assign (p : nat) (f : mobileClient → mobileClient) : M mobile unit :=
  modify (λ s, set_heap (alter f p (heap s)) s).

Definition go (g : goroutine) : M mobile unit :=
  modify (λ s, set_goroutines (goroutines s ++ [g]) s).

(** [c.SendResult(json)] on an interface that may be nil. *)
Definition SendResult (c : option nat) (json : string) : M mobile unit :=
  match c with
  | None => liftR (Panic NilDereference)
  | Some c => modify (λ s, set_results (results s ++ [(c, json)]) s)
  end.

Definition mobile_initGlobals : M mobile unit := λ s,
  match permsMgr s with
  | Some _ => (Ok tt, s)
  | None =>
      match NewManager with
      | Ok mgr => (Ok tt, set_permsMgr (Some mgr) s)
      | Err e => (Err e, s)
      | Panic p => (Panic p, s)
      end
  end.

(** The part of [InitLNC] that runs until it has succeeded once. *)
Definition initLogs (debugLevel : string) : M mobile unit :=
  done ← gets interceptorLogsInitialize;
  if (done : bool) then mret tt else
  let debugLevel := if bool_decide (debugLevel = "") then "info" else debugLevel in
  k ← gets interceptions;
  match Intercept k with
  | Some e => failM e
  | None =>
      _ ← modify (set_interceptions (S k));
      match ParseAndSetDebugLevels debugLevel with
      | Some e => failM e
      | None =>
          _ ← modify (λ s, set_registry (registry s ++ Registrations) s);
          modify (set_interceptorLogsInitialize true)
      end
  end.

Definition InitLNC (nameSpace debugLevel : string) : M mobile unit :=
  if bool_decide (nameSpace = "") then failM (ErrMsg "no namespace specified") else
  _ ← mobile_initGlobals;
  _ ← initLogs debugLevel;
  modify (λ s, set_m (<[nameSpace := length (heap s)]> (m s))
                 (set_heap (heap s ++ [newMobileClient]) s)).

Definition mobile_validateArgs (mailboxServer localPrivKey remotePubKey : string) :
    result unit :=
  if bool_decide (mailboxServer = "")
  then Err (ErrMsg "invalid use of ConnectServer, need parameter mailboxServer")
  else if bool_decide (remotePubKey ≠ "") && bool_decide (localPrivKey = "")
  then Err (ErrMsg "cannot set remote pub key if local priv key is not also set")
  else Ok tt.

(** [parseKeys]; [newKey] is the outcome of [btcec.NewPrivateKey]. *)
Definition mobile_parseKeys (newKey : result SingleKeyECDH)
    (nameSpace localPrivKey remotePubKey : string) :
    M mobile (SingleKeyECDH * option PublicKey) :=
  p ← theClient nameSpace;
  if bool_decide (localPrivKey = "") && bool_decide (remotePubKey = "") then
    privKey ← liftR newKey;
    c ← field p localPrivCreateCallback;
    _ ← SendResult c (EncodeToString (privSerialize privKey));
    mret (privKey, None)
  else if bool_decide (remotePubKey = "") then
    privKeyByte ← liftR (DecodeString localPrivKey);
    mret (PrivKeyFromBytes privKeyByte, None)
  else
    localPrivKeyBytes ← liftR (DecodeString localPrivKey);
    remoteKeyBytes ← liftR (DecodeString remotePubKey);
    remoteStaticKey ← liftR (ParsePubKey remoteKeyBytes);
    mret (PrivKeyFromBytes localPrivKeyBytes, Some remoteStaticKey).

Definition ConnectServer (newKey : result SingleKeyECDH)
    (nameSpace mailboxServer : string) (isDevServer : bool)
    (pairingPhrase localStatic remoteStatic : string) : M mobile unit :=
  _ ← liftR (mobile_validateArgs mailboxServer localStatic remoteStatic);
  keys ← mobile_parseKeys newKey nameSpace localStatic remoteStatic;
  _ ← (if isDevServer then modify (set_skipVerify true) else mret tt);
  go (GConnect nameSpace mailboxServer pairingPhrase keys.1 keys.2).

(** The callbacks of [ConnectServer]'s connection, for the client at [p]. *)
Definition onRemoteKey (p : nat) (key : option PublicKey) : M mobile unit :=
  c ← field p remoteKeyReceiveCallback;
  match key with
  | None => liftR (Panic NilDereference)
  | Some key => SendResult c (EncodeToString (SerializeCompressed key))
  end.

Definition onAuth (p : nat) (data : bytes) : M mobile unit :=
  mac ← liftR (parseAuthData data);
  _ ← assign p (set_mac (Some mac));
  c ← field p authDataCallback;
  SendResult c (stringOfBytes data).

(** The next step of a goroutine, and the goroutine it has become; [dialled] is
    the outcome of [lndConnect].  The connection data only store the callbacks,
    whose effects are [onRemoteKey] and [onAuth]. *)
Definition goStep (dialled : result unit) (g : goroutine) :
    M mobile (option goroutine) :=
  match g with
  | GConnect nameSpace mailboxServer pairingPhrase priv remote => λ s,
      match getClient nameSpace s with
      | (Ok p, s) =>
          match NewClientWebsocketConn mailboxServer pairingPhrase priv remote
                  (λ _, Ok tt)
                  (λ d, _ ← parseAuthData (default [] d); Ok tt) with
          | Ok c => (Ok (Some (GStatus p (length (conns s)))),
                     set_conns (conns s ++ [(c, p)]) s)
          | Err e => (Ok None, s)
          | Panic p => (Panic p, s)
          end
      | (_, s) => (Ok None, s)
      end
  | GStatus p c => _ ← assign p (set_statusChecker (Some c)); mret (Some (GDial p c))
  | GDial p c =>
      match dialled with
      | Ok _ => _ ← assign p (set_lndConn (Some c)); mret None
      | Err e => mret None
      | Panic x => liftR (Panic x)
      end
  | GRPC p rpcName requestJSON c =>
      conn ← field p lndConn;
      _ ← modify (λ s, set_invoked (invoked s ++ [(conn, rpcName, requestJSON, c)]) s);
      mret (Some GWait)
  | GWait => mret (Some GWait)
  end.

Definition IsConnected (nameSpace : string) : M mobile bool :=
  p ← theClient nameSpace;
  conn ← field p lndConn;
  mret (bool_decide (conn ≠ None)).

Definition Disconnect (nameSpace : string) : M mobile unit :=
  p ← theClient nameSpace;
  conn ← field p lndConn;
  match conn with
  | None => mret tt
  | Some c =>
      _ ← modify (λ s, set_closedConns (closedConns s ++ [c]) s);
      assign p (set_lndConn None)
  end.

(** [Status]; [status] is what each connection's checker returns now. *)
Definition Status (status : nat → ClientStatus) (nameSpace : string) : M mobile string :=
  p ← theClient nameSpace;
  checker ← field p statusChecker;
  mret (match checker with None => "" | Some c => statusString (status c) end).

Definition RegisterLocalPrivCreateCallback (nameSpace : string) (c : option nat) :
    M mobile unit :=
  p ← theClient nameSpace; assign p (set_localPrivCreateCallback c).

Definition RegisterRemoteKeyReceiveCallback (nameSpace : string) (c : option nat) :
    M mobile unit :=
  p ← theClient nameSpace; assign p (set_remoteKeyReceiveCallback c).

Definition RegisterAuthDataCallback (nameSpace : string) (c : option nat) :
    M mobile unit :=
  p ← theClient nameSpace; assign p (set_authDataCallback c).

Definition InvokeRPC (nameSpace rpcName requestJSON : string) (c : nat) :
    M mobile unit :=
  p ← theClient nameSpace;
  if bool_decide (rpcName = "") then failM (ErrMsg "param rpcName required") else
  if bool_decide (requestJSON = "") then failM (ErrMsg "param requestJSON required") else
  conn ← field p lndConn;
  if bool_decide (conn = None) then failM (ErrMsg "RPC connection not ready") else
  reg ← gets registry;
  if bool_decide (rpcName ∈ reg) then go (GRPC p rpcName requestJSON c)
  else failM (ErrMsg ("rpc with name " +:+ rpcName +:+ " not found")).

(** The callback a method gets. *)
Definition rpcDone (c : nat) (outcome : string + error) : M mobile unit :=
  SendResult (Some c)
    (match outcome with inl json => json | inr err => errorText err end).

Definition GetExpiry (nameSpace : string) : M mobile string :=
  p ← theClient nameSpace;
  mac ← field p mac;
  match mac with
  | None => failM (ErrMsg "macaroon not obtained yet")
  | Some mac =>
      match ExpiryTime mac with
      | None => failM (ErrMsg "expiry not found")
      | Some expiry => mret (stringOfRune expiry)
      end
  end.

Definition IsReadOnly (nameSpace : string) : M mobile bool :=
  p ← theClient nameSpace;
  mac ← field p mac;
  match mac with
  | None => mret false
  | Some mac =>
      match extractMacaroonOps mac with
      | Ok ops => mret (isReadOnly ops)
      | Err e => mret false
      | Panic x => liftR (Panic x)
      end
  end.

Definition HasPermissions (nameSpace permission : string) : M mobile bool :=
  p ← theClient nameSpace;
  if bool_decide (permission = "") then mret false else
  mac ← field p mac;
  match mac with
  | None => mret false
  | Some mac =>
      mgr ← gets permsMgr;
      match mgr with
      | None => liftR (Panic NilDereference)
      | Some mgr =>
          match URIPermissions (jsonToURI permission) mgr with
          | None => mret false
          | Some ops =>
              match extractMacaroonOps mac with
              | Ok macOps => mret (hasPermissions macOps ops)
              | Err e => mret false
              | Panic x => liftR (Panic x)
              end
          end
      end
  end.

(** ** Runs *)

Inductive api :=
| AInitLNC (nameSpace debugLevel : string)
| AConnectServer (newKey : result SingleKeyECDH) (nameSpace mailboxServer : string)
    (isDevServer : bool) (pairingPhrase localStatic remoteStatic : string)
| AIsConnected (nameSpace : string)
| ADisconnect (nameSpace : string)
| AStatus (status : nat → ClientStatus) (nameSpace : string)
| ARegisterLocalPrivCreate (nameSpace : string) (c : option nat)
| ARegisterRemoteKeyReceive (nameSpace : string) (c : option nat)
| ARegisterAuthData (nameSpace : string) (c : option nat)
| AInvokeRPC (nameSpace rpcName requestJSON : string) (c : nat)
| AGetExpiry (nameSpace : string)
| AIsReadOnly (nameSpace : string)
| AHasPermissions (nameSpace permission : string).

Definition apiNamespace (a : api) : string :=
  match a with
  | AInitLNC ns _ | AConnectServer _ ns _ _ _ _ _ | AIsConnected ns
  | ADisconnect ns | AStatus _ ns | ARegisterLocalPrivCreate ns _
  | ARegisterRemoteKeyReceive ns _ | ARegisterAuthData ns _
  | AInvokeRPC ns _ _ _ | AGetExpiry ns | AIsReadOnly ns
  | AHasPermissions ns _ => ns
  end.

(** A call, without the value it returns. *)
Definition runApi (a : api) : M mobile unit :=
  match a with
  | AInitLNC ns lvl => InitLNC ns lvl
  | AConnectServer k ns srv dev phrase l r => ConnectServer k ns srv dev phrase l r
  | AIsConnected ns => _ ← IsConnected ns; mret tt
  | ADisconnect ns => Disconnect ns
  | AStatus st ns => _ ← Status st ns; mret tt
  | ARegisterLocalPrivCreate ns c => RegisterLocalPrivCreateCallback ns c
  | ARegisterRemoteKeyReceive ns c => RegisterRemoteKeyReceiveCallback ns c
  | ARegisterAuthData ns c => RegisterAuthDataCallback ns c
  | AInvokeRPC ns name req c => InvokeRPC ns name req c
  | AGetExpiry ns => _ ← GetExpiry ns; mret tt
  | AIsReadOnly ns => _ ← IsReadOnly ns; mret tt
  | AHasPermissions ns perm => _ ← HasPermissions ns perm; mret tt
  end.

(** What can happen to the process; a panic ends it. *)
Inductive mobile_step : mobile → mobile → Prop :=
| ms_api a s r s' : runApi a s = (r, s') → is_panic r = false → mobile_step s s'
| ms_go dialled l1 g l2 s g' s' :
    goroutines s = l1 ++ g :: l2 → goStep dialled g s = (Ok g', s') →
    mobile_step s (set_goroutines (l1 ++ option_list g' ++ l2) s')
| ms_key c w p key s r s' :
    conns s !! c = Some (w, p) → onRemoteKey p key s = (r, s') →
    is_panic r = false → mobile_step s s'
| ms_auth c w p data s r s' :
    conns s !! c = Some (w, p) → onAuth p data s = (r, s') →
    is_panic r = false → mobile_step s s'
| ms_rpc conn name req c outcome s r s' :
    (conn, name, req, c) ∈ invoked s → rpcDone c outcome s = (r, s') →
    mobile_step s s'.

Definition mobile_life (s : mobile) : Prop := rtc mobile_step mobile0 s.

(** The client native code reaches by a name. *)
Definition clientOf (nameSpace : string) (s : mobile) : option mobileClient :=
  p ← m s !! nameSpace; heap s !! p.

(** ** Computations that touch one client *)

Definition newGo (p : nat) (g : goroutine) : Prop :=
  match g with
  | GConnect _ _ _ _ _ => True
  | GRPC q _ _ _ => q = p
  | _ => False
  end.

(** [s'] is [s] after work on the client at [p] that opens no connection. *)
Record quiet (p : nat) (s s' : mobile) : Prop := {
  qu_m : m s' = m s;
  qu_conns : conns s' = conns s;
  qu_len : length (heap s') = length (heap s);
  qu_other q : q ≠ p → heap s' !! q = heap s !! q;
  qu_client mc' : heap s' !! p = Some mc' → ∃ mc, heap s !! p = Some mc
    ∧ statusChecker mc' = statusChecker mc
    ∧ (lndConn mc' = lndConn mc ∨ lndConn mc' = None);
  qu_go : ∃ new, goroutines s' = goroutines s ++ new ∧ Forall (newGo p) new
}.

Lemma quiet_refl p s : quiet p s s.
Proof using.
  split; try done; [eauto|]. exists []. by rewrite app_nil_r.
Qed.

Lemma quiet_trans p s1 s2 s3 : quiet p s1 s2 → quiet p s2 s3 → quiet p s1 s3.
Proof using.
  intros Q1 Q2. split.
  - by rewrite (qu_m _ _ _ Q2), (qu_m _ _ _ Q1).
  - by rewrite (qu_conns _ _ _ Q2), (qu_conns _ _ _ Q1).
  - by rewrite (qu_len _ _ _ Q2), (qu_len _ _ _ Q1).
  - intros q Hq. by rewrite (qu_other _ _ _ Q2), (qu_other _ _ _ Q1).
  - intros mc3 Hmc3. destruct (qu_client _ _ _ Q2 _ Hmc3) as (mc2 & H2' & Hs2 & Hl2).
    destruct (qu_client _ _ _ Q1 _ H2') as (mc1 & H1' & Hs1 & Hl1).
    exists mc1. split; [done|]. split; [congruence|].
    destruct Hl2 as [-> | ->]; [done|by right].
  - destruct (qu_go _ _ _ Q1) as (n1 & Hg1 & Hn1), (qu_go _ _ _ Q2) as (n2 & Hg2 & Hn2).
    exists (n1 ++ n2). rewrite Hg2, Hg1, app_assoc. split; [done|]. by apply Forall_app.
Qed.

Definition Quiet {A} (p : nat) (f : M mobile A) : Prop :=
  ∀ s r s', f s = (r, s') → quiet p s s'.

Lemma Quiet_bind {A B} p (x : M mobile A) (f : A → M mobile B) :
  Quiet p x → (∀ a, Quiet p (f a)) → Quiet p (x ≫= f).
Proof using.
  intros Hx Hf s r s'. mstep. destruct (x s) as [[a|e|pp] s1] eqn:E.
  - intros Hs. eapply quiet_trans; [exact (Hx _ _ _ E)|exact (Hf _ _ _ _ Hs)].
  - intros [= <- <-]. exact (Hx _ _ _ E).
  - intros [= <- <-]. exact (Hx _ _ _ E).
Qed.

Lemma Quiet_lift {A} p (r : result A) : Quiet p (liftR r).
Proof using. intros s r' s' [= <- <-]. apply quiet_refl. Qed.

Lemma Quiet_ret {A} p (a : A) : Quiet p (mret a).
Proof using. intros s r' s' [= <- <-]. apply quiet_refl. Qed.

Lemma Quiet_fail {A} p e : Quiet p (failM (A := A) e).
Proof using. intros s r' s' [= <- <-]. apply quiet_refl. Qed.

Lemma Quiet_gets {A} p (f : mobile → A) : Quiet p (gets f).
Proof using. intros s r' s' [= <- <-]. apply quiet_refl. Qed.

Lemma Quiet_field {A} p (f : mobileClient → A) : Quiet p (field p f).
Proof using.
  intros s r s'. unfold field. destruct (heap s !! p); intros [= <- <-];
    apply quiet_refl.
Qed.

Lemma Quiet_modify p (f : mobile → mobile) :
  (∀ s, m (f s) = m s ∧ conns (f s) = conns s ∧ heap (f s) = heap s
        ∧ ∃ new, goroutines (f s) = goroutines s ++ new ∧ Forall (newGo p) new) →
  Quiet p (modify f).
Proof using.
  intros Hf s r s' [= <- <-]. destruct (Hf s) as (Hm & Hc & Hh & Hg).
  split; try done; rewrite Hh; eauto.
Qed.

Lemma Quiet_assign p f :
  (∀ mc, statusChecker (f mc) = statusChecker mc
         ∧ (lndConn (f mc) = lndConn mc ∨ lndConn (f mc) = None)) →
  Quiet p (assign p f).
Proof using.
  intros Hf s r s' [= <- <-]. split; cbn [m conns heap goroutines set_heap]; try done.
  - by rewrite length_alter.
  - intros q Hq. by rewrite list_lookup_alter_ne.
  - intros mc'. rewrite list_lookup_alter_eq. intros Hmc.
    apply fmap_Some in Hmc as (mc & Hmc & ->). exists mc. split; [done|apply Hf].
  - exists []. by rewrite app_nil_r.
Qed.

Lemma Quiet_send p c json : Quiet p (SendResult c json).
Proof using.
  destruct c as [c|]; [|apply Quiet_lift]. apply Quiet_modify.
  intros s. split_and!; try done. exists []. by rewrite app_nil_r.
Qed.

Lemma Quiet_go p g : newGo p g → Quiet p (go g).
Proof using.
  intros Hg. apply Quiet_modify. intros s. split_and!; try done.
  exists [g]. split; [done|]. by constructor.
Qed.

(** A call that fails before it changes anything, or works on the client of
    [ns] only. *)
Definition local {A} (ns : string) (f : M mobile A) : Prop :=
  ∀ s r s', f s = (r, s') →
  (s' = s ∧ is_ok r = false) ∨ ∃ p, m s !! ns = Some p ∧ quiet p s s'.

Lemma local_client {A} ns (f : nat → M mobile A) :
  (∀ p, Quiet p (f p)) → local ns (theClient ns ≫= f).
Proof using.
  intros Hf s r s'. unfold theClient, getClient. mstep.
  destruct (m s !! ns) as [p|] eqn:Hp.
  - intros Hs. right. exists p. split; [done|exact (Hf p _ _ _ Hs)].
  - intros [= <- <-]. by left.
Qed.

Lemma local_bind {A B} ns (x : M mobile A) (f : A → M mobile B) :
  local ns x → (∀ a p, Quiet p (f a)) → local ns (x ≫= f).
Proof using.
  intros Hx Hf s r s'. mstep. destruct (x s) as [[a|e|pp] s1] eqn:E;
    destruct (Hx _ _ _ E) as [[Hs Hr]|(p & Hp & Hq)]; try done.
  - intros Hs. right. exists p. split; [done|].
    eapply quiet_trans; [exact Hq|exact (Hf a p _ _ _ Hs)].
  - intros [= <- <-]. by left.
  - intros [= <- <-]. right. eauto.
  - intros [= <- <-]. by left.
  - intros [= <- <-]. right. eauto.
Qed.

Lemma local_lift {A B} ns (r : result A) (f : A → M mobile B) :
  (∀ a, local ns (f a)) → local ns (liftR r ≫= f).
Proof using.
  intros Hf s r' s'. mstep. destruct r as [a|e|p].
  - apply Hf.
  - intros [= <- <-]. by left.
  - intros [= <- <-]. by left.
Qed.

Hint Resolve Quiet_bind Quiet_lift Quiet_ret Quiet_fail Quiet_gets Quiet_field
  Quiet_send Quiet_go : quiet.

(** Quietness by the structure of a computation. *)
Ltac quiet :=
  intros; cbv zeta;
  repeat match goal with
  | |- Quiet _ (_ ≫= _) => apply Quiet_bind; intros
  | |- Quiet _ (match ?x with _ => _ end) => destruct x
  | |- Quiet _ (assign _ _) => apply Quiet_assign; intros; simpl; by auto
  | |- Quiet _ (go _) => by apply Quiet_go
  | |- Quiet _ (modify _) =>
      apply Quiet_modify; intros; split_and!; try done;
      exists []; by rewrite app_nil_r
  | |- Quiet _ _ => solve [auto with quiet]
  end.

Lemma Quiet_onRemoteKey p key : Quiet p (onRemoteKey p key).
Proof using. unfold onRemoteKey. quiet. Qed.

Lemma Quiet_onAuth p data : Quiet p (onAuth p data).
Proof using. unfold onAuth. quiet. Qed.

Lemma Quiet_rpcDone p c outcome : Quiet p (rpcDone c outcome).
Proof using. unfold rpcDone. quiet. Qed.

Lemma local_parseKeys k ns l r : local ns (mobile_parseKeys k ns l r).
Proof using. apply local_client. quiet. Qed.

Lemma local_runApi a :
  match a with AInitLNC _ _ => True | _ => local (apiNamespace a) (runApi a) end.
Proof using.
  destruct a; cbn [runApi apiNamespace]; try done.
  - unfold ConnectServer. apply local_lift. intros _.
    apply local_bind; [apply local_parseKeys|]. quiet.
  - apply local_bind; [|quiet]. apply local_client. quiet.
  - apply local_client. quiet.
  - apply local_bind; [|quiet]. apply local_client. quiet.
  - apply local_client. quiet.
  - apply local_client. quiet.
  - apply local_client. quiet.
  - apply local_client. quiet.
  - apply local_bind; [|quiet]. apply local_client. quiet.
  - apply local_bind; [|quiet]. apply local_client. quiet.
  - apply local_bind; [|quiet]. apply local_client. quiet.
Qed.

(** ** The invariant *)

(** Names do not share clients; goroutines and connections belong to clients of
    the heap, and a client's connection was set up for that client. *)
Record mobile_ok (s : mobile) : Prop := {
  mo_inj a b p : m s !! a = Some p → m s !! b = Some p → a = b;
  mo_heap a p : m s !! a = Some p → (p < length (heap s))%nat;
  mo_conns c w p : conns s !! c = Some (w, p) → (p < length (heap s))%nat;
  mo_go g : g ∈ goroutines s →
    match g with
    | GStatus p c | GDial p c => ∃ w, conns s !! c = Some (w, p)
    | GRPC p _ _ _ => (p < length (heap s))%nat
    | _ => True
    end;
  mo_client p mc c : heap s !! p = Some mc →
    statusChecker mc = Some c ∨ lndConn mc = Some c → ∃ w, conns s !! c = Some (w, p)
}.

Lemma quiet_ok p s s' :
  (p < length (heap s))%nat → quiet p s s' → mobile_ok s → mobile_ok s'.
Proof using.
  intros Hp Q [Hinj Hh Hc Hg Hcl]. destruct Q as [Qm Qc Ql Qo Qp (new & Qg & Qn)].
  split; rewrite ?Qm, ?Qc, ?Ql; try done.
  - intros g Hin. rewrite Qg in Hin. apply elem_of_app in Hin as [Hin|Hin].
    + by apply Hg.
    + rewrite List.Forall_forall in Qn.
      specialize (Qn g (proj1 (list_elem_of_In _ _) Hin)).
      destruct g; simpl in Qn; try done. by subst.
  - intros q mc c Hq Hs. destruct (decide (q = p)) as [->|Hne].
    + destruct (Qp _ Hq) as (mc0 & H0' & Hst & Hl). apply (Hcl _ _ _ H0').
      destruct Hl as [Hl|Hl]; rewrite Hst, Hl in Hs; [done|].
      destruct Hs as [?|?]; [by left|done].
    + rewrite Qo in Hq by done. by eapply Hcl.
Qed.

(** The parts of the state that hold addresses. *)
Definition core (s : mobile) := (m s, heap s, conns s, goroutines s).

Lemma core_ok s s' : core s' = core s → mobile_ok s → mobile_ok s'.
Proof using.
  intros [= Hm Hh Hc Hg] []. split; rewrite ?Hm, ?Hh, ?Hc, ?Hg; eauto.
Qed.

Lemma initGlobals_core s r s' : mobile_initGlobals s = (r, s') → core s' = core s.
Proof using.
  unfold mobile_initGlobals.
  destruct (permsMgr s); [|destruct NewManager]; by intros [= <- <-].
Qed.

Lemma initLogs_core lvl s r s' : initLogs lvl s = (r, s') → core s' = core s.
Proof using.
  unfold initLogs. mstep. destruct (interceptorLogsInitialize s); [by intros [= <- <-]|].
  destruct (Intercept _); [by intros [= <- <-]|].
  by destruct (ParseAndSetDebugLevels _); intros [= <- <-].
Qed.

Lemma InitLNC_spec ns lvl s r s' :
  InitLNC ns lvl s = (r, s') →
  core s' = core s
  ∨ core s' = (<[ns := length (heap s)]> (m s), heap s ++ [newMobileClient],
               conns s, goroutines s).
Proof using.
  unfold InitLNC. case_bool_decide; [by intros [= <- <-]; left|].
  mstep. destruct (mobile_initGlobals s) as [[u|e|p] s1] eqn:Hg;
    apply initGlobals_core in Hg; [|intros [= <- <-]; by left..].
  destruct (initLogs lvl s1) as [[u'|e|p] s2] eqn:Hl;
    apply initLogs_core in Hl; rewrite Hg in Hl; [|intros [= <- <-]; by left..].
  intros [= <- <-]. right. injection Hl as Hm Hh Hc Hgo.
  unfold core. simpl. by rewrite Hm, Hh, Hc, Hgo.
Qed.

Lemma InitLNC_ok ns lvl s r s' :
  InitLNC ns lvl s = (r, s') → mobile_ok s → mobile_ok s'.
Proof using.
  intros [Hc|Hc]%InitLNC_spec; [by apply core_ok|].
  injection Hc as Hm Hh Hc Hg. intros [Hinj Hin Hcn Hgo Hcl].
  split; rewrite ?Hm, ?Hh, ?Hc, ?Hg, ?length_app; cbn [length].
  - intros a b p. rewrite !lookup_insert_Some.
    intros [[<- <-]|[Ha Hpa]] [[<- Hb]|[Hb Hpb]]; try done.
    + apply Hin in Hpb. lia.
    + apply Hin in Hpa. lia.
    + by eapply Hinj.
  - intros a p. rewrite lookup_insert_Some. intros [[_ <-]|[_ Hp]]; [lia|].
    apply Hin in Hp. lia.
  - intros c w p Hx. apply Hcn in Hx. lia.
  - intros g Hx. apply Hgo in Hx. destruct g; try done. lia.
  - intros p mc c Hp Hs. apply lookup_app_Some in Hp as [Hp|[_ Hp]]; [by eapply Hcl|].
    apply list_lookup_singleton_Some in Hp as [_ <-]. by destruct Hs.
Qed.

(** One more connection, for the client at [p]. *)
Lemma addConn_ok s w p :
  (p < length (heap s))%nat → mobile_ok s →
  mobile_ok (set_conns (conns s ++ [(w, p)]) s).
Proof using.
  intros Hp [Hinj Hin Hcn Hgo Hcl].
  split; cbn [m heap conns goroutines set_conns]; try done.
  - intros c w' q Hx. apply lookup_app_Some in Hx as [Hx|[_ Hx]]; [by eapply Hcn|].
    by apply list_lookup_singleton_Some in Hx as [_ [= -> ->]].
  - intros g Hx. apply Hgo in Hx.
    destruct g as [| p' c'| p' c'| |]; try done; destruct Hx as [w' Hx]; exists w';
      by apply lookup_app_l_Some.
  - intros q mc c Hq Hs. destruct (Hcl _ _ _ Hq Hs) as [w' Hx]. exists w'.
    by apply lookup_app_l_Some.
Qed.

(** A field of a client set to a connection of that client. *)
Lemma assign_ok s p c w f :
  conns s !! c = Some (w, p) →
  (∀ mc x, statusChecker (f mc) = Some x ∨ lndConn (f mc) = Some x →
     x = c ∨ statusChecker mc = Some x ∨ lndConn mc = Some x) →
  mobile_ok s → mobile_ok (set_heap (alter f p (heap s)) s).
Proof using.
  intros Hc Hf [Hinj Hin Hcn Hgo Hcl].
  split; cbn [m heap conns goroutines set_heap]; rewrite ?length_alter; try done.
  intros q mc x Hq Hs. destruct (decide (q = p)) as [->|Hne].
  - rewrite list_lookup_alter_eq in Hq. apply fmap_Some in Hq as (mc0 & Hq & ->).
    destruct (Hf _ _ Hs) as [->|Hx]; [by eauto|by eapply Hcl].
  - rewrite list_lookup_alter_ne in Hq by done. by eapply Hcl.
Qed.

(** Replacing a goroutine by one whose addresses are good. *)
Lemma replaceGo_ok s l1 g l2 g' :
  goroutines s = l1 ++ g :: l2 →
  (match g' with
   | Some (GStatus p c) | Some (GDial p c) => ∃ w, conns s !! c = Some (w, p)
   | Some (GRPC p _ _ _) => (p < length (heap s))%nat
   | _ => True
   end) →
  mobile_ok s → mobile_ok (set_goroutines (l1 ++ option_list g' ++ l2) s).
Proof using.
  intros Hg Hg' [Hinj Hin Hcn Hgo Hcl].
  split; cbn [m heap conns goroutines set_goroutines]; try done.
  intros x Hx. rewrite !elem_of_app in Hx. destruct Hx as [Hx|[Hx|Hx]].
  - apply Hgo. rewrite Hg, elem_of_app. by left.
  - destruct g' as [y|]; [|by inv Hx]. apply list_elem_of_singleton in Hx as ->.
    destruct y; try done.
  - apply Hgo. rewrite Hg, elem_of_app, elem_of_cons. by right; right.
Qed.

(** The client a goroutine works on: [ConnectServer]'s looks its client up when
    it starts. *)
Definition owner (s : mobile) (g : goroutine) : option nat :=
  match g with
  | GConnect ns _ _ _ _ => m s !! ns
  | GStatus p _ | GDial p _ | GRPC p _ _ _ => Some p
  | GWait => None
  end.

(** The connections [s'] has more than [s]: at most one, opened for [p]. *)
Definition opened (p : option nat) (s s' : mobile) : Prop :=
  conns s' = conns s ∨ ∃ w q, p = Some q ∧ conns s' = conns s ++ [(w, q)].

Lemma goStep_spec dialled g s g' s' :
  mobile_ok s → g ∈ goroutines s → goStep dialled g s = (Ok g', s') →
  mobile_ok s' ∧ goroutines s' = goroutines s ∧ m s' = m s
  ∧ (∀ q, owner s g ≠ Some q → heap s' !! q = heap s !! q)
  ∧ opened (owner s g) s s'
  ∧ (∀ g1, g' = Some g1 → owner s' g1 = owner s g ∨ g1 = GWait)
  ∧ (match g' with
     | Some (GStatus p c) | Some (GDial p c) => ∃ w, conns s' !! c = Some (w, p)
     | Some (GRPC p _ _ _) => (p < length (heap s'))%nat
     | _ => True
     end).
Proof using.
  intros Hok Hin. pose proof (mo_go _ Hok _ Hin) as Hg. unfold goStep, opened.
  destruct g as [ns srv phrase priv remote|p c|p c|p name req c|]; mstep.
  - unfold getClient. destruct (m s !! ns) as [p|] eqn:Hp;
      [|intros [= <- <-]; split_and!; eauto; by intros ?].
    destruct (NewClientWebsocketConn _ _ _ _ _ _) as [w|e|x];
      [|intros [= <- <-]; split_and!; eauto; by intros ?|done].
    intros [= <- <-]. split_and!; try done.
    + apply addConn_ok; [|done]. by eapply mo_heap.
    + right. by exists w, p.
    + intros g1 [= <-]. by left.
    + exists w. cbn [conns set_conns]. by apply list_lookup_middle.
  - unfold assign. mstep. intros [= <- <-]. destruct Hg as [w Hc].
    split_and!; try done; try by left.
    + eapply assign_ok; [exact Hc| |done]. intros mc x. simpl.
      intros [[= ->] | ?]; eauto.
    + intros q Hq. cbn [heap set_heap]. rewrite list_lookup_alter_ne; [done|]. by intros ->.
    + intros g1 [= <-]. by left.
    + by exists w.
  - destruct Hg as [w Hc]. destruct dialled as [u|e|x];
      [|intros [= <- <-]; split_and!; eauto; by intros ?|done].
    unfold assign. mstep. intros [= <- <-]. split_and!; try done; try by left.
    + eapply assign_ok; [exact Hc| |done]. intros mc x. simpl.
      intros [? | [= ->]]; eauto.
    + intros q Hq. cbn [heap set_heap]. rewrite list_lookup_alter_ne; [done|]. by intros ->.
  - unfold field. destruct (heap s !! p); [|done]. intros [= <- <-].
    split_and!; try done; try by left.
    + by apply (core_ok s).
    + intros g1 [= <-]. by right.
  - intros [= <- <-]. split_and!; eauto. intros g1 [= <-]. by right.
Qed.

Lemma mobile_step_ok s s' : mobile_step s s' → mobile_ok s → mobile_ok s'.
Proof using.
  intros Hs Hok. destruct Hs as [a s r s' Ha _|dialled l1 g l2 s g' s' Hg Hs
    |c w p key s r s' Hc Hs _|c w p data s r s' Hc Hs _|conn name req c out s r s' _ Hs].
  - pose proof (local_runApi a) as Hl.
    assert (Hcase : (∃ ns lvl, a = AInitLNC ns lvl) ∨ local (apiNamespace a) (runApi a)).
    { destruct a; first [by right|left; by eauto]. }
    destruct Hcase as [(ns & lvl & ->)|Hloc]; [by eapply InitLNC_ok|].
    destruct (Hloc _ _ _ Ha) as [[-> _]|(p & Hp & Hq)]; [done|].
    eapply quiet_ok; [|exact Hq|done]. by eapply mo_heap.
  - assert (Hin : g ∈ goroutines s)
      by (rewrite Hg, elem_of_app, elem_of_cons; by right; left).
    destruct (goStep_spec _ _ _ _ _ Hok Hin Hs) as (Hok' & Hgo & _ & _ & _ & _ & Hg').
    by eapply replaceGo_ok; [rewrite Hgo|..].
  - eapply quiet_ok; [by eapply mo_conns|by eapply Quiet_onRemoteKey|done].
  - eapply quiet_ok; [by eapply mo_conns|by eapply Quiet_onAuth|done].
  - injection Hs as _ <-. by apply (core_ok s).
Qed.

Lemma mobile_life_ok s : mobile_life s → mobile_ok s.
Proof using.
  assert (H0 : mobile_ok mobile0) by by split; try done; intros *; inversion 1.
  unfold mobile_life. revert H0. generalize mobile0 as s0.
  intros s0 H0 Hl. revert H0. induction Hl; eauto using mobile_step_ok.
Qed.

(** A client that keeps its address and was not touched looks the same. *)
Lemma clientOf_other ns p s s' :
  m s' = m s → (∀ q, q ≠ p → heap s' !! q = heap s !! q) → m s !! ns ≠ Some p →
  clientOf ns s' = clientOf ns s.
Proof using.
  intros Hm Hh Hp. unfold clientOf. rewrite Hm.
  destruct (m s !! ns) as [q|] eqn:Hq; [|done]. cbn [mbind option_bind].
  apply Hh. congruence.
Qed.

Lemma api_isolated a s r s' ns :
  mobile_ok s → runApi a s = (r, s') → apiNamespace a ≠ ns →
  clientOf ns s' = clientOf ns s.
Proof using.
  intros Hok Ha Hne. pose proof (local_runApi a) as Hl.
  assert (Hcase : (∃ ns lvl, a = AInitLNC ns lvl) ∨ local (apiNamespace a) (runApi a)).
  { destruct a; first [by right|left; by eauto]. }
  destruct Hcase as [(ns' & lvl & ->)|Hloc].
  - cbn [runApi apiNamespace] in *. apply InitLNC_spec in Ha as [Hc|Hc];
      injection Hc as Hm Hh _ _; unfold clientOf; rewrite Hm, Hh; [done|].
    rewrite lookup_insert_ne by done. destruct (m s !! ns) as [q|] eqn:Hq; [|done].
    cbn [mbind option_bind]. rewrite lookup_app_l; [done|]. by eapply mo_heap.
  - destruct (Hloc _ _ _ Ha) as [[-> _]|(p & Hp & [Qm _ _ Qo _ _])]; [done|].
    eapply clientOf_other; [done|exact Qo|]. intros Hq. destruct Hne.
    by eapply mo_inj.
Qed.

Lemma go_isolated dialled g s g' s' ns :
  mobile_ok s → g ∈ goroutines s → goStep dialled g s = (Ok g', s') →
  (∀ p, owner s g = Some p → m s !! ns ≠ Some p) →
  clientOf ns s' = clientOf ns s.
Proof using.
  intros Hok Hin Hs Ho.
  destruct (goStep_spec _ _ _ _ _ Hok Hin Hs) as (_ & _ & Hm & Hh & _).
  unfold clientOf. rewrite Hm. destruct (m s !! ns) as [q|] eqn:Hq; [|done].
  cbn [mbind option_bind]. apply Hh. intros Hg. by destruct (Ho q Hg).
Qed.

(** The callbacks of a connection, as the clients see them. *)
Lemma onRemoteKey_clients p key s r s' :
  onRemoteKey p key s = (r, s') → ∀ ns, clientOf ns s' = clientOf ns s.
Proof using.
  unfold onRemoteKey, field, SendResult. mstep. intros E ns.
  destruct (heap s !! p) as [mc|]; [|by injection E as _ <-].
  destruct key; [|by injection E as _ <-].
  destruct (remoteKeyReceiveCallback mc); by injection E as _ <-.
Qed.

Lemma onAuth_clients p data s r s' :
  (p < length (heap s))%nat → onAuth p data s = (r, s') →
  match parseAuthData data with
  | Ok mac => m s' = m s ∧ heap s' = alter (set_mac (Some mac)) p (heap s)
  | _ => s' = s
  end.
Proof using.
  intros Hp. unfold onAuth, field, assign, SendResult. mstep. intros E.
  destruct (parseAuthData data) as [mac|e|x]; [|by injection E as _ <-..].
  cbn [heap set_heap] in E.
  destruct (lookup_lt_is_Some_2 (alter (set_mac (Some mac)) p (heap s)) p) as [mc Hmc];
    [by rewrite length_alter|].
  rewrite Hmc in E. destruct (authDataCallback mc); by injection E as _ <-.
Qed.

End Mobile.

(** ** Properties *)

(** C18: namespaces are independent, in every state the process can reach.  (1) A
    call for one namespace does not change the client of another.  (2) A step of
    a goroutine, [ConnectServer]'s included, changes no client but the one it
    works on, which is the client its namespace had when it looked it up; it goes
    on working on that client and opens connections for that client only.  (3)
    The callbacks of a connection concern the client it was opened for: the
    remote key changes no client, and auth data that hold a macaroon store it in
    that client, all other fields kept, and in no other.  (4) The end of an RPC
    changes no client.  (5) The connection and status checker a client holds were
    opened for that client.  (Replaced clients stay in the heap: a goroutine
    started before a second [InitLNC] completes the old client, never the new
    one.) *)
Theorem namespaces_independent {CR : Crypto} {NK : NativeKeys} {MN : Mnemonics}
    {MC : Macaroons} Intercept Levels Regs (s : mobile) :
  mobile_life Intercept Levels Regs s →
  (∀ a r s' ns, runApi Intercept Levels Regs a s = (r, s') → apiNamespace a ≠ ns →
     clientOf ns s' = clientOf ns s)
  ∧ (∀ dialled g g' s', g ∈ goroutines s → goStep dialled g s = (Ok g', s') →
     (∀ ns, (∀ p, owner s g = Some p → m s !! ns ≠ Some p) →
        clientOf ns s' = clientOf ns s)
     ∧ (∀ g1, g' = Some g1 → owner s' g1 = owner s g ∨ g1 = GWait)
     ∧ opened (owner s g) s s')
  ∧ (∀ c w p r s', conns s !! c = Some (w, p) →
     (∀ key, onRemoteKey p key s = (r, s') → ∀ ns, clientOf ns s' = clientOf ns s)
     ∧ (∀ data, onAuth p data s = (r, s') → ∀ ns, clientOf ns s' =
          match parseAuthData data with
          | Ok mac => if decide (m s !! ns = Some p)
                      then set_mac (Some mac) <$> clientOf ns s else clientOf ns s
          | _ => clientOf ns s
          end))
  ∧ (∀ c outcome r s', rpcDone c outcome s = (r, s') →
     ∀ ns, clientOf ns s' = clientOf ns s)
  ∧ (∀ ns p mc c, m s !! ns = Some p → clientOf ns s = Some mc →
     lndConn mc = Some c ∨ statusChecker mc = Some c →
     ∃ w, conns s !! c = Some (w, p)).
Proof.
  intros Hl. apply mobile_life_ok in Hl. split_and!.
  - intros a r s' ns. by apply api_isolated.
  - intros dialled g g' s' Hin Hs. split_and!.
    + intros ns. by apply (go_isolated _ _ _ _ _ _ Hl Hin Hs).
    + by apply (goStep_spec _ _ _ _ _ Hl Hin Hs).
    + by apply (goStep_spec _ _ _ _ _ Hl Hin Hs).
  - intros c w p r s' Hc. split; [intros key; apply onRemoteKey_clients|].
    intros data Ho ns. apply onAuth_clients in Ho; [|by eapply mo_conns].
    destruct (parseAuthData data) as [mac|e|x]; [|by rewrite Ho..].
    destruct Ho as [Hm Hh]. unfold clientOf. rewrite Hm, Hh.
    destruct (m s !! ns) as [q|]; [cbn [mbind option_bind]|by case_decide].
    case_decide as Hq; [injection Hq as ->; by rewrite list_lookup_alter_eq|].
    rewrite list_lookup_alter_ne; [done|]. by intros ->.
  - intros c outcome r s' E ns. by injection E as _ <-.
  - intros ns p mc c Hp Hmc Hc. unfold clientOf in Hmc. rewrite Hp in Hmc.
    eapply mo_client; [done|exact Hmc|tauto].
Qed.

(** C19: stored keys come back.  A first [ConnectServer] without keys sends the
    new private key to the registered callback and connects with it; the remote
    key of the handshake is sent to its callback.  A later [ConnectServer] with
    the two strings the callbacks got connects with exactly these keys, and
    creates none. *)
Theorem stored_keys_come_back {CR : Crypto} {CL : CryptoLaws} {NK : NativeKeys}
    {NL : NativeKeyLaws} {MN : Mnemonics} {MC : Macaroons}
    k pub ns server dev phrase p mc cb cb' (s : mobile) :
  m s !! ns = Some p → heap s !! p = Some mc → server ≠ "" →
  localPrivCreateCallback mc = Some cb → remoteKeyReceiveCallback mc = Some cb' →
  pub ≠ infinity → privSerialize k ≠ [] → Forall is_u8 (privSerialize k) →
  Forall is_u8 (SerializeCompressed pub) →
  ∃ priv remote,
  (∃ s1, ConnectServer (Ok k) ns server dev phrase "" "" s = (Ok tt, s1)
     ∧ results s1 = results s ++ [(cb, priv)]
     ∧ goroutines s1 = goroutines s ++ [GConnect ns server phrase k None])
  ∧ (∃ s2, onRemoteKey p (Some pub) s = (Ok tt, s2)
     ∧ results s2 = results s ++ [(cb', remote)])
  ∧ ∀ newKey phrase' (s3 : mobile), is_Some (m s3 !! ns) →
    ∃ s4, ConnectServer newKey ns server dev phrase' priv remote s3 = (Ok tt, s4)
    ∧ results s4 = results s3
    ∧ goroutines s4 = goroutines s3 ++ [GConnect ns server phrase' k (Some pub)].
Proof.
  intros Hm Hh Hsrv Hcb Hcb' Hpub Hne Hk Hp.
  set (priv := EncodeToString (privSerialize k)).
  set (remote := EncodeToString (SerializeCompressed pub)).
  assert (Hpriv : priv ≠ "") by (subst priv; by destruct (privSerialize k)).
  assert (Hrem : remote ≠ "").
  { subst remote. pose proof (serialize_length pub) as Hl.
    by destruct (SerializeCompressed pub). }
  exists priv, remote. split_and!.
  - set (s1 := set_results (results s ++ [(cb, priv)]) s).
    exists (set_goroutines (goroutines s ++ [GConnect ns server phrase k None])
              (if dev then set_skipVerify true s1 else s1)).
    split; [|by destruct dev].
    unfold ConnectServer, mobile_validateArgs, mobile_parseKeys, theClient, getClient.
    mstep. rewrite bool_decide_eq_false_2 by done. cbn [andb].
    change (bool_decide (("" : string) ≠ "")) with false. cbn [andb].
    change (bool_decide (("" : string) = "")) with true. cbn [andb].
    rewrite Hm. unfold field. rewrite Hh, Hcb. mstep. by destruct dev.
  - exists (set_results (results s ++ [(cb', remote)]) s). split; [|done].
    unfold onRemoteKey, field. mstep. by rewrite Hh, Hcb'.
  - intros newKey phrase' s3 [q Hq].
    exists (set_goroutines (goroutines s3 ++ [GConnect ns server phrase' k (Some pub)])
              (if dev then set_skipVerify true s3 else s3)).
    split; [|by destruct dev].
    unfold ConnectServer, mobile_validateArgs, mobile_parseKeys, theClient, getClient.
    mstep. rewrite (bool_decide_eq_false_2 (server = "")) by done.
    rewrite (bool_decide_eq_false_2 (priv = "")) by done.
    rewrite (bool_decide_eq_false_2 (remote = "")) by done.
    rewrite andb_false_r, Hq. cbn [andb]. subst priv remote. rewrite !DecodeString_EncodeToString by done.
    rewrite parse_serialize, priv_roundtrip by done. by destruct dev.
Qed.

(** C39: the expiry the mobile binding reports.  [GetExpiry] converts the Unix
    time to a character; for every time from 1970-01-13 to 2038-01-19 the answer
    is the replacement character, whatever the macaroon says. *)
Theorem mobile_expiry_is_lost {CR : Crypto} {MC : Macaroons} ns p mc mac t (s : mobile) :
  m s !! ns = Some p → heap s !! p = Some mc → Mobile.mac mc = Some mac →
  ExpiryTime mac = Some t → 1114112 ≤ t < 2147483648 →
  GetExpiry ns s = (Ok replacementChar, s).
Proof.
  intros Hm Hh Hmac Ht Hb. unfold GetExpiry, theClient, getClient, field. mstep.
  rewrite Hm, Hh, Hmac, Ht. unfold stringOfRune, sint.
  change (2 ^ (32 - 1)) with 2147483648. change (2 ^ 32) with 4294967296.
  rewrite Z.mod_small by lia.
  replace (1114111 <? t + 2147483648 - 2147483648) with true
    by (symmetry; apply Z.ltb_lt; lia).
  by rewrite orb_true_r.
Qed.

(** A permission query.  For an RPC named [a.b.c] and a client that holds a
    macaroon, [HasPermissions] answers yes exactly when the manager knows the
    URI [/a.b/c] and the macaroon's operations contain each one it requires; a
    macaroon that [IsReadOnly] accepts is granted RPCs that only read. *)
Theorem permission_query {CR : Crypto} {MC : Macaroons} ns a b c p mc mac mgr (s : mobile) :
  m s !! ns = Some p → heap s !! p = Some mc → Mobile.mac mc = Some mac →
  permsMgr s = Some mgr → allWord a → allWord b → allWord c →
  a ≠ "" → b ≠ "" → c ≠ "" →
  (HasPermissions ns (a +:+ "." +:+ b +:+ "." +:+ c) s = (Ok true, s) ↔
   ∃ req ops, URIPermissions ("/" +:+ a +:+ "." +:+ b +:+ "/" +:+ c) mgr = Some req
     ∧ extractMacaroonOps mac = Ok ops
     ∧ ∀ r, r ∈ req → ∃ op, lastOp (r_Entity r) ops = Some op ∧ r_Action r ∈ Actions op)
  ∧ (IsReadOnly ns s = (Ok true, s) →
     HasPermissions ns (a +:+ "." +:+ b +:+ "." +:+ c) s = (Ok true, s) →
     ∃ req, URIPermissions ("/" +:+ a +:+ "." +:+ b +:+ "/" +:+ c) mgr = Some req
     ∧ ∀ r, r ∈ req → r_Action r = "read").
Proof.
  intros Hm Hh Hmac Hmgr Ha Hb Hc Hna Hnb Hnc.
  assert (Hquery : HasPermissions ns (a +:+ "." +:+ b +:+ "." +:+ c) s = (Ok true, s) ↔
    ∃ req ops, URIPermissions ("/" +:+ a +:+ "." +:+ b +:+ "/" +:+ c) mgr = Some req
     ∧ extractMacaroonOps mac = Ok ops
     ∧ ∀ r, r ∈ req → ∃ op, lastOp (r_Entity r) ops = Some op ∧ r_Action r ∈ Actions op).
  { unfold HasPermissions, theClient, getClient, field. mstep. rewrite Hm.
    rewrite bool_decide_eq_false_2 by by destruct a. rewrite Hh, Hmac, Hmgr.
    rewrite jsonToURI_words by done.
    destruct (URIPermissions _ mgr) as [req|]; [|by split; [|intros (? & ? & ? & _)]].
    destruct (extractMacaroonOps mac) as [ops|e|x];
      [|by split; [|intros (? & ? & _ & ? & _)]..].
    split.
    - intros [= Hp]. exists req, ops. by rewrite <- hasPermissions_last.
    - intros (req' & ops' & [= <-] & [= <-] & Hall).
      by rewrite (proj2 (hasPermissions_last _ _) Hall). }
  split; [done|]. intros Hro (req & ops & Hreq & Hops & Hall)%Hquery.
  exists req. split; [done|]. intros r Hr. destruct (Hall r Hr) as (op & Hl & Hact).
  apply lastOp_in in Hl as [Hin _]. eapply isReadOnly_spec; [|exact Hin|exact Hact].
  revert Hro. unfold IsReadOnly, theClient, getClient, field. mstep.
  rewrite Hm, Hh, Hmac, Hops. by intros [= ->].
Qed.

(** [InvokeRPC] starts a call exactly when its arguments are not empty, the
    client is connected and the method is registered.  The call reads the
    connection only when its goroutine runs: after a [Disconnect] in between,
    the method gets a nil connection. *)
Theorem rpc_start {CR : Crypto} {MC : Macaroons} ns name req c (s s' : mobile) :
  (InvokeRPC ns name req c s = (Ok tt, s') ↔
   ∃ p mc, m s !! ns = Some p ∧ heap s !! p = Some mc ∧ name ≠ "" ∧ req ≠ ""
     ∧ lndConn mc ≠ None ∧ name ∈ registry s
     ∧ s' = set_goroutines (goroutines s ++ [GRPC p name req c]) s)
  ∧ (∀ {NK : NativeKeys} {MN : Mnemonics}, InvokeRPC ns name req c s = (Ok tt, s') →
     ∃ p s2 s3, goroutines s' = goroutines s ++ [GRPC p name req c]
     ∧ Disconnect ns s' = (Ok tt, s2)
     ∧ goStep (Ok tt) (GRPC p name req c) s2 = (Ok (Some GWait), s3)
     ∧ invoked s3 = invoked s ++ [(None, name, req, c)]).
Proof.
  assert (Hiff : InvokeRPC ns name req c s = (Ok tt, s') ↔
   ∃ p mc, m s !! ns = Some p ∧ heap s !! p = Some mc ∧ name ≠ "" ∧ req ≠ ""
     ∧ lndConn mc ≠ None ∧ name ∈ registry s
     ∧ s' = set_goroutines (goroutines s ++ [GRPC p name req c]) s).
  { unfold InvokeRPC, theClient, getClient, field, go. mstep. split.
    - destruct (m s !! ns) as [p|]; [|done]. case_bool_decide as Hn; [done|].
      case_bool_decide as Hr; [done|]. destruct (heap s !! p) as [mc|] eqn:Hh; [|done].
      case_bool_decide as Hl; [done|]. case_bool_decide as Hreg; [|done].
      intros [= <-]. by exists p, mc.
    - intros (p & mc & -> & Hh & Hn & Hr & Hl & Hreg & ->).
      rewrite (bool_decide_eq_false_2 (name = "")) by done.
      rewrite (bool_decide_eq_false_2 (req = "")) by done. rewrite Hh.
      rewrite (bool_decide_eq_false_2 (lndConn mc = None)) by done.
      by rewrite bool_decide_eq_true_2. }
  split; [done|]. intros NK MN (p & mc & Hm & Hh & _ & _ & Hl & _ & ->)%Hiff.
  destruct (lndConn mc) as [conn|] eqn:Hc; [|done].
  set (s1 := set_goroutines _ s).
  assert (Hm1 : m s1 !! ns = Some p) by done.
  assert (Hh1 : heap s1 !! p = Some mc) by done.
  set (s2 := set_heap (alter (set_lndConn None) p (heap s1))
               (set_closedConns (closedConns s1 ++ [conn]) s1)).
  assert (Hh2 : heap s2 !! p = Some (set_lndConn None mc)).
  { cbn [heap set_heap s2]. by rewrite list_lookup_alter_eq, Hh1. }
  exists p, s2, (set_invoked (invoked s2 ++ [(None, name, req, c)]) s2).
  split_and!; try done.
  - unfold Disconnect, theClient, getClient, field. mstep. by rewrite Hm1, Hh1, Hc.
  - unfold goStep, field. mstep. by rewrite Hh2.
Qed.

(** ** A process with two clients *)

#[local] Existing Instances toyCrypto toyKeys bitStreams toyMacaroons.

Definition demoIntercept (k : nat) : option error := None.
Definition demoLevels (level : string) : option error := None.
Definition demoMethods : list string := ["lnrpc.Lightning.WalletBalance"].

Definition demoApi (a : api) (s : mobile) : mobile :=
  (runApi demoIntercept demoLevels demoMethods a s).2.

Definition demoMobile : mobile :=
  demoApi (ARegisterRemoteKeyReceive "a" (Some 1%nat))
    (demoApi (ARegisterLocalPrivCreate "a" (Some 0%nat))
       (demoApi (AInitLNC "b" "") (demoApi (AInitLNC "a" "") mobile0))).

Lemma demoApi_life a s :
  is_panic (runApi demoIntercept demoLevels demoMethods a s).1 = false →
  mobile_life demoIntercept demoLevels demoMethods s →
  mobile_life demoIntercept demoLevels demoMethods (demoApi a s).
Proof.
  intros Hp Hl. eapply rtc_r; [exact Hl|]. unfold demoApi.
  destruct (runApi demoIntercept demoLevels demoMethods a s) as [r s'] eqn:Hr.
  eapply ms_api; [exact Hr|exact Hp].
Qed.

Lemma demoMobile_life : mobile_life demoIntercept demoLevels demoMethods demoMobile.
Proof. unfold demoMobile. repeat (apply demoApi_life; [done|]). apply rtc_refl. Qed.

(** The client "a" with a connection set up. *)
Definition demoConnecting : mobile :=
  demoApi (AConnectServer (Ok (3%positive : @SingleKeyECDH toyCrypto)) "a" "host" false
             "phrase" "" "") (demoApi (ARegisterAuthData "a" (Some 2%nat)) demoMobile).

Definition demoConnected : mobile :=
  match goroutines demoConnecting with
  | [g] => match goStep (Ok tt) g demoConnecting with
           | (Ok g', s) => set_goroutines (option_list g') s
           | _ => demoConnecting
           end
  | _ => demoConnecting
  end.

Lemma demoConnected_life :
  mobile_life demoIntercept demoLevels demoMethods demoConnected.
Proof.
  assert (Hl : mobile_life demoIntercept demoLevels demoMethods demoConnecting).
  { apply demoApi_life; [done|]. apply demoApi_life; [done|]. exact demoMobile_life. }
  destruct (goroutines demoConnecting) as [|g l] eqn:Hg; [by vm_compute in Hg|].
  destruct l; [|by vm_compute in Hg].
  unfold demoConnected. rewrite Hg.
  destruct (goStep (Ok tt) g demoConnecting) as [[g'| |] s] eqn:Hs; [|exact Hl..].
  eapply rtc_r; [exact Hl|]. rewrite <- (app_nil_r (option_list g')).
  by apply (ms_go _ _ _ (Ok tt) [] g []).
Qed.

(** A macaroon that arrives on the connection of "a" is stored in "a" and not
    in "b". *)
Lemma namespaces_independent_witness : ∃ s' mac,
  onAuth 0 (bytesOfString "Macaroon: 03") demoConnected = (Ok tt, s')
  ∧ clientOf "a" s' = set_mac (Some mac) <$> clientOf "a" demoConnected
  ∧ is_Some (clientOf "a" demoConnected)
  ∧ clientOf "b" s' = clientOf "b" demoConnected
  ∧ clientOf "b" demoConnected = Some newMobileClient.
Proof.
  destruct (namespaces_independent demoIntercept demoLevels demoMethods demoConnected
    demoConnected_life) as (_ & _ & Hcb & _).
  destruct (onAuth 0 (bytesOfString "Macaroon: 03") demoConnected) as [r s'] eqn:Ho.
  destruct (conns demoConnected !! 0%nat) as [[w p]|] eqn:Hc;
    [|vm_compute in Hc; discriminate Hc].
  assert (Hp : p = 0%nat) by (vm_compute in Hc; by injection Hc). subst p.
  destruct (Hcb 0%nat w 0%nat r s' Hc) as [_ Hauth].
  pose proof (Hauth _ Ho) as Hn.
  exists s', ([3] : @Macaroon toyMacaroons). split.
  { assert (Hr : r = Ok tt) by (vm_compute in Ho; by injection Ho).
    rewrite Hr. reflexivity. }
  split; [exact (Hn "a")|]. split; [vm_compute; eexists; reflexivity|].
  split; [exact (Hn "b")|vm_compute; reflexivity].
Defined.

Lemma stored_keys_come_back_witness : ∃ priv s4,
  ConnectServer (Err EOF) "a" "host" false "phrase" priv (EncodeToString (4 :: replicate 32 0))
    demoMobile = (Ok tt, s4)
  ∧ goroutines s4 = [GConnect "a" "host" "phrase" 3%positive (Some 4)].
Proof.
  destruct (stored_keys_come_back (CR := toyCrypto) (CL := toy_laws) (NK := toyKeys)
    (NL := toyKeys_laws) (3%positive : @SingleKeyECDH toyCrypto)
    (4 : @PublicKey toyCrypto) "a" "host" false "phrase" 0%nat
    (mkMobileClient None None None (Some 0%nat) (Some 1%nat) None) 0%nat 1%nat demoMobile)
    as (priv & remote & _ & (s2 & Hkey & Hres) & Hagain);
    [vm_compute; reflexivity|vm_compute; reflexivity|discriminate|reflexivity
    |reflexivity|discriminate|discriminate|repeat constructor; done
    |repeat constructor; done|].
  destruct (Hagain (Err EOF) "phrase" demoMobile) as (s4 & Hc & _ & Hg);
    [vm_compute; eexists; reflexivity|].
  vm_compute in Hkey. injection Hkey as <-.
  vm_compute in Hres. injection Hres as <-.
  exists priv, s4. split; [exact Hc|]. exact Hg.
Defined.

Definition demoMacaroon : mobile :=
  (onAuth 0 (bytesOfString "Macaroon: 03") (demoApi (ARegisterAuthData "a" (Some 2%nat))
     demoMobile)).2.

Lemma mobile_expiry_is_lost_witness :
  GetExpiry "a" demoMacaroon = (Ok replacementChar, demoMacaroon).
Proof.
  eapply (mobile_expiry_is_lost "a" 0%nat _ ([3] : @Macaroon toyMacaroons) 1700000000);
    [vm_compute; reflexivity|vm_compute; reflexivity|reflexivity|reflexivity|lia].
Defined.

Lemma permission_query_witness :
  HasPermissions "a" "lnrpc.Lightning.WalletBalance" demoMacaroon = (Ok true, demoMacaroon)
  ∧ ∃ req ops, URIPermissions "/lnrpc.Lightning/WalletBalance"
      (tt : @PermsManager toyMacaroons) = Some req
    ∧ extractMacaroonOps ([3] : @Macaroon toyMacaroons) = Ok ops
    ∧ ∀ r, r ∈ req → ∃ op, lastOp (r_Entity r) ops = Some op ∧ r_Action r ∈ Actions op.
Proof.
  assert (Hq : HasPermissions "a" "lnrpc.Lightning.WalletBalance" demoMacaroon
               = (Ok true, demoMacaroon)) by (vm_compute; reflexivity).
  split; [exact Hq|].
  eapply (permission_query "a" "lnrpc" "Lightning" "WalletBalance" 0%nat _
    ([3] : @Macaroon toyMacaroons) (tt : @PermsManager toyMacaroons) demoMacaroon);
    [vm_compute; reflexivity|vm_compute; reflexivity|reflexivity
    |vm_compute; reflexivity|reflexivity|reflexivity|reflexivity
    |discriminate|discriminate|discriminate|exact Hq].
Defined.
