(* ===== verification/Wasm.v ===== *)
(** * The browser client ([cmd/wasm-client/main.go], [cmd/wasm-client/config.go])

    One client whose methods JavaScript calls, and which calls JavaScript
    functions by name.  [exit] ends the process: it is the error outcome of the
    computations here, whose own answers are JavaScript values. *)

From stdpp Require Import base numbers list gmap strings tactics.
From Stdlib Require Import Ascii.
From S2P Require Import Prelude NoiseState NoiseHandshake NoiseTransport Mailbox.
From S2P Require Import MailboxConn Pairing GoFmt Lifecycle CreateConn Permissions.
From S2P Require Import Mobile.

(** ** JavaScript values ([syscall/js])

    A function is a number with its properties; a number carries its text. *)
Inductive jsValue :=
| JUndefined
| JNull
| JBool (b : bool)
| JNumber (text : string)
| JString (s : string)
| JSymbol
| JObject (fields : list (string * jsValue))
| JFunction (f : nat) (fields : list (string * jsValue)).

Definition valueString (v : jsValue) : string :=
  match v with
  | JUndefined => "<undefined>"
  | JNull => "<null>"
  | JBool true => "<boolean: true>"
  | JBool false => "<boolean: false>"
  | JNumber n => "<number: " +:+ n +:+ ">"
  | JString s => s
  | JSymbol => "<symbol>"
  | JObject _ => "<object>"
  | JFunction _ _ => "<function>"
  end.

Definition valueBool (v : jsValue) : result bool :=
  match v with JBool b => Ok b | _ => Panic JSValueError end.

Fixpoint lookupField (name : string) (fields : list (string * jsValue)) : jsValue :=
  match fields with
  | [] => JUndefined
  | (k, v) :: fields => if bool_decide (k = name) then v else lookupField name fields
  end.

Definition valueGet (v : jsValue) (name : string) : result jsValue :=
  match v with
  | JObject fields | JFunction _ fields => Ok (lookupField name fields)
  | _ => Panic JSValueError
  end.

Definition valueSet (name : string) (x : jsValue) (v : jsValue) : result jsValue :=
  let set fields := (name, x) :: List.filter (λ p, negb (bool_decide (p.1 = name))) fields in
  match v with
  | JObject fields => Ok (JObject (set fields))
  | JFunction f fields => Ok (JFunction f (set fields))
  | _ => Panic JSValueError
  end.

Definition isEmptyObject (v : jsValue) : bool :=
  match v with JNull | JUndefined => true | _ => false end.

(** What a call of a JavaScript function comes to. *)
Inductive jsOutcome :=
| Returns (v : jsValue)
| Throws (v : jsValue).

(** ** State *)

Record config := mkConfig {
  DebugLevel : string;
  NameSpace : string;
  OnLocalPrivCreate : string;
  OnRemoteKeyReceive : string;
  OnAuthData : string
}.

Section Wasm.
Context {CR : Crypto} {NK : NativeKeys} {MN : Mnemonics} {MC : Macaroons}.

Record wasmClient := mkWasmClient {
  cfg : config;
  w_lndConn : option nat;
  w_statusChecker : option nat;
  w_mac : option Macaroon;
  w_registry : list string
}.

Definition set_cfg v (s : wasmClient) : wasmClient :=
  mkWasmClient v (w_lndConn s) (w_statusChecker s) (w_mac s) (w_registry s).
Definition set_w_lndConn v (s : wasmClient) : wasmClient :=
  mkWasmClient (cfg s) v (w_statusChecker s) (w_mac s) (w_registry s).
Definition set_w_statusChecker v (s : wasmClient) : wasmClient :=
  mkWasmClient (cfg s) (w_lndConn s) v (w_mac s) (w_registry s).
Definition set_w_mac v (s : wasmClient) : wasmClient :=
  mkWasmClient (cfg s) (w_lndConn s) (w_statusChecker s) v (w_registry s).
Definition set_w_registry v (s : wasmClient) : wasmClient :=
  mkWasmClient (cfg s) (w_lndConn s) (w_statusChecker s) (w_mac s) v.

Definition newWasmClient (c : config) : result wasmClient :=
  if bool_decide (NameSpace c = "")
  then Err (ErrMsg "a non-empty namespace is required")
  else Ok (mkWasmClient c None None None []).

(** The goroutines: connecting, before and in [lndConnect]; closing, before
    [Close] and after it; an RPC before the call and after it. *)
Inductive wasmGo :=
| WConnect (mailboxServer pairingPhrase : string) (priv : SingleKeyECDH)
    (remote : option PublicKey)
| WDial (c : nat)
| WClose (args : list jsValue)
| WClosed (args : list jsValue)
| WRPC (rpcName requestJSON : string) (callback : jsValue)
| WWait.

(** The client, the package's variable, set-ups, goroutines and what the
    outside sees: functions called with their arguments, connections closed and
    RPC methods called. *)
Record wasm := mkWasm {
  client : wasmClient;
  w_permsMgr : option PermsManager;
  w_conns : list websocketConn;
  w_goroutines : list wasmGo;
  w_skipVerify : bool;
  called : list (nat * list jsValue);
  w_closed : list nat;
  w_invoked : list (option nat * string * string * jsValue)
}.

Definition set_client v (s : wasm) : wasm :=
  mkWasm v (w_permsMgr s) (w_conns s) (w_goroutines s) (w_skipVerify s)
    (called s) (w_closed s) (w_invoked s).
Definition set_w_permsMgr v (s : wasm) : wasm :=
  mkWasm (client s) v (w_conns s) (w_goroutines s) (w_skipVerify s) (called s)
    (w_closed s) (w_invoked s).
Definition set_w_conns v (s : wasm) : wasm :=
  mkWasm (client s) (w_permsMgr s) v (w_goroutines s) (w_skipVerify s)
    (called s) (w_closed s) (w_invoked s).
Definition set_w_goroutines v (s : wasm) : wasm :=
  mkWasm (client s) (w_permsMgr s) (w_conns s) v (w_skipVerify s) (called s)
    (w_closed s) (w_invoked s).
Definition set_w_skipVerify v (s : wasm) : wasm :=
  mkWasm (client s) (w_permsMgr s) (w_conns s) (w_goroutines s) v (called s)
    (w_closed s) (w_invoked s).
Definition set_called v (s : wasm) : wasm :=
  mkWasm (client s) (w_permsMgr s) (w_conns s) (w_goroutines s)
    (w_skipVerify s) v (w_closed s) (w_invoked s).
Definition set_w_closed v (s : wasm) : wasm :=
  mkWasm (client s) (w_permsMgr s) (w_conns s) (w_goroutines s)
    (w_skipVerify s) (called s) v (w_invoked s).
Definition set_w_invoked v (s : wasm) : wasm :=
  mkWasm (client s) (w_permsMgr s) (w_conns s) (w_goroutines s)
    (w_skipVerify s) (called s) (w_closed s) v.

Definition onClient (f : wasmClient → wasmClient) : M wasm unit :=
  modify (λ s, set_client (f (client s)) s).

Definition w_go (g : wasmGo) : M wasm unit :=
  modify (λ s, set_w_goroutines (w_goroutines s ++ [g]) s).

(** [js.Global()], and what a function does with its arguments. *)
Context (Global : jsValue) (returns : nat → list jsValue → jsOutcome).

(** [v.Invoke(args)] and [v.Call(name, args)]; both panic when the function
    throws. *)
Definition Invoke (v : jsValue) (args : list jsValue) : M wasm jsValue :=
  match v with
  | JFunction f _ =>
      _ ← modify (λ s, set_called (called s ++ [(f, args)]) s);
      match returns f args with
      | Returns r => mret r
      | Throws _ => liftR (Panic JSException)
      end
  | _ => liftR (Panic JSValueError)
  end.

Definition Call (v : jsValue) (name : string) (args : list jsValue) : M wasm jsValue :=
  f ← liftR (valueGet v name); Invoke f args.

(** ** Operations *)

Definition callJsCallback (callbackName value : string) : M wasm unit :=
  r ← (match Split callbackName "." with
       | ns :: name :: _ =>
           jsScope ← liftR (valueGet Global ns); Call jsScope name [JString value]
       | _ => Call Global callbackName [JString value]
       end);
  if isEmptyObject r then mret tt else
  err ← liftR (valueGet r "err");
  if isEmptyObject err then mret tt else failM (ErrMsg (errorf (valueString err))).

Definition wasm_initGlobals : M wasm unit := λ s,
  match w_permsMgr s with
  | Some _ => (Ok tt, s)
  | None =>
      match NewManager with
      | Ok mgr =>
          let mgr := RegisterSubServer "taproot-assets" mgr in
          let mgr := RegisterSubServer "loop" mgr in
          let mgr := RegisterSubServer "pool" mgr in
          let mgr := RegisterSubServer "faraday" mgr in
          (Ok tt, set_w_permsMgr (Some mgr) s)
      | Err e => (Err e, s)
      | Panic p => (Panic p, s)
      end
  end.

Definition wasm_validateArgs (c : config) (localPrivKey remotePubKey : string) :
    result unit :=
  if bool_decide (remotePubKey ≠ "") && bool_decide (localPrivKey = "")
  then Err (ErrMsg "cannot set remote pub key if local priv key is not also set")
  else if bool_decide (localPrivKey = "") && bool_decide (OnLocalPrivCreate c = "")
  then Err (ErrMsg "OnLocalPrivCreate must be defined if a local key is not provided")
  else if bool_decide (remotePubKey = "") && bool_decide (OnRemoteKeyReceive c = "")
  then Err (ErrMsg "OnRemoteKeyReceive must be defined if a remote key is not provided")
  else Ok tt.

Definition wasm_parseKeys (newKey : result SingleKeyECDH)
    (onLocalPrivCreate localPrivKey remotePubKey : string) :
    M wasm (SingleKeyECDH * option PublicKey) :=
  if bool_decide (localPrivKey = "") && bool_decide (remotePubKey = "") then
    privKey ← liftR newKey;
    _ ← callJsCallback onLocalPrivCreate (EncodeToString (privSerialize privKey));
    mret (privKey, None)
  else if bool_decide (remotePubKey = "") then
    privKeyByte ← liftR (DecodeString localPrivKey);
    mret (PrivKeyFromBytes privKeyByte, None)
  else
    localPrivKeyBytes ← liftR (DecodeString localPrivKey);
    remoteKeyBytes ← liftR (DecodeString remotePubKey);
    remoteStaticKey ← liftR (ParsePubKey remoteKeyBytes);
    mret (PrivKeyFromBytes localPrivKeyBytes, Some remoteStaticKey).

Definition wasm_ConnectServer (newKey : result SingleKeyECDH) (args : list jsValue) :
    M wasm jsValue :=
  match args with
  | [a0; a1; a2; a3; a4] =>
      isDevServer ← liftR (valueBool a1);
      let localStatic := valueString a3 in
      let remoteStatic := valueString a4 in
      c ← gets (cfg ∘ client);
      _ ← liftR (wasm_validateArgs c localStatic remoteStatic);
      keys ← wasm_parseKeys newKey (OnLocalPrivCreate c) localStatic remoteStatic;
      _ ← (if (isDevServer : bool) then modify (set_w_skipVerify true) else mret tt);
      _ ← w_go (WConnect (valueString a0) (valueString a2) keys.1 keys.2);
      mret JNull
  | _ => mret (JString "invalid use of wasmClientConnectServer, need 5 parameters: server, isDevServer, pairingPhrase, localStaticPrivKey, remoteStaticPubKey")
  end.

(** The callbacks of the connection. *)
Definition w_onRemoteKey (key : option PublicKey) : M wasm unit :=
  c ← gets (cfg ∘ client);
  match key with
  | None => liftR (Panic NilDereference)
  | Some key =>
      callJsCallback (OnRemoteKeyReceive c) (EncodeToString (SerializeCompressed key))
  end.

Definition w_onAuth (data : bytes) : M wasm unit :=
  mac ← liftR (parseAuthData data);
  _ ← onClient (set_w_mac (Some mac));
  c ← gets (cfg ∘ client);
  callJsCallback (OnAuthData c) (stringOfBytes data).

(** The next step of a goroutine; [lndConnect] returns a nil connection with
    its error, and [Close] of a nil connection panics. *)
Definition wasmStep (dialled : result unit) (g : wasmGo) : M wasm (option wasmGo) :=
  match g with
  | WConnect mailboxServer pairingPhrase priv remote =>
      c ← liftR (NewClientWebsocketConn mailboxServer pairingPhrase priv remote
                   (λ _, Ok tt) (λ d, _ ← parseAuthData (default [] d); Ok tt));
      i ← gets (λ s, length (w_conns s));
      _ ← modify (λ s, set_w_conns (w_conns s ++ [c]) s);
      _ ← onClient (set_w_statusChecker (Some i));
      mret (Some (WDial i))
  | WDial c =>
      match dialled with
      | Ok _ => _ ← onClient (set_w_lndConn (Some c)); mret None
      | Err e => _ ← onClient (set_w_lndConn None); failM e
      | Panic x => liftR (Panic x)
      end
  | WClose args =>
      conn ← gets (w_lndConn ∘ client);
      match conn with
      | None => liftR (Panic NilDereference)
      | Some c =>
          _ ← modify (λ s, set_w_closed (w_closed s ++ [c]) s);
          mret (Some (WClosed args))
      end
  | WClosed args =>
      _ ← onClient (set_w_lndConn None);
      match args with
      | JFunction f fields :: _ => _ ← Invoke (JFunction f fields) []; mret None
      | _ => mret None
      end
  | WRPC rpcName requestJSON callback =>
      conn ← gets (w_lndConn ∘ client);
      _ ← modify (λ s, set_w_invoked
                         (w_invoked s ++ [(conn, rpcName, requestJSON, callback)]) s);
      mret (Some WWait)
  | WWait => mret (Some WWait)
  end.

Definition IsReady : M wasm jsValue := mret (JBool true).

Definition wasm_IsConnected : M wasm jsValue :=
  conn ← gets (w_lndConn ∘ client); mret (JBool (bool_decide (conn ≠ None))).

Definition wasm_Disconnect (args : list jsValue) : M wasm jsValue :=
  conn ← gets (w_lndConn ∘ client);
  _ ← (if bool_decide (conn ≠ None) then w_go (WClose args) else mret tt);
  mret JNull.

Definition wasm_Status (status : nat → ClientStatus) : M wasm jsValue :=
  checker ← gets (w_statusChecker ∘ client);
  mret (match checker with None => JNull | Some c => JString (statusString (status c)) end).

Definition wasm_InvokeRPC (args : list jsValue) : M wasm jsValue :=
  match args with
  | [a0; a1; a2] =>
      conn ← gets (w_lndConn ∘ client);
      if bool_decide (conn = None) then mret (JString "RPC connection not ready") else
      let rpcName := valueString a0 in
      reg ← gets (w_registry ∘ client);
      if bool_decide (rpcName ∈ reg)
      then _ ← w_go (WRPC rpcName (valueString a1) a2); mret JNull
      else mret (JString ("rpc with name " +:+ rpcName +:+ " not found"))
  | _ => mret (JString "invalid use of wasmClientInvokeRPC, need 3 parameters: rpcName, request, callback")
  end.

(** The callback a method gets. *)
Definition w_rpcDone (callback : jsValue) (outcome : string + error) : M wasm unit :=
  _ ← Invoke callback [JString (match outcome with inl json => json
                                | inr err => errorText err end)];
  mret tt.

(** [GetExpiry]; [number] is the text of a number. *)
Definition wasm_GetExpiry (number : Z → string) : M wasm jsValue :=
  mac ← gets (w_mac ∘ client);
  mret (match mac ≫= ExpiryTime with None => JNull | Some t => JNumber (number t) end).

(** A query on the operations of the macaroon; no, without a good one. *)
Definition withOps (f : list Op → bool) : M wasm jsValue :=
  mac ← gets (w_mac ∘ client);
  match mac with
  | None => mret (JBool false)
  | Some mac =>
      match extractMacaroonOps mac with
      | Ok ops => mret (JBool (f ops))
      | Err e => mret (JBool false)
      | Panic x => liftR (Panic x)
      end
  end.

Definition wasm_IsReadOnly : M wasm jsValue := withOps isReadOnly.

Definition IsCustom : M wasm jsValue := withOps hasCustomURI.

Definition wasm_HasPermissions (args : list jsValue) : M wasm jsValue :=
  match args with
  | [a0] =>
      mac ← gets (w_mac ∘ client);
      match mac with
      | None => mret (JBool false)
      | Some _ =>
          let uri := jsonToURI (valueString a0) in
          mgr ← gets w_permsMgr;
          match mgr with
          | None => liftR (Panic NilDereference)
          | Some mgr =>
              match URIPermissions uri mgr with
              | None => mret (JBool false)
              | Some ops => withOps (λ macOps, wasm_hasPermissions uri macOps ops)
              end
          end
      end
  | _ => mret (JBool false)
  end.

(** ** [main] *)

(** The names under which the methods appear, numbered as functions. *)
Definition callbackNames : list string :=
  ["wasmClientIsReady"; "wasmClientConnectServer"; "wasmClientIsConnected";
   "wasmClientDisconnect"; "wasmClientInvokeRPC"; "wasmClientStatus";
   "wasmClientGetExpiry"; "wasmClientHasPerms"; "wasmClientIsReadOnly";
   "wasmClientIsCustom"].

Definition callbacks : list (string * jsValue) :=
  imap (λ i name, (name, JFunction i [])) callbackNames.

(** [for cb, name := range callbacks { nsObj.Set(cb, name) }]. *)
Definition setAll (ps : list (string * jsValue)) (v : jsValue) : result jsValue :=
  fold_left (λ r p, v ← r; valueSet p.1 p.2 v) ps (Ok v).

(** The namespace object with the callbacks set; an existing object keeps its
    other fields. *)
Definition setCallbacks (nameSpace : string) (global : jsValue) : result jsValue :=
  nsObj ← valueGet global nameSpace;
  nsObj' ← (if isEmptyObject nsObj then Ok (JObject callbacks)
            else setAll callbacks nsObj);
  valueSet nameSpace nsObj' global.

(** The set-up of [main]: the process exits on the first error.  [parsed] is the
    outcome of parsing the flags, [intercepted] and [levels] of the signal
    interceptor and the log levels; [registered] are the names of
    [litrpc.Registrations]. *)
Definition setup (parsed : result config) (intercepted : result unit)
    (levels : string → result unit) (registered : list string) :
    result (wasm * jsValue) :=
  mgr ← (let s := mkWasm (mkWasmClient (mkConfig "" "" "" "" "") None None None [])
                    None [] [] false [] [] [] in
         match wasm_initGlobals s with
         | (Ok _, s) => Ok (w_permsMgr s)
         | (Err e, _) => Err e
         | (Panic p, _) => Panic p
         end);
  c ← parsed;
  _ ← intercepted;
  _ ← levels (DebugLevel c);
  wc ← (match newWasmClient c with
        | Err e => Err (ErrWrap "config validation error: " e)
        | r => r
        end);
  global ← setCallbacks (NameSpace c) Global;
  Ok (mkWasm (set_w_registry (w_registry wc ++ registered) wc) mgr [] [] false [] [] [],
      global).

End Wasm.

(** ** Callbacks *)

(** The function a callback name stands for: a field of the global object, or a
    field of an object in it. *)
Inductive names (Global : jsValue) : string → nat → Prop :=
| names_global name f fs fields :
    hasChar "." name = false → Global = JObject fields →
    lookupField name fields = JFunction f fs → names Global name f
| names_member ns name f fs fields members :
    hasChar "." ns = false → hasChar "." name = false → Global = JObject fields →
    lookupField ns fields = JObject members →
    lookupField name members = JFunction f fs → names Global (ns +:+ "." +:+ name) f.

(** Values without properties. *)
Definition primitive (v : jsValue) : bool :=
  match v with JBool _ | JNumber _ | JString _ | JSymbol => true | _ => false end.

(** Null and undefined, primitive values, and values with properties. *)
Lemma jsValue_cases v name :
  (isEmptyObject v = true ∧ primitive v = false ∧ ∃ p, valueGet v name = Panic p)
  ∨ (isEmptyObject v = false ∧ primitive v = true ∧ ∃ p, valueGet v name = Panic p)
  ∨ (isEmptyObject v = false ∧ primitive v = false ∧ ∃ x, valueGet v name = Ok x).
Proof.
  destruct v; cbn [isEmptyObject primitive valueGet];
    first [left; by eauto|right; left; by eauto|right; right; by eauto].
Qed.

(** What [callJsCallback] makes of what a callback does. *)
Definition callbackOutcome (o : jsOutcome) : result unit :=
  match o with
  | Throws _ => Panic JSException
  | Returns r =>
      if isEmptyObject r then Ok tt else
      err ← valueGet r "err";
      if isEmptyObject err then Ok tt else Err (ErrMsg (errorf (valueString err)))
  end.

Lemma callJsCallback_spec {CR : Crypto} {MC : Macaroons} Global returns name value f
    (s : wasm) :
  names Global name f →
  callJsCallback Global returns name value s =
  (callbackOutcome (returns f [JString value]),
   set_called (called s ++ [(f, [JString value])]) s).
Proof.
  intros Hn. unfold callJsCallback, callbackOutcome, Call, Invoke, Split.
  destruct Hn as [name f fs fields Hdot -> Hf|ns name f fs fields ms Hns Hname -> Hm Hf];
    mstep.
  - rewrite splitOn_last by first [by apply occurs_hasChar|lia].
    cbn [valueGet]. rewrite Hf. mstep. destruct (returns f _) as [r|]; [|done].
    destruct (isEmptyObject _); [done|]. destruct (valueGet _ _) as [err| |]; [|done..].
    by destruct (isEmptyObject err).
  - destruct (splitOn_part (S (String.length (ns +:+ "." +:+ name))) "." "" ns name "")
      as (fuel & Hfuel & Hsplit); [done|lia|].
    rewrite Hsplit, splitOn_last by first [by apply occurs_hasChar|done].
    cbn [valueGet]. change ("" +:+ ns) with ns. change ("" +:+ name) with name.
    rewrite Hm. cbn [valueGet]. rewrite Hf. mstep.
    destruct (returns f _) as [r|]; [|done]. destruct (isEmptyObject _); [done|]. destruct (valueGet _ _) as [err| |]; [|done..].
    by destruct (isEmptyObject err).
Qed.

Lemma lookupField_set k x name fields :
  lookupField name ((k, x) :: List.filter (λ p, negb (bool_decide (p.1 = k))) fields) =
  if bool_decide (k = name) then x else lookupField name fields.
Proof.
  cbn [lookupField]. case_bool_decide as Hk; [done|].
  induction fields as [|[k' v] fields IH]; [done|]. cbn [List.filter fst].
  destruct (decide (k' = k)) as [->|Hne].
  - rewrite (bool_decide_eq_true_2 (k = k)) by done. cbn [negb lookupField].
    by rewrite (bool_decide_eq_false_2 (k = name)).
  - rewrite (bool_decide_eq_false_2 (k' = k)) by done. cbn [negb lookupField].
    by rewrite IH.
Qed.

(** Setting fields one after another: the last one for a name wins, and names
    that are not set keep their value.  [wrap] makes an object or a function. *)
Lemma setFields_spec (wrap : list (string * jsValue) → jsValue) ps fields :
  (∀ k x fs, valueSet k x (wrap fs) =
     Ok (wrap ((k, x) :: List.filter (λ p, negb (bool_decide (p.1 = k))) fs))) →
  ∃ fields', setAll ps (wrap fields) = Ok (wrap fields')
  ∧ (∀ name, name ∉ ps.*1 → lookupField name fields' = lookupField name fields)
  ∧ (NoDup ps.*1 → ∀ name v, (name, v) ∈ ps → lookupField name fields' = v).
Proof.
  intros Hset. unfold setAll. revert fields. induction ps as [|[k x] ps IH]; intros fields.
  { exists fields. split_and!; try done. intros _ ? ? Hin. by inv Hin. }
  cbn [fold_left fst snd]. mstep. rewrite Hset.
  destruct (IH ((k, x) :: List.filter (λ p, negb (bool_decide (p.1 = k))) fields))
    as (fields' & Hf & Hout & Hin).
  exists fields'. split; [exact Hf|]. split.
  - intros name Hn. cbn [fmap list_fmap fst] in Hn. rewrite Hout, lookupField_set.
    + rewrite bool_decide_eq_false_2; [done|]. intros ->. apply Hn. by left.
    + intros Hx. apply Hn. by right.
  - cbn [fmap list_fmap fst]. rewrite list.NoDup_cons. intros [Hk Hnd] name v Hnv.
    apply elem_of_cons in Hnv as [[= -> ->]|Hnv]; [|by apply Hin].
    rewrite Hout by done. rewrite lookupField_set.
    by rewrite bool_decide_eq_true_2.
Qed.

Lemma callbacks_names : callbacks.*1 = callbackNames.
Proof. reflexivity. Qed.

Lemma callbackNames_NoDup : NoDup callbackNames.
Proof. apply (bool_decide_unpack _). by vm_compute. Qed.

Lemma callbacks_elem i name :
  callbackNames !! i = Some name → (name, JFunction i []) ∈ callbacks.
Proof.
  intros Hi. apply list_elem_of_lookup. exists i. unfold callbacks.
  by rewrite list_lookup_imap, Hi.
Qed.

Lemma lookupField_elem fields name v :
  NoDup fields.*1 → (name, v) ∈ fields → lookupField name fields = v.
Proof.
  induction fields as [|[k x] fields IH]; [by inversion 2|].
  cbn [fmap list_fmap fst lookupField]. rewrite list.NoDup_cons. intros [Hk Hnd] Hin.
  apply elem_of_cons in Hin as [[= -> ->]|Hin]; [by rewrite bool_decide_eq_true_2|].
  rewrite bool_decide_eq_false_2; [by apply IH|]. intros ->. apply Hk.
  by apply (list_elem_of_fmap_2 fst _ (name, v)).
Qed.

Lemma callbacks_lookup i name :
  callbackNames !! i = Some name → lookupField name callbacks = JFunction i [].
Proof.
  intros Hi. apply lookupField_elem; [|by apply callbacks_elem].
  rewrite callbacks_names. apply callbackNames_NoDup.
Qed.

(** The namespace object after [main]. *)
Lemma setCallbacks_spec fields ns global :
  setCallbacks ns (JObject fields) = Ok global →
  ∃ obj, global = JObject ((ns, obj) :: List.filter (λ p, negb (bool_decide (p.1 = ns))) fields)
  ∧ (∀ i name, callbackNames !! i = Some name → valueGet obj name = Ok (JFunction i []))
  ∧ (∀ old name, lookupField ns fields = JObject old → name ∉ callbackNames →
       valueGet obj name = Ok (lookupField name old)).
Proof.
  assert (Hget : ∀ wrap fs,
    (∀ k x fs, valueSet k x (wrap fs) =
      Ok (wrap ((k, x) :: List.filter (λ p, negb (bool_decide (p.1 = k))) fs))) →
    (∀ n fs, valueGet (wrap fs) n = Ok (lookupField n fs)) →
    ∃ fs', setAll callbacks (wrap fs) = Ok (wrap fs')
    ∧ (∀ i name, callbackNames !! i = Some name →
         valueGet (wrap fs') name = Ok (JFunction i []))
    ∧ (∀ name, name ∉ callbackNames →
         valueGet (wrap fs') name = Ok (lookupField name fs))).
  { intros wrap fs Hset Hgets.
    destruct (setFields_spec wrap callbacks fs Hset) as (fs' & Hf & Hout & Hin).
    rewrite callbacks_names in *. exists fs'. split; [done|]. split.
    - intros i name Hi. rewrite Hgets. f_equal. apply Hin; [apply callbackNames_NoDup|].
      by apply callbacks_elem.
    - intros name Hn. rewrite Hgets. f_equal. by apply Hout. }
  unfold setCallbacks. cbn [valueGet]. mstep.
  destruct (lookupField ns fields) as [| |b|t|t| |old|g old] eqn:Hns;
    cbn [isEmptyObject]; try (cbn; done).
  - intros [= <-]. exists (JObject callbacks). split; [done|]. split; [|done].
    intros i name Hi. cbn [valueGet]. f_equal. by apply callbacks_lookup.
  - intros [= <-]. exists (JObject callbacks). split; [done|]. split; [|done].
    intros i name Hi. cbn [valueGet]. f_equal. by apply callbacks_lookup.
  - destruct (Hget JObject old) as (fs' & -> & Hin & Hout); [done..|].
    intros [= <-]. exists (JObject fs'). split_and!; try done.
    intros ? name [= <-]. apply Hout.
  - destruct (Hget (JFunction g) old) as (fs' & -> & Hin & Hout); [done..|].
    intros [= <-]. by exists (JFunction g fs').
Qed.

(** ** Properties *)

(** C32: callbacks by name.  For a name [f] or [object.f] that stands for a
    function, [callJsCallback] calls that function once with the value.  It
    succeeds exactly when the function returns null, undefined or an object
    without an [err] field.  It fails exactly when the function returns an object
    with one, and the message is that text put through [fmt.Errorf] as a format:
    the text itself when it holds no percent sign, while a text that ends in a
    percent sign gets a [NOVERB] note for it.  It panics when the function throws
    or returns a boolean, a number, a string or a symbol. *)
Theorem browser_callback {CR : Crypto} {MC : Macaroons} Global returns name value f
    (s : wasm) :
  names Global name f →
  ∃ r, callJsCallback Global returns name value s =
       (r, set_called (called s ++ [(f, [JString value])]) s)
  ∧ match returns f [JString value] with
    | Throws _ => r = Panic JSException
    | Returns v =>
        (r = Ok tt ↔ isEmptyObject v = true
           ∨ ∃ x, valueGet v "err" = Ok x ∧ isEmptyObject x = true)
        ∧ (∀ e, r = Err e ↔
           ∃ x, valueGet v "err" = Ok x ∧ isEmptyObject x = false
                ∧ e = ErrMsg (errorf (valueString x)))
        ∧ (∀ x text, valueGet v "err" = Ok x → isEmptyObject x = false →
           hasChar "%" text = false →
           (valueString x = text → r = Err (ErrMsg text))
           ∧ (valueString x = text +:+ "%" → r = Err (ErrMsg (text +:+ "%!(NOVERB)"))))
        ∧ (is_panic r = true ↔ primitive v = true)
    end.
Proof.
  intros Hn. eexists. split; [by apply callJsCallback_spec|].
  unfold callbackOutcome. destruct (returns f [JString value]) as [v|v]; [|done].
  assert (Htext : ∀ x text, hasChar "%" text = false →
    (valueString x = text → ErrMsg (errorf (valueString x)) = ErrMsg text)
    ∧ (valueString x = text +:+ "%" →
       ErrMsg (errorf (valueString x)) = ErrMsg (text +:+ "%!(NOVERB)"))).
  { intros x text Ht. split; intros ->; [by rewrite errorf_plain|].
    by rewrite errorf_prefix. }
  destruct (jsValue_cases v "err")
    as [(-> & -> & p & ->)|[(-> & -> & p & ->)|(-> & -> & x & ->)]].
  - split_and!; [|intros e; split|done|done]; [by split; [left|]|done|by intros (? & ? & _)].
  - split_and!; [|intros e; split|done|done]; [|done|by intros (? & ? & _)].
    by split; [|intros [?|(? & ? & _)]].
  - mstep. destruct (isEmptyObject x) eqn:Hx; split_and!.
    + split; [right; by exists x|done].
    + intros e; split; [done|]. intros (y & [= <-] & ? & _). congruence.
    + intros y text [= <-] ?. congruence.
    + done.
    + split; [done|]. intros [?|(y & [= <-] & ?)]; congruence.
    + intros e; split; [intros [= <-]; by exists x|]. by intros (y & [= <-] & _ & ->).
    + intros y text [= <-] _ Ht. destruct (Htext x text Ht) as [H1 H2].
      split; intros ?; f_equal; auto.
    + done.
Qed.

(** Starting in the browser.  [main] fails without a namespace; otherwise the
    ten methods appear in the namespace object, an object that was already there
    keeps all its other fields, and the other globals are untouched. *)
Theorem namespace_object {CR : Crypto} {MC : Macaroons} fields ns parsed s global
    intercepted levels registered :
  NameSpace parsed = ns →
  setup (JObject fields) (Ok parsed) intercepted levels registered = Ok (s, global) →
  ns ≠ "" ∧ (∃ mgr, w_permsMgr s = Some mgr) ∧ w_lndConn (client s) = None
  ∧ (∀ name, name ≠ ns →
       valueGet global name = Ok (lookupField name fields))
  ∧ ∃ obj, valueGet global ns = Ok obj
    ∧ (∀ i name, callbackNames !! i = Some name → valueGet obj name = Ok (JFunction i []))
    ∧ (∀ old name, lookupField ns fields = JObject old → name ∉ callbackNames →
         valueGet obj name = Ok (lookupField name old)).
Proof.
  intros Hns. unfold setup, wasm_initGlobals. cbv zeta. cbn [w_permsMgr].
  destruct NewManager as [mgr|e|p]; [|done..]. mstep.
  destruct intercepted; [|done..]. destruct (levels _); [|done..].
  unfold newWasmClient. rewrite Hns. case_bool_decide as Hne; [done|].
  destruct (setCallbacks ns (JObject fields)) as [g|e|p] eqn:Hg; [|done..].
  intros [= <- <-]. apply setCallbacks_spec in Hg as (obj & -> & Hin & Hout).
  split_and!; try done; [by eauto| |].
  - intros name Hn. cbn [valueGet]. rewrite lookupField_set.
    by rewrite bool_decide_eq_false_2.
  - exists obj. split; [|done]. cbn [valueGet]. rewrite lookupField_set.
    by rewrite bool_decide_eq_true_2.
Qed.

(** Permission queries in the browser.  With a macaroon whose operations can
    be read, the query for an RPC the manager knows is answered yes exactly when
    the macaroon lists its URI or holds every operation it requires; an RPC the
    manager does not know is refused even if the macaroon lists its URI. *)
Theorem browser_permission_query {CR : Crypto} {MC : Macaroons} v mac mgr ops (s : wasm) :
  w_mac (client s) = Some mac → w_permsMgr s = Some mgr →
  extractMacaroonOps mac = Ok ops →
  let uri := jsonToURI (valueString v) in
  wasm_HasPermissions [v] s =
  (Ok (JBool match URIPermissions uri mgr with
             | None => false
             | Some req => existsb (grantsURI uri) ops || hasPermissions ops req
             end), s)
  ∧ (IsCustom s = (Ok (JBool true), s) ↔
     ∃ op, op ∈ ops ∧ Entity op = PermissionEntityCustomURI).
Proof.
  intros Hmac Hmgr Hops uri. split.
  - unfold wasm_HasPermissions, withOps, compose. mstep. rewrite Hmac, Hmgr.
    fold uri. destruct (URIPermissions uri mgr) as [req|]; [|done].
    rewrite Hmac, Hops. unfold wasm_hasPermissions. rewrite wasm_addOps_spec.
    by destruct (existsb _ _).
  - unfold IsCustom, withOps, compose. mstep. rewrite Hmac, Hops. unfold hasCustomURI.
    split.
    + intros [= (op & Hin & Hop)%existsb_exists]. exists op.
      split; [by apply list_elem_of_In|by apply bool_decide_eq_true in Hop].
    + intros (op & Hin & Hop). do 3 f_equal. apply existsb_exists. exists op.
      split; [by apply list_elem_of_In|by apply bool_decide_eq_true].
Qed.

(** Disconnecting twice.  One [Disconnect] of a connected client closes the
    connection, forgets it and calls the function it was given.  Two calls
    before the first has finished start two goroutines; the second one finds no
    connection and panics. *)
Theorem disconnect_twice {CR : Crypto} {NK : NativeKeys} {MN : Mnemonics} {MC : Macaroons}
    returns dialled c f fs args (s : wasm) :
  w_lndConn (client s) = Some c → (∃ v, returns f [] = Returns v) →
  ∃ s1 s2 s3 s4, let step := wasmStep returns dialled in
  wasm_Disconnect [JFunction f fs] s = (Ok JNull, s1)
  ∧ w_goroutines s1 = w_goroutines s ++ [WClose [JFunction f fs]]
  ∧ wasm_Disconnect args s1 = (Ok JNull, s2)
  ∧ w_goroutines s2 = w_goroutines s1 ++ [WClose args]
  ∧ step (WClose [JFunction f fs]) s2 = (Ok (Some (WClosed [JFunction f fs])), s3)
  ∧ step (WClosed [JFunction f fs]) s3 = (Ok None, s4)
  ∧ w_closed s4 = w_closed s ++ [c] ∧ called s4 = called s ++ [(f, [])]
  ∧ w_lndConn (client s4) = None
  ∧ step (WClose args) s4 = (Panic NilDereference, s4).
Proof.
  intros Hc [v Hv].
  set (s1 := set_w_goroutines (w_goroutines s ++ [WClose [JFunction f fs]]) s).
  set (s2 := set_w_goroutines (w_goroutines s1 ++ [WClose args]) s1).
  set (s3 := set_w_closed (w_closed s2 ++ [c]) s2).
  assert (Hc1 : w_lndConn (client s1) = Some c) by done.
  assert (Hc2 : w_lndConn (client s2) = Some c) by done.
  exists s1, s2, s3, (set_called (called s3 ++ [(f, [])])
                        (set_client (set_w_lndConn None (client s3)) s3)).
  cbv zeta. unfold wasm_Disconnect, wasmStep, compose. mstep.
  rewrite Hc, Hc1, Hc2. unfold Invoke. mstep. rewrite Hv. by split_and!.
Qed.

(** ** A browser client *)

#[local] Existing Instances toyCrypto toyKeys bitStreams toyMacaroons.

Definition demoGlobal : jsValue :=
  JObject [("save", JFunction 7 []);
           ("app", JObject [("theme", JString "dark"); ("saveKey", JFunction 8 [])])].

Definition demoReturns (f : nat) (args : list jsValue) : jsOutcome :=
  if bool_decide (f = 8%nat) then Returns (JObject [("err", JString "disk at 100%")])
  else Returns JUndefined.

Definition demoConfig : config := mkConfig "" "app" "save" "app.saveKey" "save".

Definition demoWasm : wasm :=
  match setup demoGlobal (Ok demoConfig) (Ok tt) (λ _, Ok tt) ["lnrpc.State.GetState"] with
  | Ok (s, _) => s
  | _ => mkWasm (mkWasmClient demoConfig None None None []) None [] [] false [] [] []
  end.

Lemma browser_callback_witness :
  callJsCallback demoGlobal demoReturns "app.saveKey" "00ff" demoWasm =
  (Err (ErrMsg "disk at 100%!(NOVERB)"),
   set_called [(8%nat, [JString "00ff"])] demoWasm).
Proof.
  destruct (browser_callback demoGlobal demoReturns "app.saveKey" "00ff" 8%nat demoWasm)
    as (r & Hr & _ & _ & Htext & _).
  - eapply (names_member demoGlobal "app" "saveKey" 8%nat []); reflexivity.
  - destruct (Htext (JString "disk at 100%") "disk at 100" eq_refl eq_refl eq_refl)
      as [_ Herr].
    specialize (Herr eq_refl). rewrite Herr in Hr. exact Hr.
Defined.

Lemma namespace_object_witness : ∃ s global obj,
  setup demoGlobal (Ok demoConfig) (Ok tt) (λ _, Ok tt) ["lnrpc.State.GetState"]
    = Ok (s, global)
  ∧ valueGet global "app" = Ok obj ∧ valueGet obj "theme" = Ok (JString "dark")
  ∧ valueGet obj "wasmClientStatus" = Ok (JFunction 5 []).
Proof.
  destruct (setup demoGlobal (Ok demoConfig) (Ok tt) (λ _, Ok tt) ["lnrpc.State.GetState"])
    as [[s global]|e|p] eqn:Hs; [|vm_compute in Hs; discriminate Hs..].
  destruct (namespace_object _ "app" demoConfig s global (Ok tt) (λ _, Ok tt)
    ["lnrpc.State.GetState"] eq_refl Hs) as (_ & _ & _ & _ & obj & Hobj & Hin & Hout).
  exists s, global, obj. split; [reflexivity|]. split; [exact Hobj|]. split.
  - rewrite (Hout [("theme", JString "dark"); ("saveKey", JFunction 8 [])] "theme");
      [reflexivity|reflexivity|].
    apply (bool_decide_unpack _). vm_compute. reflexivity.
  - apply Hin. reflexivity.
Defined.

Definition demoAuthed : wasm :=
  (w_onAuth demoGlobal demoReturns (bytesOfString "Macaroon: 03") demoWasm).2.

Lemma browser_permission_query_witness :
  wasm_HasPermissions [JString "lnrpc.Lightning.WalletBalance"] demoAuthed
    = (Ok (JBool true), demoAuthed)
  ∧ wasm_HasPermissions [JString "lnrpc.State.GetState"] demoAuthed
    = (Ok (JBool false), demoAuthed).
Proof.
  split.
  - refine (eq_trans (proj1 (browser_permission_query
      (JString "lnrpc.Lightning.WalletBalance") ([3] : @Macaroon toyMacaroons)
      (tt : @PermsManager toyMacaroons) _ demoAuthed _ _ _)) _);
      [vm_compute; reflexivity|vm_compute; reflexivity|reflexivity|vm_compute; reflexivity].
  - refine (eq_trans (proj1 (browser_permission_query
      (JString "lnrpc.State.GetState") ([3] : @Macaroon toyMacaroons)
      (tt : @PermsManager toyMacaroons) _ demoAuthed _ _ _)) _);
      [vm_compute; reflexivity|vm_compute; reflexivity|reflexivity|vm_compute; reflexivity].
Defined.

Lemma disconnect_twice_witness : ∃ s4 : wasm,
  wasmStep demoReturns (Ok tt) (WClose []) s4 = (Panic NilDereference, s4)
  ∧ called s4 = [(7%nat, [])].
Proof.
  destruct (disconnect_twice demoReturns (Ok tt) 0%nat 7%nat [] []
    (set_client (set_w_lndConn (Some 0%nat) (client demoWasm)) demoWasm))
    as (s1 & s2 & s3 & s4 & H').
  - reflexivity.
  - eexists. reflexivity.
  - exists s4. destruct H' as (_ & _ & _ & _ & _ & _ & _ & Hcalled & _ & Hp).
    split; [exact Hp|exact Hcalled].
Defined.
